(* ===== verification/_CoqProject ===== *)
-Q . S2P
Prelude.v
Bitvec.v
Bits.v
ConstantDivision.v
APInt.v
ExprData.v
ExprConstants.v
ExprCasts.v
ExprBinary.v
ExprBinaryProofs.v
ExprSelectRead.v
ExprMeasure.v
BitfieldSimplifier.v
BitfieldProofs.v
BitfieldCorrect.v
ExprVisitor.v
ExprEval.v
ExprUtil.v
Constraints.v
Solver.v
Footprint.v
ReferenceSolver.v
SolverProofs.v
StagedSolver.v
ValidatingSolver.v
CachingSolver.v
IndependentSolver.v
MapOfSets.v
CexCachingSolver.v
StreamAnalyzer.v
Selectors.v
SelectorProofs.v
CallTracer.v
InterpreterTracer.v
HighLevelExecutor.v
HighLevelExecutorProofs.v
BitArray.v
ObjectState.v
ObjectStateProofs.v
SearchTree.v
ImmutableTree.v
ImmutableTreeProofs.v
TreeIterators.v
ImmutableTreeCorrect.v
AddressSpace.v
Resolution.v
CopyOnWrite.v
STPExpr.v
STPBuilder.v
STPArithmetic.v
STPBuilderProofs.v
STPProcedure.v
STPSolver.v
STPReinstantiation.v
SolverChain.v
