(* ===== verification/Prelude.v ===== *)
(** * Verification of the symbolic-execution core of Chef

    Chef turns the interpreter of a high-level language into a symbolic execution
    engine: it runs the interpreter under S2E, which runs a virtual machine (QEMU)
    and explores it with KLEE, and it steers the exploration by the program counter
    of the interpreted program (the HLPC).  This development models the parts of
    the repository that decide what is computed: the expressions and solvers of KLEE
    (under [src/klee]), its memory, and the analyses and strategies of Chef (under
    [src/qemu/s2e/Chef]), and proves them correct.

    ** How the parts fit together

    Guest memory holds bytes that are constants or expressions ([ObjectState]); the
    objects of a state are kept in a persistent map ([ImmutableTree]), are shared between
    forked states until they are written, and are found by their addresses with the help
    of the solver ([AddressSpace]).  Expressions are
    built by creation functions that rewrite ([Expr*]) and are simplified bit by bit
    ([Bitfield*]).  Branches on expressions add path constraints to a shared tree
    ([Constraints]) and ask a chain of solvers, each of which wraps the next one:
    [Solver] at the front, then the solvers of S2E that notify and log, the validating,
    independence, caching, counterexample-caching and staged solvers, with STP or Z3 at the
    end, as the options say ([SolverChain]); the STP solver translates
    the constraints and the expression to terms of STP ([STPBuilder]), asserts them and
    reads the bytes of a counterexample back ([STPSolver]).  When a state forks,
    the analyses of Chef get copies of their data ([StreamAnalyzer]); the call tracer
    follows the native stack ([CallTracer]), the interpreter tracer follows the stack
    of the interpreted program on it ([InterpreterTracer]), and the high-level
    executor groups the states by the high-level path they are on and selects the
    one to run ([HighLevelExecutor], [Selectors]).

    ** Conventions

    A C++ function is a Rocq function of the same name where that is free.  A machine
    integer is a [Z] with its wrap-around written out ([u32], [u64], [mod 2 ^ w]).
    Code that can fail an [assert], read past the end of an array, use deleted memory
    or an iterator that is no longer valid, or reach another operation that C++ leaves
    undefined returns an [outcome]; stateful code is in the monad [M S].  [m ⇓ P] and
    [runs m s P] are total correctness: the call returns, and what it returns
    satisfies [P].  Recursions that are not structural take fuel, and the fuel that the
    callers pass is proved to be enough: for the creation functions it is computed from
    the size of the operands, for trees from the height of the root, for binary
    searches from the width of the integers, for the selection loop of the executor
    from the number of nodes, for the translation to STP from the widths of constants.

    ** Files

    - This file: outcomes, the state monad, bounded integers, tactics, hints.
    - [Bitvec]: the operations of bitvectors at a width, the reference semantics.
      [Bits]: [klee/util/Bits.h] and [IntEvaluation.h].  [APInt]: the operations of
      [llvm::APInt], a parameter with its documented laws.
    - [ExprData]: the classes of [klee/Expr.h], widths, hashing, comparison, and the
      value of an expression.  [ExprConstants], [ExprCasts], [ExprBinary],
      [ExprSelectRead]: the creation functions of [lib/Expr/Expr.cpp], with the proofs
      of the binary ones in [ExprBinaryProofs].  [ExprMeasure]: a size of expressions
      that simplification does not increase.
    - [BitfieldSimplifier], [BitfieldProofs], [BitfieldCorrect]: the known bits and the
      simplifier of [lib/Expr/BitfieldSimplifier.cpp].
    - [ExprVisitor], [ExprEval], [ExprUtil]: the visitor with its memo table, the
      evaluation under an assignment of [ExprEvaluator] and [Assignment.h], and the
      searches for reads and arrays of [ExprUtil.cpp].
    - [Constraints]: the tree of conditions of [Constraints.h] with its weak references.
    - [Solver], [SolverProofs]: [Solver.h], [SolverImpl.h] and [Solver.cpp] with the
      contract [sound] of an implementation.  [Footprint]: what an expression depends
      on.  [ReferenceSolver]: an implementation that satisfies the contract.
      [StagedSolver], [ValidatingSolver], [CachingSolver], [IndependentSolver],
      [MapOfSets], [CexCachingSolver]: the solvers of [lib/Solver] of these names and
      the tree of sets that the last one searches.
    - [ConstantDivision]: the constants by which [lib/Solver/ConstantDivision.cpp] replaces
      multiplications and divisions.  [STPExpr]: terms of STP, their type check and the
      functions of [stp/src/c_interface] that build them; the factory of nodes is the
      interface [NodeFactory].  [STPBuilder], [STPArithmetic], [STPBuilderProofs]: the
      translation of [lib/Solver/STPBuilder.cpp], its shifts, multiplications and
      divisions, and its correctness.  [STPProcedure]: the decision procedure of STP as an
      interface, and a procedure that satisfies it.  [STPSolver]:
      [lib/Solver/STPSolver.cpp].  [STPReinstantiation]: what its option to start every
      query with a new validity checker leads to.
    - [SolverChain]: [lib/Core/SolverFactory.cpp] and [S2ESolverFactory.cpp], which put the
      solvers together, and [PCLoggingSolver.cpp] and [DataCollectorSolver.cpp].
    - [BitArray], [ObjectState], [ObjectStateProofs]: [klee/util/BitArray.h] and the
      object states of [Memory.h] and [lib/Core/Memory.cpp].
    - [AddressSpace]: [klee/AddressSpace.h], [lib/Core/AddressSpace.cpp] and
      [lib/Core/TimingSolver.cpp], with a heap of object states and several address spaces;
      the map of a space is the sorted list of its pairs, which [ImmutableTree] implements.
      [Resolution]: the resolution of addresses.  [CopyOnWrite]: isolation of the spaces.
    - [SearchTree]: search trees as values and sorted lists.  [ImmutableTree],
      [ImmutableTreeProofs], [TreeIterators], [ImmutableTreeCorrect]: the persistent trees
      of [Internal/ADT/ImmutableTree.h] on a heap with reference counts, their
      iterators, and programs that use them.
    - [StreamAnalyzer], [CallTracer], [InterpreterTracer], [Selectors],
      [SelectorProofs], [HighLevelExecutor], [HighLevelExecutorProofs]: the files of
      these names under [src/qemu/s2e] and [src/qemu/s2e/Chef].

    ** What the theorems show

    - Expressions: every creation function terminates and returns a well-formed
      expression with the value of the operation; so do rebuilding, evaluation and,
      apart from a cache that is proved unsound, the simplifier.
    - Solvers: each layer satisfies the contract if the next one does, with the
      invariant of its cache; the methods of [Solver], the search for the range of
      an expression and the choice of independent constraints are exact.  Some layers need
      a class of queries, which is a premise of their theorems ([QueryClass]): the
      independence solver reads of constant arrays inside their bounds, the counterexample
      cache and STP expressions that evaluate to constants under every assignment.  The
      chain that the factories build satisfies the contract for every choice of the other
      options when the fast solver is off.
    - STP: the translation is well typed and has the value of the expression wherever
      that divides by no zero and shifts by less than the width, which is proved to be
      needed.  Nodes that arrays and update nodes keep across queries carry the number of
      their validity checker, and a use after it was destroyed is a failure.  The STP
      solver satisfies the contract on what it can translate, with STP in the same process
      or in a child, as long as it is not re-instantiated; if it is, queries that share an
      array are proved to use nodes of a destroyed checker.
    - Constraints: managers share nodes exactly when they share constraints.
    - Memory: an object with its masks, caches and update list is an array of bytes
      under every assignment, for every sequence of accesses on a little-endian
      target; on a big-endian one reads fail.  Forked address spaces behave as if memory
      had been copied, apart from objects marked as shared; resolution terminates and
      finds the objects that a pointer can point into, apart from its fast path and its
      limit, which are proved wrong.
    - Persistent trees: programs with trees refine programs with sorted lists, with
      exact reference counts, without leaks, and with logarithmic height; iterators
      enumerate in order.
    - Chef: storage per state refines a map, if forks have one new state or the map does
      not grow; the call stack is contiguous, and the
      high-level stack is the activations of the interpreter loop on it, in every
      reachable state; selectors implement sets and are fair where they claim it;
      the executor keeps its forest of paths and always has a state to run.

    The theorems with an error as their conclusion are about defects of the code.

    ** Not modelled

    - Z3 and LLVM's [APInt] are libraries: a contract stands for each.  Of STP the C
      interface, the type check and the stack of assertions are modelled; the factory that
      simplifies nodes and the decision procedure are interfaces with laws.
    - The signals and clocks around a child process, of which only the outcome is a
      parameter, and the names of the variables of STP but for whether they fit the buffer
      that they are written to.
    - QEMU, the glue of S2E to its translator, the plugins for guest systems and the
      interpreter of LLVM bitcode work on data structures of vendored or external code.
    - Printing, parsing, statistics and timers only report.
    - Reference counts of expressions, update nodes and object states: the objects are
      values or are never deleted here.  Counts of tree nodes are modelled, as unbounded integers.
    - [FastCexSolver], which is off by default: the staged solver is proved against the
      contract of incomplete solvers, and the chain without it.  The database of the data
      collector, of which only its return is assumed.  The expression builders, which are unused;
      the detector of interpreters and the tracer of the operating system, which are
      heuristics and copies of guest structures. *)

From stdpp Require Import prelude.
From Stdlib Require Export ZArith Lia.
Open Scope Z_scope.

Declare Scope klee_scope.
Delimit Scope klee_scope with klee.
Open Scope klee_scope.

(** ** Outcomes of C++ code

    A call returns a value, stops in a failed [assert], or (in the model only)
    runs out of the fuel given to a recursion that is not structural. *)

Inductive outcome (A : Type) : Type :=
| Done (a : A)
| AssertFailed
| OutOfFuel.
Arguments Done {A} _.
Arguments AssertFailed {A}.
Arguments OutOfFuel {A}.

#[export] Instance outcome_ret : MRet outcome := @Done.
#[export] Instance outcome_bind : MBind outcome := λ A B f m,
  match m with
  | Done a => f a
  | AssertFailed => AssertFailed
  | OutOfFuel => OutOfFuel
  end.

(** [assert(b)] of the source. *)
Definition cassert (b : bool) : outcome unit :=
  if b then Done tt else AssertFailed.

(** Total correctness: the call returns, and what it returns satisfies [P]. *)
Definition yields {A} (m : outcome A) (P : A → Prop) : Prop :=
  match m with Done a => P a | _ => False end.

Notation "m ⇓ P" := (yields m P) (at level 70, no associativity) : klee_scope.

Section outcome_lemmas.
Context {A B : Type}.
Implicit Types m : outcome A.

Lemma yields_bind m (f : A → outcome B) (P : B → Prop) :
  (m ⇓ λ a, f a ⇓ P) → (m ≫= f) ⇓ P.
Proof. by destruct m. Qed.

Lemma yields_done (a : A) (P : A → Prop) : P a → Done a ⇓ P.
Proof. done. Qed.

Lemma yields_mono m (P Q : A → Prop) : m ⇓ P → (∀ a, P a → Q a) → m ⇓ Q.
Proof. destruct m; cbn; auto. Qed.

Lemma yields_and m (P Q : A → Prop) : m ⇓ P → m ⇓ Q → m ⇓ λ a, P a ∧ Q a.
Proof. destruct m; cbn; auto. Qed.

Lemma yields_assert (b : bool) (f : unit → outcome B) (P : B → Prop) :
  b = true → f tt ⇓ P → (cassert b ≫= f) ⇓ P.
Proof. by intros ->. Qed.

Lemma yields_inv m (P : A → Prop) : m ⇓ P → ∃ a, m = Done a ∧ P a.
Proof. destruct m; cbn; naive_solver. Qed.

Lemma yields_exists m (P : A → Prop) : (∃ a, m = Done a ∧ P a) → m ⇓ P.
Proof. by intros (a & -> & H). Qed.
End outcome_lemmas.

(** ** State

    Computations that may fail an assertion and change a state [S]. *)

Definition M (S A : Type) : Type := S → outcome (A * S).

#[export] Instance M_ret {S} : MRet (M S) := λ A a s, Done (a, s).
#[export] Instance M_bind {S} : MBind (M S) := λ A B f m s,
  '(a, s') ← m s; f a s'.

Definition lift {S A} (m : outcome A) : M S A := λ s, a ← m; Done (a, s).

(** [m] returns, with [P] of the result and the new state. *)
Definition runs {S A} (m : M S A) (s : S) (P : A → S → Prop) : Prop :=
  m s ⇓ λ '(a, s'), P a s'.

Section state_lemmas.
Context {S A B : Type}.
Implicit Types (m : M S A) (P Q : A → S → Prop).

Lemma runs_ret (a : A) s P : P a s → runs (mret a) s P.
Proof. done. Qed.

Lemma runs_bind m (f : A → M S B) s (P : B → S → Prop) :
  runs m s (λ a s', runs (f a) s' P) → runs (m ≫= f) s P.
Proof. unfold runs, mbind, M_bind. by destruct (m s) as [[]| |]. Qed.

Lemma runs_mono m s P Q : runs m s P → (∀ a s', P a s' → Q a s') → runs m s Q.
Proof. intros Hm HPQ. unfold runs in *. eapply yields_mono; [exact Hm|]. intros []. apply HPQ. Qed.

Lemma runs_lift (o : outcome A) s P : o ⇓ (λ a, P a s) → runs (lift o) s P.
Proof. unfold runs, lift. by destruct o. Qed.

Lemma runs_inv m s P : runs m s P → ∃ a s', m s = Done (a, s') ∧ P a s'.
Proof. unfold runs. destruct (m s) as [[]| |]; cbn; naive_solver. Qed.
End state_lemmas.

(** ** Powers of two and bounded integers

    A [w]-bit quantity is a [Z] between 0 and [2^w]. *)

Definition bounded (w v : Z) : Prop := 0 ≤ v < 2 ^ w.

Notation "v `bits` w" := (bounded w v) (at level 70, no associativity) : klee_scope.

Create HintDb klee discriminated.
Create Rewrite HintDb zbits.

Lemma pow2_pos w : 0 ≤ w → 0 < 2 ^ w.
Proof. intros. apply Z.pow_pos_nonneg; lia. Qed.

Lemma pow2_le a b : 0 ≤ a ≤ b → 2 ^ a ≤ 2 ^ b.
Proof. intros. apply Z.pow_le_mono_r; lia. Qed.

Lemma pow2_split w : 0 < w → 2 ^ w = 2 * 2 ^ (w - 1).
Proof. intros. rewrite <- Z.pow_succ_r by lia. f_equal; lia. Qed.

Lemma pow2_add a b : 0 ≤ a → 0 ≤ b → 2 ^ (a + b) = 2 ^ a * 2 ^ b.
Proof. intros. apply Z.pow_add_r; lia. Qed.

Lemma bounded_mod w v : 0 ≤ w → (v mod 2 ^ w) `bits` w.
Proof. intros. apply Z.mod_pos_bound, pow2_pos; lia. Qed.

Lemma bounded_small w v : v `bits` w → v mod 2 ^ w = v.
Proof. intros. by apply Z.mod_small. Qed.

Lemma bounded_mono w w' v : 0 ≤ w ≤ w' → v `bits` w → v `bits` w'.
Proof. intros Hw [? ?]. split; [done|]. pose proof (pow2_le w w' Hw). lia. Qed.

Lemma bounded_0 w : 0 ≤ w → 0 `bits` w.
Proof. intros. split; [lia|]. by apply pow2_pos. Qed.

Lemma bounded_1 w : 0 < w → 1 `bits` w.
Proof. intros. split; [lia|]. pose proof (pow2_le 1 w). lia. Qed.

Lemma bounded_b2z w b : 0 < w → Z.b2z b `bits` w.
Proof. intros. destruct b; [by apply bounded_1|apply bounded_0; lia]. Qed.

#[export] Hint Resolve pow2_pos bounded_mod bounded_0 bounded_1 bounded_b2z : klee.

(** Bits of a bounded integer. *)
Lemma testbit_high w v i : v `bits` w → w ≤ i → Z.testbit v i = false.
Proof.
  intros Hv Hi. destruct (decide (0 ≤ w)).
  - rewrite <- (bounded_small w v Hv). by apply Z.mod_pow2_bits_high.
  - destruct Hv as [? Hv]. rewrite (Z.pow_neg_r 2 w) in Hv by lia. lia.
Qed.

Lemma bounded_testbit w v :
  0 ≤ w → 0 ≤ v → (∀ i, w ≤ i → Z.testbit v i = false) → v `bits` w.
Proof.
  intros Hw Hv H. cut (v mod 2 ^ w = v).
  - intros <-. by apply bounded_mod.
  - apply Z.bits_inj'. intros i Hi. destruct (decide (i < w)).
    + by rewrite Z.mod_pow2_bits_low by lia.
    + rewrite Z.mod_pow2_bits_high by lia. symmetry. apply H. lia.
Qed.

Lemma bounded_ext w a b :
  a `bits` w → b `bits` w →
  (∀ i, 0 ≤ i < w → Z.testbit a i = Z.testbit b i) → a = b.
Proof.
  intros Ha Hb H. apply Z.bits_inj'. intros i Hi. destruct (decide (i < w)).
  - apply H; lia.
  - rewrite !(testbit_high w) by (done || lia). done.
Qed.

Lemma bounded_land w a b : 0 ≤ w → a `bits` w → 0 ≤ b → Z.land a b `bits` w.
Proof.
  intros Hw Ha Hb. apply bounded_testbit; [done| |].
  - apply Z.land_nonneg; left; apply Ha.
  - intros i Hi. rewrite Z.land_spec, (testbit_high w a) by done. done.
Qed.

Lemma bounded_lor w a b : 0 ≤ w → a `bits` w → b `bits` w → Z.lor a b `bits` w.
Proof.
  intros Hw Ha Hb. apply bounded_testbit; [done| |].
  - apply Z.lor_nonneg; split; [apply Ha|apply Hb].
  - intros i Hi. by rewrite Z.lor_spec, !(testbit_high w).
Qed.

Lemma bounded_lxor w a b : 0 ≤ w → a `bits` w → b `bits` w → Z.lxor a b `bits` w.
Proof.
  intros Hw Ha Hb. apply bounded_testbit; [done| |].
  - apply Z.lxor_nonneg; split; intros; [apply Hb|apply Ha].
  - intros i Hi. by rewrite Z.lxor_spec, !(testbit_high w).
Qed.

Lemma bounded_shiftr w v n : v `bits` w → 0 ≤ n → Z.shiftr v n `bits` w.
Proof.
  intros [? ?] Hn. rewrite Z.shiftr_div_pow2 by done.
  pose proof (pow2_pos n Hn). split; [by apply Z.div_pos|].
  apply Z.div_lt_upper_bound; [done|]. nia.
Qed.

#[export] Hint Resolve bounded_land bounded_lor bounded_lxor bounded_shiftr : klee.

(** Bit-level rewriting: [zbits] decides bitwise equations by extensionality,
    splitting on the position of the bit where a side condition needs it. *)
Lemma testbit_ones w i : 0 ≤ w → 0 ≤ i → Z.testbit (Z.ones w) i = bool_decide (i < w).
Proof.
  intros. case_bool_decide.
  - apply Z.ones_spec_low; lia.
  - apply Z.ones_spec_high; lia.
Qed.

Lemma testbit_mod w v i :
  0 ≤ w → 0 ≤ i → Z.testbit (v mod 2 ^ w) i = bool_decide (i < w) && Z.testbit v i.
Proof.
  intros. case_bool_decide.
  - by rewrite Z.mod_pow2_bits_low by lia.
  - by rewrite Z.mod_pow2_bits_high by lia.
Qed.

#[export] Hint Rewrite Z.land_spec Z.lor_spec Z.lxor_spec Z.ldiff_spec
  Z.testbit_0_l : zbits.
#[export] Hint Rewrite Z.lnot_spec Z.shiftl_spec Z.shiftr_spec Z.bits_m1
  testbit_ones testbit_mod using lia : zbits.

Ltac zbits_split :=
  repeat match goal with
  | |- context [bool_decide ?P] => case_bool_decide
  | |- context [Z.testbit _ ?i] =>
      let H := fresh in assert (i < 0) as H by lia;
      rewrite (Z.testbit_neg_r _ i H); clear H
  end.

Ltac zbits :=
  apply Z.bits_inj'; let i := fresh "i" in let Hi := fresh "Hi" in
  intros i Hi; autorewrite with zbits; zbits_split;
  try (exfalso; lia); simpl;
  repeat match goal with
  | |- context [Z.testbit ?v ?j] => destruct (Z.testbit v j) eqn:?
  end; try done; try (exfalso; lia).

(** Case analysis on the first [match] or [if] of the goal. *)
Ltac case_step :=
  match goal with
  | |- context [match ?x with _ => _ end] => destruct x eqn:?
  end.

(** Symbolic execution of a [⇓] goal. *)
Ltac ystep :=
  match goal with
  | |- (Done _ ≫= _) ⇓ _ => cbn [mbind outcome_bind]
  | |- (mret _ ≫= _) ⇓ _ => cbn [mbind outcome_bind mret outcome_ret]
  | |- (cassert _ ≫= _) ⇓ _ => apply yields_assert
  | |- ((_ ≫= _) ≫= _) ⇓ _ => apply yields_bind
  | |- (_ ≫= _) ⇓ _ => apply yields_bind
  | |- Done _ ⇓ _ => apply yields_done
  | |- mret _ ⇓ _ => apply yields_done
  end.

(** Turn boolean tests into propositions. *)
Ltac unbool :=
  repeat match goal with
  | H : _ && _ = true |- _ => apply andb_true_iff in H as [? ?]
  | H : _ || _ = false |- _ => apply orb_false_iff in H as [? ?]
  | H : (_ =? _) = true |- _ => apply Z.eqb_eq in H
  | H : (_ =? _) = false |- _ => apply Z.eqb_neq in H
  | H : (_ <? _) = true |- _ => apply Z.ltb_lt in H
  | H : (_ <? _) = false |- _ => apply Z.ltb_ge in H
  | H : (_ <=? _) = true |- _ => apply Z.leb_le in H
  | H : (_ <=? _) = false |- _ => apply Z.leb_gt in H
  | H : bool_decide _ = true |- _ => apply bool_decide_eq_true in H
  | H : bool_decide _ = false |- _ => apply bool_decide_eq_false in H
  end.

(** ** Lists *)

(** The elements other than [k] *)
Definition others (k : Z) (l : list Z) : list Z := filter (λ k', k' ≠ k) l.

Lemma others_cons k k' l : others k (k' :: l) = if k' =? k then others k l else k' :: others k l.
Proof.
  unfold others. destruct (k' =? k) eqn:Hk; unbool; [rewrite filter_cons_False by naive_solver; done|].
  by rewrite filter_cons_True.
Qed.
