(* ===== verification/Bitvec.v ===== *)
(** * Fixed-width bit vectors

    The reference semantics of the binary operators of [klee::Expr]: the kinds
    of [Expr.h], and what each of them computes on [w]-bit operands.  The
    executable arithmetic of the program ([IntEvaluation.h], the constant
    folder of [Expr.cpp]) is compared with these functions. *)

From stdpp Require Import prelude.
From S2P Require Import Prelude.

(** The binary kinds of [Expr::Kind], in the order of the enumeration. *)
Inductive BinaryKind : Set :=
| Add | Sub | Mul | UDiv | SDiv | URem | SRem
| And | Or | Xor | Shl | LShr | AShr
| Eq | Ne | Ult | Ule | Ugt | Uge | Slt | Sle | Sgt | Sge.

#[export] Instance BinaryKind_eq_dec : EqDecision BinaryKind.
Proof. solve_decision. Defined.

(** [CmpExpr::classof]: the kinds between [CmpKindFirst] and [CmpKindLast]. *)
Definition is_cmp (k : BinaryKind) : bool :=
  match k with
  | Eq | Ne | Ult | Ule | Ugt | Uge | Slt | Sle | Sgt | Sge => true
  | _ => false
  end.

(** The four operators that are undefined when the right operand is zero. *)
Definition is_div (k : BinaryKind) : bool :=
  match k with UDiv | SDiv | URem | SRem => true | _ => false end.

(** Two's complement reading of a [w]-bit quantity. *)
Definition sgn (w v : Z) : Z := if v <? 2 ^ (w - 1) then v else v - 2 ^ w.

(** Value of [l `k` r] for [w]-bit operands.  Division by zero has the value
    that [Z] gives it; the theorems that depend on it exclude it. *)
Definition bv_eval (k : BinaryKind) (w l r : Z) : Z :=
  match k with
  | Add => (l + r) mod 2 ^ w
  | Sub => (l - r) mod 2 ^ w
  | Mul => (l * r) mod 2 ^ w
  | UDiv => l / r
  | SDiv => Z.quot (sgn w l) (sgn w r) mod 2 ^ w
  | URem => l mod r
  | SRem => Z.rem (sgn w l) (sgn w r) mod 2 ^ w
  | And => Z.land l r
  | Or => Z.lor l r
  | Xor => Z.lxor l r
  | Shl => if r <? w then Z.shiftl l r mod 2 ^ w else 0
  | LShr => Z.shiftr l r
  | AShr => Z.shiftr (sgn w l) r mod 2 ^ w
  | Eq => Z.b2z (l =? r)
  | Ne => Z.b2z (negb (l =? r))
  | Ult => Z.b2z (l <? r)
  | Ule => Z.b2z (l <=? r)
  | Ugt => Z.b2z (r <? l)
  | Uge => Z.b2z (r <=? l)
  | Slt => Z.b2z (sgn w l <? sgn w r)
  | Sle => Z.b2z (sgn w l <=? sgn w r)
  | Sgt => Z.b2z (sgn w r <? sgn w l)
  | Sge => Z.b2z (sgn w r <=? sgn w l)
  end.

(** Width of the result. *)
Definition bv_width (k : BinaryKind) (w : Z) : Z := if is_cmp k then 1 else w.

(** Bitwise complement, concatenation, extraction and extension. *)
Definition bv_not (w v : Z) : Z := Z.lnot v mod 2 ^ w.
Definition bv_concat (wr l r : Z) : Z := Z.lor (Z.shiftl l wr) r.
Definition bv_extract (v off w : Z) : Z := Z.shiftr v off mod 2 ^ w.
Definition bv_sext (wi v wo : Z) : Z := sgn wi v mod 2 ^ wo.

(** ** Lemmas *)

Lemma sgn_range w v : 0 < w → v `bits` w → - 2 ^ (w - 1) ≤ sgn w v < 2 ^ (w - 1).
Proof.
  intros Hw [? ?]. unfold sgn. pose proof (pow2_split w Hw).
  case_step; unbool; lia.
Qed.

Lemma sgn_mod w v : 0 ≤ w → v `bits` w → sgn w v mod 2 ^ w = v.
Proof.
  intros Hw Hv. unfold sgn. case_step.
  - by apply bounded_small.
  - replace (v - 2 ^ w) with (v + (-1) * 2 ^ w) by lia.
    rewrite Z.mod_add by (pose proof (pow2_pos w); lia). by apply bounded_small.
Qed.

Lemma sgn_inj w a b : 0 ≤ w → a `bits` w → b `bits` w → sgn w a = sgn w b → a = b.
Proof. intros Hw Ha Hb H. rewrite <- (sgn_mod w a), <- (sgn_mod w b) by done. by rewrite H. Qed.

Lemma sgn_nonzero w v : 0 ≤ w → v `bits` w → v ≠ 0 → sgn w v ≠ 0.
Proof.
  intros Hw Hv Hn H. apply Hn, (sgn_inj w); [done..|by apply bounded_0|].
  rewrite H. unfold sgn. case_step; [done|]. unbool.
  destruct (decide (w = 0)) as [->|]; [|pose proof (pow2_pos (w - 1)); lia].
  unfold bounded in Hv. change (2 ^ 0) with 1 in *. lia.
Qed.

(** A signed number congruent to [v] modulo [2^w] and in the signed range is
    [sgn w v]. *)
Lemma sgn_unique w v s :
  0 < w → v `bits` w → - 2 ^ (w - 1) ≤ s < 2 ^ (w - 1) → s mod 2 ^ w = v → sgn w v = s.
Proof.
  intros Hw Hv Hs Hm. pose proof (pow2_split w Hw). pose proof (pow2_pos (w - 1)).
  unfold sgn. rewrite <- Hm. destruct (decide (0 ≤ s)).
  - rewrite Z.mod_small by lia. case_step; unbool; lia.
  - rewrite <- (Z.mod_add s 1), Z.mod_small by lia. case_step; unbool; lia.
Qed.

Lemma testbit_sgn w v i :
  0 < w → v `bits` w → 0 ≤ i →
  Z.testbit (sgn w v) i = Z.testbit v (if i <? w then i else w - 1).
Proof.
  intros Hw Hv Hi. case_step; unbool.
  - rewrite <- (sgn_mod w v) at 2 by (done || lia). by rewrite Z.mod_pow2_bits_low by lia.
  - pose proof (pow2_split w Hw). pose proof (sgn_range w v Hw Hv).
    pose proof (pow2_le w i). pose proof (pow2_pos (w - 1)). unfold bounded, sgn in *.
    destruct (v <? 2 ^ (w - 1)) eqn:E; unbool.
    + rewrite (testbit_high i v), (testbit_high (w - 1) v); [done|split; lia|lia|split; lia|lia].
    + assert (Z.testbit v (w - 1) = true) as ->.
      { apply Z.testbit_true; [lia|]. replace (v / 2 ^ (w - 1)) with 1; [done|].
        apply (Z.div_unique _ _ _ (v - 2 ^ (w - 1))); lia. }
      apply Z.testbit_true; [lia|]. replace ((v - 2 ^ w) / 2 ^ i) with (-1); [done|].
      apply (Z.div_unique _ _ _ (v - 2 ^ w + 2 ^ i)); lia.
Qed.

Lemma bounded_quot w l r : 0 < w → l `bits` w → r `bits` w → l / r `bits` w.
Proof.
  intros Hw [? ?] [? ?]. destruct (decide (r = 0)) as [->|].
  - rewrite Z.div_0_r. apply bounded_0; lia.
  - split; [apply Z.div_pos; lia|]. apply Z.div_lt_upper_bound; [lia|]. nia.
Qed.

Lemma bounded_rem w l r : 0 < w → l `bits` w → r `bits` w → l mod r `bits` w.
Proof.
  intros Hw [? ?] [? ?]. destruct (decide (r = 0)) as [->|].
  - rewrite Z.mod_0_r. done.
  - pose proof (Z.mod_pos_bound l r). split; lia.
Qed.

(** Every operator produces a value of its result width. *)
Lemma bv_eval_bounded k w l r :
  0 < w → l `bits` w → r `bits` w → bv_eval k w l r `bits` bv_width k w.
Proof.
  intros Hw Hl Hr. assert (0 ≤ w) by lia. assert (0 ≤ r) by apply Hr.
  destruct k; cbn; eauto using bounded_quot, bounded_rem with klee lia.
  case_step; auto with klee.
Qed.

Lemma bv_not_bounded w v : 0 ≤ w → bv_not w v `bits` w.
Proof. intros. by apply bounded_mod. Qed.

Lemma bv_extract_bounded v off w : 0 ≤ w → bv_extract v off w `bits` w.
Proof. intros. by apply bounded_mod. Qed.

Lemma bv_sext_bounded wi v wo : 0 ≤ wo → bv_sext wi v wo `bits` wo.
Proof. intros. by apply bounded_mod. Qed.

Lemma bv_concat_bounded wl wr l r :
  0 ≤ wl → 0 ≤ wr → l `bits` wl → r `bits` wr → bv_concat wr l r `bits` (wl + wr).
Proof.
  intros Hwl Hwr Hl Hr. apply bounded_lor; [lia| |eapply bounded_mono; [|done]; lia].
  rewrite Z.shiftl_mul_pow2 by done. unfold bounded in *.
  rewrite pow2_add by done. pose proof (pow2_pos wr). nia.
Qed.

#[export] Hint Resolve bv_eval_bounded bv_not_bounded bv_extract_bounded
  bv_sext_bounded bv_concat_bounded : klee.

(** ** Bits of the structural operators *)

Lemma testbit_extract v off w i :
  0 ≤ off → 0 ≤ w → 0 ≤ i →
  Z.testbit (bv_extract v off w) i = bool_decide (i < w) && Z.testbit v (i + off).
Proof. intros. unfold bv_extract. by rewrite testbit_mod, Z.shiftr_spec by lia. Qed.

Lemma testbit_concat wr l r i :
  0 ≤ wr → r `bits` wr → 0 ≤ i →
  Z.testbit (bv_concat wr l r) i =
  if bool_decide (i < wr) then Z.testbit r i else Z.testbit l (i - wr).
Proof.
  intros Hw Hr Hi. unfold bv_concat. rewrite Z.lor_spec, Z.shiftl_spec by lia.
  case_bool_decide.
  - by rewrite (Z.testbit_neg_r l) by lia.
  - rewrite (testbit_high wr r) by (done || lia). by rewrite orb_false_r.
Qed.

Lemma bv_extract_all v w : v `bits` w → bv_extract v 0 w = v.
Proof. intros. unfold bv_extract. rewrite Z.shiftr_0_r. by apply bounded_small. Qed.

(** Bit-by-bit proof of an equation between extractions and concatenations. *)
Ltac bits_ext :=
  apply Z.bits_inj'; let i := fresh "i" in let Hi := fresh "Hi" in intros i Hi;
  repeat first
    [ rewrite testbit_extract by lia
    | rewrite testbit_concat by (try done; try lia; auto with klee lia)
    | case_bool_decide; cbn [andb orb] ];
  try lia; try done; try (f_equal; lia).

(** Extraction from a concatenation: above, below and across the seam. *)
Lemma extract_concat_left wr l r off w :
  0 ≤ wr → r `bits` wr → wr ≤ off → 0 ≤ w →
  bv_extract (bv_concat wr l r) off w = bv_extract l (off - wr) w.
Proof. intros. bits_ext. Qed.

Lemma extract_concat_right wr l r off w :
  0 ≤ wr → r `bits` wr → 0 ≤ off → 0 ≤ w → off + w ≤ wr →
  bv_extract (bv_concat wr l r) off w = bv_extract r off w.
Proof. intros. bits_ext. Qed.

Lemma extract_concat_seam wr l r off w :
  0 ≤ wr → r `bits` wr → 0 ≤ off < wr → wr < off + w →
  bv_extract (bv_concat wr l r) off w =
  bv_concat (wr - off) (bv_extract l 0 (w - wr + off)) (bv_extract r off (wr - off)).
Proof. intros. bits_ext. Qed.

(** Two contiguous extractions are one. *)
Lemma concat_extract_merge v off wl wr :
  0 ≤ off → 0 ≤ wl → 0 ≤ wr →
  bv_concat wr (bv_extract v (off + wr) wl) (bv_extract v off wr) = bv_extract v off (wl + wr).
Proof. intros. bits_ext. Qed.

Lemma concat_zero wr r : bv_concat wr 0 r = r.
Proof. unfold bv_concat. by rewrite Z.shiftl_0_l. Qed.

Lemma extract_0_le v w w' : 0 ≤ w ≤ w' → v `bits` w → bv_extract v 0 w' = v.
Proof. intros. apply bv_extract_all. by eapply bounded_mono. Qed.

(** The low bits of a sign extension are those of its source. *)
Lemma extract_sext wi v wo w :
  0 < wi → v `bits` wi → 0 ≤ w ≤ wi → w ≤ wo →
  bv_extract (bv_sext wi v wo) 0 w = bv_extract v 0 w.
Proof.
  intros Hwi Hv Hw Hwo. apply Z.bits_inj'. intros i Hi.
  rewrite !testbit_extract by lia. case_bool_decide; [|done]. cbn.
  unfold bv_sext. rewrite testbit_mod, testbit_sgn by (done || lia).
  rewrite bool_decide_true by lia. cbn. rewrite (proj2 (Z.ltb_lt _ _)) by lia. done.
Qed.
