(* ===== verification/Bits.v ===== *)
(** * Machine-word helpers: [klee/util/Bits.h] and
      [klee/Internal/Support/IntEvaluation.h]

    Unsigned words are integers reduced modulo [2^32] or [2^64]; a signed word
    is the two's complement reading of an unsigned one.  A shift by the word
    size or more is undefined in C++: the theorems keep the shift amounts in
    range. *)

From stdpp Require Import prelude.
From S2P Require Import Prelude Bitvec.

Definition u32 (x : Z) : Z := x mod 2 ^ 32.
Definition u64 (x : Z) : Z := x mod 2 ^ 64.
(** [(int64_t) x] *)
Definition s64 (x : Z) : Z := sgn 64 (u64 x).

Module bits32.

Definition maxValueOfNBits (N : Z) : Z :=
  if N =? 0 then 0 else Z.shiftr (u32 (-1)) (u32 (32 - N)).

Definition truncateToNBits (x N : Z) : Z :=
  Z.land x (Z.shiftr (u32 (-1)) (u32 (32 - N))).

Definition withoutRightmostBit (x : Z) : Z := Z.land x (u32 (x - 1)).

Definition isolateRightmostBit (x : Z) : Z := Z.land x (u32 (- x)).

Definition isPowerOfTwo (x : Z) : Z :=
  if x =? 0 then 0 else Z.b2z (Z.land x (u32 (x - 1)) =? 0).

Definition indexOfSingleBit (x : Z) : Z :=
  let res := 0 in
  let res := if negb (Z.land x 0xFFFF0000 =? 0) then res + 16 else res in
  let res := if negb (Z.land x 0xFF00FF00 =? 0) then res + 8 else res in
  let res := if negb (Z.land x 0xF0F0F0F0 =? 0) then res + 4 else res in
  let res := if negb (Z.land x 0xCCCCCCCC =? 0) then res + 2 else res in
  let res := if negb (Z.land x 0xAAAAAAAA =? 0) then res + 1 else res in
  res.

Definition indexOfRightmostBit (x : Z) : Z := indexOfSingleBit (isolateRightmostBit x).

End bits32.

Module bits64.

Definition maxValueOfNBits (N : Z) : Z :=
  if N =? 0 then 0 else Z.shiftr (u64 (-1)) (u32 (64 - N)).

Definition truncateToNBits (x N : Z) : Z :=
  Z.land x (Z.shiftr (u64 (-1)) (u32 (64 - N))).

Definition withoutRightmostBit (x : Z) : Z := Z.land x (u64 (x - 1)).

Definition isolateRightmostBit (x : Z) : Z := Z.land x (u64 (- x)).

Definition isPowerOfTwo (x : Z) : Z :=
  if x =? 0 then 0 else Z.b2z (Z.land x (u64 (x - 1)) =? 0).

Definition indexOfSingleBit (x : Z) : Z :=
  let res := bits32.indexOfSingleBit (u32 (Z.lor x (Z.shiftr x 32))) in
  if negb (Z.land x (u64 (Z.shiftl 0xFFFFFFFF 32)) =? 0) then res + 32 else res.

Definition indexOfRightmostBit (x : Z) : Z := indexOfSingleBit (isolateRightmostBit x).

End bits64.

(** [namespace ints]: arithmetic on [inWidth]-bit operands held in a
    [uint64_t] whose upper bits are zero.  What C++ leaves undefined is a failure:
    a shift of a 64-bit word by 64 or more, a division by zero, and a signed division
    whose quotient is not a 64-bit integer. *)
Module ints.

Definition MAX_BITS : Z := 64.

(** The right operand of a shift *)
Definition shift_amount (n : Z) : outcome Z := _ ← cassert (n <? MAX_BITS); Done n.

(** The operands of [/] and [%] on [int64_t] *)
Definition divisible (l r : Z) : outcome unit :=
  _ ← cassert (negb (r =? 0)); cassert (negb ((l =? - 2 ^ 63) && (r =? -1))).

Definition add (l r inWidth : Z) : Z := bits64.truncateToNBits (u64 (l + r)) inWidth.
Definition sub (l r inWidth : Z) : Z := bits64.truncateToNBits (u64 (l - r)) inWidth.
Definition mul (l r inWidth : Z) : Z := bits64.truncateToNBits (u64 (l * r)) inWidth.
Definition trunc (l outWidth inWidth : Z) : Z := bits64.truncateToNBits l outWidth.
Definition zext (l outWidth inWidth : Z) : Z := l.

Definition sext (l outWidth inWidth : Z) : outcome Z :=
  numInvalidBits ← shift_amount (u32 (MAX_BITS - inWidth));
  Done (bits64.truncateToNBits
    (u64 (Z.shiftr (s64 (u64 (Z.shiftl l numInvalidBits))) numInvalidBits)) outWidth).

Definition udiv (l r inWidth : Z) : outcome Z :=
  _ ← cassert (negb (r =? 0)); Done (bits64.truncateToNBits (l / r) inWidth).
Definition urem (l r inWidth : Z) : outcome Z :=
  _ ← cassert (negb (r =? 0)); Done (bits64.truncateToNBits (l mod r) inWidth).

(** [int64_t sl = sext(l, MAX_BITS, inWidth), sr = sext(r, MAX_BITS, inWidth)] *)
Definition signed {A} (l r inWidth : Z) (f : Z → Z → outcome A) : outcome A :=
  sl ← sext l MAX_BITS inWidth; sr ← sext r MAX_BITS inWidth; f (s64 sl) (s64 sr).

Definition sdiv (l r inWidth : Z) : outcome Z :=
  signed l r inWidth (λ sl sr, _ ← divisible sl sr; Done (bits64.truncateToNBits (u64 (Z.quot sl sr)) inWidth)).
Definition srem (l r inWidth : Z) : outcome Z :=
  signed l r inWidth (λ sl sr, _ ← divisible sl sr; Done (bits64.truncateToNBits (u64 (Z.rem sl sr)) inWidth)).

Definition ashr (l shift inWidth : Z) : outcome Z :=
  sl ← sext l MAX_BITS inWidth;
  n ← shift_amount shift;
  Done (bits64.truncateToNBits (u64 (Z.shiftr (s64 sl) n)) inWidth).

Definition lshr (l shift inWidth : Z) : outcome Z := n ← shift_amount shift; Done (Z.shiftr l n).

Definition shl (l shift inWidth : Z) : outcome Z :=
  n ← shift_amount shift; Done (bits64.truncateToNBits (u64 (Z.shiftl l n)) inWidth).

Definition land (l r inWidth : Z) : Z := Z.land l r.
Definition lor (l r inWidth : Z) : Z := Z.lor l r.
Definition lxor (l r inWidth : Z) : Z := Z.lxor l r.

Definition eq (l r inWidth : Z) : Z := Z.b2z (l =? r).
Definition ne (l r inWidth : Z) : Z := Z.b2z (negb (l =? r)).
Definition ult (l r inWidth : Z) : Z := Z.b2z (l <? r).
Definition ule (l r inWidth : Z) : Z := Z.b2z (l <=? r).
Definition ugt (l r inWidth : Z) : Z := Z.b2z (r <? l).
Definition uge (l r inWidth : Z) : Z := Z.b2z (r <=? l).

Definition slt (l r inWidth : Z) : outcome Z := signed l r inWidth (λ sl sr, Done (Z.b2z (sl <? sr))).
Definition sle (l r inWidth : Z) : outcome Z := signed l r inWidth (λ sl sr, Done (Z.b2z (sl <=? sr))).
Definition sgt (l r inWidth : Z) : outcome Z := signed l r inWidth (λ sl sr, Done (Z.b2z (sr <? sl))).
Definition sge (l r inWidth : Z) : outcome Z := signed l r inWidth (λ sl sr, Done (Z.b2z (sr <=? sl))).

(** The function of the namespace that evaluates each binary kind. *)
Definition eval (k : BinaryKind) (l r w : Z) : outcome Z :=
  match k with
  | Add => Done (add l r w) | Sub => Done (sub l r w) | Mul => Done (mul l r w)
  | UDiv => udiv l r w | SDiv => sdiv l r w | URem => urem l r w | SRem => srem l r w
  | And => Done (land l r w) | Or => Done (lor l r w) | Xor => Done (lxor l r w)
  | Shl => shl l r w | LShr => lshr l r w | AShr => ashr l r w
  | Eq => Done (eq l r w) | Ne => Done (ne l r w)
  | Ult => Done (ult l r w) | Ule => Done (ule l r w) | Ugt => Done (ugt l r w) | Uge => Done (uge l r w)
  | Slt => slt l r w | Sle => sle l r w | Sgt => sgt l r w | Sge => sge l r w
  end.

(** Where the operation is defined on operands of [w] bits *)
Definition defined (k : BinaryKind) (l r w : Z) : bool :=
  match k with
  | UDiv | URem => negb (r =? 0)
  | SDiv | SRem => negb (r =? 0) && negb ((w =? 64) && (l =? 2 ^ 63) && (r =? 2 ^ 64 - 1))
  | Shl | LShr | AShr => r <? 64
  | _ => true
  end.

End ints.

(** ** Masks *)

Lemma all_ones_shiftr w n : 0 ≤ n ≤ w → Z.shiftr (Z.ones w) (w - n) = Z.ones n.
Proof. intros. zbits. Qed.

Lemma u32_small x : 0 ≤ x < 2 ^ 32 → u32 x = x.
Proof. intros. by apply Z.mod_small. Qed.

Lemma u64_small x : x `bits` 64 → u64 x = x.
Proof. intros. by apply Z.mod_small. Qed.

Lemma mask32 N : 0 ≤ N ≤ 32 → Z.shiftr (u32 (-1)) (u32 (32 - N)) = Z.ones N.
Proof.
  intros. rewrite (u32_small (32 - N)) by lia. change (u32 (-1)) with (Z.ones 32).
  by apply all_ones_shiftr.
Qed.

Lemma mask64 N : 0 ≤ N ≤ 64 → Z.shiftr (u64 (-1)) (u32 (64 - N)) = Z.ones N.
Proof.
  intros. rewrite (u32_small (64 - N)) by lia. change (u64 (-1)) with (Z.ones 64).
  by apply all_ones_shiftr.
Qed.

Lemma maxValueOfNBits_64 N : 0 ≤ N ≤ 64 → bits64.maxValueOfNBits N = 2 ^ N - 1.
Proof.
  intros. unfold bits64.maxValueOfNBits. case_step; unbool; [by subst|].
  rewrite mask64, Z.ones_equiv by lia. lia.
Qed.

Lemma maxValueOfNBits_32 N : 0 ≤ N ≤ 32 → bits32.maxValueOfNBits N = 2 ^ N - 1.
Proof.
  intros. unfold bits32.maxValueOfNBits. case_step; unbool; [by subst|].
  rewrite mask32, Z.ones_equiv by lia. lia.
Qed.

Lemma truncateToNBits_64 x N : 0 ≤ N ≤ 64 → bits64.truncateToNBits x N = x mod 2 ^ N.
Proof. intros. unfold bits64.truncateToNBits. by rewrite mask64, Z.land_ones by lia. Qed.

Lemma truncateToNBits_32 x N : 0 ≤ N ≤ 32 → bits32.truncateToNBits x N = x mod 2 ^ N.
Proof. intros. unfold bits32.truncateToNBits. by rewrite mask32, Z.land_ones by lia. Qed.

#[export] Hint Rewrite truncateToNBits_64 maxValueOfNBits_64 using lia : zbits.

Lemma mod_mod_pow2 x a b : 0 ≤ b ≤ a → (x mod 2 ^ a) mod 2 ^ b = x mod 2 ^ b.
Proof.
  intros. apply Z.mod_mod_divide.
  exists (2 ^ (a - b)). rewrite <- Z.pow_add_r by lia. f_equal; lia.
Qed.

(** ** Rightmost bits *)

Lemma testbit_odd_mul i q j :
  0 ≤ i → 0 ≤ j →
  Z.testbit (2 ^ i * (2 * q + 1)) j =
  if j <? i then false else if j =? i then true else Z.testbit q (j - i - 1).
Proof.
  intros Hi Hj. rewrite Z.mul_comm. case_step; unbool.
  - by rewrite Z.mul_pow2_bits_low by lia.
  - rewrite Z.mul_pow2_bits by lia. case_step; unbool.
    + subst. rewrite Z.sub_diag. apply Z.testbit_odd_0.
    + replace (j - i) with (Z.succ (j - i - 1)) at 1 by lia.
      by rewrite Z.testbit_odd_succ by lia.
Qed.

(** A non-zero word is an odd multiple of a power of two. *)
Lemma rightmost_decompose x w :
  0 < x < 2 ^ w → ∃ i q, 0 ≤ i < w ∧ x = 2 ^ i * (2 * q + 1).
Proof.
  destruct (decide (0 ≤ w)) as [Hw|]; [|rewrite (Z.pow_neg_r 2 w) by lia; lia].
  revert x. pattern w. apply natlike_ind; [lia| |done].
  clear w Hw. intros w Hw IH x Hx. rewrite Z.pow_succ_r in Hx by done.
  destruct (Z.Even_or_Odd x) as [[y ->]|[y ->]].
  - destruct (IH y) as (i & q & ? & ->); [lia|]. exists (Z.succ i), q.
    rewrite Z.pow_succ_r by lia. split; [lia|ring].
  - exists 0, y. split; [lia|]. change (2 ^ 0) with 1. lia.
Qed.

Lemma isolate_rightmost w i q :
  0 ≤ i < w → Z.land (2 ^ i * (2 * q + 1)) ((- (2 ^ i * (2 * q + 1))) mod 2 ^ w) = 2 ^ i.
Proof.
  intros Hi. apply Z.bits_inj'. intros j Hj.
  replace (- (2 ^ i * (2 * q + 1))) with (2 ^ i * (2 * Z.lnot q + 1))
    by (unfold Z.lnot; lia).
  rewrite Z.land_spec, testbit_mod, !testbit_odd_mul, Z.pow2_bits_eqb by lia.
  destruct (j <? i) eqn:?, (j =? i) eqn:?; unbool; rewrite ?Z.lnot_spec by lia;
    try case_bool_decide; try lia; cbn;
    rewrite ?andb_negb_r, ?andb_false_r; symmetry; first
    [apply Z.eqb_eq; lia | apply Z.eqb_neq; lia].
Qed.

Lemma drop_rightmost w i q :
  0 ≤ i < w → 2 ^ i * (2 * q + 1) `bits` w →
  Z.land (2 ^ i * (2 * q + 1)) ((2 ^ i * (2 * q + 1) - 1) mod 2 ^ w) = 2 ^ (i + 1) * q.
Proof.
  intros Hi Hb. apply Z.bits_inj'. intros j Hj.
  replace (2 ^ i * (2 * q + 1) - 1) with (2 ^ (i + 1) * q + Z.ones i)
    by (rewrite Z.ones_equiv, Z.pow_add_r by lia; lia).
  assert (∀ j, 0 ≤ j → Z.testbit (2 ^ (i + 1) * q + Z.ones i) j =
    if j <? i then true else if j =? i then false else Z.testbit q (j - i - 1)) as Hlow.
  { intros k Hk. replace (2 ^ (i + 1) * q + Z.ones i)
      with (Z.lor (Z.shiftl q (i + 1)) (Z.ones i)).
    - rewrite Z.lor_spec, Z.shiftl_spec, testbit_ones by lia.
      destruct (k <? i) eqn:?, (k =? i) eqn:?; unbool; case_bool_decide; try lia;
        rewrite ?(Z.testbit_neg_r q (k - (i + 1))) by lia; rewrite ?orb_true_r, ?orb_false_r;
        try done. f_equal; lia.
    - rewrite <- Z.lxor_lor, <- Z.add_nocarry_lxor.
      + rewrite Z.shiftl_mul_pow2 by lia. ring.
      + zbits.
      + zbits. }
  rewrite Z.land_spec, testbit_mod, Hlow, testbit_odd_mul by lia.
  rewrite (Z.mul_comm (2 ^ (i + 1))), Z.mul_pow2_bits by lia.
  destruct (j <? i) eqn:?, (j =? i) eqn:?; unbool; try lia; cbn;
    rewrite ?andb_false_r; rewrite ?(Z.testbit_neg_r q (j - (i + 1))) by lia; try done.
  replace (j - (i + 1)) with (j - i - 1) by lia.
  destruct (Z.testbit q (j - i - 1)) eqn:E; [|done].
  case_bool_decide; [done|]. exfalso.
  assert (Z.testbit (2 ^ i * (2 * q + 1)) j = false) as Hj' by (eapply testbit_high; [done|lia]).
  rewrite testbit_odd_mul in Hj' by lia.
  rewrite (proj2 (Z.ltb_ge _ _)), (proj2 (Z.eqb_neq _ _)) in Hj' by lia. congruence.
Qed.

Definition single_bit_index_ok (f : Z → Z) (i : Z) : bool := f (2 ^ i) =? i.

Lemma forallb_range (P : Z → bool) (n : nat) :
  forallb P (map Z.of_nat (seq 0 n)) = true → ∀ i, 0 ≤ i < Z.of_nat n → P i = true.
Proof.
  intros H i Hi. rewrite forallb_forall in H. apply H, in_map_iff.
  exists (Z.to_nat i). split; [lia|]. apply in_seq. lia.
Qed.

Lemma indexOfSingleBit_32 i : 0 ≤ i < 32 → bits32.indexOfSingleBit (2 ^ i) = i.
Proof.
  intros. apply Z.eqb_eq.
  apply (forallb_range (single_bit_index_ok bits32.indexOfSingleBit) 32); [reflexivity|lia].
Qed.

Lemma indexOfSingleBit_64 i : 0 ≤ i < 64 → bits64.indexOfSingleBit (2 ^ i) = i.
Proof.
  intros. apply Z.eqb_eq.
  apply (forallb_range (single_bit_index_ok bits64.indexOfSingleBit) 64); [reflexivity|lia].
Qed.

Lemma power_of_two_iff w x :
  0 < x < 2 ^ w → Z.land x ((x - 1) mod 2 ^ w) = 0 ↔ ∃ i, 0 ≤ i ∧ x = 2 ^ i.
Proof.
  intros Hx. destruct (rightmost_decompose x w Hx) as (i & q & Hi & ->).
  rewrite drop_rightmost by (done || split; lia). split.
  - intros H. exists i. split; [lia|]. pose proof (pow2_pos (i + 1)). nia.
  - intros (k & Hk & H). destruct (decide (q = 0)) as [->|Hq]; [lia|exfalso].
    apply (f_equal (λ z, Z.testbit z i)) in H as H1.
    rewrite testbit_odd_mul, Z.ltb_irrefl, Z.eqb_refl, Z.pow2_bits_eqb in H1 by lia.
    symmetry in H1. apply Z.eqb_eq in H1 as ->. pose proof (pow2_pos i). nia.
Qed.

(** ** The arithmetic of [namespace ints] *)

Lemma sgn_scale w l n :
  0 < w → 0 ≤ n → l `bits` w → sgn (w + n) (l * 2 ^ n) = sgn w l * 2 ^ n.
Proof.
  intros Hw Hn Hl. unfold sgn. replace (w + n - 1) with (w - 1 + n) by lia.
  rewrite !pow2_add by lia. pose proof (pow2_pos n Hn).
  do 2 case_step; unbool; nia.
Qed.

Lemma sext_shift l w :
  0 < w ≤ 64 → l `bits` w →
  Z.shiftr (s64 (u64 (Z.shiftl l (u32 (64 - w))))) (u32 (64 - w)) = sgn w l.
Proof.
  intros Hw Hl. rewrite u32_small, Z.shiftl_mul_pow2 by lia. unfold s64.
  assert (l * 2 ^ (64 - w) `bits` 64) as Hb.
  { unfold bounded in *. replace (2 ^ 64) with (2 ^ w * 2 ^ (64 - w))
      by (rewrite <- pow2_add by lia; f_equal; lia).
    pose proof (pow2_pos (64 - w)). nia. }
  rewrite !u64_small by (rewrite ?u64_small by done; done).
  replace 64 with (w + (64 - w)) at 1 by lia.
  rewrite sgn_scale, Z.shiftr_div_pow2, Z.div_mul by (done || lia || auto with klee lia).
  done.
Qed.

Lemma shift_amount_ok n : n < 64 → ints.shift_amount n = Done n.
Proof. intros Hn. unfold ints.shift_amount, ints.MAX_BITS. by rewrite (proj2 (Z.ltb_lt n 64)). Qed.

Lemma sext_correct l out w :
  0 < w ≤ 64 → 0 ≤ out ≤ 64 → l `bits` w → ints.sext l out w = Done (bv_sext w l out).
Proof.
  intros Hw Ho Hl. unfold ints.sext, ints.MAX_BITS.
  rewrite shift_amount_ok by (rewrite u32_small; lia). cbn.
  rewrite sext_shift, truncateToNBits_64 by done. f_equal. by apply mod_mod_pow2.
Qed.

Lemma s64_sext l w : 0 < w ≤ 64 → l `bits` w → s64 (bv_sext w l 64) = sgn w l.
Proof.
  intros Hw Hl. unfold s64. rewrite u64_small by (apply bv_sext_bounded; lia).
  pose proof (sgn_range w l ltac:(lia) Hl). pose proof (pow2_le (w - 1) (64 - 1) ltac:(lia)).
  apply sgn_unique; [lia|apply bv_sext_bounded; lia|lia|done].
Qed.

Lemma signed_correct {A} l r w (f : Z → Z → outcome A) :
  0 < w ≤ 64 → l `bits` w → r `bits` w → ints.signed l r w f = f (sgn w l) (sgn w r).
Proof.
  intros Hw Hl Hr. unfold ints.signed, ints.MAX_BITS.
  rewrite !sext_correct by (done || lia). cbn. by rewrite !s64_sext.
Qed.

(** The signed quotient of two words is out of range in one case only. *)
Lemma divisible_correct l r w :
  0 < w ≤ 64 → l `bits` w → r `bits` w →
  ints.divisible (sgn w l) (sgn w r) = cassert (ints.defined SDiv l r w).
Proof.
  intros Hw Hl Hr. pose proof (sgn_range w r ltac:(lia) Hr). pose proof (sgn_range w l ltac:(lia) Hl).
  assert (sgn w r = 0 ↔ r = 0) as Hz.
  { unfold sgn, bounded in *. pose proof (pow2_pos (w - 1)). case_step; unbool; lia. }
  assert (sgn w l = - 2 ^ 63 → w = 64) as Hlow.
  { intros He. destruct (decide (w = 64)); [done|]. pose proof (pow2_le (w - 1) 62 ltac:(lia)). lia. }
  assert (w = 64 → (sgn w l = - 2 ^ 63 ↔ l = 2 ^ 63) ∧ (sgn w r = -1 ↔ r = 2 ^ 64 - 1)) as H64.
  { intros ->. unfold sgn, bounded in *. change (64 - 1) with 63. split; case_step; unbool; lia. }
  unfold ints.divisible, ints.defined. destruct (r =? 0) eqn:Hr0; unbool.
  { by rewrite (proj2 (Z.eqb_eq _ _) (proj2 Hz Hr0)). }
  rewrite (proj2 (Z.eqb_neq (sgn w r) 0)) by naive_solver. cbn [negb andb]. cbn [cassert mbind outcome_bind].
  do 2 f_equal. apply eq_iff_eq_true. rewrite !andb_true_iff, !Z.eqb_eq. naive_solver.
Qed.

(** Every function of [namespace ints] is defined where it should be, and computes the
    operation there. *)
Lemma ints_eval_correct k w l r :
  0 < w ≤ 64 → l `bits` w → r `bits` w →
  ints.eval k l r w = (_ ← cassert (ints.defined k l r w); Done (bv_eval k w l r)).
Proof.
  intros Hw Hl Hr. unfold ints.eval, ints.slt, ints.sle, ints.sgt, ints.sge, ints.sdiv, ints.srem, ints.ashr.
  destruct k; rewrite ?signed_correct, ?divisible_correct, ?sext_correct by (done || unfold ints.MAX_BITS; lia);
    cbn [ints.defined bv_eval]; try done;
    unfold ints.add, ints.sub, ints.mul, ints.udiv, ints.urem, ints.shl, ints.lshr, ints.shift_amount, ints.MAX_BITS, u64;
    try match goal with |- context [cassert ?b] => destruct b eqn:Hdef; [|done] end; cbn; unbool; f_equal;
    rewrite ?truncateToNBits_64, ?mod_mod_pow2, ?s64_sext by (done || lia); try done.
  - apply bounded_small, bounded_quot; done || lia.
  - apply bounded_small, bounded_rem; done || lia.
  - case_step; [done|]. unbool. rewrite Z.shiftl_mul_pow2 by (unfold bounded in *; lia).
    replace r with (w + (r - w)) by lia. rewrite pow2_add by lia.
    replace (l * (2 ^ w * 2 ^ (r - w))) with (l * 2 ^ (r - w) * 2 ^ w) by ring.
    apply Z.mod_mul. auto with klee lia.
Qed.

(** C33: the constant evaluators of [IntEvaluation.h] compute the bit-vector operation
    they are named after.  On operands of any width from 1 to 64 bits a function of
    [namespace ints] returns the [inWidth]-bit result of the operator, signed ones
    included, although it works on 64-bit words, unless the C++ expression is undefined:
    that is so exactly for a divisor of zero, for a shift by 64 or more, and at 64 bits
    for the quotient or the remainder of the least integer by -1. *)
Theorem ints_compute_bitvector_operations k w l r :
  0 < w ≤ 64 → l `bits` w → r `bits` w →
  ints.eval k l r w = (if ints.defined k l r w then Done (bv_eval k w l r) else AssertFailed) ∧
  (ints.defined k l r w = true → bv_eval k w l r `bits` bv_width k w).
Proof.
  intros Hw Hl Hr. rewrite ints_eval_correct by done. split; [by destruct (ints.defined k l r w)|].
  intros Hd. apply bv_eval_bounded; [lia|done..|]. by destruct k; cbn in *; unbool.
Qed.

Lemma ints_compute_bitvector_operations_witness :
  ints.eval SDiv 0xF8 3 8 = Done 0xFE ∧ (ints.defined SDiv 0xF8 3 8 = true → 0xFE `bits` 8).
Proof.
  refine (ints_compute_bitvector_operations SDiv 8 0xF8 3 _ _ _); unfold bounded; intros; (lia || done).
Defined.

(** [indexOfRightmostBit] returns the position of the least significant
    set bit of a non-zero 64-bit word, [isolateRightmostBit] and
    [withoutRightmostBit] split the word at that bit, and [isPowerOfTwo]
    answers 1 exactly when the word has no other bit. *)
Theorem rightmost_bit_correct x :
  0 < x < 2 ^ 64 →
  ∃ i, 0 ≤ i < 64 ∧ Z.testbit x i = true ∧ (∀ j, 0 ≤ j < i → Z.testbit x j = false) ∧
    bits64.indexOfRightmostBit x = i ∧ bits64.isolateRightmostBit x = 2 ^ i ∧
    bits64.withoutRightmostBit x = x - 2 ^ i ∧
    (bits64.isPowerOfTwo x = 1 ↔ x = 2 ^ i).
Proof.
  intros Hx. destruct (rightmost_decompose x 64 Hx) as (i & q & Hi & Hxq).
  assert (bits64.isolateRightmostBit x = 2 ^ i) as Hiso
    by (rewrite Hxq; by apply isolate_rightmost).
  exists i. split_and!; [lia|lia|..].
  - rewrite Hxq, testbit_odd_mul, Z.ltb_irrefl, Z.eqb_refl by lia. done.
  - intros j Hj. rewrite Hxq, testbit_odd_mul by lia. case_step; unbool; [done|lia].
  - unfold bits64.indexOfRightmostBit. rewrite Hiso. by apply indexOfSingleBit_64.
  - done.
  - unfold bits64.withoutRightmostBit, u64. rewrite Hxq, drop_rightmost
      by (done || rewrite <- Hxq; split; lia).
    rewrite pow2_add by lia. lia.
  - unfold bits64.isPowerOfTwo, u64. rewrite (proj2 (Z.eqb_neq x 0)) by lia.
    transitivity (Z.land x ((x - 1) mod 2 ^ 64) = 0).
    { destruct (_ =? 0) eqn:E; unbool; naive_solver. }
    rewrite Hxq, drop_rightmost by (done || rewrite <- Hxq; split; lia).
    pose proof (pow2_pos (i + 1)). pose proof (pow2_pos i). rewrite <- Hxq. nia.
Qed.

Lemma rightmost_bit_correct_witness :
  ∃ i, 0 ≤ i < 64 ∧ Z.testbit 40 i = true ∧ (∀ j, 0 ≤ j < i → Z.testbit 40 j = false) ∧
    bits64.indexOfRightmostBit 40 = i ∧ bits64.isolateRightmostBit 40 = 2 ^ i ∧
    bits64.withoutRightmostBit 40 = 40 - 2 ^ i ∧
    (bits64.isPowerOfTwo 40 = 1 ↔ 40 = 2 ^ i).
Proof. apply (rightmost_bit_correct 40). lia. Defined.
