(* ===== verification/ConstantDivision.v ===== *)
(** * Multiplication and division by constants: [lib/Solver/ConstantDivision.cpp]

    The translation of queries to STP replaces multiplications by constants by shifts,
    additions and subtractions, and 32-bit divisions by constants by multiplications.
    This file models the computation of the constants and proves the arithmetic that
    they are for; [STPBuilder] uses both.

    A division by zero of the program is an outcome [AssertFailed].  [exp_base_2] shifts
    by 32 when its argument is 32, which C++ leaves undefined; the word that is shifted
    is then 0, and the shift is taken modulo 32 as on the x86. *)

From stdpp Require Import prelude.
From S2P Require Import Prelude Bitvec Bits.

(** [(int32_t) x] *)
Definition s32 (x : Z) : Z := sgn 32 (u32 x).

Definition ones (x : Z) : Z :=
  let x := u32 (x - Z.land (Z.shiftr x 1) 0x55555555) in
  let x := u32 (Z.land (Z.shiftr x 2) 0x33333333 + Z.land x 0x33333333) in
  let x := Z.land (u32 (Z.shiftr x 4 + x)) 0x0f0f0f0f in
  let x := u32 (x + Z.shiftr x 8) in
  let x := u32 (x + Z.shiftr x 16) in
  Z.land x 0x3f.

Definition ldz (x : Z) : Z :=
  let x := Z.lor x (Z.shiftr x 1) in
  let x := Z.lor x (Z.shiftr x 2) in
  let x := Z.lor x (Z.shiftr x 4) in
  let x := Z.lor x (Z.shiftr x 8) in
  let x := Z.lor x (Z.shiftr x 16) in
  u32 (32 - ones x).

Definition exp_base_2 (n : Z) : Z :=
  let x := Z.land (u32 (Z.lnot n)) (u32 (n - 32)) in
  let x := Z.shiftr x 31 in
  u32 (Z.shiftl x (n mod 32)).

Definition LOG2_CEIL (x : Z) : Z := u32 (32 - ldz (u32 (x - 1))).

(** The loop of [ComputeMultConstants64] *)
Fixpoint mult_loop (fuel : nat) (x add sub : Z) : outcome (Z * Z) :=
  if x =? 0 then Done (add, sub)
  else match fuel with
  | O => OutOfFuel
  | S fuel =>
      let low := bits64.indexOfRightmostBit x in
      let lowbit := u64 (Z.shiftl 1 low) in
      let p := u64 (x + lowbit) in
      let q := bits64.isolateRightmostBit p in
      let high := if negb (q =? 0) then bits64.indexOfSingleBit q else 64 in
      let '(add, sub) :=
        if high =? low + 1 then (Z.lor add lowbit, sub)
        else
          let '(add, sub) :=
            if negb (low =? 0) && negb (Z.land add (Z.shiftr lowbit 1) =? 0)
            then (Z.lxor add (Z.shiftr lowbit 1), Z.lxor sub (Z.shiftr lowbit 1))
            else (add, Z.lor sub lowbit) in
          (if negb (high =? 64) then Z.lor add (u64 (Z.shiftl 1 high)) else add, sub) in
      mult_loop fuel (Z.lxor p q) add sub
  end.

(** The constants [add] and [sub] *)
Definition ComputeMultConstants64 (multiplicand : Z) : outcome (Z * Z) :=
  '(add, sub) ← mult_loop 65 multiplicand 0 0;
  _ ← cassert (multiplicand =? u64 (add - sub));
  Done (add, sub).

(** The constants [mprime], [sh1] and [sh2] *)
Definition ComputeUDivConstants32 (d : Z) : outcome (Z * Z * Z) :=
  let l := s32 (LOG2_CEIL d) in
  let mid := u32 (exp_base_2 l - d) in
  _ ← cassert (negb (d =? 0));
  Done (u32 (u64 (2 ^ 32 * mid) / d + 1), Z.min l 1, Z.max (l - 1) 0).

(** The constants [mprime], [dsign] and [shpost] *)
Definition ComputeSDivConstants32 (d : Z) : outcome (Z * Z * Z) :=
  let abs_d := u64 (if d >? 0 then d else - d) in
  let l := Z.max 1 (LOG2_CEIL (u32 abs_d)) in
  let l := if abs_d =? 2 ^ 31 then 31 else l in
  let mid := exp_base_2 (l - 1) in
  _ ← cassert (negb (abs_d =? 0));
  let m := u64 (u64 (2 ^ 32 * mid) / abs_d + 1) in
  Done (s32 (m - 2 ^ 32), Z.shiftr d 31, l - 1).

(** ** Logarithms *)

(** The [m] bits from bit [t] down are ones. *)
Definition top_run (t m y : Z) : Prop :=
  y `bits` (t + 1) ∧ ∀ j, 0 ≤ j → t - m < j ≤ t → Z.testbit y j = true.

Lemma smear_step t m y : 0 ≤ t → 0 ≤ m → top_run t m y → top_run t (2 * m) (Z.lor y (Z.shiftr y m)).
Proof.
  intros Ht Hm [Hy Hrun]. split; [apply bounded_lor; auto with klee lia|].
  intros j Hj Hjt. rewrite Z.lor_spec, Z.shiftr_spec by done.
  destruct (decide (t - m < j)); [rewrite Hrun by lia; done|]. rewrite (Hrun (j + m)) by lia. apply orb_true_r.
Qed.

(** The number of leading zeroes *)
Lemma ldz_zero : ldz 0 = 32.
Proof. reflexivity. Qed.

Lemma ldz_spec t x : 0 ≤ t < 32 → 2 ^ t ≤ x < 2 ^ (t + 1) → ldz x = 31 - t.
Proof.
  intros Ht Hx. assert (top_run t 1 x) as H0.
  { split; [split; [pose proof (pow2_pos t); lia|lia]|]. intros j Hj Hjt. assert (j = t) as -> by lia.
    replace t with (Z.log2 x); [apply Z.bit_log2; pose proof (pow2_pos t); lia|].
    apply Z.log2_unique; [lia|]. rewrite <- Z.add_1_r. lia. }
  do 5 (apply smear_step in H0; [|lia..]). cbn [Z.mul Pos.mul] in H0.
  unfold ldz. set (y := Z.lor _ (Z.shiftr _ 16)) in *.
  assert (y = Z.ones (t + 1)) as ->.
  { destruct H0 as [Hy Hrun]. apply Z.bits_inj'. intros j Hj.
    destruct (decide (j ≤ t)); [rewrite Hrun, Z.ones_spec_low by lia; done|].
    rewrite (testbit_high (t + 1)), Z.ones_spec_high by (done || lia). done. }
  apply Z.eqb_eq. apply (forallb_range (λ t, u32 (32 - ones (Z.ones (t + 1))) =? 31 - t) 32); [reflexivity|lia].
Qed.

Lemma exp_base_2_spec n : 0 ≤ n ≤ 32 → exp_base_2 n = u32 (2 ^ n).
Proof.
  intros Hn. apply Z.eqb_eq. apply (forallb_range (λ n, exp_base_2 n =? u32 (2 ^ n)) 33); [reflexivity|lia].
Qed.

(** The logarithm of the divisor, rounded up *)
Lemma LOG2_CEIL_spec d :
  0 < d < 2 ^ 32 → 0 ≤ LOG2_CEIL d ≤ 32 ∧ d ≤ 2 ^ LOG2_CEIL d ∧ (0 < LOG2_CEIL d → 2 ^ (LOG2_CEIL d - 1) < d).
Proof.
  intros Hd. unfold LOG2_CEIL. rewrite (u32_small (d - 1)) by lia.
  destruct (decide (d = 1)) as [->|Hne]; [vm_compute; intuition congruence|].
  set (t := Z.log2 (d - 1)). pose proof (Z.log2_spec (d - 1)) as Ht. specialize (Ht ltac:(lia)). fold t in Ht.
  rewrite <- Z.add_1_r in Ht.
  assert (0 ≤ t < 32) by (split; [apply Z.log2_nonneg|apply Z.log2_lt_pow2; lia]).
  rewrite (ldz_spec t) by lia. replace (32 - (31 - t)) with (t + 1) by lia. rewrite u32_small by lia.
  replace (t + 1 - 1) with t by lia. lia.
Qed.

(** ** Unsigned division *)

Lemma s32_small x : - 2 ^ 31 ≤ x < 2 ^ 31 → s32 x = x.
Proof. intros. apply (sgn_unique 32); [lia|unfold u32; auto with klee lia|done|done]. Qed.

Lemma u32_s32 x : u32 (s32 x) = u32 x.
Proof. unfold s32. apply (sgn_mod 32); [lia|unfold u32; auto with klee lia]. Qed.

(** A multiplier a little above [2^(32+l) / d] divides every numerator below [2^32]. *)
Lemma multiply_shift n d m k e :
  0 < d → 0 ≤ k → m * d = 2 ^ k + e → 0 ≤ n → 0 ≤ n * e < 2 ^ k → (m * n) / 2 ^ k = n / d.
Proof.
  intros Hd Hk Hm Hn He. pose proof (pow2_pos k Hk) as Hp. symmetry. apply Z.div_unique_pos with (r := m * n - 2 ^ k * (n / d)); [|lia].
  pose proof (Z.div_mod n d ltac:(lia)) as Hdm. pose proof (Z.mod_pos_bound n d Hd).
  set (q := n / d) in *. set (r := n mod d) in *.
  assert (d * (m * n - 2 ^ k * q) = 2 ^ k * r + n * e) as Heq by nia. nia.
Qed.

Lemma quotient_split a b c : 0 < b → 0 < c → a / b / c = a / (b * c).
Proof. intros. apply Z.div_div; lia. Qed.

Lemma half_sum n t : (n - t) / 2 + t = (n + t) / 2.
Proof. replace (n + t) with (n - t + t * 2) by lia. by rewrite Z.div_add by lia. Qed.

(** The multiplier of an unsigned division without its leading bit, and the error it carries *)
Lemma udiv_multiplier d l :
  0 < d < 2 ^ 32 → 0 ≤ l ≤ 32 → d ≤ 2 ^ l → (0 < l → 2 ^ (l - 1) < d) →
  let m := 2 ^ 32 * (2 ^ l - d) / d + 1 in
  2 ^ l - d < d ∧ m `bits` 32 ∧ ∃ e, (m + 2 ^ 32) * d = 2 ^ (32 + l) + e ∧ 0 < e ≤ d.
Proof.
  intros Hd Hl Hle Hlow m. set (mid := 2 ^ l - d) in *.
  assert (mid = 0 ∨ mid ≤ d - 2) as Hmid.
  { unfold mid. destruct (decide (l = 0)) as [->|]; [change (2 ^ 0) with 1 in *; lia|]. pose proof (pow2_split l ltac:(lia)). lia. }
  pose proof (Z.div_mod (2 ^ 32 * mid) d ltac:(lia)). pose proof (Z.mod_pos_bound (2 ^ 32 * mid) d ltac:(lia)).
  assert (0 ≤ 2 ^ 32 * mid / d) by (apply Z.div_pos; lia). split_and!; [lia|split; [lia|]|].
  - unfold m. assert (2 ^ 32 * mid / d < 2 ^ 32 - 1); [|lia]. apply Z.div_lt_upper_bound; [lia|]. destruct Hmid as [->|]; nia.
  - exists (d - 2 ^ 32 * mid mod d). rewrite Z.pow_add_r by lia. unfold m, mid in *. lia.
Qed.

(** The sum of the numerator and the high word is halved without overflow. *)
Lemma udiv_shifts n m l :
  m `bits` 32 → 0 ≤ l → (l = 0 → m = 1) → n `bits` 32 →
  let t1 := (m * n) / 2 ^ 32 in
  0 ≤ t1 ≤ n ∧ ((n - t1) / 2 ^ Z.min l 1 + t1) / 2 ^ Z.max (l - 1) 0 = ((m + 2 ^ 32) * n) / 2 ^ (32 + l).
Proof.
  intros [Hm0 Hm] Hl Hone [Hn0 Hn] t1.
  assert (0 ≤ t1 ≤ n) as Ht1 by (split; [apply Z.div_pos|apply Z.div_le_upper_bound]; nia). split; [done|].
  rewrite Z.pow_add_r, <- quotient_split by (lia || apply pow2_pos; lia).
  assert (((m + 2 ^ 32) * n) / 2 ^ 32 = n + t1) as ->.
  { unfold t1. rewrite Z.mul_add_distr_r, (Z.mul_comm (2 ^ 32) n), Z.div_add by lia. apply Z.add_comm. }
  destruct (decide (l = 0)) as [El|].
  - assert (t1 = 0) as -> by (unfold t1; rewrite Hone, Z.mul_1_l by done; by apply Z.div_small).
    rewrite El. change (Z.min 0 1) with 0. change (Z.max (0 - 1) 0) with 0. change (2 ^ 0) with 1. by rewrite !Z.div_1_r, Z.sub_0_r.
  - rewrite Z.min_r, Z.max_l by lia. rewrite half_sum, quotient_split by (lia || apply pow2_pos; lia).
    f_equal. rewrite (pow2_split l) by lia. lia.
Qed.

Lemma udiv_constants d :
  0 < d < 2 ^ 32 →
  ComputeUDivConstants32 d ⇓ λ '(mprime, sh1, sh2),
    mprime `bits` 32 ∧ 0 ≤ sh1 ≤ 1 ∧ 0 ≤ sh2 ≤ 31 ∧
    ∀ n, n `bits` 32 → let t1 := (mprime * n) / 2 ^ 32 in
      0 ≤ t1 ≤ n ∧ ((n - t1) / 2 ^ sh1 + t1) / 2 ^ sh2 = n / d.
Proof.
  intros Hd. unfold ComputeUDivConstants32. pose proof (LOG2_CEIL_spec d Hd) as (Hl & Hle & Hlow).
  set (l := LOG2_CEIL d) in *. rewrite (s32_small l), exp_base_2_spec by lia.
  ystep; [rewrite (proj2 (Z.eqb_neq d 0)) by lia; done|].
  destruct (udiv_multiplier d l Hd Hl Hle Hlow) as (Hmid & Hm & e & He & Hbound).
  assert (u32 (u32 (2 ^ l) - d) = 2 ^ l - d) as -> by (unfold u32; rewrite Zminus_mod_idemp_l; apply Z.mod_small; lia).
  rewrite u64_small by (split; lia). set (m := 2 ^ 32 * (2 ^ l - d) / d + 1) in *. rewrite u32_small by done. apply yields_done.
  split_and!; [apply Hm..|lia|lia|lia|lia|]. intros n Hn. destruct (udiv_shifts n m l Hm (proj1 Hl)) as [Ht1 ->]; [|done|split; [done|]].
  - intros El. unfold m. assert (2 ^ l - d = 0) as -> by (rewrite El in *; change (2 ^ 0) with 1 in *; lia). done.
  - destruct Hn. apply (multiply_shift n d _ _ e); [lia|lia|done|done|]. rewrite Z.pow_add_r by lia. nia.
Qed.

(** ** Multiplication *)

Lemma land_pow2 a j : 0 ≤ j → Z.testbit a j = false → Z.land a (2 ^ j) = 0.
Proof.
  intros Hj Ha. apply Z.bits_inj'. intros i Hi. rewrite Z.land_spec, Z.pow2_bits_eqb, Z.bits_0 by done.
  destruct (j =? i) eqn:E; unbool; [subst; by rewrite Ha|apply andb_false_r].
Qed.

Lemma lxor_set a j : 0 ≤ j → Z.testbit a j = false → Z.lxor a (2 ^ j) = a + 2 ^ j.
Proof. intros. by rewrite Z.add_nocarry_lxor by auto using land_pow2. Qed.

Lemma lor_set a j : 0 ≤ j → Z.testbit a j = false → Z.lor a (2 ^ j) = a + 2 ^ j.
Proof. intros. rewrite <- Z.lxor_lor, lxor_set by auto using land_pow2. done. Qed.

Lemma lxor_clear a j : 0 ≤ j → Z.testbit a j = true → Z.lxor a (2 ^ j) = a - 2 ^ j.
Proof.
  intros Hj Ha. assert (Z.testbit (Z.lxor a (2 ^ j)) j = false) as Hc by (rewrite Z.lxor_spec, Ha, Z.pow2_bits_true by done; done).
  pose proof (lxor_set _ j Hj Hc) as H. rewrite Z.lxor_assoc, Z.lxor_nilpotent, Z.lxor_0_r in H. lia.
Qed.

(** The sum and the difference agree with the bits that have been consumed. *)
Record mult_inv (multiplicand k x add sub : Z) : Prop := {
  mi_k : 0 ≤ k;
  mi_x : x `bits` 64;
  mi_low : x mod 2 ^ k = 0;
  mi_add : add `bits` Z.min k 64;
  mi_sub : sub `bits` Z.min k 64;
  mi_disjoint : ∀ j, 0 ≤ j → Z.testbit add j = true → Z.testbit sub j = false;
  mi_sum : u64 (add - sub + x) = multiplicand;
}.

(** One iteration, seen as arithmetic: the run of ones from [low] to [high] leaves [x]. *)
Lemma mult_run x :
  0 < x < 2 ^ 64 →
  let low := bits64.indexOfRightmostBit x in
  let p := u64 (x + u64 (Z.shiftl 1 low)) in
  let q := bits64.isolateRightmostBit p in
  let high := if negb (q =? 0) then bits64.indexOfSingleBit q else 64 in
  0 ≤ low < high ∧ high ≤ 64 ∧ Z.shiftl 1 low = 2 ^ low ∧ Z.testbit x low = true ∧
  Z.lxor p q `bits` 64 ∧ Z.lxor p q mod 2 ^ (high + 1) = 0 ∧ u64 (Z.lxor p q) = u64 (x + 2 ^ low - 2 ^ high).
Proof.
  intros Hx. cbv zeta. destruct (rightmost_decompose x 64 Hx) as (low & r & Hlow & Hxr).
  assert (bits64.indexOfRightmostBit x = low) as ->.
  { unfold bits64.indexOfRightmostBit, bits64.isolateRightmostBit, u64. rewrite Hxr, isolate_rightmost by done. by apply indexOfSingleBit_64. }
  rewrite Z.shiftl_1_l. assert (2 ^ low `bits` 64) by (split; [lia|apply Z.pow_lt_mono_r; lia]).
  rewrite (u64_small (2 ^ low)) by done. set (p := u64 (x + 2 ^ low)).
  assert (Z.testbit x low = true) by (rewrite Hxr, testbit_odd_mul, Z.ltb_irrefl, Z.eqb_refl by lia; done).
  assert (p `bits` 64) as Hp by (unfold p, u64; auto with klee lia).
  destruct (decide (p = 0)) as [Hp0|Hp0].
  - rewrite Hp0. change (bits64.isolateRightmostBit 0) with 0. cbn [Z.eqb negb]. change (Z.lxor 0 0) with 0.
    split_and!; [lia..|done|done|auto with klee lia|by rewrite Z.mod_0_l by lia|].
    unfold u64. rewrite Zminus_mod. change ((x + 2 ^ low) mod 2 ^ 64) with p. by rewrite Hp0.
  - destruct (rightmost_decompose p 64) as (h & s & Hh & Hps); [unfold bounded in Hp; lia|].
    assert (bits64.isolateRightmostBit p = 2 ^ h) as -> by (unfold bits64.isolateRightmostBit, u64; rewrite Hps; by apply isolate_rightmost).
    assert (Z.testbit p h = true) as Hbit by (rewrite Hps, testbit_odd_mul, Z.ltb_irrefl, Z.eqb_refl by lia; done).
    pose proof (pow2_pos h ltac:(lia)). rewrite (proj2 (Z.eqb_neq (2 ^ h) 0)) by lia. cbn [negb].
    rewrite indexOfSingleBit_64, lxor_clear by (done || lia).
    assert (low < h).
    { apply Z.nle_gt. intros Hle. unfold p, u64 in Hbit. rewrite Z.mod_pow2_bits_low in Hbit by lia.
      replace (x + 2 ^ low) with ((r + 1) * 2 ^ (low + 1)) in Hbit by (rewrite Hxr, Z.pow_add_r by lia; ring).
      rewrite Z.mul_pow2_bits_low in Hbit by lia. done. }
    assert (p - 2 ^ h = s * 2 ^ (h + 1)) as Hs by (rewrite Hps, Z.pow_add_r by lia; ring).
    split_and!; [lia..|done|done|unfold bounded in *; split; [|lia]|rewrite Hs; apply Z.mod_mul; lia|].
    + rewrite Hs. pose proof (pow2_pos (h + 1)). assert (0 ≤ s); [|nia]. apply Z.nlt_ge. intros Hs0. destruct Hp. nia.
    + unfold p, u64. by rewrite Zminus_mod_idemp_l.
Qed.

Lemma mult_inv_step multiplicand k x add sub low high x' add' sub' :
  mult_inv multiplicand k x add sub → k ≤ low < high → high ≤ 64 →
  x' `bits` 64 → x' mod 2 ^ (high + 1) = 0 → u64 x' = u64 (x + 2 ^ low - 2 ^ high) →
  add' `bits` Z.min (high + 1) 64 → sub' `bits` Z.min (high + 1) 64 →
  (∀ j, 0 ≤ j → Z.testbit add' j = true → Z.testbit sub' j = false) →
  u64 (add' - sub') = u64 (add - sub + 2 ^ high - 2 ^ low) →
  mult_inv multiplicand (high + 1) x' add' sub'.
Proof.
  intros [? ? ? ? ? ? Hsum] Hlow Hhigh Hx' Hlow' Ex ? ? Hdis Eas. split; try done; [lia|].
  rewrite <- Hsum. unfold u64 in *. rewrite <- Zplus_mod_idemp_l, <- Zplus_mod_idemp_r, Ex, Eas, <- Zplus_mod. f_equal. lia.
Qed.

(** The two sets of bits after a run of several ones, before the bit [high] is added *)
Lemma mult_borrow multiplicand k x add sub low :
  mult_inv multiplicand k x add sub → k ≤ low < 64 →
  let '(add', sub') :=
    if negb (low =? 0) && negb (Z.land add (Z.shiftr (2 ^ low) 1) =? 0)
    then (Z.lxor add (Z.shiftr (2 ^ low) 1), Z.lxor sub (Z.shiftr (2 ^ low) 1))
    else (add, Z.lor sub (2 ^ low)) in
  add' `bits` (low + 1) ∧ sub' `bits` (low + 1) ∧ add' - sub' = add - sub - 2 ^ low ∧
  (∀ j, 0 ≤ j → Z.testbit add' j = true → Z.testbit sub' j = false).
Proof.
  intros [Hk _ _ Hadd Hsub Hdis _] Hlow.
  assert (∀ v, v `bits` Z.min k 64 → v `bits` low) as Hmono by (intros v Hv; eapply bounded_mono, Hv; lia).
  assert (∀ v, v `bits` low → v `bits` (low + 1)) as Hup by (intros v Hv; eapply bounded_mono, Hv; lia).
  apply Hmono in Hadd, Hsub. assert (Z.testbit sub low = false) as Hs by (eapply testbit_high; [exact Hsub|lia]).
  assert (2 ^ low `bits` (low + 1)) by (split; [lia|apply Z.pow_lt_mono_r; lia]).
  destruct (low =? 0) eqn:E0; unbool; cbn [negb andb].
  - split_and!; auto with klee lia; [rewrite lor_set by (done || lia); lia|].
    intros j Hj Ha. rewrite (testbit_high low add) in Ha by (done || lia). done.
  - replace (Z.shiftr (2 ^ low) 1) with (2 ^ (low - 1)) by (rewrite Z.shiftr_div_pow2, <- Z.pow_sub_r by lia; done).
    assert (2 ^ (low - 1) `bits` low) by (split; [lia|apply Z.pow_lt_mono_r; lia]).
    destruct (Z.testbit add (low - 1)) eqn:Ea.
    + rewrite (proj2 (Z.eqb_neq _ _)); [cbn [negb]|].
      * assert (Z.testbit sub (low - 1) = false) by (apply Hdis; done || lia).
        split_and!; [auto with klee lia..| |].
        { rewrite lxor_clear, lxor_set, (pow2_split low) by (done || lia). lia. }
        intros j Hj. rewrite !Z.lxor_spec, Z.pow2_bits_eqb by lia. destruct (_ =? j) eqn:E; unbool.
        -- subst j. rewrite Ea. done.
        -- rewrite !xorb_false_r. auto.
      * intros E. apply (f_equal (λ z, Z.testbit z (low - 1))) in E.
        rewrite Z.land_spec, Ea, Z.pow2_bits_true, Z.bits_0 in E by lia. done.
    + rewrite land_pow2, Z.eqb_refl by (done || lia). cbn [negb].
      split_and!; auto with klee lia; [rewrite lor_set by (done || lia); lia|].
      intros j Hj Ha. rewrite Z.lor_spec, (Hdis j Hj Ha), Z.pow2_bits_false; [done|].
      intros ->. rewrite (testbit_high j add) in Ha by (done || lia). done.
Qed.

Lemma mult_inv_low multiplicand k x add sub low :
  mult_inv multiplicand k x add sub → 0 ≤ low → Z.testbit x low = true → k ≤ low.
Proof.
  intros Hinv Hlow Hbit. apply Z.nlt_ge. intros Hlt. pose proof (mi_low _ _ _ _ _ Hinv) as H.
  apply (f_equal (λ z, Z.testbit z low)) in H.
  rewrite Z.mod_pow2_bits_low, Z.bits_0 in H by (pose proof (mi_k _ _ _ _ _ Hinv); lia). congruence.
Qed.

(** The constants after one iteration *)
Lemma mult_next multiplicand k x add sub low high x' :
  mult_inv multiplicand k x add sub → k ≤ low < high → high ≤ 64 →
  x' `bits` 64 → x' mod 2 ^ (high + 1) = 0 → u64 x' = u64 (x + 2 ^ low - 2 ^ high) →
  let '(add', sub') :=
    if high =? low + 1 then (Z.lor add (2 ^ low), sub)
    else
      let '(add, sub) :=
        if negb (low =? 0) && negb (Z.land add (Z.shiftr (2 ^ low) 1) =? 0)
        then (Z.lxor add (Z.shiftr (2 ^ low) 1), Z.lxor sub (Z.shiftr (2 ^ low) 1))
        else (add, Z.lor sub (2 ^ low)) in
      (if negb (high =? 64) then Z.lor add (u64 (Z.shiftl 1 high)) else add, sub) in
  mult_inv multiplicand (high + 1) x' add' sub'.
Proof.
  intros Hinv Hlow Hhigh Hx Hxl Esum. pose proof (mult_borrow _ _ _ _ _ low Hinv ltac:(lia)) as Hborrow.
  pose proof (mi_k _ _ _ _ _ Hinv).
  assert (∀ v, v `bits` (low + 1) → v `bits` Z.min (high + 1) 64) as Hup by (intros v Hv; eapply bounded_mono, Hv; lia).
  destruct (high =? low + 1) eqn:Eh; unbool.
  - destruct Hinv as [? ? ? Hadd Hsub Hdis Hsum].
    assert (add `bits` low ∧ sub `bits` low) as [Ha Hs] by (split; eapply bounded_mono; [|done| |done]; lia).
    assert (Z.testbit add low = false) by (apply (testbit_high low); done || lia).
    assert (2 ^ low `bits` (low + 1)) by (split; [lia|apply Z.pow_lt_mono_r; lia]).
    eapply (mult_inv_step _ k x add sub low high); [by split|lia|done|done|done|done| | | |].
    + apply Hup, bounded_lor; [lia| |done]. eapply bounded_mono, Ha; lia.
    + apply Hup. eapply bounded_mono, Hs; lia.
    + intros j Hj. rewrite Z.lor_spec, Z.pow2_bits_eqb by lia. destruct (low =? j) eqn:E; unbool.
      * subst j. intros _. apply (testbit_high low); done || lia.
      * rewrite orb_false_r. auto.
    + rewrite lor_set, Eh, Z.pow_add_r by (done || lia). f_equal. lia.
  - destruct (if negb _ && _ then _ else _) as [add' sub']. destruct Hborrow as (Ha & Hs & Ediff & Hdis).
    eapply (mult_inv_step _ k x add sub low high); try done; [|by apply Hup|..].
    all: rewrite Z.shiftl_1_l; destruct (high =? 64) eqn:E; unbool; cbn [negb].
    all: try (rewrite (u64_small (2 ^ high)) by (split; [lia|apply Z.pow_lt_mono_r; lia])).
    + by apply Hup.
    + apply bounded_lor; [lia|by apply Hup|]. split; [lia|]. apply Z.pow_lt_mono_r; lia.
    + done.
    + intros j Hj. rewrite Z.lor_spec, Z.pow2_bits_eqb by lia. destruct (high =? j) eqn:Ej; unbool.
      * subst j. intros _. apply (testbit_high (low + 1)); done || lia.
      * rewrite orb_false_r. auto.
    + rewrite Ediff. subst high. unfold u64. replace (add - sub + 2 ^ 64 - 2 ^ low) with (add - sub - 2 ^ low + 1 * 2 ^ 64) by lia.
      by rewrite Z.mod_add by lia.
    + rewrite lor_set by (lia || (apply (testbit_high (low + 1)); done || lia)). f_equal. lia.
Qed.

(** The loop consumes at least one bit of [x] in each iteration. *)
Lemma mult_loop_ok multiplicand fuel : ∀ k x add sub,
  mult_inv multiplicand k x add sub → 65 - k ≤ Z.of_nat fuel →
  mult_loop fuel x add sub ⇓ λ '(add, sub), ∃ k, mult_inv multiplicand k 0 add sub.
Proof.
  induction fuel as [|fuel IH]; intros k x add sub Hinv Hfuel; cbn [mult_loop];
    (destruct (x =? 0) eqn:Ex; unbool; [subst; apply yields_done; by exists k|]).
  all: pose proof (mi_x _ _ _ _ _ Hinv) as Hx; destruct (mult_run x) as (Hl1 & Hl2 & Elow & Hbit & Hx' & Hxl & Esum);
    [unfold bounded in Hx; lia|]; pose proof (mult_inv_low _ _ _ _ _ _ Hinv (proj1 Hl1) Hbit) as Hk. 1: lia.
  cbv zeta. set (low := bits64.indexOfRightmostBit x) in *. rewrite Elow in *.
  assert (2 ^ low `bits` 64) by (split; [lia|apply Z.pow_lt_mono_r; lia]). rewrite (u64_small (2 ^ low)) in * by done.
  set (p := u64 (x + 2 ^ low)) in *. set (q := bits64.isolateRightmostBit p) in *.
  set (high := if negb (q =? 0) then _ else 64) in *.
  pose proof (mult_next _ _ _ _ _ low high _ Hinv ltac:(lia) Hl2 Hx' Hxl Esum) as Hnext.
  destruct (if high =? low + 1 then _ else _) as [add' sub']. apply (IH (high + 1)); [done|lia].
Qed.

Lemma mult_constants x :
  x `bits` 64 → ComputeMultConstants64 x ⇓ λ '(add, sub),
    add `bits` 64 ∧ sub `bits` 64 ∧ (∀ j, 0 ≤ j → Z.testbit add j = true → Z.testbit sub j = false) ∧ x = u64 (add - sub).
Proof.
  intros Hx. unfold ComputeMultConstants64. apply yields_bind.
  eapply yields_mono; [apply (mult_loop_ok x 65 0); [|lia]|].
  - split; unfold bounded; rewrite ?Z.mod_1_r; try lia; [done|..]; [intros j _; by rewrite Z.bits_0|].
    rewrite Z.add_0_l. by apply u64_small.
  - intros [add sub] [k [? _ _ Hadd Hsub Hdis Hsum]]. rewrite Z.add_0_r in Hsum. ystep; [by apply Z.eqb_eq|]. apply yields_done.
    split_and!; try done; eapply bounded_mono; [|done| |done]; lia.
Qed.

(** ** Signed division *)

(** The same multiplier on a negative numerator rounds below the quotient. *)
Lemma multiply_shift_neg n d m k e :
  0 < d → 0 ≤ k → m * d = 2 ^ k + e → 0 < e → n < 0 → - n * e ≤ 2 ^ k → (m * n) / 2 ^ k + 1 = - (- n / d).
Proof.
  intros Hd Hk Hm He Hn Hle. pose proof (pow2_pos k Hk) as Hp. set (q := - n / d).
  assert ((m * n) / 2 ^ k = - q - 1) as ->; [|lia]. symmetry.
  pose proof (Z.div_mod (- n) d ltac:(lia)) as Hdm. pose proof (Z.mod_pos_bound (- n) d Hd). fold q in Hdm. set (r := - n mod d) in *.
  apply Z.div_unique_pos with (r := m * n + 2 ^ k * (q + 1)); [|lia].
  assert (d * (m * n + 2 ^ k * (q + 1)) = 2 ^ k * (d - r) - - n * e) as Heq by nia. nia.
Qed.

(** The multiplier of a signed division, and the error it carries *)
Lemma sdiv_multiplier d l :
  0 < d ≤ 2 ^ 31 → 1 ≤ l ≤ 31 → d ≤ 2 ^ l → (d = 1 ∧ l = 1 ∨ 2 ^ (l - 1) < d) →
  let m := 2 ^ 32 * 2 ^ (l - 1) / d + 1 in
  2 ^ 31 < m ∧ (m ≤ 2 ^ 32 ∨ m = 2 ^ 32 + 1 ∧ l = 1) ∧ ∃ e, m * d = 2 ^ (31 + l) + e ∧ 0 < e ≤ 2 ^ l.
Proof.
  intros Hd Hl Hle Hlow m. pose proof (pow2_split l ltac:(lia)) as Hsplit.
  assert (2 ^ 32 * 2 ^ (l - 1) = 2 ^ (31 + l)) as E by (rewrite <- Z.pow_add_r by lia; f_equal; lia).
  pose proof (Z.div_mod (2 ^ 32 * 2 ^ (l - 1)) d ltac:(lia)) as Hdm. pose proof (Z.mod_pos_bound (2 ^ 32 * 2 ^ (l - 1)) d ltac:(lia)).
  split_and!.
  - unfold m. assert (2 ^ 31 ≤ 2 ^ 32 * 2 ^ (l - 1) / d); [|lia]. apply Z.div_le_lower_bound; [lia|]. change (2 ^ 32) with (2 * 2 ^ 31). nia.
  - destruct Hlow as [[-> ->]|Hlow]; [right; by vm_compute|left].
    unfold m. assert (2 ^ 32 * 2 ^ (l - 1) / d < 2 ^ 32); [|lia]. apply Z.div_lt_upper_bound; [lia|]. nia.
  - exists (d - 2 ^ 32 * 2 ^ (l - 1) mod d). unfold m. rewrite <- E. lia.
Qed.

(** The shift count of a signed division *)
Lemma sdiv_log d :
  0 < d ≤ 2 ^ 31 →
  let l := if d =? 2 ^ 31 then 31 else Z.max 1 (LOG2_CEIL (u32 d)) in
  1 ≤ l ≤ 31 ∧ d ≤ 2 ^ l ∧ (d = 1 ∧ l = 1 ∨ 2 ^ (l - 1) < d).
Proof.
  intros Hd l. unfold l. destruct (d =? 2 ^ 31) eqn:E; unbool; [subst; vm_compute; intuition congruence|].
  rewrite u32_small by lia. pose proof (LOG2_CEIL_spec d ltac:(lia)) as (Hl & Hle & Hlow). set (k := LOG2_CEIL d) in *.
  assert (k ≤ 31).
  { apply Z.nlt_ge. intros Hk. assert (k = 32) as Ek by lia. rewrite Ek in Hlow. specialize (Hlow ltac:(lia)). change (32 - 1) with 31 in Hlow. lia. }
  destruct (decide (k = 0)) as [Ek|]; [|rewrite Z.max_r by lia; split_and!; [lia..|right; apply Hlow; lia]].
  rewrite Ek in *. change (2 ^ 0) with 1 in Hle. assert (d = 1) as -> by lia. split_and!; [lia..|by left].
Qed.

(** The quotient towards zero of a numerator by the absolute value of the divisor *)
Lemma quot_by_abs n d m l e :
  0 < d → 0 ≤ l → m * d = 2 ^ (31 + l) + e → 0 < e ≤ 2 ^ l → - 2 ^ 31 ≤ n < 2 ^ 31 →
  (m * n) / 2 ^ (31 + l) + (if n <? 0 then 1 else 0) = Z.quot n d.
Proof.
  intros Hd Hl Hm He Hn. pose proof (pow2_pos l Hl). assert (2 ^ (31 + l) = 2 ^ 31 * 2 ^ l) as E by (apply Z.pow_add_r; lia).
  destruct (n <? 0) eqn:Es; unbool.
  - rewrite (multiply_shift_neg n d m (31 + l) e); [|lia..|done|lia|done|rewrite E; nia].
    rewrite <- (Z.opp_involutive n) at 2. rewrite Z.quot_opp_l, Z.quot_div_nonneg by lia. done.
  - rewrite Z.add_0_r, (multiply_shift n d m (31 + l) e); [|lia..|done|lia|rewrite E; nia]. symmetry. apply Z.quot_div_nonneg; lia.
Qed.

(** The 32-bit sum does not overflow unless the divisor is 1 or -1, and then the shift is by 0. *)
Lemma shifted_sum m l n :
  2 ^ 31 < m → 1 ≤ l → (m ≤ 2 ^ 32 ∨ m = 2 ^ 32 + 1 ∧ l = 1) → - 2 ^ 31 ≤ n < 2 ^ 31 →
  u32 (s32 (n + ((m - 2 ^ 32) * n) / 2 ^ 32) / 2 ^ (l - 1)) = u32 ((m * n) / 2 ^ (31 + l)).
Proof.
  intros Hm Hl Hcase Hn.
  assert (n + ((m - 2 ^ 32) * n) / 2 ^ 32 = (m * n) / 2 ^ 32) as ->.
  { replace (m * n) with ((m - 2 ^ 32) * n + n * 2 ^ 32) by ring. rewrite Z.div_add by lia. apply Z.add_comm. }
  replace (31 + l) with (32 + (l - 1)) by lia. rewrite (Z.pow_add_r 2 32), <- quotient_split by (lia || apply pow2_pos; lia).
  destruct Hcase as [Hle|[-> ->]].
  - rewrite s32_small; [done|]. split; [apply Z.div_le_lower_bound|apply Z.div_lt_upper_bound]; nia.
  - change (2 ^ (1 - 1)) with 1. rewrite !Z.div_1_r. apply u32_s32.
Qed.

Lemma sdiv_constants d :
  - 2 ^ 31 ≤ d < 2 ^ 31 → d ≠ 0 →
  ComputeSDivConstants32 d ⇓ λ '(mprime, dsign, shpost),
    - 2 ^ 31 ≤ mprime < 2 ^ 31 ∧ 0 ≤ shpost ≤ 30 ∧ dsign = (if d <? 0 then - 1 else 0) ∧
    ∀ n, - 2 ^ 31 ≤ n < 2 ^ 31 →
      u32 (sgn 32 (u32 (n + (mprime * n) / 2 ^ 32)) / 2 ^ shpost + (if n <? 0 then 1 else 0)) = u32 (Z.quot n (Z.abs d)).
Proof.
  intros Hd Hd0. unfold ComputeSDivConstants32.
  assert (u64 (if d >? 0 then d else - d) = Z.abs d) as -> by (rewrite u64_small; [|split]; case_step; unbool; lia).
  pose proof (sdiv_log (Z.abs d) ltac:(lia)) as Hlog. cbv zeta in *. set (l := if Z.abs d =? 2 ^ 31 then _ else _) in *.
  destruct Hlog as (Hl & Hle & Hlow). rewrite exp_base_2_spec by lia.
  pose proof (pow2_le (l - 1) 30 ltac:(lia)) as Hp30. pose proof (pow2_pos (l - 1) ltac:(lia)).
  rewrite (u32_small (2 ^ (l - 1))), (u64_small (2 ^ 32 * 2 ^ (l - 1))) by (split; lia).
  destruct (sdiv_multiplier (Z.abs d) l ltac:(lia) Hl Hle Hlow) as (Hm1 & Hm2 & e & He & Hbound).
  set (m := 2 ^ 32 * 2 ^ (l - 1) / Z.abs d + 1) in *. rewrite (u64_small m) by (split; lia).
  ystep; [rewrite (proj2 (Z.eqb_neq _ _)) by lia; done|]. apply yields_done.
  rewrite s32_small by lia. split_and!; [lia..| |].
  - rewrite Z.shiftr_div_pow2 by lia. case_step; unbool; [|apply Z.div_small; lia]. symmetry. apply (Z.div_unique_pos _ _ _ (d + 2 ^ 31)); lia.
  - intros n Hn. rewrite <- (quot_by_abs n (Z.abs d) m l e) by (done || lia).
    change (sgn 32 (u32 ?x)) with (s32 x). pose proof (shifted_sum m l n Hm1 (proj1 Hl) Hm2 Hn) as Hsum. unfold u32 in *.
    by rewrite Zplus_mod, Hsum, <- Zplus_mod.
Qed.
