(* ===== verification/APInt.v ===== *)
(** * The interface of [llvm::APInt]

    [ConstantExpr] stores its value in an [llvm::APInt], a class of a library
    the repository only links against.  Its operations are a parameter of the
    model: [APIntOps] lists the member functions that [Expr.cpp] calls, on the
    value of a constant and its bit width, and [APIntLaws] states their
    documented behaviour on operands that fit the width.  Nothing is assumed
    of a division by zero or of a shift by the width or more. *)

From stdpp Require Import prelude.
From S2P Require Import Prelude Bitvec.

Class APIntOps : Type := {
  (** the arithmetic, bitwise, shift and comparison operators *)
  ap_binop : BinaryKind → Z → Z → Z → Z;
  (** [~x] *)
  ap_not : Z → Z → Z;
  (** [-x] *)
  ap_neg : Z → Z → Z;
  (** [x.zext(W)] *)
  ap_zext : Z → Z → Z → Z;
  (** [x <<= n] *)
  ap_shl : Z → Z → Z → Z;
  (** [x.ashr(n)] *)
  ap_ashr : Z → Z → Z → Z;
  (** [x.zextOrTrunc(W)] *)
  ap_zextOrTrunc : Z → Z → Z → Z;
  (** [x.sextOrTrunc(W)] *)
  ap_sextOrTrunc : Z → Z → Z → Z;
  (** [llvm::hash_value(x)] *)
  ap_hash_value : Z → Z → Z;
}.

(** The operands of a kind for which its result is documented. *)
Definition ap_defined (k : BinaryKind) (w r : Z) : Prop :=
  match k with
  | UDiv | SDiv | URem | SRem => r ≠ 0
  | Shl | LShr | AShr => r < w
  | _ => True
  end.

Class APIntLaws `{APIntOps} : Prop := {
  ap_binop_spec k w l r :
    0 < w → l `bits` w → r `bits` w → ap_defined k w r →
    ap_binop k w l r = bv_eval k w l r;
  ap_not_spec w v : 0 < w → v `bits` w → ap_not w v = bv_not w v;
  ap_neg_spec w v : 0 < w → v `bits` w → ap_neg w v = (- v) mod 2 ^ w;
  ap_zext_spec w v wo : 0 < w < wo → v `bits` w → ap_zext w v wo = v;
  ap_shl_spec w v n :
    0 < w → 0 ≤ n < w → v `bits` w → ap_shl w v n = Z.shiftl v n mod 2 ^ w;
  ap_ashr_spec w v n :
    0 < w → 0 ≤ n < w → v `bits` w → ap_ashr w v n = Z.shiftr (sgn w v) n mod 2 ^ w;
  ap_zextOrTrunc_spec w v wo :
    0 < w → 0 < wo → v `bits` w → ap_zextOrTrunc w v wo = v mod 2 ^ wo;
  ap_sextOrTrunc_spec w v wo :
    0 < w → 0 < wo → v `bits` w → ap_sextOrTrunc w v wo = bv_sext w v wo;
}.

(** The laws can hold: a reference implementation, which also makes the model
    executable.  Its hash is the value itself. *)
#[export] Instance reference_APInt : APIntOps := {|
  ap_binop := bv_eval;
  ap_not := bv_not;
  ap_neg w v := (- v) mod 2 ^ w;
  ap_zext w v wo := v;
  ap_shl w v n := Z.shiftl v n mod 2 ^ w;
  ap_ashr w v n := Z.shiftr (sgn w v) n mod 2 ^ w;
  ap_zextOrTrunc w v wo := v mod 2 ^ wo;
  ap_sextOrTrunc := bv_sext;
  ap_hash_value w v := v;
|}.

#[export] Instance reference_APIntLaws : @APIntLaws reference_APInt.
Proof. by split. Qed.
