(* ===== verification/ExprData.v ===== *)
(** * Symbolic expressions: [klee/Expr.h], [lib/Expr/Updates.cpp] and the
      structural part of [lib/Expr/Expr.cpp]

    The expression tree, its widths and kids, hashing, the structural
    comparison behind [ref<Expr>::operator==], and the value of an expression
    under an assignment of bytes to the symbolic arrays. *)

From stdpp Require Import prelude strings.
From S2P Require Import Prelude Bitvec Bits APInt.

(** ** Data *)

(** [class ConstantExpr]: an [APInt], that is a width and a value. *)
Record ConstantExpr : Set := mkConstant { cwidth : Z; cvalue : Z }.

(** [class Array].  Expressions hold pointers to arrays; [deref] is the heap of
    array objects, whose fields never change after construction. *)
Record ArrayObj : Set := mkArray {
  array_name : string;
  array_size : Z;
  constantValues : list ConstantExpr;
}.

(** [const Array *] *)
Definition Array : Set := positive.

Class ArrayStore : Type := deref : Array → ArrayObj.

(** [class Expr] and its subclasses.  [Read] carries the two fields of its
    [UpdateList]; a null [UpdateNode *] is [NullNode]. *)
Inductive Expr : Set :=
| Constant (c : ConstantExpr)
| NotOptimized (src : Expr)
| Read (root : Array) (head : UpdateNode) (index : Expr)
| Select (cond trueExpr falseExpr : Expr)
| Concat (left right : Expr)
| Extract (expr : Expr) (offset width : Z)
| ZExt (src : Expr) (width : Z)
| SExt (src : Expr) (width : Z)
| Not (expr : Expr)
| Binary (k : BinaryKind) (left right : Expr)
with UpdateNode : Set :=
| NullNode
| Node (next : UpdateNode) (index value : Expr).

Scheme Expr_mut := Induction for Expr Sort Prop
with UpdateNode_mut := Induction for UpdateNode Sort Prop.
Combined Scheme Expr_UpdateNode_ind from Expr_mut, UpdateNode_mut.

(** [class UpdateList] *)
Record UpdateList : Set := mkUpdateList { ul_root : Array; ul_head : UpdateNode }.

(** The named widths. *)
Definition InvalidWidth : Z := 0.
Definition Bool : Z := 1.
Definition Int8 : Z := 8.
Definition Int16 : Z := 16.
Definition Int32 : Z := 32.
Definition Int64 : Z := 64.

Abbreviation const v w := (Constant (mkConstant w v)).

(** [getKind] as the numeric value of the enumerator. *)
Definition binary_kind_index (k : BinaryKind) : Z :=
  match k with
  | Add => 9 | Sub => 10 | Mul => 11 | UDiv => 12 | SDiv => 13 | URem => 14 | SRem => 15
  | And => 17 | Or => 18 | Xor => 19 | Shl => 20 | LShr => 21 | AShr => 22
  | Eq => 23 | Ne => 24 | Ult => 25 | Ule => 26 | Ugt => 27 | Uge => 28
  | Slt => 29 | Sle => 30 | Sgt => 31 | Sge => 32
  end.

Definition NotKind : Z := 16.

Definition getKind (e : Expr) : Z :=
  match e with
  | Constant _ => 0 | NotOptimized _ => 1 | Read _ _ _ => 3 | Select _ _ _ => 4
  | Concat _ _ => 5 | Extract _ _ _ => 6 | ZExt _ _ => 7 | SExt _ _ => 8
  | Not _ => NotKind | Binary k _ _ => binary_kind_index k
  end.

(** [BinaryExpr::classof] tests [BinaryKindFirst <= k <= BinaryKindLast]. *)
Definition BinaryExpr_classof (e : Expr) : bool :=
  (binary_kind_index Add <=? getKind e) && (getKind e <=? binary_kind_index Sge).

Fixpoint getWidth (e : Expr) : Z :=
  match e with
  | Constant c => cwidth c
  | NotOptimized src => getWidth src
  | Read _ _ _ => Int8
  | Select _ t _ => getWidth t
  | Concat l r => getWidth l + getWidth r
  | Extract _ _ w => w
  | ZExt _ w => w
  | SExt _ w => w
  | Not e => getWidth e
  | Binary k l _ => if is_cmp k then Bool else getWidth l
  end.

(** [getNumKids] and [getKid]. *)
Definition getKids (e : Expr) : list Expr :=
  match e with
  | Constant _ => []
  | NotOptimized src => [src]
  | Read _ _ index => [index]
  | Select c t f => [c; t; f]
  | Concat l r => [l; r]
  | Extract e _ _ => [e]
  | ZExt src _ => [src]
  | SExt src _ => [src]
  | Not e => [e]
  | Binary _ l r => [l; r]
  end.

Definition isConstant (e : Expr) : bool :=
  match e with Constant _ => true | _ => false end.

(** ** Update lists *)

(** [UpdateNode::getSize], [UpdateList::getSize] *)
Fixpoint node_size (un : UpdateNode) : Z :=
  match un with NullNode => 0 | Node next _ _ => 1 + node_size next end.

(** [UpdateList::extend], with the assertion of the [UpdateNode] constructor. *)
Definition UpdateList_extend (ul : UpdateList) (index value : Expr) : outcome UpdateList :=
  cassert (getWidth value =? Int8);;
  Done (mkUpdateList (ul_root ul) (Node (ul_head ul) index value)).

(** ** Hashing *)

Definition MAGIC_HASH_CONSTANT : Z := 39.

(** The loop of [UpdateList::hash] over the characters of the array name. *)
Fixpoint name_hash (s : string) (res : Z) : Z :=
  match s with
  | EmptyString => res
  | String c s' =>
      name_hash s' (u32 (res * MAGIC_HASH_CONSTANT + sgn 8 (Z.of_N (Ascii.N_of_ascii c))))
  end.

(** One iteration of [Expr::computeHash]. *)
Definition hash_kid (res kid_hash : Z) : Z :=
  Z.lxor (u32 (Z.shiftl res 1)) (u32 (kid_hash * MAGIC_HASH_CONSTANT)).

Fixpoint hash `{APIntOps} `{ArrayStore} (e : Expr) {struct e} : Z :=
  let generic (kids : list Z) :=
    foldl hash_kid (u32 (getKind e * MAGIC_HASH_CONSTANT)) kids in
  match e with
  | Constant c =>
      u32 (Z.lxor (ap_hash_value (cwidth c) (cvalue c)) (u32 (cwidth c * MAGIC_HASH_CONSTANT)))
  | ZExt src w | SExt src w =>
      Z.lxor (u32 (w * MAGIC_HASH_CONSTANT)) (u32 (hash src * MAGIC_HASH_CONSTANT))
  | Extract e' off w =>
      let res := u32 (off * MAGIC_HASH_CONSTANT) in
      let res := Z.lxor res (u32 (w * MAGIC_HASH_CONSTANT)) in
      Z.lxor res (u32 (hash e' * MAGIC_HASH_CONSTANT))
  | Read root head index =>
      let res := u32 (hash index * MAGIC_HASH_CONSTANT) in
      let updates_hash :=
        let res := name_hash (array_name (deref root)) 0 in
        match head with NullNode => res | Node _ _ _ => Z.lxor res (hash_node head) end in
      Z.lxor res updates_hash
  | Not e' => u32 (u32 (hash e' * MAGIC_HASH_CONSTANT) * NotKind)
  | NotOptimized src => generic [hash src]
  | Select c t f => generic [hash c; hash t; hash f]
  | Concat l r => generic [hash l; hash r]
  | Binary _ l r => generic [hash l; hash r]
  end
with hash_node `{APIntOps} `{ArrayStore} (un : UpdateNode) {struct un} : Z :=
  match un with
  | NullNode => 0
  | Node next index value =>
      let res := Z.lxor (hash index) (hash value) in
      match next with NullNode => res | Node _ _ _ => Z.lxor res (hash_node next) end
  end.

(** ** Structural comparison

    The shortcuts on pointer equality are left out: they return 0, which the
    comparison of an object with itself returns anyway ([compare_refl]). *)

(** [a < b ? -1 : 1], or 0 when equal *)
Definition cmpZ (a b : Z) : Z := if a =? b then 0 else if a <? b then -1 else 1.

(** Comparison of [std::string]s. *)
Fixpoint cmp_string (s t : string) : Z :=
  match s, t with
  | EmptyString, EmptyString => 0
  | EmptyString, String _ _ => -1
  | String _ _, EmptyString => 1
  | String a s', String b t' =>
      let r := cmpZ (Z.of_N (Ascii.N_of_ascii a)) (Z.of_N (Ascii.N_of_ascii b)) in
      if r =? 0 then cmp_string s' t' else r
  end.

(** [if (int res = r) return res; k] *)
Definition orelse (r k : Z) : Z := if r =? 0 then k else r.

(** [UpdateList::compare] up to the loop over the nodes *)
Definition compare_roots `{ArrayStore} (a b : Array) (an bn : UpdateNode) : Z :=
  orelse (cmp_string (array_name (deref a)) (array_name (deref b)))
  (orelse (cmpZ (Zpos a) (Zpos b))
  (cmpZ (node_size an) (node_size bn))).

(** [compareContents] of each subclass, then the comparison of the kids *)
Definition compare_contents `{ArrayStore} (cmp : Expr → Expr → Z)
    (cmp_nodes : UpdateNode → UpdateNode → Z) (a b : Expr) : Z :=
  match a, b with
  | Constant ca, Constant cb =>
      orelse (cmpZ (cwidth ca) (cwidth cb)) (cmpZ (cvalue ca) (cvalue cb))
  | NotOptimized sa, NotOptimized sb => cmp sa sb
  | Read ra ha ia, Read rb hb ib =>
      orelse (compare_roots ra rb ha hb) (orelse (cmp_nodes ha hb) (cmp ia ib))
  | Select ca ta fa, Select cb tb fb =>
      orelse (cmp ca cb) (orelse (cmp ta tb) (cmp fa fb))
  | Concat la ra, Concat lb rb => orelse (cmp la lb) (cmp ra rb)
  | Extract ea oa wa, Extract eb ob wb =>
      orelse (cmpZ oa ob) (orelse (cmpZ wa wb) (cmp ea eb))
  | ZExt sa wa, ZExt sb wb => orelse (cmpZ wa wb) (cmp sa sb)
  | SExt sa wa, SExt sb wb => orelse (cmpZ wa wb) (cmp sa sb)
  | Not ea, Not eb => orelse (cmp ea eb) (cmp ea eb)
  | Binary _ la ra, Binary _ lb rb => orelse (cmp la lb) (cmp ra rb)
  | _, _ => 0
  end.

Fixpoint compare `{APIntOps} `{ArrayStore} (a b : Expr) {struct a} : Z :=
  orelse (cmpZ (getKind a) (getKind b))
  (orelse (cmpZ (hash a) (hash b))
  (compare_contents compare compare_nodes a b))
(** the loop of [UpdateList::compare]; the lists have the same size there *)
with compare_nodes `{APIntOps} `{ArrayStore} (an bn : UpdateNode) {struct an} : Z :=
  match an, bn with
  | Node na ia va, Node nb ib vb =>
      orelse (compare ia ib) (orelse (compare va vb) (compare_nodes na nb))
  | _, _ => 0
  end.

(** [UpdateNode::compare]: one node, its successors left out *)
Definition UpdateNode_compare `{APIntOps} `{ArrayStore} (an bn : UpdateNode) : Z :=
  match an, bn with
  | Node _ ia va, Node _ ib vb => orelse (compare ia ib) (compare va vb)
  | _, _ => 0
  end.

(** [UpdateList::compare] and [UpdateList::hash] *)
Definition UpdateList_compare `{APIntOps} `{ArrayStore} (a b : UpdateList) : Z :=
  orelse (compare_roots (ul_root a) (ul_root b) (ul_head a) (ul_head b))
    (compare_nodes (ul_head a) (ul_head b)).

Definition UpdateList_hash `{APIntOps} `{ArrayStore} (ul : UpdateList) : Z :=
  let res := name_hash (array_name (deref (ul_root ul))) 0 in
  match ul_head ul with NullNode => res | Node _ _ _ => Z.lxor res (hash_node (ul_head ul)) end.

(** [ref<Expr>::operator==] *)
Definition eqE `{APIntOps} `{ArrayStore} (a b : Expr) : bool := compare a b =? 0.


(** ** The comparison is a total order *)

Lemma cmpZ_eq a b : cmpZ a b = 0 ↔ a = b.
Proof. unfold cmpZ. repeat case_step; unbool; lia. Qed.
Lemma cmpZ_0 a b : cmpZ a b = 0 → a = b.
Proof. apply cmpZ_eq. Qed.
Lemma cmpZ_opp a b : cmpZ b a = - cmpZ a b.
Proof. unfold cmpZ. repeat case_step; unbool; lia. Qed.
Lemma cmpZ_trans a b c : cmpZ a b < 0 → cmpZ b c < 0 → cmpZ a c < 0.
Proof. unfold cmpZ. repeat case_step; unbool; lia. Qed.

Lemma orelse_eq r k : orelse r k = 0 ↔ r = 0 ∧ k = 0.
Proof. unfold orelse. case_step; unbool; lia. Qed.
Lemma orelse_0 k : orelse 0 k = k.
Proof. done. Qed.
Lemma orelse_opp r k r' k' : r' = - r → (r = 0 → k' = - k) → orelse r' k' = - orelse r k.
Proof. unfold orelse. intros -> ?. repeat case_step; unbool; lia || auto. Qed.

Lemma orelse_neg r k : orelse r k < 0 ↔ r < 0 ∨ (r = 0 ∧ k < 0).
Proof. unfold orelse. case_step; unbool; lia. Qed.

(** Lexicographic transitivity. *)
Lemma orelse_trans fab fbc fac kab kbc kac :
  (fab < 0 → fbc < 0 → fac < 0) → (fab = 0 → fac = fbc) → (fbc = 0 → fac = fab) →
  (fab = 0 → fbc = 0 → kab < 0 → kbc < 0 → kac < 0) →
  orelse fab kab < 0 → orelse fbc kbc < 0 → orelse fac kac < 0.
Proof.
  rewrite !orelse_neg. intros Ht Hl Hr Hk [?|[? ?]] [?|[? ?]].
  - auto.
  - rewrite Hr by done. auto.
  - rewrite Hl by done. auto.
  - right. split; [by rewrite Hl|auto].
Qed.

Lemma cmp_string_eq s t : cmp_string s t = 0 ↔ s = t.
Proof.
  revert t. induction s as [|a s IH]; intros [|b t]; cbn; try done.
  change (orelse (cmpZ (Z.of_N (Ascii.N_of_ascii a)) (Z.of_N (Ascii.N_of_ascii b)))
    (cmp_string s t) = 0 ↔ String a s = String b t).
  rewrite orelse_eq, cmpZ_eq, IH. split.
  - intros [Hc ->]. f_equal. rewrite <- (Ascii.ascii_N_embedding a), <- (Ascii.ascii_N_embedding b).
    f_equal. lia.
  - by intros [= -> ->].
Qed.

Lemma cmp_string_opp s t : cmp_string t s = - cmp_string s t.
Proof.
  revert t. induction s as [|a s IH]; intros [|b t]; try done.
  apply (orelse_opp (cmpZ _ _) (cmp_string s t)); auto using cmpZ_opp.
Qed.

Lemma cmp_string_trans s t u : cmp_string s t < 0 → cmp_string t u < 0 → cmp_string s u < 0.
Proof.
  revert t u. induction s as [|a s IH]; intros [|b t] [|c u]; try done.
  eapply (orelse_trans (cmpZ _ _) (cmpZ _ _) (cmpZ _ _)); eauto using cmpZ_trans.
  - by intros ->%cmpZ_eq.
  - by intros ->%cmpZ_eq.
Qed.

Section compare_order.
Context `{APIntOps} `{ArrayStore}.

Lemma cmpZ_diag a : cmpZ a a = 0.
Proof. by apply cmpZ_eq. Qed.
Lemma cmp_string_diag s : cmp_string s s = 0.
Proof. by apply cmp_string_eq. Qed.

Lemma compare_roots_eq a b an bn :
  compare_roots a b an bn = 0 ↔ a = b ∧ node_size an = node_size bn.
Proof.
  unfold compare_roots. rewrite !orelse_eq, !cmpZ_eq, cmp_string_eq.
  intuition congruence.
Qed.

Lemma compare_roots_opp a b an bn : compare_roots b a bn an = - compare_roots a b an bn.
Proof.
  unfold compare_roots. apply orelse_opp; [apply cmp_string_opp|]. intros _.
  apply orelse_opp; auto using cmpZ_opp.
Qed.

Lemma compare_roots_trans a b c an bn cn :
  compare_roots a b an bn < 0 → compare_roots b c bn cn < 0 → compare_roots a c an cn < 0.
Proof.
  unfold compare_roots. apply orelse_trans; [apply cmp_string_trans|..].
  - by intros ->%cmp_string_eq.
  - by intros ->%cmp_string_eq.
  - intros _ _. apply orelse_trans; [apply cmpZ_trans|..].
    + by intros ->%cmpZ_eq.
    + by intros ->%cmpZ_eq.
    + intros _ _. apply cmpZ_trans.
Qed.

Lemma node_size_nonneg un : 0 ≤ node_size un.
Proof. induction un; cbn; lia. Qed.

Lemma compare_roots_diag a an : compare_roots a a an an = 0.
Proof. by apply compare_roots_eq. Qed.

Lemma compare_refl_mut :
  (∀ a, compare a a = 0) ∧ (∀ an, compare_nodes an an = 0).
Proof.
  apply Expr_UpdateNode_ind; intros; cbn [compare compare_nodes compare_contents];
    rewrite ?cmpZ_diag, ?compare_roots_diag, ?orelse_0;
    repeat match goal with IH : _ = 0 |- _ => rewrite IH, ?orelse_0; clear IH end; done.
Qed.

Lemma compare_refl a : compare a a = 0.
Proof. apply compare_refl_mut. Qed.

Lemma getKind_binary_inj k k' : binary_kind_index k = binary_kind_index k' → k = k'.
Proof. destruct k, k'; done. Qed.

(** Two expressions of the same kind have the same constructor. *)
Lemma kind_shape a b :
  getKind a = getKind b →
  match a with
  | Constant _ => ∃ c, b = Constant c
  | NotOptimized _ => ∃ s, b = NotOptimized s
  | Read _ _ _ => ∃ r h i, b = Read r h i
  | Select _ _ _ => ∃ c t f, b = Select c t f
  | Concat _ _ => ∃ l r, b = Concat l r
  | Extract _ _ _ => ∃ e o w, b = Extract e o w
  | ZExt _ _ => ∃ s w, b = ZExt s w
  | SExt _ _ => ∃ s w, b = SExt s w
  | Not _ => ∃ e, b = Not e
  | Binary k _ _ => ∃ l r, b = Binary k l r
  end.
Proof.
  destruct a, b; cbn; try (by eauto); try discriminate; try (destruct k; discriminate).
  intros ->%getKind_binary_inj. eauto.
Qed.

Ltac same_shape :=
  match goal with
  | H : getKind ?a = getKind ?b |- _ =>
      is_var b; let S := fresh in pose proof (kind_shape a b H) as S; cbn in S; clear H;
      repeat match type of S with ex _ => destruct S as [? S] end; subst b
  end.

Lemma compare_unfold a b :
  compare a b = orelse (cmpZ (getKind a) (getKind b))
    (orelse (cmpZ (hash a) (hash b)) (compare_contents compare compare_nodes a b)).
Proof. by destruct a. Qed.

Lemma compare_eq_mut :
  (∀ a b, compare a b = 0 → a = b) ∧
  (∀ an bn, node_size an = node_size bn → compare_nodes an bn = 0 → an = bn).
Proof.
  apply Expr_UpdateNode_ind.
  12: { intros next IHn index IHi value IHv [|next' index' value'] Hsz Hc.
    { exfalso. pose proof (node_size_nonneg next). cbn in Hsz. lia. }
    cbn in Hsz, Hc. rewrite !orelse_eq in Hc. destruct Hc as (?&?&?).
    f_equal; [apply IHn; [lia|done]|by apply IHi|by apply IHv]. }
  11: { intros [|next index value] Hsz _; [done|].
    pose proof (node_size_nonneg next). cbn in Hsz. lia. }
  all: intros;
    match goal with H : compare _ ?b = 0 |- _ = ?b =>
      rewrite compare_unfold, !orelse_eq, !cmpZ_eq in H; destruct H as (?&_&H);
      same_shape; cbn [compare_contents] in H;
      rewrite ?orelse_eq, ?cmpZ_eq, ?compare_roots_eq in H; destruct_and?
    end; f_equal; subst; eauto.
  destruct c, x; cbn in *; congruence.
Qed.

Lemma compare_eq a b : compare a b = 0 ↔ a = b.
Proof. split; [apply compare_eq_mut|intros ->; apply compare_refl]. Qed.

Lemma compare_nodes_eq an bn :
  node_size an = node_size bn → compare_nodes an bn = 0 ↔ an = bn.
Proof. intros. split; [by apply compare_eq_mut|intros ->; apply compare_refl_mut]. Qed.

(** A step of the loop of [UpdateList::compare] compares two nodes. *)
Lemma compare_nodes_step na ia va nb ib vb :
  compare_nodes (Node na ia va) (Node nb ib vb) =
  orelse (UpdateNode_compare (Node na ia va) (Node nb ib vb)) (compare_nodes na nb).
Proof. cbn. unfold orelse. destruct (compare ia ib =? 0) eqn:E; by rewrite ?E. Qed.

Lemma UpdateList_compare_eq a b : UpdateList_compare a b = 0 ↔ a = b.
Proof.
  destruct a as [ra ha], b as [rb hb]. unfold UpdateList_compare; cbn.
  rewrite orelse_eq, compare_roots_eq. split.
  - intros [[-> ?] ->%compare_nodes_eq]; done.
  - intros [= -> ->]. split; [done|]. by apply compare_nodes_eq.
Qed.

Lemma compare_0 a b : compare a b = 0 → a = b.
Proof. apply compare_eq. Qed.

Lemma compare_roots_0 a b an bn :
  compare_roots a b an bn = 0 → a = b ∧ node_size an = node_size bn.
Proof. apply compare_roots_eq. Qed.

Lemma compare_opp_mut :
  (∀ a b, compare b a = - compare a b) ∧
  (∀ an bn, compare_nodes bn an = - compare_nodes an bn).
Proof.
  apply Expr_UpdateNode_ind.
  12: { intros next IHn index IHi value IHv [|next' index' value']; [done|].
    cbn. repeat (apply orelse_opp; [done|intros _]). done. }
  11: { by intros []. }
  all: intros; rewrite (compare_unfold b), (compare_unfold _ b);
    apply orelse_opp; [apply cmpZ_opp|intros Hk%cmpZ_0];
    apply orelse_opp; [apply cmpZ_opp|intros _]; same_shape; cbn [compare_contents];
    repeat (apply orelse_opp; [auto using cmpZ_opp, compare_roots_opp|intros _]);
    auto using cmpZ_opp.
Qed.

(** Discharges the two middle premises of [orelse_trans]. *)
Ltac by_equal :=
  first [by intros ->%cmpZ_0 | by intros ->%compare_0].

Lemma compare_trans_mut :
  (∀ a b c, compare a b < 0 → compare b c < 0 → compare a c < 0) ∧
  (∀ an bn cn, node_size an = node_size bn → node_size bn = node_size cn →
    compare_nodes an bn < 0 → compare_nodes bn cn < 0 → compare_nodes an cn < 0).
Proof.
  apply Expr_UpdateNode_ind.
  12: { intros next IHn index IHi value IHv [|nb ib vb] [|nc ic vc]; try (cbn; lia).
    cbn. intros Hs1 Hs2. apply orelse_trans; [apply IHi|by_equal..|]. intros _ _.
    apply orelse_trans; [apply IHv|by_equal..|]. intros _ _. apply IHn; lia. }
  11: { intros [] []; cbn; lia. }
  all: intros; match goal with
    Hab : compare ?a ?b < 0, Hbc : compare ?b ?c < 0 |- compare ?a ?c < 0 =>
      revert Hab Hbc; rewrite (compare_unfold a b), (compare_unfold b c), (compare_unfold a c)
    end;
    apply orelse_trans; [apply cmpZ_trans|by_equal..|intros Hk1%cmpZ_0 Hk2%cmpZ_0];
    apply orelse_trans; [apply cmpZ_trans|by_equal..|intros _ _];
    rewrite <- Hk1 in Hk2; same_shape; same_shape; cbn [compare_contents].
  3: { apply orelse_trans; [apply compare_roots_trans|..|].
    - intros [-> Hs]%compare_roots_0. unfold compare_roots. by rewrite Hs.
    - intros [-> Hs]%compare_roots_0. unfold compare_roots. by rewrite Hs.
    - intros [_ Hs1]%compare_roots_0 [_ Hs2]%compare_roots_0.
      apply orelse_trans; [by eauto|..|intros _ _; by eauto].
      + by intros ->%compare_nodes_eq.
      + by intros ->%compare_nodes_eq. }
  all: repeat (apply orelse_trans; [by eauto using cmpZ_trans|by_equal..|intros _ _]);
    eauto using cmpZ_trans.
Qed.

Lemma eqE_eq a b : eqE a b = true ↔ a = b.
Proof. unfold eqE. rewrite Z.eqb_eq. apply compare_eq. Qed.

Lemma eqE_refl a : eqE a a = true.
Proof. by apply eqE_eq. Qed.

(** C32: [Expr::compare] is a total order on expressions, whatever the hash
    function: it returns 0 exactly for structurally equal expressions, swapping
    the arguments negates the result, and it is transitive; so
    [ref<Expr>::operator==] decides structural equality and [operator<] is a
    valid key order for the [std::set] and [std::map] of expressions that the
    solvers keep.  [UpdateList::compare] decides equality of update lists. *)
Theorem compare_total_order a b c :
  (compare a b = 0 ↔ a = b) ∧ compare b a = - compare a b ∧
  (compare a b < 0 → compare b c < 0 → compare a c < 0) ∧
  (eqE a b = true ↔ a = b) ∧
  (∀ ul ul', UpdateList_compare ul ul' = 0 ↔ ul = ul').
Proof.
  split_and!.
  - apply compare_eq.
  - apply compare_opp_mut.
  - apply compare_trans_mut.
  - apply eqE_eq.
  - apply UpdateList_compare_eq.
Qed.

End compare_order.

(** Turn structural equality tests into equations. *)
Ltac uneq :=
  unbool; repeat match goal with H : eqE _ _ = true |- _ => apply eqE_eq in H end.

#[export] Instance Expr_eq_dec : EqDecision Expr.
Proof.
  intros a b. pose (store := (λ _, mkArray EmptyString 0 []) : ArrayStore).
  destruct (eqE a b) eqn:E.
  - left. by apply eqE_eq.
  - right. intros ->. by rewrite eqE_refl in E.
Defined.

(** ** The value of an expression *)

(** An assignment of a byte to every cell of every symbolic array. *)
Definition assignment : Type := Array → Z → Z.

(** The initial content of a cell: the constant of a constant array, the byte
    of the assignment otherwise. *)
Definition initial_byte `{ArrayStore} (ρ : assignment) (a : Array) (i : Z) : Z :=
  match constantValues (deref a) !! Z.to_nat i with
  | Some c => cvalue c
  | None => ρ a i
  end.

Fixpoint eval `{ArrayStore} (ρ : assignment) (e : Expr) {struct e} : Z :=
  match e with
  | Constant c => cvalue c
  | NotOptimized src => eval ρ src
  | Read root head index => eval_read ρ root head (eval ρ index)
  | Select c t f => if eval ρ c =? 1 then eval ρ t else eval ρ f
  | Concat l r => bv_concat (getWidth r) (eval ρ l) (eval ρ r)
  | Extract e' off w => bv_extract (eval ρ e') off w
  | ZExt src _ => eval ρ src
  | SExt src w => bv_sext (getWidth src) (eval ρ src) w
  | Not e' => bv_not (getWidth e') (eval ρ e')
  | Binary k l r => bv_eval k (getWidth l) (eval ρ l) (eval ρ r)
  end
with eval_read `{ArrayStore} (ρ : assignment) (root : Array) (un : UpdateNode) (i : Z)
    {struct un} : Z :=
  match un with
  | NullNode => initial_byte ρ root i
  | Node next index value =>
      if eval ρ index =? i then eval ρ value else eval_read ρ root next i
  end.

(** ** Well-formed expressions: the type discipline the assertions check *)

Definition wf_constant (c : ConstantExpr) : Prop :=
  0 < cwidth c ≤ 64 ∧ cvalue c `bits` cwidth c.

Definition wf_array (a : ArrayObj) : Prop :=
  0 ≤ array_size a < 2 ^ 32 ∧
  (constantValues a = [] ∨ Z.of_nat (length (constantValues a)) = array_size a) ∧
  Forall (λ c, wf_constant c ∧ cwidth c = Int8) (constantValues a).

Class WfStore `{ArrayStore} : Prop := wf_store : ∀ a, wf_array (deref a).

Fixpoint wf (e : Expr) : Prop :=
  match e with
  | Constant c => wf_constant c
  | NotOptimized src => wf src
  | Read _ head index => wf_nodes head ∧ wf index ∧ getWidth index = Int32
  | Select c t f => wf c ∧ wf t ∧ wf f ∧ getWidth c = Bool ∧ getWidth t = getWidth f
  | Concat l r => wf l ∧ wf r ∧ getWidth l + getWidth r ≤ 64
  | Extract e' off w => wf e' ∧ 0 ≤ off ∧ 0 < w ∧ off + w ≤ getWidth e'
  | ZExt src w | SExt src w => wf src ∧ getWidth src ≤ w ≤ 64
  | Not e' => wf e'
  | Binary _ l r => wf l ∧ wf r ∧ getWidth l = getWidth r
  end
with wf_nodes (un : UpdateNode) : Prop :=
  match un with
  | NullNode => True
  | Node next index value =>
      wf_nodes next ∧ wf index ∧ getWidth index = Int32 ∧ wf value ∧ getWidth value = Int8
  end.

Definition wf_assignment (ρ : assignment) : Prop := ∀ a i, ρ a i `bits` 8.

Lemma wf_width e : wf e → 0 < getWidth e ≤ 64.
Proof.
  induction e; cbn; intros; destruct_and?;
    repeat match goal with IH : wf _ → _ |- _ => specialize (IH ltac:(done)) end;
    try lia; try done.
  - match goal with H : wf_constant _ |- _ => apply H end.
  - case_step; [unfold Bool|]; lia.
Qed.

Section eval_lemmas.
Context `{WfStore}.

Lemma initial_byte_bounded ρ a i : wf_assignment ρ → initial_byte ρ a i `bits` 8.
Proof.
  intros Hρ. unfold initial_byte. destruct (_ !! _) as [c|] eqn:E; [|apply Hρ].
  destruct (wf_store a) as (_ & _ & Hc). rewrite Forall_lookup in Hc.
  destruct (Hc _ _ E) as [[_ Hb] Hw]. by rewrite Hw in Hb.
Qed.

Lemma eval_bounded_mut ρ :
  wf_assignment ρ →
  (∀ e, wf e → eval ρ e `bits` getWidth e) ∧
  (∀ un, wf_nodes un → ∀ a i, eval_read ρ a un i `bits` 8).
Proof.
  intros Hρ. apply Expr_UpdateNode_ind; cbn; intros; destruct_and?;
    repeat match goal with
    | IH : wf ?e → _, H : wf ?e |- _ => specialize (IH H); pose proof (wf_width e H)
    | IH : wf_nodes ?e → _, H : wf_nodes ?e |- _ => specialize (IH H)
    end.
  - match goal with H : wf_constant _ |- _ => apply H end.
  - done.
  - auto.
  - case_step; congruence.
  - apply bv_concat_bounded; done || lia.
  - apply bv_extract_bounded; lia.
  - eapply bounded_mono; [|done]; lia.
  - apply bv_sext_bounded; lia.
  - apply bv_not_bounded; lia.
  - apply bv_eval_bounded; [lia|done|]. congruence.
  - by apply initial_byte_bounded.
  - case_step; [|auto]. revert select (getWidth value = _). intros Hw. by rewrite Hw in *.
Qed.

Lemma eval_bounded ρ e : wf_assignment ρ → wf e → eval ρ e `bits` getWidth e.
Proof. intros. by apply eval_bounded_mut. Qed.

(** A boolean expression is 0 or 1. *)
Lemma eval_bool ρ e :
  wf_assignment ρ → wf e → getWidth e = Bool → eval ρ e = 0 ∨ eval ρ e = 1.
Proof.
  intros Hρ He Hw. pose proof (eval_bounded ρ e Hρ He) as Hb. rewrite Hw in Hb.
  unfold bounded, Bool in Hb. change (2 ^ 1) with 2 in Hb. lia.
Qed.
End eval_lemmas.

#[export] Hint Resolve eval_bounded : klee.

(** Values of boolean expressions: case analysis on each of them. *)
Ltac bool_cases ρ :=
  repeat match goal with
  | He : wf ?e, Hw : getWidth ?e = Bool, Hρ : wf_assignment ρ |- context [eval ρ ?e] =>
      destruct (eval_bool ρ e Hρ He Hw) as [->| ->]
  end; try reflexivity.

(** ** Reads within bounds

    [in_bounds ρ e]: evaluating [e] under [ρ] reads no constant array beyond its
    end.  Only the branch of a [Select] that is taken counts, and only the
    updates of a read down to the one that matches. *)
Fixpoint in_bounds `{ArrayStore} (ρ : assignment) (e : Expr) {struct e} : Prop :=
  match e with
  | Constant _ => True
  | NotOptimized e | Extract e _ _ | ZExt e _ | SExt e _ | Not e => in_bounds ρ e
  | Read root head index => in_bounds ρ index ∧ in_bounds_read ρ root head (eval ρ index)
  | Select c t f => in_bounds ρ c ∧ if eval ρ c =? 1 then in_bounds ρ t else in_bounds ρ f
  | Concat l r | Binary _ l r => in_bounds ρ l ∧ in_bounds ρ r
  end
with in_bounds_read `{ArrayStore} (ρ : assignment) (root : Array) (un : UpdateNode) (i : Z)
    {struct un} : Prop :=
  match un with
  | NullNode => constantValues (deref root) ≠ [] → i < array_size (deref root)
  | Node next index value =>
      in_bounds ρ index ∧
      if eval ρ index =? i then in_bounds ρ value else in_bounds_read ρ root next i
  end.

(** ** A concrete store

    Array 1 is a constant table of four bytes, every other array is symbolic
    with four bytes.  The witnesses evaluate the model on it. *)
Module Sample.

Definition byte (v : Z) : ConstantExpr := mkConstant Int8 v.

Definition store : ArrayStore := λ a,
  if bool_decide (a = 1%positive)
  then mkArray "table" 4 [byte 10; byte 20; byte 30; byte 20]
  else mkArray "input" 4 [].

Lemma store_wf : @WfStore store.
Proof.
  intros a. unfold deref, store. case_bool_decide; split_and!; try done.
  - by right.
  - repeat constructor; done.
  - by left.
Qed.

(** The byte at offset [i] of the symbolic array 2. *)
Definition input (i : Z) : Expr := Read 2%positive NullNode (const i Int32).

End Sample.
