(* ===== verification/ExprConstants.v ===== *)
(** * Constants: [class ConstantExpr] of [klee/Expr.h] and its operations in
      [lib/Expr/Expr.cpp]

    The folding of operators on constants, delegated to [APInt], computes the
    reference semantics of [Bitvec]; the predicates on constants only fail
    their assertions on constants that are too wide for them. *)

From stdpp Require Import prelude.
From S2P Require Import Prelude Bitvec Bits APInt ExprData.

Section constants.
Context `{APIntOps}.

(** [ConstantExpr::alloc(uint64_t, Width)]: the [APInt] constructor keeps the
    low [w] bits. *)
Definition alloc (v w : Z) : ConstantExpr := mkConstant w (v mod 2 ^ w).

(** [ConstantExpr::create] *)
Definition ConstantExpr_create (v w : Z) : outcome ConstantExpr :=
  cassert (v =? bits64.truncateToNBits v w);;
  Done (alloc v w).

(** [getZExtValue(bits)] *)
Definition getZExtValue (c : ConstantExpr) (bits : Z) : outcome Z :=
  cassert (cwidth c <=? bits);;
  Done (cvalue c).

Definition CE_isZero (c : ConstantExpr) : outcome bool :=
  v ← getZExtValue c 64; Done (v =? 0).

Definition CE_isOne (c : ConstantExpr) : outcome bool :=
  v ← getZExtValue c 64; Done (v =? 1).

Definition CE_isTrue (c : ConstantExpr) : outcome bool :=
  v ← getZExtValue c 1; Done (v =? 1).

Definition CE_isFalse (c : ConstantExpr) : outcome bool :=
  v ← getZExtValue c 1; Done (v =? 0).

Definition CE_isAllOnes (c : ConstantExpr) : outcome bool :=
  v ← getZExtValue c (cwidth c);
  Done (v =? bits64.maxValueOfNBits (cwidth c)).

Definition CE_Concat (l r : ConstantExpr) : ConstantExpr :=
  let W := cwidth l + cwidth r in
  let tmp := ap_zext (cwidth l) (cvalue l) W in
  let tmp := ap_shl W tmp (cwidth r) in
  let tmp := ap_binop Or W tmp (ap_zext (cwidth r) (cvalue r) W) in
  mkConstant W tmp.

Definition CE_Extract (c : ConstantExpr) (Offset W : Z) : ConstantExpr :=
  mkConstant W (ap_zextOrTrunc (cwidth c) (ap_ashr (cwidth c) (cvalue c) Offset) W).

Definition CE_ZExt (c : ConstantExpr) (W : Z) : ConstantExpr :=
  mkConstant W (ap_zextOrTrunc (cwidth c) (cvalue c) W).

Definition CE_SExt (c : ConstantExpr) (W : Z) : ConstantExpr :=
  mkConstant W (ap_sextOrTrunc (cwidth c) (cvalue c) W).

Definition CE_Neg (c : ConstantExpr) : ConstantExpr :=
  mkConstant (cwidth c) (ap_neg (cwidth c) (cvalue c)).

Definition CE_Not (c : ConstantExpr) : ConstantExpr :=
  mkConstant (cwidth c) (ap_not (cwidth c) (cvalue c)).

(** [Add], [Sub], ... [Sge]: one member function per binary kind; a comparison
    allocates a constant of width 1. *)
Definition CE_binop (k : BinaryKind) (l r : ConstantExpr) : ConstantExpr :=
  mkConstant (if is_cmp k then Bool else cwidth l)
    (ap_binop k (cwidth l) (cvalue l) (cvalue r)).

End constants.

(** ** Predicates *)

Section predicates.
Implicit Types c : ConstantExpr.

Lemma getZExtValue_spec c n : cwidth c ≤ n → getZExtValue c n = Done (cvalue c).
Proof. intros. unfold getZExtValue. by rewrite (proj2 (Z.leb_le _ _)). Qed.

Lemma CE_isZero_spec c : wf_constant c → CE_isZero c = Done (cvalue c =? 0).
Proof. intros [? _]. unfold CE_isZero. by rewrite getZExtValue_spec by lia. Qed.

Lemma CE_isOne_spec c : wf_constant c → CE_isOne c = Done (cvalue c =? 1).
Proof. intros [? _]. unfold CE_isOne. by rewrite getZExtValue_spec by lia. Qed.

Lemma CE_isTrue_spec c : cwidth c = Bool → CE_isTrue c = Done (cvalue c =? 1).
Proof. intros Hw. unfold CE_isTrue. by rewrite getZExtValue_spec by (rewrite Hw; done). Qed.

Lemma CE_isFalse_spec c : cwidth c = Bool → CE_isFalse c = Done (cvalue c =? 0).
Proof. intros Hw. unfold CE_isFalse. by rewrite getZExtValue_spec by (rewrite Hw; done). Qed.

Lemma CE_isAllOnes_spec c :
  wf_constant c → CE_isAllOnes c = Done (cvalue c =? 2 ^ cwidth c - 1).
Proof.
  intros [? _]. unfold CE_isAllOnes. rewrite getZExtValue_spec by lia.
  cbn. by rewrite maxValueOfNBits_64 by lia.
Qed.

Lemma alloc_small v w : v `bits` w → alloc v w = mkConstant w v.
Proof. intros. unfold alloc. by rewrite bounded_small. Qed.

Lemma wf_alloc v w : 0 < w ≤ 64 → wf_constant (alloc v w).
Proof. intros. split; [done|]. apply bounded_mod; lia. Qed.

Lemma ConstantExpr_create_spec v w :
  0 < w ≤ 64 → v `bits` w → ConstantExpr_create v w = Done (mkConstant w v).
Proof.
  intros Hw Hv. unfold ConstantExpr_create.
  rewrite truncateToNBits_64, bounded_small, Z.eqb_refl by (done || lia). cbn.
  by rewrite alloc_small.
Qed.
End predicates.

#[export] Hint Resolve wf_alloc : klee.

(** ** Operations *)

Section operations.
Context `{APIntLaws}.
Implicit Types c l r : ConstantExpr.

Lemma CE_binop_spec k l r :
  wf_constant l → wf_constant r → cwidth l = cwidth r → ap_defined k (cwidth l) (cvalue r) →
  CE_binop k l r =
    mkConstant (bv_width k (cwidth l)) (bv_eval k (cwidth l) (cvalue l) (cvalue r)).
Proof.
  intros [? ?] [? Hr] Hw Hd. unfold CE_binop. rewrite ap_binop_spec by (done || lia || congruence).
  done.
Qed.

Lemma CE_binop_wf k l r :
  wf_constant l → wf_constant r → cwidth l = cwidth r → ap_defined k (cwidth l) (cvalue r) →
  wf_constant (CE_binop k l r).
Proof.
  intros Hl Hr Hw Hd. rewrite CE_binop_spec by done. destruct Hl as [? ?], Hr as [? Hr].
  split; cbn; [unfold bv_width; case_step; lia|].
  apply bv_eval_bounded; [lia|done|]. by rewrite Hw.
Qed.

Lemma CE_Not_spec c : wf_constant c → CE_Not c = mkConstant (cwidth c) (bv_not (cwidth c) (cvalue c)).
Proof. intros [? ?]. unfold CE_Not. by rewrite ap_not_spec by (done || lia). Qed.

Lemma CE_ZExt_spec c W :
  wf_constant c → 0 < W → CE_ZExt c W = mkConstant W (cvalue c mod 2 ^ W).
Proof. intros [? ?] ?. unfold CE_ZExt. by rewrite ap_zextOrTrunc_spec by (done || lia). Qed.

Lemma CE_SExt_spec c W :
  wf_constant c → 0 < W → CE_SExt c W = mkConstant W (bv_sext (cwidth c) (cvalue c) W).
Proof. intros [? ?] ?. unfold CE_SExt. by rewrite ap_sextOrTrunc_spec by (done || lia). Qed.

(** The arithmetic shift of [ConstantExpr::Extract] brings in copies of the
    sign bit, all above the extracted bits. *)
Lemma extract_by_ashr w v off W :
  0 < w → v `bits` w → 0 ≤ off → 0 < W → off + W ≤ w →
  (Z.shiftr (sgn w v) off mod 2 ^ w) mod 2 ^ W = bv_extract v off W.
Proof.
  intros Hw Hv Ho HW Hle. unfold bv_extract. apply Z.bits_inj'. intros i Hi.
  rewrite !testbit_mod, !Z.shiftr_spec by lia.
  repeat case_bool_decide; try lia; try done. cbn.
  rewrite testbit_sgn by (done || lia). by rewrite (proj2 (Z.ltb_lt _ _)) by lia.
Qed.

Lemma CE_Extract_spec c off W :
  wf_constant c → 0 ≤ off → 0 < W → off + W ≤ cwidth c →
  CE_Extract c off W = mkConstant W (bv_extract (cvalue c) off W).
Proof.
  intros [? ?] ???. unfold CE_Extract.
  rewrite ap_ashr_spec, ap_zextOrTrunc_spec by (done || lia || auto with klee lia).
  by rewrite extract_by_ashr by (done || lia).
Qed.

Lemma CE_Concat_spec l r :
  wf_constant l → wf_constant r → cwidth l + cwidth r ≤ 64 →
  CE_Concat l r = mkConstant (cwidth l + cwidth r) (bv_concat (cwidth r) (cvalue l) (cvalue r)).
Proof.
  intros [? Hl] [? Hr] ?. unfold CE_Concat.
  assert (Z.shiftl (cvalue l) (cwidth r) `bits` (cwidth l + cwidth r)).
  { rewrite Z.shiftl_mul_pow2 by lia. unfold bounded in *. rewrite pow2_add by lia.
    pose proof (pow2_pos (cwidth r)). nia. }
  assert (cvalue l `bits` (cwidth l + cwidth r)) by (eapply bounded_mono; [|exact Hl]; lia).
  assert (cvalue r `bits` (cwidth l + cwidth r)) by (eapply bounded_mono; [|exact Hr]; lia).
  rewrite !ap_zext_spec, ap_shl_spec, bounded_small by (done || lia).
  by rewrite ap_binop_spec by (done || lia).
Qed.

Lemma wf_const v w : 0 < w ≤ 64 → v `bits` w → wf_constant (mkConstant w v).
Proof. done. Qed.
End operations.

#[export] Hint Resolve CE_binop_wf wf_const : klee.
