(* ===== verification/ExprCasts.v ===== *)
(** * Casts, extraction and concatenation: [ExtractExpr], [ZExtExpr],
      [SExtExpr], [ConcatExpr] and [NotExpr] of [lib/Expr/Expr.cpp]

    The creation functions simplify as they build, calling each other:
    [ExtractExpr::create] is the recursive one, and takes fuel; the others
    receive it as an argument.  The size of the expression is enough fuel. *)

From stdpp Require Import prelude.
From S2P Require Import Prelude Bitvec Bits APInt ExprData ExprConstants.

(** [e] is well formed, [w] bits wide, and has the value [f ρ] under every
    assignment. *)
Definition denotes `{ArrayStore} (e : Expr) (w : Z) (f : assignment → Z) : Prop :=
  wf e ∧ getWidth e = w ∧ ∀ ρ, wf_assignment ρ → eval ρ e = f ρ.

(** Number of nodes, update lists excluded. *)
Fixpoint size (e : Expr) : nat :=
  match e with
  | Constant _ => 1
  | NotOptimized e | Read _ _ e | Extract e _ _ | ZExt e _ | SExt e _ | Not e => S (size e)
  | Select c t f => S (size c + size t + size f)
  | Concat l r | Binary _ l r => S (size l + size r)
  end.

Section creation.
Context `{APIntOps} `{ArrayStore}.

(** [ZExtExpr::create] *)
Definition ZExtExpr_create_with (extract : Expr → Z → Z → outcome Expr)
    (e : Expr) (w : Z) : outcome Expr :=
  let kBits := getWidth e in
  if w =? kBits then Done e
  else if w <? kBits then extract e 0 w
  else match e with
  | Constant CE => Done (Constant (CE_ZExt CE w))
  | ZExt src ZE_width => if ZE_width <? w then Done (ZExt src w) else Done (ZExt e w)
  | _ => Done (ZExt e w)
  end.

(** [SExtExpr::create] *)
Definition SExtExpr_create_with (extract : Expr → Z → Z → outcome Expr)
    (e : Expr) (w : Z) : outcome Expr :=
  let kBits := getWidth e in
  if w =? kBits then Done e
  else if w <? kBits then extract e 0 w
  else match e with
  | Constant CE => Done (Constant (CE_SExt CE w))
  | _ => Done (SExt e w)
  end.

(** [ConcatExpr::create] *)
Definition ConcatExpr_create_with (extract : Expr → Z → Z → outcome Expr)
    (l r : Expr) : outcome Expr :=
  let w := u32 (getWidth l + getWidth r) in
  let merge_extracts :=
    match l, r with
    | Extract el ol wl, Extract er or wr =>
        if eqE el er && (u32 (or + wr) =? ol) then extract el or w
        else Done (Concat l r)
    | _, _ => Done (Concat l r)
    end in
  match l with
  | Constant lCE =>
      match r with
      | Constant rCE => Done (Constant (CE_Concat lCE rCE))
      | _ =>
          zero ← CE_isZero lCE;
          if (zero : bool) then ZExtExpr_create_with extract r w else merge_extracts
      end
  | _ => merge_extracts
  end.

(** [ExtractExpr::create].  The branches for [ZExt] and [SExt] that the source
    lists after the first ones for these kinds are never reached, and are not
    here. *)
Fixpoint ExtractExpr_create_fuel (fuel : nat) (expr : Expr) (off w : Z) : outcome Expr :=
  match fuel with
  | O => OutOfFuel
  | S fuel =>
      let extract := ExtractExpr_create_fuel fuel in
      let kw := getWidth expr in
      cassert ((0 <? w) && (u32 (off + w) <=? kw));;
      if w =? kw then Done expr
      else match expr with
      | Constant CE => Done (Constant (CE_Extract CE off w))
      | ZExt x zew =>
          let xw := getWidth x in
          if (xw =? w) && (off =? 0) then Done x
          else if (w <=? zew) && (xw <=? w) && (off =? 0) then ZExtExpr_create_with extract x w
          else Done (Extract expr off w)
      | Concat l r =>
          if getWidth r <=? off then extract l (u32 (off - getWidth r)) w
          else if u32 (off + w) <=? getWidth r then extract r off w
          else
            el ← extract l 0 (u32 (w - getWidth r + off));
            er ← extract r off (u32 (getWidth r - off));
            ConcatExpr_create_with extract el er
      | SExt x _ =>
          if (off =? 0) && (w =? Int8) && (getWidth x =? Int8) then Done x
          else Done (Extract expr off w)
      | _ => Done (Extract expr off w)
      end
  end.

Definition ExtractExpr_create (expr : Expr) (off w : Z) : outcome Expr :=
  ExtractExpr_create_fuel (size expr) expr off w.

Definition ZExtExpr_create : Expr → Z → outcome Expr := ZExtExpr_create_with ExtractExpr_create.
Definition SExtExpr_create : Expr → Z → outcome Expr := SExtExpr_create_with ExtractExpr_create.
Definition ConcatExpr_create : Expr → Expr → outcome Expr :=
  ConcatExpr_create_with ExtractExpr_create.

(** [NotExpr::create] *)
Definition NotExpr_create (e : Expr) : outcome Expr :=
  match e with
  | Constant CE => Done (Constant (CE_Not CE))
  | _ => Done (Not e)
  end.

(** The loop of [ConcatExpr::createN] over the kids before the last one, given
    last to first. *)
Fixpoint concat_loop (kids : list Expr) (r : Expr) : outcome Expr :=
  match kids with
  | [] => Done r
  | k :: kids => r' ← ConcatExpr_create k r; concat_loop kids r'
  end.

(** [ConcatExpr::createN]: the chain is unbalanced to the right. *)
Definition ConcatExpr_createN (kids : list Expr) : outcome Expr :=
  match reverse kids with
  | [] => AssertFailed
  | last :: before => concat_loop before last
  end.

(** [ConcatExpr::create4] *)
Definition ConcatExpr_create4 (kid1 kid2 kid3 kid4 : Expr) : outcome Expr :=
  c34 ← ConcatExpr_create kid3 kid4;
  c234 ← ConcatExpr_create kid2 c34;
  ConcatExpr_create kid1 c234.

(** [ConcatExpr::create8] *)
Definition ConcatExpr_create8 (kid1 kid2 kid3 kid4 kid5 kid6 kid7 kid8 : Expr) : outcome Expr :=
  c5 ← ConcatExpr_create4 kid5 kid6 kid7 kid8;
  c4 ← ConcatExpr_create kid4 c5;
  c3 ← ConcatExpr_create kid3 c4;
  c2 ← ConcatExpr_create kid2 c3;
  ConcatExpr_create kid1 c2.

End creation.

(** ** Correctness *)

Section denotes_lemmas.
Context `{WfStore}.

Lemma denotes_self e : wf e → denotes e (getWidth e) (λ ρ, eval ρ e).
Proof. done. Qed.

Lemma denotes_ext e w f g :
  denotes e w f → (∀ ρ, wf_assignment ρ → f ρ = g ρ) → denotes e w g.
Proof. intros (?&?&Hf) Hg. split_and!; [done..|]. intros. by rewrite Hf, Hg. Qed.

Lemma denotes_constant v w : 0 < w ≤ 64 → v `bits` w → denotes (const v w) w (λ _, v).
Proof. done. Qed.

Lemma denotes_bounded e w f ρ : denotes e w f → wf_assignment ρ → f ρ `bits` w.
Proof. intros (?&<-&Hf) Hρ. rewrite <- Hf by done. by apply eval_bounded. Qed.

Lemma denotes_width e w f : denotes e w f → 0 < w ≤ 64.
Proof. intros (?&<-&_). by apply wf_width. Qed.
End denotes_lemmas.

Section correctness.
Context `{APIntLaws} `{WfStore}.

(** What a caller may assume of an extraction function on expressions of size
    at most [n]; the last clause bounds the source of a resulting extraction,
    which [ConcatExpr::create] may extract from again. *)
Definition extract_kid_le (r : Expr) (n : nat) : Prop :=
  match r with Extract e' _ _ => (size e' ≤ n)%nat | _ => True end.

Definition extract_ok (extract : Expr → Z → Z → outcome Expr) (n : nat) : Prop :=
  ∀ e off w, wf e → (size e ≤ n)%nat → 0 ≤ off → 0 < w → off + w ≤ getWidth e →
    extract e off w ⇓ λ r, denotes r w (λ ρ, bv_extract (eval ρ e) off w) ∧
      extract_kid_le r (size e).

Lemma extract_ok_le extract n m : (m ≤ n)%nat → extract_ok extract n → extract_ok extract m.
Proof. intros Hm Hex e off w ? ?. apply Hex; [done|lia]. Qed.

Lemma extract_kid_le_mono r n m : (n ≤ m)%nat → extract_kid_le r n → extract_kid_le r m.
Proof. destruct r; cbn; try done. lia. Qed.

Lemma wf_u32 e x : wf e → 0 ≤ x ≤ getWidth e → u32 x = x.
Proof. intros He Hx. apply u32_small. pose proof (wf_width e He). lia. Qed.

Lemma denotes_extract_alloc e off w :
  wf e → 0 ≤ off → 0 < w → off + w ≤ getWidth e →
  denotes (Extract e off w) w (λ ρ, bv_extract (eval ρ e) off w).
Proof. intros. by split_and!; cbn. Qed.

(** Extension beyond the width of the source does not use [extract]. *)
Lemma ZExtExpr_create_widen extract n e w :
  wf e → getWidth e < w ≤ 64 →
  ZExtExpr_create_with extract e w ⇓ λ r, denotes r w (λ ρ, eval ρ e) ∧ extract_kid_le r n.
Proof.
  intros He Hw. pose proof (wf_width e He) as Hwe. unfold ZExtExpr_create_with.
  rewrite (proj2 (Z.eqb_neq _ _)), (proj2 (Z.ltb_ge _ _)) by lia.
  assert (denotes (ZExt e w) w (λ ρ, eval ρ e)) as Hz by (split_and!; [split; [done|lia]|done..]).
  destruct e as [c|?|? ? ?|? ? ?|? ?|? ? ?|x zew|? ?|?|? ? ?]; try by split.
  - split; [|done]. rewrite CE_ZExt_spec, bounded_small
      by (done || lia || (eapply bounded_mono; [|apply He]; cbn in *; lia)).
    split_and!; [|done..]. split; [cbn in *; lia|]. eapply bounded_mono; [|apply He]. cbn in *. lia.
  - case_step; (split; [|done]); [|done]. destruct He as [He' ?].
    split_and!; [split; [done|]|done..]. cbn in *. lia.
Qed.

Lemma ZExtExpr_create_with_spec extract n e w :
  extract_ok extract n → wf e → (size e ≤ n)%nat → 0 < w ≤ 64 →
  ZExtExpr_create_with extract e w ⇓ λ r, denotes r w (λ ρ, bv_extract (eval ρ e) 0 w) ∧
    extract_kid_le r (size e).
Proof.
  intros Hex He Hsz Hw. pose proof (wf_width e He) as Hwe.
  destruct (Z.lt_trichotomy w (getWidth e)) as [Hlt|[Heq|Hgt]].
  - unfold ZExtExpr_create_with.
    rewrite (proj2 (Z.eqb_neq _ _)), (proj2 (Z.ltb_lt _ _)) by lia. apply Hex; done || lia.
  - unfold ZExtExpr_create_with. subst. rewrite Z.eqb_refl.
    split; [|destruct e; cbn; lia || done].
    apply (denotes_ext e _ (λ ρ, eval ρ e)); [done|].
    intros. symmetry. by apply bv_extract_all, eval_bounded.
  - eapply yields_mono; [apply (ZExtExpr_create_widen _ (size e)); [done|lia]|].
    intros r [Hr ?]. split; [|done]. eapply denotes_ext; [done|]. intros. symmetry.
    apply (extract_0_le _ (getWidth e)); [lia|by apply eval_bounded].
Qed.

Lemma SExtExpr_create_with_spec extract n e w :
  extract_ok extract n → wf e → (size e ≤ n)%nat → 0 < w ≤ 64 →
  SExtExpr_create_with extract e w ⇓ λ r, denotes r w (λ ρ, bv_sext (getWidth e) (eval ρ e) w).
Proof.
  intros Hex He Hsz Hw. pose proof (wf_width e He) as Hwe. unfold SExtExpr_create_with.
  destruct (w =? getWidth e) eqn:E1; unbool; subst.
  { apply (denotes_ext e _ (λ ρ, eval ρ e)); [done|]. intros. symmetry.
    apply sgn_mod; [lia|by apply eval_bounded]. }
  destruct (w <? getWidth e) eqn:E2; unbool.
  - eapply yields_mono; [apply Hex; done || lia|]. intros r [Hr _].
    eapply denotes_ext; [done|]. intros ρ Hρ. cbn.
    rewrite <- (sgn_mod (getWidth e) (eval ρ e)) at 1 by (lia || by apply eval_bounded).
    unfold bv_extract, bv_sext. rewrite Z.shiftr_0_r. apply mod_mod_pow2. lia.
  - assert (denotes (SExt e w) w (λ ρ, bv_sext (getWidth e) (eval ρ e) w)).
    { split_and!; [split; [done|lia]|done|done]. }
    destruct e; try done. apply yields_done.
    rewrite CE_SExt_spec by (done || lia). split_and!; [|done|done].
    cbn. apply wf_const; [lia|]. apply bv_sext_bounded. lia.
Qed.

Lemma denotes_concat_alloc l r :
  wf l → wf r → getWidth l + getWidth r ≤ 64 →
  denotes (Concat l r) (getWidth l + getWidth r)
    (λ ρ, bv_concat (getWidth r) (eval ρ l) (eval ρ r)).
Proof. by intros. Qed.

(** [ConcatExpr::create]; the kids that are extractions have bounded sources. *)
Lemma ConcatExpr_create_with_spec extract n l r :
  extract_ok extract n → wf l → wf r → getWidth l + getWidth r ≤ 64 →
  extract_kid_le l n → extract_kid_le r n →
  ConcatExpr_create_with extract l r ⇓ λ c,
    denotes c (getWidth l + getWidth r) (λ ρ, bv_concat (getWidth r) (eval ρ l) (eval ρ r)) ∧
    extract_kid_le c n.
Proof.
  intros Hex Hl Hr Hw Hkl Hkr. unfold ConcatExpr_create_with.
  pose proof (wf_width l Hl). pose proof (wf_width r Hr).
  rewrite (u32_small (getWidth l + getWidth r)) by lia.
  set (merge := match l, r with Extract _ _ _, Extract _ _ _ => _ | _, _ => _ end).
  assert (merge ⇓ λ c,
    denotes c (getWidth l + getWidth r) (λ ρ, bv_concat (getWidth r) (eval ρ l) (eval ρ r)) ∧
    extract_kid_le c n) as Hmerge.
  { pose proof (denotes_concat_alloc l r Hl Hr Hw) as Ha. unfold merge.
    destruct l as [?|?|? ? ?|? ? ?|? ?|el ol wl|? ?|? ?|?|? ? ?]; try done.
    destruct r as [?|?|? ? ?|? ? ?|? ?|er or wr|? ?|? ?|?|? ? ?]; try done.
    destruct (_ && _) eqn:E; [|done]. uneq. subst er. destruct Hl as (?&?&?&?), Hr as (_&?&?&?).
    cbn in *. pose proof (wf_width el ltac:(done)). rewrite u32_small in * by lia. subst ol.
    eapply yields_mono; [apply Hex; done || lia|]. cbn. intros c [Hc Hk]. split.
    - eapply denotes_ext; [done|]. intros ρ Hρ. cbn. symmetry.
      apply concat_extract_merge; lia.
    - destruct c; cbn in *; try done. lia. }
  destruct l as [lCE|?|? ? ?|? ? ?|? ?|? ? ?|? ?|? ?|?|? ? ?]; try apply Hmerge.
  assert (∀ r', r' = r → (zero ← CE_isZero lCE;
      if (zero : bool) then ZExtExpr_create_with extract r' (getWidth (Constant lCE) + getWidth r')
      else merge) ⇓ λ c,
    denotes c (getWidth (Constant lCE) + getWidth r)
      (λ ρ, bv_concat (getWidth r) (eval ρ (Constant lCE)) (eval ρ r)) ∧
    extract_kid_le c n) as Hzero.
  { intros r' ->. rewrite CE_isZero_spec by done. cbn [mbind outcome_bind].
    destruct (cvalue lCE =? 0) eqn:E; [|done]. unbool.
    eapply yields_mono; [apply (ZExtExpr_create_widen _ n); [done|lia]|].
    intros c [Hc ?]. split; [|done]. eapply denotes_ext; [done|]. intros. cbn.
    by rewrite E, concat_zero. }
  destruct r as [rCE|?|? ? ?|? ? ?|? ?|? ? ?|? ?|? ?|?|? ? ?]; try by apply Hzero.
  split; [|done]. rewrite CE_Concat_spec by done. split_and!; [|done..].
  cbn in *. apply wf_const; [lia|]. apply bv_concat_bounded; try lia; [apply Hl|apply Hr].
Qed.

(** The case of a concatenation: the part is on one side, or is itself a concatenation. *)
Lemma extract_of_concat extract fuel l r off w :
  extract_ok extract fuel → wf (Concat l r) → (size (Concat l r) ≤ S fuel)%nat → 0 ≤ off → 0 < w → off + w ≤ getWidth l + getWidth r →
  (if getWidth r <=? off then extract l (u32 (off - getWidth r)) w
   else if off + w <=? getWidth r then extract r off w
   else
     el ← extract l 0 (u32 (w - getWidth r + off));
     er ← extract r off (u32 (getWidth r - off));
     ConcatExpr_create_with extract el er) ⇓ λ c,
    denotes c w (λ ρ, bv_extract (eval ρ (Concat l r)) off w) ∧ extract_kid_le c (size (Concat l r)).
Proof.
  intros IH (Hl & Hr & Hlr) Hsz Hoff Hw Hle. cbn in Hsz.
  pose proof (wf_width l Hl). pose proof (wf_width r Hr).
  destruct (getWidth r <=? off) eqn:E2; unbool.
  { rewrite u32_small by lia. eapply yields_mono; [apply IH; done || lia|].
    cbn. intros c [Hc Hk]. split; [|destruct c; cbn in *; try done; lia].
    eapply denotes_ext; [done|]. intros ρ Hρ. cbn. symmetry.
    apply extract_concat_left; try lia. by apply eval_bounded. }
  destruct (off + w <=? getWidth r) eqn:E3; unbool.
  { eapply yields_mono; [apply IH; done || lia|].
    cbn. intros c [Hc Hk]. split; [|destruct c; cbn in *; try done; lia].
    eapply denotes_ext; [done|]. intros ρ Hρ. cbn. symmetry.
    apply extract_concat_right; try lia. by apply eval_bounded. }
  rewrite !u32_small by (cbn in *; lia).
  ystep. eapply yields_mono; [apply IH; cbn in *; done || lia|]. cbn beta.
  intros el [(Hel & Hwl & Hvl) Hkl].
  ystep. eapply yields_mono; [apply IH; cbn in *; done || lia|]. cbn beta.
  intros er [(Her & Hwr & Hvr) Hkr].
  eapply yields_mono.
  + apply (ConcatExpr_create_with_spec _ (size l + size r)); try done.
    * apply (extract_ok_le _ fuel); [lia|done].
    * cbn in *. lia.
    * by apply (extract_kid_le_mono _ (size l)); [lia|].
    * by apply (extract_kid_le_mono _ (size r)); [lia|].
  + cbn beta. intros c [Hc Hk]. split; [|by apply (extract_kid_le_mono _ (size l + size r)); [cbn; lia|]].
    rewrite Hwl, Hwr in Hc. replace (w - getWidth r + off + (getWidth r - off)) with w in Hc by lia.
    eapply denotes_ext; [done|]. intros ρ Hρ. cbn. rewrite Hvl, Hvr by done. symmetry.
    apply extract_concat_seam; try lia; by apply eval_bounded.
Qed.

Lemma ExtractExpr_create_fuel_spec fuel : extract_ok (ExtractExpr_create_fuel fuel) fuel.
Proof.
  induction fuel as [|fuel IH]; intros e off w He Hsz Hoff Hw Hle.
  { destruct e; cbn in Hsz; lia. }
  pose proof (wf_width e He) as Hwe. cbn [ExtractExpr_create_fuel].
  rewrite (wf_u32 e (off + w)) by (done || lia).
  ystep; [rewrite andb_true_iff, Z.ltb_lt, Z.leb_le; lia|].
  destruct (w =? getWidth e) eqn:E1; unbool.
  { subst. assert (off = 0) as -> by lia. split; [|destruct e; cbn; lia || done].
    apply (denotes_ext e _ (λ ρ, eval ρ e)); [done|]. intros. symmetry.
    by apply bv_extract_all, eval_bounded. }
  assert (denotes (Extract e off w) w (λ ρ, bv_extract (eval ρ e) off w) ∧
    extract_kid_le (Extract e off w) (size e)) as Halloc.
  { split; [by apply denotes_extract_alloc|cbn; lia]. }
  destruct e as [c|?|? ? ?|? ? ?|l r|? ? ?|x zew|x sew|?|? ? ?]; try done.
  - split; [|done]. rewrite CE_Extract_spec by done. split_and!; [|done..].
    cbn in *. apply wf_const; [lia|]. apply bv_extract_bounded; lia.
  - cbn in Hsz, Hle. apply (extract_of_concat _ fuel); done || lia.
  - destruct He as [Hx Hzw]. cbn in Hle, Hsz. pose proof (wf_width x Hx).
    destruct (_ && (off =? 0)) eqn:E2; unbool.
    { subst. split; [|destruct x; cbn; lia || done].
      apply (denotes_ext x _ (λ ρ, eval ρ x)); [done|]. intros. cbn. symmetry.
      by apply bv_extract_all, eval_bounded. }
    clear E2. destruct (_ && (off =? 0)) eqn:E2; unbool; [|done]. subst.
    eapply yields_mono; [apply (ZExtExpr_create_with_spec _ fuel); cbn in *; done || lia|].
    intros c [Hc Hk]. split; [done|]. by apply (extract_kid_le_mono _ (size x)); [cbn; lia|].
  - destruct He as [Hx Hzw]. cbn in Hle, Hsz.
    destruct (_ && _) eqn:E2; [|done]. unbool.
    assert (off = 0 ∧ w = getWidth x) as [-> ->] by (split; congruence).
    split; [|destruct x; cbn; lia || done].
    apply (denotes_ext x _ (λ ρ, eval ρ x)); [done|]. intros. cbn. symmetry.
    rewrite extract_sext by (try apply eval_bounded; done || lia).
    by apply bv_extract_all, eval_bounded.
Qed.

(** The total functions. *)

Lemma ExtractExpr_create_spec e off w :
  wf e → 0 ≤ off → 0 < w → off + w ≤ getWidth e →
  ExtractExpr_create e off w ⇓ λ r, denotes r w (λ ρ, bv_extract (eval ρ e) off w).
Proof.
  intros. eapply yields_mono; [by apply ExtractExpr_create_fuel_spec|]. by intros ? [].
Qed.

Lemma ExtractExpr_create_ok n : extract_ok ExtractExpr_create n.
Proof. intros e off w ? _ ???. by apply ExtractExpr_create_fuel_spec. Qed.

Lemma ZExtExpr_create_spec e w :
  wf e → 0 < w ≤ 64 →
  ZExtExpr_create e w ⇓ λ r, denotes r w (λ ρ, bv_extract (eval ρ e) 0 w).
Proof.
  intros. eapply yields_mono;
    [apply (ZExtExpr_create_with_spec _ (size e)); [apply ExtractExpr_create_ok|done..]|].
  by intros ? [].
Qed.

Lemma SExtExpr_create_spec e w :
  wf e → 0 < w ≤ 64 →
  SExtExpr_create e w ⇓ λ r, denotes r w (λ ρ, bv_sext (getWidth e) (eval ρ e) w).
Proof. intros. by apply (SExtExpr_create_with_spec _ (size e)); [apply ExtractExpr_create_ok|..]. Qed.

Lemma extract_kid_le_size e n : (size e ≤ n)%nat → extract_kid_le e n.
Proof. destruct e; cbn; try done. lia. Qed.

Lemma ConcatExpr_create_spec l r :
  wf l → wf r → getWidth l + getWidth r ≤ 64 →
  ConcatExpr_create l r ⇓ λ c,
    denotes c (getWidth l + getWidth r) (λ ρ, bv_concat (getWidth r) (eval ρ l) (eval ρ r)).
Proof.
  intros. eapply yields_mono.
  - apply (ConcatExpr_create_with_spec _ (size l + size r)); try done.
    + apply ExtractExpr_create_ok.
    + apply extract_kid_le_size. lia.
    + apply extract_kid_le_size. lia.
  - by intros ? [].
Qed.

Lemma NotExpr_create_spec e :
  wf e → NotExpr_create e ⇓ λ r, denotes r (getWidth e) (λ ρ, bv_not (getWidth e) (eval ρ e)).
Proof.
  intros He. pose proof (wf_width e He).
  assert (denotes (Not e) (getWidth e) (λ ρ, bv_not (getWidth e) (eval ρ e))) by done.
  destruct e; try done. cbn. rewrite CE_Not_spec by done. split_and!; [|done..].
  cbn in *. apply wf_const; [done|]. apply bv_not_bounded. lia.
Qed.

(** ** Chains of concatenations *)

Fixpoint total_width (kids : list Expr) : Z :=
  match kids with [] => 0 | k :: kids => getWidth k + total_width kids end.

(** The first expression holds the most significant bits. *)
Fixpoint concat_value (ρ : assignment) (kids : list Expr) : Z :=
  match kids with
  | [] => 0
  | k :: kids => bv_concat (total_width kids) (eval ρ k) (concat_value ρ kids)
  end.

Lemma total_width_app ks ks' : total_width (ks ++ ks') = total_width ks + total_width ks'.
Proof. induction ks; cbn in *; lia. Qed.

Lemma total_width_nonneg kids : Forall wf kids → 0 ≤ total_width kids.
Proof. induction 1 as [|k ks Hk]; cbn; [done|]. pose proof (wf_width k Hk). lia. Qed.

Lemma concat_loop_spec todo tail r :
  Forall wf todo → denotes r (total_width tail) (λ ρ, concat_value ρ tail) →
  total_width (reverse todo) + total_width tail ≤ 64 →
  concat_loop todo r ⇓ λ c, denotes c (total_width (reverse todo ++ tail))
    (λ ρ, concat_value ρ (reverse todo ++ tail)).
Proof.
  intros Htodo. revert tail r. induction Htodo as [|k todo Hk Htodo IH]; intros tail r Hr Hw;
    cbn [concat_loop]; [done|].
  rewrite reverse_cons, total_width_app in Hw. cbn in Hw.
  pose proof (total_width_nonneg (reverse todo) ltac:(by apply Forall_reverse)).
  pose proof (wf_width k Hk). destruct (Hr) as (Hwf & Hwr & Hv).
  ystep. eapply yields_mono; [apply ConcatExpr_create_spec; [done..|lia]|].
  intros c Hc. rewrite reverse_cons, <- app_assoc. cbn [app]. apply (IH (k :: tail)).
  - cbn beta in Hc. rewrite Hwr in Hc. eapply denotes_ext; [exact Hc|]. intros ρ Hρ. cbn.
    by rewrite Hv.
  - cbn. lia.
Qed.

Lemma concat_value_last ρ k : eval ρ k = concat_value ρ [k].
Proof. cbn. unfold bv_concat. by rewrite Z.shiftl_0_r, Z.lor_0_r. Qed.

Lemma ConcatExpr_createN_spec kids :
  kids ≠ [] → Forall wf kids → total_width kids ≤ 64 →
  ConcatExpr_createN kids ⇓ λ c, denotes c (total_width kids) (λ ρ, concat_value ρ kids).
Proof.
  intros Hne Hwf Hw. unfold ConcatExpr_createN.
  destruct kids as [|last front _] using rev_ind; [done|].
  rewrite reverse_app. cbn. apply Forall_app in Hwf as [Hf Hl]. apply Forall_inv in Hl.
  pose proof (concat_loop_spec (reverse front) [last] last) as Hloop.
  rewrite reverse_involutive in Hloop. apply Hloop.
  - by apply Forall_reverse.
  - split_and!; [done|cbn; lia|]. intros. by apply concat_value_last.
  - by rewrite total_width_app in Hw.
Qed.

Lemma create4_createN k1 k2 k3 k4 :
  ConcatExpr_create4 k1 k2 k3 k4 = ConcatExpr_createN [k1; k2; k3; k4].
Proof.
  unfold ConcatExpr_create4, ConcatExpr_createN. cbn.
  do 2 (destruct (ConcatExpr_create _ _); cbn; [|done..]). by destruct (ConcatExpr_create _ _).
Qed.

Lemma create8_createN k1 k2 k3 k4 k5 k6 k7 k8 :
  ConcatExpr_create8 k1 k2 k3 k4 k5 k6 k7 k8 =
  ConcatExpr_createN [k1; k2; k3; k4; k5; k6; k7; k8].
Proof.
  unfold ConcatExpr_create8, ConcatExpr_create4, ConcatExpr_createN. cbn.
  do 6 (destruct (ConcatExpr_create _ _); cbn; [|done..]). by destruct (ConcatExpr_create _ _).
Qed.

(** ** Properties *)

(** C21: [ExtractExpr::create], [ZExtExpr::create], [SExtExpr::create] and
    [NotExpr::create] terminate without failing an assertion on every well
    formed expression, whatever simplifications apply; the expression they
    return is well formed, has the requested width, and has, under every
    assignment, the value of the operator they stand for. *)
Theorem casts_correct e :
  wf e →
  (∀ off w, 0 ≤ off → 0 < w → off + w ≤ getWidth e →
    ExtractExpr_create e off w ⇓ λ r, denotes r w (λ ρ, bv_extract (eval ρ e) off w)) ∧
  (∀ w, 0 < w ≤ 64 →
    (ZExtExpr_create e w ⇓ λ r, denotes r w (λ ρ, eval ρ e mod 2 ^ w)) ∧
    (SExtExpr_create e w ⇓ λ r, denotes r w (λ ρ, sgn (getWidth e) (eval ρ e) mod 2 ^ w))) ∧
  (NotExpr_create e ⇓ λ r, denotes r (getWidth e) (λ ρ, bv_not (getWidth e) (eval ρ e))).
Proof.
  intros He. split_and!.
  - intros. by apply ExtractExpr_create_spec.
  - intros w Hw. split; [|by apply SExtExpr_create_spec].
    eapply yields_mono; [by apply ZExtExpr_create_spec|]. intros r Hr.
    eapply denotes_ext; [exact Hr|]. intros. cbn. unfold bv_extract. by rewrite Z.shiftr_0_r.
  - by apply NotExpr_create_spec.
Qed.

(** [ConcatExpr::createN], and [create4] and [create8] with it, build an
    expression whose value is the concatenation of the values of its
    arguments, the first argument in the most significant bits. *)
Theorem concatenation_correct kids :
  kids ≠ [] → Forall wf kids → total_width kids ≤ 64 →
  (ConcatExpr_createN kids ⇓ λ c, denotes c (total_width kids) (λ ρ, concat_value ρ kids)) ∧
  (∀ k1 k2 k3 k4, kids = [k1; k2; k3; k4] →
    ConcatExpr_create4 k1 k2 k3 k4 = ConcatExpr_createN kids) ∧
  (∀ k1 k2 k3 k4 k5 k6 k7 k8, kids = [k1; k2; k3; k4; k5; k6; k7; k8] →
    ConcatExpr_create8 k1 k2 k3 k4 k5 k6 k7 k8 = ConcatExpr_createN kids).
Proof.
  intros. split_and!.
  - by apply ConcatExpr_createN_spec.
  - intros ???? ->. apply create4_createN.
  - intros ???????? ->. apply create8_createN.
Qed.

End correctness.

Section witnesses.
#[local] Existing Instance Sample.store.
#[local] Existing Instance Sample.store_wf.
Import Sample.

(** Extracting across the seam of a concatenation whose left kid is zero. *)
Lemma casts_correct_witness :
  let e := Concat (const 0 8) (Concat (input 1) (input 0)) in
  ExtractExpr_create e 4 16 = Done (ZExt (Concat (input 1) (Extract (input 0) 4 4)) 16) ∧
  (ExtractExpr_create e 4 16 ⇓ λ r, denotes r 16 (λ ρ, bv_extract (eval ρ e) 4 16)).
Proof.
  split; [vm_compute; reflexivity|].
  refine (proj1 (casts_correct _ _) 4 16 _ _ _); first [done | repeat split; done].
Defined.

(** Four consecutive byte extractions merge into one. *)
Lemma concatenation_correct_witness :
  let e := Concat (Concat (input 3) (input 2)) (Concat (input 1) (input 0)) in
  let kids := [Extract e 21 3; Extract e 13 8; Extract e 5 8; Extract e 2 3] in
  ConcatExpr_createN kids ⇓ λ c, denotes c (total_width kids) (λ ρ, concat_value ρ kids).
Proof.
  refine (proj1 (concatenation_correct _ _ _ _)); [done| |done].
  repeat constructor; done.
Defined.
End witnesses.
