(* ===== verification/ExprBinary.v ===== *)
(** * Binary operators: the creation functions of [lib/Expr/Expr.cpp] that
      normalise while they build

    [Add], [Sub], [Mul], [And], [Or], [Xor] and [Eq] call each other, often on
    expressions that are not subterms of their arguments; here each function of
    the source takes the mutually recursive entry points as the argument
    [create], and [core_create_fuel] ties the knot.  The other kinds are built
    on these.  [ExprBinaryProofs] shows that they terminate, what they
    compute, and that the fuel of [core_create] is always enough. *)

From stdpp Require Import prelude.
From S2P Require Import Prelude Bitvec Bits APInt ExprData ExprConstants.

(** [l == r] on raw pointers: equal pointers point to equal expressions, the
    converse need not hold. *)
Class ObjectIdentity : Type := {
  same_object : Expr → Expr → bool;
  same_object_eq a b : same_object a b = true → a = b;
}.

(** The command-line option [-const-array-opt]. *)
Class Options : Type := { ConstArrayOpt : bool }.

Section creation.
Context `{APIntOps} `{ArrayStore} `{ObjectIdentity} `{Options}.

(** [ConstantExpr::create], as an expression *)
Definition create_constant (v w : Z) : outcome Expr :=
  c ← ConstantExpr_create v w; Done (Constant c).

(** [Expr::isZero] *)
Definition isZero (e : Expr) : outcome bool :=
  match e with Constant CE => CE_isZero CE | _ => Done false end.

(** [Expr::isTrue] *)
Definition isTrue (e : Expr) : outcome bool :=
  cassert (getWidth e =? Bool);;
  match e with Constant CE => CE_isTrue CE | _ => Done false end.

(** [Expr::isFalse] *)
Definition isFalse (e : Expr) : outcome bool :=
  cassert (getWidth e =? Bool);;
  match e with Constant CE => CE_isFalse CE | _ => Done false end.

(** [Expr::isIsZeroOf] *)
Definition isIsZeroOf (this e : Expr) : outcome bool :=
  match this with
  | Binary Eq ee_left ee_right =>
      z ← isZero ee_left;
      Done (z && eqE ee_right e)
  | _ => Done false
  end.

(** [Expr::isNegationOf] *)
Definition isNegationOf (this e : Expr) : outcome bool :=
  b ← isIsZeroOf this e;
  if (b : bool) then Done true else isIsZeroOf e this.

(** [BCREATE_R] and [CMPCREATE_T] *)
Definition BCREATE_R (k : BinaryKind)
    (createPartialR : ConstantExpr → Expr → outcome Expr)
    (createPartial : Expr → ConstantExpr → outcome Expr)
    (create : Expr → Expr → outcome Expr) (l r : Expr) : outcome Expr :=
  cassert (getWidth l =? getWidth r);;
  match l, r with
  | Constant cl, Constant cr => Done (Constant (CE_binop k cl cr))
  | Constant cl, _ => createPartialR cl r
  | _, Constant cr => createPartial l cr
  | _, _ => create l r
  end.

(** [BCREATE] and [CMPCREATE] *)
Definition BCREATE (k : BinaryKind) (create : Expr → Expr → outcome Expr)
    (l r : Expr) : outcome Expr :=
  cassert (getWidth l =? getWidth r);;
  match l, r with
  | Constant cl, Constant cr => Done (Constant (CE_binop k cl cr))
  | _, _ => create l r
  end.

(** ** The mutually recursive kinds *)

Section mutual.
(** [AddExpr::create], [SubExpr::create], ... by kind *)
Variable create : BinaryKind → Expr → Expr → outcome Expr.

(** [Expr::createIsZero] *)
Definition createIsZero_with (e : Expr) : outcome Expr :=
  zero ← create_constant 0 (getWidth e);
  create Eq e zero.

Definition EqExpr_create (l r : Expr) : outcome Expr :=
  if eqE l r then Done (Constant (alloc 1 Bool)) else Done (Binary Eq l r).

(** The loop of [TryConstArrayOpt], from position [i] on. *)
Fixpoint const_array_loop (cl : ConstantExpr) (rd index : Expr)
    (values : list ConstantExpr) (i numMatches : Z) (res : Expr) : outcome Expr :=
  match values with
  | [] => Done res
  | v :: values =>
      if eqE (Constant cl) (Constant v) then
        if 100 <? numMatches + 1 then EqExpr_create (Constant cl) rd
        else
          mayBe ← create Eq index (Constant (alloc i (getWidth index)));
          res ← create Or res mayBe;
          const_array_loop cl rd index values (i + 1) (numMatches + 1) res
      else const_array_loop cl rd index values (i + 1) numMatches res
  end.

Definition TryConstArrayOpt (cl : ConstantExpr) (root : Array) (head : UpdateNode)
    (index : Expr) : outcome Expr :=
  let rd := Read root head index in
  let values := constantValues (deref root) in
  if bool_decide (values = []) || negb (node_size head =? 0) then EqExpr_create (Constant cl) rd
  else const_array_loop cl rd index values 0 0 (Constant (alloc 0 Bool)).

Fixpoint EqExpr_createPartialR (cl : ConstantExpr) (r : Expr) {struct r} : outcome Expr :=
  let width := cwidth cl in
  if width =? Bool then
    true_ ← CE_isTrue cl;
    if (true_ : bool) then Done r
    else match r with
    | Binary Eq (Constant CE) ree_right =>
        (* 0 == (0 == A) => A *)
        if cwidth CE =? Bool then
          false_ ← CE_isFalse CE;
          if (false_ : bool) then Done ree_right else EqExpr_create (Constant cl) r
        else EqExpr_create (Constant cl) r
    | Binary Or roe_left roe_right =>
        (* transform not(or(a,b)) to and(not a, not b) *)
        nl ← createIsZero_with roe_left;
        nr ← createIsZero_with roe_right;
        create And nl nr
    | _ => EqExpr_create (Constant cl) r
    end
  else match r with
  | SExt src _ =>
      (* (sext(a,T)==c) == (a==c) *)
      let trunc := CE_ZExt cl (getWidth src) in
      if eqE (Constant cl) (Constant (CE_SExt trunc width))
      then create Eq src (Constant trunc)
      else create_constant 0 Bool
  | ZExt src _ =>
      (* (zext(a,T)==c) == (a==c) *)
      let trunc := CE_ZExt cl (getWidth src) in
      if eqE (Constant cl) (Constant (CE_ZExt trunc width))
      then create Eq src (Constant trunc)
      else create_constant 0 Bool
  | Binary Add (Constant c1) b =>
      (* c0 = c1 + b => c0 - c1 = b *)
      d ← create Sub (Constant cl) (Constant c1);
      match d with Constant cd => EqExpr_createPartialR cd b | _ => AssertFailed end
  | Binary Sub (Constant c1) b =>
      (* c0 = c1 - b => c1 - c0 = b *)
      d ← create Sub (Constant c1) (Constant cl);
      match d with Constant cd => EqExpr_createPartialR cd b | _ => AssertFailed end
  | Read root head index =>
      if ConstArrayOpt then TryConstArrayOpt cl root head index
      else EqExpr_create (Constant cl) r
  | _ => EqExpr_create (Constant cl) r
  end.

Definition EqExpr_createPartial (l : Expr) (cr : ConstantExpr) : outcome Expr :=
  EqExpr_createPartialR cr l.

Definition XorExpr_createPartialR (cl : ConstantExpr) (r : Expr) : outcome Expr :=
  z ← CE_isZero cl;
  if (z : bool) then Done r
  else if cwidth cl =? Bool then
    zero ← ConstantExpr_create 0 Bool;
    EqExpr_createPartial r zero
  else Done (Binary Xor (Constant cl) r).

Definition XorExpr_createPartial (l : Expr) (cr : ConstantExpr) : outcome Expr :=
  XorExpr_createPartialR cr l.

Definition XorExpr_create (l r : Expr) : outcome Expr :=
  if same_object l r then Done (Constant (alloc 0 (getWidth l)))
  else
    n ← isNegationOf l r;
    if (n : bool) then Done (Constant (alloc 1 Bool)) else Done (Binary Xor l r).

Definition AddExpr_createPartialR (cl : ConstantExpr) (r : Expr) : outcome Expr :=
  if cwidth cl =? Bool then XorExpr_createPartialR cl r
  else
    z ← CE_isZero cl;
    if (z : bool) then Done r
    else match r with
    | Binary Add (Constant B) c => (* A + (B+c) == (A+B) + c *)
        AB ← create Add (Constant cl) (Constant B); create Add AB c
    | Binary Sub (Constant B) c => (* A + (B-c) == (A+B) - c *)
        AB ← create Add (Constant cl) (Constant B); create Sub AB c
    | _ => Done (Binary Add (Constant cl) r)
    end.

Definition AddExpr_createPartial (l : Expr) (cr : ConstantExpr) : outcome Expr :=
  AddExpr_createPartialR cr l.

Definition AddExpr_create (l r : Expr) : outcome Expr :=
  if getWidth l =? Bool then XorExpr_create l r
  else match l with
  | Binary Add (Constant k) a => (* (k+a)+b = k+(a+b) *)
      ab ← create Add a r; create Add (Constant k) ab
  | Binary Sub (Constant k) a => (* (k-a)+b = k+(b-a) *)
      ba ← create Sub r a; create Add (Constant k) ba
  | _ => match r with
    | Binary Add (Constant k) b => (* a + (k+b) = k+(a+b) *)
        ab ← create Add l b; create Add (Constant k) ab
    | Binary Sub (Constant k) b => (* a + (k-b) = k+(a-b) *)
        ab ← create Sub l b; create Add (Constant k) ab
    | _ => Done (Binary Add l r)
    end
  end.

Definition SubExpr_createPartialR (cl : ConstantExpr) (r : Expr) : outcome Expr :=
  if cwidth cl =? Bool then XorExpr_createPartialR cl r
  else match r with
  | Binary Add (Constant B) c => (* A - (B+c) == (A-B) - c *)
      AB ← create Sub (Constant cl) (Constant B); create Sub AB c
  | Binary Sub (Constant B) c => (* A - (B-c) == (A-B) + c *)
      AB ← create Sub (Constant cl) (Constant B); create Add AB c
  | _ => Done (Binary Sub (Constant cl) r)
  end.

(** l - c => l + (-c) *)
Definition SubExpr_createPartial (l : Expr) (cr : ConstantExpr) : outcome Expr :=
  AddExpr_createPartial l (CE_binop Sub (alloc 0 (cwidth cr)) cr).

Definition SubExpr_create (l r : Expr) : outcome Expr :=
  if getWidth l =? Bool then XorExpr_create l r
  else if eqE l r then Done (Constant (alloc 0 (getWidth l)))
  else match l with
  | Binary Add (Constant k) a => (* (k+a)-b = k+(a-b) *)
      ab ← create Sub a r; create Add (Constant k) ab
  | Binary Sub (Constant k) a => (* (k-a)-b = k-(a+b) *)
      ab ← create Add a r; create Sub (Constant k) ab
  | _ => match r with
    | Binary Add (Constant k) b => (* a - (k+b) = (a-b) - k *)
        ab ← create Sub l b; create Sub ab (Constant k)
    | Binary Sub (Constant k) b => (* a - (k-b) = (a+b) - k *)
        ab ← create Add l b; create Sub ab (Constant k)
    | _ => Done (Binary Sub l r)
    end
  end.

Definition AndExpr_createPartial (l : Expr) (cr : ConstantExpr) : outcome Expr :=
  ones ← CE_isAllOnes cr;
  if (ones : bool) then Done l
  else
    z ← CE_isZero cr;
    if (z : bool) then Done (Constant cr) else Done (Binary And l (Constant cr)).

Definition AndExpr_createPartialR (cl : ConstantExpr) (r : Expr) : outcome Expr :=
  AndExpr_createPartial r cl.

(** The two branches of [AndExpr_create] and of [OrExpr_create] that drop an
    operand of [l], an [Or] (or [And]) node, that is the negation of [r]. *)
Definition absorb_left (k dual : BinaryKind) (l r : Expr) (otherwise : outcome Expr) :
    outcome Expr :=
  match l with
  | Binary k' ae_left ae_right =>
      if bool_decide (k' = dual) then
        n ← isNegationOf ae_left r;
        if (n : bool) then create k ae_right r
        else
          n ← isNegationOf ae_right r;
          if (n : bool) then create k ae_left r else otherwise
      else otherwise
  | _ => otherwise
  end.

(** The same for [r], with [l] as the other operand. *)
Definition absorb_right (k dual : BinaryKind) (l r : Expr) (otherwise : outcome Expr) :
    outcome Expr :=
  match r with
  | Binary k' ae_left ae_right =>
      if bool_decide (k' = dual) then
        n ← isNegationOf ae_left l;
        if (n : bool) then create k l ae_right
        else
          n ← isNegationOf ae_right l;
          if (n : bool) then create k l ae_left else otherwise
      else otherwise
  | _ => otherwise
  end.

Definition AndExpr_create (l r : Expr) : outcome Expr :=
  n ← isNegationOf l r;
  if (n : bool) then create_constant 0 Bool
  else
    (* (!r || b) && r == b && r *)
    absorb_left And Or l r
    (* l && (!l || b) == l && b *)
    (absorb_right And Or l r
    (Done (Binary And l r))).

Definition OrExpr_createPartial (l : Expr) (cr : ConstantExpr) : outcome Expr :=
  ones ← CE_isAllOnes cr;
  if (ones : bool) then Done (Constant cr)
  else
    z ← CE_isZero cr;
    if (z : bool) then Done l else Done (Binary Or l (Constant cr)).

Definition OrExpr_createPartialR (cl : ConstantExpr) (r : Expr) : outcome Expr :=
  OrExpr_createPartial r cl.

(** [!a || !b == !(a && b)] *)
Definition or_of_negations (l r : Expr) (otherwise : outcome Expr) : outcome Expr :=
  match l, r with
  | Binary Eq le_left le_right, Binary Eq re_left re_right =>
      zl ← isZero le_left;
      zr ← (if (zl : bool) then isZero re_left else Done false);
      if (zr : bool) && (getWidth le_right =? Bool) && (getWidth re_right =? Bool) then
        conj ← create And le_right re_right;
        createIsZero_with conj
      else otherwise
  | _, _ => otherwise
  end.

(** [a->isNegationOf(b) && c->isNegationOf(d)] *)
Definition both_negations (a b c d : Expr) : outcome bool :=
  n ← isNegationOf a b;
  if (n : bool) then isNegationOf c d else Done false.

(** [(a || b) || (!a && !b) == True], for [oe] an [Or] and [ae] an [And] *)
Definition or_excluded_middle (oe ae : Expr) (otherwise : outcome Expr) : outcome Expr :=
  match oe, ae with
  | Binary Or oe_left oe_right, Binary And ae_left ae_right =>
      n ← both_negations ae_left oe_left ae_right oe_right;
      if (n : bool) then create_constant 1 Bool
      else
        n ← both_negations ae_left oe_right ae_right oe_left;
        if (n : bool) then create_constant 1 Bool else otherwise
  | _, _ => otherwise
  end.

Definition OrExpr_create (l r : Expr) : outcome Expr :=
  n ← isNegationOf l r;
  if (n : bool) then create_constant 1 Bool
  else
    (* (!r && b) || r == b || r *)
    absorb_left Or And l r
    (* l || (!l && b) == l || b *)
    (absorb_right Or And l r
    (or_of_negations l r
    (or_excluded_middle l r
    (or_excluded_middle r l
    (Done (Binary Or l r)))))).

Definition MulExpr_createPartialR (cl : ConstantExpr) (r : Expr) : outcome Expr :=
  if cwidth cl =? Bool then AndExpr_createPartialR cl r
  else
    one ← CE_isOne cl;
    if (one : bool) then Done r
    else
      z ← CE_isZero cl;
      if (z : bool) then Done (Constant cl) else Done (Binary Mul (Constant cl) r).

Definition MulExpr_createPartial (l : Expr) (cr : ConstantExpr) : outcome Expr :=
  MulExpr_createPartialR cr l.

Definition MulExpr_create (l r : Expr) : outcome Expr :=
  if getWidth l =? Bool then Done (Binary And l r) else Done (Binary Mul l r).

(** The instances of [BCREATE_R] and [CMPCREATE_T]. *)
Definition core_step (k : BinaryKind) : Expr → Expr → outcome Expr :=
  match k with
  | Add => BCREATE_R Add AddExpr_createPartialR AddExpr_createPartial AddExpr_create
  | Sub => BCREATE_R Sub SubExpr_createPartialR SubExpr_createPartial SubExpr_create
  | Mul => BCREATE_R Mul MulExpr_createPartialR MulExpr_createPartial MulExpr_create
  | And => BCREATE_R And AndExpr_createPartialR AndExpr_createPartial AndExpr_create
  | Or => BCREATE_R Or OrExpr_createPartialR OrExpr_createPartial OrExpr_create
  | Xor => BCREATE_R Xor XorExpr_createPartialR XorExpr_createPartial XorExpr_create
  | Eq => BCREATE_R Eq EqExpr_createPartialR EqExpr_createPartial EqExpr_create
  | _ => λ _ _, AssertFailed
  end.

End mutual.

Fixpoint core_create_fuel (fuel : nat) (k : BinaryKind) (l r : Expr) : outcome Expr :=
  match fuel with
  | O => OutOfFuel
  | S fuel => core_step (core_create_fuel fuel) k l r
  end.

(** Fuel: twice the weight of the operands, one more when neither is constant.
    The weight is such that no creation function returns an expression that
    weighs more than the node it stands for: a disjunction counts more than other
    nodes, because its negation is a conjunction of negations; a conditional and
    the kinds outside the recursion count for the connectives that replace them;
    an extraction and a read count for the copies that are made of them when the
    operand is a concatenation or a conditional; and a read of a constant array
    counts for the disjunction of at most 100 equalities that may replace it. *)
Fixpoint weight (e : Expr) : Z :=
  match e with
  | Constant _ => 1
  | NotOptimized e | ZExt e _ | SExt e _ | Not e => 1 + weight e
  | Extract e _ _ => 1 + 2 * weight e
  | Read root NullNode index =>
      if bool_decide (constantValues (deref root) = []) then 2 * weight index
      else 103 * (weight index + 10)
  | Read _ (Node _ _ _ as head) index => (1 + nodes_weight head) * weight index
  | Select c t f => 10 + weight c + weight t + weight f
  | Binary Or l r => 4 + weight l + weight r
  | Concat l r | Binary (Add | Sub | Mul | And | Xor | Eq) l r => 1 + weight l + weight r
  | Binary _ l r => 6 + weight l + weight r
  end
with nodes_weight (un : UpdateNode) : Z :=
  match un with
  | NullNode => 1
  | Node next _ value => nodes_weight next + weight value
  end.

Definition core_cost (l r : Expr) : Z :=
  2 * (weight l + weight r) + (if isConstant l || isConstant r then 0 else 1).

(** [AddExpr::create], [SubExpr::create], [MulExpr::create], [AndExpr::create],
    [OrExpr::create], [XorExpr::create] and [EqExpr::create] *)
Definition core_create (k : BinaryKind) (l r : Expr) : outcome Expr :=
  core_create_fuel (Z.to_nat (core_cost l r + 1)) k l r.

(** [Expr::createIsZero] *)
Definition createIsZero (e : Expr) : outcome Expr := createIsZero_with core_create e.

(** [Expr::createImplies] *)
Definition createImplies (hyp conc : Expr) : outcome Expr :=
  nh ← createIsZero hyp; core_create Or nh conc.

(** ** The other kinds *)

Definition UDivExpr_create (l r : Expr) : outcome Expr :=
  if getWidth l =? Bool then Done l (* r must be 1 *) else Done (Binary UDiv l r).

Definition SDivExpr_create (l r : Expr) : outcome Expr :=
  if getWidth l =? Bool then Done l (* r must be 1 *) else Done (Binary SDiv l r).

Definition URemExpr_create (l r : Expr) : outcome Expr :=
  if getWidth l =? Bool then create_constant 0 Bool (* r must be 1 *)
  else Done (Binary URem l r).

Definition SRemExpr_create (l r : Expr) : outcome Expr :=
  if getWidth l =? Bool then create_constant 0 Bool (* r must be 1 *)
  else Done (Binary SRem l r).

Definition ShlExpr_create (l r : Expr) : outcome Expr :=
  if getWidth l =? Bool then (* l & !r *)
    nr ← createIsZero r; core_create And l nr
  else Done (Binary Shl l r).

Definition LShrExpr_create (l r : Expr) : outcome Expr :=
  if getWidth l =? Bool then (* l & !r *)
    nr ← createIsZero r; core_create And l nr
  else Done (Binary LShr l r).

Definition AShrExpr_create (l r : Expr) : outcome Expr :=
  if getWidth l =? Bool then Done l else Done (Binary AShr l r).

Definition UltExpr_create (l r : Expr) : outcome Expr :=
  if getWidth l =? Bool then (* !l && r *)
    nl ← createIsZero l; core_create And nl r
  else Done (Binary Ult l r).

Definition UleExpr_create (l r : Expr) : outcome Expr :=
  if getWidth l =? Bool then (* !(l && !r) *)
    nl ← createIsZero l; core_create Or nl r
  else Done (Binary Ule l r).

Definition SltExpr_create (l r : Expr) : outcome Expr :=
  if getWidth l =? Bool then (* l && !r *)
    nr ← createIsZero r; core_create And l nr
  else Done (Binary Slt l r).

Definition SleExpr_create (l r : Expr) : outcome Expr :=
  if getWidth l =? Bool then (* !(!l && r) *)
    nr ← createIsZero r; core_create Or l nr
  else Done (Binary Sle l r).

(** [NeExpr::create] *)
Definition NeExpr_create (l r : Expr) : outcome Expr :=
  zero ← create_constant 0 Bool;
  eq ← core_create Eq l r;
  core_create Eq zero eq.

(** [_e_op::create] by kind: the instances of [BCREATE] and [CMPCREATE], and the
    comparisons that swap their operands. *)
Definition Binary_create (k : BinaryKind) (l r : Expr) : outcome Expr :=
  match k with
  | UDiv => BCREATE UDiv UDivExpr_create l r
  | SDiv => BCREATE SDiv SDivExpr_create l r
  | URem => BCREATE URem URemExpr_create l r
  | SRem => BCREATE SRem SRemExpr_create l r
  | Shl => BCREATE Shl ShlExpr_create l r
  | LShr => BCREATE LShr LShrExpr_create l r
  | AShr => BCREATE AShr AShrExpr_create l r
  | Ne => NeExpr_create l r
  | Ult => BCREATE Ult UltExpr_create l r
  | Ule => BCREATE Ule UleExpr_create l r
  | Slt => BCREATE Slt SltExpr_create l r
  | Sle => BCREATE Sle SleExpr_create l r
  | Ugt => BCREATE Ult UltExpr_create r l
  | Uge => BCREATE Ule UleExpr_create r l
  | Sgt => BCREATE Slt SltExpr_create r l
  | Sge => BCREATE Sle SleExpr_create r l
  | _ => core_create k l r
  end.

End creation.
