(* ===== verification/ExprBinaryProofs.v ===== *)
(** * Correctness of the creation functions for binary operators

    Each function of [ExprBinary] is shown to return, for well-formed operands
    of the same width, a well-formed expression with the value of the operator;
    the proof of termination bounds the weight of the results. *)

From stdpp Require Import prelude.
From S2P Require Import Prelude Bitvec Bits APInt ExprData ExprConstants ExprCasts ExprBinary.

Definition is_core (k : BinaryKind) : bool :=
  match k with Add | Sub | Mul | And | Or | Xor | Eq => true | _ => false end.

(** The one rewriting that assumes reads within bounds: an equality with a read
    of a constant array, under [-const-array-opt]. *)
Definition sensitive `{Options} (k : BinaryKind) (w : Z) : Prop :=
  k = Eq ∧ w ≠ Bool ∧ ConstArrayOpt = true.

(** Operators that are defined on all operands: neither divisions nor shifts *)
Definition is_total (k : BinaryKind) : bool := is_core k || is_cmp k.

(** The kinds and widths of operators that creation leaves: the others are replaced by
    operations on bits or by swapped or negated comparisons. *)
Definition plain (k : BinaryKind) (w : Z) : bool :=
  match k with
  | And | Or | Xor | Eq => true
  | Ne | Ugt | Uge | Sgt | Sge => false
  | _ => negb (w =? 1)
  end.

(** A predicate that an expression made of constants, plain total operators and parts
    of expressions inherits from these. *)
Record hereditary (P : Expr → Prop) : Prop := {
  her_const c : P (Constant c);
  her_total k l r : is_total k = true → plain k (getWidth l) = true → P l → P r → P (Binary k l r);
  her_left k l r : P (Binary k l r) → P l;
  her_right k l r : P (Binary k l r) → P r;
  her_zext e w : P (ZExt e w) → P e;
  her_sext e w : P (SExt e w) → P e;
  her_index root head index : P (Read root head index) → P index;
}.

Lemma is_core_total k : is_core k = true → is_total k = true.
Proof. unfold is_total. by intros ->. Qed.

(** Adds a fact that is not among the hypotheses. *)
Ltac learn p :=
  let T := type of p in
  lazymatch goal with _ : T |- _ => fail | _ => pose proof p end.

(** Proves that an operator is plain at a width. *)
Ltac is_plain :=
  first [ done
        | match goal with Hp : ∀ w, plain ?k w = true |- plain ?k _ = true => apply Hp end
        | by match goal with E : getWidth ?x = _ |- context [getWidth ?x] => rewrite E end
        | by match goal with E : _ = getWidth ?x |- context [getWidth ?x] => rewrite <- E end
        | cbn [plain]; rewrite negb_true_iff, Z.eqb_neq; cbn in *; first [assumption | congruence | lia] ].

(** Proves that a predicate is inherited, from the hypotheses that say so of the
    calls. *)
Ltac keeps :=
  let P := fresh "P" in
  intros P; intros;
  match goal with HP : hereditary P |- _ =>
    let c := fresh in let b := fresh in let l := fresh in let r := fresh in
    let z := fresh in let s := fresh in let i := fresh in
    repeat match goal with H : _ |- _ => specialize (H P HP) end;
    destruct HP as [c b l r z s i];
    repeat match goal with
    | H : P (Binary ?k ?x ?y) |- _ => learn (l k x y H)
    | H : P (Binary ?k ?x ?y) |- _ => learn (r k x y H)
    | H : P (ZExt ?e ?w) |- _ => learn (z e w H)
    | H : P (SExt ?e ?w) |- _ => learn (s e w H)
    | H : P (Read ?root ?head ?index) |- _ => learn (i root head index H)
    end;
    clear l r z s i;
    repeat first
      [ assumption | apply c | apply b; [done || by apply is_core_total|is_plain|..]
      | match goal with H : plain _ _ = true → P ?e |- P ?e => apply H; is_plain end
      | match goal with |- plain _ _ = true → P _ => intros ? end
      | match goal with H : _ → P ?e |- P ?e => apply H end
      | match goal with H : _ → _ → P ?e |- P ?e => apply H end
      | match goal with H : _ → _ → _ → P ?e |- P ?e => apply H end ]
  end.

(** [e] is what the creation function of [k] may return on [l] and [r]. *)
Record created `{ArrayStore} `{Options} (k : BinaryKind) (l r e : Expr) : Prop := {
  created_wf : wf e;
  created_width : getWidth e = bv_width k (getWidth l);
  created_weight : weight e ≤ weight (Binary k l r);
  created_eval ρ :
    wf_assignment ρ → (sensitive k (getWidth l) → in_bounds ρ l ∧ in_bounds ρ r) →
    eval ρ e = bv_eval k (getWidth l) (eval ρ l) (eval ρ r);
  created_keeps P : hereditary P → P l → P r → (plain k (getWidth l) = true → P (Binary k l r)) → P e;
}.

Lemma hereditary_and P Q : hereditary P → hereditary Q → hereditary (λ e, P e ∧ Q e).
Proof. intros [] []. split; naive_solver. Qed.

Lemma hereditary_impl (A : Prop) P : hereditary P → hereditary (λ e, A → P e).
Proof. intros []. split; naive_solver. Qed.

Lemma hereditary_all {A} (P : A → Expr → Prop) : (∀ a, hereditary (P a)) → hereditary (λ e, ∀ a, P a e).
Proof.
  intros HP. split.
  - intros c a. apply (HP a).
  - intros k l r Hk Hp Hl Hr a. apply (HP a); auto.
  - intros k l r H a. by eapply (her_left _ (HP a)).
  - intros k l r H a. by eapply (her_right _ (HP a)).
  - intros e w H a. by eapply (her_zext _ (HP a)).
  - intros e w H a. by eapply (her_sext _ (HP a)).
  - intros root head index H a. by eapply (her_index _ (HP a)).
Qed.

Lemma in_bounds_hereditary `{ArrayStore} ρ : hereditary (in_bounds ρ).
Proof. split; cbn; tauto. Qed.

(** ** Expressions that creation leaves *)

(** Divisors are not the constant 0, operands of arithmetic are not booleans. *)
Definition buildable_op (k : BinaryKind) (w : Z) (r : Expr) : Prop :=
  match k with
  | And | Or | Xor | Eq => True
  | Ne | Ugt | Uge | Sgt | Sge => False
  | UDiv | SDiv | URem => w ≠ 1 ∧ match r with Constant c => cvalue c ≠ 0 | _ => True end
  | _ => w ≠ 1
  end.

Fixpoint buildable (e : Expr) : Prop :=
  match e with
  | Constant _ => True
  | NotOptimized e | Not e => buildable e
  | Read _ head index => buildable_nodes head ∧ buildable index
  | Select c t f => buildable c ∧ buildable t ∧ buildable f
  | Concat l r => buildable l ∧ buildable r ∧ getWidth l ≠ 1 ∧ getWidth r ≠ 1
  | Extract e _ _ => buildable e ∧ getWidth e ≠ 1
  | ZExt e w | SExt e w => buildable e ∧ getWidth e < w
  | Binary k l r => buildable l ∧ buildable r ∧ buildable_op k (getWidth l) r
  end
with buildable_nodes (un : UpdateNode) : Prop :=
  match un with
  | NullNode => True
  | Node next index value => buildable_nodes next ∧ buildable index ∧ buildable value
  end.

Lemma buildable_hereditary : hereditary buildable.
Proof.
  split; cbn [buildable buildable_op]; try tauto.
  intros k l r Hk Hp Hl Hr. split_and!; [done..|]. destruct k; try done; cbn in Hp; by apply negb_true_iff, Z.eqb_neq in Hp.
Qed.

Section weights.
Context `{ArrayStore}.

Lemma weights_pos : (∀ e, 1 ≤ weight e) ∧ (∀ un, 1 ≤ nodes_weight un).
Proof.
  apply Expr_UpdateNode_ind; try (cbn; lia).
  - intros root [|next i v] Hh index Hi; cbn [weight]; [case_bool_decide; lia|nia].
  - intros [] l Hl r Hr; cbn; lia.
Qed.

Lemma weight_pos e : 1 ≤ weight e.
Proof. apply weights_pos. Qed.

Lemma weight_binary k l r : 1 + weight l + weight r ≤ weight (Binary k l r) ≤ 6 + weight l + weight r.
Proof. destruct k; cbn; lia. Qed.
End weights.

(** Modular sums. *)
Ltac modular :=
  rewrite ?Zplus_mod_idemp_l, ?Zplus_mod_idemp_r, ?Zminus_mod_idemp_l, ?Zminus_mod_idemp_r;
  f_equal; lia.

Section negations.
Context `{APIntLaws} `{WfStore}.

Lemma isZero_spec e : wf e → isZero e ⇓ λ z, z = true → ∃ w, e = const 0 w.
Proof.
  intros He. destruct e as [[w v]| | | | | | | | |]; try done.
  unfold isZero. rewrite CE_isZero_spec by done. cbn. intros ->%Z.eqb_eq. eauto.
Qed.

Definition negates (a b : Expr) : Prop :=
  getWidth a = Bool ∧ getWidth b = Bool ∧
  ∀ ρ, wf_assignment ρ → eval ρ a = 1 - eval ρ b.

Lemma negates_sym a b : negates a b → negates b a.
Proof. intros (?&?&Hv). split_and!; [done..|]. intros ρ Hρ. rewrite (Hv ρ Hρ). lia. Qed.

Lemma isIsZeroOf_spec a b :
  wf a → wf b → getWidth a = getWidth b → isIsZeroOf a b ⇓ λ n, n = true → negates a b.
Proof.
  intros Ha Hb Hw. destruct a as [| | | | | | | | |[] l r]; try done.
  destruct Ha as (Hl & Hr & _). unfold isIsZeroOf. ystep.
  eapply yields_mono; [by apply isZero_spec|]. intros z Hz. cbn. intros ?. uneq.
  destruct Hz as [w ->]; [done|]. subst. assert (getWidth b = Bool) by (by rewrite <- Hw).
  split_and!; [done..|]. intros ρ Hρ. cbn -[Z.sub]. bool_cases ρ.
Qed.

Lemma isNegationOf_spec a b :
  wf a → wf b → getWidth a = getWidth b → isNegationOf a b ⇓ λ n, n = true → negates a b.
Proof.
  intros. unfold isNegationOf. ystep. eapply yields_mono; [by apply isIsZeroOf_spec|].
  intros [] Hn; [done|]. eapply yields_mono; [by apply isIsZeroOf_spec|].
  intros n Hn' ?. apply negates_sym. auto.
Qed.

Lemma both_negations_spec a b c d :
  wf a → wf b → wf c → wf d → getWidth a = getWidth b → getWidth c = getWidth d →
  both_negations a b c d ⇓ λ n, n = true → negates a b ∧ negates c d.
Proof.
  intros. unfold both_negations. ystep. eapply yields_mono; [by apply isNegationOf_spec|].
  intros [] Hn; [|done]. eapply yields_mono; [by apply isNegationOf_spec|]. naive_solver.
Qed.

Lemma create_constant_spec v w :
  0 < w ≤ 64 → v `bits` w → create_constant v w = Done (const v w).
Proof. intros. unfold create_constant. by rewrite ConstantExpr_create_spec. Qed.
End negations.

(** ** Building [created] *)

Section created_lemmas.
Context `{APIntLaws} `{WfStore} `{Options}.

Lemma created_alloc k l r :
  plain k (getWidth l) = true → wf l → wf r → getWidth l = getWidth r → created k l r (Binary k l r).
Proof. intros. split; [done..|lia|done|]. intros P ? ? ?. auto. Qed.

Lemma created_fold k cl cr :
  wf_constant cl → wf_constant cr → cwidth cl = cwidth cr → ap_defined k (cwidth cl) (cvalue cr) →
  created k (Constant cl) (Constant cr) (Constant (CE_binop k cl cr)).
Proof.
  intros. split; [|done|..].
  - by apply CE_binop_wf.
  - destruct k; cbn; lia.
  - intros. cbn [eval]. by rewrite CE_binop_spec.
  - keeps.
Qed.

(** The constant [v]; its value need not depend on the operands. *)
Lemma created_const k l r v w :
  0 < w ≤ 64 → v `bits` w → w = bv_width k (getWidth l) →
  (∀ ρ, wf_assignment ρ → bv_eval k (getWidth l) (eval ρ l) (eval ρ r) = v) →
  created k l r (const v w).
Proof.
  intros Hw Hv -> He. split; [done..| |intros ρ Hρ _; by rewrite He|keeps].
  pose proof (weight_binary k l r). pose proof (weight_pos l). pose proof (weight_pos r). change (weight (Constant _)) with 1. lia.
Qed.

Definition is_comm (k : BinaryKind) : bool :=
  match k with Add | Mul | And | Or | Xor | Eq => true | _ => false end.

Lemma bv_eval_comm k w a b : is_comm k = true → bv_eval k w a b = bv_eval k w b a.
Proof.
  destruct k; try done; intros _; cbn.
  - by rewrite Z.add_comm.
  - by rewrite Z.mul_comm.
  - apply Z.land_comm.
  - apply Z.lor_comm.
  - apply Z.lxor_comm.
  - by rewrite Z.eqb_sym.
Qed.

Lemma created_comm k l r e :
  is_comm k = true → getWidth l = getWidth r → created k l r e → created k r l e.
Proof.
  intros Hk Hw [? Hwe Hwt Hev Hb]. assert (is_total k = true) by (by destruct k). split; try done.
  - by rewrite <- Hw.
  - etrans; [done|]. destruct k; cbn; lia.
  - intros ρ Hρ Hs. rewrite (Hev ρ Hρ), bv_eval_comm, Hw; [done..|].
    rewrite Hw. intros. by apply and_comm, Hs.
  - keeps.
Qed.

(** At width 1 several operators coincide. *)
Lemma created_bool k k' l r e :
  plain k 1 = true → wf l → wf r → getWidth l = Bool → getWidth r = Bool →
  (∀ a b, (a = 0 ∨ a = 1) → (b = 0 ∨ b = 1) → bv_eval k 1 a b = bv_eval k' 1 a b) →
  bv_width k Bool = bv_width k' Bool → weight (Binary k l r) ≤ weight (Binary k' l r) →
  created k l r e → created k' l r e.
Proof.
  intros Hk Hl Hr Hwl Hwr Hv Hw Hwt [? Hwe Hwt' Hev Hb]. assert (is_total k = true) by (by destruct k). split; try done.
  - by rewrite Hwe, Hwl.
  - lia.
  - intros ρ Hρ _. rewrite (Hev ρ Hρ), Hwl; [apply Hv; by apply eval_bool|].
    rewrite Hwl. by intros (_&?&_).
  - keeps.
Qed.

End created_lemmas.

(** ** The functions, given the recursive calls they make *)

Section steps.
Context `{APIntLaws} `{WfStore} `{ObjectIdentity} `{Options}.
Variable create : BinaryKind → Expr → Expr → outcome Expr.
Variable n : Z.

Hypothesis create_ok : ∀ k l r,
  is_core k = true → wf l → wf r → getWidth l = getWidth r → core_cost l r < n →
  create k l r ⇓ created k l r.

(** Constant operands are folded. *)
Hypothesis create_fold : ∀ k cl cr,
  is_core k = true → cwidth cl = cwidth cr → 4 < n →
  create k (Constant cl) (Constant cr) = Done (Constant (CE_binop k cl cr)).

Lemma core_cost_le l r : core_cost l r ≤ 2 * (weight l + weight r) + 1.
Proof. unfold core_cost. case_step; lia. Qed.

Lemma core_cost_const_l c r : core_cost (Constant c) r = 2 * (1 + weight r).
Proof. unfold core_cost. cbn. lia. Qed.

Lemma core_cost_const_r l c : core_cost l (Constant c) = 2 * (1 + weight l).
Proof. unfold core_cost. cbn. rewrite orb_true_r. lia. Qed.

(** The calls below: on two operands, and with a constant operand. *)
Lemma call k l r :
  is_core k = true → wf l → wf r → getWidth l = getWidth r →
  2 * (weight l + weight r) + 1 < n → create k l r ⇓ created k l r.
Proof. intros. apply create_ok; [done..|]. pose proof (core_cost_le l r). lia. Qed.

Lemma call_l k c r :
  is_core k = true → wf_constant c → wf r → cwidth c = getWidth r →
  2 * (1 + weight r) < n → create k (Constant c) r ⇓ created k (Constant c) r.
Proof. intros. apply create_ok; [done..|]. by rewrite core_cost_const_l. Qed.

Lemma call_r k l c :
  is_core k = true → wf l → wf_constant c → getWidth l = cwidth c →
  2 * (1 + weight l) < n → create k l (Constant c) ⇓ created k l (Constant c).
Proof. intros. apply create_ok; [done..|]. by rewrite core_cost_const_r. Qed.

Lemma EqExpr_create_ok l r :
  wf l → wf r → getWidth l = getWidth r → EqExpr_create l r ⇓ created Eq l r.
Proof.
  intros Hl Hr Hw. unfold EqExpr_create. destruct (eqE l r) eqn:E; [|by apply created_alloc].
  uneq. subst. apply created_const; [done..|]. intros. cbn. by rewrite Z.eqb_refl.
Qed.

(** Negation of a boolean expression. *)
Lemma createIsZero_with_ok e :
  wf e → 2 * (1 + weight e) < n →
  createIsZero_with create e ⇓ created Eq e (const 0 (getWidth e)).
Proof.
  intros He Hn. pose proof (wf_width e He). unfold createIsZero_with.
  rewrite create_constant_spec by (auto with klee lia). ystep.
  apply call_r; try done. split; cbn; auto with klee lia.
Qed.

(** [TryConstArrayOpt].  The disjunction built so far says that the index is one
    of the positions before [i] that hold [cl]. *)
Section const_array.
Variables (cl : ConstantExpr) (root : Array) (index : Expr).
Hypothesis Hcl : wf_constant cl ∧ cwidth cl = Int8.
Hypothesis Hindex : wf index ∧ getWidth index = Int32.
Hypothesis Hroot : constantValues (deref root) ≠ [].
Hypothesis Hopt : ConstArrayOpt = true.
Hypothesis Hn : 2 * (1 + weight (Read root NullNode index)) ≤ n.

Let values := constantValues (deref root).

Definition so_far (pre : list ConstantExpr) (numMatches : Z) (res : Expr) : Prop :=
  wf res ∧ getWidth res = Bool ∧ weight res ≤ 1 + numMatches * (weight index + 6) ∧
  (∀ P, hereditary P → P index → P res) ∧
  ∀ ρ, wf_assignment ρ → in_bounds ρ index →
    eval ρ res = 1 ↔ pre !! Z.to_nat (eval ρ index) = Some cl.

Lemma weight_const_read : weight (Read root NullNode index) = 103 * (weight index + 10).
Proof. cbn. by rewrite bool_decide_eq_false_2. Qed.

(** One more position, that holds [cl]. *)
Lemma so_far_match pre post numMatches res :
  values = pre ++ cl :: post → 0 ≤ numMatches < 100 → so_far pre numMatches res →
  (mayBe ← create Eq index (Constant (alloc (Z.of_nat (length pre)) (getWidth index)));
   create Or res mayBe) ⇓ so_far (pre ++ [cl]) (numMatches + 1).
Proof.
  intros Hv Hm (Hwf & Hw & Hwt & Hk & Hres). destruct Hindex as [Hwi Hw32].
  pose proof weight_const_read as HR. pose proof (weight_pos index).
  assert (Z.of_nat (length pre) `bits` Int32) as Hlen.
  { destruct (wf_store root) as (Hsz & [?|Hl] & _); [done|].
    assert (length pre ≤ length values)%nat by (rewrite Hv, length_app; lia).
    subst values. unfold bounded, Int32. lia. }
  rewrite Hw32, alloc_small by done.
  ystep. eapply yields_mono; [apply call_r; try done; lia|]. intros m [Hwm Hwid Hwtm Hevm Hbm].
  cbn in Hwtm. eapply yields_mono; [apply call; try done; [by rewrite Hwid|nia]|].
  intros o [Hwo Hwo' Hwto Hevo Hbo]. split_and!; [done|by rewrite Hwo'|cbn in Hwto; lia|keeps|].
  intros ρ Hρ Hb. pose proof (Hres ρ Hρ Hb) as Hiff.
  rewrite Hevo by (done || (intros [? _]; done)). rewrite Hevm by done. cbn.
  pose proof (eval_bounded ρ index Hρ Hwi) as [? _].
  destruct (decide (Z.to_nat (eval ρ index) < length pre)%nat).
  - rewrite lookup_app_l by done. rewrite <- Hiff, (proj2 (Z.eqb_neq _ _)) by lia. bool_cases ρ.
  - rewrite lookup_app_r by lia. rewrite lookup_ge_None_2 in Hiff by lia.
    assert (eval ρ res = 0) as ->.
    { destruct (eval_bool ρ res) as [?|Hr]; try done. by apply Hiff in Hr. }
    destruct (decide (eval ρ index = Z.of_nat (length pre))) as [He|].
    + rewrite He, Z.eqb_refl, Nat2Z.id, Nat.sub_diag. done.
    + rewrite (proj2 (Z.eqb_neq _ _)) by lia. split; [done|].
      rewrite lookup_ge_None_2; [done|]. cbn. lia.
Qed.

Lemma so_far_skip pre c numMatches res :
  c ≠ cl → so_far pre numMatches res → so_far (pre ++ [c]) numMatches res.
Proof.
  intros Hc (? & ? & ? & ? & Hres). split_and!; [done..|]. intros ρ Hρ Hb.
  rewrite (Hres ρ Hρ Hb). set (i := Z.to_nat _).
  destruct (decide (i < length pre)%nat); [by rewrite lookup_app_l|].
  rewrite lookup_app_r, lookup_ge_None_2 by lia.
  split; [done|]. destruct (i - length pre)%nat; cbn; [congruence|done].
Qed.

Lemma so_far_all numMatches res :
  0 ≤ numMatches ≤ 100 → so_far values numMatches res →
  created Eq (Constant cl) (Read root NullNode index) res.
Proof.
  intros Hm (Hwf & Hw & Hwt & Hk & Hres). pose proof weight_const_read as HR.
  pose proof (weight_pos index). destruct (wf_store root) as (Hsz & Hl & Hall).
  split; [done..|cbn [weight] in HR |- *; nia| |].
  - intros ρ Hρ Hs. destruct Hs as [_ [Hb Hi]]; [split_and!; [done| |done]|].
    { destruct Hcl as [_ Hc]. cbn. by rewrite Hc. }
    pose proof (Hres ρ Hρ Hb) as Hiff. cbn in Hi |- *. specialize (Hi Hroot).
    pose proof (eval_bounded ρ index Hρ (proj1 Hindex)) as [? _].
    unfold initial_byte. fold values. destruct Hl as [?|Hl]; [done|].
    destruct (lookup_lt_is_Some_2 values (Z.to_nat (eval ρ index))) as [c Hc];
      [subst values; lia|]. rewrite Hc in Hiff |- *.
    pose proof (Forall_lookup_1 _ _ _ _ Hall Hc) as [_ Hcw].
    destruct (cvalue cl =? cvalue c) eqn:E; unbool; cbn.
    + apply Hiff. destruct Hcl, cl, c; cbn in *; congruence.
    + destruct (eval_bool ρ res) as [?|Hr]; try done. apply Hiff in Hr. congruence.
  - keeps.
Qed.

Lemma const_array_loop_ok post pre numMatches res :
  values = pre ++ post → 0 ≤ numMatches ≤ 100 → so_far pre numMatches res →
  const_array_loop create cl (Read root NullNode index) index post
    (Z.of_nat (length pre)) numMatches res
  ⇓ created Eq (Constant cl) (Read root NullNode index).
Proof.
  revert pre numMatches res. induction post as [|c post IH]; intros pre numMatches res Hv Hm Hs.
  { rewrite app_nil_r in Hv. subst pre. by apply (so_far_all numMatches). }
  assert (Z.of_nat (length pre) + 1 = Z.of_nat (length (pre ++ [c]))) as Hi
    by (rewrite length_app; cbn; lia).
  cbn [const_array_loop]. rewrite Hi. destruct (eqE _ _) eqn:E.
  - apply eqE_eq in E. injection E as <-. case_step; unbool.
    + destruct Hcl as [? Hc], Hindex. apply EqExpr_create_ok; [done..|]. cbn. by rewrite Hc.
    + pose proof (so_far_match pre post numMatches res Hv ltac:(lia) Hs) as Hstep.
      destruct (create Eq _ _) as [m| |] eqn:Em; cbn in Hstep |- *; try done.
      destruct (create Or _ _) as [o| |] eqn:Eo; cbn in Hstep |- *; try done.
      apply IH; [by rewrite <- app_assoc|lia|done].
  - apply IH; [by rewrite <- app_assoc|done|]. apply so_far_skip; [|done].
    intros ->. by rewrite eqE_refl in E.
Qed.
End const_array.

Lemma TryConstArrayOpt_ok cl root head index :
  wf_constant cl → cwidth cl = Int8 → wf (Read root head index) → ConstArrayOpt = true →
  2 * (1 + weight (Read root head index)) ≤ n →
  TryConstArrayOpt create cl root head index ⇓ created Eq (Constant cl) (Read root head index).
Proof.
  intros Hc Hw Hr Hopt Hn. unfold TryConstArrayOpt.
  destruct (_ || _) eqn:E; [by apply EqExpr_create_ok|].
  apply orb_false_iff in E as [Hv%bool_decide_eq_false Hsz%negb_false_iff%Z.eqb_eq].
  destruct head as [|next ? ?]; [|pose proof (node_size_nonneg next); cbn in Hsz; lia].
  destruct Hr as (_ & ? & ?). pose proof (const_array_loop_ok cl root index) as Hloop.
  apply (Hloop ltac:(done) ltac:(done) Hv Hopt Hn _ []); try done.
  split_and!; try done. keeps.
Qed.

(** [EqExpr_createPartialR], branch by branch. *)
Lemma eq_true_ok r : wf r → getWidth r = Bool → created Eq (const 1 Bool) r r.
Proof.
  intros Hr Hw. split; [done..|cbn; lia| |done].
  intros ρ Hρ _. cbn. bool_cases ρ.
Qed.

Lemma eq_not_not_ok a :
  wf a → getWidth a = Bool → created Eq (const 0 Bool) (Binary Eq (const 0 Bool) a) a.
Proof.
  intros Ha Hw. split; [done..|cbn; lia| |keeps].
  intros ρ Hρ _. cbn. bool_cases ρ.
Qed.

Lemma eq_not_or_ok a b :
  wf (Binary Or a b) → getWidth a = Bool → 2 * (1 + weight (Binary Or a b)) ≤ n →
  (nl ← createIsZero_with create a; nr ← createIsZero_with create b; create And nl nr)
  ⇓ created Eq (const 0 Bool) (Binary Or a b).
Proof.
  intros (Ha & Hb & Hw) Hwa Hn. rewrite Hwa in Hw. symmetry in Hw. cbn in Hn.
  pose proof (weight_pos a). pose proof (weight_pos b).
  ystep. eapply yields_mono; [apply createIsZero_with_ok; [done|lia]|].
  intros na [Hna Hwna Hwta Heva Hba]. rewrite Hwa in *. cbn in Hwta.
  ystep. eapply yields_mono; [apply createIsZero_with_ok; [done|lia]|].
  intros nb [Hnb Hwnb Hwtb Hevb Hbb]. rewrite Hw in *. cbn in Hwtb.
  eapply yields_mono; [apply call; try done; [by rewrite Hwna, Hwnb|lia]|].
  intros c Hc. destruct Hc as [? Hwc Hwtc Hevc Hbc]. cbn in Hwtc.
  split; [done|by rewrite Hwc, Hwna|cbn; lia| |].
  - intros ρ Hρ _. rewrite Hevc, Heva, Hevb by (done || by intros (?&?&?)). cbn. bool_cases ρ.
  - keeps.
Qed.

(** Equality of a constant with an extension [ext] of [src]. *)
Lemma eq_ext_ok cl src e (ext : Z → Z) back :
  wf_constant cl → wf src → getWidth src ≤ cwidth cl → cwidth cl = getWidth e →
  cwidth cl ≠ Bool → weight e = 1 + weight src → 2 * (1 + weight e) ≤ n →
  (∀ P, hereditary P → P e → P src) → (∀ ρ, eval ρ e = ext (eval ρ src)) →
  (∀ x, x `bits` getWidth src → ext x mod 2 ^ getWidth src = x) →
  back = mkConstant (cwidth cl) (ext (cvalue cl mod 2 ^ getWidth src)) →
  (if eqE (Constant cl) (Constant back)
   then create Eq src (Constant (CE_ZExt cl (getWidth src))) else create_constant 0 Bool)
  ⇓ created Eq (Constant cl) e.
Proof.
  intros Hc Hs Hle Hwc Hnb Hwt Hn Hb Hev Hext ->. pose proof (wf_width src Hs).
  rewrite CE_ZExt_spec by (done || lia).
  assert (wf_constant (mkConstant (getWidth src) (cvalue cl mod 2 ^ getWidth src))) as Ht.
  { apply wf_const; [lia|]. apply bounded_mod. lia. }
  destruct (eqE _ _) eqn:E.
  - apply eqE_eq in E. injection E as E. apply (f_equal cvalue) in E. cbn in E.
    eapply yields_mono; [apply call_r; try done; lia|].
    intros r [? Hwr Hwtr Hevr Hbr]. split; [done..|cbn in *; lia| |].
    + intros ρ Hρ Hsens. rewrite Hevr; [|done|].
      * cbn. rewrite Hev. pose proof (Hext _ (eval_bounded ρ src Hρ Hs)) as Hx. f_equal.
        apply eq_true_iff_eq. rewrite !Z.eqb_eq. split; congruence.
      * intros (_&_&Hopt). destruct Hsens; [done|]. split; [by apply (Hb _ (in_bounds_hereditary ρ))|done].
    + keeps.
  - rewrite create_constant_spec by done. apply created_const; [done..|].
    intros ρ Hρ. cbn. rewrite Hev. rewrite (proj2 (Z.eqb_neq _ _)); [done|]. intros Heq.
    pose proof (Hext _ (eval_bounded ρ src Hρ Hs)) as Hx.
    assert (cvalue cl = ext (cvalue cl mod 2 ^ getWidth src)) as Hfit by congruence.
    rewrite <- Hfit in E. destruct cl. cbn in E. by rewrite eqE_refl in E.
Qed.

(** [c0 = c1 + b] and [c0 = c1 - b] move the constant to the left. *)
Lemma eq_add_value w c0 c1 b :
  0 ≤ w → c0 `bits` w → b `bits` w → ((c0 - c1) mod 2 ^ w =? b) = (c0 =? (c1 + b) mod 2 ^ w).
Proof.
  intros Hw Hc Hb. apply eq_true_iff_eq. rewrite !Z.eqb_eq. split.
  - intros <-. rewrite Zplus_mod_idemp_r. replace (c1 + (c0 - c1)) with c0 by lia.
    by rewrite bounded_small.
  - intros ->. rewrite Zminus_mod_idemp_l. replace (c1 + b - c1) with b by lia.
    by apply bounded_small.
Qed.

Lemma eq_sub_value w c0 c1 b :
  0 ≤ w → c0 `bits` w → b `bits` w → ((c1 - c0) mod 2 ^ w =? b) = (c0 =? (c1 - b) mod 2 ^ w).
Proof.
  intros Hw Hc Hb. apply eq_true_iff_eq. rewrite !Z.eqb_eq. split.
  - intros <-. rewrite Zminus_mod_idemp_r. replace (c1 - (c1 - c0)) with c0 by lia.
    by rewrite bounded_small.
  - intros ->. rewrite Zminus_mod_idemp_r. replace (c1 - (c1 - b)) with b by lia.
    by apply bounded_small.
Qed.

(** What [EqExpr_createPartialR] does on a sum or difference with a constant:
    [v] is the constant moved to the left, [f] the value of [e] from that of [b]. *)
Lemma eq_move_ok cl v b e :
  created Eq (const v (cwidth cl)) b e → cwidth cl = getWidth b →
  (∀ k c1, k = Add ∨ k = Sub →
    (∀ ρ, wf_assignment ρ →
      (v =? eval ρ b) = (cvalue cl =? bv_eval k (getWidth b) (cvalue c1) (eval ρ b))) →
    cwidth c1 = getWidth b → created Eq (Constant cl) (Binary k (Constant c1) b) e).
Proof.
  intros [? Hw Hwt Hev Hb] Hcb k c1 Hk Hv Hc1. assert (is_cmp k = false ∧ k ≠ Or) as [Hcmp Hor]
    by (by destruct Hk as [-> | ->]).
  split; [done..| | |].
  - destruct Hk as [-> | ->]; cbn in *; lia.
  - intros ρ Hρ Hs. rewrite Hev; [cbn [eval getWidth bv_eval cwidth cvalue]; by rewrite Hv, Hc1|done|].
    intros Hsens. destruct (Hs Hsens) as [_ [_ ?]]. done.
  - keeps.
Qed.

Lemma EqExpr_createPartialR_bool r cl :
  wf_constant cl → wf r → cwidth cl = Bool → getWidth r = Bool → 2 * (1 + weight r) ≤ n →
  EqExpr_createPartialR create cl r ⇓ created Eq (Constant cl) r.
Proof.
  intros Hc Hr Hwc Hwr Hn. destruct cl as [w v]. cbn in Hwc. subst w.
  assert (EqExpr_create (const v Bool) r ⇓ created Eq (const v Bool) r) as Halloc
    by (by apply EqExpr_create_ok).
  assert (v = 0 ∨ v = 1) as Hv.
  { destruct Hc as [_ Hc]. unfold bounded in Hc. cbn in Hc. change (2 ^ Bool) with 2 in Hc. lia. }
  assert (CE_isTrue (mkConstant Bool v) = Done (v =? 1)) as Ht by (by apply CE_isTrue_spec).
  destruct Hv as [-> | ->]; [|destruct r; by apply eq_true_ok].
  destruct r as [| | | | | | | | |k a b]; try apply Halloc.
  destruct k; try apply Halloc; cbn in Hwr.
  - by apply eq_not_or_ok.
  - destruct a as [CE| | | | | | | | |]; try apply Halloc. cbn -[EqExpr_create].
    destruct (cwidth CE =? Bool) eqn:E; [|apply Halloc]. unbool.
    rewrite CE_isFalse_spec by done. cbn -[EqExpr_create].
    destruct (cvalue CE =? 0) eqn:E0; [|apply Halloc]. unbool.
    destruct CE as [w v]. cbn in E, E0. subst. destruct Hr as (_&?&Hw).
    by apply eq_not_not_ok.
Qed.

Lemma EqExpr_createPartialR_ok r cl :
  wf_constant cl → wf r → cwidth cl = getWidth r → 2 * (1 + weight r) ≤ n →
  EqExpr_createPartialR create cl r ⇓ created Eq (Constant cl) r.
Proof.
  revert cl. induction r as [| |root head index _| | | |src _ w|src _ w| |k a _ b IHb];
    intros cl Hc Hr Hw Hn;
    (destruct (decide (cwidth cl = Bool)) as [HB|HB];
      [by apply EqExpr_createPartialR_bool; [..|congruence|]|]);
    cbn [EqExpr_createPartialR]; rewrite (proj2 (Z.eqb_neq _ _)) by done;
    try (by apply EqExpr_create_ok).
  - destruct ConstArrayOpt eqn:Hopt; [|by apply EqExpr_create_ok].
    by apply TryConstArrayOpt_ok.
  - destruct Hr as [Hs Hle]. pose proof (wf_width src Hs). cbn in Hw.
    apply eq_ext_ok with (ext := λ x, x); try done; try (by keeps); [cbn in *; lia|intros; by apply bounded_small|].
    assert (cvalue cl mod 2 ^ getWidth src `bits` getWidth src) by (apply bounded_mod; lia).
    rewrite (CE_ZExt_spec cl) by (done || lia).
    rewrite CE_ZExt_spec; [|by apply wf_const|lia]. cbn [cvalue]. f_equal.
    apply bounded_small. eapply bounded_mono; [|done]. cbn in *. lia.
  - destruct Hr as [Hs Hle]. pose proof (wf_width src Hs). cbn in Hw.
    apply eq_ext_ok with (ext := λ x, bv_sext (getWidth src) x w); try done; try (by keeps).
    + cbn in *. lia.
    + intros x Hx. unfold bv_sext. rewrite mod_mod_pow2 by lia. apply sgn_mod; [lia|done].
    + rewrite CE_ZExt_spec by (done || lia). rewrite CE_SExt_spec; [by rewrite Hw| |lia].
      apply wf_const; [lia|]. apply bounded_mod. lia.
  - destruct Hr as (Ha & Hb & Hwab). pose proof (weight_pos b). pose proof (wf_width b Hb).
    destruct k; try (by apply EqExpr_create_ok);
      (destruct a as [c1| | | | | | | | |]; try (by apply EqExpr_create_ok));
      cbn in Hw, Hwab, Hn; rewrite create_fold by (done || lia);
      rewrite CE_binop_spec by done; cbn [mbind outcome_bind bv_width is_cmp];
      (eapply yields_mono;
        [apply IHb; cbn; try lia; try done; apply wf_const; [lia|]; apply bounded_mod; lia|]);
      intros e He; eapply (eq_move_ok cl); try done; try (by left); try (by right); try lia;
      try (by rewrite ?Hw in * ); intros ρ Hρ; cbn; rewrite ?Hw, ?Hwab.
    + apply eq_add_value; [lia| |by apply eval_bounded]. rewrite <- Hwab, <- Hw. apply Hc.
    + apply eq_sub_value; [lia| |by apply eval_bounded]. rewrite <- Hwab, <- Hw. apply Hc.
Qed.

(** *** Exclusive or *)

Lemma created_same k l r : 
  wf r → getWidth l = getWidth r → is_cmp k = false →
  (∀ ρ, wf_assignment ρ → bv_eval k (getWidth l) (eval ρ l) (eval ρ r) = eval ρ r) →
  created k l r r.
Proof.
  intros Hr Hw Hk Hv. split; [done|unfold bv_width; by rewrite Hk| | |done].
  - pose proof (weight_binary k l r). pose proof (weight_pos l). lia.
  - intros ρ Hρ _. by rewrite Hv.
Qed.

(** A non-zero boolean constant is 1. *)
Lemma bool_constant_nonzero c : wf_constant c → cwidth c = Bool → cvalue c ≠ 0 → cvalue c = 1.
Proof. intros [_ Hc] Hw ?. rewrite Hw in Hc. unfold bounded in Hc. change (2 ^ Bool) with 2 in Hc. lia. Qed.

Lemma XorExpr_createPartialR_ok cl r :
  wf_constant cl → wf r → cwidth cl = getWidth r → 2 * (1 + weight r) ≤ n →
  XorExpr_createPartialR create cl r ⇓ created Xor (Constant cl) r.
Proof.
  intros Hc Hr Hw Hn. unfold XorExpr_createPartialR. rewrite CE_isZero_spec by done. ystep.
  destruct (cvalue cl =? 0) eqn:E; unbool.
  { apply created_same; try done. intros. cbn. by rewrite E. }
  destruct (cwidth cl =? Bool) eqn:E1; unbool; [|by apply created_alloc].
  rewrite ConstantExpr_create_spec by done. ystep.
  eapply yields_mono; [apply EqExpr_createPartialR_ok; try done; cbn; congruence|].
  intros e [? Hwe Hwt Hev Hb]. split; [done| |done| |].
  - rewrite Hwe. cbn. by rewrite E1.
  - intros ρ Hρ _. rewrite Hev by (done || by intros (?&?&?)). cbn.
    rewrite (bool_constant_nonzero cl) by done. rewrite E1 in Hw. symmetry in Hw. bool_cases ρ.
  - keeps.
Qed.

Lemma XorExpr_create_ok l r :
  wf l → wf r → getWidth l = getWidth r → XorExpr_create l r ⇓ created Xor l r.
Proof.
  intros Hl Hr Hw. pose proof (wf_width l Hl). unfold XorExpr_create.
  destruct (same_object l r) eqn:E.
  { apply same_object_eq in E. subst. rewrite alloc_small by (auto with klee lia).
    apply created_const; [done|auto with klee lia|done|]. intros. apply Z.lxor_nilpotent. }
  ystep. eapply yields_mono; [by apply isNegationOf_spec|].
  intros [] Hneg; [|by apply created_alloc]. destruct Hneg as (Hbl & Hbr & Hv); [done|].
  apply created_const; [done..| |]; [by rewrite Hbl|]. intros ρ Hρ. rewrite Hbl, (Hv ρ Hρ).
  bool_cases ρ.
Qed.

(** *** And *)

Lemma AndExpr_createPartial_ok l cr :
  wf l → wf_constant cr → getWidth l = cwidth cr →
  AndExpr_createPartial l cr ⇓ created And l (Constant cr).
Proof.
  intros Hl Hc Hw. pose proof (wf_width l Hl). unfold AndExpr_createPartial.
  rewrite CE_isAllOnes_spec by done. ystep. destruct (cvalue cr =? _) eqn:E; unbool.
  - apply created_comm; [done..|]. apply created_same; try done. intros ρ Hρ. cbn.
    rewrite E, Z.land_comm. replace (2 ^ cwidth cr - 1) with (Z.ones (cwidth cr))
      by (rewrite Z.ones_equiv; lia).
    rewrite <- Hw. rewrite Z.land_ones by lia. by apply bounded_small, eval_bounded.
  - rewrite CE_isZero_spec by done. ystep. case_step; unbool; [|by apply created_alloc].
    apply created_same; try done. intros ρ Hρ. cbn. by rewrite Heqb, Z.land_0_r.
Qed.

Lemma or_zero_ok l cr : 
  wf l → wf_constant cr → getWidth l = cwidth cr → cvalue cr = 0 → created Or l (Constant cr) l.
Proof.
  intros. apply created_comm; [done..|]. apply created_same; try done. intros. cbn.
  revert select (cvalue cr = 0). by intros ->.
Qed.

Lemma OrExpr_createPartial_ok l cr :
  wf l → wf_constant cr → getWidth l = cwidth cr →
  OrExpr_createPartial l cr ⇓ created Or l (Constant cr).
Proof.
  intros Hl Hc Hw. pose proof (wf_width l Hl). unfold OrExpr_createPartial.
  rewrite CE_isAllOnes_spec by done. ystep. destruct (cvalue cr =? _) eqn:E; unbool.
  - apply created_same; try done. intros ρ Hρ. cbn.
    rewrite E. replace (2 ^ cwidth cr - 1) with (Z.ones (cwidth cr)) by (rewrite Z.ones_equiv; lia).
    rewrite <- Hw. pose proof (eval_bounded ρ l Hρ Hl) as [??]. apply Z.lor_ones_low; [done|].
    destruct (decide (eval ρ l = 0)) as [->|]; [cbn; lia|]. apply Z.log2_lt_pow2; lia.
  - rewrite CE_isZero_spec by done. ystep. case_step; unbool; [|by apply created_alloc].
    by apply or_zero_ok.
Qed.

(** *** Absorption, for [And] and [Or] alike *)

Definition dual_kinds (k dual : BinaryKind) : Prop := k = And ∧ dual = Or ∨ k = Or ∧ dual = And.

(** An operand of [l] that is the negation of [r] can be dropped. *)
Lemma absorbed k dual a b r e :
  dual_kinds k dual → wf b → wf r → getWidth b = getWidth r → negates a r →
  created k b r e → created k (Binary dual a b) r e ∧ created k (Binary dual b a) r e.
Proof.
  intros Hk Hb Hr Hw (Hwa & Hwr & Hv) [? Hwe Hwt Hev Hbo].
  assert (bv_width k Bool = Bool ∧ is_cmp dual = false ∧ is_total k = true ∧ ∀ w, plain k w = true) as (Hbk & Hcmp & Htot & Hpl)
    by (by destruct Hk as [[-> ->]|[-> ->]]).
  pose proof (weight_pos a). rewrite Hwr in Hw. rewrite Hw in Hwe.
  assert (weight (Binary k b r) ≤ weight (Binary k (Binary dual a b) r) ∧
    weight (Binary k b r) ≤ weight (Binary k (Binary dual b a) r)) as [??]
    by (destruct Hk as [[-> ->]|[-> ->]]; cbn; lia).
  assert (∀ ρ, wf_assignment ρ → eval ρ e = bv_eval k Bool (eval ρ b) (eval ρ r)) as Hev'.
  { intros ρ Hρ. rewrite Hev, Hw; [done..|]. intros (->&_). by destruct Hk as [[? _]|[? _]]. }
  split; (split; [done|cbn [getWidth]; by rewrite ?Hcmp, ?Hwa, ?Hw|lia| |
    keeps]); intros ρ Hρ _;
    rewrite Hev' by done; cbn [eval getWidth]; rewrite Hcmp, ?Hwa, ?Hw, (Hv ρ Hρ);
    destruct Hk as [[-> ->]|[-> ->]]; cbn; bool_cases ρ.
Qed.

Lemma absorb_left_ok k dual l r otherwise :
  dual_kinds k dual → wf l → wf r → getWidth l = getWidth r →
  2 * (weight l + weight r) + 1 ≤ n →
  otherwise ⇓ created k l r → absorb_left create k dual l r otherwise ⇓ created k l r.
Proof.
  intros Hk Hl Hr Hw Hn Ho. destruct l as [| | | | | | | | |k' a b]; try done.
  unfold absorb_left. case_bool_decide as Hd; [|done]. subst k'.
  destruct Hl as (Ha & Hb & Hab). pose proof (weight_binary dual a b).
  pose proof (weight_pos a). pose proof (weight_pos b).
  assert (is_core k = true ∧ is_cmp dual = false) as [Hcore Hcmp]
    by (by destruct Hk as [[-> ->]|[-> ->]]).
  cbn [getWidth] in Hw. rewrite Hcmp in Hw.
  ystep. eapply yields_mono; [by apply isNegationOf_spec|]. intros [] Hneg.
  { eapply yields_mono; [apply call; try done; [congruence|lia]|]. intros e He.
    refine (proj1 (absorbed k dual a b r e _ _ _ _ _ _)); auto; congruence. }
  ystep. eapply yields_mono; [by apply isNegationOf_spec; [..|congruence]|]. intros [] Hneg'; [|done].
  eapply yields_mono; [apply call; try done; lia|]. intros e He.
  refine (proj2 (absorbed k dual b a r e _ _ _ _ _ _)); auto.
Qed.

Lemma absorb_right_ok k dual l r otherwise :
  dual_kinds k dual → wf l → wf r → getWidth l = getWidth r →
  2 * (weight l + weight r) + 1 ≤ n →
  otherwise ⇓ created k l r → absorb_right create k dual l r otherwise ⇓ created k l r.
Proof.
  intros Hk Hl Hr Hw Hn Ho. destruct r as [| | | | | | | | |k' a b]; try done.
  unfold absorb_right. case_bool_decide as Hd; [|done]. subst k'.
  destruct (Hr) as (Ha & Hb & Hab). pose proof (weight_binary dual a b).
  pose proof (weight_pos a). pose proof (weight_pos b).
  assert (is_core k = true ∧ is_cmp dual = false ∧ is_comm k = true) as (Hcore & Hcmp & Hcomm)
    by (by destruct Hk as [[-> ->]|[-> ->]]).
  assert (getWidth l = getWidth a) as Hla by (cbn [getWidth] in Hw; by rewrite Hcmp in Hw).
  ystep. eapply yields_mono; [by apply isNegationOf_spec|]. intros [] Hneg.
  { eapply yields_mono; [apply call; try done; [congruence|lia]|].
    intros e He%created_comm; [|done|congruence]. apply created_comm; [done..|].
    refine (proj1 (absorbed k dual a b l e _ _ _ _ _ _)); auto; congruence. }
  ystep. eapply yields_mono; [by apply isNegationOf_spec; [..|congruence]|]. intros [] Hneg'; [|done].
  eapply yields_mono; [apply call; try done; lia|].
  intros e He%created_comm; [|done|congruence]. apply created_comm; [done..|].
  refine (proj2 (absorbed k dual b a l e _ _ _ _ _ _)); auto.
Qed.

Lemma AndExpr_create_ok l r :
  wf l → wf r → getWidth l = getWidth r → 2 * (weight l + weight r) + 1 ≤ n →
  AndExpr_create create l r ⇓ created And l r.
Proof.
  intros Hl Hr Hw Hn. assert (dual_kinds And Or) by (by left). unfold AndExpr_create.
  ystep. eapply yields_mono; [by apply isNegationOf_spec|]. intros [] Hneg.
  { destruct Hneg as (Hbl & Hbr & Hv); [done|]. rewrite create_constant_spec by done.
    apply created_const; [done..|by rewrite Hbl|]. intros ρ Hρ. rewrite (Hv ρ Hρ). cbn. bool_cases ρ. }
  apply absorb_left_ok, absorb_right_ok; try done. by apply created_alloc.
Qed.

(** *** Or *)

Lemma or_of_negations_ok l r otherwise :
  wf l → wf r → getWidth l = getWidth r → 2 * (weight l + weight r) + 1 ≤ n →
  otherwise ⇓ created Or l r → or_of_negations create l r otherwise ⇓ created Or l r.
Proof.
  intros Hl Hr Hw Hn Ho. destruct l as [| | | | | | | | |[] z a]; try done.
  destruct r as [| | | | | | | | |[] z' b]; try done. unfold or_of_negations.
  destruct Hl as (Hz & Ha & Hza), Hr as (Hz' & Hb & Hzb). cbn in Hn.
  pose proof (weight_pos a). pose proof (weight_pos b). pose proof (weight_pos z). pose proof (weight_pos z').
  ystep. eapply yields_mono; [by apply isZero_spec|]. intros [] Hzero; [|done].
  destruct Hzero as [w ->]; [done|]. ystep. eapply yields_mono; [by apply isZero_spec|].
  intros zr Hzero. destruct (zr && _ && _) eqn:E; [|done]. unbool.
  destruct Hzero as [w' ->]; [done|].
  ystep. eapply yields_mono; [apply call; try done; [congruence|lia]|].
  intros c [Hwc Hwic Hwtc Hevc Hbc]. cbn in Hwtc.
  assert (getWidth c = Bool) as Hwic' by (rewrite Hwic; done).
  eapply yields_mono; [apply createIsZero_with_ok; [done|lia]|].
  intros e [? Hwe Hwte Heve Hbe]. rewrite Hwic' in *. split; [done..|cbn in *; lia| |].
  - intros ρ Hρ _. rewrite Heve, Hevc by (done || (by intros (?&?&?))). cbn. bool_cases ρ.
  - keeps.
Qed.

(** [ae] is the negation of [oe]: their disjunction is true. *)
Lemma excluded_middle a b a' b' :
  wf a → wf b → wf a' → wf b' → getWidth a = getWidth b → getWidth a' = getWidth b' →
  (negates a' a ∧ negates b' b ∨ negates a' b ∧ negates b' a) →
  created Or (Binary Or a b) (Binary And a' b') (const 1 Bool).
Proof.
  intros Ha Hb Ha' Hb' Hab Hab' Hneg.
  assert (getWidth a = Bool ∧ getWidth b = Bool ∧ ∀ ρ, wf_assignment ρ →
    Z.lor (Z.lor (eval ρ a) (eval ρ b)) (Z.land (eval ρ a') (eval ρ b')) = 1) as (Hwa & Hwb & Hv).
  { destruct Hneg as [[(?&?&Hv) (?&?&Hv')]|[(?&?&Hv) (?&?&Hv')]]; split_and!; try congruence;
      intros ρ Hρ; rewrite (Hv ρ Hρ), (Hv' ρ Hρ); bool_cases ρ. }
  apply created_const; [done..| |done]. cbn. by rewrite Hwa.
Qed.

Lemma or_excluded_middle_ok oe ae otherwise l r :
  wf oe → wf ae → getWidth oe = getWidth ae →
  (created Or oe ae (const 1 Bool) → created Or l r (const 1 Bool)) →
  otherwise ⇓ created Or l r → or_excluded_middle oe ae otherwise ⇓ created Or l r.
Proof.
  intros Ho Ha Hw Himp Hoth. destruct oe as [| | | | | | | | |[] a b]; try done.
  destruct ae as [| | | | | | | | |[] a' b']; try done. cbn in Hw.
  destruct Ho as (Hwa & Hwb & Hab), Ha as (Hwa' & Hwb' & Hab'). unfold or_excluded_middle.
  ystep. eapply yields_mono; [apply both_negations_spec; try done; congruence|]. intros [] Hn.
  { rewrite create_constant_spec by done. apply Himp, excluded_middle; auto. }
  ystep. eapply yields_mono; [apply both_negations_spec; try done; congruence|].
  intros [] Hn'; [|done]. rewrite create_constant_spec by done. apply Himp, excluded_middle; auto.
Qed.

Lemma OrExpr_create_ok l r :
  wf l → wf r → getWidth l = getWidth r → 2 * (weight l + weight r) + 1 ≤ n →
  OrExpr_create create l r ⇓ created Or l r.
Proof.
  intros Hl Hr Hw Hn. assert (dual_kinds Or And) by (by right). unfold OrExpr_create.
  ystep. eapply yields_mono; [by apply isNegationOf_spec|]. intros [] Hneg.
  { destruct Hneg as (Hbl & Hbr & Hv); [done|]. rewrite create_constant_spec by done.
    apply created_const; [done..|by rewrite Hbl|]. intros ρ Hρ. rewrite (Hv ρ Hρ). cbn. bool_cases ρ. }
  apply absorb_left_ok, absorb_right_ok, or_of_negations_ok; try done.
  apply or_excluded_middle_ok; try done. apply or_excluded_middle_ok; try done; [by apply created_comm|by apply created_alloc].
Qed.

(** *** Sums and differences

    Reassociation: an inner call combines [x] and [y], an outer call adds or
    subtracts the constant [c]; [f] says how the operands [l] and [r] of the
    whole are made of [c], [x] and [y]. *)

Definition is_sum (k : BinaryKind) : Prop := k = Add ∨ k = Sub.

Lemma sum_eval k l r e :
  is_sum k → created k l r e → ∀ ρ, wf_assignment ρ →
  eval ρ e = bv_eval k (getWidth l) (eval ρ l) (eval ρ r).
Proof. intros Hk [] ρ Hρ. destruct Hk as [-> | ->]; apply created_eval0; (done || by intros [? _]). Qed.

Lemma sum_kind k w :
  is_sum k → is_core k = true ∧ bv_width k w = w ∧
    ∀ a b, weight (Binary k a b) = 1 + weight a + weight b.
Proof. by intros [-> | ->]. Qed.

(** [flip] says on which side the outer call has the constant. *)
Lemma regroup (flip : bool) k k1 k2 l r c x y :
  is_sum k → is_sum k1 → is_sum k2 → wf_constant c → wf x → wf y →
  cwidth c = getWidth x → getWidth x = getWidth y → getWidth l = getWidth x →
  weight l + weight r = 2 + weight x + weight y → 2 * (weight l + weight r) + 1 ≤ n →
  (∀ P, hereditary P → P l → P r → P x) → (∀ P, hereditary P → P l → P r → P y) →
  (∀ ρ, wf_assignment ρ → let w := getWidth x in
    let xy := bv_eval k1 w (eval ρ x) (eval ρ y) in
    (if flip then bv_eval k2 w xy (cvalue c) else bv_eval k2 w (cvalue c) xy) =
    bv_eval k w (eval ρ l) (eval ρ r)) →
  (xy ← create k1 x y;
   if flip then create k2 xy (Constant c) else create k2 (Constant c) xy) ⇓ created k l r.
Proof.
  intros Hk Hk1 Hk2 Hc Hx Hy Hwc Hwxy Hwl Hwt Hn Hbx Hby Hv.
  destruct (sum_kind k1 (getWidth x)) as (?&?&Hw1), (sum_kind k2 (getWidth x)) as (?&?&Hw2),
    (sum_kind k (getWidth x)) as (?&?&Hw); try done.
  ystep. eapply yields_mono; [apply call; try done; lia|]. intros xy Hxy.
  pose proof (sum_eval _ _ _ _ Hk1 Hxy) as Hev1.
  destruct Hxy as [? Hwxy' Hwt1 _ Hb1]. rewrite Hw1 in Hwt1.
  destruct flip; (eapply yields_mono;
    [first [apply call_l|apply call_r]; try done; [congruence|lia]|]); intros e He;
    pose proof (sum_eval _ _ _ _ Hk2 He) as Hev2;
    destruct He as [? Hwe Hwt2 _ Hb2]; rewrite Hw2 in Hwt2; cbn [weight] in Hwt2;
    (split; [done|cbn in *; congruence|rewrite Hw; lia| |]).
  1, 3: intros ρ Hρ _; rewrite Hev2, Hev1, Hwl by done; cbn [eval getWidth];
    rewrite ?Hwc, ?Hwxy'; specialize (Hv ρ Hρ); cbn in Hv; congruence.
  all: keeps.
Qed.

(** A constant combined with a constant operand of [r]. *)
Lemma refold k k1 k2 A B x :
  is_sum k → is_sum k1 → is_sum k2 → wf_constant A → wf_constant B → wf x →
  cwidth A = cwidth B → cwidth B = getWidth x →
  4 + 2 * weight x < n →
  (∀ ρ, wf_assignment ρ → let w := getWidth x in
    bv_eval k2 w (bv_eval k w (cvalue A) (cvalue B)) (eval ρ x) =
    bv_eval k w (cvalue A) (bv_eval k1 w (cvalue B) (eval ρ x))) →
  (AB ← create k (Constant A) (Constant B); create k2 AB x)
  ⇓ created k (Constant A) (Binary k1 (Constant B) x).
Proof.
  intros Hk Hk1 Hk2 HA HB Hx HwAB HwBx Hn Hv. pose proof (wf_width x Hx). pose proof (weight_pos x).
  destruct (sum_kind k1 (getWidth x)) as (?&?&Hw1), (sum_kind k2 (getWidth x)) as (?&?&Hw2),
    (sum_kind k (getWidth x)) as (?&?&Hw); try done.
  assert (ap_defined k (cwidth A) (cvalue B)) by (by destruct Hk as [-> | ->]).
  rewrite create_fold by (done || lia). ystep.
  eapply yields_mono; [apply call_l; try done; [by apply CE_binop_wf| |lia]|].
  { rewrite CE_binop_spec by done. cbn. congruence. }
  rewrite CE_binop_spec by done. intros e He.
  pose proof (sum_eval _ _ _ _ Hk2 He) as Hev. destruct He as [? Hwe Hwt _ Hb].
  rewrite Hw2 in Hwt. cbn [weight] in Hwt.
  split; [done|cbn in *; congruence|rewrite Hw, Hw1; cbn [weight]; lia| |].
  - intros ρ Hρ _. rewrite Hev by done. specialize (Hv ρ Hρ). cbn in *. congruence.
  - keeps.
Qed.

Lemma xor_is_sum k l r e :
  is_sum k → wf l → wf r → getWidth l = Bool → getWidth r = Bool →
  created Xor l r e → created k l r e.
Proof.
  intros Hk ????. destruct (sum_kind k Bool Hk) as (_ & Hw & Hwt).
  apply created_bool; try done; [|rewrite Hwt; cbn; lia].
  intros a b [-> | ->] [-> | ->]; by destruct Hk as [-> | ->].
Qed.

Lemma AddExpr_createPartialR_ok cl r :
  wf_constant cl → wf r → cwidth cl = getWidth r → 2 * (1 + weight r) ≤ n →
  AddExpr_createPartialR create cl r ⇓ created Add (Constant cl) r.
Proof.
  intros Hc Hr Hw Hn. unfold AddExpr_createPartialR.
  destruct (cwidth cl =? Bool) eqn:E; unbool.
  { eapply yields_mono; [by apply XorExpr_createPartialR_ok|]. intros e.
    apply xor_is_sum; try done; [by left|congruence]. }
  pose proof (created_alloc Add (Constant cl) r ltac:(is_plain) Hc Hr Hw) as Halloc.
  rewrite CE_isZero_spec by done. ystep. destruct (cvalue cl =? 0) eqn:E0; unbool.
  { apply created_same; try done. intros ρ Hρ. cbn. rewrite E0, Hw. by apply bounded_small, eval_bounded. }
  destruct r as [| | | | | | | | |k a b]; try done.
  destruct Hr as (Ha & Hb & Hab). pose proof (weight_pos b).
  destruct k; try done; (destruct a; try done); cbn in Hw, Hab, Hn;
    (apply refold; try done; try (by left); try (by right); try lia);
    intros ρ Hρ; cbn; modular.
Qed.

Lemma SubExpr_createPartialR_ok cl r :
  wf_constant cl → wf r → cwidth cl = getWidth r → 2 * (1 + weight r) ≤ n →
  SubExpr_createPartialR create cl r ⇓ created Sub (Constant cl) r.
Proof.
  intros Hc Hr Hw Hn. unfold SubExpr_createPartialR.
  destruct (cwidth cl =? Bool) eqn:E; unbool.
  { eapply yields_mono; [by apply XorExpr_createPartialR_ok|]. intros e.
    apply xor_is_sum; try done; [by right|congruence]. }
  pose proof (created_alloc Sub (Constant cl) r ltac:(is_plain) Hc Hr Hw) as Halloc.
  destruct r as [| | | | | | | | |k a b]; try done.
  destruct Hr as (Ha & Hb & Hab). pose proof (weight_pos b).
  destruct k; try done; (destruct a; try done); cbn in Hw, Hab, Hn;
    (apply refold; try done; try (by left); try (by right); try lia);
    intros ρ Hρ; cbn; modular.
Qed.

Lemma SubExpr_createPartial_ok l cr :
  wf l → wf_constant cr → getWidth l = cwidth cr → 2 * (1 + weight l) ≤ n →
  SubExpr_createPartial create l cr ⇓ created Sub l (Constant cr).
Proof.
  intros Hl Hc Hw Hn. pose proof (wf_width l Hl). unfold SubExpr_createPartial, AddExpr_createPartial.
  assert (wf_constant (alloc 0 (cwidth cr))) by (apply wf_alloc; lia).
  assert (wf_constant (CE_binop Sub (alloc 0 (cwidth cr)) cr)) by (by apply CE_binop_wf).
  eapply yields_mono; [by apply AddExpr_createPartialR_ok|]. intros e He.
  pose proof (sum_eval _ _ _ _ ltac:(by left) He) as Hev. destruct He as [? Hwe Hwt _ Hb].
  rewrite CE_binop_spec in * by done.
  split; [done|rewrite Hwe, Hw; done|cbn in *; lia| |].
  - intros ρ Hρ _. rewrite Hev by done. cbn. rewrite Hw, Z.mod_0_l by (pose proof (pow2_pos (cwidth cr)); lia).
    modular.
  - keeps.
Qed.

(** Discharges the premises of [regroup] but the last. *)
Ltac regroup_tac b :=
  apply (regroup b); cbn in *; try done; try (by left); try (by right);
  try congruence; try lia; try (by keeps); intros ρ Hρ; cbn.

Lemma add_right l r :
  wf l → wf r → getWidth l = getWidth r → getWidth l ≠ Bool → 2 * (weight l + weight r) + 1 ≤ n →
  match r with
  | Binary Add (Constant k) b => ab ← create Add l b; create Add (Constant k) ab
  | Binary Sub (Constant k) b => ab ← create Sub l b; create Add (Constant k) ab
  | _ => Done (Binary Add l r)
  end ⇓ created Add l r.
Proof.
  intros Hl Hr Hw Hne Hn. pose proof (created_alloc Add l r ltac:(is_plain) Hl Hr Hw) as Halloc.
  destruct r as [| | | | | | | | |k a b]; try done. destruct Hr as (Ha & Hb & Hab).
  destruct k; try done; (destruct a; try done); regroup_tac false; rewrite Hw; modular.
Qed.

Lemma AddExpr_create_ok l r :
  wf l → wf r → getWidth l = getWidth r → 2 * (weight l + weight r) + 1 ≤ n →
  AddExpr_create create l r ⇓ created Add l r.
Proof.
  intros Hl Hr Hw Hn. unfold AddExpr_create.
  destruct (getWidth l =? Bool) eqn:E; unbool.
  { eapply yields_mono; [by apply XorExpr_create_ok|]. intros e.
    apply xor_is_sum; try done; [by left|congruence]. }
  pose proof (add_right l r Hl Hr Hw E Hn) as Hright.
  destruct l as [| | | | | | | | |k a b]; try exact Hright. destruct Hl as (Ha & Hb & Hab).
  destruct k; try exact Hright; (destruct a; try exact Hright); clear Hright; regroup_tac false;
    first [by rewrite Hab; modular | by rewrite Hw; modular].
Qed.

Lemma sub_right l r :
  wf l → wf r → getWidth l = getWidth r → getWidth l ≠ Bool → 2 * (weight l + weight r) + 1 ≤ n →
  match r with
  | Binary Add (Constant k) b => ab ← create Sub l b; create Sub ab (Constant k)
  | Binary Sub (Constant k) b => ab ← create Add l b; create Sub ab (Constant k)
  | _ => Done (Binary Sub l r)
  end ⇓ created Sub l r.
Proof.
  intros Hl Hr Hw Hne Hn. pose proof (created_alloc Sub l r ltac:(is_plain) Hl Hr Hw) as Halloc.
  destruct r as [| | | | | | | | |k a b]; try done. destruct Hr as (Ha & Hb & Hab).
  destruct k; try done; (destruct a; try done); regroup_tac true; rewrite Hw; modular.
Qed.

Lemma SubExpr_create_ok l r :
  wf l → wf r → getWidth l = getWidth r → 2 * (weight l + weight r) + 1 ≤ n →
  SubExpr_create create l r ⇓ created Sub l r.
Proof.
  intros Hl Hr Hw Hn. unfold SubExpr_create.
  pose proof (wf_width l Hl). destruct (getWidth l =? Bool) eqn:E; unbool.
  { eapply yields_mono; [by apply XorExpr_create_ok|]. intros e.
    apply xor_is_sum; try done; [by right|congruence]. }
  pose proof (sub_right l r Hl Hr Hw E Hn) as Hright.
  destruct (eqE l r) eqn:Eq; uneq.
  { subst. rewrite alloc_small by (auto with klee lia). apply created_const; [done|auto with klee lia|done|].
    intros ρ Hρ. cbn. by rewrite Z.sub_diag, Z.mod_0_l by (pose proof (pow2_pos (getWidth r)); lia). }
  destruct l as [| | | | | | | | |k a b]; try exact Hright. destruct Hl as (Ha & Hb & Hab).
  destruct k; try exact Hright; (destruct a; try exact Hright); clear Hright; regroup_tac false;
    first [by rewrite Hab; modular | by rewrite Hw; modular].
Qed.

(** *** Products *)

Lemma MulExpr_createPartialR_ok cl r :
  wf_constant cl → wf r → cwidth cl = getWidth r →
  MulExpr_createPartialR cl r ⇓ created Mul (Constant cl) r.
Proof.
  intros Hc Hr Hw. unfold MulExpr_createPartialR. destruct (cwidth cl =? Bool) eqn:E; unbool.
  { eapply yields_mono; [by apply AndExpr_createPartial_ok|].
    intros e He%created_comm; [|done..]. revert He. apply created_bool; try done; [congruence|].
    by intros a b [-> | ->] [-> | ->]. }
  rewrite CE_isOne_spec by done. ystep. destruct (cvalue cl =? 1) eqn:E1; unbool.
  { apply created_same; try done. intros ρ Hρ. cbn. rewrite E1, Hw, Z.mul_1_l.
    by apply bounded_small, eval_bounded. }
  rewrite CE_isZero_spec by done. ystep. case_step; unbool; [|apply created_alloc; done || is_plain].
  destruct cl as [w v]. cbn in *. subst v. apply created_const; [by apply Hc..|done|].
  intros ρ Hρ. cbn. destruct Hc. apply Z.mod_0_l. pose proof (pow2_pos w). cbn in *. lia.
Qed.

Lemma MulExpr_create_ok l r :
  wf l → wf r → getWidth l = getWidth r → MulExpr_create l r ⇓ created Mul l r.
Proof.
  intros Hl Hr Hw. unfold MulExpr_create. case_step; unbool; [|apply created_alloc; done || is_plain].
  eapply (created_bool And); try done; [congruence| |by apply created_alloc].
  by intros a b [-> | ->] [-> | ->].
Qed.

(** *** All kinds *)

Lemma BCREATE_R_ok k pR p c l r :
  is_core k = true → wf l → wf r → getWidth l = getWidth r → core_cost l r ≤ n →
  (∀ cl, wf_constant cl → cwidth cl = getWidth r → 2 * (1 + weight r) ≤ n →
    pR cl r ⇓ created k (Constant cl) r) →
  (∀ cr, wf_constant cr → getWidth l = cwidth cr → 2 * (1 + weight l) ≤ n →
    p l cr ⇓ created k l (Constant cr)) →
  (2 * (weight l + weight r) + 1 ≤ n → c l r ⇓ created k l r) →
  BCREATE_R k pR p c l r ⇓ created k l r.
Proof.
  intros Hk Hl Hr Hw Hn HpR Hp Hc. unfold BCREATE_R. ystep; [by apply Z.eqb_eq|].
  destruct (isConstant l) eqn:El; [destruct l as [cl| | | | | | | | |]; try done|].
  - rewrite core_cost_const_l in Hn.
    destruct (isConstant r) eqn:Er; [destruct r as [cr| | | | | | | | |]; try done|].
    + apply created_fold; try done. by destruct k.
    + destruct r; try done; by apply HpR.
  - destruct (isConstant r) eqn:Er; [destruct r as [cr| | | | | | | | |]; try done|].
    + rewrite core_cost_const_r in Hn. destruct l; try done; by apply Hp.
    + unfold core_cost in Hn. rewrite El, Er in Hn. destruct l, r; try done; by apply Hc.
Qed.

Lemma partial_by_comm k (m : outcome Expr) l r :
  is_comm k = true → getWidth l = getWidth r → m ⇓ created k l r → m ⇓ created k r l.
Proof. intros ?? Hm. eapply yields_mono; [done|]. intros. by apply created_comm. Qed.

Lemma core_step_ok k l r :
  is_core k = true → wf l → wf r → getWidth l = getWidth r → core_cost l r ≤ n →
  core_step create k l r ⇓ created k l r.
Proof.
  intros Hk Hl Hr Hw Hn.
  destruct k; try done; cbn [core_step]; (apply BCREATE_R_ok; [done..| | |]); intros;
    auto using AddExpr_createPartialR_ok, SubExpr_createPartialR_ok, MulExpr_createPartialR_ok,
      XorExpr_createPartialR_ok, EqExpr_createPartialR_ok, SubExpr_createPartial_ok,
      AndExpr_createPartial_ok, OrExpr_createPartial_ok, AddExpr_create_ok, SubExpr_create_ok,
      MulExpr_create_ok, AndExpr_create_ok, OrExpr_create_ok, XorExpr_create_ok, EqExpr_create_ok.
  all: apply partial_by_comm; [done..|].
  - by apply AddExpr_createPartialR_ok.
  - by apply MulExpr_createPartialR_ok.
  - by apply AndExpr_createPartial_ok.
  - by apply OrExpr_createPartial_ok.
  - by apply XorExpr_createPartialR_ok.
  - by apply EqExpr_createPartialR_ok.
Qed.

End steps.

Section creation_correct.
Context `{APIntLaws} `{WfStore} `{ObjectIdentity} `{Options}.

Lemma core_create_fuel_ok fuel k l r :
  is_core k = true → wf l → wf r → getWidth l = getWidth r → core_cost l r < Z.of_nat fuel →
  core_create_fuel fuel k l r ⇓ created k l r.
Proof.
  revert k l r. induction fuel as [|fuel IH]; intros k l r Hk Hl Hr Hw Hn.
  { pose proof (weight_pos l). pose proof (weight_pos r). unfold core_cost in Hn.
    destruct (_ || _); lia. }
  cbn [core_create_fuel]. apply (core_step_ok _ (Z.of_nat fuel)); try done; [|lia].
  intros k' cl cr Hk' Hwc Hf. destruct fuel as [|fuel]; [lia|]. cbn [core_create_fuel].
  destruct k'; try done; cbn [core_step]; unfold BCREATE_R; cbn; by rewrite Hwc, Z.eqb_refl.
Qed.

Lemma core_create_ok k l r :
  is_core k = true → wf l → wf r → getWidth l = getWidth r →
  core_create k l r ⇓ created k l r.
Proof. intros. apply core_create_fuel_ok; try done. lia. Qed.

Lemma createIsZero_ok e :
  wf e → createIsZero e ⇓ created Eq e (const 0 (getWidth e)).
Proof.
  intros He. pose proof (wf_width e He). unfold createIsZero, createIsZero_with.
  rewrite create_constant_spec by (auto with klee lia). ystep.
  apply core_create_ok; try done. split; cbn; auto with klee lia.
Qed.

(** The negation of a boolean expression. *)
Lemma createIsZero_bool e :
  wf e → getWidth e = Bool →
  createIsZero e ⇓ λ r, denotes r Bool (λ ρ, 1 - eval ρ e) ∧ weight r ≤ 2 + weight e ∧
    (∀ P, hereditary P → P e → P r).
Proof.
  intros He Hw. eapply yields_mono; [by apply createIsZero_ok|]. rewrite Hw.
  intros r [? Hwr Hwt Hev Hb]. split_and!; [split_and!; [done..|]| |].
  - intros ρ Hρ. rewrite Hev by (done || by intros (?&?&?)). cbn -[Z.sub]. bool_cases ρ.
  - cbn [weight] in Hwt. lia.
  - keeps.
Qed.

(** What [Binary_create] guarantees for all kinds.  A division at width 1 is
    only meant for a divisor that is not zero. *)
Record built (k : BinaryKind) (l r e : Expr) : Prop := {
  built_wf : wf e;
  built_width : getWidth e = bv_width k (getWidth l);
  built_weight : weight e ≤ weight (Binary k l r);
  built_eval ρ :
    wf_assignment ρ →
    (sensitive Eq (getWidth l) → in_bounds ρ l ∧ in_bounds ρ r) →
    (is_div k = true → getWidth l = Bool → eval ρ r ≠ 0) →
    eval ρ e = bv_eval k (getWidth l) (eval ρ l) (eval ρ r);
  built_keeps P : hereditary P → P l → P r → (plain k (getWidth l) = true → P (Binary k l r)) → P e;
}.

Lemma created_built k l r e : created k l r e → built k l r e.
Proof.
  intros [? ? ? Hev ?]. split; try done. intros ρ Hρ Hs _. apply Hev; [done|].
  intros (_&?&?). by apply Hs.
Qed.

Lemma built_swap k k' l r e :
  is_cmp k = true → is_cmp k' = true → getWidth l = getWidth r →
  (∀ w a b, bv_eval k w a b = bv_eval k' w b a) →
  (∀ a b, weight (Binary k a b) = weight (Binary k' b a)) → built k l r e → built k' r l e.
Proof.
  intros Hk Hk' Hw Hv Hwt [? Hwe Hwte Hev Hb]. split; try done; [| |..].
  - rewrite Hwe. unfold bv_width. by rewrite Hk, Hk'.
  - by rewrite <- Hwt.
  - intros ρ Hρ Hs _. rewrite <- Hw in Hs |- *. rewrite <- Hv. apply Hev; [done|intros ?; by apply and_comm, Hs|].
    by destruct k.
  - assert (is_total k = true) by (unfold is_total; by rewrite Hk, orb_true_r). keeps.
Qed.

Lemma BCREATE_ok k c l r :
  wf l → wf r → getWidth l = getWidth r →
  (∀ cl cr, l = Constant cl → r = Constant cr → ap_defined k (cwidth cl) (cvalue cr)) →
  c l r ⇓ built k l r → BCREATE k c l r ⇓ built k l r.
Proof.
  intros Hl Hr Hw Hd Hc. unfold BCREATE. ystep; [by apply Z.eqb_eq|].
  destruct l as [cl| | | | | | | | |]; try done. destruct r as [cr| | | | | | | | |]; try done.
  apply created_built, created_fold; auto.
Qed.

(** Functions that only differ from the allocation of the node at width 1. *)
Lemma built_bool k l r (m : outcome Expr) :
  wf l → wf r → getWidth l = getWidth r →
  is_core k = false → plain k 2 = true →
  (getWidth l = Bool → getWidth r = Bool → m ⇓ λ e, wf e ∧ getWidth e = Bool ∧
    weight e ≤ 6 + weight l + weight r ∧
    (∀ P, hereditary P → P l → P r → P e) ∧
    ∀ ρ, wf_assignment ρ → (is_div k = true → eval ρ r ≠ 0) →
      eval ρ e = bv_eval k 1 (eval ρ l) (eval ρ r)) →
  (if getWidth l =? Bool then m else Done (Binary k l r)) ⇓ built k l r.
Proof.
  intros Hl Hr Hw Hc Hpl Hm. destruct (getWidth l =? Bool) eqn:E; unbool.
  - eapply yields_mono; [by apply Hm; [|congruence]|]. intros e (?&Hwe&Hwt&Hk&Hev). split; [done|..].
    + rewrite Hwe, E. by destruct k.
    + by destruct k.
    + intros ρ Hρ _ Hd. rewrite E. apply Hev; auto.
    + keeps.
  - apply created_built, created_alloc; try done. destruct k; done || is_plain.
Qed.

(** [createIsZero] of [b], then [And] or [Or] with [a]. *)
Lemma with_negation_ok k a b :
  k = And ∨ k = Or → wf a → wf b → getWidth a = Bool → getWidth b = Bool →
  (nb ← createIsZero b; core_create k a nb) ⇓ λ e, wf e ∧ getWidth e = Bool ∧
    weight e ≤ 6 + weight a + weight b ∧
    (∀ P, hereditary P → P a → P b → P e) ∧
    ∀ ρ, wf_assignment ρ → eval ρ e = bv_eval k 1 (eval ρ a) (1 - eval ρ b).
Proof.
  intros Hk Ha Hb Hwa Hwb. ystep. eapply yields_mono; [by apply createIsZero_bool|].
  intros nb ((Hnb & Hwnb & Hvnb) & Hwtn & Hbnb).
  eapply yields_mono; [apply core_create_ok; [by destruct Hk as [-> | ->]|done..|congruence]|].
  intros e [? Hwe Hwt Hev Hbe]. assert (is_total k = true) by (by destruct Hk as [-> | ->]).
  split_and!; [done| |destruct Hk as [-> | ->]; cbn [weight] in Hwt; lia|keeps|].
  - rewrite Hwe, Hwa. by destruct Hk as [-> | ->].
  - intros ρ Hρ. rewrite Hev, Hwa, Hvnb; [done..|].
    by destruct Hk as [-> | ->]; intros [? _].
Qed.

Lemma negation_with_ok k a b :
  k = And ∨ k = Or → wf a → wf b → getWidth a = Bool → getWidth b = Bool →
  (na ← createIsZero a; core_create k na b) ⇓ λ e, wf e ∧ getWidth e = Bool ∧
    weight e ≤ 6 + weight a + weight b ∧
    (∀ P, hereditary P → P a → P b → P e) ∧
    ∀ ρ, wf_assignment ρ → eval ρ e = bv_eval k 1 (1 - eval ρ a) (eval ρ b).
Proof.
  intros Hk Ha Hb Hwa Hwb. ystep. eapply yields_mono; [by apply createIsZero_bool|].
  intros na ((Hna & Hwna & Hvna) & Hwtn & Hbna).
  eapply yields_mono; [apply core_create_ok; [by destruct Hk as [-> | ->]|done..|congruence]|].
  intros e [? Hwe Hwt Hev Hbe]. assert (is_total k = true) by (by destruct Hk as [-> | ->]).
  split_and!; [done| |destruct Hk as [-> | ->]; cbn [weight] in Hwt; lia|keeps|].
  - rewrite Hwe, Hwna. by destruct Hk as [-> | ->].
  - intros ρ Hρ. rewrite Hev, Hwna, Hvna; [done..|].
    by destruct Hk as [-> | ->]; intros [? _].
Qed.

(** The derived kinds at width 1: [l] itself, or a constant. *)
Lemma bool_division k l r :
  k = UDiv ∨ k = SDiv → wf l → wf r → getWidth l = Bool → getWidth r = Bool →
  wf l ∧ getWidth l = Bool ∧ weight l ≤ 6 + weight l + weight r ∧
  (∀ P, hereditary P → P l → P r → P l) ∧ ∀ ρ, wf_assignment ρ →
    (is_div k = true → eval ρ r ≠ 0) → eval ρ l = bv_eval k 1 (eval ρ l) (eval ρ r).
Proof.
  intros Hk Hl Hr Hwl Hwr. pose proof (weight_pos r). split_and!; try done; [lia|]. intros ρ Hρ Hd.
  assert (eval ρ r = 1) as ->.
  { destruct (eval_bool ρ r) as [Hr0|]; try done. rewrite Hr0 in Hd. by destruct Hk as [-> | ->], Hd. }
  destruct Hk as [-> | ->]; bool_cases ρ.
Qed.

Lemma bool_remainder k l r :
  k = URem ∨ k = SRem → wf l → wf r → getWidth l = Bool → getWidth r = Bool →
  create_constant 0 Bool ⇓ λ e, wf e ∧ getWidth e = Bool ∧ weight e ≤ 6 + weight l + weight r ∧
    (∀ P, hereditary P → P l → P r → P e) ∧ ∀ ρ, wf_assignment ρ →
    (is_div k = true → eval ρ r ≠ 0) → eval ρ e = bv_eval k 1 (eval ρ l) (eval ρ r).
Proof.
  intros Hk Hl Hr Hwl Hwr. rewrite create_constant_spec by done.
  pose proof (weight_pos l). pose proof (weight_pos r). split_and!; try done; [cbn; lia|keeps|].
  intros ρ Hρ Hd. assert (eval ρ r = 1) as ->.
  { destruct (eval_bool ρ r) as [Hr0|]; try done. rewrite Hr0 in Hd. by destruct Hk as [-> | ->], Hd. }
  destruct Hk as [-> | ->]; cbn [eval]; bool_cases ρ.
Qed.

Lemma NeExpr_create_ok l r :
  wf l → wf r → getWidth l = getWidth r → NeExpr_create l r ⇓ built Ne l r.
Proof.
  intros Hl Hr Hw. unfold NeExpr_create. rewrite create_constant_spec by done. ystep.
  ystep. eapply yields_mono; [by apply core_create_ok|]. intros e1 [He1 Hwe1 Hwt1 Hev1 Hb1].
  eapply yields_mono; [by apply core_create_ok|]. intros e2 [He2 Hwe2 Hwt2 Hev2 Hb2].
  split; [done..|cbn [weight] in *; lia| |].
  - intros ρ Hρ Hs _. rewrite Hev2, Hev1; [|done| |done|].
    + cbn. by destruct (_ =? _).
    + intros (_&?&?). by apply Hs.
    + by intros (_&?&_).
  - keeps.
Qed.

(** Proves a [built] goal at width 1 from the value of [e] on booleans. *)
Ltac bool_op lem :=
  apply built_bool; [done..|]; intros;
  eapply yields_mono; [apply lem; auto|]; intros e (?&?&?&?&Hev); split_and!; [done..|lia|keeps|];
  intros ρ Hρ _; rewrite (Hev ρ Hρ); bool_cases ρ.

Lemma comparisons_ok l r :
  wf l → wf r → getWidth l = getWidth r →
  (BCREATE Ult UltExpr_create l r ⇓ built Ult l r) ∧
  (BCREATE Ule UleExpr_create l r ⇓ built Ule l r) ∧
  (BCREATE Slt SltExpr_create l r ⇓ built Slt l r) ∧
  (BCREATE Sle SleExpr_create l r ⇓ built Sle l r).
Proof.
  intros Hl Hr Hw. split_and!; (apply BCREATE_ok; [done..|]).
  - bool_op (negation_with_ok And).
  - bool_op (negation_with_ok Or).
  - bool_op (with_negation_ok And).
  - bool_op (with_negation_ok Or).
Qed.

Lemma Binary_create_ok k l r :
  wf l → wf r → getWidth l = getWidth r →
  (∀ cl cr, l = Constant cl → r = Constant cr → ap_defined k (cwidth cl) (cvalue cr)) →
  Binary_create k l r ⇓ built k l r.
Proof.
  intros Hl Hr Hw Hd.
  assert (is_core k = true → core_create k l r ⇓ built k l r) as Hcore.
  { intros. eapply yields_mono; [by apply core_create_ok|]. intros. by apply created_built. }
  pose proof (comparisons_ok l r Hl Hr Hw) as Hcmp.
  pose proof (comparisons_ok r l Hr Hl ltac:(done)) as Hcmp'.
  destruct k; cbn [Binary_create]; try (by apply Hcore); try (by apply Hcmp);
    try (by apply NeExpr_create_ok); try (apply BCREATE_ok; [done..|]).
  - apply built_bool; try done. intros. apply yields_done, bool_division; auto.
  - apply built_bool; try done. intros. apply yields_done, bool_division; auto.
  - apply built_bool; try done. intros. apply bool_remainder; auto.
  - apply built_bool; try done. intros. apply bool_remainder; auto.
  - bool_op (with_negation_ok And).
  - bool_op (with_negation_ok And).
  - apply built_bool; try done. intros. apply yields_done. pose proof (weight_pos r).
    split_and!; [done..|lia|done|]. intros ρ Hρ _. bool_cases ρ.
  - eapply yields_mono; [by apply Hcmp'|]. intros e. apply built_swap; try done. cbn [weight]. lia.
  - eapply yields_mono; [by apply Hcmp'|]. intros e. apply built_swap; try done. cbn [weight]. lia.
  - eapply yields_mono; [by apply Hcmp'|]. intros e. apply built_swap; try done. cbn [weight]. lia.
  - eapply yields_mono; [by apply Hcmp'|]. intros e. apply built_swap; try done. cbn [weight]. lia.
Qed.

End creation_correct.

(** ** Properties *)

Section properties.
Context `{APIntLaws} `{WfStore} `{ObjectIdentity} `{Options}.

(** C1: the creation function of every binary kind, on well-formed operands of
    the same width, returns without failing an assertion; the simplified
    expression it returns is well formed, has the width of the operator's
    result and, under every assignment, the value of the operator.  What this
    takes: constant operands that [APInt] defines the operator on, a non-zero
    divisor for divisions at width 1, and, for equalities under
    [-const-array-opt] only, reads of constant arrays within bounds (which the
    result then preserves). *)
Theorem binary_creation_correct k l r :
  wf l → wf r → getWidth l = getWidth r →
  (∀ cl cr, l = Constant cl → r = Constant cr → ap_defined k (cwidth cl) (cvalue cr)) →
  Binary_create k l r ⇓ λ e,
    wf e ∧ getWidth e = (if is_cmp k then Bool else getWidth l) ∧
    ∀ ρ, wf_assignment ρ →
      ((ConstArrayOpt = true → getWidth l ≠ Bool → in_bounds ρ l ∧ in_bounds ρ r) →
       (is_div k = true → getWidth l = Bool → eval ρ r ≠ 0) →
       eval ρ e = bv_eval k (getWidth l) (eval ρ l) (eval ρ r)) ∧
      (in_bounds ρ l → in_bounds ρ r → in_bounds ρ e).
Proof.
  intros. eapply yields_mono; [by apply Binary_create_ok|]. intros e [Hwf Hw _ Hev Hb].
  split_and!; [done..|]. intros ρ Hρ. split; [|intros; by apply (Hb _ (in_bounds_hereditary ρ))]. intros Hs Hd.
  apply Hev; [done| |done]. intros (_&?&?). by apply Hs.
Qed.

(** C30: the mutually recursive normalisation of sums, differences, products,
    conjunctions, disjunctions and equalities terminates: a number of nested
    calls linear in the weight of the operands is enough, and the result never
    weighs more than the node it replaces. *)
Theorem normalisation_terminates k l r fuel :
  is_core k = true → wf l → wf r → getWidth l = getWidth r →
  2 * (weight l + weight r) + 1 < Z.of_nat fuel →
  core_create_fuel fuel k l r ⇓ λ e, weight e ≤ weight (Binary k l r).
Proof.
  intros. eapply yields_mono; [apply core_create_fuel_ok; try done|by intros e []].
  pose proof (core_cost_le l r). lia.
Qed.

(** [Expr::createIsZero] and [Expr::createImplies] on boolean expressions
    build the negation and the implication, for every assignment and whatever
    the options. *)
Theorem boolean_connectives_correct a b :
  wf a → wf b → getWidth a = Bool → getWidth b = Bool →
  (createIsZero a ⇓ λ e, denotes e Bool (λ ρ, if eval ρ a =? 1 then 0 else 1)) ∧
  (createImplies a b ⇓ λ e, denotes e Bool (λ ρ, if eval ρ a =? 1 then eval ρ b else 1)).
Proof.
  intros Ha Hb Hwa Hwb. split.
  - eapply yields_mono; [by apply createIsZero_bool|]. intros e [He _].
    eapply denotes_ext; [done|]. intros ρ Hρ. cbn -[Z.sub]. bool_cases ρ.
  - eapply yields_mono; [by apply (negation_with_ok Or); auto|]. intros e (?&?&_&_&Hev).
    split_and!; [done..|]. intros ρ Hρ. rewrite (Hev ρ Hρ). bool_cases ρ.
Qed.

End properties.

Section witnesses.
#[local] Existing Instance Sample.store.
#[local] Existing Instance Sample.store_wf.
Import Sample.

(** Pointer equality approximated by structural equality. *)
Definition identity : ObjectIdentity.
Proof. exists eqE. intros a b. apply eqE_eq. Defined.

Definition const_array_opt (b : bool) : Options := {| ConstArrayOpt := b |}.

#[local] Existing Instance identity.
#[local] Instance opt_on : Options := const_array_opt true.

Definition table_read : Expr := Read 1%positive NullNode (Concat (const 0 24) (input 0)).

(** The equality with a table entry becomes a disjunction on the index. *)
Lemma binary_creation_correct_witness :
  Binary_create Eq (const 20 8) table_read =
    Done (Binary Or (Binary Eq (const 1 32) (Concat (const 0 24) (input 0)))
      (Binary Eq (const 3 32) (Concat (const 0 24) (input 0)))) ∧
  Binary_create Eq (const 20 8) table_read ⇓ λ e,
    wf e ∧ getWidth e = (if is_cmp Eq then Bool else 8) ∧
    ∀ ρ, wf_assignment ρ →
      ((ConstArrayOpt = true → 8 ≠ Bool → in_bounds ρ (const 20 8) ∧ in_bounds ρ table_read) →
       (is_div Eq = true → 8 = Bool → eval ρ table_read ≠ 0) →
       eval ρ e = bv_eval Eq 8 (eval ρ (const 20 8)) (eval ρ table_read)) ∧
      (in_bounds ρ (const 20 8) → in_bounds ρ table_read → in_bounds ρ e).
Proof.
  split; [vm_compute; reflexivity|].
  apply (binary_creation_correct Eq (const 20 8) table_read); [done|repeat split; done|done..].
Defined.

Lemma normalisation_terminates_witness :
  core_create_fuel 18 Sub (Binary Add (const 3 8) (input 0)) (Binary Sub (const 5 8) (input 1)) ⇓
    λ e, weight e ≤ weight (Binary Sub (Binary Add (const 3 8) (input 0))
                                       (Binary Sub (const 5 8) (input 1))).
Proof.
  apply (normalisation_terminates Sub (Binary Add (const 3 8) (input 0))
    (Binary Sub (const 5 8) (input 1)) 18); (done || (repeat split; done)).
Defined.

(** The negation of a disjunction is a conjunction of negations. *)
Lemma boolean_connectives_correct_witness :
  let a := Binary Or (Binary Ult (input 0) (input 1)) (Binary Eq (const 0 8) (input 2)) in
  createIsZero a = Done (Binary And
    (Binary Eq (const 0 1) (Binary Ult (input 0) (input 1)))
    (Binary Eq (const 0 1) (Binary Eq (const 0 8) (input 2)))) ∧
  (createIsZero a ⇓ λ e, denotes e Bool (λ ρ, if eval ρ a =? 1 then 0 else 1)).
Proof.
  split; [vm_compute; reflexivity|].
  refine (proj1 (boolean_connectives_correct _ (const 0 1) _ _ _ _)); first [done|repeat split; done].
Defined.

(** Outside the bounds of the table the disjunction is not equivalent to the
    equality: the solver is free to choose the byte that is read, the
    disjunction is false. *)
Theorem const_array_opt_out_of_bounds :
  ∃ e ρ, Binary_create Eq (const 20 8) table_read = Done e ∧ wf_assignment ρ ∧
    eval ρ e = 0 ∧ eval ρ (Binary Eq (const 20 8) table_read) = 1.
Proof.
  eexists _, (λ _ _, 20). split; [vm_compute; reflexivity|]. split_and!; [|done..].
  intros ??. done.
Qed.
End witnesses.
