(* ===== verification/ExprSelectRead.v ===== *)
(** * Conditionals and reads: [SelectExpr::create], [ReadExpr::create],
      [Expr::createTempRead], [rebuild], [createFromKind] and the transfer of
      constants to and from memory, of [lib/Expr/Expr.cpp] and [klee/Expr.h] *)

From stdpp Require Import prelude.
From S2P Require Import Prelude Bitvec Bits APInt ExprData ExprConstants ExprCasts ExprBinary.
From S2P Require Import ExprBinaryProofs.

(** [SelectExpr::isConstantCases], on a [SelectExpr] *)
Fixpoint isConstantCases (e : Expr) : bool :=
  match e with
  | Select _ t f =>
      (if t is Select _ _ _ then isConstantCases t else isConstant t) &&
      (if f is Select _ _ _ then isConstantCases f else isConstant f)
  | _ => false
  end.

(** [SelectExpr::hasConstantCases], on a [SelectExpr] *)
Fixpoint hasConstantCases (e : Expr) : bool :=
  match e with
  | Select _ t f => isConstant t || isConstant f || hasConstantCases t || hasConstantCases f
  | _ => false
  end.

Section creation.
Context `{APIntOps} `{ArrayStore} `{ObjectIdentity} `{Options}.

(** The part of [SelectExpr::create] for boolean branches:
    [c ? t : f  <=> (c and t) or (not c and f)] *)
Definition select_bool (c t f : Expr) : outcome Expr :=
  match t, f with
  | Constant CE, _ =>
      b ← CE_isTrue CE;
      if (b : bool) then core_create Or c f
      else nc ← createIsZero c; core_create And nc f
  | _, Constant CE =>
      b ← CE_isTrue CE;
      if (b : bool) then nc ← createIsZero c; core_create Or nc t
      else core_create And c t
  | _, _ => Done (Select c t f)
  end.

(** [SelectExpr::create] *)
Fixpoint SelectExpr_create_fuel (fuel : nat) (c t f : Expr) : outcome Expr :=
  match fuel with
  | O => OutOfFuel
  | S fuel =>
      let kt := getWidth t in
      cassert (getWidth c =? Bool);;
      cassert (kt =? getWidth f);;
      match c with
      | Constant CE => b ← CE_isTrue CE; Done (if (b : bool) then t else f)
      | _ =>
        if eqE t f then Done t
        else match t, f with
        | Select se_cond se_true se_false, _ =>
            if eqE f se_false then
              c' ← core_create And c se_cond;
              SelectExpr_create_fuel fuel c' se_true f
            else if eqE f se_true then
              nc ← NotExpr_create se_cond;
              c' ← core_create And c nc;
              SelectExpr_create_fuel fuel c' se_false f
            else Done (Select c t f)
        | _, Select se_cond se_true se_false =>
            if eqE t se_true then
              c' ← core_create Or c se_cond;
              SelectExpr_create_fuel fuel c' t se_false
            else if eqE t se_false then
              nc ← NotExpr_create se_cond;
              c' ← core_create Or c nc;
              SelectExpr_create_fuel fuel c' t se_true
            else Done (Select c t f)
        | _, _ => if kt =? Bool then select_bool c t f else Done (Select c t f)
        end
      end
  end.

Definition SelectExpr_create (c t f : Expr) : outcome Expr :=
  SelectExpr_create_fuel (size t + size f) c t f.

(** The loop of [ReadExpr::create] over the updates, newest first. *)
Fixpoint read_scan (ul : UpdateList) (index : Expr) (un : UpdateNode) : outcome Expr :=
  match un with
  | NullNode => Done (Read (ul_root ul) (ul_head ul) index)
  | Node next un_index un_value =>
      cond ← core_create Eq index un_index;
      match cond with
      | Constant CE =>
          b ← CE_isTrue CE;
          if (b : bool) then Done un_value else read_scan ul index next
      | _ => Done (Read (ul_root ul) (ul_head ul) index)
      end
  end.

(** [ReadExpr::create] *)
Fixpoint ReadExpr_create (ul : UpdateList) (index : Expr) {struct index} : outcome Expr :=
  match index with
  | Select se_cond se_true se_false =>
      if hasConstantCases index then
        t ← ReadExpr_create ul se_true;
        f ← ReadExpr_create ul se_false;
        SelectExpr_create se_cond t f
      else read_scan ul index (ul_head ul)
  | _ => read_scan ul index (ul_head ul)
  end.

(** [Expr::createTempRead]: the bytes of the array, least significant first *)
Definition createTempRead (array : Array) (w : Z) : outcome Expr :=
  let ul := mkUpdateList array NullNode in
  let byte i := ReadExpr_create ul (Constant (alloc i Int32)) in
  if w =? Bool then b0 ← byte 0; ZExtExpr_create b0 Bool
  else if w =? Int8 then byte 0
  else if w =? Int16 then
    b1 ← byte 1; b0 ← byte 0; ConcatExpr_create b1 b0
  else if w =? Int32 then
    b3 ← byte 3; b2 ← byte 2; b1 ← byte 1; b0 ← byte 0; ConcatExpr_create4 b3 b2 b1 b0
  else if w =? Int64 then
    b7 ← byte 7; b6 ← byte 6; b5 ← byte 5; b4 ← byte 4;
    b3 ← byte 3; b2 ← byte 2; b1 ← byte 1; b0 ← byte 0;
    ConcatExpr_create8 b7 b6 b5 b4 b3 b2 b1 b0
  else AssertFailed.

(** [rebuild(kids)] of each subclass *)
Definition rebuild (this : Expr) (kids : list Expr) : outcome Expr :=
  match this, kids with
  | NotOptimized _, [k0] => Done (NotOptimized k0)
  | Read root head _, [k0] => ReadExpr_create (mkUpdateList root head) k0
  | Select _ _ _, [k0; k1; k2] => SelectExpr_create k0 k1 k2
  | Concat _ _, [k0; k1] => ConcatExpr_create k0 k1
  | Extract _ offset width, [k0] => ExtractExpr_create k0 offset width
  | ZExt _ w, [k0] => ZExtExpr_create k0 w
  | SExt _ w, [k0] => SExtExpr_create k0 w
  | Not _, [k0] => NotExpr_create k0
  | Binary k _ _, [k0; k1] => Binary_create k k0 k1
  | _, _ => AssertFailed
  end.

(** [Expr::CreateArg]: an expression or a width *)
Inductive CreateArg : Set := ExprArg (e : Expr) | WidthArg (w : Z).

(** The kinds that [Expr::createFromKind] is given. *)
Inductive Kind : Set :=
| KConstant | KNotOptimized | KRead | KSelect | KConcat | KExtract | KZExt | KSExt | KNot
| KBinary (k : BinaryKind).

(** [Expr::createFromKind] *)
Definition createFromKind (k : Kind) (args : list CreateArg) : outcome Expr :=
  match k, args with
  | KNotOptimized, [ExprArg e] => Done (NotOptimized e)
  | KSelect, [ExprArg c; ExprArg t; ExprArg f] => SelectExpr_create c t f
  | KConcat, [ExprArg l; ExprArg r] => ConcatExpr_create l r
  | KZExt, [ExprArg e; WidthArg w] => ZExtExpr_create e w
  | KSExt, [ExprArg e; WidthArg w] => SExtExpr_create e w
  | KBinary k, [ExprArg l; ExprArg r] => Binary_create k l r
  | _, _ => AssertFailed
  end.

(** ** Constants in memory *)

(** The little-endian object of [n] bytes at the start of [mem]. *)
Fixpoint load (n : nat) (mem : list Z) : outcome Z :=
  match n, mem with
  | O, _ => Done 0
  | S n, b :: mem => v ← load n mem; Done (b + 256 * v)
  | S _, [] => AssertFailed
  end.

Fixpoint store (n : nat) (v : Z) (mem : list Z) : outcome (list Z) :=
  match n, mem with
  | O, _ => Done mem
  | S n, _ :: mem => mem' ← store n (v / 256) mem; Done (v mod 256 :: mem')
  | S _, [] => AssertFailed
  end.

(** The number of bytes of the types that [fromMemory] and [toMemory] handle. *)
Definition memory_bytes (width : Z) : option nat :=
  if width =? Bool then Some 1%nat
  else if width =? Int8 then Some 1%nat
  else if width =? Int16 then Some 2%nat
  else if width =? Int32 then Some 4%nat
  else if width =? Int64 then Some 8%nat
  else None.

(** [ConstantExpr::fromMemory] *)
Definition fromMemory (mem : list Z) (width : Z) : outcome ConstantExpr :=
  match memory_bytes width with
  | Some n => v ← load n mem; ConstantExpr_create v width
  | None => AssertFailed
  end.

(** [ConstantExpr::toMemory] *)
Definition toMemory (c : ConstantExpr) (mem : list Z) : outcome (list Z) :=
  match memory_bytes (cwidth c) with
  | Some n => v ← getZExtValue c (cwidth c); store n v mem
  | None => AssertFailed
  end.

End creation.

(** ** Correctness *)

Section select_correct.
Context `{APIntLaws} `{WfStore} `{ObjectIdentity} `{Options}.

Lemma core_bool_ok k a b :
  k = And ∨ k = Or → wf a → wf b → getWidth a = Bool → getWidth b = Bool →
  core_create k a b ⇓ λ e, denotes e Bool (λ ρ, bv_eval k 1 (eval ρ a) (eval ρ b)).
Proof.
  intros Hk Ha Hb Hwa Hwb.
  eapply yields_mono; [apply core_create_ok; [by destruct Hk as [-> | ->]|done..|congruence]|].
  intros e [? Hwe _ Hev _]. split_and!; [done| |].
  - rewrite Hwe, Hwa. by destruct Hk as [-> | ->].
  - intros ρ Hρ. rewrite Hev, Hwa; [done..|]. by destruct Hk as [-> | ->]; intros [? _].
Qed.

Lemma NotExpr_create_bool e :
  wf e → getWidth e = Bool → NotExpr_create e ⇓ λ r, denotes r Bool (λ ρ, 1 - eval ρ e).
Proof.
  intros He Hw. eapply yields_mono; [by apply NotExpr_create_spec|]. intros r Hr.
  rewrite Hw in Hr. eapply denotes_ext; [done|]. intros ρ Hρ. cbn -[Z.sub]. bool_cases ρ.
Qed.

(** The value of a conditional. *)
Definition ite (c t f : Z) : Z := if c =? 1 then t else f.

Lemma select_alloc_ok c t f :
  wf c → wf t → wf f → getWidth c = Bool → getWidth t = getWidth f →
  denotes (Select c t f) (getWidth t) (λ ρ, ite (eval ρ c) (eval ρ t) (eval ρ f)).
Proof. done. Qed.

(** A boolean branch that is constant. *)
Lemma bool_const_value CE : wf_constant CE → cwidth CE = Bool → cvalue CE = 0 ∨ cvalue CE = 1.
Proof. intros [_ Hc] Hw. rewrite Hw in Hc. unfold bounded in Hc. change (2 ^ Bool) with 2 in Hc. lia. Qed.

Lemma const_true_branch c CE f :
  wf c → wf_constant CE → wf f → getWidth c = Bool → cwidth CE = Bool → getWidth f = Bool →
  (b ← CE_isTrue CE;
   if (b : bool) then core_create Or c f else nc ← createIsZero c; core_create And nc f)
  ⇓ λ r, denotes r Bool (λ ρ, ite (eval ρ c) (cvalue CE) (eval ρ f)).
Proof.
  intros Hc HCE Hf Hwc HwCE Hwf. rewrite CE_isTrue_spec by done. ystep.
  destruct (bool_const_value CE HCE HwCE) as [Hv|Hv]; rewrite Hv; cbn [Z.eqb].
  - eapply yields_mono; [by apply (negation_with_ok And); auto|]. intros e (?&?&_&_&Hev).
    split_and!; [done..|]. intros ρ Hρ. rewrite (Hev ρ Hρ). unfold ite. bool_cases ρ.
  - eapply yields_mono; [by apply core_bool_ok; auto|]. intros e He.
    eapply denotes_ext; [exact He|]. intros ρ Hρ. unfold ite. cbn. bool_cases ρ.
Qed.

Lemma const_false_branch c t CE :
  wf c → wf_constant CE → wf t → getWidth c = Bool → cwidth CE = Bool → getWidth t = Bool →
  (b ← CE_isTrue CE;
   if (b : bool) then nc ← createIsZero c; core_create Or nc t else core_create And c t)
  ⇓ λ r, denotes r Bool (λ ρ, ite (eval ρ c) (eval ρ t) (cvalue CE)).
Proof.
  intros Hc HCE Ht Hwc HwCE Hwt. rewrite CE_isTrue_spec by done. ystep.
  destruct (bool_const_value CE HCE HwCE) as [Hv|Hv]; rewrite Hv; cbn [Z.eqb].
  - eapply yields_mono; [by apply core_bool_ok; auto|]. intros e He.
    eapply denotes_ext; [exact He|]. intros ρ Hρ. unfold ite. cbn. bool_cases ρ.
  - eapply yields_mono; [by apply (negation_with_ok Or); auto|]. intros e (?&?&_&_&Hev).
    split_and!; [done..|]. intros ρ Hρ. rewrite (Hev ρ Hρ). unfold ite. bool_cases ρ.
Qed.

Lemma select_bool_ok c t f :
  wf c → wf t → wf f → getWidth c = Bool → getWidth t = Bool → getWidth f = Bool →
  select_bool c t f ⇓ λ r, denotes r Bool (λ ρ, ite (eval ρ c) (eval ρ t) (eval ρ f)).
Proof.
  intros Hc Ht Hf Hwc Hwt Hwf. unfold select_bool.
  assert (denotes (Select c t f) Bool (λ ρ, ite (eval ρ c) (eval ρ t) (eval ρ f))) as Ha.
  { rewrite <- Hwt. apply select_alloc_ok; try done. congruence. }
  destruct t as [CE| | | | | | | | |]; [by apply const_true_branch|..];
    (destruct f as [CE| | | | | | | | |]; [by apply const_false_branch|done..]).
Qed.

(** A nested conditional is merged: [c'] decides between [t'] and [f']. *)
Lemma select_merge (sel : Expr → Expr → Expr → outcome Expr) (m : outcome Expr) g c t f t' f' :
  (∀ c', wf c' → getWidth c' = Bool →
    sel c' t' f' ⇓ λ r, denotes r (getWidth t) (λ ρ, ite (eval ρ c') (eval ρ t') (eval ρ f'))) →
  m ⇓ (λ c', denotes c' Bool g) →
  (∀ ρ, wf_assignment ρ →
    ite (g ρ) (eval ρ t') (eval ρ f') = ite (eval ρ c) (eval ρ t) (eval ρ f)) →
  (c' ← m; sel c' t' f') ⇓ λ r,
    denotes r (getWidth t) (λ ρ, ite (eval ρ c) (eval ρ t) (eval ρ f)).
Proof.
  intros Hsel Hm Hv. ystep. eapply yields_mono; [exact Hm|]. intros c' (Hc' & Hw & Hg).
  eapply yields_mono; [by apply Hsel|]. intros r Hr. eapply denotes_ext; [exact Hr|].
  intros ρ Hρ. cbn. by rewrite Hg, Hv.
Qed.

Lemma negate_and_merge k c d :
  k = And ∨ k = Or → wf c → wf d → getWidth c = Bool → getWidth d = Bool →
  (nc ← NotExpr_create d; core_create k c nc) ⇓ λ e,
    denotes e Bool (λ ρ, bv_eval k 1 (eval ρ c) (1 - eval ρ d)).
Proof.
  intros. ystep. eapply yields_mono; [by apply NotExpr_create_bool|]. intros nd (?&?&Hv).
  eapply yields_mono; [by apply core_bool_ok|]. intros e He.
  eapply denotes_ext; [exact He|]. intros ρ Hρ. cbn -[Z.sub]. by rewrite Hv.
Qed.

Lemma outcome_assoc {A B C} (m : outcome A) (f : A → outcome B) (g : B → outcome C) :
  (x ← m; y ← f x; g y) = (y ← (x ← m; f x); g y).
Proof. by destruct m. Qed.

(** What the merging branches assume of the recursive call. *)
Definition select_ok (sel : Expr → Expr → Expr → outcome Expr) (n : nat) : Prop :=
  ∀ c t f, wf c → wf t → wf f → getWidth c = Bool → getWidth t = getWidth f →
    (size t + size f ≤ n)%nat →
    sel c t f ⇓ λ r, denotes r (getWidth t) (λ ρ, ite (eval ρ c) (eval ρ t) (eval ρ f)).

Section merging.
Variables (sel : Expr → Expr → Expr → outcome Expr) (n : nat).
Hypothesis Hsel : select_ok sel n.

Lemma merge_true_ok c d a b f :
  wf c → wf (Select d a b) → wf f → getWidth c = Bool → getWidth a = getWidth f →
  (size (Select d a b) + size f ≤ S n)%nat →
  (if eqE f b then c' ← core_create And c d; sel c' a f
   else if eqE f a then nc ← NotExpr_create d; c' ← core_create And c nc; sel c' b f
   else Done (Select c (Select d a b) f))
  ⇓ λ r, denotes r (getWidth (Select d a b))
      (λ ρ, ite (eval ρ c) (eval ρ (Select d a b)) (eval ρ f)).
Proof.
  intros Hc (Hd & Ha & Hb & Hwd & Hwab) Hf Hwc Hw Hsz. cbn in Hsz.
  destruct (eqE f b) eqn:E1; uneq; [subst f|destruct (eqE f a) eqn:E2; uneq; [subst f|done]].
  - apply (select_merge sel _ (λ ρ, bv_eval And 1 (eval ρ c) (eval ρ d)) c (Select d a b) b).
    + intros. cbn [getWidth]. apply Hsel; (done || lia).
    + by apply core_bool_ok; auto.
    + intros ρ Hρ. unfold ite. cbn. bool_cases ρ.
  - rewrite outcome_assoc.
    apply (select_merge sel _ (λ ρ, bv_eval And 1 (eval ρ c) (1 - eval ρ d)) c (Select d a b) a).
    + intros. cbn [getWidth]. rewrite Hwab. apply Hsel; (done || lia).
    + by apply negate_and_merge; auto.
    + intros ρ Hρ. unfold ite. cbn -[Z.sub]. bool_cases ρ.
Qed.

Lemma merge_false_ok c t d a b :
  wf c → wf t → wf (Select d a b) → getWidth c = Bool → getWidth t = getWidth a →
  (size t + size (Select d a b) ≤ S n)%nat →
  (if eqE t a then c' ← core_create Or c d; sel c' t b
   else if eqE t b then nc ← NotExpr_create d; c' ← core_create Or c nc; sel c' t a
   else Done (Select c t (Select d a b)))
  ⇓ λ r, denotes r (getWidth t) (λ ρ, ite (eval ρ c) (eval ρ t) (eval ρ (Select d a b))).
Proof.
  intros Hc Ht (Hd & Ha & Hb & Hwd & Hwab) Hwc Hw Hsz. cbn in Hsz.
  destruct (eqE t a) eqn:E1; uneq; [subst t|destruct (eqE t b) eqn:E2; uneq; [subst t|done]].
  - apply (select_merge sel _ (λ ρ, bv_eval Or 1 (eval ρ c) (eval ρ d)) c a (Select d a b)).
    + intros. apply Hsel; (done || lia).
    + by apply core_bool_ok; auto.
    + intros ρ Hρ. unfold ite. cbn. bool_cases ρ.
  - rewrite outcome_assoc.
    apply (select_merge sel _ (λ ρ, bv_eval Or 1 (eval ρ c) (1 - eval ρ d)) c b (Select d a b)).
    + intros. apply Hsel; (done || lia).
    + by apply negate_and_merge; auto.
    + intros ρ Hρ. unfold ite. cbn -[Z.sub]. bool_cases ρ.
Qed.
End merging.

Lemma SelectExpr_create_fuel_ok fuel : select_ok (SelectExpr_create_fuel fuel) fuel.
Proof.
  induction fuel as [|fuel IH]; intros c t f Hc Ht Hf Hwc Hw Hsz.
  { destruct t; cbn in Hsz; lia. }
  cbn [SelectExpr_create_fuel]. do 2 (ystep; [by apply Z.eqb_eq|]).
  pose proof (select_alloc_ok c t f Hc Ht Hf Hwc Hw) as Halloc.
  set (rest := if eqE t f then Done t else _).
  cut (rest ⇓ λ r, denotes r (getWidth t) (λ ρ, ite (eval ρ c) (eval ρ t) (eval ρ f))).
  { intros Hrest. destruct c as [CE| | | | | | | | |]; try exact Hrest.
    rewrite CE_isTrue_spec by done. ystep. unfold ite. cbn [eval].
    destruct (cvalue CE =? 1); (split_and!; [done|congruence|done]). }
  unfold rest. clear rest. destruct (eqE t f) eqn:E.
  { uneq. subst. split_and!; [done..|]. intros. unfold ite. by case_step. }
  assert ((if getWidth t =? Bool then select_bool c t f else Done (Select c t f)) ⇓ λ r,
    denotes r (getWidth t) (λ ρ, ite (eval ρ c) (eval ρ t) (eval ρ f))) as Hfin.
  { destruct (getWidth t =? Bool) eqn:EB; [|done]. unbool. rewrite EB.
    apply select_bool_ok; try done. congruence. }
  destruct t; try (by apply (merge_true_ok _ fuel));
    (destruct f; try exact Hfin; by apply (merge_false_ok _ fuel)).
Qed.

Lemma SelectExpr_create_ok c t f :
  wf c → wf t → wf f → getWidth c = Bool → getWidth t = getWidth f →
  SelectExpr_create c t f ⇓ λ r,
    denotes r (getWidth t) (λ ρ, ite (eval ρ c) (eval ρ t) (eval ρ f)).
Proof. intros. by apply SelectExpr_create_fuel_ok. Qed.

End select_correct.

Section read_correct.
Context `{APIntLaws} `{WfStore} `{ObjectIdentity} `{Options}.

(** The indices of all updates are within bounds. *)
Fixpoint nodes_in_bounds (ρ : assignment) (un : UpdateNode) : Prop :=
  match un with
  | NullNode => True
  | Node next index _ => in_bounds ρ index ∧ nodes_in_bounds ρ next
  end.

(** When the equalities that [ReadExpr::create] builds are meaningful. *)
Definition read_safe (ρ : assignment) (head : UpdateNode) (index : Expr) : Prop :=
  ConstArrayOpt = true → in_bounds ρ index ∧ nodes_in_bounds ρ head.

(** [denotes], for the assignments in [P]. *)
Definition denotes_if (P : assignment → Prop) (e : Expr) (w : Z) (f : assignment → Z) : Prop :=
  wf e ∧ getWidth e = w ∧ ∀ ρ, wf_assignment ρ → P ρ → eval ρ e = f ρ.

Lemma read_scan_ok root head index un :
  wf_nodes head → wf_nodes un → wf index → getWidth index = Int32 →
  (∀ ρ, read_safe ρ head index → read_safe ρ un index) →
  (∀ ρ, wf_assignment ρ → read_safe ρ head index →
    eval_read ρ root un (eval ρ index) = eval_read ρ root head (eval ρ index)) →
  read_scan (mkUpdateList root head) index un ⇓ λ r,
    denotes_if (λ ρ, read_safe ρ head index) r Int8 (λ ρ, eval_read ρ root head (eval ρ index)).
Proof.
  intros Hh Hun Hi Hw Hsafe Hinv. induction un as [|next IH ui uv]; [done|].
  destruct Hun as (Hnext & Hui & Hwui & Huv & Hwuv). cbn [read_scan].
  ystep. eapply yields_mono; [by apply core_create_ok; [..|congruence]|].
  intros cond [Hwf Hwc _ Hev _]. destruct cond as [CE| | | | | | | | |]; try done.
  cbn in Hwc. rewrite CE_isTrue_spec by done. ystep.
  assert (∀ ρ, wf_assignment ρ → read_safe ρ head index →
    (cvalue CE =? 1) = (eval ρ ui =? eval ρ index)) as Hcond.
  { intros ρ Hρ Hs. change (cvalue CE) with (eval ρ (Constant CE)). rewrite Hev; [|done|].
    - cbn. rewrite (Z.eqb_sym (eval ρ ui)). by destruct (eval ρ index =? _).
    - intros (_&_&Hopt). by destruct (Hsafe ρ Hs Hopt) as [? [? _]]. }
  destruct (cvalue CE =? 1) eqn:E.
  - split_and!; [done..|]. intros ρ Hρ Hs. rewrite <- Hinv by done. cbn.
    by rewrite <- (Hcond ρ Hρ Hs).
  - apply IH; [done| |].
    + intros ρ Hs Hopt. by destruct (Hsafe ρ Hs Hopt) as [? [_ ?]].
    + intros ρ Hρ Hs. rewrite <- Hinv by done. cbn. by rewrite <- (Hcond ρ Hρ Hs).
Qed.

Lemma ReadExpr_create_ok root head index :
  wf_nodes head → wf index → getWidth index = Int32 →
  ReadExpr_create (mkUpdateList root head) index ⇓ λ r,
    denotes_if (λ ρ, read_safe ρ head index) r Int8 (λ ρ, eval_read ρ root head (eval ρ index)).
Proof.
  intros Hh. induction index as [| | |c _ t IHt f IHf| | | | | |]; intros Hi Hw;
    try (by apply read_scan_ok).
  cbn [ReadExpr_create ul_head]. destruct (hasConstantCases _); [|by apply read_scan_ok].
  destruct Hi as (Hc & Ht & Hf & Hwc & Hwtf). cbn in Hw.
  ystep. eapply yields_mono; [by apply IHt|]. intros rt (?&Hwrt&Hvt).
  ystep. eapply yields_mono; [by apply IHf; [|congruence]|]. intros rf (?&Hwrf&Hvf).
  eapply yields_mono; [apply SelectExpr_create_ok; [done..|congruence]|].
  intros r (?&Hwr&Hv). split_and!; [done|congruence|]. intros ρ Hρ Hs. rewrite Hv by done.
  unfold ite. cbn. destruct (eval ρ c =? 1) eqn:E; [apply Hvt|apply Hvf]; try done;
    intros Hopt; destruct (Hs Hopt) as [[_ Hb] ?]; by rewrite E in Hb.
Qed.

(** The value of the first [n] bytes of an array, least significant first. *)
Fixpoint little_endian (ρ : assignment) (a : Array) (i n : nat) : Z :=
  match n with
  | O => 0
  | S n => initial_byte ρ a (Z.of_nat i) + 256 * little_endian ρ a (S i) n
  end.

Lemma byte_read_ok array i :
  0 ≤ i < 256 →
  ReadExpr_create (mkUpdateList array NullNode) (Constant (alloc i Int32)) ⇓ λ r,
    denotes r Int8 (λ ρ, initial_byte ρ array i).
Proof.
  intros Hi. assert (i `bits` Int32) by (unfold bounded, Int32; lia). rewrite alloc_small by done.
  eapply yields_mono; [by apply ReadExpr_create_ok|]. intros r (?&?&Hv). split_and!; [done..|].
  intros ρ Hρ. by apply Hv.
Qed.
Lemma bv_concat_add wr l r : 0 ≤ wr → r `bits` wr → bv_concat wr l r = r + 2 ^ wr * l.
Proof.
  intros Hw Hr. unfold bv_concat.
  pose proof (Z.add_lor_land (Z.shiftl l wr) r) as Hsum. rewrite Z.shiftl_mul_pow2 in * by done.
  assert (Z.land (l * 2 ^ wr) r = 0) as Hz; [|lia].
  apply Z.bits_inj'. intros i Hi. rewrite Z.land_spec, Z.testbit_0_l.
  destruct (decide (i < wr)).
  - by rewrite Z.mul_pow2_bits_low.
  - by rewrite (testbit_high wr r), andb_false_r by (done || lia).
Qed.

Lemma little_endian_bounded ρ a i n :
  wf_assignment ρ → little_endian ρ a i n `bits` (8 * Z.of_nat n).
Proof.
  intros Hρ. revert i. induction n as [|n IH]; intros i; [done|]. cbn [little_endian].
  specialize (IH (S i)). pose proof (initial_byte_bounded ρ a (Z.of_nat i) Hρ) as Hb.
  unfold bounded in *. replace (8 * Z.of_nat (S n)) with (8 + 8 * Z.of_nat n) by lia.
  rewrite pow2_add by lia. change (2 ^ 8) with 256 in *. lia.
Qed.

Lemma little_endian_snoc ρ a i n :
  little_endian ρ a i (S n) =
  little_endian ρ a i n + 2 ^ (8 * Z.of_nat n) * initial_byte ρ a (Z.of_nat (i + n)).
Proof.
  revert i. induction n as [|n IH]; intros i.
  { cbn [little_endian]. rewrite Nat.add_0_r. change (2 ^ (8 * Z.of_nat 0)) with 1. lia. }
  cbn [little_endian] in *. rewrite (IH (S i)).
  replace (8 * Z.of_nat (S n)) with (8 + 8 * Z.of_nat n) by lia.
  rewrite pow2_add by lia. change (2 ^ 8) with 256. replace (i + S n)%nat with (S i + n)%nat by lia.
  lia.
Qed.

(** The reads of the bytes of [a], the last one first. *)
Fixpoint are_bytes (a : Array) (kids : list Expr) : Prop :=
  match kids with
  | [] => True
  | k :: kids =>
      denotes k Int8 (λ ρ, initial_byte ρ a (Z.of_nat (length kids))) ∧ are_bytes a kids
  end.

Lemma are_bytes_value a kids :
  are_bytes a kids →
  Forall wf kids ∧ total_width kids = 8 * Z.of_nat (length kids) ∧
  ∀ ρ, wf_assignment ρ → concat_value ρ kids = little_endian ρ a 0 (length kids).
Proof.
  induction kids as [|k kids IH]; intros Hk; [done|]. destruct Hk as [(Hwf & Hw & Hv) Hks].
  destruct (IH Hks) as (Hwfs & Hws & Hvs). split_and!.
  - by constructor.
  - cbn [total_width length]. rewrite Hw, Hws. unfold Int8. lia.
  - intros ρ Hρ. cbn [concat_value length]. rewrite little_endian_snoc, bv_concat_add.
    + rewrite Hvs, Hv, Hws by done. done.
    + lia.
    + rewrite Hvs, Hws by done. by apply little_endian_bounded.
Qed.

Lemma concat_bytes_ok a kids :
  are_bytes a kids → (0 < length kids ≤ 8)%nat →
  ConcatExpr_createN kids ⇓ λ r,
    denotes r (8 * Z.of_nat (length kids)) (λ ρ, little_endian ρ a 0 (length kids)).
Proof.
  intros Hk Hlen. destruct (are_bytes_value a kids Hk) as (Hwf & Hw & Hv).
  eapply yields_mono; [apply ConcatExpr_createN_spec; [by destruct kids; [cbn in *; lia|]|done|lia]|].
  intros r Hr. rewrite Hw in Hr. by eapply denotes_ext.
Qed.

Lemma ConcatExpr_create_createN l r : ConcatExpr_create l r = ConcatExpr_createN [l; r].
Proof. unfold ConcatExpr_createN. cbn. by destruct (ConcatExpr_create l r). Qed.

(** Decides the comparison of the width in [createTempRead]. *)
Ltac width_case :=
  repeat match goal with |- (if ?a =? ?b then _ else _) ⇓ _ =>
    let v := eval vm_compute in (a =? b) in change (a =? b) with v; cbv iota
  end.

Ltac read_bytes :=
  repeat (apply yields_bind; eapply yields_mono; [apply byte_read_ok; lia|];
    let b := fresh "b" in let Hb := fresh "Hb" in intros b Hb; cbn beta).

Lemma createTempRead_ok array n :
  n = 1%nat ∨ n = 2%nat ∨ n = 4%nat ∨ n = 8%nat →
  createTempRead array (8 * Z.of_nat n) ⇓ λ r,
    denotes r (8 * Z.of_nat n) (λ ρ, little_endian ρ array 0 n).
Proof.
  intros Hn. unfold createTempRead. destruct Hn as [-> | [-> | [-> | ->]]]; width_case.
  - eapply yields_mono; [apply byte_read_ok; lia|]. intros r Hr.
    eapply denotes_ext; [exact Hr|]. intros. cbn [little_endian]. change (Z.of_nat 0) with 0. lia.
  - read_bytes. rewrite ConcatExpr_create_createN.
    apply (concat_bytes_ok array [b; b0]); [by repeat (split; [done|])|cbn; lia].
  - read_bytes. rewrite create4_createN.
    apply (concat_bytes_ok array [b; b0; b1; b2]); [by repeat (split; [done|])|cbn; lia].
  - read_bytes. rewrite create8_createN.
    apply (concat_bytes_ok array [b; b0; b1; b2; b3; b4; b5; b6]); [by repeat (split; [done|])|cbn; lia].
Qed.

Lemma createTempRead_bool array :
  createTempRead array Bool ⇓ λ r, denotes r Bool (λ ρ, initial_byte ρ array 0 mod 2).
Proof.
  unfold createTempRead. width_case. read_bytes. destruct Hb as (Hwf & Hw & Hv).
  eapply yields_mono; [by apply ZExtExpr_create_spec|]. intros r Hr.
  eapply denotes_ext; [exact Hr|]. intros ρ Hρ. cbn. rewrite Hv by done. unfold bv_extract.
  by rewrite Z.shiftr_0_r.
Qed.
End read_correct.

(** ** Rebuilding *)

Section rebuild_correct.
Context `{APIntLaws} `{WfStore} `{ObjectIdentity} `{Options}.

(** [this] with other kids. *)
Definition replace_kids (this : Expr) (kids : list Expr) : Expr :=
  match this, kids with
  | NotOptimized _, [k0] => NotOptimized k0
  | Read root head _, [k0] => Read root head k0
  | Select _ _ _, [k0; k1; k2] => Select k0 k1 k2
  | Concat _ _, [k0; k1] => Concat k0 k1
  | Extract _ offset width, [k0] => Extract k0 offset width
  | ZExt _ w, [k0] => ZExt k0 w
  | SExt _ w, [k0] => SExt k0 w
  | Not _, [k0] => Not k0
  | Binary k _ _, [k0; k1] => Binary k k0 k1
  | _, _ => this
  end.

(** The conditions of [ReadExpr::create] and of the binary kinds. *)
Definition rebuild_safe (ρ : assignment) (this : Expr) (kids : list Expr) : Prop :=
  match this, kids with
  | Read _ head _, [k0] => read_safe ρ head k0
  | Binary k _ _, [l; r] =>
      (sensitive Eq (getWidth l) → in_bounds ρ l ∧ in_bounds ρ r) ∧
      (is_div k = true → getWidth l = Bool → eval ρ r ≠ 0)
  | _, _ => True
  end.

Definition rebuild_defined (this : Expr) (kids : list Expr) : Prop :=
  match this, kids with
  | Binary k _ _, [Constant cl; Constant cr] => ap_defined k (cwidth cl) (cvalue cr)
  | _, _ => True
  end.

Definition same_type (k k' : Expr) : Prop := wf k ∧ getWidth k = getWidth k'.

Lemma denotes_weaken P e w w' f g :
  denotes e w f → w = w' → (∀ ρ, wf_assignment ρ → f ρ = g ρ) → denotes_if P e w' g.
Proof. intros (?&?&Hf) <- Hg. split_and!; [done..|]. intros. by rewrite Hf, Hg. Qed.

Ltac rebuild_by lem :=
  eapply yields_mono; [apply lem; (done || lia || congruence)|];
  let r := fresh in let Hr := fresh in
  intros r Hr; eapply denotes_weaken; [exact Hr|(done || congruence)|try done].

Lemma rebuild_ok this kids :
  wf this → isConstant this = false → Forall2 same_type kids (getKids this) →
  rebuild_defined this kids →
  rebuild this kids ⇓ λ r,
    denotes_if (λ ρ, rebuild_safe ρ this kids) r (getWidth this)
      (λ ρ, eval ρ (replace_kids this kids)).
Proof.
  intros Hwf Hnc Hkids Hdef.
  destruct this as [|x|root head x|c t f|l r|x off w|x w|x w|x|k l r]; try done; cbn in Hkids;
    repeat match goal with
    | H : Forall2 _ _ (_ :: _) |- _ =>
        apply Forall2_cons_inv_r in H as (? & ? & [? ?] & H & ->)
    | H : Forall2 _ _ [] |- _ => apply Forall2_nil_inv_r in H as ->
    end; cbn [rebuild replace_kids getWidth]; cbn in Hwf; destruct_and?.
  - by split_and!.
  - apply ReadExpr_create_ok; (done || congruence).
  - rebuild_by SelectExpr_create_ok.
  - rebuild_by ConcatExpr_create_spec.
  - rebuild_by ExtractExpr_create_spec.
  - pose proof (wf_width x ltac:(done)). rebuild_by ZExtExpr_create_spec. intros ρ Hρ. cbn.
    apply (extract_0_le _ (getWidth x0)); [lia|]. by apply eval_bounded.
  - pose proof (wf_width x ltac:(done)). rebuild_by SExtExpr_create_spec.
  - rebuild_by NotExpr_create_spec.
  - eapply yields_mono; [apply Binary_create_ok; try done; [congruence|]|].
    + by intros cl cr -> ->.
    + intros e [? Hw _ Hev _]. split_and!; [done|rewrite Hw; unfold bv_width; case_step; done || congruence|].
      intros ρ Hρ [??]. by apply Hev.
Qed.

(** The argument vector for [createFromKind] that describes [e]. *)
Definition kind_of (e : Expr) : Kind :=
  match e with
  | Constant _ => KConstant | NotOptimized _ => KNotOptimized | Read _ _ _ => KRead
  | Select _ _ _ => KSelect | Concat _ _ => KConcat | Extract _ _ _ => KExtract
  | ZExt _ _ => KZExt | SExt _ _ => KSExt | Not _ => KNot | Binary k _ _ => KBinary k
  end.

Definition create_args (e : Expr) : list CreateArg :=
  (ExprArg <$> getKids e) ++
  match e with ZExt _ w | SExt _ w => [WidthArg w] | _ => [] end.

End rebuild_correct.

(** *** Memory *)

Lemma store_ok n v mem :
  (n ≤ length mem)%nat → v `bits` (8 * Z.of_nat n) →
  store n v mem ⇓ λ mem', load n mem' = Done v ∧ length mem' = length mem ∧
    drop n mem' = drop n mem ∧ Forall (λ b, b `bits` 8) (take n mem').
Proof.
  revert v mem. induction n as [|n IH]; intros v mem Hlen Hv.
  { cbn. split_and!; [|done..]. f_equal. unfold bounded in Hv.
    change (2 ^ (8 * Z.of_nat 0)) with 1 in *. lia. }
  destruct mem as [|b mem]; cbn in Hlen; [lia|]. cbn [store].
  assert (v / 256 `bits` (8 * Z.of_nat n)).
  { unfold bounded in *. replace (8 * Z.of_nat (S n)) with (8 + 8 * Z.of_nat n) in Hv by lia.
    rewrite pow2_add in Hv by lia. change (2 ^ 8) with 256 in Hv.
    split; [apply Z.div_pos; lia|apply Z.div_lt_upper_bound; lia]. }
  ystep. eapply yields_mono; [apply IH; [lia|done]|]. intros mem' (Hl & Hlen' & Hd & Hall).
  cbn. rewrite Hl. cbn. split_and!; [|lia|done|].
  - f_equal. pose proof (Z.div_mod v 256 ltac:(lia)). lia.
  - constructor; [|done]. apply Z.mod_pos_bound. lia.
Qed.

Lemma memory_bytes_spec w n : memory_bytes w = Some n → 0 < w ≤ 64 ∧ w ≤ 8 * Z.of_nat n.
Proof.
  unfold memory_bytes. intros Hw.
  repeat match type of Hw with (if ?b then _ else _) = _ => destruct b eqn:?; unbool end;
    simplify_eq; split; done.
Qed.

(** ** Properties *)

Section properties.
Context `{APIntLaws} `{WfStore} `{ObjectIdentity} `{Options}.

(** [SelectExpr::create] terminates and never fails an assertion on
    well-typed operands; whichever of its merging and boolean simplifications
    it applies, the result has the value of the branch that the condition
    selects. *)
Theorem select_creation_correct c t f :
  wf c → wf t → wf f → getWidth c = Bool → getWidth t = getWidth f →
  SelectExpr_create c t f ⇓ λ r,
    denotes r (getWidth t) (λ ρ, if eval ρ c =? 1 then eval ρ t else eval ρ f).
Proof. apply SelectExpr_create_ok. Qed.

(** [ReadExpr::create], which resolves the read against the update list
    and splits it over a conditional index, returns an expression with the
    value of the newest update at the index, or of the initial array when no
    update is at the index.  (Under [-const-array-opt] the indices must not
    read a constant array out of bounds.) *)
Theorem read_creation_correct root head index :
  wf_nodes head → wf index → getWidth index = Int32 →
  ReadExpr_create (mkUpdateList root head) index ⇓ λ r,
    wf r ∧ getWidth r = Int8 ∧ ∀ ρ, wf_assignment ρ →
      (ConstArrayOpt = true → in_bounds ρ index ∧ nodes_in_bounds ρ head) →
      eval ρ r = eval_read ρ root head (eval ρ index).
Proof. apply ReadExpr_create_ok. Qed.

(** [Expr::createTempRead] of 1, 2, 4 or 8 bytes has the little-endian value
    of the first bytes of the array; at width 1 it is the lowest bit of the
    first byte. *)
Theorem temp_read_little_endian array n :
  n = 1%nat ∨ n = 2%nat ∨ n = 4%nat ∨ n = 8%nat →
  (createTempRead array (8 * Z.of_nat n) ⇓ λ r,
    denotes r (8 * Z.of_nat n) (λ ρ, little_endian ρ array 0 n)) ∧
  (createTempRead array Bool ⇓ λ r, denotes r Bool (λ ρ, initial_byte ρ array 0 mod 2)).
Proof. intros. split; [by apply createTempRead_ok|apply createTempRead_bool]. Qed.

(** [rebuild] with kids of the same types has the value of the node with
    its kids replaced, although it goes through the simplifying creation
    functions; [createFromKind] on the kind and the arguments of a node does
    the same, for the kinds it supports. *)
Theorem rebuild_correct this kids :
  wf this → isConstant this = false → Forall2 same_type kids (getKids this) →
  rebuild_defined this kids →
  (rebuild this kids ⇓ λ r, wf r ∧ getWidth r = getWidth this ∧
    ∀ ρ, wf_assignment ρ → rebuild_safe ρ this kids →
      eval ρ r = eval ρ (replace_kids this kids)) ∧
  (kind_of this ≠ KRead → kind_of this ≠ KExtract → kind_of this ≠ KNot →
   createFromKind (kind_of this) (create_args (replace_kids this kids)) = rebuild this kids).
Proof.
  intros Hwf Hnc Hkids Hdef. split; [by apply rebuild_ok|]. intros.
  destruct this; try done; cbn in Hkids;
    repeat match goal with
    | H : Forall2 _ _ (_ :: _) |- _ => apply Forall2_cons_inv_r in H as (? & ? & _ & H & ->)
    | H : Forall2 _ _ [] |- _ => apply Forall2_nil_inv_r in H as ->
    end; done.
Qed.

(** A constant of one of the supported widths written with [toMemory] is
    read back by [fromMemory]; the write changes only the bytes of the
    constant. *)
Theorem memory_roundtrip c n mem :
  wf_constant c → memory_bytes (cwidth c) = Some n → (n ≤ length mem)%nat →
  toMemory c mem ⇓ λ mem',
    fromMemory mem' (cwidth c) = Done c ∧ length mem' = length mem ∧ drop n mem' = drop n mem.
Proof.
  intros [Hw Hv] Hn Hlen. unfold toMemory, fromMemory. rewrite Hn.
  rewrite getZExtValue_spec by done. ystep. destruct (memory_bytes_spec _ _ Hn) as [? Hle].
  eapply yields_mono; [apply store_ok; [done|]|].
  - eapply bounded_mono; [|done]. lia.
  - intros mem' (Hl & ? & ? & _). rewrite Hl. cbn. rewrite ConstantExpr_create_spec by done.
    by destruct c.
Qed.

End properties.

Section witnesses.
#[local] Existing Instance Sample.store.
#[local] Existing Instance Sample.store_wf.
#[local] Existing Instance identity.
#[local] Instance opt_on : Options := const_array_opt true.
Import Sample.

(** Nested conditionals with a common branch are merged. *)
Lemma select_creation_correct_witness :
  let p := Binary Ult (input 0) (input 1) in
  let q := Binary Ult (input 1) (input 2) in
  SelectExpr_create p (Select q (input 3) (input 0)) (input 0) =
    Done (Select (Binary And p q) (input 3) (input 0)) ∧
  (SelectExpr_create p (Select q (input 3) (input 0)) (input 0) ⇓ λ r,
    denotes r 8 (λ ρ, if eval ρ p =? 1 then eval ρ (Select q (input 3) (input 0))
                      else eval ρ (input 0))).
Proof.
  split; [vm_compute; reflexivity|].
  refine (select_creation_correct _ _ _ _ _ _ _ _); first [done|repeat split; done].
Defined.

(** The read is resolved past an update at another constant index. *)
Lemma read_creation_correct_witness :
  let head := Node (Node NullNode (const 1 32) (input 3)) (const 2 32) (const 7 8) in
  ReadExpr_create (mkUpdateList 2%positive head) (const 1 32) = Done (input 3) ∧
  (ReadExpr_create (mkUpdateList 2%positive head) (const 1 32) ⇓ λ r,
    wf r ∧ getWidth r = Int8 ∧ ∀ ρ, wf_assignment ρ →
      (ConstArrayOpt = true → in_bounds ρ (const 1 32) ∧ nodes_in_bounds ρ head) →
      eval ρ r = eval_read ρ 2%positive head (eval ρ (const 1 32))).
Proof.
  split; [vm_compute; reflexivity|].
  refine (read_creation_correct 2%positive _ (const 1 32) _ _ _); first [done|repeat split; done].
Defined.

Lemma temp_read_little_endian_witness :
  createTempRead 2%positive 16 ⇓ λ r, denotes r 16 (λ ρ, little_endian ρ 2%positive 0 2).
Proof. exact (proj1 (temp_read_little_endian 2%positive 2 (or_intror (or_introl eq_refl)))). Defined.

Lemma rebuild_correct_witness :
  rebuild (Binary Add (input 0) (input 1)) [const 250 8; const 10 8] ⇓ λ r,
    wf r ∧ getWidth r = 8 ∧ ∀ ρ, wf_assignment ρ →
      rebuild_safe ρ (Binary Add (input 0) (input 1)) [const 250 8; const 10 8] →
      eval ρ r = eval ρ (Binary Add (const 250 8) (const 10 8)).
Proof.
  refine (proj1 (rebuild_correct (Binary Add (input 0) (input 1)) [const 250 8; const 10 8] _ _ _ _));
    [repeat split; done|done| |done].
  repeat constructor; done.
Defined.

Lemma memory_roundtrip_witness :
  toMemory (mkConstant 16 0x1234) [0; 0; 9] = Done [0x34; 0x12; 9] ∧
  (toMemory (mkConstant 16 0x1234) [0; 0; 9] ⇓ λ mem',
    fromMemory mem' 16 = Done (mkConstant 16 0x1234) ∧ length mem' = 3%nat ∧
    drop 2 mem' = drop 2 [0; 0; 9]).
Proof.
  split; [reflexivity|].
  refine (memory_roundtrip (mkConstant 16 0x1234) 2 [0; 0; 9] _ _ _); [done|done|cbn; lia].
Defined.
End witnesses.
