(* ===== verification/ExprMeasure.v ===== *)
(** * The weight of created expressions

    No creation function returns an expression that weighs more than the node it
    stands for, and each returns an expression in any class of expressions that is
    closed under the constructors it uses.  This bounds the recursion of passes
    that rebuild an expression and go on with the result. *)

From stdpp Require Import prelude.
From S2P Require Import Prelude Bitvec Bits APInt ExprData ExprConstants ExprCasts ExprBinary.
From S2P Require Import ExprBinaryProofs ExprSelectRead.

(** A class of expressions that has the operands of its members, and is closed
    under the constructors other than divisions and shifts *)
Record closed (P : Expr → Prop) : Prop := {
  closed_hereditary : hereditary P;
  closed_optimized e : P (NotOptimized e) ↔ P e;
  closed_extract e off w : P (Extract e off w) ↔ P e;
  closed_zext e w : P (ZExt e w) ↔ P e;
  closed_sext e w : P (SExt e w) ↔ P e;
  closed_not e : P (Not e) ↔ P e;
  closed_concat l r : P (Concat l r) ↔ P l ∧ P r;
  closed_select c t f : P (Select c t f) ↔ P c ∧ P t ∧ P f;
  closed_index root head i i' : P (Read root head i) → P i' → P (Read root head i');
  closed_update root next j v i : P (Read root (Node next j v) i) → P v ∧ P (Read root next i);
}.

Section measure.
Context `{APIntLaws} `{WfStore} `{ObjectIdentity} `{Options}.
Context (P : Expr → Prop) (HP : closed P).

(** [r] may stand for [e]. *)
Definition light (n : Z) (r : Expr) : Prop := weight r ≤ n ∧ P r.

Lemma light_le n m r : light n r → n ≤ m → light m r.
Proof. intros [? ?]. split; [lia|done]. Qed.

Lemma light_const n c : 1 ≤ n → light n (Constant c).
Proof. intros. split; [cbn; lia|apply (closed_hereditary _ HP)]. Qed.

Lemma light_self e : P e → light (weight e) e.
Proof. by split. Qed.

(** ** Casts *)

Definition extract_light (extract : Expr → Z → Z → outcome Expr) (n : nat) : Prop :=
  ∀ e off w, wf e → (size e ≤ n)%nat → 0 ≤ off → 0 < w → off + w ≤ getWidth e → P e →
    extract e off w ⇓ light (1 + 2 * weight e).

Lemma ZExt_widen_light extract e w :
  wf e → getWidth e < w → P e → ZExtExpr_create_with extract e w ⇓ light (1 + weight e).
Proof.
  intros He Hw Hp. pose proof (weight_pos e). unfold ZExtExpr_create_with.
  rewrite (proj2 (Z.eqb_neq _ _)), (proj2 (Z.ltb_ge _ _)) by lia.
  assert (light (1 + weight e) (ZExt e w)) as Hz by (split; [cbn; lia|by apply (closed_zext _ HP)]).
  destruct e as [c|?|? ? ?|? ? ?|? ?|? ? ?|x zew|? ?|?|? ? ?]; try done.
  - by apply light_const.
  - case_step; [|done]. split; [cbn; lia|]. by rewrite (closed_zext _ HP) in Hp |- *.
Qed.

Lemma ZExt_light extract n e w :
  extract_light extract n → wf e → (size e ≤ n)%nat → getWidth e ≤ w → P e →
  ZExtExpr_create_with extract e w ⇓ light (1 + weight e).
Proof.
  intros Hex He Hsz Hw Hp. destruct (decide (getWidth e = w)) as [<-|].
  - unfold ZExtExpr_create_with. rewrite Z.eqb_refl. split; [lia|done].
  - apply ZExt_widen_light; [done|lia|done].
Qed.

Lemma SExt_light extract e w :
  wf e → getWidth e ≤ w → P e → SExtExpr_create_with extract e w ⇓ light (1 + weight e).
Proof.
  intros He Hw Hp. pose proof (weight_pos e). unfold SExtExpr_create_with.
  destruct (w =? getWidth e) eqn:E; unbool; [split; [lia|done]|].
  rewrite (proj2 (Z.ltb_ge _ _)) by lia.
  assert (light (1 + weight e) (SExt e w)) as Hz by (split; [cbn; lia|by apply (closed_sext _ HP)]).
  destruct e; try done. by apply light_const.
Qed.

Lemma Concat_light extract n l r :
  extract_light extract n → wf l → wf r → getWidth l + getWidth r ≤ 64 →
  extract_kid_le l n → extract_kid_le r n → P l → P r →
  ConcatExpr_create_with extract l r ⇓ light (1 + weight l + weight r).
Proof.
  intros Hex Hl Hr Hw Hkl Hkr Pl Pr. unfold ConcatExpr_create_with.
  pose proof (wf_width l Hl). pose proof (wf_width r Hr).
  pose proof (weight_pos l). pose proof (weight_pos r).
  rewrite (u32_small (getWidth l + getWidth r)) by lia.
  assert (light (1 + weight l + weight r) (Concat l r)) as Ha by (split; [cbn; lia|by apply (closed_concat _ HP)]).
  set (merge := match l, r with Extract _ _ _, Extract _ _ _ => _ | _, _ => _ end).
  assert (merge ⇓ light (1 + weight l + weight r)) as Hmerge.
  { unfold merge. destruct l as [?|?|? ? ?|? ? ?|? ?|el ol wl|? ?|? ?|?|? ? ?]; try done.
    destruct r as [?|?|? ? ?|? ? ?|? ?|er or wr|? ?|? ?|?|? ? ?]; try done.
    destruct (_ && _) eqn:E; [|done]. uneq. subst er. destruct Hl as (?&?&?&?), Hr as (_&?&?&?).
    cbn in *. pose proof (wf_width el ltac:(done)). rewrite u32_small in * by lia. subst ol.
    eapply yields_mono; [apply Hex; [done..|lia|lia|by apply (closed_extract _ HP) in Pl]|].
    intros c Hc. eapply light_le; [done|]. lia. }
  assert (ZExtExpr_create_with extract r (getWidth l + getWidth r) ⇓ light (1 + weight l + weight r)) as Hz.
  { eapply yields_mono; [apply ZExt_widen_light; [done|lia|done]|].
    intros c Hc. eapply light_le; [done|]. lia. }
  destruct l as [lCE|?|? ? ?|? ? ?|? ?|? ? ?|? ?|? ?|?|? ? ?]; try apply Hmerge.
  assert ((zero ← CE_isZero lCE;
      if (zero : bool) then ZExtExpr_create_with extract r (getWidth (Constant lCE) + getWidth r)
      else merge) ⇓ light (1 + weight (Constant lCE) + weight r)) as Hzero.
  { rewrite CE_isZero_spec by done. ystep. by case_step. }
  destruct r; try apply Hzero. apply light_const. cbn. lia.
Qed.

Lemma Extract_fuel_light fuel : extract_light (ExtractExpr_create_fuel fuel) fuel.
Proof.
  induction fuel as [|fuel IH]; intros e off w He Hsz Hoff Hw Hle Hp.
  { destruct e; cbn in Hsz; lia. }
  pose proof (wf_width e He) as Hwe. pose proof (weight_pos e). cbn [ExtractExpr_create_fuel].
  rewrite (wf_u32 e (off + w)) by (done || lia).
  ystep; [rewrite andb_true_iff, Z.ltb_lt, Z.leb_le; lia|].
  destruct (w =? getWidth e) eqn:E1; unbool; [split; [lia|done]|].
  assert (light (1 + 2 * weight e) (Extract e off w)) as Ha
    by (split; [cbn; lia|by apply (closed_extract _ HP)]).
  destruct e as [c|?|? ? ?|? ? ?|l r|? ? ?|x zew|x sew|?|? ? ?]; try done.
  - by apply light_const.
  - destruct He as (Hl & Hr & Hlr). cbn in Hsz, Hle. apply (closed_concat _ HP) in Hp as [Pl Pr].
    pose proof (wf_width l Hl). pose proof (wf_width r Hr).
    pose proof (weight_pos l). pose proof (weight_pos r). cbn [weight].
    destruct (getWidth r <=? off) eqn:E2; unbool.
    { rewrite u32_small by lia. eapply yields_mono; [apply IH; done || lia|].
      intros c Hc. eapply light_le; [done|lia]. }
    destruct (off + w <=? getWidth r) eqn:E3; unbool.
    { eapply yields_mono; [apply IH; done || lia|]. intros c Hc. eapply light_le; [done|lia]. }
    rewrite !u32_small by (cbn in *; lia).
    ystep. eapply yields_mono;
      [apply yields_and; [apply ExtractExpr_create_fuel_spec|apply IH]; cbn in *; done || lia|].
    intros el [[(Hel & Hwl & _) Hkl] [Htl Pel]].
    ystep. eapply yields_mono;
      [apply yields_and; [apply ExtractExpr_create_fuel_spec|apply IH]; cbn in *; done || lia|].
    intros er [[(Her & Hwr & _) Hkr] [Htr Per]].
    eapply yields_mono; [apply (Concat_light _ fuel); try done|].
    + cbn in *. lia.
    + by apply (extract_kid_le_mono _ (size l)); [lia|].
    + by apply (extract_kid_le_mono _ (size r)); [lia|].
    + intros c Hc. eapply light_le; [done|]. lia.
  - destruct He as [Hx Hzw]. cbn in Hle, Hsz. apply (closed_zext _ HP) in Hp as Px.
    pose proof (weight_pos x). cbn [weight].
    destruct (_ && (off =? 0)) eqn:E2; unbool; [split; [lia|done]|].
    clear E2. destruct (_ && (off =? 0)) eqn:E2; unbool; [|done].
    eapply yields_mono; [apply (ZExt_light _ fuel); done || lia|]. intros c Hc. eapply light_le; [done|lia].
  - destruct He as [Hx Hzw]. apply (closed_sext _ HP) in Hp as Px. pose proof (weight_pos x). cbn [weight].
    destruct (_ && _) eqn:E2; [|done]. split; [lia|done].
Qed.

Lemma Extract_light e off w :
  wf e → 0 ≤ off → 0 < w → off + w ≤ getWidth e → P e →
  ExtractExpr_create e off w ⇓ light (weight (Extract e off w)).
Proof. intros. by apply Extract_fuel_light. Qed.

Lemma Extract_create_light n : extract_light ExtractExpr_create n.
Proof. intros e off w ? _ ????. by apply Extract_fuel_light. Qed.

Lemma Not_light e : wf e → P e → NotExpr_create e ⇓ light (1 + weight e).
Proof.
  intros He Hp. pose proof (weight_pos e).
  assert (light (1 + weight e) (Not e)) by (split; [cbn; lia|by apply (closed_not _ HP)]).
  destruct e; try done. by apply light_const.
Qed.

(** ** Conditionals *)

Lemma core_light k l r :
  is_core k = true → wf l → wf r → getWidth l = getWidth r → P l → P r →
  core_create k l r ⇓ λ e, wf e ∧ getWidth e = bv_width k (getWidth l) ∧
    light (weight (Binary k l r)) e.
Proof.
  intros. pose proof (closed_hereditary _ HP) as Hher.
  eapply yields_mono; [by apply core_create_ok|]. intros e [? ? ? _ Hk]. split; [done|]. split; [done|].
  split; [done|]. apply (Hk P); try done. intros Hpl. apply Hher; [by apply is_core_total|done..].
Qed.

Lemma isZero_light e :
  wf e → getWidth e = Bool → P e → createIsZero e ⇓ λ r, wf r ∧ getWidth r = Bool ∧
    light (2 + weight e) r.
Proof.
  intros. eapply yields_mono; [by apply createIsZero_bool|]. intros r ((?&?&_)&?&Hk).
  do 3 (split; [done|]). by apply (Hk P); [apply HP|].
Qed.

(** A negation or the condition itself, joined to another condition *)
Lemma join_light k c (m : outcome Expr) n :
  k = And ∨ k = Or → wf c → getWidth c = Bool → P c →
  m ⇓ (λ d, wf d ∧ getWidth d = Bool ∧ light n d) →
  (d ← m; core_create k c d) ⇓ λ e, wf e ∧ getWidth e = Bool ∧ light (4 + weight c + n) e.
Proof.
  intros Hk Hc Hw Pc Hm. ystep. eapply yields_mono; [exact Hm|]. intros d (Hd & Hwd & Hn & Pd).
  eapply yields_mono; [apply core_light; [by destruct Hk as [-> | ->]|done..|congruence|done|done]|].
  intros e (?&Hwe&He). split_and!; [done| |].
  - rewrite Hwe, Hw. by destruct Hk as [-> | ->].
  - eapply light_le; [exact He|]. destruct Hk as [-> | ->]; cbn [weight]; lia.
Qed.

Lemma join_self_light k c d :
  k = And ∨ k = Or → wf c → getWidth c = Bool → P c → wf d → getWidth d = Bool → P d →
  core_create k c d ⇓ λ e, wf e ∧ getWidth e = Bool ∧ light (4 + weight c + weight d) e.
Proof.
  intros. change (core_create k c d) with (d ← Done d; core_create k c d).
  by apply join_light.
Qed.

Lemma join_not_light k c d :
  k = And ∨ k = Or → wf c → getWidth c = Bool → P c → wf d → getWidth d = Bool → P d →
  (nd ← NotExpr_create d; core_create k c nd) ⇓ λ e,
    wf e ∧ getWidth e = Bool ∧ light (5 + weight c + weight d) e.
Proof.
  intros Hk Hc Hwc Pc Hd Hwd Pd. eapply yields_mono; [apply (join_light _ _ _ (1 + weight d)); try done|].
  - eapply yields_mono; [apply yields_and; [by apply NotExpr_create_spec|by apply Not_light]|].
    intros nd [(?&?&_) ?]. split_and!; [done|congruence|done].
  - intros e (?&?&He). split_and!; [done..|]. eapply light_le; [exact He|]. lia.
Qed.

Lemma select_bool_light c t f :
  wf c → wf t → wf f → getWidth c = Bool → getWidth t = Bool → getWidth f = Bool →
  P c → P t → P f → select_bool c t f ⇓ light (10 + weight c + weight t + weight f).
Proof.
  intros Hc Ht Hf Hwc Hwt Hwf Pc Pt Pf. pose proof (weight_pos t). pose proof (weight_pos f).
  assert (light (10 + weight c + weight t + weight f) (Select c t f)) as Ha
    by (split; [cbn; lia|by apply (closed_select _ HP)]).
  assert (∀ k x, k = And ∨ k = Or → wf x → getWidth x = Bool → P x → weight x ≤ weight t + weight f →
    (core_create k c x ⇓ light (10 + weight c + weight t + weight f)) ∧
    ((nc ← createIsZero c; core_create k nc x) ⇓ light (10 + weight c + weight t + weight f))) as Hop.
  { intros k x Hk Hx Hwx Px Hle. split.
    - eapply yields_mono; [by apply join_self_light|]. intros e (_&_&He). eapply light_le; [exact He|lia].
    - ystep. eapply yields_mono; [by apply isZero_light|]. intros nc (?&?&Hnc&?).
      eapply yields_mono; [by apply join_self_light|]. intros e (_&_&He). eapply light_le; [exact He|lia]. }
  unfold select_bool.
  destruct t as [CE| | | | | | | | |]; (try destruct f as [CE'| | | | | | | | |]); try done;
    rewrite CE_isTrue_spec by done; ystep; case_step; apply Hop; auto; cbn in *; lia.
Qed.

Definition select_light (sel : Expr → Expr → Expr → outcome Expr) (n : nat) : Prop :=
  ∀ c t f, wf c → wf t → wf f → getWidth c = Bool → getWidth t = getWidth f →
    (size t + size f ≤ n)%nat → P c → P t → P f →
    sel c t f ⇓ light (10 + weight c + weight t + weight f).

(** A nested conditional is merged. *)
Lemma merge_light sel n (m : outcome Expr) k t f :
  select_light sel n → wf t → wf f → getWidth t = getWidth f → (size t + size f ≤ n)%nat →
  P t → P f → m ⇓ (λ c, wf c ∧ getWidth c = Bool ∧ light k c) →
  (c ← m; sel c t f) ⇓ light (10 + k + weight t + weight f).
Proof.
  intros Hsel ?????? Hm. ystep. eapply yields_mono; [exact Hm|]. intros c (?&?&?&?).
  eapply yields_mono; [by apply Hsel|]. intros r Hr. eapply light_le; [exact Hr|lia].
Qed.

Ltac merge_by := eapply yields_mono;
  [eapply merge_light; [eassumption|..]; try done; try (cbn [size] in *; lia);
   first [by apply join_self_light; auto | by apply join_not_light; auto
     | cbn [getWidth] in *; congruence]
  |let Hr := fresh in intros ? Hr; eapply light_le; [exact Hr|cbn [weight]; lia]].

Lemma Select_fuel_light fuel : select_light (SelectExpr_create_fuel fuel) fuel.
Proof.
  induction fuel as [|fuel IH]; intros c t f Hc Ht Hf Hwc Hw Hsz Pc Pt Pf.
  { destruct t; cbn in Hsz; lia. }
  cbn [SelectExpr_create_fuel]. do 2 (ystep; [by apply Z.eqb_eq|]).
  pose proof (weight_pos c). pose proof (weight_pos t). pose proof (weight_pos f).
  assert (light (10 + weight c + weight t + weight f) (Select c t f)) as Ha
    by (split; [cbn; lia|by apply (closed_select _ HP)]).
  set (rest := if eqE t f then Done t else _).
  cut (rest ⇓ light (10 + weight c + weight t + weight f)).
  { intros Hrest. destruct c as [CE| | | | | | | | |]; try exact Hrest.
    rewrite CE_isTrue_spec by done. ystep. case_step; split; done || lia. }
  unfold rest. clear rest. destruct (eqE t f) eqn:E; [split; done || lia|].
  assert ((if getWidth t =? Bool then select_bool c t f else Done (Select c t f)) ⇓
    light (10 + weight c + weight t + weight f)) as Hfin.
  { destruct (getWidth t =? Bool) eqn:EB; [|done]. unbool. apply select_bool_light; try done. congruence. }
  destruct t as [| | |d a b| | | | | |];
    try (destruct f as [| | |d a b| | | | | |]; try exact Hfin);
    match goal with Hs : wf (Select _ _ _), Ps : P (Select _ _ _) |- _ =>
      apply (closed_select _ HP) in Ps as (Pd & Pa & Pb); destruct Hs as (Hd & Ha' & Hb & Hwd & Hwab);
      pose proof (weight_pos d); pose proof (weight_pos a); pose proof (weight_pos b);
      cbn [size] in Hsz; cbn [getWidth] in Hw
    end; repeat case_step; try done; rewrite ?outcome_assoc; merge_by.
Qed.

Lemma Select_light c t f :
  wf c → wf t → wf f → getWidth c = Bool → getWidth t = getWidth f → P c → P t → P f →
  SelectExpr_create c t f ⇓ light (weight (Select c t f)).
Proof. intros. by apply Select_fuel_light. Qed.

(** ** Reads *)

Lemma weight_read_select root head c t f :
  10 + weight c + weight (Read root head t) + weight (Read root head f) ≤
  weight (Read root head (Select c t f)).
Proof.
  pose proof (weight_pos c). destruct head as [|next i v]; cbn [weight].
  - case_bool_decide; lia.
  - pose proof (proj2 weights_pos (Node next i v)). pose proof (weight_pos t). pose proof (weight_pos f). nia.
Qed.

Lemma weight_read_value root next i v index :
  nodes_weight (Node next i v) ≤ weight (Read root (Node next i v) index).
Proof.
  pose proof (proj2 weights_pos (Node next i v)). pose proof (weight_pos index). cbn [weight]. nia.
Qed.

Lemma weight_read_mono root head i i' :
  weight i ≤ weight i' → weight (Read root head i) ≤ weight (Read root head i').
Proof.
  intros. destruct head as [|next j v]; cbn [weight].
  - case_bool_decide; lia.
  - pose proof (proj2 weights_pos (Node next j v)). nia.
Qed.

Lemma read_scan_light root head index un :
  wf_nodes head → wf_nodes un → wf index → getWidth index = Int32 → P (Read root head index) →
  P (Read root un index) →
  (un = NullNode ∨ nodes_weight un ≤ weight (Read root head index)) →
  read_scan (mkUpdateList root head) index un ⇓ light (weight (Read root head index)).
Proof.
  intros Hh Hun Hi Hw Ph. induction un as [|next IH ui uv]; [by intros; apply light_self|].
  intros Pun [|Hn]; [done|]. destruct Hun as (Hnext & Hui & Hwui & Huv & Hwuv). cbn [read_scan].
  apply (closed_update _ HP) in Pun as [Pv Pn]. cbn [nodes_weight] in Hn.
  pose proof (proj2 weights_pos next). pose proof (weight_pos uv).
  ystep. eapply yields_mono; [by apply core_create_ok; [..|congruence]|].
  intros cond [Hwf Hwc _ _ _]. destruct cond as [CE| | | | | | | | |]; try by apply light_self.
  cbn in Hwc. rewrite CE_isTrue_spec by done. ystep. case_step.
  - split; [lia|done].
  - apply IH; [done..|]. right. lia.
Qed.

Lemma Read_light root head index :
  wf_nodes head → wf index → getWidth index = Int32 → P (Read root head index) →
  ReadExpr_create (mkUpdateList root head) index ⇓ light (weight (Read root head index)).
Proof.
  intros Hh Hi Hw Pr.
  assert (∀ i, wf i → getWidth i = Int32 → P i →
    read_scan (mkUpdateList root head) i head ⇓ light (weight (Read root head i))) as Hscan.
  { intros i Hi' Hw' Pi. pose proof (closed_index _ HP _ _ _ _ Pr Pi). apply read_scan_light; try done.
    destruct head; [by left|right; apply weight_read_value]. }
  pose proof (her_index _ (closed_hereditary _ HP) _ _ _ Pr) as Pi. clear Pr.
  induction index as [| | |c _ t IHt f IHf| | | | | |]; try by apply Hscan.
  cbn [ReadExpr_create ul_head]. destruct (hasConstantCases _); [|by apply Hscan].
  destruct Hi as (Hc & Ht & Hf & Hwc & Hwtf). cbn in Hw.
  apply (closed_select _ HP) in Pi as (Pc & Pt & Pf).
  ystep. eapply yields_mono; [apply yields_and; [by apply ReadExpr_create_ok|by apply IHt]|].
  intros rt [(?&Hwrt&_) [Htt ?]].
  ystep. eapply yields_mono;
    [apply yields_and; [apply ReadExpr_create_ok|apply IHf]; done || congruence|].
  intros rf [(?&Hwrf&_) [Htf ?]].
  eapply yields_mono; [apply Select_light; done || congruence|].
  intros r Hr. eapply light_le; [exact Hr|]. pose proof (weight_read_select root head c t f).
  cbn [weight] in *. lia.
Qed.

(** ** Rebuilding *)

Lemma weight_replace_kids this kids :
  Forall2 (λ k k', weight k ≤ weight k') kids (getKids this) →
  weight (replace_kids this kids) ≤ weight this.
Proof.
  intros Hk. destruct this; cbn in Hk;
    repeat match goal with
    | H : Forall2 _ _ (_ :: _) |- _ => apply Forall2_cons_inv_r in H as (? & ? & ? & H & ->)
    | H : Forall2 _ _ [] |- _ => apply Forall2_nil_inv_r in H as ->
    end; cbn [replace_kids];
    try (by apply weight_read_mono); try (destruct k); cbn [weight]; lia.
Qed.

(** [rebuild] returns an expression that weighs no more than the node with the
    new kids, in every closed class this node belongs to. *)
Lemma rebuild_light this kids :
  wf this → isConstant this = false → Forall2 same_type kids (getKids this) →
  rebuild_defined this kids → P (replace_kids this kids) →
  rebuild this kids ⇓ light (weight (replace_kids this kids)).
Proof.
  intros Hwf Hnc Hkids Hdef Hp.
  destruct this as [|x|root head x|c t f|l r|x off w|x w|x w|x|k l r]; try done; cbn in Hkids;
    repeat match goal with
    | H : Forall2 _ _ (_ :: _) |- _ =>
        apply Forall2_cons_inv_r in H as (? & ? & [? ?] & H & ->)
    | H : Forall2 _ _ [] |- _ => apply Forall2_nil_inv_r in H as ->
    end; cbn [rebuild replace_kids] in *; cbn in Hwf; destruct_and?.
  - by apply light_self.
  - apply Read_light; done || congruence.
  - apply (closed_select _ HP) in Hp as (?&?&?). apply Select_light; done || congruence.
  - apply (closed_concat _ HP) in Hp as (?&?).
    match goal with |- ConcatExpr_create ?a ?b ⇓ _ => apply (Concat_light _ (size a + size b)) end;
      try done; [apply Extract_create_light|lia|..]; apply extract_kid_le_size; lia.
  - apply (closed_extract _ HP) in Hp. apply Extract_light; done || lia.
  - apply (closed_zext _ HP) in Hp.
    match goal with |- ZExtExpr_create ?a _ ⇓ _ => apply (ZExt_light _ (size a)) end;
      try done; [apply Extract_create_light|lia].
  - apply (closed_sext _ HP) in Hp. apply SExt_light; done || lia.
  - apply -> (closed_not _ HP) in Hp. by apply Not_light.
  - pose proof (closed_hereditary _ HP) as Hher.
    eapply yields_mono; [apply Binary_create_ok; try done; [congruence|]|].
    + by intros cl cr -> ->.
    + intros e [? ? ? _ Hk]. split; [done|]. apply (Hk P); try done;
        [by eapply her_left|by eapply her_right].
Qed.
End measure.
