(* ===== verification/BitfieldSimplifier.v ===== *)
(** * Bit-level simplification: [lib/Expr/BitfieldSimplifier.cpp]

    The simplifier computes, bottom up, bits of an expression that are known to
    be one or zero, and top down, bits that no one uses, and replaces what it can
    by constants.  It keeps what it knows of expressions with several operands in
    a cache for the lifetime of the executor.

    The hash maps are association lists; [ExprHashMap] compares expressions with
    [operator==].  A failed assertion keeps the state, so that one can tell whether
    the ghost flag [tainted] was set before. *)

From stdpp Require Import prelude.
From S2P Require Import Prelude Bitvec Bits APInt ExprData ExprConstants ExprCasts ExprBinary.
From S2P Require Import ExprBinaryProofs ExprSelectRead ExprMeasure.

(** ** Masks *)

(** [~x] and [x << n] at 64 bits *)
Definition not64 (x : Z) : Z := u64 (Z.lnot x).
Definition shl64 (x n : Z) : Z := u64 (Z.shiftl x n).
Definition all64 : Z := u64 (-1).

(** [zeroMask] *)
Definition zeroMask (w : Z) : Z := if w <? 64 then shl64 all64 w else 0.

(** [BitfieldSimplifier::BitsInfo] *)
Record BitsInfo : Set := mkBits {
  ignoredBits : Z;
  knownOneBits : Z;
  knownZeroBits : Z;
}.

Definition set_ignored (ignored : Z) (i : BitsInfo) : BitsInfo :=
  mkBits ignored (knownOneBits i) (knownZeroBits i).

(** [~(knownOneBits | knownZeroBits | ignoredBits) == 0] *)
Definition covered (i : BitsInfo) : bool :=
  not64 (Z.lor (Z.lor (knownOneBits i) (knownZeroBits i)) (ignoredBits i)) =? 0.

(** ** The state *)

(** [class BitfieldSimplifier].  [tainted] is not in the source: it records that an
    entry was made for an expression simplified under ignored bits. *)
Record BitfieldSimplifier : Set := mkSimplifier {
  m_bitsInfoCache : list (Expr * BitsInfo);
  m_simplifiedExpressions : list (Expr * (Expr * BitsInfo));
  m_cacheHits : Z;
  m_cacheMisses : Z;
  tainted : bool;
}.

Definition new_simplifier : BitfieldSimplifier := mkSimplifier [] [] 0 0 false.

Definition F (A : Type) : Type := BitfieldSimplifier → outcome A * BitfieldSimplifier.

#[export] Instance F_ret : MRet F := λ A a st, (Done a, st).
#[export] Instance F_bind : MBind F := λ A B f m st,
  match m st with
  | (Done a, st) => f a st
  | (AssertFailed, st) => (AssertFailed, st)
  | (OutOfFuel, st) => (OutOfFuel, st)
  end.

Definition check {A} (m : outcome A) : F A := λ st, (m, st).

(** [find], [erase] and [insert] of a hash map; [insert] keeps an entry that is
    there. *)
Section maps.
Context {V : Type}.

Fixpoint map_find (e : Expr) (l : list (Expr * V)) : option V :=
  match l with
  | [] => None
  | (e', v) :: l => if bool_decide (e' = e) then Some v else map_find e l
  end.

Definition map_erase (e : Expr) (l : list (Expr * V)) : list (Expr * V) :=
  filter (λ x, x.1 ≠ e) l.

Definition map_insert (e : Expr) (v : V) (l : list (Expr * V)) : list (Expr * V) :=
  if map_find e l is Some _ then l else (e, v) :: l.
End maps.

Definition set_cache (f : list (Expr * BitsInfo) → list (Expr * BitsInfo)) : F unit := λ st,
  (Done tt, mkSimplifier (f (m_bitsInfoCache st)) (m_simplifiedExpressions st)
    (m_cacheHits st) (m_cacheMisses st) (tainted st)).

(** [m_bitsInfoCache.insert(std::make_pair(e, rbits))] *)
Definition cache_bits (e : Expr) (rbits : BitsInfo) : F unit := λ st,
  let fresh := if map_find e (m_bitsInfoCache st) is Some _ then false else true in
  (Done tt, mkSimplifier (map_insert e rbits (m_bitsInfoCache st)) (m_simplifiedExpressions st)
    (m_cacheHits st) (m_cacheMisses st)
    (tainted st || (fresh && negb (ignoredBits rbits =? 0)))).

(** [++m_cacheHits], [++m_cacheMisses] *)
Definition count (hits misses : Z) : F unit := λ st,
  (Done tt, mkSimplifier (m_bitsInfoCache st) (m_simplifiedExpressions st)
    (m_cacheHits st + hits) (m_cacheMisses st + misses) (tainted st)).

(** [m_simplifiedExpressions[e] = ret] *)
Definition remember (e : Expr) (ret : Expr * BitsInfo) : F unit := λ st,
  (Done tt, mkSimplifier (m_bitsInfoCache st)
    ((e, ret) :: map_erase e (m_simplifiedExpressions st))
    (m_cacheHits st) (m_cacheMisses st) (tainted st)).

Section simplifier.
Context `{APIntOps} `{ArrayStore} `{ObjectIdentity} `{Options}.

(** [BitfieldSimplifier::replaceWithConstant] *)
Definition replaceWithConstant (e : Expr) (value : Z) : F Expr :=
  same ← check (match e with
    | Constant ce => v ← getZExtValue ce 64; Done (v =? value)
    | _ => Done false
    end);
  if (same : bool) then mret e
  else
    _ ← set_cache (λ l, map_erase e (foldl (λ l k, map_erase k l) l (getKids e)));
    check (create_constant (Z.land value (not64 (zeroMask (getWidth e)))) (getWidth e)).

(** The [switch] of [doSimplifyBits]: the known bits of [e], whose kids are now
    [kids], and what changes in the information on the kids *)
Definition to_one (b : BitsInfo) : BitsInfo :=
  if not64 (Z.lor (knownOneBits b) (ignoredBits b)) =? 0
  then mkBits (ignoredBits b) all64 0 else b.

Definition to_zero (b : BitsInfo) : BitsInfo :=
  if not64 (Z.lor (knownZeroBits b) (ignoredBits b)) =? 0
  then mkBits (ignoredBits b) 0 all64 else b.

Definition and_bits (ignored : Z) (b0 b1 : BitsInfo) : BitsInfo * list BitsInfo :=
  let one := Z.land (knownOneBits b0) (knownOneBits b1) in
  let zero := Z.lor (knownZeroBits b0) (knownZeroBits b1) in
  let b0' := set_ignored (Z.lor ignored (knownZeroBits b1)) b0 in
  let b1' := set_ignored
    (Z.lor ignored (Z.land (knownZeroBits b0) (not64 (knownZeroBits b1)))) b1 in
  (mkBits ignored one zero, [to_one b0'; to_one b1']).

Definition or_bits (ignored : Z) (b0 b1 : BitsInfo) : BitsInfo * list BitsInfo :=
  let one := Z.lor (knownOneBits b0) (knownOneBits b1) in
  let zero := Z.land (knownZeroBits b0) (knownZeroBits b1) in
  let b0' := set_ignored (Z.lor ignored (knownOneBits b1)) b0 in
  let b1' := set_ignored
    (Z.lor ignored (Z.land (knownOneBits b0) (not64 (knownOneBits b1)))) b1 in
  (mkBits ignored one zero, [to_zero b0'; to_zero b1']).

Definition xor_bits (ignored : Z) (b0 b1 : BitsInfo) : BitsInfo * list BitsInfo :=
  (mkBits ignored
    (Z.lor (Z.land (knownZeroBits b0) (knownOneBits b1))
      (Z.land (knownOneBits b0) (knownZeroBits b1)))
    (Z.lor (Z.land (knownOneBits b0) (knownOneBits b1))
      (Z.land (knownZeroBits b0) (knownZeroBits b1))),
   [set_ignored ignored b0; set_ignored ignored b1]).

Definition not_bits (width ignored : Z) (b0 : BitsInfo) : BitsInfo * list BitsInfo :=
  (mkBits ignored (Z.land (knownZeroBits b0) (not64 (zeroMask width)))
    (Z.lor (knownOneBits b0) (zeroMask width)),
   [set_ignored ignored b0]).

Definition shl_bits (width shift ignored : Z) (b0 b1 : BitsInfo) : BitsInfo * list BitsInfo :=
  if shift <? width then
    (mkBits ignored (Z.land (shl64 (knownOneBits b0) shift) (not64 (zeroMask width)))
      (Z.lor (Z.lor (shl64 (knownZeroBits b0) shift) (zeroMask width)) (not64 (zeroMask shift))),
     [set_ignored (Z.lor (Z.shiftr (Z.land ignored (not64 (zeroMask width))) shift)
        (zeroMask (width - shift))) b0; b1])
  else (mkBits ignored 0 all64, [set_ignored all64 b0; b1]).

Definition lshr_bits (width shift ignored : Z) (b0 b1 : BitsInfo) : BitsInfo * list BitsInfo :=
  if shift <? width then
    (mkBits ignored (Z.shiftr (knownOneBits b0) shift)
      (Z.lor (Z.shiftr (knownZeroBits b0) shift) (zeroMask (width - shift))),
     [set_ignored (Z.lor (Z.lor (shl64 ignored shift) (not64 (zeroMask shift))) (zeroMask width)) b0;
      b1])
  else (mkBits ignored 0 all64, [set_ignored all64 b0; b1]).

Definition extract_bits (offset width ignored : Z) (b0 : BitsInfo) : BitsInfo * list BitsInfo :=
  let mask := zeroMask width in
  (mkBits ignored (Z.land (Z.shiftr (knownOneBits b0) offset) (not64 mask))
    (Z.lor (Z.shiftr (knownZeroBits b0) offset) mask),
   [set_ignored (Z.lor (shl64 ignored offset) (not64 (shl64 (not64 mask) offset))) b0]).

Definition concat_bits (width0 width1 ignored : Z) (b0 b1 : BitsInfo) : BitsInfo * list BitsInfo :=
  (mkBits ignored (Z.lor (shl64 (knownOneBits b0) width1) (knownOneBits b1))
    (Z.lor (shl64 (knownZeroBits b0) width1)
      (Z.land (knownZeroBits b1) (not64 (zeroMask width1)))),
   [set_ignored (Z.lor (Z.shiftr ignored width1) (zeroMask width0)) b0;
    set_ignored (Z.lor ignored (zeroMask width1)) b1]).

Definition select_bits (width ignored : Z) (b0 b1 b2 : BitsInfo) : BitsInfo * list BitsInfo :=
  (mkBits ignored (Z.land (knownOneBits b1) (knownOneBits b2))
    (Z.lor (Z.land (knownZeroBits b1) (knownZeroBits b2)) (zeroMask width)),
   [b0; set_ignored ignored b1; set_ignored ignored b2]).

Definition zext_bits (ignored : Z) (b0 : BitsInfo) : BitsInfo * list BitsInfo :=
  (set_ignored ignored b0, [set_ignored ignored b0]).

Definition sext_bits (kid_width width ignored : Z) (b0 : BitsInfo) : BitsInfo * list BitsInfo :=
  let mask := Z.land (zeroMask kid_width) (not64 (zeroMask width)) in
  let sign := shl64 1 (kid_width - 1) in
  let zero := Z.land (knownZeroBits b0) (not64 mask) in
  let '(one, zero) :=
    if negb (Z.land (knownOneBits b0) sign =? 0) then (Z.lor (knownOneBits b0) mask, zero)
    else if negb (Z.land (knownZeroBits b0) sign =? 0)
    then (knownOneBits b0, Z.lor (knownZeroBits b0) mask)
    else (knownOneBits b0, zero) in
  let kid_ignored := if negb (Z.land mask (not64 ignored) =? 0)
    then Z.land ignored (not64 sign) else ignored in
  (mkBits ignored one zero, [set_ignored kid_ignored b0]).

Definition kind_bits (e : Expr) (kids : list Expr) (ignored : Z) (bits : list BitsInfo) :
    outcome (BitsInfo * list BitsInfo) :=
  let width := getWidth e in
  let general := (mkBits ignored 0 (zeroMask width), bits) in
  let shift_bits f k0 k1 b0 b1 :=
    match k1 with
    | Constant c1 =>
        shift ← getZExtValue c1 64;
        _ ← cassert (width =? getWidth k0);
        Done (f width shift ignored b0 b1)
    | _ => Done general
    end in
  match e, kids, bits with
  | Binary And _ _, _, [b0; b1] => Done (and_bits ignored b0 b1)
  | Binary Or _ _, _, [b0; b1] => Done (or_bits ignored b0 b1)
  | Binary Xor _ _, _, [b0; b1] => Done (xor_bits ignored b0 b1)
  | Not _, _, [b0] => Done (not_bits width ignored b0)
  | Binary Shl _ _, [k0; k1], [b0; b1] => shift_bits shl_bits k0 k1 b0 b1
  | Binary LShr _ _, [k0; k1], [b0; b1] => shift_bits lshr_bits k0 k1 b0 b1
  | Extract _ offset w, _, [b0] => Done (extract_bits offset w ignored b0)
  | Concat _ _, [k0; k1], [b0; b1] =>
      Done (concat_bits (getWidth k0) (getWidth k1) ignored b0 b1)
  | Select _ _ _, _, [b0; b1; b2] => Done (select_bits width ignored b0 b1 b2)
  | ZExt _ _, _, [b0] => Done (zext_bits ignored b0)
  | SExt _ _, [k0], [b0] => Done (sext_bits (getWidth k0) width ignored b0)
  | Constant c, _, _ => one ← getZExtValue c 64; Done (mkBits ignored one (not64 one), bits)
  | _, _, _ => Done general
  end.

(** The three assertions after the [switch] *)
Definition check_bits (width : Z) (rbits : BitsInfo) : outcome unit :=
  _ ← cassert (Z.land (knownOneBits rbits) (knownZeroBits rbits) =? 0);
  _ ← cassert (Z.land (knownOneBits rbits) (zeroMask width) =? 0);
  cassert (Z.land (knownZeroBits rbits) (zeroMask width) =? zeroMask width).

Section recursion.
(** [doSimplifyBits] *)
Variable simp : Expr → Z → F (Expr * BitsInfo).

(** The first loop over the kids *)
Fixpoint simplify_kids (l : list Expr) : F (list Expr * list BitsInfo) :=
  match l with
  | [] => mret ([], [])
  | k :: l =>
      '(k', b) ← simp k 0;
      '(kids, bits) ← simplify_kids l;
      mret (k' :: kids, b :: bits)
  end.

(** The loop that replaces or simplifies the kids again; [old] are the bits before
    the [switch] *)
Fixpoint improve_kids (kids : list Expr) (old bits : list BitsInfo) : F (list Expr) :=
  match kids, old, bits with
  | k :: kids, o :: old, b :: bits =>
      k' ← (if covered b then replaceWithConstant k (knownOneBits b)
        else if negb (Z.land (ignoredBits b) (not64 (ignoredBits o)) =? 0)
        then '(k', _) ← simp k (ignoredBits b); mret k'
        else mret k);
      kids' ← improve_kids kids old bits;
      mret (k' :: kids')
  | _, _, _ => mret []
  end.

Definition simplify_step (e : Expr) (ignored : Z) : F (Expr * BitsInfo) :=
  '(kids, old) ← simplify_kids (getKids e);
  '(rbits, bits) ← check (kind_bits e kids ignored old);
  _ ← check (check_bits (getWidth e) rbits);
  e' ← (if negb (isConstant e) && covered rbits
    then replaceWithConstant e (knownOneBits rbits)
    else
      kids' ← improve_kids kids old bits;
      if forallb (λ '(k, k'), eqE k k') (zip kids' (getKids e)) then mret e
      else check (rebuild e kids'));
  _ ← (if (1 <? length (getKids e'))%nat then cache_bits e' rbits else mret tt);
  mret (e', rbits).
End recursion.

(** [BitfieldSimplifier::doSimplifyBits] *)
Fixpoint doSimplifyBits (fuel : nat) (e : Expr) (ignored : Z) : F (Expr * BitsInfo) :=
  match fuel with
  | O => check OutOfFuel
  | S fuel => λ st,
      match map_find e (m_bitsInfoCache st) with
      | Some i => (Done (e, i), st)
      | None => simplify_step (doSimplifyBits fuel) e ignored st
      end
  end.

(** [BitfieldSimplifier::simplify], with the known bits for the callers that ask;
    a constant has none.  The weight of the expression bounds the recursion. *)
Definition simplify (e : Expr) : F (Expr * option BitsInfo) := λ st,
  if isConstant e then (Done (e, None), st)
  else match map_find e (m_simplifiedExpressions st) with
  | Some (e', i) => (_ ← count 1 0; mret (e', Some i)) st
  | None =>
      (_ ← count 0 1;
       '(e', i) ← doSimplifyBits (Z.to_nat (weight e)) e 0;
       _ ← remember e (e', i);
       mret (e', Some i)) st
  end.

(** A sequence of calls *)
Fixpoint simplify_all (l : list Expr) : F (list (Expr * option BitsInfo)) :=
  match l with
  | [] => mret []
  | e :: l => r ← simplify e; rs ← simplify_all l; mret (r :: rs)
  end.
End simplifier.

(** An expression whose simplification leaves wrong bits in the cache: [sample_q]
    is simplified again below [sample_k] after it was dropped from the cache. *)
Section sample.
Import Sample.

Definition sample_q : Expr := Binary Or (input 0) (const 0x7E 8).
Definition sample_k : Expr := Binary And sample_q (Binary Shl sample_q (const 1 8)).
Definition sample_s : Expr :=
  Binary Or (Binary And sample_k (const 0x7C 8)) (const 0x80 8).
Definition sample_wrong : Expr :=
  Concat (Binary And sample_k sample_s) (Binary And sample_q (const 1 8)).
End sample.
