(* ===== verification/BitfieldProofs.v ===== *)
(** * Correctness of the bit-level simplifier *)

From stdpp Require Import prelude.
From S2P Require Import Prelude Bitvec Bits APInt ExprData ExprConstants ExprCasts ExprBinary.
From S2P Require Import ExprBinaryProofs ExprSelectRead ExprMeasure BitfieldSimplifier.

(** ** Bits of the masks *)

Section masks.
Implicit Types (x w n : Z).

Lemma testbit_u64 x n : 0 ≤ n < 64 → Z.testbit (u64 x) n = Z.testbit x n.
Proof. intros. unfold u64. rewrite testbit_mod by lia. by rewrite bool_decide_eq_true_2 by lia. Qed.

Lemma testbit_not64 x n : 0 ≤ n < 64 → Z.testbit (not64 x) n = negb (Z.testbit x n).
Proof. intros. unfold not64. rewrite testbit_u64, Z.lnot_spec by lia. done. Qed.

Lemma testbit_shl64 x s n : 0 ≤ n < 64 → Z.testbit (shl64 x s) n = Z.testbit x (n - s).
Proof. intros. unfold shl64. by rewrite testbit_u64, Z.shiftl_spec by lia. Qed.

Lemma testbit_all64 n : 0 ≤ n < 64 → Z.testbit all64 n = true.
Proof. intros. unfold all64. by rewrite testbit_u64, Z.bits_m1 by lia. Qed.

Lemma testbit_zeroMask w n :
  0 ≤ w → 0 ≤ n < 64 → Z.testbit (zeroMask w) n = bool_decide (w ≤ n).
Proof.
  intros. unfold zeroMask. destruct (w <? 64) eqn:E; unbool.
  - rewrite testbit_shl64 by done. case_bool_decide.
    + by rewrite testbit_all64 by lia.
    + by rewrite Z.testbit_neg_r by lia.
  - rewrite Z.testbit_0_l. by rewrite bool_decide_eq_false_2 by lia.
Qed.

Lemma bounded_u64 x : u64 x `bits` 64.
Proof. by apply bounded_mod. Qed.

Lemma bounded_zeroMask w : zeroMask w `bits` 64.
Proof. unfold zeroMask. case_step; [apply bounded_u64|by apply bounded_0]. Qed.

Lemma not64_zero x : (not64 x =? 0) = true ↔ ∀ n, 0 ≤ n < 64 → Z.testbit x n = true.
Proof.
  rewrite Z.eqb_eq. split.
  - intros Hx n Hn. pose proof (testbit_not64 x n Hn) as Hb. rewrite Hx, Z.testbit_0_l in Hb.
    by destruct (Z.testbit x n).
  - intros Hx. apply (bounded_ext 64); [apply bounded_u64|by apply bounded_0|]. intros n Hn.
    by rewrite testbit_not64, Hx, Z.testbit_0_l by done.
Qed.

Lemma land_zero x y :
  x `bits` 64 → 0 ≤ y →
  (Z.land x y =? 0) = true ↔ ∀ n, 0 ≤ n < 64 → Z.testbit x n && Z.testbit y n = false.
Proof.
  intros Hx Hy. rewrite Z.eqb_eq. split.
  - intros Hl n Hn. by rewrite <- Z.land_spec, Hl, Z.testbit_0_l.
  - intros Hl. apply (bounded_ext 64); [by apply bounded_land|by apply bounded_0|]. intros n Hn.
    by rewrite Z.land_spec, Hl, Z.testbit_0_l.
Qed.
End masks.

Create Rewrite HintDb bits64.
#[local] Hint Rewrite testbit_not64 testbit_shl64 testbit_all64 testbit_zeroMask using lia : bits64.
#[local] Hint Rewrite Z.land_spec Z.lor_spec Z.lxor_spec Z.testbit_0_l : bits64.
#[local] Hint Rewrite Z.shiftr_spec using lia : bits64.

(** ** What is known of a value *)

Section knowledge.
Implicit Types (i : BitsInfo) (v w n ign : Z).

Definition info64 i : Prop :=
  ignoredBits i `bits` 64 ∧ knownOneBits i `bits` 64 ∧ knownZeroBits i `bits` 64.

(** [i] is right about [v], at all bits or at those that are used. *)
Definition knows i v : Prop := ∀ n, 0 ≤ n < 64 →
  (Z.testbit (knownOneBits i) n = true → Z.testbit v n = true) ∧
  (Z.testbit (knownZeroBits i) n = true → Z.testbit v n = false).

Definition knows_used i v : Prop := ∀ n, 0 ≤ n < 64 → Z.testbit (ignoredBits i) n = false →
  (Z.testbit (knownOneBits i) n = true → Z.testbit v n = true) ∧
  (Z.testbit (knownZeroBits i) n = true → Z.testbit v n = false).

(** The bits beyond the width are known to be zero. *)
Definition tops i w : Prop := ∀ n, 0 ≤ n < 64 → w ≤ n → Z.testbit (knownZeroBits i) n = true.

(** [v'] is [v] at the bits that are not ignored. *)
Definition agree ign v v' : Prop := ∀ n, 0 ≤ n < 64 →
  Z.testbit ign n = false → Z.testbit v' n = Z.testbit v n.

Lemma agree_refl ign v : agree ign v v.
Proof. done. Qed.

Lemma agree_0 v v' w : w ≤ 64 → v `bits` w → v' `bits` w → agree 0 v v' → v' = v.
Proof.
  intros Hw Hv Hv' Ha. apply (bounded_ext w); [done..|]. intros n Hn. apply Ha; [lia|].
  apply Z.testbit_0_l.
Qed.

Lemma knows_agree i v v' : knows i v → agree 0 v v' → knows i v'.
Proof. intros Hk Ha n Hn. rewrite Ha by (done || apply Z.testbit_0_l). by apply Hk. Qed.

Lemma covered_bits i n :
  covered i = true → 0 ≤ n < 64 → Z.testbit (ignoredBits i) n = false →
  Z.testbit (knownOneBits i) n = true ∨ Z.testbit (knownZeroBits i) n = true.
Proof.
  intros Hc Hn Hi. pose proof (proj1 (not64_zero _) Hc n Hn) as Hb.
  rewrite !Z.lor_spec, Hi, orb_false_r in Hb. by apply orb_true_iff.
Qed.
End knowledge.

(** Case analysis on the bits that occur, with what is known of the values at the
    positions [n] and [m] *)
Ltac know_at n :=
  repeat match goal with
  | H : knows ?i ?v |- _ =>
      lazymatch goal with
      | _ : Z.testbit (knownOneBits i) n = true → Z.testbit v n = true |- _ => fail
      | _ => destruct (H n ltac:(lia))
      end
  end.

Ltac bit_clean :=
  cbn in *;
  repeat match goal with
  | H : false = true |- _ => discriminate H
  | H : true = false |- _ => discriminate H
  | H : ?b = ?b |- _ => clear H
  | H : ?b = ?b → _ |- _ => specialize (H eq_refl)
  | H : true = false → _ |- _ => clear H
  | H : false = true → _ |- _ => clear H
  | H : ?b = true |- _ => is_var b; subst b
  | H : ?b = false |- _ => is_var b; subst b
  | |- ?b = ?b => reflexivity
  | |- true = false → _ => let H := fresh in intros H; discriminate H
  | |- false = true → _ => let H := fresh in intros H; discriminate H
  | |- ?b = ?b → _ => intros _
  | |- _ ∧ _ => split
  | |- _ => progress cbn in *
  end.

Ltac bit_cases :=
  repeat match goal with
  | |- context [bool_decide ?P] => destruct (bool_decide P) eqn:?; unbool
  | H : context [bool_decide ?P] |- _ => destruct (bool_decide P) eqn:?; unbool
  end; try (exfalso; lia);
  repeat match goal with
  | |- context [Z.testbit ?x ?n] => let b := fresh in set (b := Z.testbit x n) in *; clearbody b
  | H : context [Z.testbit ?x ?n] |- _ =>
      let b := fresh in set (b := Z.testbit x n) in *; clearbody b
  end; bit_clean;
  repeat match goal with b : bool |- _ => destruct b; bit_clean end; try (exfalso; lia).

(** What the [switch] guarantees for a node whose kids have the values [vs] and
    whose value is [f vs]: the known bits are right; what it says of the kids is
    right where they are used; and the kids can change where they are not. *)
Record sound_bits (ign w : Z) (ws vs : list Z) (f : list Z → Z) (r : BitsInfo * list BitsInfo) :
    Prop := {
  sound_knows : knows r.1 (f vs);
  sound_tops : tops r.1 w;
  sound_used : Forall2 knows_used r.2 vs;
  sound_agree vs' :
    Forall2 bounded ws vs' → Forall3 agree (ignoredBits <$> r.2) vs vs' → agree ign (f vs) (f vs');
}.

Ltac forall_inv :=
  repeat match goal with
  | H : Forall2 _ (_ :: _) _ |- _ => apply Forall2_cons_inv_l in H as (? & ? & ? & H & ->)
  | H : Forall2 _ [] _ |- _ => apply Forall2_nil_inv_l in H as ->
  | H : Forall3 _ (_ :: _) (_ :: _) (_ :: _) |- _ => inversion H; clear H; subst
  | H : Forall3 _ [] [] [] |- _ => clear H
  end.

Section switch.
Implicit Types (i : BitsInfo) (a b w n ign : Z).

Lemma knows_set_ignored ign i v : knows i v → knows_used (set_ignored ign i) v.
Proof. intros Hk n Hn _. by apply Hk. Qed.

Lemma to_one_used i v : knows_used i v → knows_used (to_one i) v.
Proof.
  intros Hk. unfold to_one. case_step; [|done]. intros n Hn Hi. cbn in Hi |- *.
  pose proof (proj1 (not64_zero _) Heqb n Hn) as Hb. autorewrite with bits64 in *.
  destruct (Hk n Hn Hi). bit_cases.
Qed.

Lemma to_zero_used i v : knows_used i v → knows_used (to_zero i) v.
Proof.
  intros Hk. unfold to_zero. case_step; [|done]. intros n Hn Hi. cbn in Hi |- *.
  pose proof (proj1 (not64_zero _) Heqb n Hn) as Hb. autorewrite with bits64 in *.
  destruct (Hk n Hn Hi). bit_cases.
Qed.

Lemma to_one_ignored i : ignoredBits (to_one i) = ignoredBits i.
Proof. unfold to_one. by case_step. Qed.

Lemma to_zero_ignored i : ignoredBits (to_zero i) = ignoredBits i.
Proof. unfold to_zero. by case_step. Qed.

(** Instantiates at [n] what is known of the kids and where they agree. *)
Ltac at_bit n :=
  know_at n;
  repeat match goal with
  | H : agree _ _ _ |- _ => specialize (H n ltac:(lia)); cbn in H; autorewrite with bits64 in H
  end.

Ltac kid_used :=
  cbn [snd]; repeat apply List.Forall2_cons; try apply List.Forall2_nil;
  try apply to_one_used; try apply to_zero_used; by apply knows_set_ignored.

Lemma and_bits_ok ign w i0 i1 a b :
  knows i0 a → knows i1 b → tops i0 w →
  sound_bits ign w [w; w] [a; b] (λ vs, match vs with [a; b] => Z.land a b | _ => 0 end)
    (and_bits ign i0 i1).
Proof.
  intros H0 H1 Ht. unfold and_bits. cbn zeta. split; [| |kid_used|].
  - intros n Hn. cbn. autorewrite with bits64. know_at n. bit_cases.
  - intros n Hn Hw. cbn. autorewrite with bits64. by rewrite Ht.
  - intros vs' Hvs' Ha. cbn in Ha. rewrite to_one_ignored, to_one_ignored in Ha.
    forall_inv. intros n Hn Hi. autorewrite with bits64. at_bit n. bit_cases.
Qed.

Lemma or_bits_ok ign w i0 i1 a b :
  knows i0 a → knows i1 b → tops i0 w → tops i1 w →
  sound_bits ign w [w; w] [a; b] (λ vs, match vs with [a; b] => Z.lor a b | _ => 0 end)
    (or_bits ign i0 i1).
Proof.
  intros H0 H1 Ht0 Ht1. unfold or_bits. cbn zeta. split; [| |kid_used|].
  - intros n Hn. cbn. autorewrite with bits64. know_at n. bit_cases.
  - intros n Hn Hw. cbn. autorewrite with bits64. by rewrite Ht0, Ht1.
  - intros vs' Hvs' Ha. cbn in Ha. rewrite to_zero_ignored, to_zero_ignored in Ha.
    forall_inv. intros n Hn Hi. autorewrite with bits64. at_bit n. bit_cases.
Qed.

Lemma xor_bits_ok ign w i0 i1 a b :
  knows i0 a → knows i1 b → tops i0 w → tops i1 w →
  sound_bits ign w [w; w] [a; b] (λ vs, match vs with [a; b] => Z.lxor a b | _ => 0 end)
    (xor_bits ign i0 i1).
Proof.
  intros H0 H1 Ht0 Ht1. unfold xor_bits. split; [| |kid_used|].
  - intros n Hn. cbn. autorewrite with bits64. know_at n. bit_cases.
  - intros n Hn Hw. cbn. autorewrite with bits64. rewrite Ht0, Ht1 by done. bit_cases.
  - intros vs' Hvs' Ha. cbn in Ha. forall_inv. intros n Hn Hi. autorewrite with bits64.
    at_bit n. bit_cases.
Qed.

Lemma not_bits_ok ign w i0 a :
  0 ≤ w ≤ 64 → knows i0 a →
  sound_bits ign w [w] [a] (λ vs, match vs with [a] => bv_not w a | _ => 0 end)
    (not_bits w ign i0).
Proof.
  intros Hw H0. unfold not_bits. split; [| |kid_used|].
  - intros n Hn. cbn. unfold bv_not. rewrite testbit_mod, Z.lnot_spec by lia.
    autorewrite with bits64. know_at n. bit_cases.
  - intros n Hn Hw'. cbn. autorewrite with bits64. bit_cases.
  - intros vs' Hvs' Ha. cbn in Ha. forall_inv. intros n Hn Hi. unfold bv_not.
    rewrite !testbit_mod, !Z.lnot_spec by lia. at_bit n. bit_cases.
Qed.

Lemma testbit_shl w a s n :
  0 ≤ w → 0 ≤ n → Z.testbit (bv_eval Shl w a s) n = bool_decide (s < w) && bool_decide (n < w) && Z.testbit a (n - s).
Proof.
  intros. cbn. destruct (s <? w) eqn:E; unbool.
  - rewrite testbit_mod, Z.shiftl_spec, (bool_decide_eq_true_2 (s < w)) by lia. done.
  - rewrite Z.testbit_0_l, (bool_decide_eq_false_2 (s < w)) by lia. done.
Qed.

(** The shift amount is not changed. *)
Lemma shift_same i1 s s' w :
  w ≤ 64 → ignoredBits i1 = 0 → s `bits` w → s' `bits` w → agree (ignoredBits i1) s s' → s' = s.
Proof. intros Hw -> ?? Ha. by apply (agree_0 s s' w). Qed.

Ltac same_shift :=
  match goal with H : agree (ignoredBits ?i) ?s ?s', _ : ?s `bits` ?w |- _ =>
    assert (s' = s) as -> by (apply (shift_same i s s' w); done || lia); clear H
  end.

Lemma shl_bits_ok ign w s i0 i1 a :
  0 < w ≤ 64 → s `bits` w → a `bits` w → ignoredBits i1 = 0 → knows i0 a → knows i1 s →
  sound_bits ign w [w; w] [a; s] (λ vs, match vs with [a; b] => bv_eval Shl w a b | _ => 0 end)
    (shl_bits w s ign i0 i1).
Proof.
  intros Hw Hs Ha Hi1 H0 H1. pose proof (proj1 Hs). unfold shl_bits. destruct (s <? w) eqn:E; unbool; split.
  - intros n Hn. rewrite testbit_shl by lia. cbn. autorewrite with bits64.
    destruct (decide (s ≤ n)); [know_at (n - s); bit_cases|].
    rewrite !Z.testbit_neg_r by lia. bit_cases.
  - intros n Hn Hw'. cbn. autorewrite with bits64. bit_cases.
  - kid_used.
  - intros vs' Hvs' Hag. cbn in Hag. forall_inv. intros n Hn Hi.
    same_shift. rewrite !testbit_shl by lia.
    destruct (decide (s ≤ n)); [|rewrite !(Z.testbit_neg_r _ (n - s)) by lia; by rewrite !andb_false_r].
    destruct (decide (n < w)); [|by rewrite (bool_decide_eq_false_2 (n < w)) by lia; rewrite !andb_false_r].
    f_equal. match goal with H : agree _ a _ |- _ => apply H; [lia|] end.
    autorewrite with bits64. replace (n - s + s) with n by lia. rewrite Hi. cbn. by rewrite bool_decide_eq_false_2 by lia.
  - intros n Hn. rewrite testbit_shl by lia. cbn. autorewrite with bits64. bit_cases.
  - intros n Hn Hw'. cbn. by autorewrite with bits64.
  - kid_used.
  - intros vs' Hvs' Hag. cbn in Hag. forall_inv. intros n Hn Hi.
    same_shift. rewrite !testbit_shl by lia. bit_cases.
Qed.

(** No bit beyond the width is known to be one. *)
Lemma known_one_high i a w n :
  info64 i → knows i a → a `bits` w → w ≤ n → 0 ≤ n → Z.testbit (knownOneBits i) n = false.
Proof.
  intros (_ & Ho & _) Hk Ha Hw Hn. destruct (decide (n < 64)); [|by apply (testbit_high 64); [|lia]].
  destruct (Z.testbit _ n) eqn:E; [|done]. destruct (Hk n) as [H1 _]; [lia|].
  by rewrite (testbit_high w a) in H1; [symmetry; apply H1|..].
Qed.

Lemma lshr_bits_ok ign w s i0 i1 a :
  0 < w ≤ 64 → s `bits` w → a `bits` w → info64 i0 → ignoredBits i1 = 0 →
  knows i0 a → knows i1 s →
  sound_bits ign w [w; w] [a; s] (λ vs, match vs with [a; b] => bv_eval LShr w a b | _ => 0 end)
    (lshr_bits w s ign i0 i1).
Proof.
  intros Hw Hs Ha H64 Hi1 H0 H1. pose proof (proj1 Hs). cbn [bv_eval].
  assert (∀ v n, v `bits` w → w ≤ n → Z.testbit v n = false) as Hhigh by (intros; by eapply testbit_high).
  unfold lshr_bits. destruct (s <? w) eqn:E; unbool; split.
  - intros n Hn. cbn. autorewrite with bits64. destruct (decide (n + s < w)).
    + know_at (n + s). bit_cases.
    + rewrite (Hhigh a) by (done || lia). split; [|done].
      intros Hone. by rewrite (known_one_high i0 a w) in Hone by (done || lia).
  - intros n Hn Hw'. cbn. autorewrite with bits64. bit_cases.
  - kid_used.
  - intros vs' Hvs' Hag. cbn in Hag. forall_inv. intros n Hn Hi.
    same_shift. autorewrite with bits64.
    destruct (decide (n + s < w)); [|by rewrite !Hhigh by (done || lia)].
    match goal with H : agree _ a _ |- _ => apply H; [lia|] end.
    autorewrite with bits64. replace (n + s - s) with n by lia. rewrite Hi. bit_cases.
  - intros n Hn. cbn. autorewrite with bits64. rewrite (Hhigh a) by (done || lia). bit_cases.
  - intros n Hn Hw'. cbn. by autorewrite with bits64.
  - kid_used.
  - intros vs' Hvs' Hag. cbn in Hag. forall_inv. intros n Hn Hi.
    same_shift. autorewrite with bits64. by rewrite !Hhigh by (done || lia).
Qed.

Lemma extract_bits_ok ign w0 off w i0 a :
  w0 ≤ 64 → a `bits` w0 → 0 ≤ off → 0 < w → off + w ≤ w0 → info64 i0 → knows i0 a →
  sound_bits ign w [w0] [a] (λ vs, match vs with [a] => bv_extract a off w | _ => 0 end)
    (extract_bits off w ign i0).
Proof.
  intros Hw0 Ha Hoff Hw Hle H64 H0. unfold extract_bits. cbn zeta. split.
  - intros n Hn. rewrite testbit_extract by lia. cbn. autorewrite with bits64.
    destruct (decide (n < w)); [know_at (n + off)|]; bit_cases.
  - intros n Hn Hw'. cbn. autorewrite with bits64. bit_cases.
  - kid_used.
  - intros vs' Hvs' Hag. cbn in Hag. forall_inv. intros n Hn Hi.
    rewrite !testbit_extract by lia. destruct (decide (n < w)); [|bit_cases].
    f_equal. match goal with H : agree _ a _ |- _ => apply H; [lia|] end.
    autorewrite with bits64. replace (n + off - off) with n by lia. rewrite Hi. bit_cases.
Qed.

Lemma testbit_concat_low w1 a b n :
  b `bits` w1 → 0 ≤ n < w1 → Z.testbit (bv_concat w1 a b) n = Z.testbit b n.
Proof. intros. rewrite testbit_concat by (done || lia). by rewrite bool_decide_eq_true_2 by lia. Qed.

Lemma testbit_concat_high w1 a b n :
  b `bits` w1 → 0 ≤ w1 ≤ n → Z.testbit (bv_concat w1 a b) n = Z.testbit a (n - w1).
Proof. intros. rewrite testbit_concat by (done || lia). by rewrite bool_decide_eq_false_2 by lia. Qed.

Lemma concat_bits_ok ign w0 w1 i0 i1 a b :
  0 < w0 → 0 < w1 → w0 + w1 ≤ 64 → a `bits` w0 → b `bits` w1 → info64 i1 →
  knows i0 a → knows i1 b → tops i0 w0 →
  sound_bits ign (w0 + w1) [w0; w1] [a; b]
    (λ vs, match vs with [a; b] => bv_concat w1 a b | _ => 0 end) (concat_bits w0 w1 ign i0 i1).
Proof.
  intros Hw0 Hw1 Hw Ha Hb H64 H0 H1 Ht. unfold concat_bits. split.
  - intros n Hn. cbn. autorewrite with bits64. destruct (decide (n < w1)).
    + rewrite testbit_concat_low, !(Z.testbit_neg_r _ (n - w1)) by (done || lia). know_at n. bit_cases.
    + rewrite testbit_concat_high, (known_one_high i1 b w1) by (done || lia). know_at (n - w1). bit_cases.
  - intros n Hn Hw'. cbn. autorewrite with bits64. rewrite Ht by lia. done.
  - kid_used.
  - intros vs' Hvs' Hag. cbn in Hag. forall_inv. intros n Hn Hi. destruct (decide (n < w1)).
    + rewrite !testbit_concat_low by (done || lia).
      match goal with H : agree _ b _ |- _ => apply H; [lia|] end.
      autorewrite with bits64. rewrite Hi. bit_cases.
    + rewrite !testbit_concat_high by (done || lia). destruct (decide (n - w1 < w0)).
      * match goal with H : agree _ a _ |- _ => apply H; [lia|] end.
        autorewrite with bits64. replace (n - w1 + w1) with n by lia. rewrite Hi. bit_cases.
      * by rewrite !(testbit_high w0) by (done || lia).
Qed.

Lemma select_bits_ok ign w i0 i1 i2 c a b :
  0 ≤ w → c `bits` 1 → a `bits` w → b `bits` w → ignoredBits i0 = 0 →
  knows i0 c → knows i1 a → knows i2 b → 
  sound_bits ign w [1; w; w] [c; a; b]
    (λ vs, match vs with [c; a; b] => if c =? 1 then a else b | _ => 0 end)
    (select_bits w ign i0 i1 i2).
Proof.
  intros Hw Hc Ha Hb Hi0 H0 H1 H2. unfold select_bits. split.
  - intros n Hn. cbn. autorewrite with bits64. know_at n. 
    destruct (decide (w ≤ n)).
    + assert (Z.testbit a n = false ∧ Z.testbit b n = false) as [Ea Eb]
        by (split; by apply (testbit_high w)).
      rewrite Ea, Eb in *. case_step; bit_cases; congruence.
    + case_step; bit_cases.
  - intros n Hn Hw'. cbn. autorewrite with bits64. bit_cases.
  - kid_used.
  - intros vs' Hvs' Hag. cbn in Hag. forall_inv. intros n Hn Hi.
    match goal with H : agree (ignoredBits i0) _ _ |- _ => 
      rewrite Hi0 in H; apply (agree_0 _ _ 1) in H as ->; [|lia|done..] end.
    case_step; match goal with H : agree _ ?x _ |- _ = Z.testbit ?x _ => by apply H end.
Qed.

Lemma zext_bits_ok ign w0 w i0 a :
  w0 ≤ w → knows i0 a → tops i0 w0 →
  sound_bits ign w [w0] [a] (λ vs, match vs with [a] => a | _ => 0 end) (zext_bits ign i0).
Proof.
  intros Hw H0 Ht. unfold zext_bits. split.
  - intros n Hn. by apply H0.
  - intros n Hn Hw'. apply Ht; [done|lia].
  - kid_used.
  - intros vs' Hvs' Hag. cbn in Hag. forall_inv. done.
Qed.

Lemma testbit_sext wi v wo n :
  0 < wi ≤ wo → v `bits` wi → 0 ≤ n →
  Z.testbit (bv_sext wi v wo) n =
  bool_decide (n < wo) && Z.testbit v (if bool_decide (n < wi) then n else wi - 1).
Proof.
  intros. unfold bv_sext. rewrite testbit_mod, testbit_sgn by (done || lia). do 2 f_equal.
  case_bool_decide; [by rewrite (proj2 (Z.ltb_lt _ _)) by lia|by rewrite (proj2 (Z.ltb_ge _ _)) by lia].
Qed.

Lemma testbit_sign w n :
  0 < w ≤ 64 → 0 ≤ n < 64 → Z.testbit (shl64 1 (w - 1)) n = bool_decide (n = w - 1).
Proof.
  intros. rewrite testbit_shl64 by done. case_bool_decide; subst.
  - by replace (w - 1 - (w - 1)) with 0 by lia.
  - destruct (decide (n < w - 1)); [by rewrite Z.testbit_neg_r by lia|].
    apply (Z.bits_above_log2 1); [lia|cbn; lia].
Qed.

Lemma sign_set x w :
  0 < w ≤ 64 → x `bits` 64 →
  negb (Z.land x (shl64 1 (w - 1)) =? 0) = Z.testbit x (w - 1).
Proof.
  intros Hw Hx. pose proof (land_zero x (shl64 1 (w - 1)) Hx (proj1 (bounded_u64 _))) as Hz.
  destruct (_ =? 0); cbn; symmetry.
  - pose proof (proj1 Hz eq_refl (w - 1) ltac:(lia)) as Hb. rewrite testbit_sign in Hb by lia.
    by rewrite bool_decide_eq_true_2, andb_true_r in Hb by done.
  - destruct (Z.testbit x (w - 1)) eqn:E; [done|]. exfalso. discriminate (proj2 Hz). intros n Hn.
    rewrite testbit_sign by lia. case_bool_decide; subst; [by rewrite E|apply andb_false_r].
Qed.

Lemma sext_bits_ok ign w0 w i0 a :
  0 < w0 ≤ w → w ≤ 64 → a `bits` w0 → ign `bits` 64 → info64 i0 → knows i0 a → tops i0 w0 →
  sound_bits ign w [w0] [a] (λ vs, match vs with [a] => bv_sext w0 a w | _ => 0 end)
    (sext_bits w0 w ign i0).
Proof.
  intros Hw0 Hw Ha Hign H64 H0 Ht. destruct (H64) as (_ & Ho & Hz). unfold sext_bits.
  rewrite !sign_set by (done || lia).
  set (mask := Z.land (zeroMask w0) (not64 (zeroMask w))).
  assert (∀ n, 0 ≤ n < 64 → Z.testbit mask n = bool_decide (w0 ≤ n) && negb (bool_decide (w ≤ n))) as Hmask.
  { intros n Hn. unfold mask. by autorewrite with bits64. }
  assert (∀ v, v `bits` w0 → ∀ n, 0 ≤ n < 64 → Z.testbit (bv_sext w0 v w) n =
    if bool_decide (n < w0) then Z.testbit v n else bool_decide (n < w) && Z.testbit v (w0 - 1)) as Hs.
  { intros v Hv n Hn. rewrite testbit_sext by (done || lia). repeat case_bool_decide; done || lia. }
  destruct (H0 (w0 - 1) ltac:(lia)) as [Hs1 Hs0]. split.
  - intros n Hn. rewrite (Hs a Ha n Hn). know_at n.
    destruct (Z.testbit (knownOneBits i0) (w0 - 1)) eqn:E1; [rewrite Hs1 by done|
      destruct (Z.testbit (knownZeroBits i0) (w0 - 1)) eqn:E0; [rewrite Hs0 by done|]];
      cbn; autorewrite with bits64; rewrite Hmask by done;
      pose proof (known_one_high i0 a w0 n H64 H0 Ha); 
      repeat case_bool_decide; bit_cases.
  - intros n Hn Hw'. pose proof (Ht n Hn ltac:(lia)).
    destruct (Z.testbit (knownOneBits i0) (w0 - 1)); [|destruct (Z.testbit (knownZeroBits i0) (w0 - 1))];
      cbn; autorewrite with bits64; rewrite Hmask by done; bit_cases.
  - destruct (Z.testbit (knownOneBits i0) (w0 - 1)); [|destruct (Z.testbit (knownZeroBits i0) (w0 - 1))];
      kid_used.
  - intros vs' Hvs' Hag n Hn Hi.
    set (kid := if negb (Z.land mask (not64 ign) =? 0) then _ else _) in Hag.
    assert (Forall3 agree [kid] [a] vs') as Hag'.
    { by destruct (Z.testbit (knownOneBits i0) (w0 - 1)), (Z.testbit (knownZeroBits i0) (w0 - 1)). }
    assert (∀ m, 0 ≤ m < 64 → Z.testbit ign m = false → Z.testbit kid m = false) as Hsub.
    { intros m Hm Him. unfold kid. case_step; [|done]. autorewrite with bits64. by rewrite Him. }
    clear Hag. forall_inv. rewrite !Hs by done.
    match goal with H : agree kid a _ |- _ => rename H into Hag end.
    destruct (decide (n < w0)); [rewrite !bool_decide_eq_true_2 by lia; by apply Hag; [|apply Hsub]|].
    rewrite !(bool_decide_eq_false_2 (n < w0)) by lia. case_bool_decide; [|done].
    apply Hag; [lia|]. unfold kid.
    destruct (Z.land mask (not64 ign) =? 0) eqn:Em; cbn.
    + exfalso. rewrite land_zero in Em; [|apply bounded_land; [lia|apply bounded_zeroMask|apply bounded_u64]|apply bounded_u64].
      specialize (Em n Hn). rewrite Hmask, testbit_not64, Hi in Em by done.
      by rewrite bool_decide_eq_true_2, bool_decide_eq_false_2 in Em by lia.
    + rewrite Z.land_spec, testbit_not64, testbit_sign by lia.
      rewrite bool_decide_eq_true_2 by done. apply andb_false_r.
Qed.
End switch.

(** ** The [switch] on expressions *)

Section kinds.
Context `{APIntLaws} `{WfStore} `{ObjectIdentity} `{Options}.
Implicit Types (ρ : assignment) (e : Expr) (i : BitsInfo).

(** The value of a node by the values of its kids *)
Definition kid_value ρ e (vs : list Z) : Z :=
  match e, vs with
  | Constant c, _ => cvalue c
  | NotOptimized _, [a] | ZExt _ _, [a] => a
  | Read root head _, [a] => eval_read ρ root head a
  | Select _ _ _, [c; a; b] => if c =? 1 then a else b
  | Concat _ r, [a; b] => bv_concat (getWidth r) a b
  | Extract _ off w, [a] => bv_extract a off w
  | SExt x w, [a] => bv_sext (getWidth x) a w
  | Not x, [a] => bv_not (getWidth x) a
  | Binary k l _, [a; b] => bv_eval k (getWidth l) a b
  | _, _ => 0
  end.

Lemma eval_kids ρ e : eval ρ e = kid_value ρ e (eval ρ <$> getKids e).
Proof. by destruct e. Qed.

Lemma eval_replace ρ e kids :
  Forall2 same_type kids (getKids e) →
  eval ρ (replace_kids e kids) = kid_value ρ e (eval ρ <$> kids).
Proof.
  intros Hk. destruct e; cbn in Hk;
    repeat match goal with
    | H : Forall2 _ _ (_ :: _) |- _ => apply Forall2_cons_inv_r in H as (? & ? & [? ?] & H & ->)
    | H : Forall2 _ _ [] |- _ => apply Forall2_nil_inv_r in H as ->
    end; cbn; congruence.
Qed.

Lemma wf_replace e kids :
  wf e → Forall2 same_type kids (getKids e) →
  wf (replace_kids e kids) ∧ getWidth (replace_kids e kids) = getWidth e.
Proof.
  intros He Hk. destruct e; cbn in Hk;
    repeat match goal with
    | H : Forall2 _ _ (_ :: _) |- _ => apply Forall2_cons_inv_r in H as (? & ? & [? ?] & H & ->)
    | H : Forall2 _ _ [] |- _ => apply Forall2_nil_inv_r in H as ->
    end; cbn in *; destruct_and?; split_and!; try done; try congruence; try lia.
  case_step; congruence.
Qed.

Lemma sound_bits_ext ign w ws vs f g r :
  (∀ vs, f vs = g vs) → sound_bits ign w ws vs f r → sound_bits ign w ws vs g r.
Proof. intros Hfg []. split; try done; intros; rewrite <- ?Hfg; auto. Qed.

(** The kids are what they were. *)
Lemma agree_all_0 ws vs vs' infos :
  Forall (λ i, ignoredBits i = 0) infos → Forall (λ w, w ≤ 64) ws →
  Forall2 bounded ws vs → Forall2 bounded ws vs' →
  Forall3 agree (ignoredBits <$> infos) vs vs' → vs' = vs.
Proof.
  intros Hi Hw Hv. revert vs' infos Hi. induction Hv as [|w v ws vs Hv Hvs IH]; intros vs' infos Hi Hv' Ha.
  - by apply Forall2_nil_inv_l in Hv' as ->.
  - apply Forall_cons in Hw as [Hw Hws]. apply Forall2_cons_inv_l in Hv' as (v' & vs'' & Hv' & Hvs' & ->).
    destruct infos as [|i infos]; [inversion Ha|]. apply Forall_cons in Hi as [Hi His].
    inversion Ha; subst. rewrite Hi in *. f_equal; [by apply (agree_0 v v' w)|by eapply IH].
Qed.

Definition kid_known (ρ : assignment) (i : BitsInfo) (k : Expr) : Prop :=
  info64 i ∧ ignoredBits i = 0 ∧ knows i (eval ρ k) ∧ tops i (getWidth k).

Lemma general_bits_ok ρ ign w bits kids f :
  0 ≤ w → wf_assignment ρ → Forall wf kids → Forall2 (kid_known ρ) bits kids →
  f (eval ρ <$> kids) `bits` w →
  sound_bits ign w (getWidth <$> kids) (eval ρ <$> kids) f (mkBits ign 0 (zeroMask w), bits).
Proof.
  intros Hw0 Hρ Hk Hb Hf. split.
  - intros n Hn. cbn. autorewrite with bits64. split; [done|]. case_bool_decide; [|done].
    intros _. by apply (testbit_high w).
  - intros n Hn Hw. cbn. autorewrite with bits64. by apply bool_decide_eq_true_2.
  - cbn. apply Forall2_fmap_r. eapply Forall2_impl; [exact Hb|]. intros i k (_ & _ & Hi & _) n Hn _. by apply Hi.
  - intros vs' Hvs' Ha. cbn in Ha.
    rewrite (agree_all_0 (getWidth <$> kids) (eval ρ <$> kids) vs' bits); [done|..|done|done].
    + clear -Hb. induction Hb as [|i k infos ks (_ & Hi & _)]; by constructor.
    + clear -Hk. induction Hk as [|k ks Hk]; cbn; constructor; [|done]. pose proof (wf_width k Hk). lia.
    + clear -H2 Hk Hρ. induction Hk as [|k ks Hk]; cbn; constructor; [|done]. by apply eval_bounded.
Qed.

Lemma constant_bits_ok ρ ign c :
  wf_constant c →
  sound_bits ign (cwidth c) [] [] (kid_value ρ (Constant c))
    (mkBits ign (cvalue c) (not64 (cvalue c)), []).
Proof.
  intros [Hw Hv]. split; cbn; [|intros n Hn Hn'|constructor|done].
  - intros n Hn. cbn. autorewrite with bits64. bit_cases.
  - cbn. autorewrite with bits64. by rewrite (testbit_high (cwidth c)).
Qed.

Ltac by_bits lem :=
  cbn [kind_bits getWidth];
  repeat match goal with H : getWidth ?k = _ |- context [getWidth ?k] => rewrite H in * end;
  apply yields_done; eapply sound_bits_ext; [|apply lem; done || lia];
  intros [|? [|? [|? [|]]]]; first [done | cbn [kid_value]; congruence].

Ltac by_shift lem c1 :=
  cbn [kind_bits getWidth is_cmp eval] in *;
  rewrite getZExtValue_spec by lia; ystep; ystep; [apply Z.eqb_eq; congruence|];
  match goal with H : cwidth c1 = _ |- _ => rewrite H in * end; by_bits (lem).

Lemma kind_bits_ok ρ e kids ign bits :
  wf e → wf_assignment ρ → ign `bits` 64 → Forall2 same_type kids (getKids e) →
  Forall2 (kid_known ρ) bits kids →
  kind_bits e kids ign bits ⇓
    sound_bits ign (getWidth e) (getWidth <$> kids) (eval ρ <$> kids) (kid_value ρ e).
Proof.
  intros He Hρ Hign Hkids Hbits.
  assert (Forall wf kids) as Hwf.
  { clear -Hkids. induction Hkids as [|k k' ks ks' [Hk _]]; by constructor. }
  assert (sound_bits ign (getWidth e) (getWidth <$> kids) (eval ρ <$> kids) (kid_value ρ e)
    (mkBits ign 0 (zeroMask (getWidth e)), bits)) as Hgen.
  { pose proof (wf_width e He). apply general_bits_ok; try done; [lia|]. 
    rewrite <- eval_replace by done.
    destruct (wf_replace e kids He Hkids) as [? <-]. by apply eval_bounded. }
  destruct e as [c|x|root head x|c x y|l r|x off w|x w|x w|x|k l r]; cbn in Hkids;
    repeat match goal with
    | H : Forall2 _ _ (_ :: _) |- _ => apply Forall2_cons_inv_r in H as (? & ? & ? & H & ->)
    | H : Forall2 _ _ [] |- _ => apply Forall2_nil_inv_r in H as ->
    end; try done; cbn in He;
    repeat match goal with
    | H : same_type ?k _ |- _ =>
        destruct H as [? ?]; pose proof (wf_width k ltac:(done));
        pose proof (eval_bounded ρ k Hρ ltac:(done))
    | H : kid_known ρ _ _ |- _ => destruct H as (? & ? & ? & ?)
    end; destruct_and?; cbn [fmap list_fmap]; cbn [getWidth].
  - cbn [kind_bits]. rewrite getZExtValue_spec by apply He. by apply constant_bits_ok.
  - by_bits select_bits_ok.
  - by_bits concat_bits_ok.
  - by_bits extract_bits_ok.
  - by_bits zext_bits_ok.
  - by_bits sext_bits_ok.
  - by_bits not_bits_ok.
  - destruct k; try exact Hgen.
    + by_bits and_bits_ok.
    + by_bits or_bits_ok.
    + by_bits xor_bits_ok.
    + destruct x3 as [c1| | | | | | | | |]; try exact Hgen. by_shift shl_bits_ok c1.
    + destruct x3 as [c1| | | | | | | | |]; try exact Hgen. by_shift lshr_bits_ok c1.
Qed.
End kinds.
