(* ===== verification/BitfieldCorrect.v ===== *)
(** * The bit-level simplifier on sequences of expressions

    The recursion of [BitfieldSimplifier::doSimplifyBits] ends, and what it returns
    has the value of its argument at the bits that are used, as long as no entry of
    the cache was made for an expression simplified under ignored bits. *)

From stdpp Require Import prelude.
From S2P Require Import Prelude Bitvec Bits APInt ExprData ExprConstants ExprCasts ExprBinary.
From S2P Require Import ExprBinaryProofs ExprSelectRead ExprMeasure BitfieldSimplifier BitfieldProofs.

(** Expressions that divide by constants other than zero only, and shift
    arithmetically by constants less than the width only: no simplification makes
    an operation on constants of them that APInt does not define. *)
Definition tame_op (k : BinaryKind) (w : Z) (r : Expr) : Prop :=
  match k, r with
  | (UDiv | SDiv | URem | SRem), Constant c => cvalue c ≠ 0
  | AShr, Constant c => cvalue c < w
  | (UDiv | SDiv | URem | SRem | AShr), _ => False
  | _, _ => True
  end.

Fixpoint tame (e : Expr) : Prop :=
  match e with
  | Constant _ => True
  | NotOptimized x | Extract x _ _ | ZExt x _ | SExt x _ | Not x => tame x
  | Read _ head index => tame_nodes head ∧ tame index
  | Select c t f => tame c ∧ tame t ∧ tame f
  | Concat l r => tame l ∧ tame r
  | Binary k l r => tame l ∧ tame r ∧ tame_op k (getWidth l) r
  end
with tame_nodes (un : UpdateNode) : Prop :=
  match un with
  | NullNode => True
  | Node next _ value => tame value ∧ tame_nodes next
  end.

(** ** Triples *)

(** An entry of the cache: in every state, and in one that is not tainted *)
Definition entry_base (x : Expr * BitsInfo) : Prop :=
  info64 x.2 ∧ covered x.2 = false ∧ (1 < length (getKids x.1))%nat.

Definition state_base (st : BitfieldSimplifier) : Prop := Forall entry_base (m_bitsInfoCache st).

Section triples.
Context `{WfStore}.

Definition entry_ok (x : Expr * BitsInfo) : Prop :=
  ignoredBits x.2 = 0 ∧
  ∀ ρ, wf_assignment ρ → knows x.2 (eval ρ x.1) ∧ tops x.2 (getWidth x.1).

Definition state_ok (st : BitfieldSimplifier) : Prop := Forall entry_ok (m_bitsInfoCache st).

(** What a computation guarantees: it never runs out of fuel, and its results
    satisfy [B]; if it leaves the state untainted, the entries stay right, no
    assertion fails and, under [Hyp], its result satisfies [G]. *)
Record guarantees {A} (Hyp : Prop) (B G : A → Prop) (st : BitfieldSimplifier)
    (r : outcome A * BitfieldSimplifier) : Prop := {
  g_base : state_base r.2;
  g_table : m_simplifiedExpressions r.2 = m_simplifiedExpressions st;
  g_taint : tainted st = true → tainted r.2 = true;
  g_fuel : r.1 ≠ OutOfFuel;
  g_done a : r.1 = Done a → B a;
  g_sound : tainted r.2 = false → state_ok st → Hyp →
    state_ok r.2 ∧ ∃ a, r.1 = Done a ∧ G a;
}.

Definition tri {A} (Hyp : Prop) (B G : A → Prop) (m : F A) : Prop :=
  ∀ st, state_base st → guarantees Hyp B G st (m st).

Lemma tri_ret {A} (Hyp : Prop) (B G : A → Prop) a :
  B a → (Hyp → G a) → tri Hyp B G (mret a).
Proof. intros HB HG st Hst. split; cbn; try done; [by intros ? [= <-]|eauto]. Qed.

Lemma tri_bind {A C} (Hyp : Prop) (B1 G1 : A → Prop) (B2 G2 : C → Prop) (m : F A) (f : A → F C) :
  tri Hyp B1 G1 m → (∀ a, B1 a → tri (Hyp ∧ G1 a) B2 G2 (f a)) → tri Hyp B2 G2 (m ≫= f).
Proof.
  intros Hm Hf st Hst. destruct (Hm st Hst) as [Hb Ht Htt Hfu Hd Hs].
  unfold mbind, F_bind. destruct (m st) as [[a| |] st'] eqn:E; cbn in *; [|split; cbn; try done|done].
  - destruct (Hf a (Hd a eq_refl) st' Hb) as [Hb' Ht' Htt' Hfu' Hd' Hs'].
    split; [done|congruence|auto|done|done|]. intros Hu Hok HH.
    assert (tainted st' = false) as Hu'.
    { destruct (tainted st'); [|done]. by rewrite Htt' in Hu. }
    destruct (Hs Hu' Hok HH) as (Hok' & a' & [= <-] & HG). by apply Hs'.
  - intros Hu Hok HH. destruct (Hs Hu Hok HH) as (_ & a & ? & _). done.
Qed.

Lemma tri_mono {A} (Hyp Hyp' : Prop) (B B' G G' : A → Prop) m :
  tri Hyp' B' G' m → (Hyp → Hyp') → (∀ a, B' a → B a) → (∀ a, Hyp → B' a → G' a → G a) →
  tri Hyp B G m.
Proof.
  intros Hm HH HB HG st Hst. destruct (Hm st Hst) as [Hb Ht Htt Hfu Hd Hs].
  split; try done; [by intros a ?; apply HB, Hd|].
  intros Hu Hok Hh. destruct (Hs Hu Hok (HH Hh)) as (Hok' & a & Ha & HGa).
  split; [done|]. exists a. auto.
Qed.

(** A computation that does not touch the state *)
Lemma tri_check {A} (Hyp : Prop) (B G : A → Prop) (m : outcome A) :
  m ⇓ B → (∀ a, Hyp → m = Done a → G a) → tri Hyp B G (check m).
Proof.
  intros HB HG st Hst. apply yields_inv in HB as (a & -> & HB).
  split; cbn; try done; [by intros ? [= <-]|eauto].
Qed.

(** An assertion that holds as long as the state is not tainted *)
Lemma tri_assert (Hyp : Prop) (B G : unit → Prop) (m : outcome unit) :
  m ≠ OutOfFuel → (m = Done tt → B tt) → (Hyp → m = Done tt ∧ G tt) → tri Hyp B G (check m).
Proof.
  intros Hm HB HG st Hst. split; cbn; try done; [by intros []|].
  intros _ Hok Hh. destruct (HG Hh). eauto.
Qed.

Lemma tri_filter (Hyp : Prop) (B G : unit → Prop) f :
  (∀ l, f l ⊆ l) → B tt → (Hyp → G tt) → tri Hyp B G (set_cache f).
Proof.
  intros Hf HB HG st Hst. split; cbn; try done.
  - unfold state_base in *. cbn. rewrite Forall_forall in *. intros x Hx. apply Hst, (Hf _ _ Hx).
  - by intros [].
  - intros _ Hok Hh. split; [|eauto]. unfold state_ok in *. cbn. rewrite Forall_forall in *.
    intros x Hx. apply Hok, (Hf _ _ Hx).
Qed.

Lemma map_find_elem {V} e (l : list (Expr * V)) v : map_find e l = Some v → (e, v) ∈ l.
Proof.
  induction l as [|[e' v'] l IH]; cbn; [done|]. case_bool_decide; intros; simplify_eq.
  - left.
  - right. auto.
Qed.

Lemma tri_cache (Hyp : Prop) (B G : unit → Prop) e i :
  entry_base (e, i) → (Hyp → ignoredBits i = 0 → entry_ok (e, i)) → B tt → (Hyp → G tt) →
  tri Hyp B G (cache_bits e i).
Proof.
  intros He Hok HB HG st Hst. unfold cache_bits, map_insert.
  destruct (map_find e (m_bitsInfoCache st)) eqn:E; split; cbn; try done; try by intros [].
  - by rewrite orb_false_r.
  - intros. eauto.
  - by constructor.
  - by intros ->.
  - intros [_ Hi]%orb_false_iff Hst' Hh. apply negb_false_iff, Z.eqb_eq in Hi.
    split; [|eauto]. constructor; auto.
Qed.
End triples.

Section correct.
Context `{APIntLaws} `{WfStore} `{ObjectIdentity} `{Options}.
Implicit Types (e k : Expr) (i b o : BitsInfo) (ign : Z).

Lemma tame_closed : closed tame.
Proof.
  split; [split|..]; try (intros; cbn in *; tauto).
  by intros [] l r; cbn; intros; try done.
Qed.

(** ** The masks stay at 64 bits *)

Lemma bounded64_land x y : x `bits` 64 → y `bits` 64 → Z.land x y `bits` 64.
Proof. intros ? [? _]. by apply bounded_land. Qed.

Lemma bounded64_lor x y : x `bits` 64 → y `bits` 64 → Z.lor x y `bits` 64.
Proof. by apply bounded_lor. Qed.

Lemma bounded64_not x : not64 x `bits` 64.
Proof. apply bounded_u64. Qed.

Lemma bounded64_shl x n : shl64 x n `bits` 64.
Proof. apply bounded_u64. Qed.

Lemma bounded64_all : all64 `bits` 64.
Proof. apply bounded_u64. Qed.

Lemma bounded64_0 : 0 `bits` 64.
Proof. by apply bounded_0. Qed.

Lemma info64_intro ign one zero :
  ign `bits` 64 → one `bits` 64 → zero `bits` 64 → info64 (mkBits ign one zero).
Proof. done. Qed.

Lemma info64_set_ignored ign i : info64 i → ign `bits` 64 → info64 (set_ignored ign i).
Proof. by intros (?&?&?). Qed.

Lemma info64_to_one i : info64 i → info64 (to_one i).
Proof.
  intros (?&?&?). unfold to_one. case_step; [|done].
  split_and!; [done|apply bounded64_all|apply bounded64_0].
Qed.

Lemma info64_to_zero i : info64 i → info64 (to_zero i).
Proof.
  intros (?&?&?). unfold to_zero. case_step; [|done].
  split_and!; [done|apply bounded64_0|apply bounded64_all].
Qed.

Create HintDb mask64.
#[local] Hint Resolve bounded64_land bounded64_lor bounded64_not bounded64_shl bounded64_all : mask64.
#[local] Hint Resolve bounded64_0 bounded_zeroMask info64_intro info64_set_ignored : mask64.
#[local] Hint Resolve info64_to_one info64_to_zero : mask64.
#[local] Hint Extern 1 (Z.shiftr _ _ `bits` 64) => apply bounded_shiftr; [|lia] : mask64.

Definition switch_info ign (bits : list BitsInfo) (r : BitsInfo * list BitsInfo) : Prop :=
  info64 r.1 ∧ Forall info64 r.2 ∧ length r.2 = length bits ∧ ignoredBits r.1 = ign.

Ltac masks :=
  repeat match goal with
  | H : info64 ?i |- _ =>
      lazymatch goal with
      | _ : ignoredBits i `bits` 64 |- _ => fail
      | _ => pose proof H as (?&?&?)
      end
  end;
  cbv zeta; repeat match goal with |- context [if ?c then _ else _] => destruct c end;
  (split; [|split; [|done]]); cbn [fst snd];
  repeat first [apply Forall_cons_2 | apply Forall_nil_2]; auto 8 with mask64.

Ltac by_masks lem :=
  match goal with H : wf (Constant _) |- _ => destruct (proj2 H) end;
  cbn [kind_bits getWidth is_cmp]; rewrite getZExtValue_spec by (cbn in *; lia);
  ystep; ystep; [apply Z.eqb_eq; congruence|]; apply yields_done; unfold lem; masks.

Lemma kind_bits_info e kids ign bits :
  wf e → ign `bits` 64 → Forall2 same_type kids (getKids e) → Forall info64 bits →
  length bits = length kids → kind_bits e kids ign bits ⇓ switch_info ign bits.
Proof.
  intros He Hign Hkids Hbits Hlen.
  assert (switch_info ign bits (mkBits ign 0 (zeroMask (getWidth e)), bits)) as Hgen.
  { split; [|done]. cbn [fst]. auto with mask64. }
  destruct e as [c|x|root head x|c x y|l r|x off w|x w|x w|x|k l r]; cbn in Hkids;
    repeat match goal with
    | H : Forall2 _ _ (_ :: _) |- _ => apply Forall2_cons_inv_r in H as (? & ? & [? ?] & H & ->)
    | H : Forall2 _ _ [] |- _ => apply Forall2_nil_inv_r in H as ->
    end; destruct bits as [|? [|? [|? [|? ?]]]]; try done;
    repeat match goal with H : Forall info64 (_ :: _) |- _ => apply Forall_cons in H as [? H] end;
    cbn in He; destruct_and?;
    repeat match goal with H : wf ?k |- _ => learn (wf_width k H) end.
  - cbn [kind_bits]. rewrite getZExtValue_spec by apply He. apply yields_done. destruct He.
    assert (cvalue c `bits` 64) by (by apply (bounded_mono (cwidth c)); [lia|]). masks.
  - apply yields_done. unfold select_bits. masks.
  - apply yields_done. unfold concat_bits. masks.
  - apply yields_done. unfold extract_bits. masks.
  - apply yields_done. unfold zext_bits. masks.
  - apply yields_done. unfold sext_bits. masks.
  - apply yields_done. unfold not_bits. masks.
  - destruct k; try exact Hgen.
    + apply yields_done. unfold and_bits. masks.
    + apply yields_done. unfold or_bits. masks.
    + apply yields_done. unfold xor_bits. masks.
    + match goal with |- context [kind_bits _ [_; ?r]] => destruct r; try exact Hgen end. by_masks shl_bits.
    + match goal with |- context [kind_bits _ [_; ?r]] => destruct r; try exact Hgen end. by_masks lshr_bits.
Qed.

(** ** The steps *)

(** [e'] can stand for [e] in what follows; [i] describes [e']. *)
Definition good e e' : Prop :=
  same_type e' e ∧ tame e' ∧ weight e' ≤ weight e.

Definition fixed i e' : Prop :=
  info64 i ∧ (covered i = true → ∃ c, e' = Constant c ∧ cvalue c = knownOneBits i).

Definition sound_result e ign (r : Expr * BitsInfo) : Prop :=
  (ign = 0 → ignoredBits r.2 = 0) ∧
  ∀ ρ, wf_assignment ρ →
    agree ign (eval ρ e) (eval ρ r.1) ∧ knows r.2 (eval ρ e) ∧ tops r.2 (getWidth e).

(** The constant that [replaceWithConstant] returns *)
Definition constant_of e (value : Z) : Expr :=
  Constant (mkConstant (getWidth e) (Z.land value (not64 (zeroMask (getWidth e))))).

Lemma low_bits w v n :
  0 ≤ w → 0 ≤ n < 64 →
  Z.testbit (Z.land v (not64 (zeroMask w))) n = bool_decide (n < w) && Z.testbit v n.
Proof.
  intros. rewrite Z.land_spec, testbit_not64, testbit_zeroMask by lia.
  repeat case_bool_decide; try lia; destruct (Z.testbit v n); done.
Qed.

Lemma low_bounded w v :
  0 ≤ w ≤ 64 → v `bits` 64 → Z.land v (not64 (zeroMask w)) `bits` w.
Proof.
  intros Hw Hv. assert (Z.land v (not64 (zeroMask w)) `bits` 64) as Hb by auto with mask64.
  apply bounded_testbit; [lia|apply Hb|]. intros n Hn.
  destruct (decide (n < 64)); [|by apply (testbit_high 64); [|lia]].
  rewrite low_bits by lia. by rewrite bool_decide_eq_false_2 by lia.
Qed.

Lemma low_small w v : 0 ≤ w ≤ 64 → v `bits` w → Z.land v (not64 (zeroMask w)) = v.
Proof.
  intros Hw Hv. assert (v `bits` 64) by (by apply (bounded_mono w); [lia|]).
  apply (bounded_ext w); [by apply low_bounded|done|]. intros n Hn.
  rewrite low_bits by lia. by rewrite bool_decide_eq_true_2 by lia.
Qed.

Lemma erase_subset {V} e (l : list (Expr * V)) : map_erase e l ⊆ l.
Proof. intros x Hx. by apply list_elem_of_filter in Hx as [_ ?]. Qed.

Lemma erase_all_subset {V} es (l : list (Expr * V)) :
  foldl (λ l k, map_erase k l) l es ⊆ l.
Proof.
  revert l. induction es as [|e es IH]; intros l; [done|]. cbn.
  etrans; [apply IH|apply erase_subset].
Qed.

Lemma replaceWithConstant_tri Hyp e v :
  wf e → v `bits` 64 →
  tri Hyp (λ r, r = constant_of e v) (λ _, True) (replaceWithConstant e v).
Proof.
  intros He Hv. pose proof (wf_width e He) as Hw. unfold replaceWithConstant.
  eapply (tri_bind _ (λ b : bool, b = true → e = constant_of e v) (λ _, True)).
  - apply tri_check; [|done]. destruct e; try done. cbn in He. destruct He as [? Hc].
    rewrite getZExtValue_spec by lia. ystep. ystep. intros Hcv%Z.eqb_eq; subst v. unfold constant_of.
    cbn [getWidth]. rewrite low_small by (done || lia). by destruct c.
  - intros [] Hb; [by apply tri_ret; [apply Hb|]|].
    eapply (tri_bind _ (λ _, True) (λ _, True)).
    + apply tri_filter; [|done..]. intros l. etrans; [apply erase_subset|apply erase_all_subset].
    + intros _ _. apply tri_check; [|done]. unfold create_constant.
      by rewrite ConstantExpr_create_spec by (done || by apply low_bounded; [lia|]).
Qed.

(** The constant agrees with a value whose used bits are all known. *)
Lemma constant_of_agree e b v :
  0 < getWidth e ≤ 64 → v `bits` getWidth e → covered b = true → knows_used b v →
  agree (ignoredBits b) v (Z.land (knownOneBits b) (not64 (zeroMask (getWidth e)))).
Proof.
  intros Hw Hv Hc Hk n Hn Hi. rewrite low_bits by lia. destruct (Hk n Hn Hi) as [H1' H0'].
  destruct (covered_bits b n Hc Hn Hi) as [Hb|Hb].
  - rewrite Hb, H1' by done. rewrite bool_decide_eq_true_2; [done|].
    destruct (decide (n < getWidth e)); [done|].
    rewrite (testbit_high (getWidth e) v) in H1' by (done || lia). by specialize (H1' Hb).
  - rewrite H0' by done. destruct (Z.testbit (knownOneBits b) n) eqn:E; [|by rewrite andb_false_r].
    rewrite H0' in H1' by done. by specialize (H1' eq_refl).
Qed.

Lemma constant_of_good e v : wf e → v `bits` 64 → good e (constant_of e v).
Proof.
  intros He Hv. pose proof (wf_width e He). pose proof (weight_pos e).
  split_and!; [split; [|done]|done|cbn; lia]. split; [cbn; lia|]. cbn. by apply low_bounded; [lia|].
Qed.

Section loops.
Context (simp : Expr → Z → F (Expr * BitsInfo)) (n : Z).

(** What the induction gives for lighter expressions *)
Definition simp_ok : Prop := ∀ Hyp k ign, weight k < n → wf k → tame k → ign `bits` 64 →
  tri Hyp (λ r, good k r.1 ∧ fixed r.2 r.1 ∧ (isConstant k = true → r.1 = k))
    (sound_result k ign) (simp k ign).

Context (IH : simp_ok).

(** What is known of the kids after the first loop *)
Definition visited_base (l : list Expr) (r : list Expr * list BitsInfo) : Prop :=
  Forall2 good l r.1 ∧ Forall2 fixed r.2 r.1 ∧
  Forall2 (λ k k', isConstant k = true → k' = k) l r.1.

Definition visited_sound (l : list Expr) (r : list Expr * list BitsInfo) : Prop :=
  ∀ ρ, wf_assignment ρ → eval ρ <$> r.1 = eval ρ <$> l ∧ Forall2 (kid_known ρ) r.2 r.1.

Lemma simplify_kids_tri Hyp l :
  Forall (λ k, weight k < n ∧ wf k ∧ tame k) l →
  tri Hyp (visited_base l) (visited_sound l) (simplify_kids simp l).
Proof.
  intros Hl. revert Hyp. induction Hl as [|k l (Hn & Hk & Ht) Hl IHl]; intros Hyp; cbn [simplify_kids].
  { apply tri_ret; [by split_and!; constructor|]. intros _ ρ Hρ. by split. }
  eapply tri_bind; [apply (IH Hyp k 0); [done..|auto with mask64]|].
  intros [k' i] (Hg & Hf & Hc). cbn [fst snd] in *. eapply tri_bind; [apply IHl|].
  intros [kids bits] (Hgs & Hfs & Hcs). cbn [fst snd] in *. apply tri_ret.
  { by split_and!; constructor. }
  intros [[_ [Hi Hs]] Hss] ρ Hρ. cbn [fst snd] in *. specialize (Hi eq_refl).
  destruct (Hss ρ Hρ) as [Hev Hks], (Hs ρ Hρ) as (Ha & Hkn & Htp), Hg as ([Hk' Hw] & _).
  pose proof (wf_width k Hk). assert (eval ρ k' = eval ρ k) as Hev'.
  { apply (agree_0 _ _ (getWidth k)); [lia|by apply eval_bounded| |done].
    rewrite <- Hw. by apply eval_bounded. }
  cbn [fst snd] in *. split; [by rewrite !fmap_cons, Hev', Hev|]. constructor; [|done].
  split; [apply Hf|]. split; [done|]. by rewrite Hev', Hw.
Qed.

(** A kid on which the [switch] finds nothing new does not change. *)
Definition improved (x : Expr * (BitsInfo * BitsInfo)) k' : Prop :=
  good x.1 k' ∧ (x.2.1 = x.2.2 → fixed x.2.1 x.1 → k' = x.1).

Lemma constant_of_self c : wf_constant c → constant_of (Constant c) (cvalue c) = Constant c.
Proof.
  intros [Hw Hv]. unfold constant_of. cbn [getWidth]. rewrite low_small by (done || lia). by destruct c.
Qed.

Lemma improve_kid_tri (Hyp : Prop) k o b :
  weight k < n → wf k → tame k → info64 b →
  (Hyp → ∀ ρ, wf_assignment ρ → knows_used b (eval ρ k)) →
  tri Hyp (improved (k, (o, b)))
    (λ k', ∀ ρ, wf_assignment ρ → agree (ignoredBits b) (eval ρ k) (eval ρ k'))
    (if covered b then replaceWithConstant k (knownOneBits b)
     else if negb (Z.land (ignoredBits b) (not64 (ignoredBits o)) =? 0)
     then '(k', _) ← simp k (ignoredBits b); mret k' else mret k).
Proof.
  intros Hn Hk Ht Hi Hu. destruct (covered b) eqn:Ec; [|destruct (_ =? 0) eqn:Eo; cbn [negb]].
  - eapply tri_mono; [by apply (replaceWithConstant_tri Hyp), Hi|done|..].
    + intros ? ->. split; [by apply constant_of_good, Hi|]. cbn. intros -> [_ Hc].
      destruct (Hc Ec) as (c & -> & <-). by apply constant_of_self.
    + intros ? HH -> _ ρ Hρ. pose proof (wf_width k Hk).
      apply constant_of_agree; auto. by apply eval_bounded.
  - apply tri_ret; [|by intros ???; apply agree_refl]. split; [|done]. split_and!; done || lia.
  - eapply tri_bind; [by apply (IH Hyp k (ignoredBits b)), Hi|].
    intros [k' i] (Hg & _). apply tri_ret; [|intros [_ [_ Hs]] ρ Hρ; by apply Hs].
    split; [done|]. cbn. intros -> _. exfalso. apply Z.eqb_neq in Eo. apply Eo, Z.eqb_eq.
    apply land_zero; [apply Hi|apply bounded_u64|].
    intros m Hm. rewrite testbit_not64 by done. by destruct (Z.testbit _ m).
Qed.

Lemma improve_kids_tri (Hyp : Prop) kids old bits :
  length old = length kids → length bits = length kids →
  Forall (λ k, weight k < n ∧ wf k ∧ tame k) kids → Forall info64 bits →
  (Hyp → ∀ ρ, wf_assignment ρ → Forall2 knows_used bits (eval ρ <$> kids)) →
  tri Hyp (Forall2 improved (zip kids (zip old bits)))
    (λ kids', ∀ ρ, wf_assignment ρ →
      Forall3 agree (ignoredBits <$> bits) (eval ρ <$> kids) (eval ρ <$> kids'))
    (improve_kids simp kids old bits).
Proof.
  intros Ho Hb Hkids. revert Hyp old bits Ho Hb.
  induction Hkids as [|k kids (Hn & Hk & Ht) _ IHk]; intros Hyp [|o old] [|b bits] Ho Hb Hi Hu; try done.
  { apply tri_ret; [constructor|]. intros. constructor. }
  apply Forall_cons in Hi as [Hi His]. cbn [improve_kids].
  assert (Hyp → ∀ ρ, wf_assignment ρ → knows_used b (eval ρ k) ∧ Forall2 knows_used bits (eval ρ <$> kids)) as Hu'.
  { intros HH ρ Hρ. specialize (Hu HH ρ Hρ). rewrite fmap_cons in Hu. by apply Forall2_cons in Hu. }
  eapply tri_bind; [apply improve_kid_tri; try done; intros; by apply Hu'|]. intros k' Hg.
  eapply tri_bind; [apply IHk; [cbn in *; lia..|done|]|].
  - intros [HH _] ρ Hρ. by apply Hu'.
  - intros kids' Hgs. apply tri_ret; [by constructor|]. intros [[_ Ha] Has] ρ Hρ.
    rewrite !fmap_cons. constructor; auto.
Qed.
End loops.

(** ** One node *)

Lemma kids_lighter e :
  wf e → tame e → Forall (λ k, weight k < weight e ∧ wf k ∧ tame k) (getKids e).
Proof.
  intros He Ht. destruct e as [c|x|root head x|c x y|l r|x off w|x w|x w|x|k l r];
    try pose proof (weight_binary k l r); cbn [wf tame] in He, Ht; destruct_and?; cbn [getKids];
    repeat match goal with H : tame ?x |- _ => learn (weight_pos x) end;
    repeat constructor; try done; try lia; try (cbn [weight]; lia).
  destruct head as [|next j v]; cbn [weight].
  - case_bool_decide; lia.
  - pose proof (proj2 weights_pos (Node next j v)). nia.
Qed.

Lemma good_trans e e' e'' : good e e' → good e' e'' → good e e''.
Proof. intros ([_ Hw]&_&?) ([? Hw']&?&?). split; [by split; [|congruence]|]. split; [done|lia]. Qed.

Lemma fold_all64 ign : covered (mkBits ign 0 all64) = true.
Proof. apply not64_zero. intros n Hn. cbn -[all64]. by rewrite Z.lor_spec, testbit_all64. Qed.

Lemma improved_good l kids old bits kids' :
  Forall2 good l kids → length old = length kids → length bits = length kids →
  Forall2 improved (zip kids (zip old bits)) kids' → Forall2 good l kids'.
Proof.
  intros Hg. revert old bits kids'. induction Hg as [|e k l kids Hk _ IH];
    intros [|o old] [|b bits] kids' Ho Hb Hi; try done.
  - by apply Forall2_nil_inv_l in Hi as ->.
  - cbn in Hi. apply Forall2_cons_inv_l in Hi as (k' & ks & [Hk' _] & Hi & ->).
    constructor; [by apply (good_trans _ k)|]. eapply IH; [..|exact Hi]; cbn in *; lia.
Qed.

(** A binary operator with the improved kids: a division and an arithmetic shift
    keep their constant, and a shift by a constant that is too large is covered. *)
Lemma improved_binary (k : BinaryKind) l r ign k0 k1 o0 o1 b0 b1 rbits k0' k1' :
  tame (Binary k l r) → good l k0' → good r k1' → (isConstant r = true → k1 = r) →
  getWidth k0 = getWidth l → wf k1 → fixed o1 k1 →
  kind_bits (Binary k l r) [k0; k1] ign [o0; o1] = Done (rbits, [b0; b1]) → covered rbits = false →
  improved (k1, (o1, b1)) k1' →
  rebuild_defined (Binary k l r) [k0'; k1'] ∧ tame_op k (getWidth k0') k1'.
Proof.
  intros (_ & _ & Ht) [[_ Hw] _] [[Hwf1 _] _] Hc Hw0 Hwf Hf Hb Hcov [_ Hi].
  cbn in Hi. rewrite Hw.
  assert (tame_op k (getWidth l) k1' → (k = Shl ∨ k = LShr → ∀ c, k1' = Constant c → cvalue c < getWidth l) →
    rebuild_defined (Binary k l r) [k0'; k1'] ∧ tame_op k (getWidth l) k1') as Hmain.
  { intros Ht' Hs. split; [|done]. destruct k0'; try done. destruct k1'; try done. cbn in Hw |- *.
    destruct k; cbn in Ht' |- *; rewrite ?Hw; auto. }
  destruct k; try (apply Hmain; [done|by intros [|]]; fail); cbn in Ht;
    try (destruct r as [c| | | | | | | | |]; try done; specialize (Hc eq_refl); subst k1;
      cbn in Hb; simplify_eq; rewrite Hi in * by done; apply Hmain; [done|by intros [|]]; fail).
  all: apply Hmain; [done|]; intros _ c1 ->;
    destruct k1 as [c| | | | | | | | |]; cbn [kind_bits] in Hb;
    try (simplify_eq; discriminate (Hi eq_refl Hf)).
  all: rewrite getZExtValue_spec in Hb by apply Hwf; cbn [mbind outcome_bind getWidth is_cmp] in Hb;
    rewrite Hw0, Z.eqb_refl in Hb; cbn [mbind outcome_bind cassert] in Hb;
    unfold shl_bits, lshr_bits in Hb; case_match; simplify_eq;
    [injection (Hi eq_refl Hf) as ->; by apply Z.ltb_lt|by rewrite fold_all64 in Hcov].
Qed.

Lemma improved_defined e kids old ign rbits bits kids' :
  tame e → visited_base (getKids e) (kids, old) → length bits = length old →
  kind_bits e kids ign old = Done (rbits, bits) → covered rbits = false →
  Forall2 improved (zip kids (zip old bits)) kids' →
  Forall2 good (getKids e) kids' ∧ rebuild_defined e kids' ∧ tame (replace_kids e kids').
Proof.
  intros Ht (Hg & Hf & Hc) Hlen Hb Hcov Hi. cbn [fst snd] in *.
  pose proof (Forall2_length _ _ _ Hf) as Hlo. rewrite Hlo in Hlen.
  pose proof (improved_good _ _ _ _ _ Hg Hlo Hlen Hi) as Hg'. split; [done|].
  destruct e as [c|x|root head x|c x y|l r|x off w|x w|x w|x|k l r]; cbn in Hg, Hc, Hg';
    repeat match goal with
    | H : Forall2 _ (_ :: _) _ |- _ => apply Forall2_cons_inv_l in H as (? & ? & ? & H & ->)
    | H : Forall2 _ [] _ |- _ => apply Forall2_nil_inv_l in H as ->
    end;
    try (split; [done|]; cbn in Ht |- *; unfold good in *; destruct_and?; split_and?; done).
  destruct old as [|o0 [|o1 []]], bits as [|b0 [|b1 []]]; try done. cbn in Hi.
  apply Forall2_cons_inv_l in Hi as (? & ? & Hi0 & Hi & ?).
  apply Forall2_cons_inv_l in Hi as (? & ? & Hi1 & Hi & ?).
  apply Forall2_nil_inv_l in Hi. simplify_eq.
  apply Forall2_cons in Hf as [_ Hf]. apply Forall2_cons in Hf as [Hf _].
  apply Forall2_cons in Hg as [[[_ ?] _] Hg]. apply Forall2_cons in Hg as [[[? _] _] _].
  edestruct improved_binary as [Hd Hop]; [exact Ht|eassumption..|].
  split; [exact Hd|]. cbn. unfold good in *. destruct_and!. done.
Qed.

(** Without [-const-array-opt], rebuilding never changes the value. *)
Lemma rebuild_value e kids :
  ConstArrayOpt = false → wf e → isConstant e = false → Forall2 good (getKids e) kids →
  rebuild_defined e kids → tame (replace_kids e kids) →
  rebuild e kids ⇓ λ e', good e e' ∧ ∀ ρ, wf_assignment ρ → eval ρ e' = kid_value ρ e (eval ρ <$> kids).
Proof.
  intros Hopt He Hnc Hg Hd Ht.
  assert (Forall2 same_type kids (getKids e) ∧ Forall2 (λ k k', weight k ≤ weight k') kids (getKids e))
    as [Hs Hw].
  { clear -Hg. induction Hg as [|k k' l l' ([? ?]&_&?) _ [? ?]]; by split; constructor. }
  eapply yields_mono; [apply yields_and; [by apply rebuild_ok|by apply (rebuild_light _ tame_closed)]|].
  intros e' [(Hwf & Hwe & Hev) [Hl Hte]]. pose proof (weight_replace_kids e kids Hw).
  split; [split; [done|split; [done|lia]]|]. intros ρ Hρ. rewrite Hev; [by apply eval_replace|done|].
  destruct e; try done; destruct kids as [|? [|? []]]; try done.
  - intros ?. congruence.
  - split; [intros (_ & _ & ?); congruence|]. intros Hk _. destruct Ht as (_ & _ & Hop).
    destruct k; try done; destruct e0; done.
Qed.

Lemma good_bounded ρ l kids kids' :
  wf_assignment ρ → Forall2 good l kids → Forall2 good l kids' →
  Forall2 bounded (getWidth <$> kids) (eval ρ <$> kids').
Proof.
  intros Hρ Hg. revert kids'.
  induction Hg as [|k k1 l l1 ([? Hw]&_) _ IH]; intros kids' Hg'; forall_inv; [constructor|].
  match goal with Hx : good _ _ |- _ => destruct Hx as ([? Hw'] & _) end.
  rewrite !fmap_cons. constructor; [|auto]. rewrite Hw, <- Hw'. by apply eval_bounded.
Qed.

Lemma check_bits_done w rbits : check_bits w rbits ≠ OutOfFuel.
Proof. unfold check_bits, cassert. repeat case_match; done. Qed.

Lemma check_bits_low w rbits :
  0 ≤ w ≤ 64 → info64 rbits → check_bits w rbits = Done tt →
  Z.land (knownOneBits rbits) (not64 (zeroMask w)) = knownOneBits rbits.
Proof.
  intros Hw (_ & Hone & _) Hc. unfold check_bits, cassert in Hc. cbn in Hc. repeat case_match; try done.
  apply low_small; [done|]. apply bounded_testbit; [lia|apply Hone|]. intros n Hn.
  destruct (decide (n < 64)); [|by apply (testbit_high 64); [|lia]].
  match goal with H : (Z.land _ (zeroMask _) =? 0) = true |- _ => rename H into Hz end.
  apply land_zero with (n := n) in Hz; [|done|apply bounded_zeroMask|lia].
  by rewrite testbit_zeroMask, bool_decide_eq_true_2, andb_true_r in Hz by lia.
Qed.

(** The assertions hold when the known bits are those of some value. *)
Lemma check_bits_sound w rbits v :
  0 ≤ w ≤ 64 → v `bits` w → info64 rbits → knows rbits v → tops rbits w →
  check_bits w rbits = Done tt.
Proof.
  intros Hw Hv (_ & Hone & Hzero) Hk Ht. unfold check_bits, cassert.
  assert (Z.land (knownOneBits rbits) (knownZeroBits rbits) =? 0 = true) as ->.
  { apply land_zero; [done|apply Hzero|]. intros n Hn. destruct (Hk n Hn). bit_cases. }
  assert (Z.land (knownOneBits rbits) (zeroMask w) =? 0 = true) as ->.
  { apply land_zero; [done|apply bounded_zeroMask|]. intros n Hn. destruct (Hk n Hn) as [Hk1 _].
    rewrite testbit_zeroMask by lia. case_bool_decide; [|by rewrite andb_false_r].
    rewrite (testbit_high w v) in Hk1 by done. destruct (Z.testbit _ n); [by specialize (Hk1 eq_refl)|done]. }
  assert (Z.land (knownZeroBits rbits) (zeroMask w) =? zeroMask w = true) as ->; [|done].
  apply Z.eqb_eq, (bounded_ext 64); [auto with mask64..|]. intros n Hn.
  rewrite Z.land_spec, testbit_zeroMask by lia. case_bool_decide; [|by rewrite andb_false_r].
  by rewrite Ht.
Qed.

Section node.
Context (simp : Expr → Z → F (Expr * BitsInfo)) (e : Expr) (Hopt : ConstArrayOpt = false).
Context (IH : simp_ok simp (weight e)) (He : wf e) (Ht : tame e) (Hnc : isConstant e = false).

(** What the [switch] knows, when the state is not tainted *)
Definition switch_sound ign (kids : list Expr) (r : BitsInfo * list BitsInfo) : Prop :=
  ∀ ρ, wf_assignment ρ → eval ρ <$> kids = eval ρ <$> getKids e ∧
    sound_bits ign (getWidth e) (getWidth <$> kids) (eval ρ <$> kids) (kid_value ρ e) r.

Lemma same_kids kids :
  length kids = length (getKids e) →
  forallb (λ '(k, k'), eqE k k') (zip kids (getKids e)) = true → kids = getKids e.
Proof.
  clear. generalize (getKids e). intros l. revert l.
  induction kids as [|k kids IHk]; intros [|k' l] Hl Hf; try done.
  cbn in Hf. apply andb_true_iff in Hf as [->%eqE_eq Hf]. f_equal. apply IHk; [cbn in Hl; lia|done].
Qed.

(** Rebuilding with the improved kids *)
Lemma improve_tri (Hyp : Prop) ign kids old rbits bits :
  visited_base (getKids e) (kids, old) → kind_bits e kids ign old = Done (rbits, bits) →
  switch_info ign old (rbits, bits) → covered rbits = false →
  (Hyp → switch_sound ign kids (rbits, bits)) →
  tri Hyp (good e) (λ e', ∀ ρ, wf_assignment ρ → agree ign (eval ρ e) (eval ρ e'))
    (kids' ← improve_kids simp kids old bits;
     if forallb (λ '(k, k'), eqE k k') (zip kids' (getKids e)) then mret e
     else check (rebuild e kids')).
Proof.
  intros Hv Hb (Hr & Hbs & Hlen & Hign) Hcov Hs. cbn [fst snd] in *. pose proof Hv as (Hg & Hf & Hc).
  cbn [fst snd] in *. pose proof (Forall2_length _ _ _ Hf) as Hlo.
  eapply tri_bind; [apply (improve_kids_tri simp _ IH); [done|congruence|..|done|]|].
  - pose proof (kids_lighter e He Ht) as Hl. clear -Hg Hl. revert Hl.
    induction Hg as [|k k' l l' ([? ?]&?&?) _ IHl]; intros; constructor; decompose_Forall_hyps;
      [split_and!; [lia|done..]|auto].
  - intros HH ρ Hρ. by apply (Hs HH ρ Hρ).
  - intros kids' Hi. edestruct improved_defined as (Hg' & Hd & Ht'); [exact Ht|exact Hv|done|exact Hb|done|exact Hi|].
    assert (Hyp ∧ (∀ ρ, wf_assignment ρ →
        Forall3 agree (ignoredBits <$> bits) (eval ρ <$> kids) (eval ρ <$> kids')) →
      ∀ ρ, wf_assignment ρ → agree ign (eval ρ e) (kid_value ρ e (eval ρ <$> kids'))) as Hag.
    { intros [HH Ha] ρ Hρ. destruct (Hs HH ρ Hρ) as [Hev Hsb]. rewrite (eval_kids ρ e), <- Hev.
      apply (sound_agree _ _ _ _ _ _ Hsb); [|by apply Ha].
      by apply (good_bounded _ (getKids e)). }
    destruct (forallb _ _) eqn:Eq.
    + apply same_kids in Eq; [|by rewrite (Forall2_length _ _ _ Hg')]. subst kids'. apply tri_ret.
      * split; [done|]. split; [done|lia].
      * intros. by apply agree_refl.
    + pose proof (rebuild_value e kids' Hopt He Hnc Hg' Hd Ht') as Hrb.
      apply yields_inv in Hrb as (e' & Hrb & Hge & Hev). rewrite Hrb.
      apply tri_check; [done|]. intros ? HH [= <-] ρ Hρ. rewrite Hev by done. by apply Hag.
Qed.

(** Replacing the node or rebuilding it *)
Lemma node_tri (Hyp : Prop) ign kids old rbits bits :
  visited_base (getKids e) (kids, old) → kind_bits e kids ign old = Done (rbits, bits) →
  switch_info ign old (rbits, bits) → check_bits (getWidth e) rbits = Done tt →
  (Hyp → switch_sound ign kids (rbits, bits)) →
  tri Hyp (λ e', good e e' ∧ fixed rbits e')
    (λ e', ∀ ρ, wf_assignment ρ → agree ign (eval ρ e) (eval ρ e'))
    (if negb (isConstant e) && covered rbits
     then replaceWithConstant e (knownOneBits rbits)
     else kids' ← improve_kids simp kids old bits;
       if forallb (λ '(k, k'), eqE k k') (zip kids' (getKids e)) then mret e
       else check (rebuild e kids')).
Proof.
  intros Hv Hb Hsw Hchk Hs. rewrite Hnc. cbn [negb andb]. pose proof (wf_width e He) as Hw.
  pose proof Hsw as (Hr & _ & _ & Hign). cbn [fst] in *. destruct (covered rbits) eqn:Ec.
  - eapply tri_mono; [by apply (replaceWithConstant_tri Hyp), Hr|done|..].
    + intros ? ->. split; [by apply constant_of_good, Hr|]. split; [done|]. intros _.
      eexists; split; [done|]. cbn. by apply check_bits_low; [lia|..].
    + intros ? HH -> _ ρ Hρ. destruct (Hs HH ρ Hρ) as [Hev Hsb]. rewrite <- Hign.
      apply constant_of_agree; [done|by apply eval_bounded|done|]. intros n Hn _.
      rewrite (eval_kids ρ e), <- Hev. by apply (sound_knows _ _ _ _ _ _ Hsb).
  - eapply tri_mono; [by eapply improve_tri|done|..]; [|done].
    intros e' Hg. split; [done|]. split; [done|]. by rewrite Ec.
Qed.

Lemma node_sound ign kids old rbits bits e' :
  switch_info ign old (rbits, bits) → switch_sound ign kids (rbits, bits) → good e e' →
  (∀ ρ, wf_assignment ρ → agree ign (eval ρ e) (eval ρ e')) →
  sound_result e ign (e', rbits) ∧ (ignoredBits rbits = 0 → entry_ok (e', rbits)).
Proof.
  intros (_ & _ & _ & Hign) Hs ([Hwf Hwe] & _) Ha. cbn [fst snd] in *.
  assert (∀ ρ, wf_assignment ρ → knows rbits (eval ρ e) ∧ tops rbits (getWidth e)) as Hk.
  { intros ρ Hρ. destruct (Hs ρ Hρ) as [Hev [Hk Htp _ _]]. by rewrite eval_kids, <- Hev. }
  split; split; cbn [fst snd]; [congruence|auto|done|].
  intros ρ Hρ. rewrite Hwe. destruct (Hk ρ Hρ) as [Hk1 ?]. split; [|done].
  apply (knows_agree _ _ _ Hk1). replace 0 with ign by congruence. by apply Ha.
Qed.

Lemma simplify_step_tri Hyp ign :
  ign `bits` 64 →
  tri Hyp (λ r, good e r.1 ∧ fixed r.2 r.1) (sound_result e ign) (simplify_step simp e ign).
Proof.
  intros Hign. pose proof (wf_width e He) as Hw. unfold simplify_step.
  eapply tri_bind; [by apply (simplify_kids_tri simp _ IH), kids_lighter|].
  intros [kids old] Hv. pose proof Hv as (Hg & Hf & _). cbn [fst snd] in *.
  assert (Forall2 same_type kids (getKids e)) as Hst.
  { clear -Hg. induction Hg as [|k k' l l' [? _] _ ?]; by constructor. }
  pose proof (Forall2_length _ _ _ Hf) as Hlo.
  eapply (tri_bind _ (λ r, switch_info ign old r ∧ kind_bits e kids ign old = Done r) (switch_sound ign kids)).
  { apply tri_check.
    - assert (Forall info64 old) as Hio.
      { clear -Hf. induction Hf as [|i k l l' [? _] _ ?]; by constructor. }
      destruct (yields_inv _ _ (kind_bits_info e kids ign old He Hign Hst Hio Hlo)) as (r & -> & Hr).
      by apply yields_done.
    - intros r [_ Hs] Hr ρ Hρ. destruct (Hs ρ Hρ) as [Hev Hk]. split; [done|].
      pose proof (kind_bits_ok ρ e kids ign old He Hρ Hign Hst Hk) as Ho. by rewrite Hr in Ho. }
  intros [rbits bits] [Hsw Hb].
  eapply (tri_bind _ (λ _, check_bits (getWidth e) rbits = Done tt) (λ _, True)).
  { apply tri_assert; [apply check_bits_done|done|]. intros [_ Hs]. split; [|done].
    assert (wf_assignment (λ _ _, 0)) as Hρ by (intros ? ?; by apply bounded_0).
    destruct (Hs _ Hρ) as [Hev [Hk Htp _ _]]. eapply check_bits_sound; [lia| |apply Hsw|exact Hk|done].
    rewrite Hev, <- eval_kids. by apply eval_bounded. }
  intros [] Hchk. eapply tri_bind; [apply node_tri; [exact Hv|exact Hb|done|done|by intros [[_ Hs] _]]|].
  intros e' [Hge Hfe].
  eapply (tri_bind _ (λ _, True) (λ _, True)).
  - destruct (_ <? _)%nat eqn:Elen; [|by apply tri_ret].
    apply tri_cache; [..|done|done].
    + apply Nat.ltb_lt in Elen. split; [apply Hsw|]. split; [|done]. cbn [fst snd].
      destruct (covered rbits) eqn:Ec; [|done]. destruct Hfe as [_ Hfe]. destruct (Hfe Ec) as (c & -> & _).
      cbn in Elen. lia.
    + intros [[[_ Hs] _] Ha]. by eapply node_sound.
  - intros _ _. apply tri_ret; [done|]. intros [[[[_ Hs] _] Ha] _]. by eapply node_sound.
Qed.
End node.

(** ** The recursion *)

Lemma constant_info ign c :
  wf_constant c → ign `bits` 64 → info64 (mkBits ign (cvalue c) (not64 (cvalue c))).
Proof. intros [? Hv] ?. apply info64_intro; [done|by apply (bounded_mono (cwidth c)); [lia|]|apply bounded64_not]. Qed.

Lemma simplify_constant simp c ign st :
  wf_constant c → ign `bits` 64 → simplify_step simp (Constant c) ign st =
    (Done (Constant c, mkBits ign (cvalue c) (not64 (cvalue c))), st).
Proof.
  intros Hc Hign. unfold simplify_step. cbn [simplify_kids getKids kind_bits].
  rewrite getZExtValue_spec by apply Hc.
  unfold mbind, F_bind, mret, F_ret, check. cbn -[check_bits not64].
  rewrite (check_bits_sound _ _ (cvalue c)); [done|..]; try (by apply constant_info);
    [destruct Hc as [? _]; lia|apply Hc|..].
  all: destruct (constant_bits_ok (λ _ _, 0) ign c Hc); done.
Qed.

Lemma simplify_constant_tri simp Hyp c ign :
  wf_constant c → ign `bits` 64 →
  tri Hyp (λ r, good (Constant c) r.1 ∧ fixed r.2 r.1 ∧ r.1 = Constant c)
    (sound_result (Constant c) ign) (simplify_step simp (Constant c) ign).
Proof.
  intros Hc Hign st Hst. rewrite simplify_constant by done. split; cbn [fst snd]; try done.
  - intros ? [= <-]. cbn [fst snd]. split; [split; [done|split; [done|lia]]|]. split; [|done].
    split; [by apply constant_info|eauto].
  - intros _ Hok HH. split; [done|]. eexists; split; [done|]. split; [done|]. intros ρ Hρ.
    destruct (constant_bits_ok ρ ign c Hc) as [Hk Htp _ _]. by split; [apply agree_refl|].
Qed.

(** [doSimplifyBits] ends on fuel that is the weight of its argument. *)
Lemma doSimplifyBits_tri fuel Hyp e ign :
  ConstArrayOpt = false → weight e ≤ Z.of_nat fuel → wf e → tame e → ign `bits` 64 →
  tri Hyp (λ r, good e r.1 ∧ fixed r.2 r.1 ∧ (isConstant e = true → r.1 = e))
    (sound_result e ign) (doSimplifyBits fuel e ign).
Proof.
  intros Hopt. revert Hyp e ign. induction fuel as [|fuel IH]; intros Hyp e ign Hn He Ht Hign.
  { pose proof (weight_pos e). lia. }
  intros st Hst. cbn [doSimplifyBits]. destruct (map_find e (m_bitsInfoCache st)) as [i|] eqn:Ef.
  - apply map_find_elem in Ef. pose proof (proj1 (Forall_forall _ _) Hst _ Ef) as (Hi & Hcov & Hlen).
    split; cbn [fst snd]; try done.
    + intros ? [= <-]. cbn [fst snd]. split; [split; [done|split; [done|lia]]|]. split; [|done].
      split; [done|]. cbn in *. congruence.
    + intros _ Hok HH. split; [done|]. eexists; split; [done|].
      pose proof (proj1 (Forall_forall _ _) Hok _ Ef) as [Hi0 Hk]. split; [done|].
      intros ρ Hρ. by split; [apply agree_refl|apply Hk].
  - destruct (isConstant e) eqn:Ec.
    + destruct e; try done.
      eapply (tri_mono _ Hyp); [by apply simplify_constant_tri|done|..|done|done]. by intros r (?&?&?).
    + eapply (tri_mono _ Hyp); [apply simplify_step_tri; try done|..]; try done.
      * intros Hyp' k ign' Hk ???. apply IH; try done. lia.
      * by intros r [? ?].
Qed.

(** ** Calls of the simplifier *)

Definition calls_base (st : BitfieldSimplifier) : Prop :=
  state_base st ∧ Forall (λ x, good x.1 x.2.1) (m_simplifiedExpressions st).

Definition calls_ok (st : BitfieldSimplifier) : Prop :=
  state_ok st ∧ Forall (λ x, sound_result x.1 0 x.2) (m_simplifiedExpressions st).

(** The result of a call: an expression of the same type and value that weighs no
    more, with bits that are known of it unless it is a constant *)
Definition simplified e (r : Expr * option BitsInfo) : Prop :=
  wf r.1 ∧ getWidth r.1 = getWidth e ∧ weight r.1 ≤ weight e ∧
  ∀ ρ, wf_assignment ρ → eval ρ r.1 = eval ρ e ∧
    match r.2 with Some i => knows i (eval ρ e) | None => isConstant e = true end.

Record call {A} (G : A → Prop) (st : BitfieldSimplifier) (r : outcome A * BitfieldSimplifier) : Prop := {
  call_base : calls_base r.2;
  call_taint : tainted st = true → tainted r.2 = true;
  call_fuel : r.1 ≠ OutOfFuel;
  call_sound : tainted r.2 = false → calls_ok st → calls_ok r.2 ∧ ∃ a, r.1 = Done a ∧ G a;
}.

Lemma sound_simplified e e' i :
  wf e → good e e' → sound_result e 0 (e', i) → simplified e (e', Some i).
Proof.
  intros He ([Hwf Hw] & _ & Hl) [_ Hs]. pose proof (wf_width e He). split_and!; [done..|].
  intros ρ Hρ. destruct (Hs ρ Hρ) as (Ha & Hk & _). split; [|done]. cbn in *.
  apply (agree_0 _ _ (getWidth e)); [lia|by apply eval_bounded| |done].
  rewrite <- Hw. by apply eval_bounded.
Qed.

Lemma simplify_call e st :
  ConstArrayOpt = false → wf e → tame e → calls_base st →
  call (simplified e) st (simplify e st).
Proof.
  intros Hopt He Ht [Hst Htab]. pose proof (weight_pos e). unfold simplify.
  destruct (isConstant e) eqn:Ec.
  { split; try done. cbn. intros _ Hok. split; [done|]. eexists; split; [done|]. by split_and!. }
  destruct (map_find e (m_simplifiedExpressions st)) as [[e' i]|] eqn:Ef.
  { apply map_find_elem in Ef. pose proof (proj1 (Forall_forall _ _) Htab _ Ef) as Hg.
    split; try done. cbn. intros _ [Hok Htok]. split; [done|]. eexists; split; [done|].
    apply sound_simplified; [done..|]. exact (proj1 (Forall_forall _ _) Htok _ Ef). }
  set (st1 := mkSimplifier (m_bitsInfoCache st) (m_simplifiedExpressions st)
    (m_cacheHits st + 0) (m_cacheMisses st + 1) (tainted st)).
  change (call (simplified e) st ((
    '(e', i) ← doSimplifyBits (Z.to_nat (weight e)) e 0; _ ← remember e (e', i); mret (e', Some i)) st1)).
  destruct (doSimplifyBits_tri (Z.to_nat (weight e)) True e 0 Hopt ltac:(lia) He Ht bounded64_0
    st1 Hst) as [Hb Htb Htt Hfu Hd Hs].
  unfold mbind, F_bind. destruct (doSimplifyBits _ _ _ st1) as [[[e' i]| |] st2]; cbn [fst snd] in *; [|split; cbn|done].
  - destruct (Hd _ eq_refl) as [Hg _]. cbn [fst snd] in *.
    assert (∀ P : Expr * (Expr * BitsInfo) → Prop, P (e, (e', i)) → Forall P (m_simplifiedExpressions st) →
      Forall P ((e, (e', i)) :: map_erase e (m_simplifiedExpressions st2))) as Hrem.
    { intros P HP Hall. constructor; [done|]. rewrite Htb.
      rewrite Forall_forall in Hall |- *. intros x Hx. by apply Hall, (erase_subset e). }
    split; cbn [remember fst snd mret F_ret]; try done.
    + split; [done|]. by apply Hrem.
    + intros Hu [Hok Htok]. destruct (Hs Hu Hok I) as (Hok' & ? & [= <-] & HG).
      split; [split; [done|by apply Hrem]|]. eexists; split; [done|]. by apply sound_simplified.
  - split; [done|]. by rewrite Htb.
  - done.
  - done.
  - intros Hu [Hok _]. by destruct (Hs Hu Hok I) as (_ & ? & ? & _).
Qed.

Lemma simplify_all_call l st :
  ConstArrayOpt = false → Forall (λ e, wf e ∧ tame e) l → calls_base st →
  call (Forall2 simplified l) st (simplify_all l st).
Proof.
  intros Hopt Hl. revert st. induction Hl as [|e l [He Ht] _ IH]; intros st Hst.
  { split; try done. cbn. eauto. }
  destruct (simplify_call e st Hopt He Ht Hst) as [Hb Htt Hfu Hs]. cbn [simplify_all].
  unfold mbind, F_bind. destruct (simplify e st) as [[r| |] st1]; cbn [fst snd] in *; [|split; cbn; try done|done].
  - destruct (IH st1 Hb) as [Hb' Htt' Hfu' Hs'].
    destruct (simplify_all l st1) as [[rs| |] st2]; cbn [fst snd] in *; [| |done]; split; cbn; try done; auto.
    + intros Hu Hok. assert (tainted st1 = false) as Hu1.
      { destruct (tainted st1); [|done]. by rewrite Htt' in Hu. }
      destruct (Hs Hu1 Hok) as (Hok1 & ? & [= <-] & Hr). destruct (Hs' Hu Hok1) as (Hok2 & ? & [= <-] & Hrs).
      split; [done|]. eexists; split; [done|]. by constructor.
    + intros Hu Hok. assert (tainted st1 = false) as Hu1.
      { destruct (tainted st1); [|done]. by rewrite Htt' in Hu. }
      destruct (Hs Hu1 Hok) as (Hok1 & _). by destruct (Hs' Hu Hok1) as (_ & ? & ? & _).
  - intros Hu Hok. by destruct (Hs Hu Hok) as (_ & ? & ? & _).
Qed.

(** C14: with the constant-array optimisation off, and on well-formed expressions that
    divide only by constants other than 0 and shift arithmetically to the right only by
    constants below the width ([tame]), any sequence of calls of
    [BitfieldSimplifier::simplify] on one simplifier ends.  Unless an entry of the cache was made for an expression simplified under
    ignored bits, no assertion fails, and every call returns an expression of the
    type and value of its argument that weighs no more, with known bits that are
    right. *)
Theorem simplifier_correct l :
  ConstArrayOpt = false → Forall (λ e, wf e ∧ tame e) l →
  (simplify_all l new_simplifier).1 ≠ OutOfFuel ∧
  (tainted (simplify_all l new_simplifier).2 = false →
    (simplify_all l new_simplifier).1 ⇓ Forall2 simplified l).
Proof.
  intros Hopt Hl. destruct (simplify_all_call l new_simplifier Hopt Hl) as [_ _ Hfu Hs].
  { by split; constructor. }
  split; [done|]. intros Hu. destruct (Hs Hu) as (_ & rs & -> & Hrs); [|done]. by split; constructor.
Qed.
End correct.

Section witnesses.
#[local] Existing Instance Sample.store.
#[local] Existing Instance Sample.store_wf.
#[local] Existing Instance identity.
#[local] Instance opt_off : Options := const_array_opt false.
Import Sample.

(** Bits that are masked out become constants, operands are rebuilt around them,
    and the last call is answered from the table. *)
Lemma simplifier_correct_witness :
  let masked := Binary And (ZExt (input 0) 32) (const 0xFF00 32) in
  let ored := Binary Or (input 0) (const 0x0F 8) in
  let l := [masked; Concat (Extract ored 0 4) (Extract ored 4 4); masked] in
  (simplify_all l new_simplifier).1 ⇓ (λ rs,
    fst <$> rs = [const 0 32; Concat (const 0xF 4) (Extract ored 4 4); const 0 32]) ∧
  (simplify_all l new_simplifier).1 ⇓ Forall2 simplified l.
Proof.
  intros masked ored l. split; [vm_compute; reflexivity|].
  assert (Forall (λ e, wf e ∧ tame e) l) as Hl by (repeat constructor; done).
  refine (proj2 (simplifier_correct l eq_refl Hl) _). vm_compute. reflexivity.
Defined.

(** The expressions that are made by the creation functions can taint the cache. *)
Lemma sample_created :
  (q1 ← Binary_create And sample_q (const 1 8);
   s1 ← Binary_create And sample_k sample_s; ConcatExpr_create s1 q1) = Done sample_wrong.
Proof. vm_compute. reflexivity. Qed.

Lemma sample_wrong_wf : wf sample_wrong ∧ tame sample_wrong.
Proof. split; cbn; split_and!; done. Qed.

(** C40: the entries for expressions simplified under ignored bits make the
    simplifier unsound: on an expression that the creation functions make, it
    returns an expression with another value. *)
Theorem simplifier_cache_unsound :
  wf sample_wrong ∧ tame sample_wrong ∧
  (simplify sample_wrong new_simplifier).1 ⇓ λ r,
    ∃ ρ, wf_assignment ρ ∧ eval ρ r.1 ≠ eval ρ sample_wrong.
Proof.
  destruct sample_wrong_wf as [Hwf Ht]. split; [done|]. split; [done|].
  destruct (simplify sample_wrong new_simplifier).1 as [r| |] eqn:E; [|vm_compute in E; done..].
  vm_compute in E. injection E as <-. exists (λ _ _, 1).
  split; [intros ? ?; by apply bounded_1|]. by vm_compute.
Qed.
End witnesses.
