(* ===== verification/ExprVisitor.v ===== *)
(** * The expression visitor: [lib/Expr/ExprVisitor.cpp], and the collection of
      the symbolic arrays of an expression with it ([lib/Expr/ExprUtil.cpp])

    A visitor is a record of the virtual methods of [class ExprVisitor]; they
    receive [visit] to call back into the traversal, and thread the state of
    the subclass together with the memo table [visited]. *)

From stdpp Require Import prelude.
From S2P Require Import Prelude Bitvec Bits APInt ExprData ExprConstants ExprCasts ExprBinary.
From S2P Require Import ExprBinaryProofs ExprSelectRead.

(** ** State and errors *)

(** [ExprHashMap< ref<Expr> > visited] *)
Definition visited_ty : Type := list (Expr * Expr).

(** Computations that change [visited] and the fields [S] of the visitor. *)
Abbreviation V S := (M (visited_ty * S)).

Definition get {S} : V S S := λ s, Done (s.2, s).
Definition put {S} (x : S) : V S unit := λ s, Done (tt, (s.1, x)).

(** [ExprVisitor::Action] *)
Inductive Action : Set :=
| SkipChildren
| DoChildren
| ChangeTo (e : Expr).

(** The virtual methods of [ExprVisitor]; [visitKind] stands for [visitRead],
    [visitAdd] and so on, selected by the kind of its argument. *)
Record Visitor (S : Type) : Type := mkVisitor {
  recursive : bool;
  visitExpr : (Expr → V S Expr) → Expr → V S Action;
  visitKind : (Expr → V S Expr) → Expr → V S Action;
  visitExprPost : (Expr → V S Expr) → Expr → V S Action;
}.
Arguments mkVisitor {S}.
Arguments recursive {S}.
Arguments visitExpr {S}.
Arguments visitKind {S}.
Arguments visitExprPost {S}.

(** The command-line option [-use-visitor-hash]. *)
Class VisitorOptions : Type := { UseVisitorHash : bool }.

Section visitor.
Context `{APIntOps} `{ArrayStore} `{ObjectIdentity} `{Options} `{VisitorOptions}.
Context {S : Type} (vis : Visitor S).

(** [visited.find(e)] *)
Fixpoint find_visited (visited : visited_ty) (e : Expr) : option Expr :=
  match visited with
  | [] => None
  | (e', r) :: visited => if eqE e' e then Some r else find_visited visited e
  end.

(** The loop over the kids, in order. *)
Fixpoint visit_kids (visit : Expr → V S Expr) (kids : list Expr) : V S (list Expr) :=
  match kids with
  | [] => mret []
  | k :: kids => k' ← visit k; kids' ← visit_kids visit kids; mret (k' :: kids')
  end.

(** [rebuild] is set when a kid changed. *)
Definition any_changed (kids kids' : list Expr) : bool :=
  existsb (λ '(k, k'), negb (eqE k' k)) (zip kids kids').

(** [ExprVisitor::visitActual] *)
Definition visitActual (visit : Expr → V S Expr) (e : Expr) : V S Expr :=
  if isConstant e then mret e
  else
    act ← visitExpr vis visit e;
    match act with
    | SkipChildren => mret e
    | ChangeTo x => mret x
    | DoChildren =>
      act ← visitKind vis visit e;
      match act with
      | SkipChildren => mret e
      | ChangeTo x => mret x
      | DoChildren =>
        kids ← visit_kids visit (getKids e);
        e' ← (if any_changed (getKids e) kids then
                x ← lift (rebuild e kids);
                if recursive vis then visit x else mret x
              else mret e);
        if isConstant e' then mret e'
        else
          act ← visitExprPost vis visit e';
          match act with ChangeTo x => mret x | _ => mret e' end
      end
    end.

(** [ExprVisitor::visit] *)
Fixpoint visit_fuel (fuel : nat) (e : Expr) : V S Expr :=
  match fuel with
  | O => λ _, OutOfFuel
  | Datatypes.S fuel =>
      if negb UseVisitorHash || isConstant e then visitActual (visit_fuel fuel) e
      else λ s,
        match find_visited s.1 e with
        | Some r => Done (r, s)
        | None =>
            '(res, (visited, x)) ← visitActual (visit_fuel fuel) e s;
            Done (res, ((e, res) :: visited, x))
        end
  end.

End visitor.

(** The default methods. *)
Definition default_visitExpr {S} (visit : Expr → V S Expr) (e : Expr) : V S Action := mret DoChildren.
Definition default_visitKind {S} (visit : Expr → V S Expr) (e : Expr) : V S Action := mret DoChildren.
Definition default_visitExprPost {S} (visit : Expr → V S Expr) (e : Expr) : V S Action :=
  mret SkipChildren.

(** Number of nodes, update lists included: enough fuel for a visitor that is
    not [recursive]. *)
Fixpoint full_size (e : Expr) : nat :=
  match e with
  | Constant _ => 1
  | NotOptimized e | Extract e _ _ | ZExt e _ | SExt e _ | Not e => S (full_size e)
  | Read _ head e => S (full_size e + nodes_full_size head)
  | Select c t f => S (full_size c + full_size t + full_size f)
  | Concat l r | Binary _ l r => S (full_size l + full_size r)
  end
with nodes_full_size (un : UpdateNode) : nat :=
  match un with
  | NullNode => O
  | Node next index value => full_size index + full_size value + nodes_full_size next
  end.

(** Case analysis on which kid [k] is, for [H : k ∈ getKids e]. *)
Ltac kid_cases H :=
  rewrite ?elem_of_cons, ?elem_of_nil in H; destruct_or? H; try done; subst.

Lemma kid_smaller e k : k ∈ getKids e → (full_size k < full_size e)%nat.
Proof. destruct e; cbn; intros Hk; kid_cases Hk; lia. Qed.

Lemma kid_wf e k : wf e → k ∈ getKids e → wf k.
Proof. destruct e; cbn; intros He Hk; kid_cases Hk; tauto. Qed.

(** ** Reasoning about visitors *)

Section visitor_correct.
Context `{APIntOps} `{ArrayStore} `{ObjectIdentity} `{Options} `{VisitorOptions}.
Context {S : Type} (vis : Visitor S).

(** [R s e r] relates an expression to its result, [I] is the invariant of the
    state of the subclass; both may only grow with [le]. *)
Variable Dom : Expr → Prop.
Variable R : S → Expr → Expr → Prop.
Variable le : S → S → Prop.
Hypothesis le_refl : ∀ x, le x x.
Hypothesis le_trans : ∀ x y z, le x y → le y z → le x z.
Hypothesis R_mono : ∀ x y e r, le x y → R x e r → R y e r.

(** Every memoised pair is related. *)
Definition cache_ok (s : visited_ty * S) : Prop := Forall (λ '(e, r), R s.2 e r) s.1.

Definition visits (visit : Expr → V S Expr) (e : Expr) : Prop :=
  ∀ s, cache_ok s → runs (visit e) s (λ r s', R s'.2 e r ∧ cache_ok s' ∧ le s.2 s'.2).

Lemma find_visited_ok visited e r :
  find_visited visited e = Some r → (e, r) ∈ visited.
Proof.
  induction visited as [|[e' r'] visited IH]; cbn; [done|].
  destruct (eqE e' e) eqn:E; intros; [|by right; auto]. uneq. simplify_eq. by left.
Qed.

(** Memoisation is transparent: [visit] is correct at every size if
    [visitActual] is, given correct recursive calls on smaller expressions. *)
Lemma visit_fuel_ok fuel e :
  (∀ visit e, Dom e → (∀ e', Dom e' → (full_size e' < full_size e)%nat → visits visit e') →
    visits (visitActual vis visit) e) →
  Dom e → (full_size e ≤ fuel)%nat → visits (visit_fuel vis fuel) e.
Proof.
  intros Hstep. revert e. induction fuel as [|fuel IH]; intros e He Hsz.
  { destruct e; cbn in Hsz; lia. }
  assert (visits (visitActual vis (visit_fuel vis fuel)) e) as Hact.
  { apply Hstep; [done|]. intros. apply IH; [done|lia]. }
  intros s Hs. cbn [visit_fuel]. destruct (_ || _); [by apply Hact|].
  unfold runs. destruct (find_visited s.1 e) eqn:E.
  - cbn. split_and!; [|done|apply le_refl]. apply find_visited_ok in E.
    by apply (proj1 (Forall_forall _ _) Hs) in E.
  - destruct (runs_inv _ _ _ (Hact s Hs)) as (r & [visited x] & -> & HR & Hc & Hle). cbn.
    split_and!; [done| |done]. by constructor.
Qed.

Lemma visit_kids_ok visit kids s :
  (∀ k, k ∈ kids → visits visit k) → cache_ok s →
  runs (visit_kids visit kids) s (λ kids' s',
    Forall2 (R s'.2) kids kids' ∧ cache_ok s' ∧ le s.2 s'.2).
Proof.
  revert s. induction kids as [|k kids IH]; intros s Hk Hs; cbn [visit_kids].
  { apply runs_ret. auto. }
  apply runs_bind. eapply runs_mono; [apply Hk; [by left|done]|]. intros k' s1 (HR & Hs1 & Hle1).
  apply runs_bind. eapply runs_mono; [apply IH; [by intros; apply Hk; right|done]|].
  intros kids' s2 (HRs & Hs2 & Hle2). apply runs_ret. split_and!; [|done|by eapply le_trans].
  constructor; [by eapply R_mono|done].
Qed.

End visitor_correct.
