(* ===== verification/ExprEval.v ===== *)
(** * Evaluation under an assignment: [lib/Expr/ExprEvaluator.cpp] and
      [klee/util/Assignment.h] *)

From stdpp Require Import prelude gmap.
From S2P Require Import Prelude Bitvec Bits APInt ExprData ExprConstants ExprCasts ExprBinary.
From S2P Require Import ExprBinaryProofs ExprSelectRead ExprVisitor.

Section evaluator.
Context `{APIntOps} `{ArrayStore} `{ObjectIdentity} `{Options} `{VisitorOptions}.

(** [getInitialValue], the abstract method of [ExprEvaluator]. *)
Variable getInitialValue : Array → Z → outcome Expr.

(** [ExprEvaluator::evalRead], from the update [un] on *)
Fixpoint evalRead (visit : Expr → V unit Expr) (root : Array) (un : UpdateNode) (index : Z) :
    V unit Action :=
  match un with
  | Node next un_index un_value =>
      ui ← visit un_index;
      match ui with
      | Constant CE =>
          v ← lift (getZExtValue CE 64);
          if v =? index then x ← visit un_value; mret (ChangeTo x)
          else evalRead visit root next index
      | _ =>
          (* the index of the update is unknown: read at this version *)
          r ← lift (ReadExpr_create (mkUpdateList root un) (Constant (alloc index Int32)));
          mret (ChangeTo r)
      end
  | NullNode =>
      match constantValues (deref root) with
      | [] => r ← lift (getInitialValue root index); mret (ChangeTo r)
      | _ =>
          if index <? array_size (deref root) then
            match constantValues (deref root) !! Z.to_nat index with
            | Some c => mret (ChangeTo (Constant c))
            | None => lift AssertFailed
            end
          else r ← lift (getInitialValue root index); mret (ChangeTo r)
      end
  end.

Definition isRead (e : Expr) : bool := if e is Read _ _ _ then true else false.

(** [ExprEvaluator::visitExpr]: fold a node whose kids are all constant. *)
Definition eval_visitExpr (visit : Expr → V unit Expr) (e : Expr) : V unit Action :=
  if bool_decide (getKids e = []) || isRead e then mret DoChildren
  else if forallb isConstant (getKids e) then
    r ← lift (rebuild e (getKids e)); mret (ChangeTo r)
  else mret DoChildren.

(** [ExprEvaluator::protectedDivOperation]: ignore a divisor that is zero. *)
Definition protectedDivOperation (visit : Expr → V unit Expr) (e l r : Expr) : V unit Action :=
  k0 ← visit l;
  k1 ← visit r;
  zero ← (if k1 is Constant CE then lift (CE_isZero CE) else mret false);
  let k1 := if (zero : bool) then r else k1 in
  if negb (eqE k0 l) || negb (eqE k1 r) then
    x ← lift (rebuild e [k0; k1]); mret (ChangeTo x)
  else mret SkipChildren.

(** [ExprEvaluator::visitRead], [visitUDiv], [visitSDiv], [visitURem],
    [visitSRem] *)
Definition eval_visitKind (visit : Expr → V unit Expr) (e : Expr) : V unit Action :=
  match e with
  | Read root head index =>
      v ← visit index;
      match v with
      | Constant CE =>
          i ← lift (getZExtValue CE 64);
          evalRead visit root head (u32 i)
      | _ => mret DoChildren
      end
  | Binary k l r =>
      if is_div k then protectedDivOperation visit e l r else mret DoChildren
  | _ => mret DoChildren
  end.

Definition Evaluator : Visitor unit :=
  mkVisitor false eval_visitExpr eval_visitKind default_visitExprPost.

End evaluator.

(** ** [class Assignment] *)

Record Assignment : Type := mkAssignment {
  allowFreeValues : bool;
  bindings : gmap Array (list Z);
}.

Section assignments.
Context `{APIntOps} `{ArrayStore} `{ObjectIdentity} `{Options} `{VisitorOptions}.

(** [bindings.insert(...)], which keeps a binding that is there. *)
Definition insert_binding (b : gmap Array (list Z)) (a : Array) (v : list Z) : gmap Array (list Z) :=
  match b !! a with Some _ => b | None => <[a := v]> b end.

(** [Assignment::add] *)
Definition Assignment_add (a : Assignment) (object : Array) (value : list Z) : Assignment :=
  mkAssignment (allowFreeValues a) (insert_binding (bindings a) object value).

(** [Assignment::Assignment(objects, values)]; the vectors have the same
    length *)
Definition Assignment_of (objects : list Array) (values : list (list Z)) (free : bool) : Assignment :=
  mkAssignment free (foldl (λ b '(o, v), insert_binding b o v) ∅ (zip objects values)).

(** [Assignment::evaluate(array, index)] *)
Definition Assignment_byte (a : Assignment) (array : Array) (index : Z) : outcome Expr :=
  match bindings a !! array ≫= λ bytes, bytes !! Z.to_nat index with
  | Some b => Done (Constant (alloc b Int8))
  | None =>
      if allowFreeValues a then
        ReadExpr_create (mkUpdateList array NullNode) (Constant (alloc index Int32))
      else Done (Constant (alloc 0 Int8))
  end.

(** [v.visit(e)] for an [AssignmentEvaluator v], with its memo table *)
Definition evaluate_with (a : Assignment) (e : Expr) : V unit Expr :=
  visit_fuel (Evaluator (Assignment_byte a)) (full_size e) e.

(** [Assignment::evaluate(e)] *)
Definition Assignment_evaluate (a : Assignment) (e : Expr) : outcome Expr :=
  '(r, _) ← evaluate_with a e ([], tt); Done r.

(** [Assignment::satisfies]: one evaluator for all the constraints *)
Fixpoint satisfies_loop (a : Assignment) (cs : list Expr) (s : visited_ty * unit) : outcome bool :=
  match cs with
  | [] => Done true
  | c :: cs =>
      '(r, s) ← evaluate_with a c s;
      t ← isTrue r;
      if (t : bool) then satisfies_loop a cs s else Done false
  end.

Definition Assignment_satisfies (a : Assignment) (cs : list Expr) : outcome bool :=
  satisfies_loop a cs ([], tt).

End assignments.

(** ** Folding constants *)

Section folding.
Context `{APIntLaws} `{WfStore} `{ObjectIdentity} `{Options}.

(** What a creation function returns is constant. *)
Definition folds (m : outcome Expr) : Prop := m ⇓ λ r, isConstant r = true.

Lemma core_create_fold k cl cr :
  is_core k = true → cwidth cl = cwidth cr →
  core_create k (Constant cl) (Constant cr) = Done (Constant (CE_binop k cl cr)).
Proof.
  intros Hk Hw. unfold core_create, core_cost. cbn -[core_create_fuel].
  change (Z.to_nat _) with 5%nat. cbn [core_create_fuel].
  destruct k; try done; cbn [core_step]; unfold BCREATE_R; cbn; by rewrite Hw, Z.eqb_refl.
Qed.

Lemma Binary_create_folds k cl cr :
  wf_constant cl → wf_constant cr → cwidth cl = cwidth cr →
  ap_defined k (cwidth cl) (cvalue cr) → folds (Binary_create k (Constant cl) (Constant cr)).
Proof.
  intros Hcl Hcr Hw Hd. unfold folds.
  destruct (is_core k) eqn:Ek.
  { assert (Binary_create k = core_create k) as -> by (by destruct k).
    by rewrite core_create_fold. }
  destruct (decide (k = Ne)) as [->|].
  { cbn [Binary_create]. unfold NeExpr_create. rewrite create_constant_spec by done. ystep.
    rewrite core_create_fold by done. ystep.
    rewrite CE_binop_spec by done. by rewrite core_create_fold. }
  destruct k; try done; cbn [Binary_create]; unfold BCREATE; cbn [getWidth]; by rewrite Hw, Z.eqb_refl.
Qed.

Lemma rebuild_folds this consts :
  wf this → isRead this = false → (∀ x, this ≠ NotOptimized x) → isConstant this = false →
  Forall2 same_type (Constant <$> consts) (getKids this) →
  rebuild_defined this (Constant <$> consts) → folds (rebuild this (Constant <$> consts)).
Proof.
  intros Hwf Hr Hno Hnc Hkids Hdef. unfold folds.
  pose proof (rebuild_ok this _ Hwf Hnc Hkids Hdef) as Hok.
  destruct this as [|x|? ? ?|c t f|l r|x off w|x w|x w|x|k l r]; try done; [by destruct (Hno x)|..];
    cbn in Hkids; (destruct consts as [|c0 [|c1 [|c2 [|]]]]; cbn in Hkids;
      try (by apply Forall2_length in Hkids)); cbn [fmap list_fmap rebuild] in Hok |- *.
  - revert Hok. unfold SelectExpr_create. cbn -[CE_isTrue].
    destruct (cwidth c0 =? Bool); [|done]. cbn -[CE_isTrue].
    destruct (cwidth c1 =? cwidth c2); [|done]. cbn -[CE_isTrue].
    destruct (CE_isTrue c0) as [[]| |]; done.
  - revert Hok. unfold ExtractExpr_create. cbn. destruct (_ && _); [|done]. cbn.
    by repeat case_step.
  - revert Hok. unfold ZExtExpr_create, ZExtExpr_create_with, ExtractExpr_create. cbn.
    destruct (w =? _); [done|]. destruct (w <? _); [|done]. destruct (_ && _); [|done]. cbn.
    by repeat case_step.
  - revert Hok. unfold SExtExpr_create, SExtExpr_create_with, ExtractExpr_create. cbn.
    destruct (w =? _); [done|]. destruct (w <? _); [|done]. destruct (_ && _); [|done]. cbn.
    by repeat case_step.
  - inversion Hkids as [|????[Hw0 Hw0'] Hk1]. inversion Hk1 as [|????[Hw1 Hw1'] _]. subst.
    destruct Hwf as (_&_&Hlr). apply Binary_create_folds; try done. cbn in Hw0', Hw1'. congruence.
Qed.

(** The value does not depend on the assignment. *)
Lemma rebuild_constants this consts ρ :
  wf this → isRead this = false → (∀ x, this ≠ NotOptimized x) → isConstant this = false →
  Forall2 same_type (Constant <$> consts) (getKids this) →
  rebuild_defined this (Constant <$> consts) → wf_assignment ρ →
  rebuild this (Constant <$> consts) =
    Done (const (eval ρ (replace_kids this (Constant <$> consts))) (getWidth this)).
Proof.
  intros Hwf Hr Hno Hnc Hkids Hdef Hρ.
  pose proof (rebuild_folds this consts Hwf Hr Hno Hnc Hkids Hdef) as Hf.
  pose proof (rebuild_ok this _ Hwf Hnc Hkids Hdef) as Hok. unfold folds in Hf.
  destruct (rebuild _ _) as [e| |]; try done. cbn in Hf, Hok.
  destruct e as [[w v]| | | | | | | | |]; try done. destruct Hok as (_ & Hw & Hv). cbn in Hw. subst w.
  do 3 f_equal. apply Hv; [done|]. clear Hv Hf.
  destruct this as [| | | | | | | | |k l r]; try done. destruct consts as [|cl [|cr [|]]]; try done.
  cbn. split; [done|]. intros Hdiv _. cbn in Hdef. by destruct k.
Qed.

End folding.

(** ** Evaluation *)

Section evaluation.
Context `{APIntLaws} `{WfStore} `{ObjectIdentity} `{Options} `{VisitorOptions}.
Variable ρ : assignment.
Hypothesis Hρ : wf_assignment ρ.
Variable getInitialValue : Array → Z → outcome Expr.
Hypothesis getInitialValue_spec : ∀ a i, 0 ≤ i → getInitialValue a i = Done (const (ρ a i) Int8).

(** The expressions that evaluation reduces to a constant: every division is by
    a non-zero value and every shift by less than the width, under [ρ]; and
    there is no [NotOptimized] node.  Of an update list only the updates down
    to the one that is read count. *)
Fixpoint evaluable (e : Expr) : Prop :=
  match e with
  | Constant _ => True
  | NotOptimized _ => False
  | Read root head index => evaluable index ∧ evaluable_read head (eval ρ index)
  | Select c t f => evaluable c ∧ evaluable t ∧ evaluable f
  | Concat l r => evaluable l ∧ evaluable r
  | Extract e _ _ | ZExt e _ | SExt e _ | Not e => evaluable e
  | Binary k l r => evaluable l ∧ evaluable r ∧ ap_defined k (getWidth l) (eval ρ r)
  end
with evaluable_read (un : UpdateNode) (i : Z) : Prop :=
  match un with
  | NullNode => True
  | Node next index value =>
      evaluable index ∧
      if eval ρ index =? i then evaluable value else evaluable_read next i
  end.

Definition value_of (e : Expr) : ConstantExpr := mkConstant (getWidth e) (eval ρ e).

Definition to_value (_ : unit) (e r : Expr) : Prop := r = Constant (value_of e).
Definition trivial_le (_ _ : unit) : Prop := True.

Definition evaluates (visit : Expr → V unit Expr) (e : Expr) : Prop :=
  visits to_value trivial_le visit e.

Lemma value_of_wf e : wf e → wf_constant (value_of e).
Proof. intros He. split; [by apply wf_width|by apply eval_bounded]. Qed.

(** The values of the kids determine the value of the node. *)
Lemma replace_kids_value e : eval ρ (replace_kids e (Constant <$> (value_of <$> getKids e))) = eval ρ e.
Proof. by destruct e. Qed.

Lemma same_type_value e : wf e → same_type (Constant (value_of e)) e.
Proof. intros He. split; [by apply value_of_wf|done]. Qed.

Lemma kids_same_type e :
  wf e → Forall2 same_type (Constant <$> (value_of <$> getKids e)) (getKids e).
Proof.
  intros Hwf.
  destruct e as [|x|? ? x|? ? ?|? ?|x ? ?|x ?|x ?|x|? ? ?]; cbn in Hwf |- *; destruct_and?;
    repeat first [apply Forall2_nil_2 | apply Forall2_cons_2; [by apply same_type_value|]].
Qed.

Lemma rebuild_values e :
  wf e → evaluable e → isRead e = false → isConstant e = false →
  rebuild e (Constant <$> (value_of <$> getKids e)) = Done (Constant (value_of e)).
Proof.
  intros Hwf Hev Hr Hc. rewrite (rebuild_constants _ _ ρ); try done.
  - by rewrite replace_kids_value.
  - by destruct e.
  - by apply kids_same_type.
  - destruct e; try done. cbn in *. by destruct_and?.
Qed.

(** The values of kids that are constant already. *)
Lemma constant_values kids :
  forallb isConstant kids = true → Constant <$> (value_of <$> kids) = kids.
Proof.
  induction kids as [|[[]| | | | | | | | |] kids IH]; cbn; try done. intros. by rewrite IH.
Qed.

Lemma evalRead_ok visit root head index :
  wf_nodes head → evaluable_read head index → 0 ≤ index →
  (∀ e, wf e → evaluable e → (full_size e ≤ nodes_full_size head)%nat → evaluates visit e) →
  ∀ s, cache_ok to_value s →
  runs (evalRead getInitialValue visit root head index) s (λ a s',
    a = ChangeTo (const (eval_read ρ root head index) Int8) ∧ cache_ok to_value s').
Proof.
  intros Hwf Hev Hi. induction head as [|next IH ui uv]; intros Hvis s Hs; cbn [evalRead].
  - cbn [eval_read]. unfold initial_byte. pose proof (wf_store root) as (Hsz & Hlen & Hall).
    destruct (constantValues (deref root)) as [|c0 cs] eqn:Ec; [|rewrite <- Ec in *].
    { rewrite getInitialValue_spec by done. by apply runs_ret. }
    destruct Hlen as [?|Hlen]; [congruence|].
    destruct (index <? array_size (deref root)) eqn:E; unbool.
    + destruct (lookup_lt_is_Some_2 (constantValues (deref root)) (Z.to_nat index)) as [c Hc]; [lia|].
      rewrite Hc. apply runs_ret. split; [|done].
      pose proof (Forall_lookup_1 _ _ _ _ Hall Hc) as [_ Hw]. destruct c. cbn in *. by subst.
    + rewrite getInitialValue_spec by done. apply runs_ret. split; [|done].
      by rewrite lookup_ge_None_2 by lia.
  - destruct Hwf as (Hnext & Hui & Hwui & Huv & Hwuv), Hev as [Heui Hev]. cbn in Hvis.
    apply runs_bind. eapply runs_mono; [apply Hvis; [done..|lia|done]|].
    intros r s1 (-> & Hs1 & _). cbn beta iota. apply runs_bind, runs_lift.
    rewrite getZExtValue_spec by (cbn; rewrite Hwui; done). cbn [yields value_of cvalue eval_read].
    destruct (eval ρ ui =? index) eqn:E.
    + apply runs_bind. eapply runs_mono; [apply Hvis; [done..|lia|done]|].
      intros r s2 (-> & Hs2 & _). apply runs_ret. split; [|done]. unfold value_of. by rewrite Hwuv.
    + apply IH; try done. intros. apply Hvis; [done..|lia].
Qed.
(** What the recursive calls may be assumed to do. *)
Definition smaller_ok (visit : Expr → V unit Expr) (e : Expr) : Prop :=
  ∀ e', wf e' ∧ evaluable e' → (full_size e' < full_size e)%nat → evaluates visit e'.

Lemma kid_evaluable e k : evaluable e → k ∈ getKids e → evaluable k.
Proof. destruct e; cbn; intros He Hk; kid_cases Hk; tauto. Qed.

Lemma kids_ok visit e :
  wf e → evaluable e → smaller_ok visit e → ∀ k, k ∈ getKids e → evaluates visit k.
Proof.
  intros Hwf Hev Hsm k Hk. apply Hsm; [|by apply kid_smaller].
  split; [by eapply kid_wf|by eapply kid_evaluable].
Qed.

Lemma kids_values kids kids' :
  Forall2 (to_value tt) kids kids' → kids' = Constant <$> (value_of <$> kids).
Proof. induction 1 as [|k k' ks ks' Hk _ ->]; [done|]. by rewrite Hk. Qed.

(** If no kid changed, the kids are constants. *)
Lemma unchanged_constant kids :
  any_changed kids (Constant <$> (value_of <$> kids)) = false → forallb isConstant kids = true.
Proof.
  unfold any_changed. induction kids as [|k kids IH]; cbn; [done|].
  intros [Hk%negb_false_iff Hks]%orb_false_iff. uneq. rewrite (IH Hks). by rewrite <- Hk.
Qed.

Lemma read_visit_ok visit root head index s :
  wf (Read root head index) → evaluable (Read root head index) →
  smaller_ok visit (Read root head index) → cache_ok to_value s →
  runs (eval_visitKind getInitialValue visit (Read root head index)) s (λ a s',
    a = ChangeTo (Constant (value_of (Read root head index))) ∧ cache_ok to_value s').
Proof.
  intros (Hh & Hi & Hw) [Hei Heh] Hsm Hs. unfold smaller_ok in Hsm. cbn in Hsm.
  cbn [eval_visitKind]. apply runs_bind. eapply runs_mono; [apply Hsm; [done|lia|done]|].
  intros r s1 (-> & Hs1 & _). cbn beta iota. apply runs_bind, runs_lift.
  rewrite getZExtValue_spec by (cbn; rewrite Hw; done). cbn [yields value_of cvalue].
  pose proof (eval_bounded ρ index Hρ Hi) as Hb. rewrite Hw in Hb.
  rewrite u32_small by apply Hb. apply evalRead_ok; try done; [apply Hb|].
  intros. apply Hsm; [done|lia].
Qed.

Lemma div_visit_ok visit k l r s :
  is_div k = true → wf (Binary k l r) → evaluable (Binary k l r) →
  smaller_ok visit (Binary k l r) → forallb isConstant [l; r] = false → cache_ok to_value s →
  runs (protectedDivOperation visit (Binary k l r) l r) s (λ a s',
    a = ChangeTo (Constant (value_of (Binary k l r))) ∧ cache_ok to_value s').
Proof.
  intros Hk Hwf Hev Hsm Hnc Hs. destruct (Hwf) as (Hl & Hr & Hlr), (Hev) as (Hel & Her & Hd).
  unfold protectedDivOperation. unfold smaller_ok in Hsm. cbn in Hsm.
  apply runs_bind. eapply runs_mono; [apply Hsm; [done|lia|done]|]. intros k0 s1 (-> & Hs1 & _).
  apply runs_bind. eapply runs_mono; [apply Hsm; [done|lia|done]|]. intros k1 s2 (-> & Hs2 & _).
  cbn beta iota. apply runs_bind, runs_lift. rewrite CE_isZero_spec by (by apply value_of_wf).
  cbn [yields value_of cvalue].
  assert ((eval ρ r =? 0) = false) as ->.
  { apply Z.eqb_neq. by destruct k. }
  pose proof (rebuild_values (Binary k l r) Hwf Hev eq_refl eq_refl) as Hreb.
  pose proof (unchanged_constant [l; r]) as Hunch. unfold any_changed in Hunch. cbn in Hunch, Hreb.
  rewrite orb_false_r in Hunch. cbn in Hnc.
  destruct (_ || _) eqn:E; [|specialize (Hunch eq_refl); congruence].
  apply runs_bind, runs_lift. cbn [rebuild]. rewrite Hreb. by apply runs_ret.
Qed.

Lemma Evaluator_visitActual_ok visit e :
  wf e ∧ evaluable e → smaller_ok visit e →
  evaluates (visitActual (Evaluator getInitialValue) visit) e.
Proof.
  intros [Hwf Hev] Hsm s Hs. unfold visitActual.
  destruct (isConstant e) eqn:Ec.
  { destruct e as [[]| | | | | | | | |]; done. }
  cbn [Evaluator visitExpr visitKind visitExprPost recursive].
  apply runs_bind. unfold eval_visitExpr.
  destruct (bool_decide (getKids e = []) || isRead e) eqn:E1.
  { destruct e; try done. apply runs_ret, runs_bind.
    eapply runs_mono; [by apply read_visit_ok|]. intros a s' [-> ?]. by apply runs_ret. }
  apply orb_false_iff in E1 as [_ Er].
  destruct (forallb isConstant (getKids e)) eqn:E2.
  { apply runs_bind, runs_lift. rewrite <- (constant_values (getKids e)) by done.
    rewrite rebuild_values by done. apply runs_ret, runs_ret. done. }
  apply runs_ret, runs_bind.
  assert (runs (kids ← visit_kids visit (getKids e);
      e' ← (if any_changed (getKids e) kids then lift (rebuild e kids) ≫= mret else mret e);
      if isConstant e' then mret e'
      else act ← default_visitExprPost visit e';
           match act with ChangeTo x => mret x | _ => mret e' end) s
    (λ r s', to_value s'.2 e r ∧ cache_ok to_value s' ∧ trivial_le s.2 s'.2)) as Hgen.
  { apply runs_bind. eapply runs_mono; [apply (visit_kids_ok to_value trivial_le); try done;
      by apply kids_ok|].
    intros kids s' (Hk & Hs' & _). destruct s' as [v []]. apply kids_values in Hk as ->.
    destruct (any_changed _ _) eqn:E3; [|by rewrite unchanged_constant in E2].
    apply runs_bind, runs_bind, runs_lift. rewrite rebuild_values by done. by apply runs_ret. }
  destruct e as [| | | | | | | | |k l r]; try done; try exact Hgen.
  cbn [eval_visitKind]. destruct (is_div k) eqn:Ek; [|exact Hgen].
  eapply runs_mono; [by apply div_visit_ok|]. intros a s' [-> ?]. by apply runs_ret.
Qed.

Lemma Evaluator_ok e :
  wf e → evaluable e → evaluates (visit_fuel (Evaluator getInitialValue) (full_size e)) e.
Proof.
  intros Hwf Hev. apply visit_fuel_ok with (Dom := λ e, wf e ∧ evaluable e); try done.
  intros visit e' He' Hsm. by apply Evaluator_visitActual_ok.
Qed.

End evaluation.

(** ** Assignments *)

(** The bytes that an assignment gives to the arrays: 0 where it has none. *)
Definition assignment_of (a : Assignment) : assignment := λ array i,
  default 0 (bindings a !! array ≫= λ bytes, bytes !! Z.to_nat i).

Definition wf_bindings (a : Assignment) : Prop :=
  map_Forall (λ _, Forall (λ b, b `bits` 8)) (bindings a).

Section assignment_correct.
Context `{APIntLaws} `{WfStore} `{ObjectIdentity} `{Options} `{VisitorOptions}.

Lemma assignment_of_wf a : wf_bindings a → wf_assignment (assignment_of a).
Proof.
  intros Ha array i. unfold assignment_of. destruct (bindings a !! array) as [bytes|] eqn:E; [|done].
  cbn. destruct (bytes !! Z.to_nat i) as [b|] eqn:Eb; [|done]. cbn.
  exact (Forall_lookup_1 _ _ _ _ (Ha _ _ E) Eb).
Qed.

Lemma Assignment_byte_spec a array i :
  wf_bindings a → allowFreeValues a = false →
  Assignment_byte a array i = Done (const (assignment_of a array i) Int8).
Proof.
  intros Ha Hf. pose proof (assignment_of_wf a Ha array i) as Hb. revert Hb.
  unfold Assignment_byte, assignment_of. rewrite Hf.
  destruct (bindings a !! array ≫= _); cbn; intros; by rewrite alloc_small.
Qed.

Lemma evaluate_with_ok a e s :
  wf_bindings a → allowFreeValues a = false → wf e → evaluable (assignment_of a) e →
  cache_ok (to_value (assignment_of a)) s →
  runs (evaluate_with a e) s (λ r s',
    r = Constant (value_of (assignment_of a) e) ∧ cache_ok (to_value (assignment_of a)) s').
Proof.
  intros Ha Hf He Hev Hs. eapply runs_mono.
  - apply (Evaluator_ok (assignment_of a)); try done; [by apply assignment_of_wf|].
    intros. by apply Assignment_byte_spec.
  - by intros r s' (?&?&_).
Qed.

Lemma satisfies_loop_ok a cs s :
  wf_bindings a → allowFreeValues a = false →
  Forall (λ c, wf c ∧ getWidth c = Bool ∧ evaluable (assignment_of a) c) cs →
  cache_ok (to_value (assignment_of a)) s →
  satisfies_loop a cs s = Done (forallb (λ c, eval (assignment_of a) c =? 1) cs).
Proof.
  intros Ha Hf Hcs. revert s. induction Hcs as [|c cs (Hc & Hw & Hev) _ IH]; intros s Hs; [done|].
  cbn [satisfies_loop forallb].
  destruct (runs_inv _ _ _ (evaluate_with_ok a c s Ha Hf Hc Hev Hs)) as (r & s' & -> & -> & Hs').
  cbn [mbind outcome_bind]. unfold isTrue. cbn [getWidth value_of cwidth]. rewrite Hw.
  change (cassert _) with (Done tt). cbn [mbind outcome_bind].
  rewrite CE_isTrue_spec by done. cbn [mbind outcome_bind value_of cvalue].
  by destruct (eval (assignment_of a) c =? 1); cbn; [apply IH|].
Qed.

Lemma Assignment_evaluate_ok a e :
  wf_bindings a → allowFreeValues a = false → wf e → evaluable (assignment_of a) e →
  Assignment_evaluate a e = Done (const (eval (assignment_of a) e) (getWidth e)).
Proof.
  intros Ha Hf He Hev. unfold Assignment_evaluate.
  destruct (runs_inv _ _ _ (evaluate_with_ok a e ([], tt) Ha Hf He Hev ltac:(constructor)))
    as (r & s' & -> & -> & _). done.
Qed.

Lemma Assignment_satisfies_ok a cs :
  wf_bindings a → allowFreeValues a = false →
  Forall (λ c, wf c ∧ getWidth c = Bool ∧ evaluable (assignment_of a) c) cs →
  Assignment_satisfies a cs ⇓ λ b,
    b = true ↔ ∀ c, c ∈ cs → eval (assignment_of a) c = 1.
Proof.
  intros Ha Hf Hcs. unfold Assignment_satisfies. rewrite satisfies_loop_ok; try done; [|constructor].
  cbn. rewrite forallb_forall. setoid_rewrite Z.eqb_eq. by setoid_rewrite <- list_elem_of_In.
Qed.

(** C3: evaluation under an assignment without free values folds every
    expression to a constant, its value under the bytes of the assignment,
    provided that no division by zero and no shift beyond the width is
    evaluated; memoisation in the visitor, folding during reconstruction and the
    resolution of reads against update lists included. *)
Theorem evaluation_correct a e :
  wf_bindings a → allowFreeValues a = false → wf e → evaluable (assignment_of a) e →
  Assignment_evaluate a e = Done (const (eval (assignment_of a) e) (getWidth e)).
Proof. apply Assignment_evaluate_ok. Qed.

(** [Assignment::satisfies] answers exactly whether all the constraints are
    true under the bytes of the assignment, sharing one memo table between
    them. *)
Theorem satisfies_correct a cs :
  wf_bindings a → allowFreeValues a = false →
  Forall (λ c, wf c ∧ getWidth c = Bool ∧ evaluable (assignment_of a) c) cs →
  Assignment_satisfies a cs ⇓ λ b,
    b = true ↔ ∀ c, c ∈ cs → eval (assignment_of a) c = 1.
Proof. apply Assignment_satisfies_ok. Qed.

End assignment_correct.

Section witnesses.
#[local] Existing Instance Sample.store.
#[local] Existing Instance Sample.store_wf.
#[local] Existing Instance identity.
#[local] Instance opt_on : Options := const_array_opt true.
#[local] Instance hash_on : VisitorOptions := {| UseVisitorHash := true |}.
Import Sample.

Definition sample_assignment : Assignment := Assignment_of [2%positive] [[7; 200; 1; 0]] false.

(** (input[0] * 2 + table[input[2]]) / input[0], with one update in between *)
Definition sample_expr : Expr :=
  Binary UDiv
    (Binary Add (Binary Mul (input 0) (const 2 8))
      (Read 1%positive (Node NullNode (ZExt (input 1) 32) (const 9 8)) (ZExt (input 2) 32)))
    (input 0).

Lemma sample_wf : wf sample_expr.
Proof. repeat split; done. Qed.

Lemma sample_evaluable : evaluable (assignment_of sample_assignment) sample_expr.
Proof. vm_compute. repeat split; congruence. Qed.

Lemma sample_bindings : wf_bindings sample_assignment.
Proof.
  intros a bytes Hl. unfold sample_assignment in Hl. cbn in Hl. unfold insert_binding in Hl.
  rewrite lookup_empty in Hl. apply lookup_insert_Some in Hl as [[_ <-]|[_ Hl]]; [|done].
  repeat constructor; done.
Qed.

Lemma evaluation_correct_witness :
  Assignment_evaluate sample_assignment sample_expr = Done (const 4 8).
Proof.
  transitivity (Done (const (eval (assignment_of sample_assignment) sample_expr) 8));
    [|vm_compute; reflexivity].
  exact (evaluation_correct sample_assignment sample_expr sample_bindings eq_refl
    sample_wf sample_evaluable).
Defined.

Lemma satisfies_correct_witness :
  Assignment_satisfies sample_assignment [Binary Eq (const 4 8) sample_expr] ⇓ λ b,
    b = true ↔ ∀ c, c ∈ [Binary Eq (const 4 8) sample_expr] →
      eval (assignment_of sample_assignment) c = 1.
Proof.
  apply (satisfies_correct sample_assignment [Binary Eq (const 4 8) sample_expr]);
    [exact sample_bindings|done|].
  constructor; [|constructor]. split_and!; [|done|].
  - split; [done|]. split; [exact sample_wf|done].
  - split; [done|]. split; [exact sample_evaluable|done].
Defined.
End witnesses.
