(* ===== verification/ExprUtil.v ===== *)
(** * Reads and symbolic arrays of an expression: [lib/Expr/ExprUtil.cpp] *)

From stdpp Require Import prelude gmap.
From S2P Require Import Prelude Bitvec Bits APInt ExprData ExprConstants ExprCasts ExprBinary.
From S2P Require Import ExprBinaryProofs ExprSelectRead ExprVisitor.

(** Comparison of the addresses of update nodes. *)
Class NodeIdentity : Set := {
  same_node : UpdateNode → UpdateNode → bool;
  same_node_eq a b : same_node a b = true → a = b;
}.

(** No two update lists share a node. *)
Program Definition unshared_nodes : NodeIdentity := {| same_node _ _ := false |}.
Solve Obligations with done.

(** ** [class SymbolicObjectFinder] *)

(** Its fields: the set of the arrays found, and the vector they are appended
    to. *)
Record FinderState : Type := mkFinder { results : gset Array; objects : list Array }.

Section finder.
Context `{APIntOps} `{ArrayStore} `{ObjectIdentity} `{Options} `{VisitorOptions}.

Definition isSymbolicArray (a : Array) : bool := bool_decide (constantValues (deref a) = []).

(** The loop of [visitRead] over the updates *)
Fixpoint visit_updates (visit : Expr → V FinderState Expr) (un : UpdateNode) : V FinderState unit :=
  match un with
  | NullNode => mret tt
  | Node next index value =>
      _ ← visit index;
      _ ← visit value;
      visit_updates visit next
  end.

(** [results.insert(root).second] and [objects.push_back(root)] *)
Definition insert_object (root : Array) (s : FinderState) : FinderState :=
  if isSymbolicArray root then
    if bool_decide (root ∈ results s) then s
    else mkFinder ({[root]} ∪ results s) (objects s ++ [root])
  else s.

(** [SymbolicObjectFinder::visitRead] *)
Definition finder_visitKind (visit : Expr → V FinderState Expr) (e : Expr) : V FinderState Action :=
  match e with
  | Read root head _ =>
      _ ← visit_updates visit head;
      s ← get;
      _ ← put (insert_object root s);
      mret DoChildren
  | _ => mret DoChildren
  end.

Definition Finder : Visitor FinderState :=
  mkVisitor false default_visitExpr finder_visitKind default_visitExprPost.

(** The loop of [findSymbolicObjects], with one finder for all expressions *)
Fixpoint find_loop (es : list Expr) (s : visited_ty * FinderState) : outcome (list Array) :=
  match es with
  | [] => Done (objects s.2)
  | e :: es => '(_, s) ← visit_fuel Finder (full_size e) e s; find_loop es s
  end.

Definition findSymbolicObjects (es : list Expr) : outcome (list Array) :=
  find_loop es ([], mkFinder ∅ []).

End finder.

(** ** [findReads] *)

Section reads.
Context `{APIntOps} `{ArrayStore}.

(** [visited.insert(e).second]: the set with [e], when [e] was not there *)
Definition insert_new (visited : list Expr) (e : Expr) : option (list Expr) :=
  if existsb (λ v, eqE v e) visited then None else Some (e :: visited).

(** [if (!isa<ConstantExpr>(k) && visited.insert(k).second) stack.push_back(k)];
    the top of the stack is the head of the list *)
Definition push_new (vs : list Expr * list Expr) (k : Expr) : list Expr * list Expr :=
  if isConstant k then vs
  else match insert_new vs.1 k with
  | Some visited => (visited, k :: vs.2)
  | None => vs
  end.

(** The index and value of each update, newest first *)
Fixpoint update_exprs (un : UpdateNode) : list Expr :=
  match un with
  | NullNode => []
  | Node next index value => index :: value :: update_exprs next
  end.

(** The loop of [findReads].  [updates] is the set of the heads whose updates
    were pushed; heads are compared by address in the source, which is [same]
    here. *)
Fixpoint reads_loop (fuel : nat) (same : UpdateNode → UpdateNode → bool) (visitUpdates : bool)
    (vs : list Expr * list Expr) (updates : list UpdateNode) (results : list Expr) :
    outcome (list Expr) :=
  match fuel with
  | O => OutOfFuel
  | S fuel =>
      match vs.2 with
      | [] => Done results
      | top :: stack =>
          match top with
          | Read root head index =>
              let vs := push_new (vs.1, stack) index in
              if visitUpdates && negb (existsb (same head) updates) then
                reads_loop fuel same visitUpdates (foldl push_new vs (update_exprs head))
                  (head :: updates) (results ++ [top])
              else reads_loop fuel same visitUpdates vs updates (results ++ [top])
          | _ =>
              reads_loop fuel same visitUpdates (foldl push_new (vs.1, stack) (getKids top))
                updates results
          end
      end
  end.

Definition findReads (same : UpdateNode → UpdateNode → bool) (e : Expr) (visitUpdates : bool) :
    outcome (list Expr) :=
  reads_loop (S (full_size e)) same visitUpdates (push_new ([], []) e) [] [].

End reads.

(** ** The arrays of an expression *)

Fixpoint arrays (e : Expr) : gset Array :=
  match e with
  | Constant _ => ∅
  | NotOptimized e | Extract e _ _ | ZExt e _ | SExt e _ | Not e => arrays e
  | Read root head index => {[root]} ∪ (node_arrays head ∪ arrays index)
  | Select c t f => arrays c ∪ (arrays t ∪ arrays f)
  | Concat l r | Binary _ l r => arrays l ∪ arrays r
  end
with node_arrays (un : UpdateNode) : gset Array :=
  match un with
  | NullNode => ∅
  | Node next index value => arrays index ∪ (arrays value ∪ node_arrays next)
  end.

Section finder_correct.
Context `{APIntOps} `{ArrayStore} `{ObjectIdentity} `{Options} `{VisitorOptions}.
(** The arrays of all the expressions searched. *)
Variable U : gset Array.

Definition finder_ok (s : FinderState) : Prop :=
  results s = list_to_set (objects s) ∧ NoDup (objects s) ∧
  ∀ a, a ∈ results s → isSymbolicArray a = true ∧ a ∈ U.

Definition finder_le (s s' : FinderState) : Prop :=
  results s ⊆ results s' ∧ (finder_ok s → finder_ok s').

(** The symbolic arrays in [X] are found. *)
Definition covers (s : FinderState) (X : gset Array) : Prop :=
  ∀ a, a ∈ X → isSymbolicArray a = true → a ∈ results s.

Definition found (s : FinderState) (e r : Expr) : Prop := r = e ∧ covers s (arrays e).

Lemma covers_mono s s' X : finder_le s s' → covers s X → covers s' X.
Proof. intros [Hsub _] HX a ??. by apply Hsub, HX. Qed.

Lemma covers_union s X Y : covers s X → covers s Y → covers s (X ∪ Y).
Proof. intros HX HY a [?|?]%elem_of_union ?; auto. Qed.

Lemma finder_le_refl s : finder_le s s.
Proof. done. Qed.

Lemma finder_le_trans x y z : finder_le x y → finder_le y z → finder_le x z.
Proof. intros [??] [??]. split; [set_solver|auto]. Qed.

Lemma found_mono x y e r : finder_le x y → found x e r → found y e r.
Proof. intros Hle [? Hc]. split; [done|by eapply covers_mono]. Qed.

Lemma insert_object_ok root s :
  root ∈ U → finder_le s (insert_object root s) ∧ covers (insert_object root s) {[root]}.
Proof.
  intros Hroot. unfold insert_object. destruct (isSymbolicArray root) eqn:Es.
  2: { split; [done|]. by intros a ->%elem_of_singleton ?; congruence. }
  case_bool_decide as Hin.
  { split; [done|]. by intros a ->%elem_of_singleton ?. }
  split; [split; cbn; [set_solver|]|by intros a ->%elem_of_singleton ?; set_solver].
  intros (Hr & Hnd & Hall). split_and!; cbn.
  - rewrite Hr, list_to_set_app_L. set_solver.
  - apply NoDup_app. split_and!; [done| |by apply NoDup_singleton].
    intros a Ha ->%list_elem_of_singleton. rewrite Hr in Hin. by apply Hin, elem_of_list_to_set.
  - intros a [->%elem_of_singleton|?]%elem_of_union; auto.
Qed.

(** Recursive calls on smaller expressions. *)
Definition finds (visit : Expr → V FinderState Expr) (e : Expr) : Prop :=
  visits found finder_le visit e.

Lemma visit_updates_ok visit un s :
  (∀ e, arrays e ⊆ node_arrays un → (full_size e ≤ nodes_full_size un)%nat → finds visit e) →
  cache_ok found s →
  runs (visit_updates visit un) s (λ _ s',
    cache_ok found s' ∧ finder_le s.2 s'.2 ∧ covers s'.2 (node_arrays un)).
Proof.
  revert s. induction un as [|next IH index value]; intros s Hv Hs; cbn [visit_updates].
  { apply runs_ret. split_and!; [done..|]. intros a Ha. cbn in Ha. set_solver. }
  cbn in Hv. apply runs_bind. eapply runs_mono; [apply Hv; [set_solver|lia|done]|].
  intros _r s1 ([_ Hc1] & Hs1 & Hle1).
  apply runs_bind. eapply runs_mono; [apply Hv; [set_solver|lia|done]|].
  intros _r' s2 ([_ Hc2] & Hs2 & Hle2).
  eapply runs_mono; [apply IH; [|done]|].
  { intros. apply Hv; [set_solver|lia]. }
  intros _ s3 (Hs3 & Hle3 & Hc3). split_and!; [done|by eauto using finder_le_trans|].
  cbn. apply covers_union; [by eauto using covers_mono, finder_le_trans|].
  apply covers_union; [by eauto using covers_mono|done].
Qed.

Lemma kid_arrays e k : k ∈ getKids e → arrays k ⊆ arrays e.
Proof. destruct e; cbn; intros Hk; kid_cases Hk; set_solver. Qed.

Lemma kids_cover s e :
  isConstant e = false → (∀ k, k ∈ getKids e → covers s (arrays k)) →
  (∀ root head i, e = Read root head i → covers s {[root]} ∧ covers s (node_arrays head)) →
  covers s (arrays e).
Proof.
  intros Hnc Hk Hr a Ha Hs.
  destruct e as [|x|root head x|c t f|l r|x ? ?|x ?|x ?|x|? l r]; try done; cbn in Hk, Ha;
    rewrite ?elem_of_union in Ha; destruct_or? Ha;
    try (by eapply Hk; [|exact Ha|done]; set_solver).
  - destruct (Hr root head x eq_refl) as [Hc _]. by apply Hc.
  - destruct (Hr root head x eq_refl) as [_ Hc]. by apply Hc.
Qed.

Lemma unchanged_kids s kids kids' :
  Forall2 (found s) kids kids' →
  any_changed kids kids' = false ∧ ∀ k, k ∈ kids → covers s (arrays k).
Proof.
  unfold any_changed. induction 1 as [|k k' ks ks' [-> Hc] _ [IH1 IH2]]; cbn; [by split; [|set_solver]|].
  rewrite eqE_refl. split; [done|]. intros k' [->|?]%elem_of_cons; auto.
Qed.

Lemma Finder_visitActual_ok visit e :
  arrays e ⊆ U → (∀ e', arrays e' ⊆ U → (full_size e' < full_size e)%nat → finds visit e') →
  finds (visitActual Finder visit) e.
Proof.
  intros HU Hsm s Hs. unfold visitActual. destruct (isConstant e) eqn:Ec.
  { apply runs_ret. split_and!; [split; [done|]|done|done].
    by destruct e. }
  cbn [Finder visitExpr visitKind visitExprPost recursive].
  apply runs_bind, runs_ret, runs_bind.
  (* the update list, then the root of a read *)
  apply runs_mono with (P := λ act s', act = DoChildren ∧ cache_ok found s' ∧ finder_le s.2 s'.2 ∧
    ∀ root head i, e = Read root head i → covers s'.2 {[root]} ∧ covers s'.2 (node_arrays head)).
  { destruct e as [| |root head index| | | | | | |]; try (by apply runs_ret; split_and!).
    cbn in HU, Hsm. cbn [finder_visitKind]. apply runs_bind.
    eapply runs_mono; [apply visit_updates_ok; [|done]|].
    { intros e' ? ?. apply Hsm; [set_solver|lia]. }
    intros _ s1 (Hs1 & Hle1 & Hc1). apply runs_bind. unfold runs, get. cbn.
    destruct (insert_object_ok root s1.2) as [Hle Hc]; [set_solver|].
    split_and!; [done| |by eapply finder_le_trans|].
    - unfold cache_ok. cbn. eapply Forall_impl; [exact Hs1|]. intros [e' r]. by apply found_mono.
    - intros ??? [= <- <- <-]. split; [done|by eapply covers_mono]. }
  intros act s1 (-> & Hs1 & Hle1 & Hread). apply runs_bind.
  eapply runs_mono; [apply (visit_kids_ok found finder_le); eauto using finder_le_refl, finder_le_trans, found_mono|].
  { intros k Hk. apply Hsm; [|by apply kid_smaller]. etrans; [by apply kid_arrays|done]. }
  intros kids s2 (Hk & Hs2 & Hle2). destruct (unchanged_kids _ _ _ Hk) as [-> Hkc].
  apply runs_bind, runs_ret. rewrite Ec. apply runs_bind, runs_ret, runs_ret.
  split_and!; [split; [done|]|done|by eapply finder_le_trans]. apply kids_cover; [done..|].
  intros root head i He. destruct (Hread _ _ _ He). split; by eapply covers_mono.
Qed.

Lemma find_loop_ok es s :
  Forall (λ e, arrays e ⊆ U) es → cache_ok found s → finder_ok s.2 →
  find_loop es s ⇓ λ objs,
    ∃ s', objs = objects s' ∧ finder_ok s' ∧ finder_le s.2 s' ∧ Forall (λ e, covers s' (arrays e)) es.
Proof.
  intros Hes. revert s. induction Hes as [|e es He _ IH]; intros s Hs Hok.
  { cbn. exists s.2. split_and!; [done..|constructor]. }
  cbn [find_loop]. assert (finds (visit_fuel Finder (full_size e)) e) as Hv.
  { apply visit_fuel_ok with (Dom := λ e, arrays e ⊆ U); auto using finder_le_refl.
    intros. by apply Finder_visitActual_ok. }
  destruct (runs_inv _ _ _ (Hv s Hs)) as (r & s1 & -> & [_ Hc] & Hs1 & Hle1).
  cbn [mbind outcome_bind]. eapply yields_mono; [apply IH; [done|by apply Hle1]|].
  intros objs (s2 & -> & Hok2 & Hle2 & Hall). exists s2. split_and!; [done..| |].
  - by eapply finder_le_trans.
  - constructor; [by eapply covers_mono|done].
Qed.
End finder_correct.

(** ** The reads of an expression *)

(** The expressions that [findReads] goes to from [e]. *)
Definition children (visitUpdates : bool) (e : Expr) : list Expr :=
  match e with
  | Read _ head index => index :: (if visitUpdates then update_exprs head else [])
  | _ => getKids e
  end.

Definition reaches (visitUpdates : bool) : Expr → Expr → Prop :=
  rtc (λ e k, k ∈ children visitUpdates e).

Definition is_read (e : Expr) : bool := if e is Read _ _ _ then true else false.

(** All occurrences of subterms, update lists included. *)
Fixpoint subterms (e : Expr) : list Expr :=
  e :: (match e with
  | Constant _ => []
  | NotOptimized e | Extract e _ _ | ZExt e _ | SExt e _ | Not e => subterms e
  | Read _ head index => subterms index ++ node_subterms head
  | Select c t f => subterms c ++ subterms t ++ subterms f
  | Concat l r | Binary _ l r => subterms l ++ subterms r
  end)
with node_subterms (un : UpdateNode) : list Expr :=
  match un with
  | NullNode => []
  | Node next index value => subterms index ++ subterms value ++ node_subterms next
  end.

Lemma subterms_length_mut :
  (∀ e, length (subterms e) = full_size e) ∧
  (∀ un, length (node_subterms un) = nodes_full_size un).
Proof. apply Expr_UpdateNode_ind; intros; cbn; rewrite ?length_app; lia. Qed.

Lemma subterms_self e : e ∈ subterms e.
Proof. destruct e; by left. Qed.

Lemma subterms_update un k : k ∈ update_exprs un → ∀ x, x ∈ subterms k → x ∈ node_subterms un.
Proof.
  induction un as [|next IH index value]; cbn; [by intros ?%not_elem_of_nil|].
  intros Hk x Hx. rewrite !elem_of_app. rewrite !elem_of_cons in Hk.
  destruct Hk as [->|[->|Hk]]; eauto.
Qed.

Lemma subterms_child u e k : k ∈ children u e → ∀ x, x ∈ subterms k → x ∈ subterms e.
Proof.
  intros Hk x Hx. destruct e as [| |root head index| | | | | | |]; cbn in Hk |- *.
  3: { right. rewrite elem_of_app. apply elem_of_cons in Hk as [->|Hk]; [by left|right].
    destruct u; [by eapply subterms_update|by apply not_elem_of_nil in Hk]. }
  all: kid_cases Hk; right; rewrite ?elem_of_app; tauto.
Qed.

Lemma reaches_subterm u e k : reaches u e k → k ∈ subterms e.
Proof.
  intros Hr. cut (∀ x, x ∈ subterms k → x ∈ subterms e); [auto using subterms_self|].
  induction Hr as [|e1 e2 k Hc _ IH]; [done|]. eauto using subterms_child.
Qed.

Section reads_correct.
Context `{APIntOps} `{ArrayStore}.

(** [vs'] is [vs] after pushing some of [ks], all those not seen before. *)
Definition pushed (ks : list Expr) (vs vs' : list Expr * list Expr) : Prop :=
  ∃ new, vs'.1 = new ++ vs.1 ∧ vs'.2 = new ++ vs.2 ∧ NoDup new ∧
    (∀ x, x ∈ new → x ∈ ks ∧ (x ∉ vs.1) ∧ isConstant x = false) ∧
    (∀ k, k ∈ ks → isConstant k = true ∨ k ∈ vs'.1).

Lemma insert_new_spec visited e :
  insert_new visited e = if decide (e ∈ visited) then None else Some (e :: visited).
Proof.
  unfold insert_new. destruct (existsb _ _) eqn:E.
  - apply existsb_exists in E as (x & Hx%list_elem_of_In & ->%eqE_eq). by rewrite decide_True.
  - rewrite decide_False; [done|]. intros Hin%list_elem_of_In.
    assert (existsb (λ v, eqE v e) visited = true); [|congruence].
    apply existsb_exists. exists e. by rewrite eqE_refl.
Qed.

Lemma push_new_ok vs k : pushed [k] vs (push_new vs k).
Proof.
  unfold push_new, pushed. destruct (isConstant k) eqn:Ek.
  { exists []. split_and!; try done; [constructor|by intros ? ?%not_elem_of_nil|].
    intros ? ->%list_elem_of_singleton. by left. }
  rewrite insert_new_spec. destruct (decide (k ∈ vs.1)).
  - exists []. split_and!; try done; [constructor|by intros ? ?%not_elem_of_nil|].
    intros ? ->%list_elem_of_singleton. by right.
  - exists [k]. split_and!; try done; [apply NoDup_singleton|..].
    + intros x ->%list_elem_of_singleton. split_and!; [by left|done|done].
    + intros ? ->%list_elem_of_singleton. right. by left.
Qed.

Lemma pushed_trans ks ks' vs1 vs2 vs3 :
  pushed ks vs1 vs2 → pushed ks' vs2 vs3 → pushed (ks ++ ks') vs1 vs3.
Proof.
  intros (n1 & Hv1 & Hs1 & Hnd1 & Hn1 & Hk1) (n2 & Hv2 & Hs2 & Hnd2 & Hn2 & Hk2).
  exists (n2 ++ n1). rewrite Hv2, Hs2, Hv1, Hs1, !app_assoc. split_and!; [done..| | |].
  - apply NoDup_app. split_and!; [done| |done]. intros x (_ & Hx & _)%Hn2 Hx1.
    apply Hx. rewrite Hv1. apply elem_of_app. by left.
  - intros x [(?&Hx&?)%Hn2|(?&?&?)%Hn1]%elem_of_app; rewrite elem_of_app; split_and!; auto.
    intros Hx1. apply Hx. rewrite Hv1. apply elem_of_app. by right.
  - intros k [[?|Hk]%Hk1|[?|Hk]%Hk2]%elem_of_app; auto; right; rewrite <- app_assoc, <- Hv1.
    + apply elem_of_app. by right.
    + by rewrite <- Hv2.
Qed.

Lemma foldl_push_ok ks vs : pushed ks vs (foldl push_new vs ks).
Proof.
  revert vs. induction ks as [|k ks IH]; intros vs; cbn.
  - exists []. split_and!; try done; [constructor|..]; by intros ? ?%not_elem_of_nil.
  - apply (pushed_trans [k] ks _ (push_new vs k)); [apply push_new_ok|done].
Qed.
(** The invariant of the loop: [seen] are the expressions popped so far. *)
Record reads_inv (u : bool) (e : Expr) (vs : list Expr * list Expr) (seen : list Expr)
    (updates : list UpdateNode) (rs : list Expr) : Prop := {
  inv_nodup : NoDup (vs.2 ++ seen);
  inv_visited x : x ∈ vs.1 ↔ x ∈ vs.2 ++ seen;
  inv_reach x : x ∈ vs.2 ++ seen → reaches u e x ∧ isConstant x = false;
  inv_start : isConstant e = true ∨ e ∈ vs.2 ++ seen;
  inv_closed x k : x ∈ seen → k ∈ children u x → isConstant k = true ∨ k ∈ vs.1;
  inv_updates h k : h ∈ updates → k ∈ update_exprs h → isConstant k = true ∨ k ∈ vs.1;
  inv_results : NoDup rs ∧ ∀ r, r ∈ rs ↔ r ∈ seen ∧ is_read r = true;
}.

(** Popping [top] and pushing expressions [ks] keeps the invariant. *)
Lemma reads_inv_step u e top v stack seen updates updates' rs rs' ks vs' :
  reads_inv u e (v, top :: stack) seen updates rs →
  pushed ks (v, stack) vs' → (∀ k, k ∈ ks → k ∈ children u top) →
  (∀ k, k ∈ children u top → isConstant k = true ∨ k ∈ vs'.1) →
  (∀ h k, h ∈ updates' → k ∈ update_exprs h → isConstant k = true ∨ k ∈ vs'.1) →
  rs' = (if is_read top then rs ++ [top] else rs) →
  reads_inv u e vs' (top :: seen) updates' rs'.
Proof.
  intros [Hnd Hvis Hreach Hst Hcl Hup [Hrnd Hrs]] (new & Hv' & Hs' & Hnew & Hn & Hk) Hch Htop Hup' ->.
  cbn in *. assert (∀ x, x ∈ new ++ stack ++ top :: seen ↔ x ∈ new ++ top :: stack ++ seen) as Hperm.
  { intros x. rewrite !elem_of_app, !elem_of_cons, !elem_of_app. tauto. }
  assert (∀ x, x ∈ vs'.1 ↔ x ∈ vs'.2 ++ top :: seen) as Hvis'.
  { intros x. rewrite Hv', Hs', <- app_assoc, Hperm, !elem_of_app, Hvis. done. }
  split; try done.
  - rewrite Hs', <- app_assoc. apply NoDup_app. split_and!; [done| |].
    + intros x (_ & Hx & _)%Hn Hx'. apply Hx, Hvis. revert Hx'.
      rewrite !elem_of_app, !elem_of_cons, !elem_of_app. tauto.
    + by rewrite <- Permutation_middle.
  - intros x Hx. rewrite Hs', <- app_assoc, Hperm in Hx. apply elem_of_app in Hx as [Hx|Hx]; [|by apply Hreach].
    destruct (Hn x Hx) as (Hxk & _ & Hc). split; [|done].
    eapply rtc_r; [apply (Hreach top); by left|]. by apply Hch.
  - destruct Hst as [?|He]; [by left|right]. apply Hvis'. rewrite Hv'. apply elem_of_app. right. by apply Hvis.
  - intros x k [->|Hx]%elem_of_cons Hxk; [by apply Htop|].
    destruct (Hcl x k Hx Hxk); [by left|right]. rewrite Hv'. apply elem_of_app. by right.
  - assert (top ∉ seen) as Hnt.
    { intros Ht. apply NoDup_cons in Hnd as [Hnd _]. apply Hnd. apply elem_of_app. by right. }
    destruct (is_read top) eqn:Er.
    + split.
      * apply NoDup_app. split_and!; [done| |apply NoDup_singleton].
        intros x Hx%Hrs ->%list_elem_of_singleton. by destruct Hx.
      * intros r. rewrite elem_of_app, Hrs, list_elem_of_singleton, elem_of_cons.
        split; [intros [[??]| ->]; auto|intros [[->|?] ?]; auto].
    + split; [done|]. intros r. rewrite Hrs, elem_of_cons.
      split; [intros [??]; auto|intros [[->|?] ?]; [congruence|done]].
Qed.

Lemma reads_inv_length u e vs seen updates rs :
  reads_inv u e vs seen updates rs → (length vs.2 + length seen ≤ full_size e)%nat.
Proof.
  intros [Hnd _ Hreach _ _ _ _]. rewrite <- (proj1 subterms_length_mut), <- length_app.
  apply NoDup_incl_length; [by apply NoDup_ListNoDup|].
  intros x Hx%list_elem_of_In. apply list_elem_of_In. by eapply reaches_subterm, Hreach.
Qed.

Lemma reads_inv_done u e v seen updates rs :
  reads_inv u e (v, []) seen updates rs →
  NoDup rs ∧ ∀ r, r ∈ rs ↔ is_read r = true ∧ reaches u e r.
Proof.
  intros [_ Hvis Hreach Hst Hcl _ [Hnd Hrs]]. cbn in *. split; [done|]. intros r. rewrite Hrs. split.
  - intros [Hr ?]. split; [done|]. by apply Hreach.
  - intros [Hr He]. split; [|done].
    cut (isConstant r = true ∨ r ∈ seen); [by intros [?|?]; [destruct r|]|].
    clear Hr. revert r He. refine (rtc_ind_r (λ r, isConstant r = true ∨ r ∈ seen) e _ _); [done|].
    intros x r _ Hxr IH. destruct IH as [Hc|Hs]; [destruct x; try done; by apply not_elem_of_nil in Hxr|].
    destruct (Hcl x r Hs Hxr) as [?|Hr%Hvis]; [by left|by right].
Qed.

Lemma reads_loop_ok same u e fuel vs seen updates rs :
  (∀ a b, same a b = true → a = b) →
  reads_inv u e vs seen updates rs → (full_size e < fuel + length seen)%nat →
  reads_loop fuel same u vs updates rs ⇓ λ rs',
    NoDup rs' ∧ ∀ r, r ∈ rs' ↔ is_read r = true ∧ reaches u e r.
Proof.
  intros Hsame. revert vs seen updates rs. induction fuel as [|fuel IH];
    intros [v st] seen updates rs Hinv Hf.
  { apply reads_inv_length in Hinv. lia. }
  destruct st as [|top stack]; cbn [reads_loop fst snd].
  { by eapply reads_inv_done. }
  assert (∀ h k, h ∈ updates → k ∈ update_exprs h → isConstant k = true ∨ k ∈ v) as Hup
    by apply Hinv.
  assert (∀ ks vs', pushed ks (v, stack) vs' → ∀ x, x ∈ v → x ∈ vs'.1) as Hmono.
  { intros ks vs' (new & -> & _) x Hx. apply elem_of_app. by right. }
  destruct (is_read top) eqn:Er.
  - destruct top as [| |root head index| | | | | | |]; try done. clear Er.
    pose proof (push_new_ok (v, stack) index) as Hp1. set (vs1 := push_new (v, stack) index) in *.
    destruct (u && negb (existsb (same head) updates)) eqn:Eu.
    + apply andb_true_iff in Eu as [-> _].
      pose proof (pushed_trans _ _ _ _ _ Hp1 (foldl_push_ok (update_exprs head) vs1)) as Hp.
      eapply IH; [eapply reads_inv_step; [done|exact Hp|..]|cbn; lia]; try done.
      * destruct Hp as (?&_&_&_&_&Hk). exact Hk.
      * intros h k [->|Hh]%elem_of_cons Hk.
        -- destruct Hp as (?&_&_&_&_&Hks). apply Hks. apply elem_of_app. by right.
        -- destruct (Hup h k Hh Hk); eauto.
    + eapply IH; [eapply reads_inv_step; [done|exact Hp1|..]|cbn; lia]; try done.
      * intros k ->%list_elem_of_singleton. by left.
      * destruct Hp1 as (new&Hnew&_&_&_&Hks). intros k [->|Hk]%elem_of_cons; [apply Hks; by left|].
        destruct u; [|by apply not_elem_of_nil in Hk]. cbn in Eu. apply negb_false_iff in Eu.
        apply existsb_exists in Eu as (h & Hh%list_elem_of_In & <-%Hsame).
        destruct (Hup head k Hh Hk); [by left|right]. rewrite Hnew. apply elem_of_app. by right.
      * intros h k Hh Hk. destruct (Hup h k Hh Hk); eauto.
  - assert (children u top = getKids top) as Hch by (by destruct top).
    pose proof (foldl_push_ok (getKids top) (v, stack)) as Hp.
    assert (reads_loop fuel same u (foldl push_new (v, stack) (getKids top)) updates rs ⇓ λ rs',
      NoDup rs' ∧ ∀ r, r ∈ rs' ↔ is_read r = true ∧ reaches u e r) as Hgoal; [|by destruct top].
    eapply IH; [eapply reads_inv_step; [done|exact Hp|..]|cbn; lia]; try done.
    + by rewrite Hch.
    + rewrite Hch. destruct Hp as (?&_&_&_&_&Hk). exact Hk.
    + intros h k Hh Hk. destruct (Hup h k Hh Hk); eauto.
    + by rewrite Er.
Qed.

Lemma reads_inv_start u e : reads_inv u e (push_new ([], []) e) [] [] [].
Proof.
  unfold push_new. destruct (isConstant e) eqn:E; cbn; (split; cbn; try done).
  all: try (by intros ? ?%not_elem_of_nil). all: try (by intros ? ? ?%not_elem_of_nil).
  - constructor.
  - by left.
  - split; [constructor|]. intros r. rewrite !elem_of_nil. tauto.
  - apply NoDup_singleton.
  - intros x ->%list_elem_of_singleton. split; [apply rtc_refl|done].
  - right. by left.
  - split; [constructor|]. intros r. rewrite !elem_of_nil. tauto.
Qed.

Lemma findReads_ok same e visitUpdates :
  (∀ a b, same a b = true → a = b) →
  findReads same e visitUpdates ⇓ λ rs, NoDup rs ∧
    ∀ r, r ∈ rs ↔ is_read r = true ∧ reaches visitUpdates e r.
Proof. intros Hsame. eapply reads_loop_ok; [done|apply reads_inv_start|cbn; lia]. Qed.
End reads_correct.


Section properties.
Context `{APIntOps} `{ArrayStore} `{ObjectIdentity} `{Options} `{VisitorOptions}.

Lemma findSymbolicObjects_ok es :
  findSymbolicObjects es ⇓ λ objs, NoDup objs ∧
    ∀ a, a ∈ objs ↔ isSymbolicArray a = true ∧ ∃ e, e ∈ es ∧ a ∈ arrays e.
Proof.
  pose (U := ⋃ (arrays <$> es) : gset Array).
  assert (∀ a, a ∈ U ↔ ∃ e, e ∈ es ∧ a ∈ arrays e) as HU.
  { intros a. unfold U. rewrite elem_of_union_list. setoid_rewrite list_elem_of_fmap. naive_solver. }
  eapply yields_mono; [apply (find_loop_ok U)|].
  - apply Forall_forall. intros e He a Ha. apply HU. eauto.
  - constructor.
  - split_and!; [done|constructor|set_solver].
  - intros objs (s & -> & (Hr & Hnd & Hall) & _ & Hc). split; [done|]. intros a. split.
    + intros Ha. assert (a ∈ results s) as Hin by (rewrite Hr; by apply elem_of_list_to_set).
      destruct (Hall a Hin). split; [done|by apply HU].
    + intros [Hs (e & He & Ha)]. apply (elem_of_list_to_set (C := gset Array)). rewrite <- Hr.
      by apply (proj1 (Forall_forall _ _) Hc e He).
Qed.

(** [findSymbolicObjects] lists exactly the symbolic arrays that occur in
    the expressions, in update lists too, each of them once. *)
Theorem findSymbolicObjects_correct es :
  findSymbolicObjects es ⇓ λ objs, NoDup objs ∧
    ∀ a, a ∈ objs ↔ isSymbolicArray a = true ∧ ∃ e, e ∈ es ∧ a ∈ arrays e.
Proof. apply findSymbolicObjects_ok. Qed.

(** [findReads] terminates and lists every [Read] node that the expression
    contains, each once; with [visitUpdates] those inside update lists too,
    although the updates of a shared head are only scanned the first time. *)
Theorem findReads_correct same e visitUpdates :
  (∀ a b, same a b = true → a = b) →
  findReads same e visitUpdates ⇓ λ rs, NoDup rs ∧
    ∀ r, r ∈ rs ↔ is_read r = true ∧ reaches visitUpdates e r.
Proof. apply findReads_ok. Qed.
End properties.

Section witnesses.
#[local] Existing Instance Sample.store.
Import Sample.

(** A read that occurs in an update list and twice in the expression. *)
Lemma findReads_correct_witness :
  let e := Binary Add (Read 1%positive (Node NullNode (const 0 32) (input 1)) (ZExt (input 0) 32))
                      (input 1) in
  findReads (λ _ _, false) e true =
    Done [input 1; Read 1%positive (Node NullNode (const 0 32) (input 1)) (ZExt (input 0) 32);
          input 0] ∧
  (findReads (λ _ _, false) e true ⇓ λ rs, NoDup rs ∧
    ∀ r, r ∈ rs ↔ is_read r = true ∧ reaches true e r).
Proof.
  split; [vm_compute; reflexivity|].
  apply (findReads_correct (λ _ _, false)). discriminate.
Defined.
End witnesses.
