(* ===== verification/Constraints.v ===== *)
(** * Path constraints: [klee/Constraints.h] and [lib/Expr/Constraints.cpp]

    Constraint managers share a tree of condition nodes.  A manager keeps a
    strong reference to a root and to a head; a node keeps its parent alive, and
    only has weak references to its children.  The tree lives in a heap from
    which nodes disappear when their last strong reference does. *)

From stdpp Require Import prelude gmap.
From S2P Require Import Prelude Bitvec Bits APInt ExprData ExprConstants ExprBinary.

(** ** Data *)

(** A [ConditionNode *]; addresses are not reused while a weak reference to
    them exists. *)
Definition node_ref : Set := positive.

(** [class ConditionNode]; the root has no parent and a null expression. *)
Record ConditionNode : Type := mkNode {
  parent : option (node_ref * Expr);
  depth : Z;
  children : list (Expr * node_ref);
}.

Record heap : Type := mkHeap { nodes : gmap node_ref ConditionNode; next_ref : node_ref }.

(** [class ConstraintManager] *)
Record ConstraintManager : Type := mkManager { cm_root : node_ref; cm_head : node_ref }.

Arguments mkManager cm_root%_positive_scope cm_head%_positive_scope.

#[export] Instance ConstraintManager_eq_dec : EqDecision ConstraintManager.
Proof. solve_decision. Defined.

Section constraints.
Context `{APIntOps} `{ArrayStore}.

(** ** Condition nodes *)

(** [children_[expr]], when there is an entry *)
Fixpoint find_child (cs : list (Expr * node_ref)) (e : Expr) : option node_ref :=
  match cs with
  | [] => None
  | (e', c) :: cs => if eqE e' e then Some c else find_child cs e
  end.

(** [make_shared<ConditionNode>(...)] *)
Definition allocate (h : heap) (n : ConditionNode) : heap * node_ref :=
  (mkHeap (<[next_ref h := n]> (nodes h)) (Pos.succ (next_ref h)), next_ref h).

(** [ConditionNode::getOrCreate] on the node [r].  A weak reference is expired
    when the node is no longer in the heap. *)
Definition getOrCreate (h : heap) (r : node_ref) (e : Expr) : outcome (heap * node_ref) :=
  match nodes h !! r with
  | None => AssertFailed
  | Some n =>
      match find_child (children n) e ≫= λ c, c' ← nodes h !! c; Some c with
      | Some c => Done (h, c)
      | None =>
          let '(h', c) := allocate h (mkNode (Some (r, e)) (depth n + 1) []) in
          let n' := mkNode (parent n) (depth n) ((e, c) :: children n) in
          Done (mkHeap (<[r := n']> (nodes h')) (next_ref h'), c)
      end
  end.

(** ** Constraint managers *)

(** [ConstraintManager::ConstraintManager()] *)
Definition new_manager (h : heap) : heap * ConstraintManager :=
  let '(h', r) := allocate h (mkNode None 0 []) in (h', mkManager r r).

(** [ConstraintManager::addConstraint] *)
Fixpoint addConstraint (h : heap) (cm : ConstraintManager) (e : Expr) {struct e} :
    outcome (heap * ConstraintManager) :=
  match e with
  | Constant CE =>
      t ← CE_isTrue CE;
      cassert t;;
      Done (h, cm)
  | Binary And l r =>
      '(h, cm) ← addConstraint h cm l;
      addConstraint h cm r
  | _ =>
      '(h, head) ← getOrCreate h (cm_head cm) e;
      Done (h, mkManager (cm_root cm) head)
  end.

(** [ConstraintManager::ConstraintManager(cs)] *)
Definition manager_of (h : heap) (cs : list Expr) : outcome (heap * ConstraintManager) :=
  foldl (λ m c, '(h, cm) ← m; addConstraint h cm c) (Done (new_manager h)) cs.

(** The expressions from [begin()] to [end()]: from the head up to the root,
    [n] nodes at most. *)
Fixpoint walk (n : nat) (h : heap) (root r : node_ref) : outcome (list Expr) :=
  if bool_decide (r = root) then Done []
  else match n with
  | O => OutOfFuel
  | S n =>
      match nodes h !! r with
      | Some (mkNode (Some (p, e)) _ _) => es ← walk n h root p; Done (e :: es)
      | _ => AssertFailed
      end
  end.

(** [ConstraintManager::size] *)
Definition manager_size (h : heap) (cm : ConstraintManager) : outcome Z :=
  match nodes h !! cm_head cm with Some n => Done (depth n) | None => AssertFailed end.

(** [ConstraintManager::empty] *)
Definition manager_empty (cm : ConstraintManager) : bool := bool_decide (cm_head cm = cm_root cm).

(** The constraints of a manager, newest first. *)
Definition constraints_of (h : heap) (cm : ConstraintManager) : outcome (list Expr) :=
  n ← manager_size h cm; walk (Z.to_nat n) h (cm_root cm) (cm_head cm).

(** The constraints of a new manager of [cs]; its root is new, so the rest of
    the heap does not matter. *)
Definition manager_constraints (cs : list Expr) : outcome (list Expr) :=
  '(h, cm) ← manager_of (mkHeap ∅ 1%positive) cs; constraints_of h cm.

End constraints.

(** ** The system: managers created, copied, extended and destroyed *)

(** The heap and the live managers. *)
Record system : Type := mkSystem { sys_heap : heap; managers : list ConstraintManager }.

(** A node without strong references: it is neither the root nor the head of a
    manager, nor the parent of a node. *)
Definition unreferenced (s : system) (r : node_ref) : Prop :=
  (∀ cm, cm ∈ managers s → cm_root cm ≠ r ∧ cm_head cm ≠ r) ∧
  (∀ c n p, nodes (sys_heap s) !! c = Some n → parent n = Some p → p.1 ≠ r).

Inductive step `{APIntOps} `{ArrayStore} : system → system → Prop :=
| step_new h ms h' cm :
    new_manager h = (h', cm) → step (mkSystem h ms) (mkSystem h' (cm :: ms))
| step_copy h ms cm :
    cm ∈ ms → step (mkSystem h ms) (mkSystem h (cm :: ms))
| step_add h ms1 ms2 cm e h' cm' :
    wf e → getWidth e = Bool → addConstraint h cm e = Done (h', cm') →
    step (mkSystem h (ms1 ++ cm :: ms2)) (mkSystem h' (ms1 ++ cm' :: ms2))
| step_destroy h ms1 ms2 cm :
    step (mkSystem h (ms1 ++ cm :: ms2)) (mkSystem h (ms1 ++ ms2))
| step_free h ms r :
    unreferenced (mkSystem h ms) r →
    step (mkSystem h ms) (mkSystem (mkHeap (delete r (nodes h)) (next_ref h)) ms).

Definition initial : system := mkSystem (mkHeap ∅ 1%positive) [].
Definition reachable `{APIntOps} `{ArrayStore} (s : system) : Prop := rtc step initial s.

(** ** Invariants *)

(** [path h root r l]: [l] are the expressions from [r] up to [root]. *)
Inductive path (h : heap) (root : node_ref) : node_ref → list Expr → Prop :=
| path_root n : nodes h !! root = Some n → parent n = None → path h root root []
| path_cons r n p e l :
    nodes h !! r = Some n → parent n = Some (p, e) → path h root p l → path h root r (e :: l).

Section invariants.
Context `{APIntOps} `{ArrayStore}.

Record heap_ok (h : heap) : Prop := {
  ok_fresh r n : nodes h !! r = Some n → (r < next_ref h)%positive;
  ok_depth r n : nodes h !! r = Some n → parent n = None → depth n = 0;
  ok_parent r n p e :
    nodes h !! r = Some n → parent n = Some (p, e) →
    ∃ pn, nodes h !! p = Some pn ∧ depth n = depth pn + 1 ∧ find_child (children pn) e = Some r;
  ok_child r n e c :
    nodes h !! r = Some n → find_child (children n) e = Some c →
    (c < next_ref h)%positive ∧ ∀ cn, nodes h !! c = Some cn → parent cn = Some (r, e);
}.

Definition manager_ok (h : heap) (cm : ConstraintManager) : Prop :=
  ∃ l, path h (cm_root cm) (cm_head cm) l.

Definition system_ok (s : system) : Prop :=
  heap_ok (sys_heap s) ∧ Forall (manager_ok (sys_heap s)) (managers s).

(** Nodes keep their parent, expression and depth. *)
Definition extends (h h' : heap) : Prop :=
  ∀ r n, nodes h !! r = Some n →
    ∃ n', nodes h' !! r = Some n' ∧ parent n' = parent n ∧ depth n' = depth n.

Lemma extends_refl h : extends h h.
Proof. intros r n. eauto. Qed.

Lemma extends_trans h1 h2 h3 : extends h1 h2 → extends h2 h3 → extends h1 h3.
Proof.
  intros H12 H23 r n Hn. destruct (H12 r n Hn) as (n2 & Hn2 & ? & ?).
  destruct (H23 r n2 Hn2) as (n3 & Hn3 & ? & ?). exists n3. split_and!; congruence.
Qed.

Lemma path_extends h h' root r l : extends h h' → path h root r l → path h' root r l.
Proof.
  intros Hext. induction 1 as [n Hn Hp|r n p e l Hn Hp _ IH].
  - destruct (Hext _ _ Hn) as (n' & Hn' & Hp' & _). eapply path_root; [done|congruence].
  - destruct (Hext _ _ Hn) as (n' & Hn' & Hp' & _). eapply path_cons; [done|by rewrite Hp'|done].
Qed.

Lemma path_live h root r l : path h root r l → ∃ n, nodes h !! r = Some n.
Proof. destruct 1; eauto. Qed.

Lemma path_fun h root r l l' : path h root r l → path h root r l' → l = l'.
Proof.
  intros Hl. revert l'. induction Hl as [n Hn Hp|r n p e l Hn Hp _ IH]; intros l' Hl'.
  - by inversion Hl'; simplify_eq.
  - inversion Hl'; simplify_eq. f_equal. auto.
Qed.

(** The tree is shared canonically: a path determines the node. *)
Lemma path_inj h root r r' l : heap_ok h → path h root r l → path h root r' l → r = r'.
Proof.
  intros Hok Hl. revert r'. induction Hl as [n Hn Hp|r n p e l Hn Hp _ IH]; intros r' Hr'.
  - by inversion Hr'.
  - inversion Hr' as [|? n' p' ? ? Hn' Hp' Hl']; subst. rewrite (IH _ Hl') in Hp. 
    destruct (ok_parent h Hok _ _ _ _ Hn Hp) as (pn & Hpn & _ & Hc).
    destruct (ok_parent h Hok _ _ _ _ Hn' Hp') as (pn' & Hpn' & _ & Hc'). congruence.
Qed.

Lemma path_depth h root r l n :
  heap_ok h → path h root r l → nodes h !! r = Some n → depth n = Z.of_nat (length l).
Proof.
  intros Hok Hl. revert n. induction Hl as [n Hn Hp|r n p e l Hn Hp _ IH]; intros n' Hn'; simplify_eq.
  - by apply (ok_depth h Hok root).
  - destruct (ok_parent h Hok _ _ _ _ Hn Hp) as (pn & Hpn & Hd & _).
    rewrite Hd, (IH _ Hpn). cbn. lia.
Qed.

Lemma walk_path h root r l : path h root r l → walk (length l) h root r = Done l.
Proof.
  induction 1 as [n Hn Hp|r n p e l Hn Hp Hl IH]; cbn [length walk].
  - by rewrite bool_decide_eq_true_2.
  - rewrite bool_decide_eq_false_2, Hn.
    + destruct n as [par d cs]. cbn in Hp. subst par. by rewrite IH.
    + intros ->. clear IH. assert (∃ n0, nodes h !! root = Some n0 ∧ parent n0 = None) as (n0 & Hn0 & Hp0).
      { clear -Hl. induction Hl; eauto. }
      congruence.
Qed.

Lemma constraints_of_path h cm l :
  heap_ok h → path h (cm_root cm) (cm_head cm) l → constraints_of h cm = Done l.
Proof.
  intros Hok Hl. destruct (path_live _ _ _ _ Hl) as [n Hn]. unfold constraints_of, manager_size.
  rewrite Hn. cbn. rewrite (path_depth _ _ _ _ _ Hok Hl Hn), Nat2Z.id. by apply walk_path.
Qed.
(** The creation of a child [c] of [r] for [e], when no live child is there. *)
Section create_child.
Variables (h : heap) (r : node_ref) (n : ConditionNode) (e : Expr).
Hypothesis Hok : heap_ok h.
Hypothesis Hr : nodes h !! r = Some n.
Hypothesis Hnone : ∀ c, find_child (children n) e = Some c → nodes h !! c = None.

Let c := next_ref h.
Let child := mkNode (Some (r, e)) (depth n + 1) [].
Let n' := mkNode (parent n) (depth n) ((e, c) :: children n).
Let h' := mkHeap (<[r := n']> (<[c := child]> (nodes h))) (Pos.succ c).

Lemma create_fresh x m : nodes h !! x = Some m → x ≠ c.
Proof. intros Hx%(ok_fresh h Hok). unfold c. lia. Qed.

(** The nodes of the new heap: [r] with one more child, [c], the others. *)
Lemma create_lookup x m :
  nodes h' !! x = Some m →
  (x = r ∧ m = n') ∨ (x = c ∧ m = child) ∨ (x ≠ r ∧ x ≠ c ∧ nodes h !! x = Some m).
Proof.
  cbn. intros [[-> <-]|[? Hx]]%lookup_insert_Some; [by left|right].
  apply lookup_insert_Some in Hx as [[-> <-]|[??]]; auto.
Qed.

Lemma create_lookup_old x m :
  nodes h !! x = Some m →
  ∃ m', nodes h' !! x = Some m' ∧ parent m' = parent m ∧ depth m' = depth m ∧
    ∀ e' x', nodes h !! x' ≠ None → find_child (children m) e' = Some x' →
      find_child (children m') e' = Some x'.
Proof.
  intros Hx. pose proof (create_fresh x m Hx). cbn. destruct (decide (x = r)) as [->|].
  - simplify_eq. exists n'. rewrite lookup_insert_eq. split_and!; [done..|].
    intros e' x' Hlive Hc. cbn. destruct (eqE e e') eqn:E; [|done]. uneq. subst e'.
    by apply Hnone in Hc.
  - exists m. rewrite !lookup_insert_ne by done. eauto.
Qed.

Lemma create_extends : extends h h'.
Proof. intros x m (m' & ? & ? & ? & _)%create_lookup_old. eauto. Qed.

Lemma create_new : nodes h' !! c = Some child.
Proof.
  cbn. rewrite lookup_insert_ne, lookup_insert_eq; [done|].
  intros ->. by apply (create_fresh c n).
Qed.

Lemma create_ok : heap_ok h'.
Proof.
  assert (∀ x m p e', nodes h !! x = Some m → parent m = Some (p, e') →
    ∃ pn, nodes h' !! p = Some pn ∧ depth m = depth pn + 1 ∧
      find_child (children pn) e' = Some x) as Hpar.
  { intros x m p e' Hx Hp. destruct (ok_parent h Hok _ _ _ _ Hx Hp) as (pn & Hpn & Hd & Hc).
    destruct (create_lookup_old p pn Hpn) as (pn' & ? & ? & Hd' & Hc'). exists pn'.
    rewrite Hd'. split_and!; [done..|]. apply Hc'; [congruence|done]. }
  split.
  - intros x m [[-> _]|[[-> _]|(_ & _ & Hx)]]%create_lookup; cbn; [| |].
    + apply (ok_fresh h Hok) in Hr. unfold c. lia.
    + lia.
    + apply (ok_fresh h Hok) in Hx. unfold c. lia.
  - intros x m [[-> ->]|[[-> ->]|(_ & _ & Hx)]]%create_lookup Hp; [|done|].
    + by apply (ok_depth h Hok r n).
    + by apply (ok_depth h Hok x m).
  - intros x m p e' [[-> ->]|[[-> ->]|(_ & _ & Hx)]]%create_lookup Hp; [|cbn in Hp; simplify_eq|].
    + by apply (Hpar r n).
    + exists n'. cbn. by rewrite lookup_insert_eq, eqE_refl.
    + by apply (Hpar x m).
  - intros x m e' x' Hx Hc.
    assert (∀ y ym, nodes h !! y = Some ym → find_child (children ym) e' = Some x' →
      (x' < Pos.succ c)%positive ∧ ∀ cn, nodes h' !! x' = Some cn → parent cn = Some (y, e')) as Hold.
    { intros y ym Hy Hyc. destruct (ok_child h Hok _ _ _ _ Hy Hyc) as [Hlt Hp].
      split; [unfold c; lia|]. intros cn Hcn%create_lookup.
      destruct Hcn as [[-> ->]|[[-> _]|(_ & _ & Hcn)]]; [exact (Hp n Hr)|unfold c in Hlt; lia|by apply Hp]. }
    apply create_lookup in Hx as [[-> ->]|[[-> ->]|(_ & _ & Hx)]]; [|done|by apply (Hold x m)].
    cbn in Hc. destruct (eqE e e') eqn:E; [|by apply (Hold r n)]. uneq. injection Hc as <-. subst e'.
    split; [cbn; lia|]. intros cn. rewrite create_new. by intros [= <-].
Qed.
End create_child.

Lemma getOrCreate_ok h r n e :
  heap_ok h → nodes h !! r = Some n →
  getOrCreate h r e ⇓ λ '(h', c), heap_ok h' ∧ extends h h' ∧
    ∃ cn, nodes h' !! c = Some cn ∧ parent cn = Some (r, e).
Proof.
  intros Hok Hr. unfold getOrCreate. rewrite Hr.
  destruct (find_child (children n) e) as [c|] eqn:Ec; cbn.
  - destruct (nodes h !! c) as [cn|] eqn:Ecn; cbn.
    + split_and!; [done|apply extends_refl|]. exists cn. split; [done|].
      by apply (ok_child h Hok r n e c).
    + assert (∀ c, find_child (children n) e = Some c → nodes h !! c = None) by congruence.
      split_and!; [by apply create_ok|by apply create_extends|eexists; split; [by apply create_new|done]].
  - assert (∀ c, find_child (children n) e = Some c → nodes h !! c = None) by congruence.
    split_and!; [by apply create_ok|by apply create_extends|eexists; split; [by apply create_new|done]].
Qed.
(** ** Adding constraints *)

(** The conjuncts that [addConstraint] adds, in the order of the additions. *)
Fixpoint conjuncts (e : Expr) : list Expr :=
  match e with
  | Constant _ => []
  | Binary And l r => conjuncts l ++ conjuncts r
  | _ => [e]
  end.

(** No conjunct is the constant false. *)
Fixpoint no_false (e : Expr) : bool :=
  match e with
  | Constant CE => cvalue CE =? 1
  | Binary And l r => no_false l && no_false r
  | _ => true
  end.

Lemma add_node_ok h cm e l :
  heap_ok h → path h (cm_root cm) (cm_head cm) l →
  ('(h, head) ← getOrCreate h (cm_head cm) e; Done (h, mkManager (cm_root cm) head))
  ⇓ λ '(h', cm'), heap_ok h' ∧ extends h h' ∧ cm_root cm' = cm_root cm ∧
    path h' (cm_root cm') (cm_head cm') (e :: l).
Proof.
  intros Hok Hl. destruct (path_live _ _ _ _ Hl) as [n Hn]. ystep.
  eapply yields_mono; [by eapply getOrCreate_ok|]. intros [h' c] (Hok' & Hext & cn & Hcn & Hp).
  cbn. split_and!; [done..|]. eapply path_cons; [done..|]. by eapply path_extends.
Qed.

Lemma addConstraint_ok h cm e l :
  wf e → getWidth e = Bool → no_false e = true → heap_ok h → path h (cm_root cm) (cm_head cm) l →
  addConstraint h cm e ⇓ λ '(h', cm'), heap_ok h' ∧ extends h h' ∧ cm_root cm' = cm_root cm ∧
    path h' (cm_root cm') (cm_head cm') (reverse (conjuncts e) ++ l).
Proof.
  revert h cm l. induction e as [CE| | | | | | | | |k a IHa b IHb]; intros h cm l Hwf Hw Hnf Hok Hl;
    try (by apply add_node_ok).
  - cbn. cbn in Hw, Hnf. rewrite CE_isTrue_spec, Hnf by done. cbn.
    split_and!; [done|apply extends_refl|done|done].
  - destruct k; try (by apply add_node_ok). destruct Hwf as (Ha & Hb & Hab).
    apply andb_true_iff in Hnf as [Hna Hnb]. cbn in Hw. cbn [addConstraint conjuncts]. ystep. eapply yields_mono; [by apply IHa|].
    intros [h1 cm1] (Hok1 & Hext1 & Hr1 & Hl1).
    eapply yields_mono; [apply IHb; try done; congruence|].
    intros [h2 cm2] (Hok2 & Hext2 & Hr2 & Hl2).
    split_and!; [done|by eapply extends_trans|congruence|]. by rewrite reverse_app, <- app_assoc.
Qed.

(** A conjunct that is false fails the assertion. *)
Lemma addConstraint_false h cm e l :
  wf e → getWidth e = Bool → no_false e = false → heap_ok h →
  path h (cm_root cm) (cm_head cm) l → addConstraint h cm e = AssertFailed.
Proof.
  revert h cm l. induction e as [CE| | | | | | | | |k a IHa b IHb]; intros h cm l Hwf Hw Hnf Hok Hl;
    try done.
  - cbn in *. rewrite CE_isTrue_spec by done. cbn. by rewrite Hnf.
  - destruct k; try done. destruct Hwf as (Ha & Hb & Hab). cbn in Hw, Hnf. cbn [addConstraint].
    destruct (no_false a) eqn:Ea.
    + pose proof (addConstraint_ok h cm a l Ha Hw Ea Hok Hl) as Hadd.
      destruct (addConstraint h cm a) as [[h1 cm1]| |]; try done.
      destruct Hadd as (Hok1 & _ & _ & Hl1). cbn. eapply IHb; try done. congruence.
    + by rewrite (IHa h cm l).
Qed.

(** What the conjuncts mean. *)
Lemma conjuncts_meaning `{!WfStore} ρ e :
  wf_assignment ρ → wf e → getWidth e = Bool →
  (eval ρ e = 1 ↔ no_false e = true ∧ ∀ c, c ∈ conjuncts e → eval ρ c = 1).
Proof.
  intros Hρ. assert (∀ e, eval ρ e = 1 ↔ true = true ∧ ∀ c, c ∈ [e] → eval ρ c = 1) as Hone.
  { intros e'. split; [intros He; split; [done|]; by intros c ->%list_elem_of_singleton|].
    intros [_ He]. by apply He, list_elem_of_singleton. }
  induction e as [CE| | | | | | | | |k a IHa b IHb]; intros Hwf Hw; try apply Hone.
  - cbn. rewrite Z.eqb_eq. split; [|tauto]. intros ?. split; [done|]. by intros ? ?%not_elem_of_nil.
  - destruct k; try apply Hone. destruct Hwf as (Ha & Hb & Hab). cbn in Hw.
    assert (eval ρ (Binary And a b) = 1 ↔ eval ρ a = 1 ∧ eval ρ b = 1) as ->.
    { assert (getWidth b = Bool) by congruence. cbn. bool_cases ρ; vm_compute; intuition discriminate. }
    rewrite IHa, IHb by (done || congruence). cbn [no_false conjuncts]. rewrite andb_true_iff.
    setoid_rewrite elem_of_app. naive_solver.
Qed.

(** ** Reachable systems *)

Lemma new_manager_ok h :
  heap_ok h →
  let '(h', cm) := new_manager h in
  heap_ok h' ∧ extends h h' ∧ path h' (cm_root cm) (cm_head cm) [] ∧ cm_root cm = next_ref h.
Proof.
  intros Hok. cbn. assert (nodes h !! next_ref h = None) as Hnone.
  { destruct (nodes h !! next_ref h) eqn:E; [|done]. apply (ok_fresh h Hok) in E. lia. }
  assert (extends h (mkHeap (<[next_ref h := mkNode None 0 []]> (nodes h)) (Pos.succ (next_ref h)))) as Hext.
  { intros r n Hr. exists n. cbn. rewrite lookup_insert_ne; [done|]. congruence. }
  split_and!; [|done| |done].
  - split; cbn.
    + intros r n [[<- _]|[_ Hr]]%lookup_insert_Some; [lia|]. apply (ok_fresh h Hok) in Hr. lia.
    + intros r n [[_ <-]|[_ Hr]]%lookup_insert_Some; [done|]. by apply (ok_depth h Hok r).
    + intros r n p e [[_ <-]|[_ Hr]]%lookup_insert_Some; [done|]. intros Hp.
      destruct (ok_parent h Hok _ _ _ _ Hr Hp) as (pn & Hpn & ? & ?). exists pn.
      rewrite lookup_insert_ne; [done|]. congruence.
    + intros r n e c [[_ <-]|[_ Hr]]%lookup_insert_Some; [done|]. intros Hc.
      destruct (ok_child h Hok _ _ _ _ Hr Hc) as [Hlt Hp]. split; [lia|].
      intros cn [[<- _]|[_ Hcn]]%lookup_insert_Some; [lia|by apply Hp].
  - eapply path_root; [by apply lookup_insert_eq|done].
Qed.

Lemma empty_heap_ok : heap_ok (mkHeap ∅ 1%positive).
Proof. by split; intros *; cbn; rewrite lookup_empty. Qed.

Lemma add_all_ok cs h cm l :
  Forall (λ c, wf c ∧ getWidth c = Bool ∧ no_false c = true) cs →
  heap_ok h → path h (cm_root cm) (cm_head cm) l →
  foldl (λ m c, '(h, cm) ← m; addConstraint h cm c) (Done (h, cm)) cs ⇓ λ '(h', cm'),
    heap_ok h' ∧ path h' (cm_root cm') (cm_head cm') (reverse (cs ≫= conjuncts) ++ l).
Proof.
  intros Hcs. revert h cm l. induction Hcs as [|c cs (Hwf & Hw & Hnf) _ IH]; intros h cm l Hok Hl; [done|].
  cbn [foldl]. change (Done (h, cm) ≫= _) with (addConstraint h cm c).
  pose proof (addConstraint_ok h cm c l Hwf Hw Hnf Hok Hl) as Hc.
  destruct (addConstraint h cm c) as [[h1 cm1]| |]; try done. destruct Hc as (Hok1 & _ & _ & Hl1).
  eapply yields_mono; [by apply IH|]. intros [h2 cm2] [Hok2 Hl2]. split; [done|].
  by rewrite bind_cons, reverse_app, <- app_assoc.
Qed.

Lemma manager_constraints_ok cs :
  Forall (λ c, wf c ∧ getWidth c = Bool ∧ no_false c = true) cs →
  manager_constraints cs = Done (reverse (cs ≫= conjuncts)).
Proof.
  intros Hcs. pose proof (new_manager_ok _ empty_heap_ok) as Hnew. unfold manager_constraints, manager_of.
  destruct (new_manager _) as [h cm]. destruct Hnew as (Hok & _ & Hl & _).
  pose proof (add_all_ok cs h cm [] Hcs Hok Hl) as Hall.
  destruct (foldl _ _ _) as [[h' cm']| |]; try done. destruct Hall as [Hok' Hl']. cbn.
  rewrite (constraints_of_path h' cm' _ Hok' Hl'). by rewrite app_nil_r.
Qed.

(** The nodes on the path of a manager are referenced, so they are not freed. *)
Lemma path_delete h root r x l :
  path h root r l → x ≠ r → x ≠ root →
  (∀ c n p, nodes h !! c = Some n → parent n = Some p → p.1 ≠ x) →
  path (mkHeap (delete x (nodes h)) (next_ref h)) root r l.
Proof.
  intros Hl Hr Hroot Hpar. induction Hl as [n Hn Hp|r n p e l Hn Hp _ IH].
  - eapply path_root; [|done]. cbn. by rewrite lookup_delete_ne.
  - eapply path_cons; [cbn; by rewrite lookup_delete_ne|done|]. apply IH.
    intros ->. by apply (Hpar r n (p, e)).
Qed.

Lemma free_ok h x :
  heap_ok h → (∀ c n p, nodes h !! c = Some n → parent n = Some p → p.1 ≠ x) →
  heap_ok (mkHeap (delete x (nodes h)) (next_ref h)).
Proof.
  intros Hok Hpar. split; cbn.
  - intros r n [_ Hr]%lookup_delete_Some. by apply (ok_fresh h Hok r n).
  - intros r n [_ Hr]%lookup_delete_Some. by apply (ok_depth h Hok r).
  - intros r n p e [? Hr]%lookup_delete_Some Hp.
    destruct (ok_parent h Hok _ _ _ _ Hr Hp) as (pn & Hpn & ? & ?). exists pn.
    rewrite lookup_delete_ne; [done|]. intros ->. by apply (Hpar r n (p, e)).
  - intros r n e c [_ Hr]%lookup_delete_Some Hc.
    destruct (ok_child h Hok _ _ _ _ Hr Hc) as [Hlt Hp]. split; [done|].
    intros cn [_ Hcn]%lookup_delete_Some. by apply Hp.
Qed.
Lemma managers_extend h h' ms :
  extends h h' → Forall (manager_ok h) ms → Forall (manager_ok h') ms.
Proof.
  intros Hext Hall. eapply Forall_impl; [exact Hall|]. intros cm [l Hl]. exists l.
  by eapply path_extends.
Qed.

Lemma system_ok_step s s' : step s s' → system_ok s → system_ok s'.
Proof.
  destruct 1 as [h ms h' cm Hnew|h ms cm Hin|h ms1 ms2 cm e h' cm' Hwf Hw Hadd|h ms1 ms2 cm|h ms x [Hms Hpar]];
    intros [Hok Hall]; cbn [sys_heap managers] in *; (split; cbn [sys_heap managers]; [|]).
  - pose proof (new_manager_ok h Hok) as Hn. rewrite Hnew in Hn. apply Hn.
  - pose proof (new_manager_ok h Hok) as Hn. rewrite Hnew in Hn. destruct Hn as (_ & Hext & Hp & _).
    constructor; [by eexists|by eapply managers_extend].
  - done.
  - constructor; [|done]. by apply (proj1 (Forall_forall _ _) Hall).
  - apply Forall_app in Hall as [_ [[l Hl] _]%Forall_cons]. destruct (no_false e) eqn:E.
    + pose proof (addConstraint_ok h cm e l Hwf Hw E Hok Hl) as Ha. rewrite Hadd in Ha. apply Ha.
    + by rewrite (addConstraint_false h cm e l) in Hadd.
  - apply Forall_app in Hall as [Hms1 [[l Hl] Hms2]%Forall_cons]. destruct (no_false e) eqn:E.
    + pose proof (addConstraint_ok h cm e l Hwf Hw E Hok Hl) as Ha. rewrite Hadd in Ha.
      destruct Ha as (_ & Hext & _ & Hp). apply Forall_app. split; [by eapply managers_extend|].
      constructor; [by eexists|by eapply managers_extend].
    + by rewrite (addConstraint_false h cm e l) in Hadd.
  - done.
  - apply Forall_app in Hall as [? [_ ?]%Forall_cons]. by apply Forall_app.
  - by apply free_ok.
  - apply Forall_forall. intros cm Hcm. destruct (proj1 (Forall_forall _ _) Hall cm Hcm) as [l Hl].
    destruct (Hms cm Hcm). exists l. by apply path_delete.
Qed.

Lemma reachable_ok s : reachable s → system_ok s.
Proof.
  intros Hr. assert (system_ok initial) as Hinit.
  { split; [|constructor]. split; cbn; intros; by rewrite lookup_empty in *. }
  revert Hinit. unfold reachable in Hr. induction Hr as [|s1 s2 s3 Hstep _ IH]; [done|].
  intros Hok. apply IH. by eapply system_ok_step.
Qed.

(** ** Properties *)

(** C23: the shared condition tree is canonical in every reachable system, with
    managers created, copied, extended and destroyed and nodes freed in any
    order: every manager yields a list of constraints, of length [size()], and
    two managers on the same root hold the same list exactly when they are
    equal as pairs of pointers. *)
Theorem condition_tree_canonical s cm1 cm2 :
  reachable s → cm1 ∈ managers s → cm2 ∈ managers s → cm_root cm1 = cm_root cm2 →
  ∃ l1 l2, constraints_of (sys_heap s) cm1 = Done l1 ∧ constraints_of (sys_heap s) cm2 = Done l2 ∧
    manager_size (sys_heap s) cm1 = Done (Z.of_nat (length l1)) ∧ (l1 = l2 ↔ cm1 = cm2).
Proof.
  intros [Hok Hall]%reachable_ok H1 H2 Hroot.
  destruct (proj1 (Forall_forall _ _) Hall cm1 H1) as [l1 Hl1],
    (proj1 (Forall_forall _ _) Hall cm2 H2) as [l2 Hl2].
  exists l1, l2. split_and!; [by apply constraints_of_path..| |].
  - destruct (path_live _ _ _ _ Hl1) as [n Hn]. unfold manager_size. rewrite Hn.
    by rewrite (path_depth _ _ _ _ _ Hok Hl1 Hn).
  - split.
    + intros ->. rewrite <- Hroot in Hl2. pose proof (path_inj _ _ _ _ _ Hok Hl1 Hl2).
      destruct cm1, cm2. cbn in *. congruence.
    + intros ->. by eapply path_fun.
Qed.

(** C24: [addConstraint] fails its assertion exactly when a conjunct of the
    constraint is the constant false; otherwise the manager then holds the
    conjuncts in front of the constraints it had, and the constraints of every
    other manager are unchanged. *)
Theorem addConstraint_correct s cm e l :
  reachable s → cm ∈ managers s → wf e → getWidth e = Bool →
  constraints_of (sys_heap s) cm = Done l →
  if no_false e then
    addConstraint (sys_heap s) cm e ⇓ λ '(h', cm'),
      constraints_of h' cm' = Done (reverse (conjuncts e) ++ l) ∧
      ∀ m, m ∈ managers s → constraints_of h' m = constraints_of (sys_heap s) m
  else addConstraint (sys_heap s) cm e = AssertFailed.
Proof.
  intros [Hok Hall]%reachable_ok Hcm Hwf Hw Hl.
  assert (∀ m, m ∈ managers s → ∃ l, path (sys_heap s) (cm_root m) (cm_head m) l) as Hpaths
    by (by apply Forall_forall).
  destruct (Hpaths cm Hcm) as [l0 Hl0].
  rewrite (constraints_of_path _ _ _ Hok Hl0) in Hl. injection Hl as ->.
  destruct (no_false e) eqn:E; [|by eapply addConstraint_false].
  eapply yields_mono; [by apply (addConstraint_ok _ _ _ l)|].
  intros [h' cm'] (Hok' & Hext & _ & Hl'). split; [by apply constraints_of_path|].
  intros m Hm. destruct (Hpaths m Hm) as [lm Hlm]. rewrite (constraints_of_path (sys_heap s) m lm) by done.
  apply constraints_of_path; [done|]. by eapply path_extends.
Qed.
End invariants.

Section witnesses.
#[local] Existing Instance Sample.store.
Import Sample.

Definition c1 : Expr := Binary Ult (input 0) (input 1).
Definition c2 : Expr := Binary Eq (const 7 8) (input 2).

(** Two copies of a manager extended with the same constraint, directly and as a
    conjunction with the constant true, share their node. *)
Definition sample_system : system :=
  let n1 := mkNode None 0 [(c1, 2%positive)] in
  let n2 := mkNode (Some (1%positive, c1)) 1 [] in
  mkSystem (mkHeap {[ 1%positive := n1; 2%positive := n2 ]} 3%positive)
    [mkManager 1 2; mkManager 1 2].

Lemma sample_reachable : reachable sample_system.
Proof.
  eapply rtc_l; [by eapply step_new|]. eapply rtc_l; [eapply step_copy; by left|].
  eapply rtc_l; [by apply (step_add _ [] [mkManager 1 1] _ c1); [repeat split; done|done|vm_compute; reflexivity]|].
  eapply rtc_l; [by apply (step_add _ [mkManager 1 2] [] _ (Binary And c1 (const 1 1)));
    [repeat split; done|done|vm_compute; reflexivity]|].
  apply rtc_refl.
Qed.

Lemma condition_tree_canonical_witness :
  ∃ l1 l2, constraints_of (sys_heap sample_system) (mkManager 1 2) = Done l1 ∧
    constraints_of (sys_heap sample_system) (mkManager 1 2) = Done l2 ∧
    manager_size (sys_heap sample_system) (mkManager 1 2) = Done (Z.of_nat (length l1)) ∧
    (l1 = l2 ↔ mkManager 1 2 = mkManager 1 2).
Proof.
  apply (condition_tree_canonical sample_system (mkManager 1 2) (mkManager 1 2));
    [apply sample_reachable|by left|by left|done].
Defined.

Lemma addConstraint_correct_witness :
  addConstraint (sys_heap sample_system) (mkManager 1 2) (Binary And c2 c1) ⇓ λ '(h', cm'),
    constraints_of h' cm' = Done ([c1; c2] ++ [c1]) ∧
    ∀ m, m ∈ managers sample_system → constraints_of h' m = constraints_of (sys_heap sample_system) m.
Proof.
  refine (addConstraint_correct sample_system (mkManager 1 2) (Binary And c2 c1) [c1] _ _ _ _ _);
    [apply sample_reachable|by left|repeat split; done|done|vm_compute; reflexivity].
Defined.
End witnesses.
