(* ===== verification/Solver.v ===== *)
(** * Constraint solvers: [klee/Solver.h], [klee/SolverImpl.h] and
      [lib/Solver/Solver.cpp]

    A solver implementation is a record of the virtual methods of [SolverImpl];
    a method returns [None] where the C++ returns [false], and threads the state
    of the solver (its caches, or that of the process it talks to).  [sound]
    states what one solver promises to the next: the solvers that wrap another
    one are proved against it, and discharge it in turn. *)

From stdpp Require Import prelude.
From S2P Require Import Prelude Bitvec Bits APInt ExprData ExprConstants ExprCasts ExprBinary.
From S2P Require Import ExprBinaryProofs ExprSelectRead ExprVisitor ExprEval.

(** ** Data *)

(** [struct Query]; the constraints of the manager, newest first *)
Record Query : Set := mkQuery { constraints : list Expr; query_expr : Expr }.

(** [Solver::Validity] *)
Inductive Validity : Set := VTrue | VFalse | VUnknown.

#[export] Instance Validity_eq_dec : EqDecision Validity.
Proof. solve_decision. Defined.

(** The bytes of one object. *)
Definition bytes : Set := list Z.

(** [class SolverImpl]: [computeInitialValues] also has the result
    [hasSolution]. *)
Record SolverImpl (S : Type) : Type := mkImpl {
  computeTruth : Query → M S (option bool);
  computeValidity : Query → M S (option Validity);
  computeValue : Query → M S (option Expr);
  computeInitialValues : Query → list Array → M S (option (option (list bytes)));
}.
Arguments mkImpl {S}.
Arguments computeTruth {S}.
Arguments computeValidity {S}.
Arguments computeValue {S}.
Arguments computeInitialValues {S}.

(** [if (!call(..., result)) return false;] *)
Definition on_success {S A B} (m : M S (option A)) (k : A → M S (option B)) : M S (option B) :=
  r ← m; match r with Some a => k a | None => mret None end.

Section solver.
Context `{APIntOps} `{ArrayStore} `{ObjectIdentity} `{Options}.

Definition withExpr (q : Query) (e : Expr) : Query := mkQuery (constraints q) e.
Definition withFalse (q : Query) : Query := withExpr q (Constant (alloc 0 Bool)).
Definition negateExpr (q : Query) : outcome Query :=
  e ← createIsZero (query_expr q); Done (withExpr q e).

(** [SolverImpl::computeValidity], the default implementation *)
Definition default_computeValidity {S} (truth : Query → M S (option bool)) (query : Query) :
    M S (option Validity) :=
  on_success (truth query) (λ isTrue,
    if (isTrue : bool) then mret (Some VTrue)
    else
      nq ← lift (negateExpr query);
      on_success (truth nq) (λ isFalse,
        mret (Some (if (isFalse : bool) then VFalse else VUnknown)))).

(** ** [class Solver] *)

Section wrapper.
Context {S : Type} (impl : SolverImpl S).

(** [Solver::evaluate] *)
Definition evaluate (query : Query) : M S (option Validity) :=
  _ ← lift (cassert (getWidth (query_expr query) =? Bool));
  match query_expr query with
  | Constant CE => t ← lift (CE_isTrue CE); mret (Some (if (t : bool) then VTrue else VFalse))
  | _ => computeValidity impl query
  end.

(** [Solver::mustBeTrue] *)
Definition mustBeTrue (query : Query) : M S (option bool) :=
  _ ← lift (cassert (getWidth (query_expr query) =? Bool));
  match query_expr query with
  | Constant CE => t ← lift (CE_isTrue CE); mret (Some t)
  | _ => computeTruth impl query
  end.

(** [Solver::mustBeFalse] *)
Definition mustBeFalse (query : Query) : M S (option bool) :=
  nq ← lift (negateExpr query); mustBeTrue nq.

(** [Solver::mayBeTrue] *)
Definition mayBeTrue (query : Query) : M S (option bool) :=
  on_success (mustBeFalse query) (λ res, mret (Some (negb res))).

(** [Solver::mayBeFalse] *)
Definition mayBeFalse (query : Query) : M S (option bool) :=
  on_success (mustBeTrue query) (λ res, mret (Some (negb res))).

(** [Solver::getValue] *)
Definition getValue (query : Query) : M S (option ConstantExpr) :=
  match query_expr query with
  | Constant CE => mret (Some CE)
  | _ =>
      on_success (computeValue impl query) (λ tmp,
        match tmp with Constant c => mret (Some c) | _ => lift AssertFailed end)
  end.

(** [Solver::getInitialValues] *)
Definition getInitialValues (query : Query) (objects : list Array) : M S (option (list bytes)) :=
  on_success (computeInitialValues impl query objects) (λ hasSolution, mret hasSolution).

(** A call whose failure the source only asserts. *)
Definition asserted {A} (m : M S (option A)) : M S A :=
  r ← m; match r with Some a => mret a | None => lift AssertFailed end.

(** The loops of [getRange]: the smallest value from [lo] on for which [test]
    answers true, or [hi]. *)
Fixpoint bisect (fuel : nat) (test : Z → M S bool) (lo hi : Z) : M S Z :=
  if lo <? hi then
    match fuel with
    | O => λ _, OutOfFuel
    | Datatypes.S fuel =>
        let mid := lo + (hi - lo) / 2 in
        res ← test mid;
        if (res : bool) then bisect fuel test lo mid else bisect fuel test (mid + 1) hi
    end
  else mret lo.

(** The three tests of [getRange]. *)
Definition fits_bits (query : Query) (width mid : Z) : M S bool :=
  m ← lift (create_constant mid width);
  shifted ← lift (Binary_create LShr (query_expr query) m);
  zero ← lift (create_constant 0 width);
  eq ← lift (Binary_create Eq shifted zero);
  asserted (mustBeTrue (withExpr query eq)).

Definition may_be_zero (query : Query) (width : Z) : M S bool :=
  zero ← lift (create_constant 0 width);
  eq ← lift (Binary_create Eq (query_expr query) zero);
  asserted (mayBeTrue (withExpr query eq)).

Definition may_be_at_most (query : Query) (width mid : Z) : M S bool :=
  m ← lift (create_constant mid width);
  le ← lift (Binary_create Ule (query_expr query) m);
  asserted (mayBeTrue (withExpr query le)).

Definition must_be_at_most (query : Query) (width mid : Z) : M S bool :=
  m ← lift (create_constant mid width);
  le ← lift (Binary_create Ule (query_expr query) m);
  asserted (mustBeTrue (withExpr query le)).

(** The last case of [Solver::getRange].  The interval of each binary search is
    below [2^64], so 65 iterations are enough. *)
Definition search_range (query : Query) (width : Z) : M S (Z * Z) :=
  bits ← bisect 65 (fits_bits query width) 0 width;
  zero ← may_be_zero query width;
  min ← (if (zero : bool) then mret 0
         else bisect 65 (may_be_at_most query width) 0 (bits64.maxValueOfNBits bits));
  max ← bisect 65 (must_be_at_most query width) min (bits64.maxValueOfNBits bits);
  mret (min, max).

(** [Solver::getRange] *)
Definition getRange (query : Query) : M S (Expr * Expr) :=
  let e := query_expr query in
  let width := getWidth e in
  '(min, max) ← (
    if width =? 1 then
      result ← asserted (evaluate query);
      mret (match result with VTrue => (1, 1) | VFalse => (0, 0) | VUnknown => (0, 1) end)
    else match e with
    | Constant CE => v ← lift (getZExtValue CE 64); mret (v, v)
    | _ => search_range query width
    end);
  min ← lift (create_constant min width);
  max ← lift (create_constant max width);
  mret (min, max).

End wrapper.
End solver.

(** ** What queries mean *)

(** Whether the queries are restricted to expressions that never read a constant
    array out of range (the value of such a read is arbitrary, and not every
    solver preserves it), to expressions that every assignment of bytes to
    the objects evaluates to a constant, and to expressions that STP accepts. *)
Class QueryClass : Set := { in_range_only : bool; computable_only : bool; buildable_only : bool }.

Section semantics.
Context `{ArrayStore} `{QueryClass}.

(** [ρ] satisfies the constraints. *)
Definition models (cs : list Expr) (ρ : assignment) : Prop :=
  wf_assignment ρ ∧ ∀ c, c ∈ cs → eval ρ c = 1.

Definition satisfiable (cs : list Expr) : Prop := ∃ ρ, models cs ρ.

(** The expression is true in every model of the constraints. *)
Definition valid (q : Query) : Prop := ∀ ρ, models (constraints q) ρ → eval ρ (query_expr q) = 1.

(** The expression is false in every model of the constraints. *)
Definition refuted (q : Query) : Prop := ∀ ρ, models (constraints q) ρ → eval ρ (query_expr q) = 0.

(** Evaluating [e] under [ρ] reads no array, constant or symbolic, beyond its
    end; [in_bounds] only speaks of constant arrays. *)
Fixpoint in_objects (ρ : assignment) (e : Expr) {struct e} : Prop :=
  match e with
  | Constant _ => True
  | NotOptimized e | Extract e _ _ | ZExt e _ | SExt e _ | Not e => in_objects ρ e
  | Read root head index => in_objects ρ index ∧ in_objects_read ρ root head (eval ρ index)
  | Select c t f => in_objects ρ c ∧ if eval ρ c =? 1 then in_objects ρ t else in_objects ρ f
  | Concat l r | Binary _ l r => in_objects ρ l ∧ in_objects ρ r
  end
with in_objects_read (ρ : assignment) (root : Array) (un : UpdateNode) (i : Z) {struct un} : Prop :=
  match un with
  | NullNode => i < array_size (deref root)
  | Node next index value =>
      in_objects ρ index ∧
      if eval ρ index =? i then in_objects ρ value else in_objects_read ρ root next i
  end.

(** [e] is in the class of expressions of the queries. *)
Definition regular (e : Expr) : Prop :=
  ∀ ρ, wf_assignment ρ →
    (in_range_only = true → in_bounds ρ e) ∧
    (computable_only = true → evaluable ρ e ∧ in_objects ρ e) ∧
    (buildable_only = true → buildable e).

Definition wf_constraints (cs : list Expr) : Prop :=
  Forall (λ c, wf c ∧ getWidth c = Bool ∧ regular c) cs.

(** A query about a value: satisfiable boolean constraints, any expression. *)
Definition wf_value_query (q : Query) : Prop :=
  wf_constraints (constraints q) ∧ satisfiable (constraints q) ∧
  wf (query_expr q) ∧ regular (query_expr q).

Definition wf_query (q : Query) : Prop := wf_value_query q ∧ getWidth (query_expr q) = Bool.

(** Some model of the constraints gives the expression the value [v]. *)
Definition may_be (q : Query) (v : Z) : Prop :=
  ∃ ρ, models (constraints q) ρ ∧ eval ρ (query_expr q) = v.

Definition truth_ok (q : Query) (b : bool) : Prop := if b then valid q else may_be q 0.

Definition validity_ok (q : Query) (v : Validity) : Prop :=
  match v with
  | VTrue => valid q
  | VFalse => refuted q
  | VUnknown => may_be q 0 ∧ may_be q 1
  end.

(** The initial bytes of an object under [ρ]. *)
Definition object_bytes (ρ : assignment) (a : Array) : bytes :=
  (λ i, ρ a (Z.of_nat i)) <$> seq 0 (Z.to_nat (array_size (deref a))).

(** [values] are the bytes of [objects] in a model of the constraints where the
    expression is false. *)
Definition counterexample (q : Query) (objects : list Array) (values : list bytes) : Prop :=
  ∃ ρ, models (constraints q) ρ ∧ eval ρ (query_expr q) = 0 ∧
    values = object_bytes ρ <$> objects.

(** The contract of a method of a solver whose state satisfies [Inv]: it returns,
    preserves [Inv], what it answers satisfies [P], and it fails only if [fail]. *)
Definition answers {S A} (fail : Prop) (m : M S (option A)) (Inv : S → Prop) (P : A → Prop) : Prop :=
  ∀ s, Inv s → runs m s (λ r s', Inv s' ∧ match r with Some a => P a | None => fail end).

(** The contract of a solver.  With [fail := True] it may fail, with
    [fail := False] it decides every query. *)
Record sound {S} (fail : Prop) (impl : SolverImpl S) (Inv : S → Prop) : Prop := {
  sound_truth q :
    wf_query q → answers fail (computeTruth impl q) Inv (truth_ok q);
  sound_validity q :
    wf_query q → answers fail (computeValidity impl q) Inv (validity_ok q);
  sound_value q :
    wf_value_query q →
    answers fail (computeValue impl q) Inv (λ e,
      ∃ ρ, models (constraints q) ρ ∧ e = const (eval ρ (query_expr q)) (getWidth (query_expr q)));
  sound_initial q objects :
    wf_query q →
    answers fail (computeInitialValues impl q objects) Inv (λ res,
      match res with
      | None => valid q
      | Some values => counterexample q objects values
      end);
}.
End semantics.
