(* ===== verification/Footprint.v ===== *)
(** * What the value of an expression depends on

    An expression only depends on the initial bytes at the positions that its
    reads can reach: a read at a constant index depends on that byte, any other
    read on the whole array. *)

From stdpp Require Import prelude gmap.
From S2P Require Import Prelude Bitvec APInt ExprData ExprVisitor ExprUtil.

(** A read in [e] may depend on the byte [i] of [a]. *)
Definition reads_at (e : Expr) (a : Array) (i : Z) : Prop :=
  i `bits` 32 ∧ ∃ head index, reaches true e (Read a head index) ∧
    ∀ c, index = Constant c → i = cvalue c.

Section footprint.
Context `{WfStore}.

Lemma reads_at_child e k a i : k ∈ children true e → reads_at k a i → reads_at e a i.
Proof.
  intros Hk (Hi & head & index & Hr & Hc). split; [done|]. exists head, index.
  split; [|done]. by eapply rtc_l.
Qed.

(** When the expressions are known to be in bounds ([safe]), constant arrays do
    not count. *)
Variable safe : Prop.

(** Two assignments agree on the positions [D]. *)
Definition agree_on (ρ ρ' : assignment) (D : Array → Z → Prop) : Prop :=
  ∀ a i, D a i → (safe → constantValues (deref a) = []) → ρ a i = ρ' a i.

Lemma agree_on_mono ρ ρ' (D D' : Array → Z → Prop) :
  (∀ a i, D a i → D' a i) → agree_on ρ ρ' D' → agree_on ρ ρ' D.
Proof. intros Hsub Hag a i Hi. by apply Hag, Hsub. Qed.

Lemma agree_on_child ρ ρ' e k :
  k ∈ children true e → agree_on ρ ρ' (reads_at e) → agree_on ρ ρ' (reads_at k).
Proof. intros Hk. apply agree_on_mono. intros a i. by apply reads_at_child. Qed.

(** What [un] needs below the root [root] at index [i]. *)
Definition node_agree ρ ρ' (root : Array) (un : UpdateNode) (i : Z) : Prop :=
  (∀ k, k ∈ update_exprs un → agree_on ρ ρ' (reads_at k)) ∧
  ((safe → constantValues (deref root) = []) → ρ root i = ρ' root i).

Lemma initial_byte_agree ρ ρ' root i :
  0 ≤ i → (safe → constantValues (deref root) ≠ [] → i < array_size (deref root)) →
  ((safe → constantValues (deref root) = []) → ρ root i = ρ' root i) →
  initial_byte ρ root i = initial_byte ρ' root i.
Proof.
  intros Hi Hb Hag. unfold initial_byte.
  destruct (constantValues (deref root) !! Z.to_nat i) as [c|] eqn:Ec; [done|].
  apply Hag. intros Hs. destruct (wf_store root) as (_ & [Hn|Hl] & _); [done|].
  destruct (constantValues (deref root)) as [|c cs] eqn:E; [done|].
  specialize (Hb Hs ltac:(done)). apply lookup_ge_None in Ec. lia.
Qed.

(** One subexpression: [in_bounds] from the hypothesis on the whole expression,
    agreement from that of its parent. *)
Ltac agree_child IH :=
  apply IH; [done|by intros Hs; try match goal with H : safe → _ |- _ => specialize (H Hs) end;
                 destruct_and?|];
  eapply agree_on_child; [|eassumption]; cbn; rewrite ?elem_of_cons; tauto.

Lemma eval_agree_mut ρ ρ' :
  wf_assignment ρ →
  (∀ e, wf e → (safe → in_bounds ρ e) → agree_on ρ ρ' (reads_at e) → eval ρ e = eval ρ' e) ∧
  (∀ un, wf_nodes un → ∀ root i, 0 ≤ i → (safe → in_bounds_read ρ root un i) →
     node_agree ρ ρ' root un i → eval_read ρ root un i = eval_read ρ' root un i).
Proof.
  intros Hρ. apply Expr_UpdateNode_ind; cbn.
  - done.
  - intros e IH ? ? ?. agree_child IH.
  - intros root head IHh index IHi (Hh & Hi & Hw) Hb Hag.
    assert (eval ρ index = eval ρ' index) as Hv by agree_child IHi.
    rewrite <- Hv. pose proof (eval_bounded ρ index Hρ Hi) as Hbi. rewrite Hw in Hbi.
    apply IHh; [done|apply Hbi|intros Hs; apply (Hb Hs)|]. split.
    + intros k Hk. eapply agree_on_child; [|done]. cbn. by right.
    + intros Hc. apply Hag; [|done]. split; [done|]. exists head, index.
      split; [apply rtc_refl|]. by intros c ->.
  - intros c IHc t IHt f IHf (? & ? & ? & _) Hb Hag.
    assert (eval ρ c = eval ρ' c) as Hv by agree_child IHc. rewrite <- Hv.
    destruct (eval ρ c =? 1); [agree_child IHt|agree_child IHf].
  - intros l IHl r IHr (? & ? & _) Hb Hag. f_equal; [agree_child IHl|agree_child IHr].
  - intros e IH ? ? [? _] ? ?. f_equal. agree_child IH.
  - intros e IH ? [? _] ? ?. agree_child IH.
  - intros e IH ? [? _] ? ?. f_equal. agree_child IH.
  - intros e IH ? ? ?. f_equal. agree_child IH.
  - intros k l IHl r IHr (? & ? & _) Hb Hag. f_equal; [agree_child IHl|agree_child IHr].
  - intros _ root i Hi Hb [_ Hr]. by apply initial_byte_agree.
  - intros next IHn index IHi value IHv ? root i Hi Hb [Hk Hr]. destruct_and?.
    assert (eval ρ index = eval ρ' index) as Hv by (apply IHi; [done|intros Hs; apply (Hb Hs)|apply Hk; cbn; rewrite !elem_of_cons; tauto]).
    rewrite <- Hv. destruct (eval ρ index =? i).
    + apply IHv; [done|intros Hs; apply (Hb Hs)|apply Hk; cbn; rewrite !elem_of_cons; tauto].
    + apply IHn; [done|done|intros Hs; apply (Hb Hs)|]. split; [|done]. intros k ?. apply Hk. cbn. rewrite !elem_of_cons. tauto.
Qed.

Lemma eval_agree ρ ρ' e :
  wf_assignment ρ → wf e → (safe → in_bounds ρ e) → agree_on ρ ρ' (reads_at e) →
  eval ρ e = eval ρ' e.
Proof. intros Hρ. apply eval_agree_mut, Hρ. Qed.
End footprint.
