(* ===== verification/ReferenceSolver.v ===== *)
(** * A reference solver

    The contract of a solver is decidable: a query depends on finitely many bytes,
    and trying every value of them answers it.  This solver is the abstract
    specification of the chain of solvers, and shows that the contract can be
    met. *)

From stdpp Require Import prelude gmap.
From S2P Require Import Prelude Bitvec APInt ExprData ExprVisitor ExprUtil Solver Footprint.

(** ** Enumerating assignments *)

Definition override (ρ : assignment) (a : Array) (i v : Z) : assignment :=
  λ a' i', if bool_decide (a' = a ∧ i' = i) then v else ρ a' i'.

(** Every assignment of bytes to the cells [ds], zero elsewhere. *)
Fixpoint assignments (ds : list (Array * Z)) : list assignment :=
  match ds with
  | [] => [λ _ _, 0]
  | (a, i) :: ds => ρ ← assignments ds; override ρ a i <$> seqZ 0 256
  end.

Lemma assignments_wf ds ρ : ρ ∈ assignments ds → wf_assignment ρ.
Proof.
  revert ρ. induction ds as [|[a i] ds IH]; cbn; intros ρ.
  - by intros ->%list_elem_of_singleton.
  - intros (ρ' & (v & -> & Hv%elem_of_seqZ)%list_elem_of_fmap & Hρ')%list_elem_of_bind.
    intros a' i'. unfold override. case_bool_decide; [split; [|change (2 ^ 8) with 256]; lia|].
    by apply IH.
Qed.

Lemma assignments_complete ds ρ :
  wf_assignment ρ → ∃ ρ', ρ' ∈ assignments ds ∧ ∀ a i, (a, i) ∈ ds → ρ a i = ρ' a i.
Proof.
  intros Hρ. induction ds as [|[a i] ds (ρ' & Hin & Hag)]; cbn.
  { exists (λ _ _, 0). split; [by left|]. by intros a i ?%elem_of_nil. }
  exists (override ρ' a i (ρ a i)). split.
  - apply list_elem_of_bind. exists ρ'. split; [|done]. apply list_elem_of_fmap.
    exists (ρ a i). split; [done|]. apply elem_of_seqZ. pose proof (Hρ a i) as Hb.
    unfold bounded in Hb. change (2 ^ 8) with 256 in Hb. lia.
  - intros a' i' [[= -> ->]|Hin']%elem_of_cons; unfold override; case_bool_decide as Hd;
      [done|by destruct Hd| |auto]. by destruct Hd as [-> ->].
Qed.

(** ** Searching for a model *)

Definition holds `{ArrayStore} (cs : list Expr) (e : Expr) (v : Z) (ρ : assignment) : bool :=
  forallb (λ c, eval ρ c =? 1) cs && (eval ρ e =? v).

(** The bytes of the arrays that the expressions mention. *)
Definition cells (es : list Expr) : list (Array * Z) :=
  a ← elements (⋃ (arrays <$> es)); (λ i, (a, i)) <$> seqZ 0 (2 ^ 32).

(** A model of [cs] in which [e] is [v]. *)
Definition find_model `{ArrayStore} (cs : list Expr) (e : Expr) (v : Z) : option assignment :=
  List.find (holds cs e v) (assignments (cells (e :: cs))).

Definition reference_solver `{ArrayStore} : SolverImpl unit := {|
  computeTruth q :=
    mret (Some (if find_model (constraints q) (query_expr q) 0 is Some _ then false else true));
  computeValidity q :=
    mret (Some (match find_model (constraints q) (query_expr q) 0,
                      find_model (constraints q) (query_expr q) 1 with
                | None, _ => VTrue
                | _, None => VFalse
                | Some _, Some _ => VUnknown
                end));
  computeValue q :=
    mret ((λ ρ, const (eval ρ (query_expr q)) (getWidth (query_expr q))) <$>
      find_model (constraints q) (const 1 1) 1);
  computeInitialValues q objects :=
    mret (Some ((λ ρ, object_bytes ρ <$> objects) <$>
      find_model (constraints q) (query_expr q) 0));
|}.

Lemma arrays_child u e k : k ∈ children u e → arrays k ⊆ arrays e.
Proof.
  assert (∀ un k, k ∈ update_exprs un → arrays k ⊆ node_arrays un) as Hun.
  { clear. induction un as [|next IH index value]; cbn; [by intros ? ?%elem_of_nil|].
    intros k [-> |[-> |Hk]%elem_of_cons]%elem_of_cons; [set_solver..|]. specialize (IH k Hk). set_solver. }
  destruct e; cbn; rewrite ?elem_of_cons, ?elem_of_nil;
    try (by intros Hk; destruct_or? Hk; subst; try done; set_solver).
  intros [-> |Hk]; [set_solver|]. destruct u; [|by apply elem_of_nil in Hk].
  specialize (Hun _ _ Hk). set_solver.
Qed.

Section reference.
Context `{WfStore} `{QueryClass}.

Lemma reads_at_cells e es a i : e ∈ es → reads_at e a i → (a, i) ∈ cells es.
Proof.
  intros He (Hi & head & index & Hr & _). apply list_elem_of_bind. exists a. split.
  - apply list_elem_of_fmap. exists i. split; [done|]. apply elem_of_seqZ. unfold bounded in Hi. lia.
  - apply elem_of_elements, elem_of_union_list. exists (arrays e).
    split; [by apply list_elem_of_fmap_2|].
    cut (arrays (Read a head index) ⊆ arrays e); [cbn; set_solver|].
    clear -Hr. induction Hr as [|x y z Hk _ IH]; [done|]. etrans; [exact IH|]. by eapply arrays_child.
Qed.

Lemma find_model_Some cs e v ρ :
  find_model cs e v = Some ρ → models cs ρ ∧ eval ρ e = v.
Proof.
  intros [Hin Hh]%find_some. apply list_elem_of_In in Hin. unfold holds in Hh. unbool.
  split; [split; [by eapply assignments_wf|]|done]. intros c Hc%list_elem_of_In.
  apply Z.eqb_eq. revert c Hc. by apply forallb_forall.
Qed.

Lemma find_model_None cs e v :
  Forall wf cs → wf e → find_model cs e v = None → ∀ ρ, models cs ρ → eval ρ e ≠ v.
Proof.
  intros Hcs He Hn ρ [Hρ Hm] <-.
  destruct (assignments_complete (cells (e :: cs)) ρ Hρ) as (ρ' & Hin & Hag).
  assert (∀ c, c ∈ e :: cs → wf c → eval ρ c = eval ρ' c) as Heq.
  { intros c Hc Hwf. eapply (eval_agree False); [done..|]. intros a i Hr _.
    by eapply Hag, reads_at_cells. }
  apply list_elem_of_In in Hin. pose proof (find_none _ _ Hn ρ' Hin) as Hf.
  apply not_true_iff_false in Hf. apply Hf. unfold holds. apply andb_true_iff. split.
  - apply forallb_forall. intros c Hc%list_elem_of_In. apply Z.eqb_eq.
    rewrite <- Heq; [by apply Hm|by right|]. rewrite Forall_forall in Hcs. auto.
  - apply Z.eqb_eq. symmetry. apply Heq; [by left|done].
Qed.

Lemma wf_constraints_wf cs : wf_constraints cs → Forall wf cs.
Proof. intros Hcs. eapply Forall_impl; [exact Hcs|]. by intros c (? & _). Qed.

Lemma no_counterexample q :
  wf_query q → find_model (constraints q) (query_expr q) 0 = None → valid q.
Proof.
  intros [(Hcs & _ & He & _) Hw] Hn ρ Hρ.
  pose proof (find_model_None _ _ _ (wf_constraints_wf _ Hcs) He Hn ρ Hρ).
  destruct (eval_bool ρ (query_expr q)); [apply Hρ|done..].
Qed.

Lemma no_example q :
  wf_query q → find_model (constraints q) (query_expr q) 1 = None → refuted q.
Proof.
  intros [(Hcs & _ & He & _) Hw] Hn ρ Hρ.
  pose proof (find_model_None _ _ _ (wf_constraints_wf _ Hcs) He Hn ρ Hρ).
  destruct (eval_bool ρ (query_expr q)); [apply Hρ|done..].
Qed.

(** The reference solver decides every query. *)
Lemma reference_solver_sound : sound False reference_solver (λ _, True).
Proof.
  split.
  - intros q Hq s _. apply runs_ret. split; [done|].
    destruct (find_model _ _ _) as [ρ|] eqn:E; [|by apply no_counterexample].
    exists ρ. by apply find_model_Some.
  - intros q Hq s _. apply runs_ret. split; [done|].
    destruct (find_model _ _ 0) as [ρ|] eqn:E; [|by apply no_counterexample].
    destruct (find_model _ _ 1) as [ρ'|] eqn:E'; [|by apply no_example].
    split; [exists ρ|exists ρ']; by apply find_model_Some.
  - intros q (Hcs & [ρ Hρ] & _) s _. apply runs_ret. split; [done|].
    destruct (find_model _ _ _) as [ρ'|] eqn:E; cbn [fmap option_fmap option_map].
    { exists ρ'. split; [by eapply find_model_Some|done]. }
    assert (wf (const 1 1)) as Hone by (by split; [|split]).
    by apply (find_model_None _ _ _ (wf_constraints_wf _ Hcs) Hone E ρ).
  - intros q objects Hq s _. apply runs_ret. split; [done|].
    destruct (find_model _ _ _) as [ρ|] eqn:E; cbn [fmap option_fmap option_map];
      [|by apply no_counterexample].
    apply find_model_Some in E as [??]. by exists ρ.
Qed.
End reference.
