(* ===== verification/SolverProofs.v ===== *)
(** * The solver interface is correct

    The methods of [Solver], proved against the contract of the implementation
    they call. *)

From stdpp Require Import prelude.
From S2P Require Import Prelude Bitvec Bits APInt ExprData ExprConstants ExprCasts ExprBinary.
From S2P Require Import ExprEval ExprBinaryProofs ExprSelectRead Constraints Solver ReferenceSolver.

Section semantics_lemmas.
Context `{APIntLaws} `{WfStore} `{ObjectIdentity} `{Options} `{QueryClass}.

Lemma on_success_ok {S A B} fail (m : M S (option A)) (k : A → M S (option B)) Inv P Q :
  answers fail m Inv P → (∀ a, P a → answers fail (k a) Inv Q) →
  answers fail (on_success m k) Inv Q.
Proof.
  intros Hm Hk s Hs. apply runs_bind. eapply runs_mono; [by apply Hm|].
  intros [a|] s' [Hs' HP]; [by apply Hk; auto|]. by apply runs_ret.
Qed.

Lemma answers_ret {S A} fail (a : A) (Inv : S → Prop) (P : A → Prop) :
  P a → answers fail (mret (Some a)) Inv P.
Proof. intros Ha s Hs. by apply runs_ret. Qed.

Lemma answers_mono {S A} (fail fail' : Prop) (m : M S (option A)) Inv (P Q : A → Prop) :
  answers fail m Inv P → (fail → fail') → (∀ a, P a → Q a) → answers fail' m Inv Q.
Proof. intros Hm ? HPQ s Hs. eapply runs_mono; [by apply Hm|]. intros [] s' [??]; auto. Qed.

Lemma answers_lift {S A B} fail (o : outcome A) (k : A → M S (option B)) Inv P :
  o ⇓ (λ a, answers fail (k a) Inv P) → answers fail (a ← lift o; k a) Inv P.
Proof.
  intros Ho s Hs. apply runs_bind, runs_lift. eapply yields_mono; [exact Ho|]. intros a Ha. by apply Ha.
Qed.

Lemma in_objects_hereditary ρ : hereditary (in_objects ρ).
Proof. split; cbn; tauto. Qed.

Lemma evaluable_hereditary ρ : hereditary (evaluable ρ).
Proof. split; cbn; try tauto. intros k l r Hk ???. split_and!; [done..|]. by destruct k. Qed.

Lemma regular_hereditary : hereditary regular.
Proof.
  apply (hereditary_all (λ ρ e, wf_assignment ρ → (in_range_only = true → in_bounds ρ e) ∧
    (computable_only = true → evaluable ρ e ∧ in_objects ρ e) ∧ (buildable_only = true → buildable e))).
  intros ρ. apply hereditary_impl, hereditary_and; [|apply hereditary_and]; apply hereditary_impl.
  - apply in_bounds_hereditary.
  - apply hereditary_and; [apply evaluable_hereditary|apply in_objects_hereditary].
  - apply buildable_hereditary.
Qed.

Lemma built_regular k l r e : built k l r e → is_total k = true → regular l → regular r → regular e.
Proof. intros He Hk Hl Hr. apply (built_keeps _ _ _ _ He _ regular_hereditary); [done..|]. intros. by apply regular_hereditary. Qed.

Lemma regular_const c : regular (Constant c).
Proof. apply regular_hereditary. Qed.

(** A shift by a constant below the width *)
Lemma regular_shift e mid w :
  0 ≤ mid < getWidth e → getWidth e ≠ 1 → regular e → regular (Binary LShr e (const mid w)).
Proof.
  intros Hmid Hw He ρ Hρ. destruct (He ρ Hρ) as (Hb & Hc & Hbuild). cbn. split_and!; [auto| |auto].
  intros Hcomp. destruct (Hc Hcomp). split_and!; try done; lia.
Qed.

Lemma query_expr_bool q ρ :
  wf_query q → models (constraints q) ρ → eval ρ (query_expr q) = 0 ∨ eval ρ (query_expr q) = 1.
Proof. intros [(_ & _ & He & _) Hw] [Hρ _]. by apply eval_bool. Qed.

(** [negateExpr] exchanges validity and refutation. *)
Definition negation_of (q nq : Query) : Prop :=
  wf_query nq ∧ constraints nq = constraints q ∧
  (∀ ρ, wf_assignment ρ → eval ρ (query_expr nq) = 1 - eval ρ (query_expr q)).

Lemma negateExpr_ok q : wf_query q → negateExpr q ⇓ negation_of q.
Proof.
  intros [(Hcs & Hsat & He & Hb) Hw]. unfold negateExpr. ystep.
  eapply yields_mono; [by apply createIsZero_bool|]. intros e ((Hwf & Hwe & Hv) & _ & Hbe).
  split_and!; [|done..]. split; [|done]. split_and!; try done.
  by apply (Hbe _ regular_hereditary).
Qed.

Lemma negation_valid q nq : negation_of q nq → valid nq → refuted q.
Proof.
  intros (_ & Hcs & Hv) Hq ρ Hρ. rewrite <- Hcs in Hρ. pose proof (Hq ρ Hρ) as He.
  rewrite (Hv ρ (proj1 Hρ)) in He. lia.
Qed.

Lemma negation_sym q nq : wf_query q → negation_of q nq → negation_of nq q.
Proof.
  intros Hq (_ & Hcs & Hv). split_and!; [done..|]. intros ρ Hρ. rewrite (Hv ρ Hρ). lia.
Qed.

Lemma negation_refuted q nq : negation_of q nq → refuted nq → valid q.
Proof.
  intros (_ & Hcs & Hv) Hq ρ Hρ. rewrite <- Hcs in Hρ. pose proof (Hq ρ Hρ) as He.
  rewrite (Hv ρ (proj1 Hρ)) in He. lia.
Qed.

Lemma negation_may_be q nq v : negation_of q nq → may_be nq v → may_be q (1 - v).
Proof.
  intros (_ & Hcs & Hv) (ρ & Hρ & He). exists ρ. rewrite <- Hcs. split; [done|].
  rewrite (Hv ρ (proj1 Hρ)) in He. lia.
Qed.

(** With satisfiable constraints what always holds may hold. *)
Lemma valid_may_be q : wf_query q → valid q → may_be q 1.
Proof. intros [(_ & [ρ Hρ] & _) _] Hv. exists ρ. auto. Qed.

Lemma refuted_may_be q : wf_query q → refuted q → may_be q 0.
Proof. intros [(_ & [ρ Hρ] & _) _] Hv. exists ρ. auto. Qed.

(** ** The default [computeValidity] *)

Lemma default_validity_at {S} fail (truth : Query → M S (option bool)) Inv q :
  wf_query q → answers fail (truth q) Inv (truth_ok q) →
  (∀ nq, negateExpr q = Done nq → wf_query nq → answers fail (truth nq) Inv (truth_ok nq)) →
  answers fail (default_computeValidity truth q) Inv (validity_ok q).
Proof.
  intros Hq Htruth Hneg. eapply on_success_ok; [exact Htruth|]. intros [] Hb.
  { by apply answers_ret. }
  destruct (yields_inv _ _ (negateExpr_ok q Hq)) as (nq & Enq & Hn). rewrite Enq. apply answers_lift, yields_done.
  eapply on_success_ok; [apply (Hneg nq Enq), Hn|]. intros f Hf. apply answers_ret.
  destruct f; [by eapply negation_valid|]. split; [done|]. by apply (negation_may_be q nq 0).
Qed.

Lemma default_validity_ok {S} fail (truth : Query → M S (option bool)) Inv q :
  (∀ q, wf_query q → answers fail (truth q) Inv (truth_ok q)) →
  wf_query q → answers fail (default_computeValidity truth q) Inv (validity_ok q).
Proof. intros Htruth Hq. apply default_validity_at; auto. Qed.

(** ** The methods of [Solver] *)

Lemma answers_assert {S A} fail (b : bool) (m : M S (option A)) Inv P :
  b = true → answers fail m Inv P → answers fail (_ ← lift (cassert b); m) Inv P.
Proof. intros -> Hm. apply answers_lift. by cbn. Qed.

(** A constant is decided without the implementation. *)
Lemma constant_query_ok {S A} fail q CE (k : bool → A) (Inv : S → Prop) (P : A → Prop) :
  wf_query q → query_expr q = Constant CE →
  (valid q → P (k true)) → (refuted q → P (k false)) →
  answers fail (t ← lift (CE_isTrue CE); mret (Some (k t))) Inv P.
Proof.
  intros [(_ & _ & He & _) Hw] HCE Ht Hf. rewrite HCE in He, Hw.
  apply answers_lift. rewrite CE_isTrue_spec by done. cbn. apply answers_ret.
  assert (∀ ρ, eval ρ (query_expr q) = cvalue CE) as Hv by (intros; by rewrite HCE).
  destruct (eval_bool (λ _ _, 0) (Constant CE)) as [Hc|Hc]; try done; cbn in Hc; rewrite Hc.
  - apply Hf. intros ρ _. by rewrite Hv.
  - apply Ht. intros ρ _. by rewrite Hv.
Qed.

Section wrapper_proofs.
Context {S : Type} (fail : Prop) (impl : SolverImpl S) (Inv : S → Prop).
Context (Himpl : sound fail impl Inv).

Lemma evaluate_ok q : wf_query q → answers fail (evaluate impl q) Inv (validity_ok q).
Proof.
  intros Hq. apply answers_assert; [apply Z.eqb_eq, Hq|].
  destruct (query_expr q) eqn:HCE; try by apply (sound_validity _ _ _ Himpl).
  by apply (constant_query_ok fail q c (λ t, if t then VTrue else VFalse)).
Qed.

Lemma mustBeTrue_ok q : wf_query q → answers fail (mustBeTrue impl q) Inv (truth_ok q).
Proof.
  intros Hq. apply answers_assert; [apply Z.eqb_eq, Hq|].
  destruct (query_expr q) eqn:HCE; try by apply (sound_truth _ _ _ Himpl).
  apply (constant_query_ok fail q c (λ t, t)); [done..|]. by apply refuted_may_be.
Qed.

Lemma mustBeFalse_ok q :
  wf_query q → answers fail (mustBeFalse impl q) Inv (λ b : bool, if b then refuted q else may_be q 1).
Proof.
  intros Hq. apply answers_lift. eapply yields_mono; [by apply negateExpr_ok|]. intros nq Hn.
  eapply answers_mono; [apply mustBeTrue_ok, Hn|done|].
  intros [] Hb; [by eapply negation_valid|by apply (negation_may_be q nq 0)].
Qed.

Lemma mayBeTrue_ok q :
  wf_query q → answers fail (mayBeTrue impl q) Inv (λ b : bool, if b then may_be q 1 else refuted q).
Proof.
  intros Hq. eapply on_success_ok; [by apply mustBeFalse_ok|]. intros b Hb.
  apply answers_ret. by destruct b.
Qed.

Lemma mayBeFalse_ok q :
  wf_query q → answers fail (mayBeFalse impl q) Inv (λ b : bool, if b then may_be q 0 else valid q).
Proof.
  intros Hq. eapply on_success_ok; [by apply mustBeTrue_ok|]. intros b Hb.
  apply answers_ret. by destruct b.
Qed.

Lemma getValue_ok q :
  wf_value_query q →
  answers fail (getValue impl q) Inv (λ c,
    cwidth c = getWidth (query_expr q) ∧ may_be q (cvalue c)).
Proof.
  intros Hq. assert (Hq' := Hq). destruct Hq' as (_ & [ρ Hρ] & _). unfold getValue.
  destruct (query_expr q) eqn:HCE;
    [apply answers_ret; split; [done|]; exists ρ; split; [done|]; by rewrite HCE|..];
  (eapply on_success_ok; [by apply (sound_value _ _ _ Himpl)|];
   intros a (ρ' & Hρ' & ->); apply answers_ret; split; [by rewrite HCE|]; by exists ρ').
Qed.

Lemma getInitialValues_ok q objects :
  wf_query q →
  answers (fail ∨ valid q) (getInitialValues impl q objects) Inv (counterexample q objects).
Proof.
  intros Hq. eapply on_success_ok.
  - eapply answers_mono; [by apply (sound_initial _ _ _ Himpl)|by left|]. intros res Hres. exact Hres.
  - intros [values|] Ha; [by apply answers_ret|]. intros s Hs. apply runs_ret. by split; [|right].
Qed.
End wrapper_proofs.

(** ** Ranges *)

Section range_proofs.
Context {S : Type} (impl : SolverImpl S) (Inv : S → Prop).
Context (Himpl : sound False impl Inv).

Lemma asserted_ok {A} (m : M S (option A)) P s :
  answers False m Inv P → Inv s → runs (asserted m) s (λ a s', Inv s' ∧ P a).
Proof.
  intros Hm Hs. apply runs_bind. eapply runs_mono; [by apply Hm|].
  intros [a|] s' [? ?]; [by apply runs_ret|done].
Qed.

(** A binary search returns a bound of the interval, or a point where the test
    changes. *)
Lemma bisect_ok (fuel : nat) test (yes no : Z → Prop) lo hi s :
  (∀ mid s, lo ≤ mid < hi → Inv s →
    runs (test mid) s (λ b s', Inv s' ∧ if (b : bool) then yes mid else no mid)) →
  lo ≤ hi → hi - lo < 2 ^ Z.of_nat fuel → Inv s →
  runs (bisect fuel test lo hi) s (λ r s', Inv s' ∧ lo ≤ r ≤ hi ∧
    (r = hi ∨ yes r) ∧ (r = lo ∨ no (r - 1))).
Proof.
  revert lo hi s. induction fuel as [|fuel IH]; intros lo hi s Htest Hle Hf Hs; cbn [bisect].
  { cbn in Hf. rewrite (proj2 (Z.ltb_ge lo hi)) by lia. apply runs_ret. split_and!; [done|lia..]. }
  destruct (Z.ltb_spec lo hi); [|apply runs_ret; split_and!; [done|lia..]].
  rewrite Nat2Z.inj_succ, Z.pow_succ_r in Hf by lia.
  set (mid := lo + (hi - lo) / 2).
  assert (hi - lo - 1 ≤ 2 * ((hi - lo) / 2) ≤ hi - lo) as Hmid
    by (pose proof (Z.div_mod (hi - lo) 2); pose proof (Z.mod_pos_bound (hi - lo) 2); lia).
  apply runs_bind. eapply runs_mono; [apply Htest; [lia|done]|]. intros [] s' [Hs' Hb].
  - eapply runs_mono; [apply IH; [|lia..|done]|].
    { intros. apply Htest; [lia|done]. }
    intros r s'' (? & ? & [-> |?] & ?); split_and!; auto; lia.
  - eapply runs_mono; [apply IH; [|lia..|done]|].
    { intros. apply Htest; [lia|done]. }
    intros r s'' (? & ? & ? & [-> |?]); split_and!; auto; try lia.
    right. by replace (mid + 1 - 1) with mid by lia.
Qed.

Context (q : Query) (Hq : wf_value_query q).
Context (Hwidth : 1 < getWidth (query_expr q) ≤ 64).
Context (Hrange : ConstArrayOpt = true → in_range_only = true).
#[local] Abbreviation width := (getWidth (query_expr q)).

(** Comparing [e] with the constant [v] and asking the solver about it. *)
Lemma ask_comparison {A} k e v (ask : Query → M S A) s P :
  is_cmp k = true → wf e → regular e → getWidth e = width → v `bits` width →
  (∀ q', wf_query q' → constraints q' = constraints q →
    (∀ ρ, models (constraints q) ρ →
      eval ρ (query_expr q') = bv_eval k width (eval ρ e) v) → runs (ask q') s P) →
  runs (m ← lift (create_constant v width); x ← lift (Binary_create k e m); ask (withExpr q x)) s P.
Proof.
  intros Hk He Hb Hw Hv Hask. destruct Hq as (Hcs & Hsat & _). apply runs_bind, runs_lift.
  rewrite create_constant_spec by (done || lia). ystep.
  assert (wf (const v width)) by (apply wf_const; [lia|done]).
  apply runs_bind, runs_lift. eapply yields_mono; [apply Binary_create_ok; [done..|by destruct k]|].
  intros x Hbx. pose proof Hbx as [? Hwx _ Hx _]. apply Hask; [|done|].
  - split; [|cbn; rewrite Hwx; unfold bv_width; by rewrite Hk].
    split_and!; try done. eapply built_regular; [exact Hbx|by unfold is_total; rewrite Hk, orb_true_r|done|apply regular_const].
  - intros ρ [Hρ _]. cbn. rewrite Hx, Hw; [done|done|intros (_ & _ & ?); split; [|done]|by destruct k].
    by apply Hb; [|apply Hrange].
Qed.

Lemma fits_bits_ok mid s :
  0 ≤ mid < width → Inv s →
  runs (fits_bits impl q width mid) s (λ b s', Inv s' ∧
    if (b : bool) then ∀ ρ, models (constraints q) ρ → eval ρ (query_expr q) < 2 ^ mid else True).
Proof.
  intros Hmid Hs. destruct Hq as (_ & _ & He & Hb).
  assert (mid `bits` width) by (split; [lia|]; pose proof (Z.pow_gt_lin_r 2 width); lia).
  unfold fits_bits. apply runs_bind, runs_lift. rewrite create_constant_spec by (done || lia). ystep.
  assert (wf (const mid width)) by (apply wf_const; [lia|done]).
  apply runs_bind, runs_lift. eapply yields_mono; [apply Binary_create_ok; [done..|]|].
  { intros cl ? Hcl [= <-]. rewrite Hcl in Hmid. cbn in *. lia. }
  intros e [Hwfe Hwe _ Hve Hbe].
  assert (∀ ρ, models (constraints q) ρ → eval ρ e = Z.shiftr (eval ρ (query_expr q)) mid) as Hshift.
  { intros ρ Hρ. rewrite Hve; [done|apply Hρ|intros (_ & _ & ?)|done].
    split; [|done]. apply Hb; [apply Hρ|by apply Hrange]. }
  eapply (ask_comparison Eq e 0 (λ q', asserted (mustBeTrue impl q'))); try done; [|..].
  - apply (Hbe _ regular_hereditary); [done|apply regular_const|]. intros Hp%negb_true_iff%Z.eqb_neq. by apply regular_shift.
  - split; [lia|]. apply Z.pow_pos_nonneg; lia.
  - intros q' Hq' Hcs' Hv'. eapply runs_mono; [by apply asserted_ok; [apply (mustBeTrue_ok _ _ _ Himpl)|]|].
    intros [] s' [? Ht]; (split; [done|]); [|done]. intros ρ Hρ. cbn in Ht.
    specialize (Ht ρ). rewrite Hcs', Hv', Hshift in Ht by done. specialize (Ht Hρ).
    cbn in Ht. destruct (Z.eqb_spec (eval ρ (query_expr q) ≫ mid) 0) as [Hz|]; [|done].
    rewrite Z.shiftr_div_pow2 in Hz by lia. apply Z.div_small_iff in Hz; lia.
Qed.

Lemma may_be_zero_ok s :
  Inv s →
  runs (may_be_zero impl q width) s (λ b s', Inv s' ∧ if (b : bool) then may_be q 0 else True).
Proof.
  intros Hs. eapply (ask_comparison Eq (query_expr q) 0 (λ q', asserted (mayBeTrue impl q')));
    try done; [apply Hq..| |].
  { split; [lia|]. apply Z.pow_pos_nonneg; lia. }
  intros q' Hq' Hcs' Hv'. eapply runs_mono; [by apply asserted_ok; [apply (mayBeTrue_ok _ _ _ Himpl)|]|].
  intros [] s' [? Hb]; (split; [done|]); [|done]. destruct Hb as (ρ & Hρ & Hb).
  rewrite Hcs' in Hρ. exists ρ. split; [done|]. rewrite Hv' in Hb by done. cbn in Hb.
  by destruct (Z.eqb_spec (eval ρ (query_expr q)) 0).
Qed.

Lemma may_be_at_most_ok mid s :
  mid `bits` width → Inv s →
  runs (may_be_at_most impl q width mid) s (λ b s', Inv s' ∧
    if (b : bool) then ∃ ρ, models (constraints q) ρ ∧ eval ρ (query_expr q) ≤ mid
    else ∀ ρ, models (constraints q) ρ → mid < eval ρ (query_expr q)).
Proof.
  intros Hmid Hs.
  eapply (ask_comparison Ule (query_expr q) mid (λ q', asserted (mayBeTrue impl q')));
    try done; [apply Hq..|].
  intros q' Hq' Hcs' Hv'. eapply runs_mono; [by apply asserted_ok; [apply (mayBeTrue_ok _ _ _ Himpl)|]|].
  intros [] s' [? Hb]; (split; [done|]).
  - destruct Hb as (ρ & Hρ & Hb). rewrite Hcs' in Hρ. exists ρ. split; [done|].
    rewrite Hv' in Hb by done. cbn in Hb. by destruct (Z.leb_spec (eval ρ (query_expr q)) mid).
  - intros ρ Hρ. specialize (Hb ρ). rewrite Hcs', Hv' in Hb by done. specialize (Hb Hρ).
    cbn in Hb. by destruct (Z.leb_spec (eval ρ (query_expr q)) mid).
Qed.

Lemma must_be_at_most_ok mid s :
  mid `bits` width → Inv s →
  runs (must_be_at_most impl q width mid) s (λ b s', Inv s' ∧
    if (b : bool) then ∀ ρ, models (constraints q) ρ → eval ρ (query_expr q) ≤ mid
    else ∃ ρ, models (constraints q) ρ ∧ mid < eval ρ (query_expr q)).
Proof.
  intros Hmid Hs.
  eapply (ask_comparison Ule (query_expr q) mid (λ q', asserted (mustBeTrue impl q')));
    try done; [apply Hq..|].
  intros q' Hq' Hcs' Hv'. eapply runs_mono; [by apply asserted_ok; [apply (mustBeTrue_ok _ _ _ Himpl)|]|].
  intros [] s' [? Hb]; (split; [done|]).
  - intros ρ Hρ. specialize (Hb ρ). rewrite Hcs', Hv' in Hb by done. specialize (Hb Hρ).
    cbn in Hb. by destruct (Z.leb_spec (eval ρ (query_expr q)) mid).
  - destruct Hb as (ρ & Hρ & Hb). rewrite Hcs' in Hρ. exists ρ. split; [done|].
    rewrite Hv' in Hb by done. cbn in Hb. by destruct (Z.leb_spec (eval ρ (query_expr q)) mid).
Qed.

(** [min] and [max] are attained, and bound every value. *)
Definition exact_range (min max : Z) : Prop :=
  may_be q min ∧ may_be q max ∧
  ∀ ρ, models (constraints q) ρ → min ≤ eval ρ (query_expr q) ≤ max.

Lemma find_bits_ok s :
  Inv s →
  runs (bisect 65 (fits_bits impl q width) 0 width) s (λ bits s', Inv s' ∧ 0 ≤ bits ≤ width ∧
    ∀ ρ, models (constraints q) ρ → 0 ≤ eval ρ (query_expr q) < 2 ^ bits).
Proof.
  intros Hs. assert (∀ ρ, models (constraints q) ρ → eval ρ (query_expr q) `bits` width) as Hb.
  { intros ρ Hρ. apply eval_bounded; [apply Hρ|apply Hq]. }
  eapply runs_mono; [eapply (bisect_ok 65 _ _ (λ _, True)); [|lia|change (2 ^ Z.of_nat 65) with 36893488147419103232; lia|done]|].
  { intros mid s' Hmid Hs'. cbn. by apply fits_bits_ok. }
  intros r s' (? & ? & Hr & _). split_and!; [done|lia|lia|].
  intros ρ Hρ. destruct (Hb ρ Hρ). destruct Hr as [-> |Hr]; [lia|]. specialize (Hr ρ Hρ). lia.
Qed.

Lemma find_min_ok bits (zero : bool) s :
  0 ≤ bits ≤ width → (∀ ρ, models (constraints q) ρ → 0 ≤ eval ρ (query_expr q) < 2 ^ bits) →
  (if zero then may_be q 0 else True) → Inv s →
  runs (if zero then mret 0
        else bisect 65 (may_be_at_most impl q width) 0 (bits64.maxValueOfNBits bits)) s
    (λ min s', Inv s' ∧ 0 ≤ min < 2 ^ bits ∧ may_be q min ∧
      ∀ ρ, models (constraints q) ρ → min ≤ eval ρ (query_expr q)).
Proof.
  intros Hbits Hb Hz Hs. pose proof (Z.pow_pos_nonneg 2 bits).
  pose proof (Z.pow_le_mono_r 2 bits width). pose proof (Z.pow_le_mono_r 2 bits 64).
  destruct zero; [apply runs_ret; split_and!; [done|lia|lia|done|apply Hb]|].
  rewrite maxValueOfNBits_64 by lia.
  eapply runs_mono; [eapply bisect_ok; [|lia| |done]|].
  { intros mid s' Hmid Hs'. apply may_be_at_most_ok; [split; lia|done]. }
  { change (2 ^ Z.of_nat 65) with (2 * 2 ^ 64). lia. }
  intros r s' (? & ? & Hr & Hr'). cbn beta in *.
  assert (∀ ρ, models (constraints q) ρ → r ≤ eval ρ (query_expr q)) as Hmin.
  { intros ρ Hρ. pose proof (Hb ρ Hρ). destruct Hr' as [-> |Hr']; [lia|].
    specialize (Hr' ρ Hρ). lia. }
  split_and!; [done|lia|lia| |done].
  assert (∃ ρ, models (constraints q) ρ ∧ eval ρ (query_expr q) ≤ r) as (ρ & Hρ & Hle).
  { destruct Hr as [-> |Hr]; [|done]. destruct Hq as (_ & [ρ Hρ] & _). exists ρ.
    pose proof (Hb ρ Hρ). split; [done|lia]. }
  exists ρ. split; [done|]. specialize (Hmin ρ Hρ). lia.
Qed.

Lemma search_range_ok s :
  Inv s → runs (search_range impl q width) s (λ '(min, max) s', Inv s' ∧ exact_range min max).
Proof.
  intros Hs. apply runs_bind. eapply runs_mono; [by apply find_bits_ok|].
  intros bits s1 (Hs1 & Hbits & Hb). apply runs_bind. eapply runs_mono; [by apply may_be_zero_ok|].
  intros zero s2 [Hs2 Hz]. apply runs_bind. eapply runs_mono; [by apply find_min_ok|].
  intros min s3 (Hs3 & Hmin & Hatt & Hle). apply runs_bind.
  pose proof (Z.pow_le_mono_r 2 bits width). pose proof (Z.pow_le_mono_r 2 bits 64).
  rewrite maxValueOfNBits_64 by lia.
  eapply runs_mono; [eapply bisect_ok; [|lia| |done]|].
  { intros mid s' Hmid Hs'. apply must_be_at_most_ok; [split; lia|done]. }
  { change (2 ^ Z.of_nat 65) with (2 * 2 ^ 64). lia. }
  intros max s4 (? & ? & Hr & Hr'). apply runs_ret. cbn beta in *. split; [done|].
  assert (∀ ρ, models (constraints q) ρ → eval ρ (query_expr q) ≤ max) as Hmax.
  { intros ρ Hρ. pose proof (Hb ρ Hρ). destruct Hr as [-> |Hr]; [lia|auto]. }
  split_and!; [done| |by auto]. destruct Hr' as [-> |(ρ & Hρ & ?)]; [done|].
  exists ρ. split; [done|]. specialize (Hmax ρ Hρ). lia.
Qed.
End range_proofs.

Lemma boolean_range_ok q v :
  wf_query q → validity_ok q v →
  let '(min, max) := match v with VTrue => (1, 1) | VFalse => (0, 0) | VUnknown => (0, 1) end in
  exact_range q min max.
Proof.
  intros Hq Hv. destruct v; cbn in Hv; split_and!; try by apply Hv.
  - by apply valid_may_be.
  - by apply valid_may_be.
  - intros ρ Hρ. by rewrite (Hv ρ Hρ).
  - by apply refuted_may_be.
  - by apply refuted_may_be.
  - intros ρ Hρ. by rewrite (Hv ρ Hρ).
  - intros ρ Hρ. by destruct (query_expr_bool q ρ Hq Hρ) as [-> | ->].
Qed.

(** The two constants that [getRange] returns. *)
Lemma range_result_ok {S} q min max (s : S) P :
  wf_value_query q → exact_range q min max →
  P (const min (getWidth (query_expr q)), const max (getWidth (query_expr q))) s →
  runs (min ← lift (create_constant min (getWidth (query_expr q)));
        max ← lift (create_constant max (getWidth (query_expr q))); mret (min, max)) s P.
Proof.
  intros (_ & _ & He & _) Hr HP. pose proof (wf_width _ He).
  assert (∀ v, may_be q v → v `bits` getWidth (query_expr q)) as Hb.
  { intros v (ρ' & Hρ' & <-). apply eval_bounded; [apply Hρ'|done]. }
  rewrite !create_constant_spec by (lia || apply Hb, Hr).
  apply runs_bind, runs_lift, yields_done, runs_bind, runs_lift, yields_done. by apply runs_ret.
Qed.

(** ** Temporary constraint managers *)

Lemma conjuncts_wf e c :
  wf e → getWidth e = Bool → regular e → c ∈ conjuncts e → wf c ∧ getWidth c = Bool ∧ regular c.
Proof.
  assert (∀ e', wf e' → getWidth e' = Bool → regular e' → c ∈ [e'] →
    wf c ∧ getWidth c = Bool ∧ regular c) as Hone by (by intros ???? ->%list_elem_of_singleton).
  induction e as [CE| | | | | | | | |k a IHa b IHb]; try (by apply Hone).
  - by intros _ _ _ ?%not_elem_of_nil.
  - destruct k; try (by apply Hone). cbn [wf getWidth conjuncts]. intros (Ha & Hb & Hw) Hwa Hr.
    assert (regular a ∧ regular b) as [??] by (split; [by eapply her_left in Hr; [|apply regular_hereditary]|by eapply her_right in Hr; [|apply regular_hereditary]]).
    intros [?|?]%elem_of_app; [apply IHa|apply IHb]; try done. by rewrite <- Hw.
Qed.

(** A manager built from satisfiable constraints has the same models. *)
Lemma tmp_manager_ok cs :
  wf_constraints cs → satisfiable cs →
  manager_constraints cs ⇓ λ cs', wf_constraints cs' ∧ ∀ ρ, models cs' ρ ↔ models cs ρ.
Proof.
  intros Hcs [ρ0 [Hρ0 Hm0]]. unfold wf_constraints in Hcs. rewrite Forall_forall in Hcs.
  rewrite manager_constraints_ok.
  2: { apply Forall_forall. intros c Hc. destruct (Hcs c Hc) as (? & ? & _).
       split_and!; [done..|]. by apply (conjuncts_meaning ρ0), Hm0. }
  apply yields_done. split.
  - apply Forall_forall. intros c. rewrite elem_of_reverse. intros (c' & Hc & Hc')%list_elem_of_bind.
    destruct (Hcs c' Hc') as (? & ? & ?). by eapply conjuncts_wf.
  - intros ρ. split; (intros [Hρ Hm]; split; [done|]).
    + setoid_rewrite elem_of_reverse in Hm. intros c Hc. destruct (Hcs c Hc) as (? & ? & _). apply conjuncts_meaning; [done..|].
      split; [by apply (conjuncts_meaning ρ0), Hm0|]. intros c' Hc'. apply Hm, list_elem_of_bind. eauto.
    + intros c. rewrite elem_of_reverse. intros (c' & Hc & Hc')%list_elem_of_bind. destruct (Hcs c' Hc') as (Hwf & Hw & _).
      destruct (proj1 (conjuncts_meaning ρ c' Hρ Hwf Hw) (Hm c' Hc')) as [_ Hall]. by apply Hall.
Qed.

(** ** Properties *)

(** C26: Against any implementation that meets the contract, and with
    satisfiable constraints, the methods of [Solver] return and answer correctly.
    They fail only when the implementation does, but for [getInitialValues], which
    also fails when the query is valid.  [evaluate] and the default
    [computeValidity] classify the expression as valid, refuted or neither with
    models on both sides; [mustBeTrue] and [mustBeFalse] decide validity of the
    expression and of its negation; [mayBeTrue] and [mayBeFalse] decide whether
    some model makes it true or false; [getInitialValues] gives the bytes of a
    model that makes it false; [getValue] gives a
    value that the expression takes in a model. *)
Theorem solver_methods_correct {S} fail (impl : SolverImpl S) Inv q objects :
  sound fail impl Inv → wf_query q →
  answers fail (evaluate impl q) Inv (validity_ok q) ∧
  answers fail (default_computeValidity (computeTruth impl) q) Inv (validity_ok q) ∧
  answers fail (mustBeTrue impl q) Inv (truth_ok q) ∧
  answers fail (mustBeFalse impl q) Inv (λ b : bool, if b then refuted q else may_be q 1) ∧
  answers fail (mayBeTrue impl q) Inv (λ b : bool, if b then may_be q 1 else refuted q) ∧
  answers fail (mayBeFalse impl q) Inv (λ b : bool, if b then may_be q 0 else valid q) ∧
  answers (fail ∨ valid q) (getInitialValues impl q objects) Inv (counterexample q objects) ∧
  answers fail (getValue impl q) Inv (λ c,
    cwidth c = getWidth (query_expr q) ∧ may_be q (cvalue c)).
Proof.
  intros Himpl Hq. pose proof Hq as [? _]. split_and!; eauto using evaluate_ok, mustBeTrue_ok, mustBeFalse_ok, mayBeTrue_ok,
    mayBeFalse_ok, getInitialValues_ok, getValue_ok.
  apply default_validity_ok; [|done]. intros q'. by apply Himpl.
Qed.

(** C22: [getRange] terminates and returns the exact range of the expression: two
    constants of its width that are the smallest and the largest value it takes
    in the models of the constraints.  The implementation must not fail, since
    the code asserts that; and when the constant-array rewriting is enabled no
    constant array may be read out of range. *)
Theorem getRange_correct {S} (impl : SolverImpl S) Inv q s :
  sound False impl Inv → (ConstArrayOpt = true → in_range_only = true) →
  wf_value_query q → Inv s →
  runs (getRange impl q) s (λ '(lo, hi) s', Inv s' ∧
    ∃ min max, lo = const min (getWidth (query_expr q)) ∧ hi = const max (getWidth (query_expr q)) ∧
      exact_range q min max).
Proof.
  intros Himpl Hrange Hq Hs. pose proof Hq as (Hcs & [ρ Hρ] & He & _). apply runs_bind.
  eapply (runs_mono _ _ (λ '(min, max) s', Inv s' ∧ exact_range q min max)).
  2: { intros [min max] s' [Hs' Hr]. apply range_result_ok; [done..|].
       split; [done|]. by exists min, max. }
  destruct (Z.eqb_spec (getWidth (query_expr q)) 1) as [Hw|Hw].
  - apply runs_bind. eapply runs_mono; [by apply asserted_ok; [apply (evaluate_ok False impl)|]|].
    intros v s' [Hs' Hv]. apply runs_ret.
    pose proof (boolean_range_ok q v (conj Hq Hw) Hv). by destruct v.
  - pose proof (wf_width _ He). destruct (query_expr q) eqn:E;
      try (rewrite <- E; apply search_range_ok; [done..|rewrite E; lia|done|done]).
    apply runs_bind, runs_lift. cbn in He. rewrite getZExtValue_spec by apply He.
    apply yields_done, runs_ret. split; [done|].
    split_and!; [exists ρ; by rewrite E..|]. intros ρ' _. by rewrite E.
Qed.
End semantics_lemmas.

Section witnesses.
#[local] Existing Instance Sample.store.
#[local] Existing Instance Sample.store_wf.
#[local] Existing Instance identity.
#[local] Instance opt_on : Options := const_array_opt true.
#[local] Instance in_range : QueryClass := {| in_range_only := true; computable_only := false; buildable_only := false |}.
Import Sample.

(** The first byte is below 10. *)
Definition small : Expr := Binary Ult (input 0) (const 10 8).

Lemma small_wf : wf_constraints [small].
Proof. repeat constructor; done. Qed.

Lemma small_satisfiable : satisfiable [small].
Proof. exists (λ _ _, 0). split; [done|]. by intros c ->%list_elem_of_singleton. Qed.

Lemma solver_methods_correct_witness :
  let q := mkQuery [small] (Binary Ult (input 0) (const 20 8)) in
  answers False (mustBeTrue reference_solver q) (λ _, True) (truth_ok q).
Proof.
  intros q. refine (proj1 (proj2 (proj2 (solver_methods_correct False reference_solver (λ _, True)
    q [] reference_solver_sound _)))).
  split; [|done]. split_and!; [apply small_wf|apply small_satisfiable|repeat constructor; done|].
  repeat constructor; done.
Defined.

Lemma getRange_correct_witness :
  let q := mkQuery [small] (input 0) in
  runs (getRange reference_solver q) tt (λ '(lo, hi) s', True ∧
    ∃ min max, lo = const min (getWidth (query_expr q)) ∧ hi = const max (getWidth (query_expr q)) ∧
      exact_range q min max).
Proof.
  intros q. refine (getRange_correct reference_solver (λ _, True) q tt reference_solver_sound
    (λ _, eq_refl) _ I).
  split_and!; [apply small_wf|apply small_satisfiable|repeat constructor; done|].
  repeat constructor; done.
Defined.
End witnesses.
