(* ===== verification/StagedSolver.v ===== *)
(** * Staged and validating solvers: [klee/IncompleteSolver.h],
      [lib/Solver/IncompleteSolver.cpp] and the rest of [lib/Solver/Solver.cpp]

    An incomplete solver gives partial answers; staged before another solver it
    makes a complete one.  The validating solver runs two solvers side by side. *)

From stdpp Require Import prelude.
From S2P Require Import Prelude Bitvec APInt ExprData ExprConstants ExprCasts ExprBinary.
From S2P Require Import ExprBinaryProofs ExprSelectRead Constraints Solver ReferenceSolver.
From S2P Require Import SolverProofs.

(** [IncompleteSolver::PartialValidity] *)
Inductive PartialValidity : Set :=
| MustBeTrue | MustBeFalse | MayBeTrue | MayBeFalse | TrueOrFalse | PVNone.

#[export] Instance PartialValidity_eq_dec : EqDecision PartialValidity.
Proof. solve_decision. Defined.

(** [IncompleteSolver::negatePartialValidity] *)
Definition negatePartialValidity (pv : PartialValidity) : outcome PartialValidity :=
  match pv with
  | PVNone => AssertFailed
  | MustBeTrue => Done MustBeFalse
  | MustBeFalse => Done MustBeTrue
  | MayBeTrue => Done MayBeFalse
  | MayBeFalse => Done MayBeTrue
  | TrueOrFalse => Done TrueOrFalse
  end.

(** [class IncompleteSolver] *)
Record IncompleteSolver (S : Type) : Type := mkIncomplete {
  inc_computeValidity : Query → M S PartialValidity;
  inc_computeTruth : Query → M S PartialValidity;
  inc_computeValue : Query → M S (option Expr);
  inc_computeInitialValues : Query → list Array → M S (option (option (list bytes)));
}.
Arguments inc_computeValidity {S}.
Arguments inc_computeTruth {S}.
Arguments inc_computeValue {S}.
Arguments inc_computeInitialValues {S}.

Section staged.
Context `{APIntOps} `{ArrayStore} `{ObjectIdentity} `{Options} {S : Type}.

(** [IncompleteSolver::computeValidity], the default implementation *)
Definition default_partialValidity (computeTruth : Query → M S PartialValidity) (query : Query) :
    M S PartialValidity :=
  trueResult ← computeTruth query;
  if bool_decide (trueResult = MustBeTrue) then mret MustBeTrue
  else
    nq ← lift (negateExpr query);
    falseResult ← computeTruth nq;
    if bool_decide (falseResult = MustBeTrue) then mret MustBeFalse
    else
      let trueCorrect := bool_decide (trueResult ≠ PVNone) in
      let falseCorrect := bool_decide (falseResult ≠ PVNone) in
      mret (if trueCorrect && falseCorrect then TrueOrFalse
            else if trueCorrect then MayBeFalse
            else if falseCorrect then MayBeTrue
            else PVNone).

(** ** [class StagedSolverImpl] *)

Section staged_impl.
Context (primary : IncompleteSolver S) (secondary : SolverImpl S).

Definition staged_computeTruth (query : Query) : M S (option bool) :=
  trueResult ← inc_computeTruth primary query;
  if bool_decide (trueResult ≠ PVNone) then mret (Some (bool_decide (trueResult = MustBeTrue)))
  else computeTruth secondary query.

Definition staged_computeValidity (query : Query) : M S (option Validity) :=
  pv ← inc_computeValidity primary query;
  match pv with
  | MustBeTrue => mret (Some VTrue)
  | MustBeFalse => mret (Some VFalse)
  | TrueOrFalse => mret (Some VUnknown)
  | MayBeTrue =>
      on_success (computeTruth secondary query) (λ tmp,
        mret (Some (if (tmp : bool) then VTrue else VUnknown)))
  | MayBeFalse =>
      nq ← lift (negateExpr query);
      on_success (computeTruth secondary nq) (λ tmp,
        mret (Some (if (tmp : bool) then VFalse else VUnknown)))
  | PVNone => computeValidity secondary query
  end.

Definition staged_computeValue (query : Query) : M S (option Expr) :=
  r ← inc_computeValue primary query;
  match r with Some result => mret (Some result) | None => computeValue secondary query end.

Definition staged_computeInitialValues (query : Query) (objects : list Array) :
    M S (option (option (list bytes))) :=
  r ← inc_computeInitialValues primary query objects;
  match r with
  | Some result => mret (Some result)
  | None => computeInitialValues secondary query objects
  end.

Definition StagedSolver : SolverImpl S :=
  mkImpl staged_computeTruth staged_computeValidity staged_computeValue staged_computeInitialValues.
End staged_impl.

(** ** [class DummySolverImpl] *)

Definition DummySolver : SolverImpl S :=
  mkImpl (λ _, mret None) (λ _, mret None) (λ _, mret None) (λ _ _, mret None).
End staged.

(** ** Contracts *)

Section staged_correct.
Context `{APIntLaws} `{WfStore} `{ObjectIdentity} `{Options} `{QueryClass}.

Definition partial_ok (q : Query) (pv : PartialValidity) : Prop :=
  match pv with
  | MustBeTrue => valid q
  | MustBeFalse => refuted q
  | MayBeTrue => may_be q 1
  | MayBeFalse => may_be q 0
  | TrueOrFalse => may_be q 0 ∧ may_be q 1
  | PVNone => True
  end.

(** [computeTruth] only says whether the query is valid: an answer other than
    [MustBeTrue] and [None] means that it is not. *)
Definition partial_truth_ok (q : Query) (pv : PartialValidity) : Prop :=
  partial_ok q pv ∧ pv ≠ MayBeTrue.

Definition returns {S A} (m : M S A) (Inv : S → Prop) (P : A → Prop) : Prop :=
  ∀ s, Inv s → runs m s (λ a s', Inv s' ∧ P a).

(** The contract of an incomplete solver, which may always fail. *)
Record incomplete_sound {S} (impl : IncompleteSolver S) (Inv : S → Prop) : Prop := {
  inc_sound_truth q :
    wf_query q → returns (inc_computeTruth impl q) Inv (partial_truth_ok q);
  inc_sound_validity q :
    wf_query q → returns (inc_computeValidity impl q) Inv (partial_ok q);
  inc_sound_value q :
    wf_value_query q →
    answers True (inc_computeValue impl q) Inv (λ e,
      ∃ ρ, models (constraints q) ρ ∧ e = const (eval ρ (query_expr q)) (getWidth (query_expr q)));
  inc_sound_initial q objects :
    wf_query q →
    answers True (inc_computeInitialValues impl q objects) Inv (λ res,
      match res with None => valid q | Some values => counterexample q objects values end);
}.

Lemma returns_bind {S A B} (m : M S A) (k : A → M S B) Inv P Q :
  returns m Inv P → (∀ a, P a → returns (k a) Inv Q) → returns (a ← m; k a) Inv Q.
Proof.
  intros Hm Hk s Hs. apply runs_bind. eapply runs_mono; [by apply Hm|].
  intros a s' [Hs' HP]. by apply Hk.
Qed.

Lemma returns_ret {S A} (a : A) (Inv : S → Prop) (P : A → Prop) : P a → returns (mret a) Inv P.
Proof. intros Ha s Hs. by apply runs_ret. Qed.

Lemma returns_lift {S A B} (o : outcome A) (k : A → M S B) Inv P :
  o ⇓ (λ a, returns (k a) Inv P) → returns (a ← lift o; k a) Inv P.
Proof.
  intros Ho s Hs. apply runs_bind, runs_lift. eapply yields_mono; [exact Ho|]. intros a Ha. by apply Ha.
Qed.

Lemma returns_answers {S A B} fail (m : M S A) (k : A → M S (option B)) Inv P Q :
  returns m Inv P → (∀ a, P a → answers fail (k a) Inv Q) → answers fail (a ← m; k a) Inv Q.
Proof. apply returns_bind. Qed.

(** An answer other than [MustBeTrue] and [None] rules validity out. *)
Lemma partial_truth_not q pv :
  wf_query q → partial_truth_ok q pv → pv ≠ MustBeTrue → pv ≠ PVNone → may_be q 0.
Proof.
  intros Hq [Hpv Hne] ??. destruct pv; cbn in Hpv; try done; [by apply refuted_may_be|by apply Hpv].
Qed.

Lemma default_partialValidity_ok {S} (truth : Query → M S PartialValidity) Inv q :
  (∀ q, wf_query q → returns (truth q) Inv (partial_truth_ok q)) →
  wf_query q → returns (default_partialValidity truth q) Inv (partial_ok q).
Proof.
  intros Htruth Hq. eapply returns_bind; [by apply Htruth|]. intros t Ht.
  case_bool_decide as Hmt; [subst; apply returns_ret, Ht|].
  apply returns_lift. eapply yields_mono; [by apply negateExpr_ok|]. intros nq Hn.
  eapply returns_bind; [apply Htruth, Hn|]. intros f Hf.
  case_bool_decide as Hmf; [subst; apply returns_ret; by eapply negation_valid, Hf|].
  assert (f ≠ PVNone → may_be q 1) as Hone.
  { intros Hne. apply (negation_may_be q nq 0 Hn). eapply partial_truth_not; [apply Hn|done..]. }
  apply returns_ret. repeat case_bool_decide; cbn; try done; eauto using partial_truth_not.
Qed.

Lemma StagedSolver_sound {S} fail primary secondary (Inv : S → Prop) :
  incomplete_sound primary Inv → sound fail secondary Inv →
  sound fail (StagedSolver primary secondary) Inv.
Proof.
  intros Hp Hs. split.
  - intros q Hq. eapply returns_answers; [by apply (inc_sound_truth _ _ Hp)|]. intros pv Hpv.
    case_bool_decide; [|by apply Hs]. apply answers_ret. case_bool_decide; [by subst; apply Hpv|].
    by eapply partial_truth_not.
  - intros q Hq. eapply returns_answers; [by apply (inc_sound_validity _ _ Hp)|]. intros pv Hpv.
    destruct pv; try by apply answers_ret.
    + eapply on_success_ok; [by apply Hs|]. intros [] Hb; by apply answers_ret.
    + apply answers_lift. eapply yields_mono; [by apply negateExpr_ok|]. intros nq Hn.
      eapply on_success_ok; [apply Hs, Hn|]. intros [] Hb; apply answers_ret.
      * by eapply negation_valid.
      * split; [done|]. by apply (negation_may_be q nq 0).
    + by apply Hs.
  - intros q Hq s Hi. apply runs_bind.
    eapply runs_mono; [by apply (inc_sound_value _ _ Hp)|]. intros [e|] s' [Hi' He]; [by apply runs_ret|].
    by apply Hs.
  - intros q objects Hq s Hi. apply runs_bind.
    eapply runs_mono; [by apply (inc_sound_initial _ _ Hp)|]. intros [e|] s' [Hi' He]; [by apply runs_ret|].
    by apply Hs.
Qed.

(** C27: An incomplete solver with the default [computeValidity] in front of a
    solver that meets the contract is a solver that meets the contract: the
    staged solver answers correctly on every branch, asks the second solver about
    the negation where needed, and fails only when the second solver does. *)
Theorem staged_solver_correct {S} fail (primary : IncompleteSolver S) secondary Inv :
  (∀ q, wf_query q → returns (inc_computeTruth primary q) Inv (partial_truth_ok q)) →
  (∀ q, inc_computeValidity primary q = default_partialValidity (inc_computeTruth primary) q) →
  (∀ q, wf_value_query q → answers True (inc_computeValue primary q) Inv (λ e,
    ∃ ρ, models (constraints q) ρ ∧ e = const (eval ρ (query_expr q)) (getWidth (query_expr q)))) →
  (∀ q objects, wf_query q → answers True (inc_computeInitialValues primary q objects) Inv (λ res,
    match res with None => valid q | Some values => counterexample q objects values end)) →
  sound fail secondary Inv →
  sound fail (StagedSolver primary secondary) Inv.
Proof.
  intros Ht Hd Hv Hi. apply StagedSolver_sound. split; [done| |done..].
  intros q Hq. rewrite Hd. by apply default_partialValidity_ok.
Qed.
End staged_correct.

Section zeros.
Context `{APIntLaws} `{WfStore} `{ObjectIdentity} `{Options} `{QueryClass}.

(** An incomplete solver that only tries the assignment of zeros. *)
Definition try_zeros {S} (q : Query) : M S PartialValidity :=
  mret (if holds (constraints q) (query_expr q) 0 (λ _ _, 0) then MayBeFalse else PVNone).

Definition zeros_solver S : IncompleteSolver S :=
  mkIncomplete S (default_partialValidity try_zeros) try_zeros (λ _, mret None) (λ _ _, mret None).

Lemma try_zeros_ok {S} (Inv : S → Prop) q : returns (try_zeros q) Inv (partial_truth_ok q).
Proof.
  apply returns_ret. unfold holds. case_step; [|done]. unbool. split; [|done].
  exists (λ _ _, 0). split; [split; [done|]|done]. intros c Hc%list_elem_of_In.
  apply Z.eqb_eq. revert c Hc. by apply forallb_forall.
Qed.

Lemma zeros_solver_sound {S} (Inv : S → Prop) : incomplete_sound (zeros_solver S) Inv.
Proof.
  split.
  - intros q _. apply try_zeros_ok.
  - intros q. apply default_partialValidity_ok. intros q' _. apply try_zeros_ok.
  - intros q _ s Hs. by apply runs_ret.
  - intros q objects _ s Hs. by apply runs_ret.
Qed.

End zeros.

Section witnesses.
#[local] Existing Instance Sample.store.
#[local] Existing Instance Sample.store_wf.
#[local] Existing Instance identity.
#[local] Instance opt_on : Options := const_array_opt true.
#[local] Instance in_range : QueryClass := {| in_range_only := true; computable_only := false; buildable_only := false |}.

Lemma staged_solver_correct_witness :
  sound False (StagedSolver (zeros_solver unit) reference_solver) (λ _, True).
Proof.
  apply (staged_solver_correct False (zeros_solver unit) reference_solver (λ _, True)).
  - intros q _. apply try_zeros_ok.
  - done.
  - intros q _ s _. by apply runs_ret.
  - intros q objects _ s _. by apply runs_ret.
  - apply reference_solver_sound.
Defined.
End witnesses.
