(* ===== verification/ValidatingSolver.v ===== *)
(** * The validating solver of [lib/Solver/Solver.cpp]

    It asks a solver and an oracle, and votes on the answers.  [rand] is the
    function of the C library; both solvers and the generator work on the state
    [S]. *)

From stdpp Require Import prelude.
From S2P Require Import Prelude Bitvec APInt ExprData ExprConstants ExprCasts ExprBinary.
From S2P Require Import ExprBinaryProofs ExprSelectRead Constraints Solver ReferenceSolver.
From S2P Require Import SolverProofs StagedSolver.

Definition VOTE_COUNT : nat := 3.

Section validating.
Context `{APIntOps} `{ArrayStore} `{ObjectIdentity} `{Options} {S : Type}.
Context (solver oracle : SolverImpl S) (rand : M S Z).

(** One round of [computeTruth] *)
Definition truth_round (query : Query) : M S (option bool) :=
  on_success (computeTruth oracle query) (λ res1,
  on_success (computeTruth solver query) (λ res2,
    if Bool.eqb res1 res2 then mret (Some res1)
    else r ← rand; mret (Some (if Z.land r 1 =? 0 then res2 else res1)))).

Fixpoint truth_votes (n : nat) (query : Query) (trueCount falseCount : nat) : M S (option bool) :=
  match n with
  | O => mret (Some (falseCount <? trueCount)%nat)
  | Datatypes.S n =>
      on_success (truth_round query) (λ result,
        if (result : bool) then truth_votes n query (1 + trueCount) falseCount
        else truth_votes n query trueCount (1 + falseCount))
  end.

(** [ValidatingSolver::computeTruth] *)
Definition validating_computeTruth (query : Query) : M S (option bool) :=
  truth_votes VOTE_COUNT query 0 0.

(** One round of [computeValidity]; the oracle is asked, and its answer ignored. *)
Definition validity_round (query : Query) : M S (option Validity) :=
  on_success (computeValidity solver query) (λ res1,
  on_success (computeValidity oracle query) (λ _, mret (Some res1))).

Definition count_validity (trueCount falseCount unknownCount : nat) : outcome Validity :=
  if ((falseCount <? trueCount) && (unknownCount <=? falseCount))%nat then Done VTrue
  else if ((unknownCount <? trueCount) && (falseCount <=? unknownCount))%nat then Done VTrue
  else if ((trueCount <? falseCount) && (unknownCount <=? trueCount))%nat then Done VFalse
  else if ((unknownCount <? falseCount) && (trueCount <=? unknownCount))%nat then Done VFalse
  else if ((falseCount <? unknownCount) && (trueCount <=? falseCount))%nat then Done VUnknown
  else if ((trueCount <? unknownCount) && (falseCount <=? trueCount))%nat then Done VUnknown
  else AssertFailed.

Fixpoint validity_votes (n : nat) (query : Query) (trueCount falseCount unknownCount : nat) :
    M S (option Validity) :=
  match n with
  | O => result ← lift (count_validity trueCount falseCount unknownCount); mret (Some result)
  | Datatypes.S n =>
      on_success (validity_round query) (λ result,
        match result with
        | VTrue => validity_votes n query (1 + trueCount) falseCount unknownCount
        | VFalse => validity_votes n query trueCount (1 + falseCount) unknownCount
        | VUnknown => validity_votes n query trueCount falseCount (1 + unknownCount)
        end)
  end.

(** [ValidatingSolver::computeValidity] *)
Definition validating_computeValidity (query : Query) : M S (option Validity) :=
  validity_votes VOTE_COUNT query 0 0 0.

(** [ValidatingSolver::computeValue] *)
Definition validating_computeValue (query : Query) : M S (option Expr) :=
  on_success (computeValue solver query) (λ result,
    ne ← lift (Binary_create Ne (query_expr query) result);
    on_success (computeTruth oracle (withExpr query ne)) (λ answer,
      _ ← lift (cassert (negb answer));
      mret (Some result))).

(** The byte [j] of [array] is that of [value]. *)
Definition binding (array : Array) (value : bytes) (j : nat) : outcome Expr :=
  match value !! j with
  | None => AssertFailed
  | Some v =>
      r ← ReadExpr_create (mkUpdateList array NullNode) (Constant (alloc (Z.of_nat j) Int32));
      Binary_create Eq r (Constant (alloc v Int8))
  end.

Fixpoint bindings_of (objects : list Array) (values : list bytes) : outcome (list Expr) :=
  match objects, values with
  | array :: objects, value :: values =>
      bs ← foldr (λ j m, b ← binding array value j; bs ← m; Done (b :: bs)) (Done [])
        (seq 0 (Z.to_nat (array_size (deref array))));
      rest ← bindings_of objects values;
      Done (bs ++ rest)
  | _, [] => Done []
  | [], _ => AssertFailed
  end.

(** [ValidatingSolver::computeInitialValues] *)
Definition validating_computeInitialValues (query : Query) (objects : list Array) :
    M S (option (option (list bytes))) :=
  on_success (computeInitialValues solver query objects) (λ result,
    match result with
    | Some values =>
        bindings ← lift (bindings_of objects values);
        tmp ← lift (manager_constraints bindings);
        negated ← lift (createIsZero (query_expr query));
        constraints ← lift (foldl (λ m c, e ← m; Binary_create And e c) (Done negated)
          (constraints query));
        on_success (computeTruth oracle (mkQuery tmp constraints)) (λ answer,
          _ ← lift (cassert answer);
          mret (Some result))
    | None =>
        on_success (computeTruth oracle query) (λ answer,
          _ ← lift (cassert answer);
          mret (Some result))
    end).

Definition ValidatingSolver : SolverImpl S :=
  mkImpl validating_computeTruth validating_computeValidity validating_computeValue
    validating_computeInitialValues.
End validating.

Section validating_correct.
Context `{APIntLaws} `{WfStore} `{ObjectIdentity} `{Options} `{QueryClass} {S : Type}.
Context (solver oracle : SolverImpl S) (rand : M S Z) (fail : Prop) (Inv : S → Prop).
Context (Hsolver : sound fail solver Inv) (Horacle : sound fail oracle Inv).

Lemma truth_ok_fun q b b' : wf_query q → truth_ok q b → truth_ok q b' → b = b'.
Proof.
  intros Hq Hb Hb'. destruct b, b'; try done; cbn in *;
    [destruct Hb' as (ρ & Hρ & He)|destruct Hb as (ρ & Hρ & He)];
    [specialize (Hb ρ Hρ)|specialize (Hb' ρ Hρ)]; congruence.
Qed.

Lemma validity_ok_fun q v v' : wf_query q → validity_ok q v → validity_ok q v' → v = v'.
Proof.
  assert (valid q → may_be q 0 → False) as Hv by (intros Hv (ρ & Hρ & He); specialize (Hv ρ Hρ); congruence).
  assert (refuted q → may_be q 1 → False) as Hr by (intros Hr (ρ & Hρ & He); specialize (Hr ρ Hρ); congruence).
  intros Hq. pose proof (refuted_may_be q Hq).
  destruct v, v'; try done; cbn; intros; destruct_and?; exfalso; auto.
Qed.

Lemma truth_round_ok q : wf_query q → answers fail (truth_round solver oracle rand q) Inv (truth_ok q).
Proof.
  intros Hq. eapply on_success_ok; [by apply Horacle|]. intros b1 Hb1.
  eapply on_success_ok; [by apply Hsolver|]. intros b2 Hb2.
  rewrite <- (truth_ok_fun q b1 b2) by done. rewrite Bool.eqb_reflx. by apply answers_ret.
Qed.

(** Sound solvers agree in every round. *)
Lemma truth_votes_ok n q b t f :
  wf_query q → truth_ok q b →
  answers fail (truth_votes solver oracle rand n q t f) Inv (λ r,
    r = if b then (f <? n + t)%nat else (n + f <? t)%nat).
Proof.
  intros Hq Hb. revert t f. induction n as [|n IH]; intros t f; cbn [truth_votes].
  { apply answers_ret. by destruct b. }
  eapply on_success_ok; [by apply truth_round_ok|]. intros b' Hb'.
  rewrite (truth_ok_fun q b' b) by done. destruct b;
    (eapply answers_mono; [apply IH|done|]; cbn; intros r ->; by rewrite Nat.add_succ_r).
Qed.

Lemma validating_truth_ok q :
  wf_query q → answers fail (validating_computeTruth solver oracle rand q) Inv (truth_ok q).
Proof.
  intros Hq. eapply on_success_ok; [by apply truth_round_ok|]. intros b Hb.
  destruct b.
  - eapply answers_mono; [by apply (truth_votes_ok 2 q true 1 0)|done|by intros r ->].
  - eapply answers_mono; [by apply (truth_votes_ok 2 q false 0 1)|done|by intros r ->].
Qed.

Lemma validity_round_ok q :
  wf_query q → answers fail (validity_round solver oracle q) Inv (validity_ok q).
Proof.
  intros Hq. eapply on_success_ok; [by apply Hsolver|]. intros v Hv.
  eapply on_success_ok; [by apply Horacle|]. intros _ _. by apply answers_ret.
Qed.

Lemma validating_validity_ok q :
  wf_query q → answers fail (validating_computeValidity solver oracle q) Inv (validity_ok q).
Proof.
  intros Hq. eapply on_success_ok; [by apply validity_round_ok|]. intros v Hv.
  destruct v; (eapply on_success_ok; [by apply validity_round_ok|]; intros v' Hv';
    rewrite <- (validity_ok_fun q _ v' Hq Hv Hv');
    eapply on_success_ok; [by apply validity_round_ok|]; intros v'' Hv'';
    rewrite <- (validity_ok_fun q _ v'' Hq Hv Hv''); by apply answers_lift, yields_done, answers_ret).
Qed.

Lemma validating_value_ok q :
  (ConstArrayOpt = true → in_range_only = true) → wf_value_query q →
  answers fail (validating_computeValue solver oracle q) Inv (λ e,
    ∃ ρ, models (constraints q) ρ ∧ e = const (eval ρ (query_expr q)) (getWidth (query_expr q))).
Proof.
  intros Hrange Hq. eapply on_success_ok; [by apply Hsolver|]. intros e (ρ & Hρ & ->).
  destruct Hq as (Hcs & Hsat & He & Hreg). apply answers_lift.
  set (w := getWidth (query_expr q)). set (v := eval ρ (query_expr q)).
  assert (wf (const v w)) by (apply wf_const; [by apply wf_width|apply eval_bounded; [apply Hρ|done]]).
  eapply yields_mono; [by apply Binary_create_ok|]. intros ne Hb. pose proof Hb as [? Hwne _ Hv _].
  assert (wf_query (withExpr q ne)) as Hne.
  { split; [|done]. split_and!; [done..|]. by eapply built_regular; [exact Hb|..|apply regular_const]. }
  eapply on_success_ok; [by apply Horacle|]. intros answer Ha.
  apply answers_assert; [|apply answers_ret; by exists ρ].
  destruct answer; [|done]. specialize (Ha ρ Hρ). cbn in Ha. rewrite Hv in Ha.
  - cbn in Ha. by rewrite Z.eqb_refl in Ha.
  - apply Hρ.
  - intros (_ & _ & ?). split; [|done]. apply Hreg; [apply Hρ|auto].
  - done.
Qed.

Lemma lift_Done {A B} (o : outcome A) (k : A → M S B) s x :
  (a ← lift o; k a) s = Done x → ∃ a, k a s = Done x.
Proof. unfold mbind, M_bind, lift. destruct o; cbn; [eauto|done..]. Qed.

Lemma on_success_Done {A B} (m : M S (option A)) (k : A → M S (option B)) s b s' :
  on_success m k s = Done (Some b, s') → ∃ a s1, m s = Done (Some a, s1) ∧ k a s1 = Done (Some b, s').
Proof.
  unfold on_success, mbind, M_bind. destruct (m s) as [[[a|] s1]| |]; cbn; try done. eauto.
Qed.

(** Initial values that pass the check by the oracle are right. *)
Lemma validating_initial_ok q objects s r s' :
  wf_query q → Inv s →
  validating_computeInitialValues solver oracle q objects s = Done (Some r, s') →
  match r with None => valid q | Some values => counterexample q objects values end.
Proof.
  intros Hq Hs (a & s1 & Ha & Hk)%on_success_Done.
  assert (r = a) as ->.
  { destruct a; repeat (apply lift_Done in Hk as [? Hk]);
      apply on_success_Done in Hk as (? & ? & _ & Hk); by apply lift_Done in Hk as [_ [= ? _]]. }
  pose proof (sound_initial _ _ _ Hsolver q objects Hq s Hs) as Hr.
  apply runs_inv in Hr as (? & ? & Heq & _ & Hr). rewrite Ha in Heq. by simplify_eq.
Qed.

(** When the solver and the oracle both meet the contract, so does the
    validating solver for [computeTruth], [computeValidity] and [computeValue]:
    the votes agree, so no assertion fails and the random choice is never made.
    The initial values it returns are right too; it may assert instead of
    returning, since the objects need not determine the constraints. *)
Theorem validating_solver_correct :
  (ConstArrayOpt = true → in_range_only = true) →
  (∀ q, wf_query q →
    answers fail (computeTruth (ValidatingSolver solver oracle rand) q) Inv (truth_ok q) ∧
    answers fail (computeValidity (ValidatingSolver solver oracle rand) q) Inv (validity_ok q)) ∧
  (∀ q, wf_value_query q →
    answers fail (computeValue (ValidatingSolver solver oracle rand) q) Inv (λ e,
      ∃ ρ, models (constraints q) ρ ∧ e = const (eval ρ (query_expr q)) (getWidth (query_expr q)))) ∧
  (∀ q objects s r s', wf_query q → Inv s →
    computeInitialValues (ValidatingSolver solver oracle rand) q objects s = Done (Some r, s') →
    match r with None => valid q | Some values => counterexample q objects values end).
Proof.
  intros Hrange. split_and!.
  - intros q Hq. split; [by apply validating_truth_ok|by apply validating_validity_ok].
  - intros q Hq. by apply validating_value_ok.
  - intros *. apply validating_initial_ok.
Qed.
End validating_correct.

Section witnesses.
#[local] Existing Instance Sample.store.
#[local] Existing Instance Sample.store_wf.
#[local] Existing Instance identity.
#[local] Instance opt_on : Options := const_array_opt true.
#[local] Instance in_range : QueryClass := {| in_range_only := true; computable_only := false; buildable_only := false |}.
Import Sample.

Lemma validating_solver_correct_witness :
  let q := mkQuery [Binary Ult (input 0) (const 10 8)] (Binary Ult (input 0) (const 20 8)) in
  answers False (computeTruth (ValidatingSolver reference_solver reference_solver (mret 1)) q)
    (λ _, True) (truth_ok q).
Proof.
  intros q. refine (proj1 (proj1 (validating_solver_correct reference_solver reference_solver (mret 1)
    False (λ _, True) reference_solver_sound reference_solver_sound (λ _, eq_refl)) q _)).
  split; [|done]. split_and!; [repeat constructor; done| |repeat constructor; done..].
  exists (λ _ _, 0). split; [done|]. by intros c ->%list_elem_of_singleton.
Defined.

(** A solver that answers [b] to every question of truth. *)
Definition stubborn (b : bool) : SolverImpl unit :=
  mkImpl (λ _, mret (Some b)) (λ _, mret (Some (if b then VTrue else VUnknown))) (λ _, mret None)
    (λ _ _, mret None).

(** Solvers that disagree go unnoticed: the answer is the random one, or that of
    the solver under validation. *)
Theorem disagreement_unnoticed :
  let q := mkQuery [] (Binary Ult (input 0) (const 20 8)) in
  computeTruth (ValidatingSolver (stubborn true) (stubborn false) (mret 0)) q tt =
    Done (Some true, tt) ∧
  computeTruth (ValidatingSolver (stubborn true) (stubborn false) (mret 1)) q tt =
    Done (Some false, tt) ∧
  computeValidity (ValidatingSolver (stubborn true) (stubborn false) (mret 1)) q tt =
    Done (Some VTrue, tt).
Proof. repeat split. Qed.
End witnesses.
