(* ===== verification/CachingSolver.v ===== *)
(** * The query cache: [lib/Solver/CachingSolver.cpp]

    The cache maps the constraints and a canonical form of the expression to a
    partial validity.  Constraint managers are compared by the addresses of their
    root and head, which determine the constraints but not the other way round:
    [same_manager] is that comparison. *)

From stdpp Require Import prelude.
From S2P Require Import Prelude Bitvec APInt ExprData ExprConstants ExprCasts ExprBinary.
From S2P Require Import ExprBinaryProofs ExprSelectRead Solver ReferenceSolver SolverProofs.
From S2P Require Import StagedSolver.

(** [ConstraintManager::operator==]; see [condition_tree_canonical]. *)
Class ManagerIdentity : Set := {
  same_manager : list Expr → list Expr → bool;
  same_manager_eq cs cs' : same_manager cs cs' = true → cs = cs';
}.

(** [struct CacheEntry] *)
Record CacheEntry : Set := mkEntry { ce_constraints : list Expr; ce_query : Expr }.

(** [cache_map], whose keys are different *)
Definition cache_map : Set := list (CacheEntry * PartialValidity).

Section caching.
Context `{APIntOps} `{ArrayStore} `{ObjectIdentity} `{Options} `{ManagerIdentity}.

(** [CacheEntry::operator==] *)
Definition same_entry (a b : CacheEntry) : bool :=
  same_manager (ce_constraints a) (ce_constraints b) && eqE (ce_query a) (ce_query b).

(** [cache.find(ce)] *)
Fixpoint cache_find (cache : cache_map) (ce : CacheEntry) : option PartialValidity :=
  match cache with
  | [] => None
  | (ce', pv) :: cache => if same_entry ce' ce then Some pv else cache_find cache ce
  end.

(** [cache.insert(std::make_pair(ce, pv))], which keeps an entry that is there *)
Definition cache_insert (cache : cache_map) (ce : CacheEntry) (pv : PartialValidity) : cache_map :=
  match cache_find cache ce with Some _ => cache | None => (ce, pv) :: cache end.

(** [CachingSolver::canonicalizeQuery], with [negationUsed] *)
Definition canonicalizeQuery (originalQuery : Expr) : outcome (Expr * bool) :=
  negatedQuery ← createIsZero originalQuery;
  Done (if compare originalQuery negatedQuery <? 0 then (originalQuery, false)
        else (negatedQuery, true)).

(** [CachingSolver::cacheLookup] *)
Definition cacheLookup (cache : cache_map) (query : Query) : outcome (option PartialValidity) :=
  '(canonicalQuery, negationUsed) ← canonicalizeQuery (query_expr query);
  match cache_find cache (mkEntry (constraints query) canonicalQuery) with
  | Some pv =>
      result ← (if (negationUsed : bool) then negatePartialValidity pv else Done pv);
      Done (Some result)
  | None => Done None
  end.

(** [CachingSolver::cacheInsert] *)
Definition cacheInsert (cache : cache_map) (query : Query) (result : PartialValidity) :
    outcome cache_map :=
  '(canonicalQuery, negationUsed) ← canonicalizeQuery (query_expr query);
  cachedResult ← (if (negationUsed : bool) then negatePartialValidity result else Done result);
  Done (cache_insert cache (mkEntry (constraints query) canonicalQuery) cachedResult).

Section caching_impl.
Context {S : Type} (solver : SolverImpl S).

(** A call of the wrapped solver, which does not touch the cache. *)
Definition inner {C A} (m : M S A) : M (C * S) A := λ '(c, s), '(a, s') ← m s; Done (a, (c, s')).

Definition lookup_query (query : Query) : M (cache_map * S) (option PartialValidity) :=
  λ '(cache, s), result ← cacheLookup cache query; Done (result, (cache, s)).

Definition insert_query (query : Query) (pv : PartialValidity) : M (cache_map * S) unit :=
  λ '(cache, s), cache' ← cacheInsert cache query pv; Done (tt, (cache', s)).

(** [CachingSolver::computeValidity] *)
Definition caching_computeValidity (query : Query) : M (cache_map * S) (option Validity) :=
  hit ← lookup_query query;
  match hit with
  | Some MustBeTrue => mret (Some VTrue)
  | Some MustBeFalse => mret (Some VFalse)
  | Some TrueOrFalse => mret (Some VUnknown)
  | Some MayBeTrue =>
      on_success (inner (computeTruth solver query)) (λ tmp,
        if (tmp : bool) then _ ← insert_query query MustBeTrue; mret (Some VTrue)
        else _ ← insert_query query TrueOrFalse; mret (Some VUnknown))
  | Some MayBeFalse =>
      nq ← lift (negateExpr query);
      on_success (inner (computeTruth solver nq)) (λ tmp,
        if (tmp : bool) then _ ← insert_query query MustBeFalse; mret (Some VFalse)
        else _ ← insert_query query TrueOrFalse; mret (Some VUnknown))
  | Some PVNone => lift AssertFailed
  | None =>
      on_success (inner (computeValidity solver query)) (λ result,
        _ ← insert_query query
          (match result with VTrue => MustBeTrue | VFalse => MustBeFalse | VUnknown => TrueOrFalse end);
        mret (Some result))
  end.

(** [CachingSolver::computeTruth] *)
Definition caching_computeTruth (query : Query) : M (cache_map * S) (option bool) :=
  hit ← lookup_query query;
  match hit with
  | Some ((MustBeTrue | MustBeFalse | MayBeFalse | TrueOrFalse | PVNone) as cachedResult) =>
      mret (Some (bool_decide (cachedResult = MustBeTrue)))
  | _ =>
      on_success (inner (computeTruth solver query)) (λ isValid,
        cachedResult ←
          (if (isValid : bool) then mret MustBeTrue
           else match hit with
           | Some pv => _ ← lift (cassert (bool_decide (pv = MayBeTrue))); mret TrueOrFalse
           | None => mret MayBeFalse
           end);
        _ ← insert_query query cachedResult;
        mret (Some isValid))
  end.

Definition CachingSolver : SolverImpl (cache_map * S) :=
  mkImpl caching_computeTruth caching_computeValidity
    (λ query, inner (computeValue solver query))
    (λ query objects, inner (computeInitialValues solver query objects)).
End caching_impl.
End caching.

Section caching_correct.
Context `{APIntLaws} `{WfStore} `{ObjectIdentity} `{Options} `{QueryClass} `{ManagerIdentity}.

(** Every entry of the cache is true. *)
Definition cache_ok (cache : cache_map) : Prop :=
  Forall (λ '(ce, pv), pv ≠ PVNone ∧ partial_ok (mkQuery (ce_constraints ce) (ce_query ce)) pv) cache.

Lemma cache_find_ok cache cs e pv :
  cache_ok cache → cache_find cache (mkEntry cs e) = Some pv → pv ≠ PVNone ∧ partial_ok (mkQuery cs e) pv.
Proof.
  intros Hc. induction Hc as [|[[cs' e'] pv'] cache Hhd _ IH]; [done|]. cbn. case_step; [|done].
  unfold same_entry in *. unbool. intros [= ->]. cbn in *.
  revert select (same_manager _ _ = true). intros ->%same_manager_eq.
  revert select (eqE _ _ = true). by intros ->%eqE_eq.
Qed.

Lemma cache_insert_ok cache cs e pv :
  cache_ok cache → pv ≠ PVNone → partial_ok (mkQuery cs e) pv →
  cache_ok (cache_insert cache (mkEntry cs e) pv).
Proof. intros. unfold cache_insert. case_step; [done|]. by constructor. Qed.

Lemma negatePartialValidity_ok q nq pv :
  negation_of q nq → pv ≠ PVNone → partial_ok nq pv →
  negatePartialValidity pv ⇓ λ pv', pv' ≠ PVNone ∧ partial_ok q pv'.
Proof.
  intros Hn Hpv Hok. pose proof (negation_may_be q nq 0 Hn) as Hm0.
  pose proof (negation_may_be q nq 1 Hn) as Hm1.
  destruct pv; try done; cbn in *; (split; [done|]); eauto using negation_valid, negation_refuted.
  split; [apply Hm1, Hok|apply Hm0, Hok].
Qed.

(** The canonical form is the query or its negation. *)
Lemma canonicalizeQuery_ok q :
  wf_query q →
  canonicalizeQuery (query_expr q) ⇓ λ '(e, negated),
    if negated : bool then negation_of q (mkQuery (constraints q) e) else e = query_expr q.
Proof.
  intros Hq. pose proof (negateExpr_ok q Hq) as Hn. unfold negateExpr in Hn. unfold canonicalizeQuery.
  destruct (createIsZero (query_expr q)) as [e| |]; try done. ystep. apply yields_done.
  by destruct (compare _ _ <? 0).
Qed.

Lemma cacheLookup_ok cache q :
  wf_query q → cache_ok cache →
  cacheLookup cache q ⇓ λ hit, ∀ pv, hit = Some pv → pv ≠ PVNone ∧ partial_ok q pv.
Proof.
  intros Hq Hc. unfold cacheLookup. ystep. eapply yields_mono; [by apply canonicalizeQuery_ok|].
  intros [e negated] He. destruct (cache_find _ _) as [pv|] eqn:Ef; [|by apply yields_done].
  apply cache_find_ok in Ef as [Hne Hok]; [|done]. ystep. destruct negated.
  - eapply yields_mono; [by eapply negatePartialValidity_ok|]. intros pv' Hpv'. apply yields_done.
    by intros ? [= <-].
  - subst. apply yields_done. intros ? [= <-]. by destruct q.
Qed.

Lemma cacheInsert_ok cache q pv :
  wf_query q → cache_ok cache → pv ≠ PVNone → partial_ok q pv → cacheInsert cache q pv ⇓ cache_ok.
Proof.
  intros Hq Hc Hne Hok. unfold cacheInsert. ystep. eapply yields_mono; [by apply canonicalizeQuery_ok|].
  intros [e negated] He. ystep. destruct negated.
  - eapply yields_mono; [by eapply negatePartialValidity_ok; [apply negation_sym|..]|].
    intros pv' [? ?]. apply yields_done. by apply cache_insert_ok.
  - subst. apply yields_done, cache_insert_ok; [done..|]. by destruct q.
Qed.

Section caching_impl_correct.
Context {S : Type} (solver : SolverImpl S) (fail : Prop) (Inv : S → Prop).
Context (Hsolver : sound fail solver Inv).

(** The invariant of a solver that adds the state [C] *)
Definition with_inner {C} (J : C → Prop) (s : C * S) : Prop := J s.1 ∧ Inv s.2.

Definition caching_inv : cache_map * S → Prop := with_inner cache_ok.

Lemma inner_ok {A C} (m : M S (option A)) (J : C → Prop) P :
  answers fail m Inv P → answers fail (inner m) (with_inner J) P.
Proof.
  intros Hm [c s] [Hc Hs]. specialize (Hm s Hs). unfold runs, inner in *. cbn in *.
  destruct (m s) as [[a s']| |]; try done. cbn in *. by destruct Hm.
Qed.

Lemma lookup_query_ok q :
  wf_query q →
  returns (lookup_query q) caching_inv (λ hit, ∀ pv, hit = Some pv → pv ≠ PVNone ∧ partial_ok q pv).
Proof.
  intros Hq [c s] [Hc Hs]. cbn in *. pose proof (cacheLookup_ok c q Hq Hc) as Hl. unfold runs. cbn.
  by destruct (cacheLookup c q).
Qed.

Lemma insert_query_ok {A} q pv (a : A) (P : A → Prop) :
  wf_query q → pv ≠ PVNone → partial_ok q pv → P a →
  answers fail (_ ← insert_query q pv; mret (Some a)) caching_inv P.
Proof.
  intros Hq Hne Hok Ha [c s] [Hc Hs]. cbn in *. pose proof (cacheInsert_ok c q pv Hq Hc Hne Hok) as Hi.
  unfold runs, mbind, M_bind. cbn. by destruct (cacheInsert c q pv).
Qed.

Lemma caching_truth_ok q :
  wf_query q → answers fail (caching_computeTruth solver q) caching_inv (truth_ok q).
Proof.
  intros Hq. eapply returns_answers; [by apply lookup_query_ok|]. intros hit Hhit.
  destruct hit as [pv|].
  - destruct (Hhit pv eq_refl) as [Hne Hok]. destruct pv; cbn in Hok; try done;
      try (apply answers_ret; by apply Hok); try (apply answers_ret; by apply refuted_may_be).
    eapply on_success_ok; [by apply inner_ok, Hsolver|]. intros [] Hb; cbn in Hb.
    + by apply insert_query_ok.
    + apply (insert_query_ok q TrueOrFalse); done.
  - eapply on_success_ok; [by apply inner_ok, Hsolver|]. intros [] Hb; cbn in Hb.
    + by apply insert_query_ok.
    + by apply (insert_query_ok q MayBeFalse).
Qed.

Lemma caching_validity_ok q :
  wf_query q → answers fail (caching_computeValidity solver q) caching_inv (validity_ok q).
Proof.
  intros Hq. eapply returns_answers; [by apply lookup_query_ok|]. intros hit Hhit.
  destruct hit as [pv|].
  - destruct (Hhit pv eq_refl) as [Hne Hok]. destruct pv; cbn in Hok; try done;
      try (by apply answers_ret).
    + eapply on_success_ok; [by apply inner_ok, Hsolver|].
      intros [] Hb; by apply insert_query_ok.
    + apply answers_lift. eapply yields_mono; [by apply negateExpr_ok|]. intros nq Hn.
      eapply on_success_ok; [by apply inner_ok, Hsolver, Hn|]. intros [] Hb.
      * apply insert_query_ok; try done; by eapply negation_valid.
      * pose proof (negation_may_be q nq 0 Hn Hb). by apply insert_query_ok.
  - eapply on_success_ok; [by apply inner_ok, Hsolver|]. intros v Hv.
    apply insert_query_ok; try done; by destruct v.
Qed.

Lemma CachingSolver_sound :
  sound fail (CachingSolver solver) caching_inv ∧ ∀ s, Inv s → caching_inv ([], s).
Proof.
  split; [split|]; intros.
  - by apply caching_truth_ok.
  - by apply caching_validity_ok.
  - by apply inner_ok, Hsolver.
  - by apply inner_ok, Hsolver.
  - split; [constructor|done].
Qed.

(** C11: The query cache preserves the contract: as long as every entry of the
    cache is true, which holds of the empty cache, the caching solver answers
    correctly, whether the query or its negation is cached, keeps the entries
    true, and fails only when the wrapped solver does. *)
Theorem caching_solver_correct :
  sound fail (CachingSolver solver) caching_inv ∧ ∀ s, Inv s → caching_inv ([], s).
Proof. apply CachingSolver_sound. Qed.
End caching_impl_correct.
End caching_correct.

(** Managers compared by their constraints. *)
Definition structural_managers : ManagerIdentity := {|
  same_manager cs cs' := bool_decide (cs = cs');
  same_manager_eq cs cs' Heq := proj1 (bool_decide_eq_true (cs = cs')) Heq;
|}.

Section witnesses.
#[local] Existing Instance Sample.store.
#[local] Existing Instance Sample.store_wf.
#[local] Existing Instance identity.
#[local] Existing Instance structural_managers.
#[local] Instance opt_on : Options := const_array_opt true.
#[local] Instance in_range : QueryClass := {| in_range_only := true; computable_only := false; buildable_only := false |}.
Import Sample.

Lemma caching_solver_correct_witness :
  sound False (CachingSolver reference_solver) (caching_inv (λ _ : unit, True)).
Proof.
  exact (proj1 (caching_solver_correct reference_solver False (λ _, True) reference_solver_sound)).
Defined.

(** A solver that answers that nothing is valid, and counts the questions. *)
Definition counting : SolverImpl Z :=
  mkImpl (λ _ n, Done (Some false, n + 1)) (λ _ n, Done (Some VUnknown, n + 1))
    (λ _, mret None) (λ _ _, mret None).

(** An answer more precise than the cached one is not stored: the solver is
    asked again each time the validity of the query is needed. *)
Theorem cache_not_upgraded :
  let q := mkQuery [] (Binary Ult (input 0) (const 20 8)) in
  let solver := CachingSolver counting in
  ∃ cache,
    computeTruth solver q ([], 0) = Done (Some false, (cache, 1)) ∧
    computeValidity solver q (cache, 1) = Done (Some VUnknown, (cache, 2)) ∧
    computeValidity solver q (cache, 2) = Done (Some VUnknown, (cache, 3)).
Proof. eexists. split; [vm_compute; reflexivity|]. split; vm_compute; reflexivity. Qed.
End witnesses.
