(* ===== verification/IndependentSolver.v ===== *)
(** * Constraint independence: [lib/Solver/IndependentSolver.cpp]

    The solver only passes on the constraints that share bytes with the
    expression, directly or through other constraints. *)

From stdpp Require Import prelude gmap.
From S2P Require Import Prelude Bitvec APInt ExprData ExprConstants ExprCasts ExprBinary.
From S2P Require Import ExprBinaryProofs ExprSelectRead ExprVisitor ExprUtil Constraints Solver.
From S2P Require Import Footprint ReferenceSolver SolverProofs.

(** ** [class DenseSet] *)

Abbreviation DenseSet := (gset Z).

(** [DenseSet::add]: the set, and whether it changed *)
Definition dense_add (s b : DenseSet) : DenseSet * bool :=
  foldl (λ '(s, modified) x,
    if modified || negb (bool_decide (x ∈ s)) then ({[x]} ∪ s, true) else (s, modified))
    (s, false) (elements b).

Definition dense_intersects (s b : DenseSet) : bool :=
  existsb (λ x, bool_decide (x ∈ b)) (elements s).

(** ** [class IndependentElementSet] *)

Record IndependentElementSet : Set := mkIES {
  elts : gmap Array DenseSet;
  wholeObjects : gset Array;
}.

(** One read of the constructor *)
Definition add_read `{ArrayStore} (ies : IndependentElementSet) (re : Expr) :
    outcome IndependentElementSet :=
  match re with
  | Read array head index =>
      if negb (isSymbolicArray array) && (if head is NullNode then true else false) then Done ies
      else if bool_decide (array ∈ wholeObjects ies) then Done ies
      else match index with
      | Constant CE =>
          v ← getZExtValue CE 32;
          Done (mkIES (<[array := {[v]} ∪ default ∅ (elts ies !! array)]> (elts ies)) (wholeObjects ies))
      | _ => Done (mkIES (delete array (elts ies)) ({[array]} ∪ wholeObjects ies))
      end
  | _ => Done ies
  end.

(** [IndependentElementSet(ref<Expr>)] *)
Definition element_set `{APIntOps} `{ArrayStore} `{NodeIdentity} (e : Expr) :
    outcome IndependentElementSet :=
  reads ← findReads same_node e true;
  foldl (λ m re, ies ← m; add_read ies re) (Done (mkIES ∅ ∅)) reads.

(** [IndependentElementSet::intersects] *)
Definition intersects (x b : IndependentElementSet) : bool :=
  existsb (λ array, bool_decide (array ∈ wholeObjects b) || bool_decide (is_Some (elts b !! array)))
    (elements (wholeObjects x)) ||
  existsb (λ '(array, dis),
    bool_decide (array ∈ wholeObjects b) ||
    match elts b !! array with Some dis' => dense_intersects dis dis' | None => false end)
    (map_to_list (elts x)).

(** The first loop of [IndependentElementSet::add] *)
Definition add_whole (p : IndependentElementSet * bool) (array : Array) : IndependentElementSet * bool :=
  let '(x, modified) := p in
  match elts x !! array with
  | Some _ => (mkIES (delete array (elts x)) ({[array]} ∪ wholeObjects x), true)
  | None =>
      if bool_decide (array ∈ wholeObjects x) then (x, modified)
      else (mkIES (elts x) ({[array]} ∪ wholeObjects x), true)
  end.

(** The second one *)
Definition add_elements (p : IndependentElementSet * bool) (it : Array * DenseSet) :
    IndependentElementSet * bool :=
  let '(x, modified) := p in
  let '(array, dis) := it in
  if bool_decide (array ∈ wholeObjects x) then (x, modified)
  else match elts x !! array with
  | None => (mkIES (<[array := dis]> (elts x)) (wholeObjects x), true)
  | Some dis' =>
      let '(dis'', changed) := dense_add dis' dis in
      (mkIES (<[array := dis'']> (elts x)) (wholeObjects x), (changed || modified)%bool)
  end.

(** [IndependentElementSet::add]: the set, and whether it changed *)
Definition ies_add (x b : IndependentElementSet) : IndependentElementSet * bool :=
  foldl add_elements (foldl add_whole (x, false) (elements (wholeObjects b))) (map_to_list (elts b)).

(** ** [getIndependentConstraints] *)

Definition worklist_ty : Set := list (Expr * IndependentElementSet).

(** The body of the inner loop *)
Record pass_state : Set := mkPass {
  eltsClosure : IndependentElementSet;
  pass_done : bool;
  pass_result : list Expr;
  newWorklist : worklist_ty;
}.

Definition pass_step (st : pass_state) (it : Expr * IndependentElementSet) : pass_state :=
  let '(c, set) := it in
  if intersects set (eltsClosure st) then
    let '(closure, modified) := ies_add (eltsClosure st) set in
    mkPass closure (if modified : bool then false else pass_done st) (pass_result st ++ [c]) (newWorklist st)
  else mkPass (eltsClosure st) (pass_done st) (pass_result st) (newWorklist st ++ [it]).

(** The [do] loop; every round but the last removes a constraint of the
    worklist. *)
Fixpoint independent_loop (fuel : nat) (closure : IndependentElementSet) (worklist : worklist_ty)
    (result : list Expr) : outcome (IndependentElementSet * list Expr) :=
  match fuel with
  | O => OutOfFuel
  | S fuel =>
      let st := foldl pass_step (mkPass closure true result []) worklist in
      if pass_done st then Done (eltsClosure st, pass_result st)
      else independent_loop fuel (eltsClosure st) (newWorklist st) (pass_result st)
  end.

Section independent.
Context `{APIntOps} `{ArrayStore} `{ObjectIdentity} `{Options} `{NodeIdentity}.

(** [getIndependentConstraints]: the closure and the required constraints *)
Definition getIndependentConstraints (query : Query) : outcome (IndependentElementSet * list Expr) :=
  eltsClosure ← element_set (query_expr query);
  worklist ← foldr (λ c m, set ← element_set c; rest ← m; Done ((c, set) :: rest)) (Done [])
    (constraints query);
  independent_loop (S (length worklist)) eltsClosure worklist [].

(** The query on the required constraints *)
Definition required_query (query : Query) : outcome Query :=
  '(_, required) ← getIndependentConstraints query;
  tmp ← manager_constraints required;
  Done (mkQuery tmp (query_expr query)).

(** [class IndependentSolver] *)
Definition IndependentSolver {S} (solver : SolverImpl S) : SolverImpl S :=
  mkImpl
    (λ query, q ← lift (required_query query); computeTruth solver q)
    (λ query, q ← lift (required_query query); computeValidity solver q)
    (λ query, q ← lift (required_query query); computeValue solver q)
    (λ query objects, computeInitialValues solver query objects).
End independent.

(** ** What the element sets cover *)

Definition covers (ies : IndependentElementSet) (a : Array) (i : Z) : bool :=
  bool_decide (a ∈ wholeObjects ies) ||
  match elts ies !! a with Some s => bool_decide (i ∈ s) | None => false end.

Definition ies_le (x y : IndependentElementSet) : Prop :=
  ∀ a i, covers x a i = true → covers y a i = true.

Lemma covers_true ies a i :
  covers ies a i = true ↔ a ∈ wholeObjects ies ∨ ∃ s, elts ies !! a = Some s ∧ i ∈ s.
Proof.
  unfold covers. rewrite orb_true_iff, bool_decide_eq_true. apply or_iff_compat_l.
  destruct (elts ies !! a) as [s|]; [rewrite bool_decide_eq_true|]; split.
  - eauto.
  - by intros (? & [= <-] & ?).
  - done.
  - by intros (? & ? & _).
Qed.

Lemma dense_add_ok s b : (dense_add s b).1 = s ∪ b ∧ ((dense_add s b).2 = false → s ∪ b = s).
Proof.
  unfold dense_add.
  assert (∀ (l : list Z) (s : gset Z) m, let '(s', m') := foldl (λ '(s, modified) x,
    if modified || negb (bool_decide (x ∈ s)) then ({[x]} ∪ s, true) else (s, modified)) (s, m) l in
    s' = s ∪ list_to_set l ∧ (m' = false → m = false ∧ s' = s)) as Hfold.
  { clear. induction l as [|x l IH]; intros s m; cbn [foldl list_to_set].
    { split; [set_solver|done]. }
    destruct (m || negb (bool_decide (x ∈ s))) eqn:E.
    - specialize (IH ({[x]} ∪ s) true). destruct (foldl _ _ _) as [s' m']. destruct IH as [-> IH].
      split; [set_solver|]. intros Hm. by destruct (IH Hm).
    - unbool. specialize (IH s m). destruct (foldl _ _ _) as [s' m']. destruct IH as [-> IH].
      split; [|done]. revert select (negb _ = false). rewrite negb_false_iff, bool_decide_eq_true. set_solver. }
  specialize (Hfold (elements b) s false). destruct (foldl _ _ _) as [s' m']. cbn.
  rewrite list_to_set_elements_L in Hfold. destruct Hfold as [-> Hm]. split; [done|].
  intros Hf. by apply Hm.
Qed.

Lemma dense_intersects_false s b : dense_intersects s b = false → ∀ i, i ∈ s → i ∉ b.
Proof.
  intros Hf i Hs Hb. apply not_true_iff_false in Hf. apply Hf, existsb_exists. exists i.
  split; [by apply list_elem_of_In, elem_of_elements|by apply bool_decide_eq_true].
Qed.

(** Sets that do not intersect cover different bytes. *)
Lemma intersects_false x b :
  intersects x b = false → ∀ a i, covers x a i = true → covers b a i = false.
Proof.
  unfold intersects. rewrite orb_false_iff. intros [Hw He] a i Hx.
  apply not_true_iff_false in Hw, He. apply not_true_iff_false. rewrite covers_true in Hx |- *.
  intros Hb. destruct Hx as [Hx|(s & Hs & Hi)].
  - apply Hw, existsb_exists. exists a. split; [by apply list_elem_of_In, elem_of_elements|].
    apply orb_true_iff. rewrite !bool_decide_eq_true. destruct Hb as [?|(s & ? & _)]; [by left|right; eauto].
  - apply He, existsb_exists. exists (a, s).
    split; [by apply list_elem_of_In, elem_of_map_to_list|]. apply orb_true_iff.
    destruct Hb as [?|(s' & Hs' & Hi')]; [left; by apply bool_decide_eq_true|right]. rewrite Hs'.
    apply not_false_iff_true. intros Hd. by eapply dense_intersects_false in Hd.
Qed.

(** ** Adding a set *)

(** [p'] is [p] with more elements, and the flag tells whether it changed. *)
Definition added (p p' : IndependentElementSet * bool) : Prop :=
  ies_le p.1 p'.1 ∧ wholeObjects p.1 ⊆ wholeObjects p'.1 ∧ (p'.2 = false → p' = p).

Lemma added_refl p : added p p.
Proof. split_and!; [by intros a i|done|done]. Qed.

Lemma added_trans p1 p2 p3 : added p1 p2 → added p2 p3 → added p1 p3.
Proof.
  intros (Hle & Hw & Hm) (Hle' & Hw' & Hm'). split_and!.
  - intros a i Hc. by apply Hle', Hle.
  - by etrans.
  - intros Hf. specialize (Hm' Hf). subst. by apply Hm.
Qed.

Lemma ies_le_whole x y :
  wholeObjects x ⊆ wholeObjects y →
  (∀ a s, elts x !! a = Some s → a ∈ wholeObjects y ∨ ∃ s', elts y !! a = Some s' ∧ s ⊆ s') →
  ies_le x y.
Proof.
  intros Hw He a i. rewrite !covers_true. intros [Ha|(s & Hs & Hi)]; [left; by apply Hw|].
  destruct (He a s Hs) as [?|(s' & ? & Hss)]; [by left|right]. exists s'. split; [done|by apply Hss].
Qed.

Lemma add_whole_ok p a : added p (add_whole p a) ∧ a ∈ wholeObjects (add_whole p a).1.
Proof.
  destruct p as [x m]. unfold add_whole. destruct (elts x !! a) as [s|] eqn:Ea; cbn.
  - split; [split_and!; cbn; [|set_solver|done]|set_solver]. apply ies_le_whole; cbn; [set_solver|].
    intros b s' Hb. destruct (decide (b = a)) as [-> |]; [left; set_solver|right].
    exists s'. by rewrite lookup_delete_ne.
  - case_bool_decide; cbn; [split; [apply added_refl|done]|].
    split; [split_and!; cbn; [|set_solver|done]|set_solver].
    apply ies_le_whole; cbn; [set_solver|]. intros b s' Hb. right. eauto.
Qed.

Lemma add_elements_ok p a d :
  added p (add_elements p (a, d)) ∧ ∀ i, i ∈ d → covers (add_elements p (a, d)).1 a i = true.
Proof.
  destruct p as [x m]. unfold add_elements. case_bool_decide as Hw.
  { split; [apply added_refl|]. intros i Hi. apply covers_true. by left. }
  destruct (elts x !! a) as [s|] eqn:Ea.
  - pose proof (dense_add_ok s d) as [Hs Hm]. destruct (dense_add s d) as [s' c]. cbn in Hs, Hm. subst s'.
    split; [split_and!; cbn; [|done|]|].
    + apply ies_le_whole; cbn; [done|]. intros b s' Hb. right.
      destruct (decide (b = a)) as [-> |]; [|exists s'; by rewrite lookup_insert_ne].
      exists (s ∪ d). rewrite lookup_insert_eq. split; [done|]. simplify_eq. set_solver.
    + intros [-> ->]%orb_false_iff. rewrite Hm, insert_id by done. by destruct x.
    + intros i Hi. apply covers_true. right. exists (s ∪ d). cbn. rewrite lookup_insert_eq. set_solver.
  - split; [split_and!; cbn; [|done|done]|].
    + apply ies_le_whole; cbn; [done|]. intros b s' Hb. right. exists s'.
      rewrite lookup_insert_ne; [done|]. congruence.
    + intros i Hi. apply covers_true. right. exists d. cbn. by rewrite lookup_insert_eq.
Qed.

Lemma ies_add_ok x b :
  added (x, false) (ies_add x b) ∧ ies_le b (ies_add x b).1.
Proof.
  unfold ies_add. set (p := foldl add_whole (x, false) (elements (wholeObjects b))).
  assert (∀ l p, added p (foldl add_whole p l) ∧ ∀ a, a ∈ l → a ∈ wholeObjects (foldl add_whole p l).1) as Hw.
  { clear. induction l as [|a l IH]; intros p; cbn; [split; [apply added_refl|by intros ? ?%elem_of_nil]|].
    destruct (add_whole_ok p a) as [Hp Ha]. destruct (IH (add_whole p a)) as [Hl Hin].
    split; [by eapply added_trans|]. intros a' [-> |?]%elem_of_cons; [|auto]. by apply Hl. }
  assert (∀ l p, added p (foldl add_elements p l) ∧
    ∀ a d i, (a, d) ∈ l → i ∈ d → covers (foldl add_elements p l).1 a i = true) as He.
  { clear. induction l as [|[a d] l IH]; intros p; cbn; [split; [apply added_refl|by intros ??? ?%elem_of_nil]|].
    destruct (add_elements_ok p a d) as [Hp Ha]. destruct (IH (add_elements p (a, d))) as [Hl Hin].
    split; [by eapply added_trans|]. intros a' d' i [[= -> ->]|?]%elem_of_cons Hi; [|eauto].
    by apply Hl, Ha. }
  destruct (Hw (elements (wholeObjects b)) (x, false)) as [Hw1 Hw2]. fold p in Hw1, Hw2.
  destruct (He (map_to_list (elts b)) p) as [He1 He2]. split; [by eapply added_trans|].
  intros a i. rewrite covers_true. intros [Ha|(s & Hs & Hi)].
  - apply covers_true. left. apply He1, Hw2. by apply elem_of_elements.
  - eapply He2; [|done]. by apply elem_of_map_to_list.
Qed.

(** ** The closure *)

Section closure.
Context `{APIntOps} `{ArrayStore} `{NodeIdentity}.

(** The constraints are split into those found so far and the rest, and the
    closure covers the former. *)
Record pass_inv (e : IndependentElementSet) (all : list Expr) (st : pass_state) (rest : worklist_ty) :
    Prop := {
  pass_perm : pass_result st ++ (newWorklist st).*1 ++ rest.*1 ≡ₚ all;
  pass_start : ies_le e (eltsClosure st);
  pass_covered c :
    c ∈ pass_result st → ∃ set, element_set c = Done set ∧ ies_le set (eltsClosure st);
  pass_items it : it ∈ newWorklist st ++ rest → element_set it.1 = Done it.2;
}.

Lemma pass_step_inv e all st it rest :
  pass_inv e all st (it :: rest) → pass_inv e all (pass_step st it) rest.
Proof.
  intros [Hp Hs Hc Hi]. destruct it as [c set]. unfold pass_step.
  destruct (intersects set (eltsClosure st)).
  - destruct (ies_add_ok (eltsClosure st) set) as [(Hle & _) Hset].
    destruct (ies_add (eltsClosure st) set) as [closure m]. cbn in Hle, Hset.
    split; cbn.
    + rewrite <- Hp. cbn. rewrite <- app_assoc. cbn. by rewrite Permutation_middle.
    + intros a i ?. by apply Hle, Hs.
    + intros c' [Hc'| ->%list_elem_of_singleton]%elem_of_app.
      * destruct (Hc c' Hc') as (set' & ? & Hle'). exists set'. split; [done|]. intros a i ?. by apply Hle, Hle'.
      * exists set. split; [|done]. apply (Hi (c, set)). apply elem_of_app. right. by left.
    + intros it Hit. apply Hi. set_solver.
  - split; cbn; [|done..|].
    + rewrite <- Hp, fmap_app. cbn. by rewrite <- app_assoc.
    + intros it Hit. apply Hi. set_solver.
Qed.

Lemma pass_ok e all st wl :
  pass_inv e all st wl → pass_inv e all (foldl pass_step st wl) [].
Proof. revert st. induction wl as [|it wl IH]; intros st Hst; [done|]. by apply IH, pass_step_inv. Qed.

Lemma pass_done_mono wl st : pass_done (foldl pass_step st wl) = true → pass_done st = true.
Proof.
  revert st. induction wl as [|[c set] wl IH]; intros st Hd; [done|].
  specialize (IH _ Hd). revert IH. unfold pass_step. destruct (intersects set (eltsClosure st)); [|done].
  by destruct (ies_add _ _) as [? []].
Qed.

(** A round that is the last leaves the closure as it was, so that what remains
    does not intersect it. *)
Lemma pass_last wl st :
  pass_done (foldl pass_step st wl) = true →
  eltsClosure (foldl pass_step st wl) = eltsClosure st ∧
  ∀ it, it ∈ newWorklist (foldl pass_step st wl) →
    it ∈ newWorklist st ∨ intersects it.2 (eltsClosure st) = false.
Proof.
  revert st. induction wl as [|[c set] wl IH]; intros st Hd; cbn [foldl]; [eauto|].
  pose proof (pass_done_mono wl (pass_step st (c, set)) Hd) as Hd1.
  destruct (IH _ Hd) as [Hcl Hit]. revert Hcl Hit Hd1. clear IH Hd. generalize (foldl pass_step (pass_step st (c, set)) wl).
  intros st'. unfold pass_step. destruct (intersects set (eltsClosure st)) eqn:Ei.
  - destruct (ies_add_ok (eltsClosure st) set) as [(_ & _ & Hsame) _].
    destruct (ies_add (eltsClosure st) set) as [closure []]; cbn; [done|].
    specialize (Hsame eq_refl). simplify_eq. intros -> Hit _. split; [done|]. apply Hit.
  - cbn. intros -> Hit _. split; [done|]. intros it Hin. destruct (Hit it Hin) as [[?| ->%list_elem_of_singleton]%elem_of_app|?]; auto.
Qed.

Lemma pass_length wl st :
  (length (newWorklist (foldl pass_step st wl)) ≤ length (newWorklist st) + length wl)%nat ∧
  (pass_done st = true → pass_done (foldl pass_step st wl) = false →
    length (newWorklist (foldl pass_step st wl)) < length (newWorklist st) + length wl)%nat.
Proof.
  revert st. induction wl as [|[c set] wl IH]; intros st; cbn [foldl length]; [split; [lia|congruence]|].
  specialize (IH (pass_step st (c, set))). revert IH. generalize (foldl pass_step (pass_step st (c, set)) wl).
  intros st'. unfold pass_step. destruct (intersects set (eltsClosure st)).
  - destruct (ies_add (eltsClosure st) set) as [closure m]; cbn. intros [IH1 IH2]. split; [lia|]. lia.
  - cbn. rewrite length_app. cbn. intros [IH1 IH2]. split; [lia|]. intros Hd Hd'. specialize (IH2 Hd Hd'). lia.
Qed.

(** The result of [getIndependentConstraints]: the constraints are split in two,
    those required, which the closure covers, and others that the closure does
    not touch. *)
Definition separated (e : IndependentElementSet) (all : list Expr) (closure : IndependentElementSet)
    (required : list Expr) : Prop :=
  ies_le e closure ∧
  (∀ c, c ∈ required → ∃ set, element_set c = Done set ∧ ies_le set closure) ∧
  ∃ others, required ++ others ≡ₚ all ∧
    ∀ c, c ∈ others → ∃ set, element_set c = Done set ∧
      ∀ a i, covers set a i = true → covers closure a i = false.

Lemma independent_loop_ok e all fuel closure wl result :
  pass_inv e all (mkPass closure true result []) wl → (length wl < fuel)%nat →
  independent_loop fuel closure wl result ⇓ λ '(closure', required), separated e all closure' required.
Proof.
  revert closure wl result. induction fuel as [|fuel IH]; intros closure wl result Hinv Hf; [lia|].
  cbn [independent_loop]. set (st0 := mkPass closure true result []) in *.
  pose proof (pass_ok e all st0 wl Hinv) as [Hp Hs Hc Hi]. pose proof (pass_length wl st0) as [_ Hlen].
  pose proof (pass_last wl st0) as Hlast. destruct (pass_done (foldl pass_step st0 wl)) eqn:Ed.
  - destruct (Hlast eq_refl) as [Hcl Hrest]. apply yields_done. split_and!; [done..|].
    exists ((newWorklist (foldl pass_step st0 wl)).*1). rewrite app_nil_r in Hp, Hi. split; [done|].
    intros c ([c' set] & -> & Hin)%list_elem_of_fmap. exists set. split; [by apply (Hi (c', set))|].
    rewrite Hcl. destruct (Hrest _ Hin) as [?%elem_of_nil|Hx]; [done|]. by apply intersects_false.
  - apply IH; [|specialize (Hlen eq_refl eq_refl); cbn in Hlen; lia].
    rewrite app_nil_r in Hp. split; [|done..|].
    + cbn. done.
    + intros it Hit. apply Hi. cbn in Hit. by rewrite app_nil_r.
Qed.
End closure.

(** ** The bytes of an expression *)

Lemma child_wf e k : wf e → k ∈ ExprUtil.children true e → wf k.
Proof.
  assert (∀ un k, wf_nodes un → k ∈ update_exprs un → wf k) as Hun.
  { clear. induction un as [|next IH index value]; cbn; [by intros ?? ?%elem_of_nil|].
    intros k Hw [-> |[-> |Hk]%elem_of_cons]%elem_of_cons; destruct_and?; auto. }
  destruct e; try apply kid_wf. cbn. intros (Hh & Hi & _) [-> |Hk]%elem_of_cons; eauto.
Qed.

Lemma reaches_wf e k : wf e → reaches true e k → wf k.
Proof. intros He Hr. revert He. induction Hr as [|x y z Hk _ IH]; eauto using child_wf. Qed.

Section element_set.
Context `{APIntLaws} `{WfStore} `{NodeIdentity}.

(** The bytes that the read [re] may depend on are covered. *)
Definition read_covered (ies : IndependentElementSet) (re : Expr) : Prop :=
  match re with
  | Read a _ index =>
      constantValues (deref a) = [] → ∀ i, (∀ c, index = Constant c → i = cvalue c) → covers ies a i = true
  | _ => True
  end.

Lemma read_covered_mono x y re : ies_le x y → read_covered x re → read_covered y re.
Proof. intros Hle. destruct re; try done. intros Hr ? i ?. by apply Hle, Hr. Qed.

Lemma add_read_ok ies re :
  wf re → add_read ies re ⇓ λ ies', ies_le ies ies' ∧ read_covered ies' re.
Proof.
  destruct re as [| |a head index| | | | | | |]; try (by intros _; split; [intros ??|]).
  intros (_ & Hi & Hwi). unfold add_read.
  destruct (negb (isSymbolicArray a) && _) eqn:Ec.
  { unbool. split; [by intros ??|]. intros Hsym. unfold isSymbolicArray in *.
    by rewrite bool_decide_eq_true_2 in *. }
  case_bool_decide as Hw.
  { split; [by intros ??|]. intros _ i _. apply covers_true. by left. }
  assert (∀ ies', a ∈ wholeObjects ies' → read_covered ies' (Read a head index)) as Hwhole.
  { intros ies' Ha _ i _. apply covers_true. by left. }
  assert (ies_le ies (mkIES (delete a (elts ies)) ({[a]} ∪ wholeObjects ies))) as Hdel.
  { apply ies_le_whole; cbn; [set_solver|]. intros b s Hb.
    destruct (decide (b = a)) as [-> |]; [left; set_solver|right]. exists s. by rewrite lookup_delete_ne. }
  destruct index as [CE| | | | | | | | |]; try (split; [done|apply Hwhole; cbn; set_solver]).
  rewrite getZExtValue_spec by (cbn in Hwi; rewrite Hwi; done). ystep. apply yields_done. split.
  - apply ies_le_whole; cbn; [done|]. intros b s Hb. right.
    destruct (decide (b = a)) as [-> |]; [|exists s; by rewrite lookup_insert_ne].
    eexists. rewrite lookup_insert_eq, Hb. split; [done|]. cbn. set_solver.
  - intros _ i Hc. rewrite (Hc CE eq_refl). apply covers_true. right. cbn.
    eexists. rewrite lookup_insert_eq. split; [done|]. set_solver.
Qed.

Lemma add_reads_ok reads ies :
  Forall wf reads →
  foldl (λ m re, ies ← m; add_read ies re) (Done ies) reads ⇓ λ ies',
    ies_le ies ies' ∧ ∀ re, re ∈ reads → read_covered ies' re.
Proof.
  intros Hwf. revert ies. induction Hwf as [|re reads Hre _ IH]; intros ies.
  { split; [by intros ??|by intros ? ?%elem_of_nil]. }
  cbn [foldl]. change (Done ies ≫= _) with (add_read ies re). pose proof (add_read_ok ies re Hre) as Hadd.
  destruct (add_read ies re) as [ies1| |]; try done. destruct Hadd as [Hle1 Hcov].
  eapply yields_mono; [apply IH|]. intros ies2 [Hle2 Hall]. split; [intros a i ?; by apply Hle2, Hle1|].
  intros re' [-> |?]%elem_of_cons; [by eapply read_covered_mono|auto].
Qed.

(** The element set covers the bytes of the symbolic arrays that [e] depends on. *)
Lemma element_set_ok e :
  wf e → element_set e ⇓ λ ies, ∀ a i, reads_at e a i → constantValues (deref a) = [] → covers ies a i = true.
Proof.
  intros He. unfold element_set. ystep.
  eapply yields_mono; [apply findReads_ok, same_node_eq|]. intros reads [_ Hreads].
  eapply yields_mono; [apply add_reads_ok|].
  - apply Forall_forall. intros re Hre. eapply reaches_wf; [done|]. by apply Hreads.
  - intros ies [_ Hall] a i (_ & head & index & Hr & Hi) Hsym.
    apply (Hall (Read a head index)); [|done..]. by apply Hreads.
Qed.

Lemma worklist_ok cs :
  Forall wf cs →
  foldr (λ c m, set ← element_set c; rest ← m; Done ((c, set) :: rest)) (Done []) cs ⇓ λ wl,
    wl.*1 = cs ∧ ∀ it, it ∈ wl → element_set it.1 = Done it.2.
Proof.
  intros Hcs. induction Hcs as [|c cs Hc _ IH]; [split; [done|by intros ? ?%elem_of_nil]|].
  cbn [foldr]. pose proof (element_set_ok c Hc) as Hset. destruct (element_set c) as [set| |] eqn:E; try done.
  ystep. ystep. eapply yields_mono; [exact IH|]. intros wl [<- Hwl]. apply yields_done.
  split; [done|]. intros it [-> |?]%elem_of_cons; auto.
Qed.

Lemma getIndependentConstraints_ok `{ObjectIdentity} `{Options} q :
  wf (query_expr q) → Forall wf (constraints q) →
  getIndependentConstraints q ⇓ λ '(closure, required),
    ∃ e, element_set (query_expr q) = Done e ∧ separated e (constraints q) closure required.
Proof.
  intros He Hcs. unfold getIndependentConstraints.
  pose proof (element_set_ok _ He) as Hset. destruct (element_set (query_expr q)) as [e| |]; try done.
  ystep. ystep. eapply yields_mono; [by apply worklist_ok|]. intros wl [Hwl Hsets].
  eapply yields_mono; [apply (independent_loop_ok e (constraints q)); [|lia]|].
  - split; cbn; [by rewrite Hwl|by intros ??|by intros ? ?%elem_of_nil|done].
  - intros [closure required] Hsep. by exists e.
Qed.
End element_set.

(** ** The solver *)

Section independent_correct.
Context `{APIntLaws} `{WfStore} `{ObjectIdentity} `{Options} `{QueryClass} `{NodeIdentity}.
Context (Hrange : in_range_only = true).

(** [ρ1] on the bytes of the closure, [ρ2] on the others. *)
Definition merge (closure : IndependentElementSet) (ρ1 ρ2 : assignment) : assignment :=
  λ a i, if covers closure a i then ρ1 a i else ρ2 a i.

Lemma merge_wf closure ρ1 ρ2 :
  wf_assignment ρ1 → wf_assignment ρ2 → wf_assignment (merge closure ρ1 ρ2).
Proof. intros H1' H2' a i. unfold merge. by case_step. Qed.

Lemma merge_inside closure ρ1 ρ2 e set :
  wf_assignment ρ1 → wf e → regular e → element_set e = Done set → ies_le set closure →
  eval (merge closure ρ1 ρ2) e = eval ρ1 e.
Proof.
  intros Hρ He Hreg Hset Hle. pose proof (element_set_ok e He) as Hcov. rewrite Hset in Hcov.
  symmetry. apply (eval_agree True); [done..|intros _; by apply Hreg|].
  intros a i Hr Hsym. unfold merge. by rewrite (Hle a i (Hcov a i Hr (Hsym I))).
Qed.

Lemma merge_outside closure ρ1 ρ2 e set :
  wf_assignment ρ2 → wf e → regular e → element_set e = Done set →
  (∀ a i, covers set a i = true → covers closure a i = false) →
  eval (merge closure ρ1 ρ2) e = eval ρ2 e.
Proof.
  intros Hρ He Hreg Hset Hdis. pose proof (element_set_ok e He) as Hcov. rewrite Hset in Hcov.
  symmetry. apply (eval_agree True); [done..|intros _; by apply Hreg|].
  intros a i Hr Hsym. unfold merge. by rewrite (Hdis a i (Hcov a i Hr (Hsym I))).
Qed.

(** A model of the required constraints extends to one of all the constraints
    that gives the expression the same value. *)
Definition extends_to (q : Query) (required : list Expr) : Prop :=
  (∀ c, c ∈ required → c ∈ constraints q) ∧
  ∀ ρ1, models required ρ1 →
    ∃ ρ, models (constraints q) ρ ∧ eval ρ (query_expr q) = eval ρ1 (query_expr q).

Lemma required_ok q :
  wf_value_query q →
  getIndependentConstraints q ⇓ λ '(_, required), extends_to q required.
Proof.
  intros (Hcs & [ρ2 [Hρ2 Hm2]] & He & Hreg).
  eapply yields_mono; [apply getIndependentConstraints_ok; [done|by apply wf_constraints_wf]|].
  intros [closure required] (e & Hset & Hle & Hreq & others & Hperm & Hoth).
  unfold wf_constraints in Hcs. rewrite Forall_forall in Hcs. split.
  { intros c Hc. rewrite <- Hperm. apply elem_of_app. by left. }
  intros ρ1 [Hρ1 Hm1]. exists (merge closure ρ1 ρ2). split; [|by eapply merge_inside].
  split; [by apply merge_wf|]. intros c Hc. destruct (Hcs c Hc) as (Hwf & _ & Hregc).
  rewrite <- Hperm in Hc. apply elem_of_app in Hc as [Hc|Hc].
  - destruct (Hreq c Hc) as (set & Hs & Hle'). rewrite (merge_inside closure ρ1 ρ2 c set) by done. by apply Hm1.
  - destruct (Hoth c Hc) as (set & Hs & Hdis). rewrite (merge_outside closure ρ1 ρ2 c set) by done.
    apply Hm2. rewrite <- Hperm. apply elem_of_app. by right.
Qed.

(** [q'] is [q] with fewer constraints, and has the same answers. *)
Definition equivalent (q q' : Query) : Prop :=
  wf_value_query q' ∧ query_expr q' = query_expr q ∧ (∀ v, may_be q' v ↔ may_be q v).

Lemma required_query_ok q : wf_value_query q → required_query q ⇓ equivalent q.
Proof.
  intros Hq. pose proof Hq as (Hcs & [ρ2 [Hρ2 Hm2]] & He & Hreg). unfold required_query. ystep.
  eapply yields_mono; [by apply required_ok|]. intros [_ required] [Hsub Hext].
  assert (wf_constraints required) as Hwfr.
  { unfold wf_constraints in *. rewrite Forall_forall in *. auto. }
  ystep. eapply yields_mono; [apply tmp_manager_ok; [done|]|].
  { exists ρ2. split; [done|]. auto. }
  intros tmp [Htmp Hmodels]. apply yields_done. split_and!; [|done|].
  - split_and!; [done| |done..]. exists ρ2. cbn. apply Hmodels. split; [done|]. auto.
  - intros v. split.
    + intros (ρ1 & Hρ1 & <-). cbn in Hρ1. apply Hmodels in Hρ1. apply Hext in Hρ1 as (ρ & ? & ?). by exists ρ.
    + intros (ρ & [Hρ Hm] & <-). exists ρ. cbn. split; [|done]. apply Hmodels. split; [done|]. auto.
Qed.

Lemma valid_values q : valid q ↔ ∀ v, may_be q v → v = 1.
Proof.
  split; [intros Hv v (ρ & Hρ & <-); by apply Hv|]. intros Hv ρ Hρ. apply Hv. by exists ρ.
Qed.

Lemma refuted_values q : refuted q ↔ ∀ v, may_be q v → v = 0.
Proof.
  split; [intros Hv v (ρ & Hρ & <-); by apply Hv|]. intros Hv ρ Hρ. apply Hv. by exists ρ.
Qed.

Lemma equivalent_valid q q' : equivalent q q' → (valid q' ↔ valid q).
Proof. intros (_ & _ & Hm). rewrite !valid_values. by setoid_rewrite Hm. Qed.

Lemma equivalent_refuted q q' : equivalent q q' → (refuted q' ↔ refuted q).
Proof. intros (_ & _ & Hm). rewrite !refuted_values. by setoid_rewrite Hm. Qed.

Lemma equivalent_wf q q' : wf_query q → equivalent q q' → wf_query q'.
Proof. intros [_ Hw] (? & He & _). split; [done|]. by rewrite He. Qed.

Lemma IndependentSolver_sound {S} fail (solver : SolverImpl S) Inv :
  sound fail solver Inv → sound fail (IndependentSolver solver) Inv.
Proof.
  intros Hs. split.
  - intros q Hq. apply answers_lift. eapply yields_mono; [apply required_query_ok, Hq|]. intros q' Heq.
    eapply answers_mono; [by apply Hs; eapply equivalent_wf|done|].
    intros []; cbn; [by rewrite (equivalent_valid q q')|apply Heq].
  - intros q Hq. apply answers_lift. eapply yields_mono; [apply required_query_ok, Hq|]. intros q' Heq.
    eapply answers_mono; [by apply Hs; eapply equivalent_wf|done|].
    intros []; cbn; [by rewrite (equivalent_valid q q')|by rewrite (equivalent_refuted q q')|].
    intros [??]. split; by apply Heq.
  - intros q Hq. apply answers_lift. eapply yields_mono; [by apply required_query_ok|]. intros q' Heq.
    pose proof Heq as (Hwf & He & Hm).
    eapply answers_mono; [by apply Hs|done|]. intros e (ρ & Hρ & ->). rewrite He.
    destruct (proj1 (Hm (eval ρ (query_expr q)))) as (ρ' & ? & Hv); [exists ρ; by rewrite He|].
    exists ρ'. by rewrite Hv.
  - intros q objects Hq. by apply Hs.
Qed.

(** [getIndependentConstraints] terminates and selects among the constraints
    enough to decide the query: every model of the required constraints extends
    to a model of all the constraints in which the expression has the same
    value.  The constraints must be satisfiable, and no constant array read out
    of range, since reads of constant arrays are ignored. *)
Theorem independent_constraints_correct q :
  wf_value_query q →
  getIndependentConstraints q ⇓ λ '(_, required),
    (∀ c, c ∈ required → c ∈ constraints q) ∧
    ∀ ρ1, models required ρ1 →
      ∃ ρ, models (constraints q) ρ ∧ eval ρ (query_expr q) = eval ρ1 (query_expr q).
Proof. apply required_ok. Qed.

End independent_correct.

(** C2: on queries that read constant arrays only inside their bounds
    ([in_range_only]), the independence solver preserves the contract of the solver
    it wraps: answers about the required constraints are answers about all of them.
    Without that condition it does not, since it ignores reads of constant arrays. *)
Theorem independent_solver_correct `{APIntLaws} `{WfStore} `{ObjectIdentity} `{Options} `{QueryClass} `{NodeIdentity}
    {S} fail (solver : SolverImpl S) Inv :
  in_range_only = true → sound fail solver Inv → sound fail (IndependentSolver solver) Inv.
Proof. intros Hrange. by apply IndependentSolver_sound. Qed.

Section witnesses.
#[local] Existing Instance Sample.store.
#[local] Existing Instance Sample.store_wf.
#[local] Existing Instance identity.
#[local] Existing Instance unshared_nodes.
#[local] Instance opt_on : Options := const_array_opt true.
#[local] Instance in_range : QueryClass := {| in_range_only := true; computable_only := false; buildable_only := false |}.
Import Sample.

(** Bytes 0 and 1 are related, and so are 2 and 3. *)
Definition chain : Query :=
  mkQuery [Binary Ult (input 1) (const 9 8); Binary Ult (input 2) (input 3); Binary Ult (input 0) (input 1)]
    (Binary Ult (input 0) (const 20 8)).

Lemma chain_wf : wf_value_query chain.
Proof.
  split_and!; [repeat constructor; done| |repeat constructor; done..].
  exists (λ _ i, if i =? 1 then 1 else if i =? 3 then 1 else 0). split.
  - intros a i. repeat case_step; by split.
  - intros c Hc. cbn in Hc. rewrite !elem_of_cons, elem_of_nil in Hc. destruct_or? Hc; by subst.
Qed.

Lemma independent_constraints_correct_witness :
  ('(_, required) ← getIndependentConstraints chain; Done required) =
    Done [Binary Ult (input 0) (input 1); Binary Ult (input 1) (const 9 8)] ∧
  (getIndependentConstraints chain ⇓ λ '(_, required),
    (∀ c, c ∈ required → c ∈ constraints chain) ∧
    ∀ ρ1, models required ρ1 →
      ∃ ρ, models (constraints chain) ρ ∧ eval ρ (query_expr chain) = eval ρ1 (query_expr chain)).
Proof.
  split; [vm_compute; reflexivity|].
  exact (independent_constraints_correct eq_refl chain chain_wf).
Defined.

Lemma independent_solver_correct_witness :
  sound False (IndependentSolver reference_solver) (λ _ : unit, True).
Proof.
  exact (independent_solver_correct False reference_solver (λ _, True) eq_refl reference_solver_sound).
Defined.

(** A constraint on a byte beyond the end of a constant array is dropped although
    the expression is about that byte. *)
Theorem out_of_range_constraint_dropped :
  let c := Binary Eq (const 5 8) (Read 1%positive NullNode (const 9 32)) in
  ('(_, required) ← getIndependentConstraints (mkQuery [c] c); Done required) = Done [] ∧
  valid (mkQuery [c] c) ∧ ¬ valid (mkQuery [] c).
Proof.
  intros c. split_and!; [vm_compute; reflexivity|intros ρ [_ Hm]; apply Hm; by left|].
  intros Hv. discriminate (Hv (λ _ _, 0)). split; [done|]. by intros ? ?%elem_of_nil.
Qed.
End witnesses.
