(* ===== verification/MapOfSets.v ===== *)
(** * Maps from sets: [klee/Internal/ADT/MapOfSets.h]

    A tree indexed by the sorted elements of its keys.  A [std::set] is the list
    of its elements in increasing order, and so is a [std::map] of its
    entries. *)

From stdpp Require Import prelude sorting.
From S2P Require Import Prelude.

(** [operator<] and [operator==] of the type of the elements: a strict total
    order. *)
Class KeyOrder (K : Type) : Type := {
  klt : K → K → bool;
  keq : K → K → bool;
  keq_eq a b : keq a b = true ↔ a = b;
  klt_irrefl a : klt a a = false;
  klt_trans a b c : klt a b = true → klt b c = true → klt a c = true;
  klt_total a b : klt a b = false → klt b a = false → a = b;
}.

(** The elements of a [std::set], in order *)
Abbreviation increasing := (StronglySorted (λ a b, klt a b = true)).

Section map_of_sets.
Context {K V : Type} `{KeyOrder K}.

#[local] Unset Elimination Schemes.

(** [MapOfSets::Node]; [value] is there when [isEndOfSet] is set *)
Inductive Node : Type := mkTree { tree_value : option V; tree_children : list (K * Node) }.

#[local] Set Elimination Schemes.

(** [Node()], and the empty map *)
Definition empty_node : Node := mkTree None [].

(** [children.insert(make_pair(k, Node())).first->second], changed by [f] *)
Fixpoint update_child (k : K) (f : Node → Node) (kids : list (K * Node)) : list (K * Node) :=
  match kids with
  | [] => [(k, f empty_node)]
  | (k', n) :: rest =>
      if keq k' k then (k', f n) :: rest
      else if klt k k' then (k, f empty_node) :: (k', n) :: rest
      else (k', n) :: update_child k f rest
  end.

(** [MapOfSets::insert] *)
Fixpoint tree_insert (set : list K) (value : V) (n : Node) : Node :=
  match set with
  | [] => mkTree (Some value) (tree_children n)
  | k :: set => mkTree (tree_value n) (update_child k (tree_insert set value) (tree_children n))
  end.

(** [children.find(k)] *)
Fixpoint find_kid (k : K) (kids : list (K * Node)) : option Node :=
  match kids with
  | [] => None
  | (k', n) :: rest => if keq k' k then Some n else find_kid k rest
  end.

(** [MapOfSets::lookup] *)
Fixpoint tree_lookup (set : list K) (n : Node) : option V :=
  match set with
  | [] => tree_value n
  | k :: set => match find_kid k (tree_children n) with Some n => tree_lookup set n | None => None end
  end.

(** The elements from the first one that is not below [key] *)
Fixpoint skip_below (key : K) (it : list K) : list K :=
  match it with
  | [] => []
  | x :: rest => if klt x key then skip_below key rest else it
  end.

Section searches.
(** The predicate may run code that fails. *)
Context (p : V → outcome bool).

Definition test (v : option V) : outcome (option V) :=
  match v with
  | Some v => b ← p v; Done (if (b : bool) then Some v else None)
  | None => Done None
  end.

(** The loop of [findSubset] over the children from [kbegin] on, where [rec] is
    the recursive call; a child below the next element is skipped, as
    [lower_bound] and the last inner loop do. *)
Definition subset_loop (rec : Node → list K → outcome (option V)) :
    list (K * Node) → list K → outcome (option V) :=
  fix loop kids it :=
    match kids with
    | [] => Done None
    | (key, child) :: kids =>
        match skip_below key it with
        | [] => Done None
        | x :: rest =>
            if keq x key then
              res ← rec child rest;
              match res, rest with
              | Some v, _ => Done (Some v)
              | None, [] => Done None
              | None, _ => loop kids rest
              end
            else loop kids (x :: rest)
        end
    end.

(** [MapOfSets::findSubset] *)
Fixpoint findSubset (n : Node) (set : list K) {struct n} : outcome (option V) :=
  match n with
  | mkTree value children =>
      r ← test value;
      match r, set with
      | Some v, _ => Done (Some v)
      | None, [] => Done None
      | None, _ => subset_loop findSubset children set
      end
  end.

(** The loop over all the children *)
Definition superset_loop (rec : Node → list K → outcome (option V)) (set : list K) :
    list (K * Node) → outcome (option V) :=
  fix loop kids :=
    match kids with
    | [] => Done None
    | (_, child) :: kids =>
        res ← rec child set;
        match res with Some v => Done (Some v) | None => loop kids end
    end.

(** The child with the key [x], if there is one *)
Definition superset_child (rec : Node → list K → outcome (option V)) (x : K) (rest : list K) :
    list (K * Node) → outcome (option V) :=
  fix find kids :=
    match kids with
    | [] => Done None
    | (key, child) :: kids => if keq key x then rec child rest else find kids
    end.

(** [MapOfSets::findSuperset] *)
Fixpoint findSuperset (n : Node) (set : list K) {struct n} : outcome (option V) :=
  match n with
  | mkTree value children =>
      match set with
      | [] =>
          r ← test value;
          match r with Some v => Done (Some v) | None => superset_loop findSuperset set children end
      | x :: rest =>
          res ← superset_loop findSuperset set children;
          match res with
          | Some v => Done (Some v)
          | None => superset_child findSuperset x rest children
          end
      end
  end.
End searches.
End map_of_sets.
Arguments Node : clear implicits.

Section map_of_sets_correct.
Context {K V : Type} `{KeyOrder K}.

Lemma Node_ind (P : Node K V → Prop) :
  (∀ v kids, (∀ k c, (k, c) ∈ kids → P c) → P (mkTree v kids)) → ∀ n, P n.
Proof.
  intros IH. fix rec 1. intros [v kids]. apply IH.
  assert (Forall (λ kc, P kc.2) kids) as Hall.
  { induction kids as [|[k c] kids IHkids]; constructor; [apply rec|apply IHkids]. }
  clear rec. rewrite Forall_forall in Hall. intros k c Hin. exact (Hall (k, c) Hin).
Defined.

(** ** Order *)

Definition above (lo : option K) (k : K) : Prop := from_option (λ l, klt l k = true) True lo.

Lemma klt_asym a b : klt a b = true → klt b a = false.
Proof.
  intros Hab. apply not_true_iff_false. intros Hba. pose proof (klt_trans _ _ _ Hab Hba) as Haa.
  by rewrite klt_irrefl in Haa.
Qed.

Lemma klt_ne a b : klt a b = true → keq a b = false ∧ keq b a = false.
Proof.
  intros Hab. split; apply not_true_iff_false; rewrite keq_eq; intros ->; by rewrite klt_irrefl in Hab.
Qed.

Lemma klt_cases a b : keq a b = true ∧ a = b ∨ klt a b = true ∨ klt b a = true.
Proof.
  destruct (klt a b) eqn:Ha; [auto|]. destruct (klt b a) eqn:Hb; [auto|]. left.
  pose proof (klt_total _ _ Ha Hb). split; [by apply keq_eq|done].
Qed.

Lemma keq_refl k : keq k k = true.
Proof. by apply keq_eq. Qed.

#[local] Unset Elimination Schemes.

(** The children of a node have different, increasing keys, and the keys along a
    path increase. *)
Inductive tree_ok : option K → Node K V → Prop :=
| tree_ok_intro lo v kids :
    increasing kids.*1 → (∀ k c, (k, c) ∈ kids → above lo k ∧ tree_ok (Some k) c) →
    tree_ok lo (mkTree v kids).

#[local] Set Elimination Schemes.

Lemma tree_ok_empty lo : tree_ok lo empty_node.
Proof. constructor; [constructor|]. by intros k c ?%elem_of_nil. Qed.

(** ** Insertion and lookup *)

Lemma find_kid_elem (kids : list (K * Node K V)) k c : find_kid k kids = Some c → (k, c) ∈ kids.
Proof.
  induction kids as [|[k' c'] kids IH]; cbn; [done|]. destruct (keq k' k) eqn:E.
  - apply keq_eq in E as ->. intros [= ->]. by left.
  - intros Hf. right. auto.
Qed.

Lemma find_kid_Some (kids : list (K * Node K V)) k c :
  increasing kids.*1 → find_kid k kids = Some c ↔ (k, c) ∈ kids.
Proof.
  intros Hs. split; [apply find_kid_elem|].
  induction kids as [|[k' c'] kids IH]; cbn in *; [by intros ?%elem_of_nil|].
  apply StronglySorted_inv in Hs as [Hs Hall]. intros [[= -> ->]|Hin]%elem_of_cons; [by rewrite keq_refl|].
  rewrite Forall_forall in Hall. specialize (Hall k (list_elem_of_fmap_2 fst _ _ Hin)).
  rewrite (proj1 (klt_ne _ _ Hall)). auto.
Qed.

Lemma tree_lookup_sorted lo n s v :
  tree_ok lo n → tree_lookup s n = Some v → increasing s ∧ Forall (above lo) s.
Proof.
  revert lo n. induction s as [|k s IH]; intros lo n Hn Hl; [by repeat constructor|].
  destruct Hn as [lo w kids Hs Hkids]. cbn in Hl.
  destruct (find_kid k kids) as [c|] eqn:Ec; [|done]. apply find_kid_elem in Ec.
  destruct (Hkids k c Ec) as [Hlo Hc]. destruct (IH _ _ Hc Hl) as [Hss Hall]. split.
  - by constructor.
  - constructor; [done|]. eapply Forall_impl; [exact Hall|]. intros x Hx.
    destruct lo as [l|]; [|done]. cbn in *. by eapply klt_trans.
Qed.

Lemma update_child_keys k f (kids : list (K * Node K V)) x :
  x ∈ (update_child k f kids).*1 ↔ x = k ∨ x ∈ kids.*1.
Proof.
  induction kids as [|[k' c'] kids IH]; cbn; [set_solver|].
  destruct (keq k' k) eqn:E; [apply keq_eq in E as ->; cbn; set_solver|].
  destruct (klt k k'); cbn; [set_solver|]. rewrite !elem_of_cons, IH. tauto.
Qed.

Lemma update_child_sorted k f (kids : list (K * Node K V)) :
  increasing kids.*1 → increasing (update_child k f kids).*1.
Proof.
  induction kids as [|[k' c'] kids IH]; intros Hs; cbn; [by repeat constructor|].
  destruct (keq k' k) eqn:E; [done|]. cbn in Hs. destruct (klt k k') eqn:El.
  - constructor; [done|]. constructor; [done|]. apply StronglySorted_inv in Hs as [_ Hall].
    eapply Forall_impl; [exact Hall|]. intros x Hx. by eapply klt_trans.
  - apply StronglySorted_inv in Hs as [Hs Hall]. cbn. constructor; [by apply IH|].
    apply Forall_forall. intros x [-> |Hx]%update_child_keys.
    + destruct (klt_cases k' k) as [[He _]|[?|?]]; congruence.
    + rewrite Forall_forall in Hall. auto.
Qed.

Lemma find_update_child k k' f (kids : list (K * Node K V)) :
  increasing kids.*1 →
  find_kid k' (update_child k f kids) =
    if keq k k' then Some (f (default empty_node (find_kid k kids))) else find_kid k' kids.
Proof.
  intros Hs. induction kids as [|[k1 c1] kids IH]; cbn; [done|].
  cbn in Hs. apply StronglySorted_inv in Hs as [Hs Hall]. rewrite Forall_forall in Hall.
  destruct (keq k1 k) eqn:E; cbn.
  { apply keq_eq in E as ->. by destruct (keq k k'). }
  destruct (klt k k1) eqn:El; cbn.
  - destruct (keq k k') eqn:E'; [|done]. apply keq_eq in E' as <-.
    destruct (find_kid k kids) as [c|] eqn:Ef; [|done].
    apply find_kid_elem in Ef. specialize (Hall k (list_elem_of_fmap_2 fst _ _ Ef)). cbn in Hall.
    rewrite (klt_asym _ _ El) in Hall. done.
  - rewrite (IH Hs). destruct (keq k k') eqn:E'; [|done]. apply keq_eq in E' as <-. by rewrite E.
Qed.

Lemma tree_insert_ok lo set v n :
  tree_ok lo n → increasing set → Forall (above lo) set → tree_ok lo (tree_insert set v n).
Proof.
  revert lo n. induction set as [|k set IH]; intros lo n Hn Hs Hlo; destruct Hn as [lo w kids Hks Hkids].
  { by constructor. }
  apply StronglySorted_inv in Hs as [Hs Hall]. apply Forall_cons_1 in Hlo as [Hk Hlo].
  cbn [tree_insert tree_value tree_children]. pose proof (update_child_sorted k (tree_insert set v) kids Hks) as Hu.
  constructor; [done|]. intros k' c Hin. apply find_kid_Some in Hin; [|done].
  rewrite find_update_child in Hin by done. destruct (keq k k') eqn:E.
  - apply keq_eq in E as <-. injection Hin as <-. split; [done|]. apply IH; [|done..].
    destruct (find_kid k kids) as [c'|] eqn:Ef; [|apply tree_ok_empty]. by apply Hkids, find_kid_elem.
  - by apply Hkids, find_kid_elem.
Qed.

(** A set is looked up with the value it was inserted with, and the other sets
    are as they were. *)
Lemma lookup_insert_spec lo set set' v n :
  tree_ok lo n →
  (set' = set → tree_lookup set' (tree_insert set v n) = Some v) ∧
  (set' ≠ set → tree_lookup set' (tree_insert set v n) = tree_lookup set' n).
Proof.
  revert lo n set'. induction set as [|k set IH]; intros lo n set' Hn; destruct Hn as [lo w kids Hks Hkids].
  - split; [by intros ->|]. by destruct set'.
  - destruct set' as [|k' set']; [done|]. cbn [tree_lookup tree_insert tree_children tree_value].
    rewrite find_update_child by done. destruct (keq k k') eqn:E.
    + apply keq_eq in E as <-. destruct (find_kid k kids) as [c|] eqn:Ef; cbn.
      * destruct (Hkids k c (find_kid_elem _ _ _ Ef)) as [_ Hc]. destruct (IH _ _ set' Hc) as [H1 H2].
        split; [by intros [= ->]; apply H1|]. intros Hne. apply H2. congruence.
      * destruct (IH _ _ set' (tree_ok_empty (Some k))) as [H1 H2].
        split; [by intros [= ->]; apply H1|]. intros Hne. rewrite H2 by congruence. by destruct set'.
    + split; [|done]. intros [= -> _]. by rewrite keq_refl in E.
Qed.

(** ** Searches *)

Lemma skip_below_ok key it :
  increasing it →
  increasing (skip_below key it) ∧ ∀ y, y ∈ skip_below key it ↔ y ∈ it ∧ klt y key = false.
Proof.
  induction it as [|x it IH]; intros Hs; cbn; [split; [done|]; intros y; rewrite elem_of_nil; tauto|].
  pose proof Hs as [Hs' Hall]%StronglySorted_inv. destruct (klt x key) eqn:E.
  - destruct (IH Hs') as [? Hy]. split; [done|]. intros y. rewrite Hy, elem_of_cons.
    split; [tauto|]. intros [[-> |?] ?]; [congruence|tauto].
  - split; [done|]. intros y. split; [|tauto]. intros Hy. split; [done|].
    apply elem_of_cons in Hy as [-> |Hy]; [done|]. rewrite Forall_forall in Hall.
    specialize (Hall y Hy). apply not_true_iff_false. intros Hyk.
    by rewrite (klt_trans _ _ _ Hall Hyk) in E.
Qed.

Section searches_correct.
Context (p : V → outcome bool).

(** The predicate returns on every value of the tree. *)
Definition decides (n : Node K V) : Prop :=
  ∀ s v, tree_lookup s n = Some v → ∃ b, p v = Done b.

(** [r] is the value of a set in [Q] that satisfies the predicate, or there is
    none. *)
Definition finds (n : Node K V) (Q : list K → Prop) (r : option V) : Prop :=
  match r with
  | Some v => ∃ s, Q s ∧ tree_lookup s n = Some v ∧ p v = Done true
  | None => ∀ s v, Q s → tree_lookup s n = Some v → p v = Done false
  end.

Lemma test_ok n :
  decides n → test p (tree_value n) ⇓ finds n (λ s, s = []).
Proof.
  intros Hp. unfold test. destruct (tree_value n) as [v|] eqn:Ev.
  - destruct (Hp [] v Ev) as [b Hb]. rewrite Hb. ystep. apply yields_done. destruct b; cbn.
    + by exists [].
    + intros s v' -> Hl. cbn in Hl. congruence.
  - apply yields_done. intros s v -> Hl. cbn in Hl. congruence.
Qed.

Lemma decides_kid v kids k c :
  increasing kids.*1 → decides (mkTree v kids) → (k, c) ∈ kids → decides c.
Proof.
  intros Hs Hp Hin s w Hl. apply (Hp (k :: s) w). cbn. by rewrite (proj2 (find_kid_Some _ _ _ Hs) Hin).
Qed.

(** What a search among the children [kids] finds. *)
Definition finds_kid (kids : list (K * Node K V)) (Q : list K → Prop) (r : option V) : Prop :=
  match r with
  | Some v => ∃ k c s, (k, c) ∈ kids ∧ Q (k :: s) ∧ tree_lookup s c = Some v ∧ p v = Done true
  | None => ∀ k c s v, (k, c) ∈ kids → Q (k :: s) → tree_lookup s c = Some v → p v = Done false
  end.

Lemma finds_kid_finds v kids Q r :
  increasing kids.*1 → (Q [] → ∀ w, v = Some w → p w = Done false) →
  finds_kid kids Q r → finds (mkTree v kids) Q r.
Proof.
  intros Hs Hnil Hr. destruct r as [w|].
  - destruct Hr as (k & c & s & Hin & HQ & Hl & Hp). exists (k :: s). split_and!; [done| |done].
    cbn. by rewrite (proj2 (find_kid_Some _ _ _ Hs) Hin).
  - intros [|k s] w HQ Hl; cbn in Hl; [by apply Hnil|].
    destruct (find_kid k kids) as [c|] eqn:Ec; [|done]. apply find_kid_elem in Ec. by eapply Hr.
Qed.

(** The path through a child only has larger keys. *)
Lemma path_above k c s v x :
  tree_ok (Some k) c → tree_lookup s c = Some v → x ∈ s → klt k x = true.
Proof.
  intros Hc Hl Hx. destruct (tree_lookup_sorted _ _ _ _ Hc Hl) as [_ Hall].
  rewrite Forall_forall in Hall. by apply Hall.
Qed.

(** The part [it'] of a sorted list after [key] is enough for the children after
    [key]. *)
Lemma finds_kid_later key c kids it it' r :
  Forall (λ k, klt key k = true) kids.*1 → (∀ k c, (k, c) ∈ kids → tree_ok (Some k) c) →
  it' ⊆ it → (∀ y, y ∈ it → klt key y = true → y ∈ it') →
  (∀ s v, key :: s ⊆ it → tree_lookup s c = Some v → p v = Done false) →
  finds_kid kids (λ s, s ⊆ it') r → finds_kid ((key, c) :: kids) (λ s, s ⊆ it) r.
Proof.
  intros Hall Hok Hsub Hit Hhead Hr. rewrite Forall_forall in Hall. destruct r as [v|]; cbn in Hr |- *.
  - destruct Hr as (k & c' & s & ? & Hks & ? & ?). exists k, c', s. split_and!; [by right|by etrans|done..].
  - intros k c' s v [[= -> ->]|Hin]%elem_of_cons Hks Hl; [by eapply Hhead|].
    eapply Hr; [done| |done]. intros y Hy.
    assert (klt key k = true) as Hkk by (apply Hall; by apply (list_elem_of_fmap_2 fst _ _ Hin)).
    apply Hit; [by apply Hks|]. apply elem_of_cons in Hy as [-> |Hys]; [done|].
    eapply klt_trans; [done|]. eapply path_above; [|done..]. by apply Hok.
Qed.

Lemma finds_kid_nil kids : finds_kid kids (λ s, s ⊆ []) None.
Proof. intros k c s v _ Hk. exfalso. apply (not_elem_of_nil k), Hk. by left. Qed.

(** The child [key] itself, on the elements after [key]. *)
Lemma subset_head key c it rest :
  tree_ok (Some key) c → (∀ y, y ∈ it → klt key y = true → y ∈ rest) →
  finds c (λ s, s ⊆ rest) None →
  ∀ s v, key :: s ⊆ it → tree_lookup s c = Some v → p v = Done false.
Proof.
  intros Hc Hrest Hr s v Hks Hl. eapply Hr; [|done]. intros y Hy.
  apply Hrest; [apply Hks; by right|]. by eapply path_above.
Qed.

Lemma subset_loop_ok rec kids it :
  increasing kids.*1 → increasing it →
  (∀ k c, (k, c) ∈ kids → tree_ok (Some k) c ∧
    ∀ set, increasing set → rec c set ⇓ finds c (λ s, s ⊆ set)) →
  subset_loop rec kids it ⇓ finds_kid kids (λ s, s ⊆ it).
Proof.
  revert it. induction kids as [|[key c] kids IH]; intros it Hks Hit Hrec; cbn [subset_loop].
  { apply yields_done. by intros k c s v ?%elem_of_nil. }
  cbn in Hks. apply StronglySorted_inv in Hks as [Hks Hall].
  destruct (Hrec key c) as [Hc Hrc]; [by left|].
  assert (∀ k c, (k, c) ∈ kids → tree_ok (Some k) c) as Hoks by (intros; apply Hrec; by right).
  assert (∀ it', increasing it' → subset_loop rec kids it' ⇓ finds_kid kids (λ s, s ⊆ it')) as Hloop.
  { intros it' ?. apply IH; [done..|]. intros. apply Hrec. by right. }
  destruct (skip_below_ok key it Hit) as [Hsk Hy].
  assert (∀ y, y ∈ it → klt key y = true → y ∈ skip_below key it) as Hafter.
  { intros y ? ?. apply Hy. split; [done|by apply klt_asym]. }
  assert (skip_below key it ⊆ it) as Hsub by (intros y ?; by apply Hy).
  assert (key ∈ it → key ∈ skip_below key it) as Hkey.
  { intros. apply Hy. split; [done|apply klt_irrefl]. }
  destruct (skip_below key it) as [|x rest].
  { apply yields_done. eapply finds_kid_later; [done..| |apply finds_kid_nil].
    intros s v Hks' _. exfalso. eapply not_elem_of_nil, Hkey, Hks'. by left. }
  pose proof Hsk as [Hrs Hx]%StronglySorted_inv. rewrite Forall_forall in Hx.
  destruct (keq x key) eqn:Ex.
  2: { eapply yields_mono; [by apply Hloop|]. intros r. eapply finds_kid_later; [done..|].
       intros s v Hks' _. exfalso. assert (key ∈ x :: rest) as Hin by (apply Hkey, Hks'; by left).
       apply elem_of_cons in Hin as [-> |Hin]; [by rewrite keq_refl in Ex|].
       apply Hx in Hin. destruct (proj1 (Hy x)) as [_ Hxk]; [by left|]. congruence. }
  apply keq_eq in Ex as ->.
  assert (∀ y, y ∈ it → klt key y = true → y ∈ rest) as Hrest.
  { intros y Hin Hk. destruct (proj1 (elem_of_cons _ _ _) (Hafter y Hin Hk)) as [-> |?]; [|done].
    by rewrite klt_irrefl in Hk. }
  apply yields_bind. eapply yields_mono; [by apply Hrc|]. intros [v|] Hr.
  - apply yields_done. destruct Hr as (s & Hs & Hl & Hp). exists key, c, s. split_and!; [by left| |done..].
    intros y [-> |?]%elem_of_cons; apply Hsub; [by left|right; auto].
  - eapply (yields_mono _ (finds_kid kids (λ s, s ⊆ rest))).
    + destruct rest; [apply yields_done, finds_kid_nil|by apply Hloop].
    + intros r. eapply finds_kid_later; [done..| |done|by eapply subset_head]. intros y ?. apply Hsub. by right.
Qed.

Lemma findSubset_ok lo n set :
  tree_ok lo n → increasing set → decides n → findSubset p n set ⇓ finds n (λ s, s ⊆ set).
Proof.
  revert lo set. induction n as [v kids IH] using Node_ind. intros lo set Hn Hset Hp.
  pose proof (test_ok _ Hp) as Htest. inversion Hn as [? ? ? Hks Hkids]; subst. cbn [findSubset].
  apply yields_bind. eapply yields_mono; [exact Htest|]. cbn. intros [w|] Hr.
  { apply yields_done. destruct Hr as (s & -> & Hl & ?). exists []. split_and!; [apply list_subseteq_nil|done..]. }
  eapply (yields_mono _ (finds_kid kids (λ s, s ⊆ set))).
  - destruct set as [|x set]; [apply yields_done, finds_kid_nil|]. apply subset_loop_ok; [done..|].
    intros k c Hin. destruct (Hkids k c Hin) as [_ Hc]. split; [done|].
    intros set' ?. eapply IH; [done..|]. by eapply decides_kid.
  - intros r. apply finds_kid_finds; [done|]. intros _ w ->. by apply (Hr []).
Qed.

Lemma superset_loop_ok rec set kids :
  (∀ k c, (k, c) ∈ kids → rec c set ⇓ finds c (λ s, set ⊆ s)) →
  superset_loop rec set kids ⇓ finds_kid kids (λ s, set ⊆ tail s).
Proof.
  induction kids as [|[key c] kids IH]; intros Hrec; cbn [superset_loop].
  { apply yields_done. by intros k c s v ?%elem_of_nil. }
  apply yields_bind. eapply yields_mono; [by eapply (Hrec key); left|]. intros [v|] Hr.
  - apply yields_done. destruct Hr as (s & ? & ? & ?). exists key, c, s. split_and!; [by left|done..].
  - eapply yields_mono; [apply IH; intros; eapply Hrec; by right|]. intros [v|] Hk; cbn in Hk |- *.
    + destruct Hk as (k & c' & s & ? & ? & ? & ?). exists k, c', s. split_and!; [by right|done..].
    + intros k c' s v [[= -> ->]|Hin]%elem_of_cons; [apply Hr|by eapply Hk; eauto].
Qed.

Lemma superset_child_ok rec x rest kids :
  increasing kids.*1 → (∀ c, (x, c) ∈ kids → rec c rest ⇓ finds c (λ s, rest ⊆ s)) →
  superset_child rec x rest kids ⇓ finds_kid kids (λ s, head s = Some x ∧ rest ⊆ tail s).
Proof.
  induction kids as [|[key c] kids IH]; intros Hks Hrec; cbn [superset_child].
  { apply yields_done. by intros k c s v ?%elem_of_nil. }
  cbn in Hks. apply StronglySorted_inv in Hks as [Hks Hall]. rewrite Forall_forall in Hall.
  destruct (keq key x) eqn:E.
  - apply keq_eq in E as ->. eapply yields_mono; [apply Hrec; by left|]. intros [v|] Hr; cbn in Hr |- *.
    + destruct Hr as (s & ? & ? & ?). exists x, c, s. split_and!; [by left|done..].
    + intros k c' s v [[= -> ->]|Hin]%elem_of_cons [Hhd Htl]; [by eapply Hr|]. injection Hhd as ->.
      specialize (Hall x (list_elem_of_fmap_2 fst _ _ Hin)). by rewrite klt_irrefl in Hall.
  - eapply yields_mono; [apply IH; [done|]; intros; apply Hrec; by right|]. intros [v|] Hk; cbn in Hk |- *.
    + destruct Hk as (k & c' & s & ? & [? ?] & ? & ?). exists k, c', s. split_and!; [by right|done..].
    + intros k c' s v [[= -> ->]|Hin]%elem_of_cons; [|by eapply Hk; eauto]. intros [Hhd _].
      injection Hhd as ->. by rewrite keq_refl in E.
Qed.

(** A superset of [x :: rest] goes through the child [x] and then contains
    [rest], or through a smaller one and then contains [x :: rest]. *)
Lemma superset_cases k c s v x rest :
  tree_ok (Some k) c → tree_lookup s c = Some v → increasing (x :: rest) → x :: rest ⊆ k :: s →
  k = x ∧ rest ⊆ s ∨ x :: rest ⊆ s.
Proof.
  intros Hc Hl [Hrs Hx]%StronglySorted_inv Hsub. rewrite Forall_forall in Hx.
  assert (∀ y, y ∈ x :: rest → y ≠ k → y ∈ s) as Hin.
  { intros y Hy Hne. by destruct (proj1 (elem_of_cons _ _ _) (Hsub y Hy)). }
  destruct (klt_cases k x) as [[_ ->]|Hkx]; [left; split; [done|]|right].
  - intros y Hy. apply Hin; [by right|]. intros ->. specialize (Hx x Hy). by rewrite klt_irrefl in Hx.
  - assert (klt k x = true) as Hlt.
    { destruct Hkx as [?|Hxk]; [done|]. assert (x ∈ s) as Hxs.
      { apply Hin; [by left|]. intros ->. by rewrite klt_irrefl in Hxk. }
      by eapply path_above. }
    intros y Hy. apply Hin; [done|]. intros ->. apply elem_of_cons in Hy as [-> |Hy]; [by rewrite klt_irrefl in Hlt|].
    specialize (Hx k Hy). by rewrite (klt_asym _ _ Hlt) in Hx.
Qed.

Lemma findSuperset_ok lo n set :
  tree_ok lo n → increasing set → decides n → findSuperset p n set ⇓ finds n (λ s, set ⊆ s).
Proof.
  revert lo set. induction n as [v kids IH] using Node_ind. intros lo set Hn Hset Hp.
  pose proof (test_ok _ Hp) as Htest. inversion Hn as [? ? ? Hks Hkids]; subst. cbn [findSuperset].
  assert (∀ k c set', (k, c) ∈ kids → increasing set' → findSuperset p c set' ⇓ finds c (λ s, set' ⊆ s)) as Hrec.
  { intros k c set' Hin ?. eapply IH; [done|by apply Hkids|done|]. by eapply decides_kid. }
  assert (superset_loop (findSuperset p) set kids ⇓ finds_kid kids (λ s, set ⊆ tail s)) as Hloop.
  { apply superset_loop_ok. intros k c Hin. by eapply Hrec. }
  destruct set as [|x rest].
  - apply yields_bind. eapply yields_mono; [exact Htest|]. cbn. intros [w|] Hr.
    { apply yields_done. destruct Hr as (s & -> & Hl & ?). exists []. done. }
    eapply yields_mono; [exact Hloop|]. intros r Hk. apply finds_kid_finds; [done|intros _ w ->; by apply (Hr [])|].
    destruct r as [w|]; cbn in Hk |- *.
    + destruct Hk as (k & c & s & ? & ? & ? & ?). exists k, c, s. split_and!; try done. apply list_subseteq_nil.
    + intros k c s w ? _. apply (Hk k); [done|]. apply list_subseteq_nil.
  - pose proof Hset as [Hrest _]%StronglySorted_inv.
    apply yields_bind. eapply yields_mono; [exact Hloop|]. intros [w|] Hk; cbn in Hk.
    { apply yields_done. destruct Hk as (k & c & s & Hin & Hs & Hl & ?). exists (k :: s). split_and!; [|cbn|done].
      - etrans; [exact Hs|]. intros y ?. by right.
      - by rewrite (proj2 (find_kid_Some _ _ _ Hks) Hin). }
    eapply yields_mono; [apply superset_child_ok; [done|]; intros c Hin; by eapply Hrec|].
    intros r Hr. apply finds_kid_finds; [done|intros Hnil; exfalso; eapply not_elem_of_nil, Hnil; by left|].
    destruct r as [w|]; cbn in Hr |- *.
    + destruct Hr as (k & c & s & ? & [[= ->] Hs] & ? & ?). exists x, c, s. split_and!; try done.
      intros y [-> |?]%elem_of_cons; [by left|right; auto].
    + intros k c s w Hin Hsub Hl. destruct (superset_cases k c s w x rest) as [[-> ?]|?]; try done; [by apply Hkids| |].
      * by eapply Hr.
      * by eapply Hk.
Qed.
End searches_correct.

(** The tree implements a finite map from sets: the empty tree is well formed
    and has no entry, and inserting a set keeps the tree well formed, binds the
    set to the value, and leaves the other sets as they were. *)
Theorem map_of_sets_insert_lookup (n : Node K V) set v set' :
  tree_ok None n → increasing set →
  tree_ok None (empty_node : Node K V) ∧ tree_lookup set' (empty_node : Node K V) = None ∧
  tree_ok None (tree_insert set v n) ∧
  tree_lookup set (tree_insert set v n) = Some v ∧
  (set' ≠ set → tree_lookup set' (tree_insert set v n) = tree_lookup set' n).
Proof.
  intros Hn Hset. split_and!.
  - apply tree_ok_empty.
  - by destruct set'.
  - apply tree_insert_ok; [done..|]. by apply Forall_true.
  - by apply (lookup_insert_spec None set set v n).
  - by apply (lookup_insert_spec None set set' v n).
Qed.

(** C25: [findSubset] and [findSuperset] are exact: on a well-formed tree whose
    values the predicate decides, they terminate, what they return is the value
    of a subset, respectively superset, that satisfies the predicate, and they
    return nothing only if there is none. *)
Theorem map_of_sets_search (p : V → outcome bool) (n : Node K V) set :
  tree_ok None n → increasing set → decides p n →
  (findSubset p n set ⇓ λ r, match r with
    | Some v => ∃ s, s ⊆ set ∧ tree_lookup s n = Some v ∧ p v = Done true
    | None => ∀ s v, s ⊆ set → tree_lookup s n = Some v → p v = Done false
    end) ∧
  (findSuperset p n set ⇓ λ r, match r with
    | Some v => ∃ s, set ⊆ s ∧ tree_lookup s n = Some v ∧ p v = Done true
    | None => ∀ s v, set ⊆ s → tree_lookup s n = Some v → p v = Done false
    end).
Proof. intros. split; [by eapply findSubset_ok|by eapply findSuperset_ok]. Qed.
End map_of_sets_correct.

Section witnesses.
(** Sets of integers. *)
#[local] Instance Z_order : KeyOrder Z.
Proof.
  refine {| klt := Z.ltb; keq := Z.eqb |}; intros *;
    rewrite ?Z.eqb_eq, ?Z.ltb_lt, ?Z.ltb_ge, ?Z.ltb_irrefl; try lia; done.
Defined.

Definition sample_tree : Node Z Z :=
  tree_insert [1; 3] 13 (tree_insert [1; 2; 5] 125 (tree_insert [2] 2 empty_node)).

Lemma sample_tree_ok : tree_ok None sample_tree.
Proof.
  unfold sample_tree.
  repeat (apply tree_insert_ok; [|repeat constructor|repeat constructor]). apply tree_ok_empty.
Qed.

Lemma map_of_sets_insert_lookup_witness :
  tree_lookup [1; 2] (tree_insert [1; 2] 12 sample_tree) = Some 12 ∧
  tree_lookup [1; 3] (tree_insert [1; 2] 12 sample_tree) = tree_lookup [1; 3] sample_tree.
Proof.
  destruct (map_of_sets_insert_lookup sample_tree [1; 2] 12 [1; 3] sample_tree_ok
    ltac:(repeat constructor)) as (_ & _ & _ & Hl & Ho).
  split; [exact Hl|by apply Ho].
Defined.

Lemma map_of_sets_search_witness :
  findSubset (λ v, Done (10 <? v)) sample_tree [1; 2; 3] = Done (Some 13) ∧
  findSuperset (λ v, Done (10 <? v)) sample_tree [2; 5] = Done (Some 125) ∧
  (findSubset (λ v, Done (100 <? v)) sample_tree [1; 2; 3] ⇓ λ r, match r with
    | Some v => ∃ s, s ⊆ [1; 2; 3] ∧ tree_lookup s sample_tree = Some v ∧ Done (100 <? v) = Done true
    | None => ∀ s v, s ⊆ [1; 2; 3] → tree_lookup s sample_tree = Some v → Done (100 <? v) = Done false
    end).
Proof.
  split; [vm_compute; reflexivity|]. split; [vm_compute; reflexivity|].
  apply (map_of_sets_search (λ v, Done (100 <? v)) sample_tree [1; 2; 3] sample_tree_ok).
  - repeat constructor.
  - intros s v _. by eexists.
Defined.
End witnesses.
