(* ===== verification/CexCachingSolver.v ===== *)
(** * The counterexample cache: [lib/Solver/CexCachingSolver.cpp]

    The cache maps sets of constraints to an assignment that satisfies them, or
    to the null pointer when there is none.  A question is answered from the
    entry of the same set, from a satisfiable superset, from an unsatisfiable
    subset, or from an assignment of a subset that happens to satisfy the rest;
    otherwise the wrapped solver computes an assignment for the objects of the
    constraints, which is memoised.

    An entry is reused for other questions by evaluating them under its bytes,
    so the solver is proved for expressions that evaluate to a constant under
    every assignment of bytes to the objects ([computable_only]). *)

From stdpp Require Import prelude gmap sorting.
From S2P Require Import Prelude Bitvec APInt ExprData ExprConstants ExprCasts ExprBinary.
From S2P Require Import ExprBinaryProofs ExprSelectRead ExprVisitor ExprEval ExprUtil MapOfSets.
From S2P Require Import Solver ReferenceSolver SolverProofs StagedSolver CachingSolver.

(** The command-line options of the solver *)
Class CexOptions : Set := {
  CexCacheTryAll : bool;
  CexCacheExperimental : bool;
  DebugCexCacheCheckBinding : bool;
}.

(** [operator<] and [operator==] of [ref<Expr>] *)
#[export] Instance expr_order `{APIntOps} `{ArrayStore} : KeyOrder Expr.
Proof.
  refine {| klt a b := compare a b <? 0; keq a b := eqE a b |}.
  - intros a b. apply eqE_eq.
  - intros a. by rewrite compare_refl.
  - intros a b c. rewrite !Z.ltb_lt. apply compare_trans_mut.
  - intros a b. rewrite !Z.ltb_ge, (proj1 compare_opp_mut a b). intros. apply compare_eq. lia.
Defined.

Section key_sets.
Context {K : Type} `{KeyOrder K}.

(** [std::set::insert] *)
Fixpoint set_insert (k : K) (s : list K) : list K :=
  match s with
  | [] => [k]
  | x :: s' => if klt x k then x :: set_insert k s' else if klt k x then k :: s else s
  end.
End key_sets.

(** ** The order of the memo table *)

(** [operator<] of [std::vector<unsigned char>], as a three-way comparison *)
Fixpoint cmp_bytes (a b : list Z) : Z :=
  match a, b with
  | [], [] => 0
  | [], _ => -1
  | _, [] => 1
  | x :: a, y :: b => orelse (cmpZ x y) (cmp_bytes a b)
  end.

(** [operator<] of [Assignment::bindings_ty], on the entries in order *)
Fixpoint cmp_bindings (a b : list (Array * list Z)) : Z :=
  match a, b with
  | [], [] => 0
  | [], _ => -1
  | _, [] => 1
  | (x, bx) :: a, (y, yb) :: b =>
      orelse (cmpZ (Zpos x) (Zpos y)) (orelse (cmp_bytes bx yb) (cmp_bindings a b))
  end.

Definition before (x y : Array * list Z) : Prop := (x.1 ≤ y.1)%positive.

#[export] Instance before_dec : RelDecision before := λ x y, Pos.le_dec x.1 y.1.

(** The entries of the map, by increasing address of the array *)
Definition bindings_list (b : gmap Array (list Z)) : list (Array * list Z) :=
  merge_sort before (map_to_list b).

(** [AssignmentLessThan] *)
Definition assignment_lt (a b : Assignment) : bool :=
  cmp_bindings (bindings_list (bindings a)) (bindings_list (bindings b)) <? 0.

(** [assignmentsTable.insert(binding)]: the element of the table that is equal to
    [x], and the table *)
Fixpoint table_insert (x : Assignment) (table : list Assignment) : Assignment * list Assignment :=
  match table with
  | [] => (x, [x])
  | y :: rest =>
      if assignment_lt y x then let '(r, rest) := table_insert x rest in (r, y :: rest)
      else if assignment_lt x y then (x, x :: table)
      else (y, table)
  end.

(** ** The solver *)

(** The data of [class CexCachingSolver]; a null [Assignment *] is [None]. *)
Record cex_state : Type := mkCex {
  cex_cache : Node Expr (option Assignment);
  assignmentsTable : list Assignment;
}.

Section cex_caching.
Context `{APIntOps} `{ArrayStore} `{ObjectIdentity} `{Options} `{VisitorOptions} `{CexOptions}.

(** [NullAssignment], [NonNullAssignment], [NullOrSatisfyingAssignment] *)
Definition NullAssignment (a : option Assignment) : outcome bool :=
  Done (if a is Some _ then false else true).

Definition NonNullAssignment (a : option Assignment) : outcome bool :=
  Done (if a is Some _ then true else false).

Definition NullOrSatisfyingAssignment (key : list Expr) (a : option Assignment) : outcome bool :=
  match a with Some a => Assignment_satisfies a key | None => Done true end.

(** The loop over the memo table *)
Fixpoint try_table (key : list Expr) (table : list Assignment) :
    outcome (option (option Assignment)) :=
  match table with
  | [] => Done None
  | a :: table =>
      sat ← Assignment_satisfies a key;
      if (sat : bool) then Done (Some (Some a)) else try_table key table
  end.

(** [CexCachingSolver::searchForAssignment] *)
Definition searchForAssignment (st : cex_state) (key : list Expr) :
    outcome (option (option Assignment)) :=
  match tree_lookup key (cex_cache st) with
  | Some result => Done (Some result)
  | None =>
      found ← findSuperset NonNullAssignment (cex_cache st) key;
      match found with
      | Some result => Done (Some result)
      | None =>
          if CexCacheTryAll then
            found ← findSubset NullAssignment (cex_cache st) key;
            match found with
            | Some result => Done (Some result)
            | None => try_table key (assignmentsTable st)
            end
          else findSubset (NullOrSatisfyingAssignment key) (cex_cache st) key
      end
  end.

(** [CexCachingSolver::lookupAssignment]: the key, and what was found *)
Definition lookupAssignment (st : cex_state) (query : Query) :
    outcome (list Expr * option (option Assignment)) :=
  let key := foldl (λ s c, set_insert c s) [] (constraints query) in
  neg ← createIsZero (query_expr query);
  match neg with
  | Constant CE =>
      f ← CE_isFalse CE;
      if (f : bool) then Done (key, Some None)
      else result ← searchForAssignment st key; Done (key, result)
  | _ =>
      let key := set_insert neg key in
      result ← searchForAssignment st key; Done (key, result)
  end.

Section impl.
Context {S : Type} (solver : SolverImpl S).

Definition lookup_assignment (query : Query) :
    M (cex_state * S) (list Expr * option (option Assignment)) :=
  λ '(st, s), r ← lookupAssignment st query; Done (r, (st, s)).

(** [assignmentsTable.insert(binding)] *)
Definition memoize (binding : Assignment) : M (cex_state * S) Assignment :=
  λ '(st, s),
    let '(r, table) := table_insert binding (assignmentsTable st) in
    Done (r, (mkCex (cex_cache st) table, s)).

(** [cache.insert(key, binding)] *)
Definition cache_binding (key : list Expr) (binding : option Assignment) : M (cex_state * S) unit :=
  λ '(st, s), Done (tt, (mkCex (tree_insert key binding (cex_cache st)) (assignmentsTable st), s)).

(** [CexCachingSolver::getAssignment] *)
Definition getAssignment (query : Query) : M (cex_state * S) (option (option Assignment)) :=
  '(key, hit) ← lookup_assignment query;
  match hit with
  | Some result => mret (Some result)
  | None =>
      objects ← lift (findSymbolicObjects key);
      on_success (inner (computeInitialValues solver query objects)) (λ solution,
        binding ← (match solution with
          | Some values =>
              binding ← memoize (Assignment_of objects values false);
              _ ← lift (if DebugCexCacheCheckBinding
                        then sat ← Assignment_satisfies binding key; cassert sat else Done tt);
              mret (Some binding)
          | None => mret None
          end);
        _ ← cache_binding key binding;
        mret (Some binding))
  end.

(** [assert(isa<ConstantExpr>(e))] *)
Definition constant_of (e : Expr) : outcome ConstantExpr :=
  match e with Constant c => Done c | _ => AssertFailed end.

(** [CexCachingSolver::computeValidity] *)
Definition cex_computeValidity (query : Query) : M (cex_state * S) (option Validity) :=
  on_success (getAssignment (withFalse query)) (λ a,
    match a with
    | None => lift AssertFailed
    | Some a =>
        q ← lift (Assignment_evaluate a (query_expr query));
        c ← lift (constant_of q);
        t ← lift (CE_isTrue c);
        if (t : bool) then
          on_success (getAssignment query) (λ a,
            mret (Some (if a is Some _ then VUnknown else VTrue)))
        else
          nq ← lift (negateExpr query);
          on_success (getAssignment nq) (λ a,
            mret (Some (if a is Some _ then VUnknown else VFalse)))
    end).

(** [CexCachingSolver::computeTruth] *)
Definition cex_computeTruth (query : Query) : M (cex_state * S) (option bool) :=
  refuted ← (if CexCacheExperimental then
    nq ← lift (negateExpr query);
    '(_, hit) ← lookup_assignment nq;
    mret (match hit with Some None => true | _ => false end)
    else mret false);
  if (refuted : bool) then mret None
  else on_success (getAssignment query) (λ a, mret (Some (if a is Some _ then false else true))).

(** [CexCachingSolver::computeValue] *)
Definition cex_computeValue (query : Query) : M (cex_state * S) (option Expr) :=
  on_success (getAssignment (withFalse query)) (λ a,
    match a with
    | None => lift AssertFailed
    | Some a =>
        result ← lift (Assignment_evaluate a (query_expr query));
        c ← lift (constant_of result);
        mret (Some (Constant c))
    end).

(** The bytes of an object: the binding, or zeros *)
Definition bound_bytes (a : Assignment) (os : Array) : bytes :=
  match bindings a !! os with
  | Some bytes => bytes
  | None => replicate (Z.to_nat (array_size (deref os))) 0
  end.

(** [CexCachingSolver::computeInitialValues] *)
Definition cex_computeInitialValues (query : Query) (objects : list Array) :
    M (cex_state * S) (option (option (list bytes))) :=
  on_success (getAssignment query) (λ a,
    mret (Some (match a with Some a => Some (bound_bytes a <$> objects) | None => None end))).

Definition CexCachingSolver : SolverImpl (cex_state * S) :=
  mkImpl cex_computeTruth cex_computeValidity cex_computeValue cex_computeInitialValues.
End impl.
End cex_caching.

(** ** Sets and the memo table *)

Section key_sets_ok.
Context {K : Type} `{KeyOrder K}.

Lemma set_insert_elem k s x : increasing s → x ∈ set_insert k s ↔ x = k ∨ x ∈ s.
Proof.
  intros Hs. induction s as [|y s IH]; cbn; [set_solver|].
  apply StronglySorted_inv in Hs as [Hs _]. destruct (klt y k) eqn:Hy.
  - rewrite !elem_of_cons, IH by done. tauto.
  - destruct (klt k y) eqn:Hk; [by rewrite !elem_of_cons|].
    rewrite (klt_total _ _ Hy Hk), !elem_of_cons. tauto.
Qed.

Lemma set_insert_sorted k s : increasing s → increasing (set_insert k s).
Proof.
  intros Hs. induction s as [|y s IH]; cbn; [by repeat constructor|].
  pose proof Hs as [Hs' Hall]%StronglySorted_inv. rewrite Forall_forall in Hall.
  destruct (klt y k) eqn:Hy.
  - constructor; [by apply IH|]. apply Forall_forall. intros x [-> |?]%set_insert_elem; auto.
  - destruct (klt k y) eqn:Hk; [|done]. constructor; [done|]. apply Forall_forall.
    intros x [-> |Hx]%elem_of_cons; [done|]. eapply klt_trans; [done|auto].
Qed.

Lemma set_of_list cs s :
  increasing s →
  increasing (foldl (λ s c, set_insert c s) s cs) ∧
  ∀ x, x ∈ foldl (λ s c, set_insert c s) s cs ↔ x ∈ cs ∨ x ∈ s.
Proof.
  revert s. induction cs as [|c cs IH]; intros s Hs; cbn [foldl].
  - split; [done|]. intros x. rewrite elem_of_nil. tauto.
  - destruct (IH (set_insert c s)) as [Hi Hx]; [by apply set_insert_sorted|]. split; [done|].
    intros x. rewrite Hx, set_insert_elem, elem_of_cons by done. tauto.
Qed.
End key_sets_ok.

Lemma cmp_bytes_eq a b : cmp_bytes a b = 0 → a = b.
Proof.
  revert b. induction a as [|x a IH]; intros [|y b]; cbn; try done.
  rewrite orelse_eq, cmpZ_eq. intros [-> ?]. f_equal. auto.
Qed.

Lemma cmp_bindings_eq a b : cmp_bindings a b = 0 → a = b.
Proof.
  revert b. induction a as [|[x bx] a IH]; intros [|[y yb] b]; cbn; try done.
  rewrite !orelse_eq, cmpZ_eq. intros ([= ->] & ->%cmp_bytes_eq & ?). f_equal. auto.
Qed.

Lemma cmp_bytes_opp a b : cmp_bytes b a = - cmp_bytes a b.
Proof.
  revert b. induction a as [|x a IH]; intros [|y b]; cbn; try done.
  apply orelse_opp; [apply cmpZ_opp|auto].
Qed.

Lemma cmp_bindings_opp a b : cmp_bindings b a = - cmp_bindings a b.
Proof.
  revert b. induction a as [|[x bx] a IH]; intros [|[y yb] b]; cbn; try done.
  apply orelse_opp; [apply cmpZ_opp|intros _]. apply orelse_opp; [apply cmp_bytes_opp|auto].
Qed.

(** Equivalent elements of the table have the same bindings. *)
Lemma assignment_lt_antisym a b :
  assignment_lt a b = false → assignment_lt b a = false → bindings a = bindings b.
Proof.
  unfold assignment_lt. rewrite !Z.ltb_ge, (cmp_bindings_opp (bindings_list (bindings a))).
  intros. assert (bindings_list (bindings a) = bindings_list (bindings b)) as Heq
    by (apply cmp_bindings_eq; lia).
  apply map_to_list_inj.
  pose proof (merge_sort_Permutation before (map_to_list (bindings a))) as Ha.
  pose proof (merge_sort_Permutation before (map_to_list (bindings b))) as Hb.
  unfold bindings_list in Heq. rewrite Heq in Ha. by etrans; [symmetry; exact Ha|exact Hb].
Qed.

Lemma table_insert_ok x table :
  (table_insert x table).1 ∈ x :: table ∧
  bindings (table_insert x table).1 = bindings x ∧
  ∀ y, y ∈ (table_insert x table).2 → y = x ∨ y ∈ table.
Proof.
  induction table as [|y table (IHin & IHb & IHt)]; cbn [table_insert].
  { cbn. set_solver. }
  destruct (assignment_lt y x) eqn:Hyx.
  - destruct (table_insert x table) as [r rest]. cbn in *. split_and!; [set_solver|done|set_solver].
  - destruct (assignment_lt x y) eqn:Hxy; cbn; [set_solver|].
    split_and!; [set_solver|by apply assignment_lt_antisym|set_solver].
Qed.

(** ** Correctness *)

(** The value of an expression whose reads stay inside the objects only depends
    on the bytes of the symbolic arrays that occur in it. *)
Section inside_objects.
Context `{WfStore}.

Definition agree_inside (ρ ρ' : assignment) (D : gset Array) : Prop :=
  ∀ a i, a ∈ D → isSymbolicArray a = true → 0 ≤ i < array_size (deref a) → ρ a i = ρ' a i.

Lemma agree_inside_mono ρ ρ' D D' : D' ⊆ D → agree_inside ρ ρ' D → agree_inside ρ ρ' D'.
Proof. intros HD Hag a i Ha. apply Hag. by apply HD. Qed.

(** A subexpression: its arrays are among those of the whole. *)
Ltac inside_child IH :=
  apply IH; [done|tauto|]; eapply agree_inside_mono; [|eassumption]; set_solver.

Lemma eval_inside_mut ρ ρ' :
  wf_assignment ρ →
  (∀ e, wf e → in_objects ρ e → agree_inside ρ ρ' (arrays e) → eval ρ e = eval ρ' e) ∧
  (∀ un, wf_nodes un → ∀ root i, 0 ≤ i → in_objects_read ρ root un i →
     agree_inside ρ ρ' ({[root]} ∪ node_arrays un) → eval_read ρ root un i = eval_read ρ' root un i).
Proof.
  intros Hρ. apply Expr_UpdateNode_ind; cbn.
  - done.
  - intros e IH ? ? ?. inside_child IH.
  - intros root head IHh index IHi (Hh & Hi & Hw) [Hb Hr] Hag.
    assert (eval ρ index = eval ρ' index) as Hv by inside_child IHi.
    rewrite <- Hv. pose proof (eval_bounded ρ index Hρ Hi) as [? _].
    apply IHh; [done..|]. eapply agree_inside_mono; [|done]. set_solver.
  - intros c IHc t IHt f IHf (? & ? & ? & _) [Hb Hr] Hag.
    assert (eval ρ c = eval ρ' c) as Hv by inside_child IHc. rewrite <- Hv.
    destruct (eval ρ c =? 1); [inside_child IHt|inside_child IHf].
  - intros l IHl r IHr (? & ? & _) Hb Hag. f_equal; [inside_child IHl|inside_child IHr].
  - intros e IH ? ? [? _] ? ?. f_equal. inside_child IH.
  - intros e IH ? [? _] ? ?. inside_child IH.
  - intros e IH ? [? _] ? ?. f_equal. inside_child IH.
  - intros e IH ? ? ?. f_equal. inside_child IH.
  - intros k l IHl r IHr (? & ? & _) Hb Hag. f_equal; [inside_child IHl|inside_child IHr].
  - intros _ root i Hi Hb Hag. unfold initial_byte.
    destruct (constantValues (deref root) !! Z.to_nat i) as [c|] eqn:Ec; [done|].
    apply Hag; [set_solver| |lia]. unfold isSymbolicArray. apply bool_decide_eq_true.
    destruct (wf_store root) as (_ & [Hn|Hl] & _); [done|]. apply lookup_ge_None in Ec. lia.
  - intros next IHn index IHi value IHv ? root i Hi [Hb Hr] Hag. destruct_and?.
    assert (eval ρ index = eval ρ' index) as Hv by inside_child IHi.
    rewrite <- Hv. destruct (eval ρ index =? i); [inside_child IHv|].
    apply IHn; [done..|]. eapply agree_inside_mono; [|done]. set_solver.
Qed.

Lemma eval_inside ρ ρ' e :
  wf_assignment ρ → wf e → in_objects ρ e → agree_inside ρ ρ' (arrays e) → eval ρ e = eval ρ' e.
Proof. intros Hρ. by apply eval_inside_mut. Qed.
End inside_objects.

Section whole_objects.
Context `{ArrayStore}.

(** The bindings are the bytes of whole objects. *)
Definition good (a : Assignment) : Prop :=
  wf_bindings a ∧ allowFreeValues a = false ∧
  map_Forall (λ o bytes, length bytes = Z.to_nat (array_size (deref o))) (bindings a).

Lemma good_wf a : good a → wf_assignment (assignment_of a).
Proof. intros [? _]. by apply assignment_of_wf. Qed.

(** The assignment made of the bytes of some objects *)
Lemma Assignment_of_lookup (objects : list Array) (f : Array → list Z) b o :
  foldl (λ b '(o, v), insert_binding b o v) b (zip objects (f <$> objects)) !! o =
    match b !! o with Some v => Some v | None => if bool_decide (o ∈ objects) then Some (f o) else None end.
Proof.
  revert b. induction objects as [|x objects IH]; intros b; cbn [zip fmap list_fmap foldl].
  { cbn. by destruct (b !! o). }
  rewrite IH. unfold insert_binding. destruct (b !! x) as [v|] eqn:Hx.
  - destruct (b !! o) as [w|] eqn:Ho; [done|]. assert (o ≠ x) by congruence.
    by rewrite (bool_decide_ext (o ∈ x :: objects) (o ∈ objects)) by set_solver.
  - destruct (decide (o = x)) as [-> |Hne].
    + rewrite lookup_insert_eq, Hx, bool_decide_true by set_solver. done.
    + rewrite lookup_insert_ne by done. destruct (b !! o); [done|].
      by rewrite (bool_decide_ext (o ∈ x :: objects) (o ∈ objects)) by set_solver.
Qed.

Lemma object_bytes_lookup ρ o i :
  0 ≤ i < array_size (deref o) → object_bytes ρ o !! Z.to_nat i = Some (ρ o i).
Proof.
  intros Hi. unfold object_bytes, bytes. rewrite list_lookup_fmap, lookup_seq_lt by lia. cbn.
  by rewrite Z2Nat.id by lia.
Qed.

Definition bytes_of (ρ : assignment) (objects : list Array) : Assignment :=
  Assignment_of objects (object_bytes ρ <$> objects) false.

Lemma bytes_of_lookup ρ objects o :
  bindings (bytes_of ρ objects) !! o =
    if bool_decide (o ∈ objects) then Some (object_bytes ρ o) else None.
Proof.
  unfold bytes_of, Assignment_of. cbn [bindings].
  by rewrite (Assignment_of_lookup objects (object_bytes ρ)), lookup_empty.
Qed.

Lemma bytes_of_good ρ objects : wf_assignment ρ → good (bytes_of ρ objects).
Proof.
  intros Hρ. split_and!; [|done|]; intros o b; rewrite bytes_of_lookup; case_bool_decide; intros [= <-].
  - apply Forall_fmap, Forall_true. intros i. apply Hρ.
  - unfold object_bytes. by rewrite length_fmap, length_seq.
Qed.
End whole_objects.

Section cex_correct.
Context `{APIntLaws} `{WfStore} `{ObjectIdentity} `{Options} `{VisitorOptions} `{CexOptions}.
Context `{QueryClass} (Hcomp : computable_only = true).

(** [v] is a solution of the constraints [key], or there is none. *)
Definition solves (key : list Expr) (v : option Assignment) : Prop :=
  match v with
  | Some a => good a ∧ models key (assignment_of a)
  | None => ¬ satisfiable key
  end.

Definition cex_ok (st : cex_state) : Prop :=
  tree_ok None (cex_cache st) ∧
  (∀ key v, tree_lookup key (cex_cache st) = Some v → solves key v) ∧
  Forall good (assignmentsTable st).

Lemma satisfies_key a key :
  good a → wf_constraints key →
  ∃ b, Assignment_satisfies a key = Done b ∧ (b = true ↔ models key (assignment_of a)).
Proof.
  intros Ha Hkey. pose proof (good_wf a Ha) as Hwf. destruct Ha as (Hb & Hf & _).
  assert (Forall (λ c, wf c ∧ getWidth c = Bool ∧ evaluable (assignment_of a) c) key) as Hev.
  { eapply Forall_impl; [exact Hkey|]. intros c (? & ? & Hreg). split_and!; [done..|].
    by apply (Hreg _ Hwf). }
  destruct (yields_inv _ _ (Assignment_satisfies_ok a key Hb Hf Hev)) as (b & Hs & Hiff).
  exists b. split; [done|]. rewrite Hiff. unfold models. naive_solver.
Qed.

Lemma models_subset key key' ρ : key' ⊆ key → models key ρ → models key' ρ.
Proof. intros Hsub [? Hm]. split; [done|]. auto. Qed.

Lemma try_table_ok key table :
  wf_constraints key → Forall good table →
  try_table key table ⇓ λ r, ∀ v, r = Some v → solves key v.
Proof.
  intros Hkey. induction 1 as [|a table Ha _ IH]; [done|]. cbn [try_table].
  destruct (satisfies_key a key Ha Hkey) as (b & -> & Hb). ystep.
  destruct b; [|done]. apply yields_done. intros v [= <-]. split; [done|by apply Hb].
Qed.

(** The searches in the cache *)
Lemma find_superset_ok st key :
  cex_ok st → increasing key →
  findSuperset NonNullAssignment (cex_cache st) key ⇓ λ r, ∀ v, r = Some v → solves key v.
Proof.
  intros (Htree & Hall & _) Hs.
  eapply yields_mono; [eapply findSuperset_ok; [done..|]; intros s v _; by eexists|].
  intros r Hr v ->. destruct Hr as (s & Hsub & Hl & Hp). specialize (Hall s v Hl).
  destruct v as [a|]; [|done]. destruct Hall as [? ?]. split; [done|]. by eapply models_subset.
Qed.

Lemma unsat_subset s key : s ⊆ key → ¬ satisfiable s → ¬ satisfiable key.
Proof. intros Hsub Hn (ρ & Hρ). apply Hn. exists ρ. by eapply models_subset. Qed.

Lemma find_subset_ok p st key :
  cex_ok st → increasing key →
  (∀ a, good a → ∃ b, p (Some a) = Done b ∧ (b = true → models key (assignment_of a))) →
  (∃ b, p None = Done b) →
  findSubset p (cex_cache st) key ⇓ λ r, ∀ v, r = Some v → solves key v.
Proof.
  intros (Htree & Hall & _) Hs Hp Hnull.
  eapply yields_mono; [eapply findSubset_ok; [done..|]|].
  - intros s [a|] Hl; [|done]. destruct (Hp a) as (b & Hb & _); [by apply (Hall _ _ Hl)|by exists b].
  - intros r Hr v ->. destruct Hr as (s & Hsub & Hl & Ht). specialize (Hall s v Hl).
    destruct v as [a|]; [|by eapply unsat_subset]. destruct Hall as [Ha _].
    destruct (Hp a Ha) as (b & Hb & Hm). split; [done|]. apply Hm. congruence.
Qed.

Lemma searchForAssignment_ok st key :
  cex_ok st → wf_constraints key → increasing key →
  searchForAssignment st key ⇓ λ r, ∀ v, r = Some v → solves key v.
Proof.
  intros Hst Hkey Hs. unfold searchForAssignment. destruct (tree_lookup key _) as [v|] eqn:Hl.
  { apply yields_done. intros ? [= <-]. by apply Hst. }
  ystep. eapply yields_mono; [by apply find_superset_ok|]. intros [v|] Hv; [by apply yields_done|].
  destruct CexCacheTryAll.
  - ystep. eapply yields_mono.
    { apply find_subset_ok; [done..| |by eexists]. intros a Ha. by exists false. }
    intros [v|] Hv'; [by apply yields_done|]. apply try_table_ok; [done|apply Hst].
  - apply find_subset_ok; [done..| |by eexists]. intros a Ha.
    destruct (satisfies_key a key Ha Hkey) as (b & Hb & Hiff). exists b. split; [done|]. by intros ?%Hiff.
Qed.

(** The key of a query: its models are the counterexamples of the query. *)
Definition key_of (q : Query) (key : list Expr) : Prop :=
  wf_constraints key ∧ increasing key ∧
  ∀ ρ, models key ρ ↔ models (constraints q) ρ ∧ eval ρ (query_expr q) = 0.

(** [v] is a counterexample of the query, or there is none. *)
Definition decides_query (q : Query) (v : option Assignment) : Prop :=
  match v with
  | Some a => good a ∧ models (constraints q) (assignment_of a) ∧
      eval (assignment_of a) (query_expr q) = 0
  | None => valid q
  end.

Lemma key_decides q key v : wf_query q → key_of q key → solves key v → decides_query q v.
Proof.
  intros Hq (_ & _ & Hkey) Hv. destruct v as [a|]; cbn in *.
  - destruct Hv as [? Hm]. split; [done|]. by apply Hkey.
  - intros ρ Hρ. destruct (query_expr_bool q ρ Hq Hρ) as [He|]; [|done].
    destruct Hv. exists ρ. by apply Hkey.
Qed.

(** The set of the constraints, and its extension by the negation [neg] *)
Lemma constraints_key q :
  wf_query q →
  let key := foldl (λ s c, set_insert c s) [] (constraints q) in
  wf_constraints key ∧ increasing key ∧ ∀ ρ, models key ρ ↔ models (constraints q) ρ.
Proof.
  intros [(Hcs & _) _]. destruct (set_of_list (constraints q) []) as [Hs Hx]; [constructor|].
  assert (∀ c, c ∈ foldl (λ s c, set_insert c s) [] (constraints q) ↔ c ∈ constraints q) as Hin.
  { intros c. rewrite Hx, elem_of_nil. tauto. }
  split_and!; [|done|].
  - unfold wf_constraints in *. rewrite Forall_forall in Hcs |- *. intros c ?%Hin. auto.
  - intros ρ. unfold models. by setoid_rewrite Hin.
Qed.

Lemma negated_key q neg :
  wf_query q → negation_of q (mkQuery (constraints q) neg) →
  key_of q (set_insert neg (foldl (λ s c, set_insert c s) [] (constraints q))).
Proof.
  intros Hq ([(_ & _ & Hwf & Hreg) Hw] & _ & Hv). destruct (constraints_key q Hq) as (Hcs & Hs & Hm).
  set (key := foldl _ _ _) in *. cbn in *.
  assert (∀ c, c ∈ set_insert neg key ↔ c = neg ∨ c ∈ key) as Hin by (intros; by apply set_insert_elem).
  split_and!.
  - apply Forall_forall. intros c [-> |Hc]%Hin; [done|]. by apply (proj1 (Forall_forall _ _) Hcs).
  - by apply set_insert_sorted.
  - intros ρ. rewrite <- Hm. split.
    + intros [Hρ Hall]. split; [split; [done|]; intros c Hc; apply Hall, Hin; by right|].
      assert (eval ρ neg = 1) as He by (apply Hall, Hin; by left). rewrite Hv in He by done. lia.
    + intros [[Hρ Hall] He]. split; [done|]. intros c [-> |Hc]%Hin; [|auto]. rewrite Hv by done. lia.
Qed.

Lemma lookupAssignment_ok st q :
  cex_ok st → wf_query q →
  lookupAssignment st q ⇓ λ '(key, hit),
    match hit with Some v => decides_query q v | None => key_of q key end.
Proof.
  intros Hst Hq. pose proof (negateExpr_ok q Hq) as Hn. unfold negateExpr in Hn.
  unfold lookupAssignment. destruct (createIsZero (query_expr q)) as [neg| |]; try done. ystep.
  cbn [mbind outcome_bind yields] in Hn. pose proof (negated_key q neg Hq Hn) as Hkey.
  destruct (isConstant neg) eqn:Ec; [destruct neg as [CE| | | | | | | | |]; try done|].
  - destruct Hn as ([(_ & _ & Hwf & _) Hw] & _ & Hv). cbn in *.
    rewrite CE_isFalse_spec by done. ystep. destruct (cvalue CE =? 0) eqn:E0; unbool.
    + apply yields_done. intros ρ [Hρ _]. specialize (Hv ρ Hρ). lia.
    + destruct (constraints_key q Hq) as (Hcs & Hs & Hm).
      assert (key_of q (foldl (λ s c, set_insert c s) [] (constraints q))) as Hk.
      { split_and!; [done..|]. intros ρ. rewrite Hm. split; [|tauto]. intros Hρ. split; [done|].
        pose proof (bool_constant_nonzero CE Hwf Hw E0) as H1'. specialize (Hv ρ (proj1 Hρ)). lia. }
      ystep. eapply yields_mono; [by apply searchForAssignment_ok|]. intros [v|] Hr; apply yields_done; [|done].
      eapply key_decides; [done..|]. by apply Hr.
  - pose proof Hkey as (Hcs & Hs & _).
    pose proof (searchForAssignment_ok st _ Hst Hcs Hs) as Hsearch.
    destruct neg; try done; (ystep; eapply yields_mono; [exact Hsearch|]; intros [v|] Hr; apply yields_done;
      [|done]; eapply key_decides; [done..|]; by apply Hr).
Qed.

Section impl_correct.
Context {S : Type} (solver : SolverImpl S) (fail : Prop) (Inv : S → Prop).
Context (Hsolver : sound fail solver Inv).

Definition cex_inv : cex_state * S → Prop := with_inner Inv cex_ok.

Lemma lookup_assignment_ok q :
  wf_query q →
  returns (lookup_assignment q) cex_inv (λ '(key, hit),
    match hit with Some v => decides_query q v | None => key_of q key end).
Proof.
  intros Hq [st s] [Hst Hs]. cbn in *. pose proof (lookupAssignment_ok st q Hst Hq) as Hl.
  unfold runs. cbn. destruct (lookupAssignment st q) as [[key hit]| |]; try done.
Qed.

Lemma cache_binding_ok q key v :
  key_of q key → wf_query q → solves key v →
  answers fail (_ ← cache_binding key v; mret (Some v)) cex_inv (decides_query q).
Proof.
  intros Hkey Hq Hv [st s] [(Htree & Hall & Htab) Hs]. cbn. split; [|by eapply key_decides].
  split; [|done]. pose proof Hkey as (_ & Hsort & _). split_and!; [|intros key' v' Hl|done]; cbn in *.
  - apply tree_insert_ok; [done..|]. by apply Forall_true.
  - destruct (lookup_insert_spec None key key' v (cex_cache st) Htree) as [Heq Hne].
    destruct (decide (key' = key)) as [-> |Hn].
    + rewrite Heq in Hl by done. by injection Hl as <-.
    + rewrite Hne in Hl by done. auto.
Qed.

(** Evaluation under the bytes of the objects of the key gives the values under
    [ρ]. *)
Lemma bytes_of_models q key objects ρ r :
  key_of q key → (∀ a, a ∈ objects ↔ isSymbolicArray a = true ∧ ∃ e, e ∈ key ∧ a ∈ arrays e) →
  models key ρ → good r → bindings r = bindings (bytes_of ρ objects) → models key (assignment_of r).
Proof.
  intros (Hcs & _) Hobj [Hρ Hm] Hr Hb. split; [by apply good_wf|]. intros c Hc.
  rewrite <- (Hm c Hc). symmetry. pose proof (proj1 (Forall_forall _ _) Hcs c Hc) as (Hwf & _ & Hreg).
  apply eval_inside; [done..|by apply (Hreg ρ Hρ)|]. intros o i Ho Hsym Hi.
  unfold assignment_of. rewrite Hb, bytes_of_lookup, bool_decide_true by (apply Hobj; eauto).
  cbn. by rewrite object_bytes_lookup.
Qed.

Lemma memoize_ok ρ objects :
  wf_assignment ρ →
  returns (memoize (bytes_of ρ objects)) cex_inv (λ r,
    good r ∧ bindings r = bindings (bytes_of ρ objects)).
Proof.
  intros Hρ [st s] [(Htree & Hall & Htab) Hs]. unfold runs, memoize. cbn in *.
  pose proof (bytes_of_good ρ objects Hρ) as Hgood.
  destruct (table_insert_ok (bytes_of ρ objects) (assignmentsTable st)) as (Hin & Hb & Hsub).
  destruct (table_insert _ _) as [r table]. cbn in *. rewrite Forall_forall in Htab.
  split_and!; [|apply elem_of_cons in Hin as [-> |?]; auto|done].
  split; [|done]. split_and!; [done..|]. apply Forall_forall. intros y Hy. cbn in Hy.
  destruct (Hsub y Hy) as [-> |?]; auto.
Qed.

Lemma debug_check_ok r key :
  good r → wf_constraints key → models key (assignment_of r) →
  (if DebugCexCacheCheckBinding then sat ← Assignment_satisfies r key; cassert sat else Done tt) = Done tt.
Proof.
  intros Hr Hkey Hm. destruct DebugCexCacheCheckBinding; [|done].
  destruct (satisfies_key r key Hr Hkey) as (b & -> & Hb). cbn. by rewrite (proj2 Hb Hm).
Qed.

Lemma getAssignment_ok q :
  wf_query q → answers fail (getAssignment solver q) cex_inv (decides_query q).
Proof.
  intros Hq. eapply returns_answers; [by apply lookup_assignment_ok|]. intros [key [v|]] Hhit.
  { by apply answers_ret. }
  apply answers_lift. eapply yields_mono; [apply findSymbolicObjects_ok|]. intros objects [_ Hobj].
  eapply on_success_ok; [by apply inner_ok, (sound_initial _ _ _ Hsolver)|].
  intros [values|] Hsol; cbn in Hsol.
  - destruct Hsol as (ρ & Hρ & He & ->). assert (models key ρ) as Hm by (by apply Hhit).
    eapply (returns_answers _ _ _ _ (λ v, solves key v)).
    + eapply returns_bind; [apply memoize_ok; apply Hρ|]. intros r [Hr Hb].
      assert (models key (assignment_of r)) by (by eapply bytes_of_models).
      intros s Hs. rewrite (debug_check_ok r key) by (done || apply Hhit). done.
    + intros v Hv. by eapply cache_binding_ok.
  - eapply (returns_answers _ _ _ _ (λ v, solves key v)); [intros s Hs; split; [done|]|].
    + intros (ρ & [Hρ He]%Hhit). specialize (Hsol ρ Hρ). lia.
    + intros v Hv. by eapply cache_binding_ok.
Qed.

(** The solver may also fail when the experimental option is set. *)
Definition cex_fail : Prop := fail ∨ CexCacheExperimental = true.

Lemma getAssignment_cex q :
  wf_query q → answers cex_fail (getAssignment solver q) cex_inv (decides_query q).
Proof. intros. eapply answers_mono; [by apply getAssignment_ok|by left|done]. Qed.

Lemma withFalse_wf q : wf_value_query q → wf_query (withFalse q).
Proof.
  intros (? & ? & _ & _). split; [|done]. by split_and!.
Qed.

(** A satisfiable query has an assignment. *)
Lemma some_assignment {B} q (k : Assignment → M (cex_state * S) (option B)) P :
  wf_value_query q →
  (∀ a, good a → models (constraints q) (assignment_of a) → answers cex_fail (k a) cex_inv P) →
  answers cex_fail (on_success (getAssignment solver (withFalse q)) (λ a,
    match a with None => lift AssertFailed | Some a => k a end)) cex_inv P.
Proof.
  intros Hq Hk. eapply on_success_ok; [by apply getAssignment_cex, withFalse_wf|]. intros [a|] Ha.
  - destruct Ha as (? & ? & _). by apply Hk.
  - destruct Hq as (_ & (ρ & Hρ) & _). by specialize (Ha ρ Hρ).
Qed.

(** Evaluation of the expression of a query *)
Lemma evaluate_constant {B} q a (k : ConstantExpr → M (cex_state * S) (option B)) P :
  wf_value_query q → good a →
  answers cex_fail (k (mkConstant (getWidth (query_expr q)) (eval (assignment_of a) (query_expr q))))
    cex_inv P →
  answers cex_fail (r ← lift (Assignment_evaluate a (query_expr q)); c ← lift (constant_of r); k c) cex_inv P.
Proof.
  intros (_ & _ & He & Hreg) Ha Hk. pose proof (good_wf a Ha) as Hwf. destruct Ha as (Hb & Hf & _).
  rewrite Assignment_evaluate_ok by (done || by apply (Hreg _ Hwf)). by apply answers_lift, yields_done, answers_lift.
Qed.

Lemma decides_truth q v : decides_query q v → truth_ok q (if v is Some _ then false else true).
Proof. destruct v as [a|]; [|done]. intros (_ & ? & ?). by exists (assignment_of a). Qed.

Lemma cex_truth_ok q : wf_query q → answers cex_fail (cex_computeTruth solver q) cex_inv (truth_ok q).
Proof.
  intros Hq. eapply (returns_answers _ _ _ _ (λ b, b = true → CexCacheExperimental = true)).
  - destruct CexCacheExperimental; [|by intros s Hs].
    intros s Hs. apply runs_bind, runs_lift. eapply yields_mono; [by apply negateExpr_ok|]. intros nq Hn.
    revert s Hs. eapply returns_bind; [by apply lookup_assignment_ok, Hn|]. by intros [key hit] _ s Hs.
  - intros [] Hb; [intros s Hs; split; [done|right; auto]|].
    eapply on_success_ok; [by apply getAssignment_cex|]. intros v Hv. by apply answers_ret, decides_truth.
Qed.

Lemma cex_validity_ok q :
  wf_query q → answers cex_fail (cex_computeValidity solver q) cex_inv (validity_ok q).
Proof.
  intros Hq. pose proof Hq as [Hvq Hw]. apply some_assignment; [done|]. intros a Ha Hm.
  apply evaluate_constant; [done..|]. apply answers_lift. rewrite CE_isTrue_spec by done.
  apply yields_done. cbn [cvalue]. destruct (eval (assignment_of a) (query_expr q) =? 1) eqn:E; unbool.
  - eapply on_success_ok; [by apply getAssignment_cex|]. intros v Hv%decides_truth. apply answers_ret.
    destruct v; [|done]. split; [done|]. by exists (assignment_of a).
  - assert (may_be q 0) as H0'.
    { exists (assignment_of a). split; [done|]. by destruct (query_expr_bool q _ Hq Hm). }
    apply answers_lift. eapply yields_mono; [by apply negateExpr_ok|]. intros nq Hn.
    eapply on_success_ok; [by apply getAssignment_cex, Hn|]. intros v Hv%decides_truth. apply answers_ret.
    destruct v; [|by eapply negation_valid]. split; [done|]. exact (negation_may_be q nq 0 Hn Hv).
Qed.

Lemma bound_bytes_ok a o : good a → bound_bytes a o = object_bytes (assignment_of a) o.
Proof.
  intros (_ & _ & Hlen). unfold bound_bytes, object_bytes, assignment_of. set (n := Z.to_nat _).
  destruct (bindings a !! o) as [b|] eqn:Hb; cbn.
  - specialize (Hlen _ _ Hb). cbn in Hlen. fold n in Hlen. apply list_eq_same_length with n; [|done|].
    + by rewrite length_fmap, length_seq.
    + intros i x y Hi Hx. rewrite list_lookup_fmap, lookup_seq_lt by done. cbn.
      rewrite Nat2Z.id, Hx. by intros [= <-].
  - apply list_eq_same_length with n; [by rewrite length_fmap, length_seq|by rewrite length_replicate|].
    intros i x y Hi. rewrite lookup_replicate_2, list_lookup_fmap, lookup_seq_lt by done. cbn. congruence.
Qed.

Lemma CexCachingSolver_sound :
  sound (fail ∨ CexCacheExperimental = true) (CexCachingSolver solver) cex_inv ∧
  ∀ s, Inv s → cex_inv (mkCex empty_node [], s).
Proof.
  split; [split|].
  - apply cex_truth_ok.
  - apply cex_validity_ok.
  - intros q Hq. apply some_assignment; [done|]. intros a Ha Hm.
    apply evaluate_constant; [done..|]. apply answers_ret. by exists (assignment_of a).
  - intros q objects Hq. eapply on_success_ok; [by apply getAssignment_cex|]. intros v Hv.
    apply answers_ret. destruct v as [a|]; [|done]. destruct Hv as (Ha & Hm & He).
    exists (assignment_of a). split_and!; [done..|]. apply list_fmap_ext. intros ? o _.
    by apply bound_bytes_ok.
  - intros s Hs. split; [|done]. split_and!; [apply tree_ok_empty|by intros [|? ?]|constructor].
Qed.

End impl_correct.
End cex_correct.


Section witnesses.
#[local] Existing Instance Sample.store.
#[local] Existing Instance Sample.store_wf.
#[local] Existing Instance identity.
#[local] Instance opt_on : Options := const_array_opt true.
#[local] Instance hash_on : VisitorOptions := {| UseVisitorHash := true |}.
#[local] Instance computable : QueryClass := {| in_range_only := true; computable_only := true; buildable_only := false |}.
#[local] Instance default_cex : CexOptions :=
  {| CexCacheTryAll := false; CexCacheExperimental := false; DebugCexCacheCheckBinding := true |}.
Import Sample.

End witnesses.

(** A query, its negation, and the cache after the negation was found valid *)
Section experimental.
#[local] Existing Instance Sample.store.
#[local] Existing Instance identity.
#[local] Instance opt_off : Options := const_array_opt false.
#[local] Instance hash_off : VisitorOptions := {| UseVisitorHash := false |}.
#[local] Instance experimental : CexOptions :=
  {| CexCacheTryAll := false; CexCacheExperimental := true; DebugCexCacheCheckBinding := false |}.
Import Sample.

Definition sample_query (v : Z) : Query :=
  mkQuery [Binary Ult (input 0) (const 2 8)] (Binary Eq (const v 8) (input 0)).

(** A solver that never fails, and is right about the negation *)
Definition always_valid : SolverImpl unit :=
  mkImpl (λ _, mret (Some true)) (λ _, mret (Some VTrue)) (λ _, mret None)
    (λ _ _, mret (Some None)).

(** With the experimental option the solver gives up on a query it has just
    refuted: after [computeTruth] of the negation, which is valid,
    [computeTruth] of the query reports a failure without asking the wrapped
    solver, which never fails. *)
Theorem cex_experimental_fails :
  ∃ nq, negateExpr (sample_query 5) = Done nq ∧ valid nq ∧
  ∃ st, computeTruth (CexCachingSolver always_valid) nq (mkCex empty_node [], tt) =
      Done (Some true, st) ∧
    computeTruth (CexCachingSolver always_valid) (sample_query 5) st = Done (None, st).
Proof.
  eexists. split; [vm_compute; reflexivity|]. split.
  - intros ρ [Hρ Hm]. specialize (Hm (Binary Ult (input 0) (const 2 8)) ltac:(by left)).
    cbn -[Z.eqb] in *. destruct (Z.ltb_spec (initial_byte ρ 2%positive 0) 2) as [?|?]; [|done].
    by rewrite (proj2 (Z.eqb_neq 5 _)) by lia.
  - eexists. split; [vm_compute; reflexivity|]. vm_compute; reflexivity.
Qed.
End experimental.
