(* ===== verification/StreamAnalyzer.v ===== *)
(** * Per-state data of the analyzers: [s2e/Chef/StreamAnalyzer.h]

    An analyzer of the execution stream attaches an object to every execution
    state: it creates it at the first use, copies it when the state forks, drops
    it when the state dies, and remembers the object used last.  The objects are
    shared through references: the model has the heap they live in, so that the
    remembered reference and the one in the map are the same object.  The theorem
    is a refinement: an analyzer behaves like a plain map from states to values.

    Execution states are named by their address, [NULL] by 0.  The map is an
    [llvm::DenseMap], whose insertions invalidate iterators when they make the table
    grow; when they do is a parameter.  The fork handler keeps an iterator across
    insertions: using it after one that invalidated it is a failure here. *)

From stdpp Require Import prelude gmap.
From S2P Require Import Prelude.

Section StreamAnalyzer.
Context {State : Type}.

(** The virtual functions [createState] and [clone] *)
Context (createState : Z → outcome State) (clone : State → Z → outcome State).

(** Whether the [n]-th insertion into the map makes its table grow *)
Context (grows : nat → bool).

(** [class StreamAnalyzer], with the objects its references point to.  [lru_] is
    [None] when it is the default pair, whose state is [NULL]. *)
Record StreamAnalyzer : Type := mkAnalyzer {
  heap : gmap Z State;
  next_ref : Z;
  state_map : gmap Z Z;
  insertions : nat;
  lru : option (Z * Z);
}.

Definition empty_analyzer : StreamAnalyzer := mkAnalyzer ∅ 0 ∅ 0 None.

(** A new object *)
Definition allocate (st : State) : M StreamAnalyzer Z := λ a,
  Done (next_ref a, mkAnalyzer (<[next_ref a := st]> (heap a)) (next_ref a + 1) (state_map a) (insertions a) (lru a)).

(** [lru_.first == s2e_state] *)
Definition lru_hit (s2e_state : Z) (a : StreamAnalyzer) : option Z :=
  match lru a with
  | Some (k, r) => if k =? s2e_state then Some r else None
  | None => None
  end.

(** [StreamAnalyzer::getState] *)
Definition getState (s2e_state : Z) : M StreamAnalyzer Z := λ a,
  _ ← cassert (negb (s2e_state =? 0));
  match lru_hit s2e_state a with
  | Some r => Done (r, a)
  | None =>
      match state_map a !! s2e_state with
      | None =>
          st ← createState s2e_state;
          '(r, a) ← allocate st a;
          Done (r, mkAnalyzer (heap a) (next_ref a) (<[s2e_state := r]> (state_map a))
            (1 + insertions a) (Some (s2e_state, r)))
      | Some r =>
          Done (r, mkAnalyzer (heap a) (next_ref a) (state_map a) (insertions a) (Some (s2e_state, r)))
      end
  end.

(** A dereferenced reference; every reference of the map is to a live object. *)
Definition deref (r : Z) : M StreamAnalyzer State := λ a,
  match heap a !! r with Some st => Done (st, a) | None => AssertFailed end.

Definition store (r : Z) (st : State) : M StreamAnalyzer unit := λ a,
  Done (tt, mkAnalyzer (<[r := st]> (heap a)) (next_ref a) (state_map a) (insertions a) (lru a)).

(** [state_map_.insert], with the assertion that the key is new; the result says
    whether iterators stay valid. *)
Definition insert_state (s2e_state r : Z) : M StreamAnalyzer bool := λ a,
  match state_map a !! s2e_state with
  | Some _ => AssertFailed
  | None =>
      Done (negb (grows (insertions a)),
        mkAnalyzer (heap a) (next_ref a) (<[s2e_state := r]> (state_map a)) (1 + insertions a) (lru a))
  end.

(** [it->second], [it] an iterator at an entry with the reference [r] *)
Definition it_second (valid : bool) (r : Z) : M StreamAnalyzer State :=
  _ ← lift (cassert valid); deref r.

(** The loop of [StreamAnalyzer::onStateFork] *)
Fixpoint fork_loop (s2e_state : Z) (valid : bool) (r : Z) (newStates : list Z) : M StreamAnalyzer unit :=
  match newStates with
  | [] => mret tt
  | new_s2e_state :: newStates =>
      if new_s2e_state =? s2e_state then fork_loop s2e_state valid r newStates
      else
        old ← it_second valid r;
        st ← lift (clone old new_s2e_state);
        r' ← allocate st;
        keeps ← insert_state new_s2e_state r';
        fork_loop s2e_state (valid && keeps) r newStates
  end.

(** [StreamAnalyzer::onStateFork] *)
Definition onStateFork (s2e_state : Z) (newStates : list Z) : M StreamAnalyzer unit := λ a,
  match state_map a !! s2e_state with
  | None => Done (tt, a)
  | Some r => fork_loop s2e_state true r newStates a
  end.

(** [StreamAnalyzer::onStateKill]; the result is the object that is told to
    [terminate()]. *)
Definition onStateKill (s2e_state : Z) : M StreamAnalyzer (option State) := λ a,
  let lru' := if lru_hit s2e_state a is Some _ then None else lru a in
  let a := mkAnalyzer (heap a) (next_ref a) (state_map a) (insertions a) lru' in
  match state_map a !! s2e_state with
  | None => Done (None, a)
  | Some r =>
      '(st, a) ← deref r a;
      Done (Some st, mkAnalyzer (heap a) (next_ref a) (delete s2e_state (state_map a)) (insertions a) (lru a))
  end.

(** What the rest of the program does with an analyzer: use the object of a state
    (read it and change it), fork a state, kill a state *)
Inductive AnalyzerOp : Type :=
| UseState (s2e_state : Z) (f : State → State)
| ForkState (s2e_state : Z) (newStates : list Z)
| KillState (s2e_state : Z).

(** A fork into one new state, as [S2EExecutor::notifyFork] reports it *)
Definition binary_fork (o : AnalyzerOp) : Prop :=
  match o with ForkState k news => (length (others k news) ≤ 1)%nat | _ => True end.

Definition run_op (o : AnalyzerOp) : M StreamAnalyzer (option State) :=
  match o with
  | UseState k f => r ← getState k; st ← deref r; _ ← store r (f st); mret (Some st)
  | ForkState k news => _ ← onStateFork k news; mret None
  | KillState k => onStateKill k
  end.

Fixpoint run_ops (l : list AnalyzerOp) : M StreamAnalyzer (list (option State)) :=
  match l with
  | [] => mret []
  | o :: l => r ← run_op o; rs ← run_ops l; mret (r :: rs)
  end.

(** ** The abstract analyzer: a map *)

Definition map_insert (k : Z) (st : State) : M (gmap Z State) unit := λ m,
  match m !! k with Some _ => AssertFailed | None => Done (tt, <[k := st]> m) end.

Fixpoint map_fork (k : Z) (old : State) (news : list Z) : M (gmap Z State) unit :=
  match news with
  | [] => mret tt
  | k' :: news =>
      if k' =? k then map_fork k old news
      else
        st ← lift (clone old k');
        _ ← map_insert k' st;
        map_fork k old news
  end.

Definition map_op (o : AnalyzerOp) : M (gmap Z State) (option State) :=
  match o with
  | UseState k f => λ m,
        _ ← cassert (negb (k =? 0));
        match m !! k with
        | Some st => Done (Some st, <[k := f st]> m)
        | None => st ← createState k; Done (Some st, <[k := f st]> m)
        end
  | ForkState k news => λ m,
      match m !! k with
      | Some old => '(_, m) ← map_fork k old news m; Done (None, m)
      | None => Done (None, m)
      end
  | KillState k => λ m, Done (m !! k, delete k m)
  end.

Fixpoint map_ops (l : list AnalyzerOp) : M (gmap Z State) (list (option State)) :=
  match l with
  | [] => mret []
  | o :: l => r ← map_op o; rs ← map_ops l; mret (r :: rs)
  end.

(** The map an analyzer stands for *)
Definition contents (a : StreamAnalyzer) : gmap Z State :=
  omap (λ r, heap a !! r) (state_map a).

(** References are live and not shared, and the remembered one is current. *)
Record analyzer_ok (a : StreamAnalyzer) : Prop := {
  refs_live k r : state_map a !! k = Some r → is_Some (heap a !! r);
  refs_old r : is_Some (heap a !! r) → r < next_ref a;
  refs_inj k k' r : state_map a !! k = Some r → state_map a !! k' = Some r → k = k';
  lru_current k r : lru a = Some (k, r) → state_map a !! k = Some r ∧ k ≠ 0;
}.

(** A computation of the analyzer and one of the map agree: both fail alike, or
    return the same result in related states. *)
Definition agrees {A} (m : M StreamAnalyzer A) (m' : M (gmap Z State) A) (a : StreamAnalyzer) : Prop :=
  match m a with
  | Done (x, a') => m' (contents a) = Done (x, contents a') ∧ analyzer_ok a'
  | AssertFailed => m' (contents a) = AssertFailed
  | OutOfFuel => m' (contents a) = OutOfFuel
  end.

(** A new object under a new key *)
Definition bind_new (k : Z) (st : State) (l : option (Z * Z)) (a : StreamAnalyzer) : StreamAnalyzer :=
  mkAnalyzer (<[next_ref a := st]> (heap a)) (next_ref a + 1) (<[k := next_ref a]> (state_map a))
    (1 + insertions a) l.

(** ** Lemmas *)

Lemma contents_lookup a k : contents a !! k = state_map a !! k ≫= λ r, heap a !! r.
Proof. unfold contents. apply lookup_omap. Qed.

Lemma fresh_ref a k : analyzer_ok a → state_map a !! k ≠ Some (next_ref a).
Proof.
  intros Ha Hk. pose proof (refs_old a Ha _ (refs_live a Ha _ _ Hk)). lia.
Qed.

Lemma bind_new_ok k st l a :
  analyzer_ok a → state_map a !! k = None →
  (l = lru a ∨ l = Some (k, next_ref a) ∧ k ≠ 0) →
  analyzer_ok (bind_new k st l a) ∧ contents (bind_new k st l a) = <[k := st]> (contents a).
Proof.
  intros Ha Hk Hl. pose proof (fresh_ref a) as Hfresh. split.
  - split; cbn.
    + intros k' r. rewrite lookup_insert_Some, lookup_insert_is_Some.
      intros [[-> <-]|[_ Hr]]; [by left|]. right. split; [|by eapply refs_live].
      intros <-. by eapply Hfresh.
    + intros r. rewrite lookup_insert_is_Some. intros [<-|[_ Hr]]; [lia|].
      pose proof (refs_old a Ha r Hr). lia.
    + intros k1 k2 r. rewrite !lookup_insert_Some.
      intros [[<- <-]|[_ H1]] [[<- Heq]|[_ H2]]; [done|by destruct (Hfresh k2 Ha)| |].
      * subst r. by destruct (Hfresh k1 Ha).
      * by apply (refs_inj a Ha k1 k2 r).
    + intros k' r Hlr. rewrite lookup_insert_Some. destruct Hl as [->|[-> ?]].
      * destruct (lru_current a Ha _ _ Hlr) as [? ?]. split; [right|done]. split; [congruence|done].
      * injection Hlr as <- <-. split; [by left|done].
  - apply map_eq. intros k'. rewrite contents_lookup. cbn.
    destruct (decide (k = k')) as [<-|Hne].
    + rewrite !lookup_insert_eq. cbn. by rewrite lookup_insert_eq.
    + rewrite !lookup_insert_ne, contents_lookup by done.
      destruct (state_map a !! k') as [r|] eqn:Hr; cbn; [|done].
      rewrite lookup_insert_ne; [done|]. intros <-. by eapply Hfresh.
Qed.

Lemma analyzer_store_ok k r st a :
  analyzer_ok a → state_map a !! k = Some r →
  let a' := mkAnalyzer (<[r := st]> (heap a)) (next_ref a) (state_map a) (insertions a) (lru a) in
  analyzer_ok a' ∧ contents a' = <[k := st]> (contents a).
Proof.
  intros Ha Hk a'. split.
  - split; cbn; [| |apply Ha..].
    + intros k' r' Hr. rewrite lookup_insert_is_Some'. right. by eapply refs_live.
    + intros r'. rewrite lookup_insert_is_Some'. intros [<-|?]; apply Ha; [|done]. by eapply refs_live.
  - apply map_eq. intros k'. rewrite contents_lookup. cbn. destruct (decide (k = k')) as [<-|Hne].
    + rewrite Hk, lookup_insert_eq. cbn. by rewrite lookup_insert_eq.
    + rewrite lookup_insert_ne, contents_lookup by done.
      destruct (state_map a !! k') as [r'|] eqn:Hr; cbn; [|done].
      rewrite lookup_insert_ne; [done|]. intros ->. by destruct Hne; eapply (refs_inj a).
Qed.

Lemma set_lru_ok l a :
  analyzer_ok a → (∀ k r, l = Some (k, r) → state_map a !! k = Some r ∧ k ≠ 0) →
  analyzer_ok (mkAnalyzer (heap a) (next_ref a) (state_map a) (insertions a) l).
Proof. intros Ha Hl. split; cbn; [apply Ha..|done]. Qed.

Lemma getState_ok k a :
  analyzer_ok a →
  match getState k a with
  | Done (r, a') => k ≠ 0 ∧ analyzer_ok a' ∧ state_map a' !! k = Some r ∧ ∃ st,
      heap a' !! r = Some st ∧
      (contents a !! k = Some st ∧ contents a' = contents a ∨
       contents a !! k = None ∧ createState k = Done st ∧ contents a' = <[k := st]> (contents a))
  | AssertFailed => k = 0 ∨ contents a !! k = None ∧ createState k = AssertFailed
  | OutOfFuel => k ≠ 0 ∧ contents a !! k = None ∧ createState k = OutOfFuel
  end.
Proof.
  intros Ha. unfold getState. destruct (k =? 0) eqn:Hk; cbn; unbool; [by left|].
  assert (∀ r, state_map a !! k = Some r → ∃ st, heap a !! r = Some st ∧ contents a !! k = Some st) as Hold.
  { intros r Hr. destruct (refs_live a Ha k r Hr) as [st Hst]. exists st.
    by rewrite contents_lookup, Hr. }
  destruct (lru_hit k a) as [r|] eqn:Hlru.
  { unfold lru_hit in Hlru. destruct (lru a) as [[k' r']|] eqn:Hl; [|done].
    destruct (k' =? k) eqn:?; [|done]. unbool. subst. injection Hlru as ->.
    destruct (lru_current a Ha k r Hl) as [Hr _]. destruct (Hold r Hr) as (st & ? & ?).
    split_and!; [done..|]. exists st. split; [done|]. by left. }
  destruct (state_map a !! k) as [r|] eqn:Hr.
  { destruct (Hold r eq_refl) as (st & ? & ?). cbn. split_and!; [done| |done|].
    - apply set_lru_ok; [done|]. by intros ?? [= <- <-].
    - exists st. split; [done|]. by left. }
  assert (contents a !! k = None) as Hnone by (by rewrite contents_lookup, Hr).
  destruct (createState k) as [st| |] eqn:Hst; cbn; [|by right|done].
  destruct (bind_new_ok k st (Some (k, next_ref a)) a) as [Hok Hc]; [done..|by right|].
  split_and!; [done|exact Hok|by rewrite lookup_insert_eq|].
  exists st. split; [by rewrite lookup_insert_eq|]. by right.
Qed.

Lemma agrees_bind {A B} (m : M StreamAnalyzer A) m' (f : A → M StreamAnalyzer B) f' a :
  agrees m m' a → (∀ x a', analyzer_ok a' → agrees (f x) (f' x) a') →
  agrees (m ≫= f) (m' ≫= f') a.
Proof.
  unfold agrees, mbind, M_bind. intros Hm Hf. destruct (m a) as [[x a']| |]; cbn.
  - destruct Hm as [-> Ha']. cbn. by apply Hf.
  - by rewrite Hm.
  - by rewrite Hm.
Qed.

(** As long as the iterator is not used after an insertion that invalidated it, the loop
    copies into the map. *)
Lemma fork_loop_agrees k (valid : bool) r old news a :
  analyzer_ok a → state_map a !! k = Some r → heap a !! r = Some old →
  (length (others k news) ≤ (if valid then 1 else 0))%nat ∨ valid = true ∧ (∀ n, grows n = false) →
  agrees (fork_loop k valid r news) (map_fork k old news) a.
Proof.
  revert valid a. induction news as [|k' news IH]; intros valid a Ha Hk Hr Hone; [by split|].
  cbn [fork_loop map_fork]. rewrite others_cons in Hone. case_step; [by apply IH|]. unbool.
  destruct valid; [|destruct Hone as [?|[? _]]; [cbn in *; lia|done]].
  unfold agrees, it_second, deref, mbind, M_bind, lift. cbn. rewrite Hr. cbn.
  destruct (clone old k') as [st| |]; cbn; [|done..].
  unfold insert_state, map_insert. cbn. rewrite contents_lookup.
  destruct (state_map a !! k') as [r'|] eqn:Hk'; cbn.
  { destruct (refs_live a Ha _ _ Hk') as [st' ->]. done. }
  destruct (bind_new_ok k' st (lru a) a) as [Hok Hc]; [done..|by left|].
  rewrite <- Hc. apply (IH _ (bind_new k' st (lru a) a)); [done|..]; cbn.
  - by rewrite lookup_insert_ne.
  - rewrite lookup_insert_ne; [done|]. intros <-. by eapply (fresh_ref a).
  - destruct Hone as [Hone|[_ Hg]]; [left; cbn in Hone; lia|right]. by rewrite Hg.
Qed.

Lemma kill_agrees k a : analyzer_ok a → agrees (onStateKill k) (map_op (KillState k)) a.
Proof.
  intros Ha. unfold agrees, onStateKill. cbn.
  set (l := match lru_hit k a with Some _ => None | None => lru a end).
  assert (∀ k' r, l = Some (k', r) → (state_map a !! k' = Some r ∧ k' ≠ 0) ∧ k' ≠ k) as Hl.
  { intros k' r Hl. unfold l, lru_hit in Hl. destruct (lru a) as [[k2 r2]|] eqn:Hlru; [|done].
    destruct (k2 =? k) eqn:?; [done|]. unbool. injection Hl as <- <-.
    split; [by apply lru_current|done]. }
  assert (contents a !! k = state_map a !! k ≫= λ r, heap a !! r) as Hck by apply contents_lookup.
  destruct (state_map a !! k) as [r|] eqn:Hk; cbn in *.
  - destruct (refs_live a Ha _ _ Hk) as [st Hst]. unfold deref. cbn. rewrite Hst in *. cbn.
    rewrite Hck. split.
    + do 2 f_equal. unfold contents. cbn. by rewrite omap_delete.
    + split; cbn; [| |..].
      * intros k' r' [_ ?]%lookup_delete_Some. by eapply refs_live.
      * apply Ha.
      * intros k1 k2 r' [_ ?]%lookup_delete_Some [_ ?]%lookup_delete_Some. by eapply (refs_inj a).
      * intros k' r' Heq. destruct (Hl _ _ Heq) as [[? ?] ?]. by rewrite lookup_delete_ne by done.
  - rewrite Hck. split; [by rewrite delete_id|]. apply set_lru_ok; [done|]. intros. by apply Hl.
Qed.

Lemma run_op_agrees o a :
  analyzer_ok a → binary_fork o ∨ (∀ n, grows n = false) → agrees (run_op o) (map_op o) a.
Proof.
  intros Ha Hone. destruct o as [k f|k news|k]; [| |by apply kill_agrees].
  - pose proof (getState_ok k a Ha) as Hg. unfold agrees. cbn. unfold mbind, M_bind.
    destruct (getState k a) as [[r a']| |]; cbn.
    + destruct Hg as (Hk & Ha' & Hr & st & Hst & Hc). unfold deref. rewrite Hst. cbn.
      destruct (analyzer_store_ok k r (f st) a' Ha' Hr) as [Hok Hst']. unfold contents in Hst' at 1.
      cbn in Hst'. rewrite (proj2 (Z.eqb_neq k 0)), Hst' by done. split; [|done].
      destruct Hc as [[-> Heq]|(-> & -> & Heq)]; cbn; rewrite Heq; [done|].
      by rewrite insert_insert_eq.
    + destruct Hg as [->|[-> ->]]; [done|]. by destruct (k =? 0).
    + destruct Hg as (? & -> & ->). by rewrite (proj2 (Z.eqb_neq k 0)).
  - unfold agrees. cbn. unfold mbind, M_bind, onStateFork. rewrite contents_lookup.
    destruct (state_map a !! k) as [r|] eqn:Hk; cbn; [|done].
    destruct (refs_live a Ha _ _ Hk) as [old Hold]. rewrite Hold.
    pose proof (fork_loop_agrees k true r old news a Ha Hk Hold ltac:(naive_solver)) as Hf. unfold agrees in Hf.
    destruct (fork_loop k true r news a) as [[[] a']| |]; cbn; [|by rewrite Hf..].
    destruct Hf as [-> ?]. done.
Qed.

Lemma run_ops_agrees l a :
  analyzer_ok a → Forall binary_fork l ∨ (∀ n, grows n = false) → agrees (run_ops l) (map_ops l) a.
Proof.
  revert a. induction l as [|o l IH]; intros a Ha Hl; [by split|]. rewrite Forall_cons in Hl.
  apply agrees_bind; [apply run_op_agrees; naive_solver|]. intros r a' Ha'.
  apply agrees_bind; [apply IH; naive_solver|]. by intros rs a2 Ha2.
Qed.

(** The second copy is made through an iterator that the insertion of the first one
    invalidated. *)
Lemma fork_loop_dangles k r old k1 k2 st1 news a :
  k1 ≠ k → k2 ≠ k → heap a !! r = Some old → clone old k1 = Done st1 → state_map a !! k1 = None →
  grows (insertions a) = true → fork_loop k true r (k1 :: k2 :: news) a = AssertFailed.
Proof.
  intros H1 H2 Hr Hc Hk Hg. cbn [fork_loop]. rewrite (proj2 (Z.eqb_neq k1 k)), (proj2 (Z.eqb_neq k2 k)) by done.
  unfold it_second, deref, mbind, M_bind, lift. cbn. rewrite Hr. cbn. rewrite Hc. cbn.
  unfold insert_state. cbn. by rewrite Hk, Hg.
Qed.

(** What a fork does to the map *)
Lemma map_fork_lookup k old news m m' u k' :
  map_fork k old news m = Done (u, m') →
  if bool_decide (k' ∈ news ∧ k' ≠ k)
  then m !! k' = None ∧ ∃ st, clone old k' = Done st ∧ m' !! k' = Some st
  else m' !! k' = m !! k'.
Proof.
  revert m. induction news as [|k1 news IH]; intros m; cbn.
  { intros [= _ <-]. rewrite bool_decide_false; [done|]. by intros [?%elem_of_nil _]. }
  case_step; unbool.
  - intros ?%IH. case_bool_decide as H1; case_bool_decide as H2; [done| | |done]; set_solver.
  - unfold mbind, M_bind, lift. destruct (clone old k1) as [st| |] eqn:Hst; cbn; [|done..].
    unfold map_insert. destruct (m !! k1) eqn:Hk1; cbn; [done|]. intros Hm%IH.
    destruct (decide (k' = k1)) as [->|Hne].
    + rewrite (bool_decide_true (k1 ∈ k1 :: news ∧ k1 ≠ k)) by set_solver.
      split; [done|]. exists st. split; [done|].
      rewrite lookup_insert_eq in Hm. case_bool_decide; [by destruct Hm|done].
    + rewrite lookup_insert_ne in Hm by done.
      case_bool_decide as H1; case_bool_decide as H2; [done| | |done]; set_solver.
Qed.

Lemma map_fork_total k old news m :
  NoDup news → (∀ k', k' ∈ news → k' ≠ k → m !! k' = None ∧ ∃ st, clone old k' = Done st) →
  map_fork k old news m ⇓ λ _, True.
Proof.
  intros Hd. revert m. induction Hd as [|k1 news Hk1 Hd IH]; intros m Hm; cbn; [done|].
  case_step; unbool; [apply IH; set_solver|].
  unfold mbind, M_bind, lift. destruct (Hm k1) as (Hnone & st & ->); [set_solver|done|]. cbn.
  unfold map_insert. rewrite Hnone. cbn. apply IH. intros k' Hk' Hne.
  rewrite lookup_insert_ne by set_solver. set_solver.
Qed.

Lemma empty_analyzer_ok : analyzer_ok empty_analyzer.
Proof. split; cbn; [|by intros r [? ?]|..]; done. Qed.

End StreamAnalyzer.

(** The value of a state after a fork, when copies do not depend on the new state *)
Lemma fork_value {State} create (copy : State → State) k news (m m' : gmap Z State) u k' :
  map_op create (λ s _, Done (copy s)) (ForkState k news) m = Done (u, m') →
  m' !! k' = m !! k' ∧ (k' ∈ news → k' ≠ k → m !! k = None) ∨
  (k' ∈ news ∧ k' ≠ k) ∧ m !! k' = None ∧ ∃ old, m !! k = Some old ∧ m' !! k' = Some (copy old).
Proof.
  cbn. destruct (m !! k) as [old|] eqn:Hk; [|intros [= _ <-]; by left].
  destruct (map_fork _ k old news m) as [[[] m2]| |] eqn:Hf; cbn; [|done..]. intros [= _ <-].
  apply (map_fork_lookup create) with (k' := k') in Hf. case_bool_decide as Hb.
  - right. destruct Hf as (Hnone & st & [= <-] & Hst). split; [done|]. eauto.
  - left. split; [done|]. intros ??. by destruct Hb.
Qed.

Lemma fork_possible {State} create (copy : State → State) k news (m : gmap Z State) :
  NoDup news → (∀ k', k' ∈ news → k' ≠ k → m !! k' = None) →
  map_op create (λ s _, Done (copy s)) (ForkState k news) m ⇓ λ _, True.
Proof.
  intros Hd Hnews. cbn. destruct (m !! k) as [old|]; [|done]. apply yields_bind.
  eapply yields_mono; [apply (map_fork_total create); [done|]; by eauto|]. by intros [].
Qed.

(** C29: an analyzer refines a map from execution states to values, as long as a fork
    makes one new state, which is what [S2EExecutor::notifyFork] reports, or no insertion
    makes the table of the map grow.  Whatever sequence of uses, forks and kills the
    program then makes, it fails exactly when the operations on the map fail; otherwise
    every use sees the value the map has, every kill hands over the value the map has, and
    the objects that the references lead to are those of the map.  Reading through the
    remembered reference is never stale, and a change to the object of one state is never
    seen in another. *)
Theorem analyzer_refines_map {State} (createState : Z → outcome State) clone grows l :
  Forall binary_fork l ∨ (∀ n, grows n = false) →
  match run_ops createState clone grows l empty_analyzer with
  | Done (rs, a) => map_ops createState clone l ∅ = Done (rs, contents a) ∧ analyzer_ok a
  | AssertFailed => map_ops createState clone l ∅ = AssertFailed
  | OutOfFuel => map_ops createState clone l ∅ = OutOfFuel
  end.
Proof. exact (run_ops_agrees createState clone grows l empty_analyzer empty_analyzer_ok). Qed.

Lemma analyzer_refines_map_witness :
  let l := [UseState 1 (Z.add 5); ForkState 1 [1; 2]; UseState 2 (Z.add 1); KillState 1] in
  match run_ops (λ k, Done k) (λ st _, Done st) (λ _, true) l empty_analyzer with
  | Done (rs, a) => map_ops (λ k, Done k) (λ st _, Done st) l ∅ = Done (rs, contents a) ∧ analyzer_ok a
  | AssertFailed => map_ops (λ k, Done k) (λ st _, Done st) l ∅ = AssertFailed
  | OutOfFuel => map_ops (λ k, Done k) (λ st _, Done st) l ∅ = OutOfFuel
  end.
Proof.
  intros l. apply (analyzer_refines_map (λ k, Done k) (λ st _, Done st) (λ _, true) l).
  left. repeat constructor.
Defined.

(** A fork into two or more new states reads freed memory when the first insertion
    makes the table grow: the loop copies the second state through an iterator that the
    insertion invalidated.  This is so for every analyzer that has an object of the forked
    state, whatever the new states are. *)
Theorem fork_iterator_dangles {State} (clone : State → Z → outcome State) grows k r old k1 k2 st1 news a :
  state_map a !! k = Some r → heap a !! r = Some old →
  k1 ≠ k → k2 ≠ k → clone old k1 = Done st1 → state_map a !! k1 = None → grows (insertions a) = true →
  onStateFork clone grows k (k1 :: k2 :: news) a = AssertFailed.
Proof. intros Hk ??????. unfold onStateFork. rewrite Hk. by eapply fork_loop_dangles. Qed.

Lemma fork_iterator_dangles_witness :
  let a := mkAnalyzer {[0 := 7]} 1 {[1 := 0]} 1 None in
  onStateFork (λ st _, Done st) (λ n, bool_decide (n = 1%nat)) 1 [2; 3] a = AssertFailed.
Proof.
  intros a. refine (fork_iterator_dangles (λ st _, Done st) (λ n, bool_decide (n = 1%nat)) 1 0 7 2 3 7 [] a _ _ _ _ _ _ _);
    done.
Defined.
