(* ===== verification/Selectors.v ===== *)
(** * State selectors: [s2e/Selectors.h]

    A selector is a set of values with a policy to choose one of them.  The two
    interfaces of the source, [Selector] and [Selector2], are type classes of
    operations, each with a class of laws: the operations act on a finite set of
    values.  The laws are proved of every implementation, and the composed
    selectors are proved against the laws of the selectors they are built from.

    The numbers [rand()] returns are an argument of the operations that draw some.  The default
    value that [Selector2::select] returns when there is nothing to select is
    [None].  The selector that weighs its values with [double]s is not here. *)

From stdpp Require Import prelude gmap sorting.
From S2P Require Import Prelude.

(** ** [class Selector] *)

Class Selector (V T : Type) := {
  selector_new : T;
  selector_select : (nat → Z) → T → outcome (V * T);
  selector_insert : V → T → outcome (bool * T);
  selector_erase : V → T → outcome (bool * T);
  selector_clear : T → T;
  selector_empty : T → bool;
  selector_size : T → Z;
  selector_copyTo : T → list V;
}.

(** The contract: the values are a set *)
Class SelectorLaws (V T : Type) `{Countable V, !Selector V T} := {
  selector_ok : T → Prop;
  values : T → gset V;
  new_law : selector_ok selector_new ∧ values selector_new = ∅;
  select_law r t : selector_ok t → (∀ n, 0 ≤ r n) →
    if bool_decide (values t = ∅) then selector_select r t = AssertFailed
    else selector_select r t ⇓ λ '(v, t'), v ∈ values t ∧ selector_ok t' ∧ values t' = values t;
  insert_law v t : selector_ok t →
    selector_insert v t ⇓ λ '(b, t'), b = bool_decide (v ∉ values t) ∧ selector_ok t' ∧
      values t' = {[v]} ∪ values t;
  erase_law v t : selector_ok t →
    selector_erase v t ⇓ λ '(b, t'), b = bool_decide (v ∈ values t) ∧ selector_ok t' ∧
      values t' = values t ∖ {[v]};
  clear_law t : selector_ok t → selector_ok (selector_clear t) ∧ values (selector_clear t) = ∅;
  empty_law t : selector_ok t → selector_empty t = bool_decide (values t = ∅);
  size_law t : selector_ok t → selector_size t = Z.of_nat (size (values t));
  copyTo_law t : selector_ok t → selector_copyTo t ≡ₚ elements (values t);
}.

(** ** [class RandomSelector] *)

Module RandomSelector.

(** [vector_container_] and [map_container_] *)
Record t (V : Type) `{Countable V} : Type := mk { vec : list V; index : gmap V nat }.
Arguments mk {V _ _}.
Arguments vec {V _ _}.
Arguments index {V _ _}.

Section RandomSelector.
Context `{Countable V}.

(** [RandomSelector::select]; [r 0] is what [random_gen_()] returns. *)
Definition select (r : nat → Z) (s : t V) : outcome (V * t V) :=
  _ ← cassert (negb (bool_decide (vec s = [])));
  match vec s !! Z.to_nat (r 0%nat mod Z.of_nat (length (vec s))) with
  | Some v => Done (v, s)
  | None => AssertFailed
  end.

(** [RandomSelector::insert] *)
Definition insert (v : V) (s : t V) : outcome (bool * t V) :=
  match index s !! v with
  | Some _ => Done (false, s)
  | None => Done (true, mk (vec s ++ [v]) (<[v := length (vec s)]> (index s)))
  end.

(** [RandomSelector::erase].  An index out of range would be undefined behaviour. *)
Definition erase (v : V) (s : t V) : outcome (bool * t V) :=
  match index s !! v with
  | None => Done (false, s)
  | Some i =>
      if decide (i ≠ length (vec s) - 1)%nat then
        match vec s !! (length (vec s) - 1)%nat with
        | None => AssertFailed
        | Some w =>
            let vec' := take (length (vec s) - 1) (<[i := w]> (vec s)) in
            match vec' !! i with
            | None => AssertFailed
            | Some w => Done (true, mk vec' (<[w := i]> (delete v (index s))))
            end
        end
      else Done (true, mk (take (length (vec s) - 1) (vec s)) (delete v (index s)))
  end.

#[global] Instance ops : Selector V (t V) := {
  selector_new := mk [] ∅;
  selector_select := select;
  selector_insert := insert;
  selector_erase := erase;
  selector_clear := λ _, mk [] ∅;
  selector_empty := λ s, bool_decide (vec s = []);
  selector_size := λ s, Z.of_nat (length (vec s));
  selector_copyTo := vec;
}.

(** The map is the inverse of the vector. *)
Definition ok (s : t V) : Prop := ∀ v i, index s !! v = Some i ↔ vec s !! i = Some v.

End RandomSelector.
End RandomSelector.

(** ** [class RoundRobinSelector]

    The [std::set] is an ordered list; the iterator [current_] is the element it
    is at, [None] at the end. *)

Module RoundRobinSelector.

Record t : Set := mk { container : list Z; current : option Z }.

(** [container_.begin()] *)
Definition begin (l : list Z) : option Z := head l.

(** The iterator after the one at [v] *)
Definition next (v : Z) (l : list Z) : option Z := head (filter (λ x, v < x) l).

(** [std::set::insert] *)
Fixpoint set_insert (v : Z) (l : list Z) : bool * list Z :=
  match l with
  | [] => (true, [v])
  | x :: l' =>
      if v <? x then (true, v :: l)
      else if v =? x then (false, l)
      else let '(b, l'') := set_insert v l' in (b, x :: l'')
  end.

(** [RoundRobinSelector::select] *)
Definition select (_ : nat → Z) (s : t) : outcome (Z * t) :=
  _ ← cassert (negb (bool_decide (container s = [])));
  match (match current s with None => begin (container s) | c => c end) with
  | Some v => Done (v, mk (container s) (next v (container s)))
  | None => AssertFailed
  end.

(** [RoundRobinSelector::insert] *)
Definition insert (v : Z) (s : t) : outcome (bool * t) :=
  let '(b, l) := set_insert v (container s) in Done (b, mk l (current s)).

(** [RoundRobinSelector::erase] *)
Definition erase (v : Z) (s : t) : outcome (bool * t) :=
  if bool_decide (v ∈ container s) then
    let current' := if bool_decide (current s = Some v) then next v (container s) else current s in
    Done (true, mk (filter (λ x, x ≠ v) (container s)) current')
  else Done (false, s).

#[global] Instance ops : Selector Z t := {
  selector_new := mk [] None;
  selector_select := select;
  selector_insert := insert;
  selector_erase := erase;
  selector_clear := λ _, mk [] None;
  selector_empty := λ s, bool_decide (container s = []);
  selector_size := λ s, Z.of_nat (length (container s));
  selector_copyTo := container;
}.

(** The copy constructor and [operator=] start over. *)
Definition copy (s : t) : t := mk (container s) (begin (container s)).

(** [n] selections in a row *)
Fixpoint select_n (n : nat) (s : t) : outcome (list Z * t) :=
  match n with
  | O => Done ([], s)
  | S n =>
      '(v, s) ← select (λ _, 0) s;
      '(vs, s) ← select_n n s;
      Done (v :: vs, s)
  end.

Definition ok (s : t) : Prop :=
  StronglySorted Z.lt (container s) ∧ ∀ v, current s = Some v → v ∈ container s.

End RoundRobinSelector.

(** ** [class ClassSelector]

    A sub-selector for every class of values, and a selector of classes. *)

Module ClassSelector.

Record t (V K S KS : Type) `{Countable V, Countable K} : Type := mk {
  container : gmap K S;
  key_selector : KS;
  reverse_index : gmap V K;
}.
Arguments mk {V K S KS _ _ _ _}.
Arguments container {V K S KS _ _ _ _}.
Arguments key_selector {V K S KS _ _ _ _}.
Arguments reverse_index {V K S KS _ _ _ _}.

Section ClassSelector.
Context `{Countable V, Countable K} {S KS : Type} `{!Selector V S, !Selector K KS}.

(** [hasher_] *)
Context (hasher : V → K).

(** [ClassSelector::select]; the two selectors draw different numbers. *)
Definition select (r : nat → Z) (s : t V K S KS) : outcome (V * t V K S KS) :=
  _ ← cassert (negb (bool_decide (container s = ∅)));
  _ ← cassert (negb (selector_empty (key_selector s)));
  '(key, ks) ← selector_select (λ n, r (2 * n)%nat) (key_selector s);
  match container s !! key with
  | None => AssertFailed
  | Some sub =>
      '(v, sub) ← selector_select (λ n, r (2 * n + 1)%nat) sub;
      Done (v, mk (<[key := sub]> (container s)) ks (reverse_index s))
  end.

(** [ClassSelector::insert] *)
Definition insert (v : V) (s : t V K S KS) : outcome (bool * t V K S KS) :=
  match reverse_index s !! v with
  | Some _ => Done (false, s)
  | None =>
      let key := hasher v in
      '(_, sub) ← selector_insert v (default selector_new (container s !! key));
      '(_, ks) ← selector_insert key (key_selector s);
      Done (true, mk (<[key := sub]> (container s)) ks (<[v := key]> (reverse_index s)))
  end.

(** [ClassSelector::erase] *)
Definition erase (v : V) (s : t V K S KS) : outcome (bool * t V K S KS) :=
  match reverse_index s !! v with
  | None => Done (false, s)
  | Some key =>
      let rindex := delete v (reverse_index s) in
      match container s !! key with
      | None => AssertFailed
      | Some sub =>
          '(_, sub) ← selector_erase v sub;
          if negb (selector_empty sub) then
            Done (true, mk (<[key := sub]> (container s)) (key_selector s) rindex)
          else
            '(_, ks) ← selector_erase key (key_selector s);
            Done (true, mk (delete key (container s)) ks rindex)
      end
  end.

(** [ClassSelector::clear] *)
Definition clear (s : t V K S KS) : t V K S KS := mk ∅ (selector_clear (key_selector s)) ∅.

(** [size] and [copyTo] visit the classes in some order. *)
Definition ops : Selector V (t V K S KS) := {|
  selector_new := mk ∅ selector_new ∅;
  selector_select := select;
  selector_insert := insert;
  selector_erase := erase;
  selector_clear := clear;
  selector_empty := λ s, bool_decide (container s = ∅);
  selector_size := λ s, map_fold (λ _ sub n, n + selector_size sub) 0 (container s);
  selector_copyTo := λ s, map_fold (λ _ sub dst, dst ++ selector_copyTo sub) [] (container s);
|}.

End ClassSelector.
End ClassSelector.

(** ** [class GenerationalSelector] *)

Module GenerationalSelector.

(** [bins_[bin_index_]] and [bins_[1 - bin_index_]] *)
Record t (S : Type) : Type := mk { bin : S; other_bin : S }.
Arguments mk {S}.
Arguments bin {S}.
Arguments other_bin {S}.

Section GenerationalSelector.
Context {V S : Type} `{!Selector V S}.

(** [GenerationalSelector::empty] *)
Definition empty (s : t S) : bool := selector_empty (bin s) && selector_empty (other_bin s).

(** [GenerationalSelector::select] *)
Definition select (r : nat → Z) (s : t S) : outcome (V * t S) :=
  _ ← cassert (negb (empty s));
  let s := if selector_empty (bin s) then mk (other_bin s) (bin s) else s in
  '(v, b) ← selector_select r (bin s);
  Done (v, mk b (other_bin s)).

(** [GenerationalSelector::insert] *)
Definition insert (v : V) (s : t S) : outcome (bool * t S) :=
  '(b, o) ← selector_insert v (other_bin s);
  Done (b, mk (bin s) o).

(** [GenerationalSelector::erase] *)
Definition erase (v : V) (s : t S) : outcome (bool * t S) :=
  '(b, c) ← selector_erase v (bin s);
  if (b : bool) then Done (true, mk c (other_bin s))
  else
    '(b, o) ← selector_erase v (other_bin s);
    Done (b, mk c o).

#[global] Instance ops : Selector V (t S) := {
  selector_new := mk selector_new selector_new;
  selector_select := select;
  selector_insert := insert;
  selector_erase := erase;
  selector_clear := λ s, mk (selector_clear (bin s)) (selector_clear (other_bin s));
  selector_empty := empty;
  selector_size := λ s, selector_size (bin s) + selector_size (other_bin s);
  selector_copyTo := λ s, selector_copyTo (bin s) ++ selector_copyTo (other_bin s);
}.

End GenerationalSelector.
End GenerationalSelector.

(** ** [class Selector2] *)

Class Selector2 (V T : Type) := {
  update : V → T → outcome (bool * T);
  remove : V → T → outcome (bool * T);
  select : (nat → Z) → T → option V * T;
}.

(** The contract: [update] adds a value unless it is there, and reports which;
    [select] returns nothing exactly when there is nothing. *)
Class Selector2Laws (V T : Type) `{Countable V, !Selector2 V T} := {
  selector2_ok : T → Prop;
  members : T → gset V;
  update_law v t : selector2_ok t →
    update v t ⇓ λ '(b, t'),
    b = bool_decide (v ∉ members t) ∧ selector2_ok t' ∧ members t' = {[v]} ∪ members t;
  remove_law v t : selector2_ok t →
    remove v t ⇓ λ '(b, t'),
    b = bool_decide (v ∈ members t) ∧ selector2_ok t' ∧ members t' = members t ∖ {[v]};
  select2_law r t : selector2_ok t → (∀ n, 0 ≤ r n) →
    let '(o, t') := select r t in
    selector2_ok t' ∧ members t' = members t ∧ (o = None ↔ members t = ∅) ∧
    ∀ v, o = Some v → v ∈ members t;
}.

(** ** [class QueuedSelector], [BFSSelector] and [DFSSelector]

    An iterator of the list is the identity of a list node. *)

Module QueuedSelector.

Record t (V : Type) `{Countable V} : Type := mk {
  queue : list (nat * V);
  map : gmap V nat;
  next_node : nat;
}.
Arguments mk {V _ _}.
Arguments queue {V _ _}.
Arguments map {V _ _}.
Arguments next_node {V _ _}.

Section QueuedSelector.
Context `{Countable V}.

(** [queue_.erase(iterator)] *)
Definition erase_node (n : nat) (q : list (nat * V)) : list (nat * V) := filter (λ x, x.1 ≠ n) q.

(** [queue_.push_front(value)], and [queue_.begin()] in the map *)
Definition push_front (v : V) (s : t V) : t V :=
  mk ((next_node s, v) :: queue s) (<[v := next_node s]> (map s)) (S (next_node s)).

(** [QueuedSelector::update] *)
Definition update (v : V) (s : t V) : bool * t V :=
  match map s !! v with
  | Some n => (false, push_front v (mk (erase_node n (queue s)) (map s) (next_node s)))
  | None => (true, push_front v s)
  end.

(** [QueuedSelector::remove] *)
Definition remove (v : V) (s : t V) : bool * t V :=
  match map s !! v with
  | Some n => (true, mk (erase_node n (queue s)) (delete v (map s)) (next_node s))
  | None => (false, s)
  end.

(** The map leads to the one node of each value. *)
Record ok (s : t V) : Prop := {
  nodes_new n v : (n, v) ∈ queue s → (n < next_node s)%nat;
  nodes_unique : NoDup (queue s).*1;
  map_nodes v n : map s !! v = Some n ↔ (n, v) ∈ queue s;
}.

End QueuedSelector.
End QueuedSelector.

(** The two selectors share the queue and differ in [select]. *)
Module BFSSelector.
Record t (V : Type) `{Countable V} : Type := mk { base : QueuedSelector.t V }.
Arguments mk {V _ _}.
Arguments base {V _ _}.

(** [BFSSelector::select] *)
Definition select `{Countable V} (_ : nat → Z) (s : t V) : option V * t V :=
  (snd <$> last (QueuedSelector.queue (base s)), s).

#[global] Instance ops `{Countable V} : Selector2 V (t V) := {
  update v s := let '(b, q) := QueuedSelector.update v (base s) in Done (b, mk q);
  remove v s := let '(b, q) := QueuedSelector.remove v (base s) in Done (b, mk q);
  select := select;
}.
End BFSSelector.

Module DFSSelector.
Record t (V : Type) `{Countable V} : Type := mk { base : QueuedSelector.t V }.
Arguments mk {V _ _}.
Arguments base {V _ _}.

(** [DFSSelector::select] *)
Definition select `{Countable V} (_ : nat → Z) (s : t V) : option V * t V :=
  (snd <$> head (QueuedSelector.queue (base s)), s).

#[global] Instance ops `{Countable V} : Selector2 V (t V) := {
  update v s := let '(b, q) := QueuedSelector.update v (base s) in Done (b, mk q);
  remove v s := let '(b, q) := QueuedSelector.remove v (base s) in Done (b, mk q);
  select := select;
}.
End DFSSelector.

(** ** [class StickySelector] *)

Module StickySelector.
Record t (V T : Type) : Type := mk { base : T; sticky_value : option V }.
Arguments mk {V T}.
Arguments base {V T}.
Arguments sticky_value {V T}.

Section StickySelector.
Context `{Countable V} {T : Type} `{!Selector2 V T}.

(** [StickySelector::update] *)
Definition update (v : V) (s : t V T) : outcome (bool * t V T) :=
  '(b, t) ← Selectors.update v (base s);
  Done (b, mk t (sticky_value s)).

(** [StickySelector::remove] *)
Definition remove (v : V) (s : t V T) : outcome (bool * t V T) :=
  let sticky := if bool_decide (Some v = sticky_value s) then None else sticky_value s in
  '(b, t) ← Selectors.remove v (base s);
  Done (b, mk t sticky).

(** [StickySelector::select] *)
Definition select (r : nat → Z) (s : t V T) : option V * t V T :=
  match sticky_value s with
  | None => let '(o, t) := Selectors.select r (base s) in (o, mk t o)
  | Some v => (Some v, s)
  end.

#[global] Instance ops : Selector2 V (t V T) := {
  update := update;
  remove := remove;
  select := select;
}.
End StickySelector.
End StickySelector.

(** ** [class RandomSelector2]: the code of [RandomSelector] behind the other
    interface *)

Module RandomSelector2.
Record t (V : Type) `{Countable V} : Type := mk { base : RandomSelector.t V }.
Arguments mk {V _ _}.
Arguments base {V _ _}.

Section RandomSelector2.
Context `{Countable V}.

(** [RandomSelector2::update] *)
Definition update (v : V) (s : t V) : outcome (bool * t V) :=
  '(b, t) ← RandomSelector.insert v (base s);
  Done (b, mk t).

(** [RandomSelector2::remove] *)
Definition remove (v : V) (s : t V) : outcome (bool * t V) :=
  '(b, t) ← RandomSelector.erase v (base s);
  Done (b, mk t).

(** [RandomSelector2::select] *)
Definition select (r : nat → Z) (s : t V) : option V * t V :=
  let l := RandomSelector.vec (base s) in
  (l !! Z.to_nat (r 0%nat mod Z.of_nat (length l)), s).

#[global] Instance ops : Selector2 V (t V) := {
  update := update;
  remove := remove;
  select := select;
}.
End RandomSelector2.
End RandomSelector2.

(** ** What the contracts mean: sequences of operations *)

(** The operations of a [Selector]; [Query] reads [empty], [size] and [copyTo]. *)
Inductive SelectorOp (V : Type) : Type :=
| Select (r : nat → N)
| Insert (v : V)
| Erase (v : V)
| Clear
| Query.
Arguments Select {V}.
Arguments Insert {V}.
Arguments Erase {V}.
Arguments Clear {V}.
Arguments Query {V}.

(** What the program sees *)
Inductive SelectorResult (V : Type) : Type :=
| Selected (v : V)
| Changed (b : bool)
| Cleared
| Contents (empty : bool) (size : Z) (l : list V).
Arguments Selected {V}.
Arguments Changed {V}.
Arguments Cleared {V}.
Arguments Contents {V}.

Definition run_selector_op {V T} `{!Selector V T} (o : SelectorOp V) : M T (SelectorResult V) := λ t,
  match o with
  | Select r => '(v, t) ← selector_select (λ n, Z.of_N (r n)) t; Done (Selected v, t)
  | Insert v => '(b, t) ← selector_insert v t; Done (Changed b, t)
  | Erase v => '(b, t) ← selector_erase v t; Done (Changed b, t)
  | Clear => Done (Cleared, selector_clear t)
  | Query => Done (Contents (selector_empty t) (selector_size t) (selector_copyTo t), t)
  end.

Fixpoint run_selector {V T} `{!Selector V T} (l : list (SelectorOp V)) : M T (list (SelectorResult V)) :=
  match l with
  | [] => mret []
  | o :: l => r ← run_selector_op o; rs ← run_selector l; mret (r :: rs)
  end.

(** The same operations on a set: [select] may return any element. *)
Inductive set_step `{Countable V} : gset V → SelectorOp V → SelectorResult V → gset V → Prop :=
| set_select r v X : v ∈ X → set_step X (Select r) (Selected v) X
| set_insert v X : set_step X (Insert v) (Changed (bool_decide (v ∉ X))) ({[v]} ∪ X)
| set_erase v X : set_step X (Erase v) (Changed (bool_decide (v ∈ X))) (X ∖ {[v]})
| set_clear X : set_step X Clear Cleared ∅
| set_query X l : l ≡ₚ elements X →
    set_step X Query (Contents (bool_decide (X = ∅)) (Z.of_nat (size X)) l) X.

Inductive set_steps `{Countable V} :
    gset V → list (SelectorOp V) → list (SelectorResult V) → gset V → Prop :=
| set_done X : set_steps X [] [] X
| set_next X o r X' l rs X'' :
    set_step X o r X' → set_steps X' l rs X'' → set_steps X (o :: l) (r :: rs) X''.

(** A selector in state [t], which has the values [X], behaves as the set [X] does:
    it only fails in a selection from the empty set. *)
Definition behaves_as {V T} `{Countable V, !Selector V T} (t : T) (X : gset V) : Prop := ∀ l,
  match run_selector l t with
  | Done (rs, _) => ∃ X', set_steps X l rs X'
  | AssertFailed => ∃ l1 r l2 rs, l = l1 ++ Select r :: l2 ∧ set_steps X l1 rs ∅
  | OutOfFuel => False
  end.

(** The changes to a [Selector2] *)
Inductive Selector2Op (V : Type) : Type := Update (v : V) | Remove (v : V).
Arguments Update {V}.
Arguments Remove {V}.

Definition run_selector2_op {V T} `{!Selector2 V T} (o : Selector2Op V) : M T bool :=
  match o with Update v => update v | Remove v => remove v end.

Fixpoint run_selector2 {V T} `{!Selector2 V T} (l : list (Selector2Op V)) : M T (list bool) :=
  match l with
  | [] => mret []
  | o :: l => b ← run_selector2_op o; bs ← run_selector2 l; mret (b :: bs)
  end.

(** The values in the order of their last update, the newest first *)
Definition recency_op `{EqDecision V} (o : Selector2Op V) (l : list V) : bool * list V :=
  match o with
  | Update v => (bool_decide (v ∉ l), v :: filter (λ x, x ≠ v) l)
  | Remove v => (bool_decide (v ∈ l), filter (λ x, x ≠ v) l)
  end.

Fixpoint recency `{EqDecision V} (ops : list (Selector2Op V)) (l : list V) : list bool * list V :=
  match ops with
  | [] => ([], l)
  | o :: ops =>
      let '(b, l) := recency_op o l in
      let '(bs, l) := recency ops l in
      (b :: bs, l)
  end.

Definition empty_queue `{Countable V} : QueuedSelector.t V := QueuedSelector.mk [] ∅ 0.
