(* ===== verification/SelectorProofs.v ===== *)
(** * The selectors keep their contracts

    Every selector of [Selectors] acts on a finite set of values; composed
    selectors inherit this from the selectors they are built from. *)

From stdpp Require Import prelude gmap sorting.
From S2P Require Import Prelude Selectors.

(** ** [RandomSelector] *)

Section RandomSelector.
Context `{Countable V}.
Implicit Types s : RandomSelector.t V.
Import RandomSelector.

Lemma random_nodup s : ok s → NoDup (vec s).
Proof.
  intros Hok. apply NoDup_alt. intros i j v Hi%Hok Hj%Hok. congruence.
Qed.

Lemma random_member s v : ok s → v ∈ vec s ↔ is_Some (index s !! v).
Proof.
  intros Hok. rewrite list_elem_of_lookup. split.
  - intros [i Hi%Hok]. by exists i.
  - intros [i Hi]. exists i. by apply Hok.
Qed.

Lemma random_insert_ok v s :
  ok s → insert v s ⇓ λ '(b, s'), b = bool_decide (v ∉ vec s) ∧ ok s' ∧
    (∀ x, x ∈ vec s' ↔ x = v ∨ x ∈ vec s).
Proof.
  intros Hok. unfold insert. pose proof (random_member s v Hok) as Hm.
  destruct (index s !! v) as [i|] eqn:Hi.
  - assert (v ∈ vec s) by (apply Hm; eauto). split_and!; [|done|naive_solver].
    by rewrite bool_decide_false by naive_solver.
  - assert (v ∉ vec s) by (rewrite Hm; by intros []). split_and!.
    + by rewrite bool_decide_true.
    + intros x j. cbn. rewrite lookup_insert_Some, lookup_app_Some, list_lookup_singleton_Some.
      specialize (Hok x j). split.
      * intros [[-> <-]|[Hne Hx%Hok]]; [right; split; [lia|]; split; [lia|done]|by left].
      * intros [Hx|(Hle & Heq & <-)]; [|left; split; [done|lia]]. right. split; [|by apply Hok].
        intros <-. apply Hok in Hx. congruence.
    + intros x. cbn. set_solver.
Qed.

(** The map without [v], once the vector has lost one occurrence of [v] *)
Lemma random_members_without v s s' :
  ok s → ok s' → v ∈ vec s → (∀ x, is_Some (index s' !! x) ↔ x ≠ v ∧ is_Some (index s !! x)) →
  true = bool_decide (v ∈ vec s) ∧ ok s' ∧ (∀ x, x ∈ vec s' ↔ x ∈ vec s ∧ x ≠ v).
Proof.
  intros Hok Hok' Hv Hx. split_and!; [by rewrite bool_decide_true|done|].
  intros x. rewrite !random_member, Hx by done. tauto.
Qed.

(** The element at [i] goes, and the last one takes its place. *)
Lemma swap_last_ok s v i w :
  ok s → index s !! v = Some i → i ≠ (length (vec s) - 1)%nat →
  vec s !! (length (vec s) - 1)%nat = Some w →
  ok (mk (take (length (vec s) - 1) (<[i := w]> (vec s))) (<[w := i]> (delete v (index s)))).
Proof.
  intros Hok Hi Hlast Hw x j. cbn. pose proof (proj1 (Hok v i) Hi) as Hvi.
  pose proof (lookup_lt_Some _ _ _ Hvi) as Hlt. pose proof (proj2 (Hok _ _) Hw) as Hw'.
  rewrite lookup_take, lookup_insert_Some, lookup_delete_Some. case_decide as Hj.
  - rewrite list_lookup_insert_Some. split.
    + intros [[-> ->]|(? & ? & Hx)]; [left; split_and!; [done..|lia]|].
      right. split; [|by apply Hok]. intros ->. apply Hok in Hx. congruence.
    + intros [(-> & -> & _)|[Hne Hx]]; [by left|]. right. apply Hok in Hx.
      split_and!; [|congruence|done]. intros ->. rewrite Hw' in Hx. injection Hx. lia.
  - split; [|done]. intros [[_ ->]|(Hne & _ & Hx%Hok)]; [lia|].
    apply lookup_lt_Some in Hx as Hlt'. replace j with (length (vec s) - 1)%nat in Hx by lia. congruence.
Qed.

Lemma drop_last_ok s v :
  ok s → index s !! v = Some (length (vec s) - 1)%nat →
  ok (mk (take (length (vec s) - 1) (vec s)) (delete v (index s))).
Proof.
  intros Hok Hi x j. cbn. rewrite lookup_take, lookup_delete_Some. case_decide as Hj.
  - rewrite <- (Hok x j). split; [tauto|]. intros Hx. split; [|done]. intros ->.
    rewrite Hi in Hx. injection Hx. lia.
  - split; [|done]. intros [Hne Hx]. apply Hok in Hx as Hx'. apply lookup_lt_Some in Hx' as Hlt.
    replace j with (length (vec s) - 1)%nat in Hx' by lia. apply Hok in Hi. congruence.
Qed.

Lemma random_erase_ok v s :
  ok s → erase v s ⇓ λ '(b, s'), b = bool_decide (v ∈ vec s) ∧ ok s' ∧
    (∀ x, x ∈ vec s' ↔ x ∈ vec s ∧ x ≠ v).
Proof.
  intros Hok. unfold erase. pose proof (random_member s v Hok) as Hm.
  destruct (index s !! v) as [i|] eqn:Hi.
  2: { split_and!; [|done|].
    - rewrite bool_decide_false; [done|]. rewrite Hm. by intros [].
    - intros x. split; [|naive_solver]. intros Hx. split; [done|]. intros ->.
      apply Hm in Hx as [? ?]. congruence. }
  assert (v ∈ vec s) as Hv by (apply Hm; eauto). pose proof (proj1 (Hok v i) Hi) as Hvi.
  pose proof (lookup_lt_Some _ _ _ Hvi) as Hlt. case_decide as Hlast.
  - destruct (lookup_lt_is_Some_2 (vec s) (length (vec s) - 1)) as [w Hw]; [lia|]. rewrite Hw.
    rewrite lookup_take, decide_True, list_lookup_insert_eq by lia.
    apply (random_members_without v s); [done|by apply swap_last_ok|done|]. intros x. cbn.
    assert (is_Some (index s !! w) ∧ w ≠ v) as [? ?].
    { split; [eexists; by apply Hok|]. intros ->. apply Hok in Hw. congruence. }
    rewrite lookup_insert_is_Some, lookup_delete_is_Some.
    destruct (decide (w = x)) as [<-|]; naive_solver.
  - subst i. apply (random_members_without v s); [done|by apply drop_last_ok|done|]. intros x. cbn.
    rewrite lookup_delete_is_Some. naive_solver.
Qed.

Lemma vec_empty s : (list_to_set (vec s) : gset V) = ∅ ↔ vec s = [].
Proof. destruct (vec s); cbn; [done|]. split; [set_solver|done]. Qed.

Lemma random_select_ok r s :
  ok s → (∀ n, 0 ≤ r n) →
  if bool_decide ((list_to_set (vec s) : gset V) = ∅) then select r s = AssertFailed
  else select r s ⇓ λ '(v, s'), v ∈ (list_to_set (vec s) : gset V) ∧ ok s' ∧
    (list_to_set (vec s') : gset V) = list_to_set (vec s).
Proof.
  intros Hok Hr. unfold select. rewrite (bool_decide_ext _ _ (vec_empty s)).
  case_bool_decide as Hs; [done|]. cbn. specialize (Hr 0%nat).
  assert (0 < Z.of_nat (length (vec s))) by (destruct (vec s); cbn; [done|lia]).
  destruct (lookup_lt_is_Some_2 (vec s) (Z.to_nat (r 0%nat mod Z.of_nat (length (vec s))))) as [v Hv].
  { pose proof (Z.mod_pos_bound (r 0%nat) (Z.of_nat (length (vec s)))). lia. }
  rewrite Hv. split_and!; [|done..]. apply elem_of_list_to_set. by eapply list_elem_of_lookup_2.
Qed.

#[export] Program Instance random_laws : SelectorLaws V (RandomSelector.t V) := {
  selector_ok := ok;
  values s := list_to_set (vec s);
  select_law := random_select_ok;
}.
Next Obligation. split; [|done]. intros v i. cbn. by rewrite lookup_empty. Qed.
Next Obligation.
  intros v s Hok. eapply yields_mono; [by apply random_insert_ok|]. intros [b s'] (-> & ? & Hx).
  split_and!; [apply bool_decide_ext; set_solver|done|]. set_unfold. intros x. by rewrite Hx.
Qed.
Next Obligation.
  intros v s Hok. eapply yields_mono; [by apply random_erase_ok|]. intros [b s'] (-> & ? & Hx).
  split_and!; [apply bool_decide_ext; set_solver|done|]. set_unfold. intros x. by rewrite Hx.
Qed.
Next Obligation. intros s Hok. split; [|done]. intros v i. cbn. by rewrite lookup_empty. Qed.
Next Obligation. intros s Hok. cbn. apply bool_decide_ext. by rewrite vec_empty. Qed.
Next Obligation.
  intros s Hok. cbn. by rewrite size_list_to_set by (by apply random_nodup).
Qed.
Next Obligation.
  intros s Hok. cbn. by rewrite elements_list_to_set by (by apply random_nodup).
Qed.

End RandomSelector.

(** ** [RoundRobinSelector] *)

Section RoundRobinSelector.
Import RoundRobinSelector.

Lemma rr_set_insert v l :
  StronglySorted Z.lt l →
  (set_insert v l).1 = bool_decide (v ∉ l) ∧ StronglySorted Z.lt (set_insert v l).2 ∧
  ∀ x, x ∈ (set_insert v l).2 ↔ x = v ∨ x ∈ l.
Proof.
  induction 1 as [|y l Hl IH Hy]; cbn.
  { split_and!; [done|by repeat constructor|set_solver]. }
  rewrite Forall_forall in Hy. case_step; unbool; cbn.
  { assert (v ∉ y :: l) by (rewrite elem_of_cons; intros [->|?%Hy]; lia).
    split_and!; [by rewrite bool_decide_true| |set_solver].
    repeat constructor; [done|by apply Forall_forall|lia|]. apply Forall_forall.
    intros x ?%Hy. lia. }
  case_step; unbool; cbn.
  { subst y. split_and!; [by rewrite bool_decide_false by set_solver| |set_solver].
    constructor; [done|]. by apply Forall_forall. }
  destruct (set_insert v l) as [b l']. cbn in *. destruct IH as (-> & Hs & Hx).
  split_and!; [apply bool_decide_ext; set_solver| |set_solver].
  constructor; [done|]. apply Forall_forall. intros x [->|?%Hy]%Hx; lia.
Qed.

Lemma rr_next_member v x l : next v l = Some x → x ∈ l ∧ v < x.
Proof.
  unfold next. intros Hx. assert (x ∈ filter (λ y, v < y) l) as Hin.
  { destruct (filter _ l); [done|]. injection Hx as ->. set_solver. }
  apply list_elem_of_filter in Hin. tauto.
Qed.

(** The iterator after [v] leads to the rest of the ordered set. *)
Lemma rr_next_app a v b : StronglySorted Z.lt (a ++ v :: b) → next v (a ++ v :: b) = head b.
Proof.
  intros Hs. unfold next. induction a as [|x a IH]; cbn [app] in *; inversion_clear Hs as [|? ? Hb Hv].
  - rewrite filter_cons_False by lia. f_equal. clear Hb.
    induction Hv as [|y b Hy _ IH]; [done|]. by rewrite filter_cons_True, IH.
  - rewrite filter_cons_False; [by apply IH|].
    apply Forall_app in Hv as [_ Hv]. inversion_clear Hv. lia.
Qed.

Lemma rr_select_run a b c :
  StronglySorted Z.lt (a ++ b ++ c) →
  select_n (length b) (mk (a ++ b ++ c) (head (b ++ c))) = Done (b, mk (a ++ b ++ c) (head c)).
Proof.
  revert a. induction b as [|v b IH]; intros a Hs; cbn -[select]; [done|].
  unfold select at 1. cbn [container current]. rewrite bool_decide_false by (by destruct a).
  cbn -[select_n next]. rewrite rr_next_app by done.
  specialize (IH (a ++ [v])). rewrite <- app_assoc in IH. cbn -[select_n] in IH.
  rewrite IH by done. done.
Qed.

Lemma rr_select_n_app n m s vs s1 ws s2 :
  select_n n s = Done (vs, s1) → select_n m s1 = Done (ws, s2) →
  select_n (n + m) s = Done (vs ++ ws, s2).
Proof.
  revert s vs. induction n as [|n IH]; intros s vs; cbn -[select]; [by intros [= <- <-]|].
  destruct (select _ s) as [[v s']| |]; [|done..]. cbn -[select_n].
  destruct (select_n n s') as [[vs' s'']| |] eqn:Hn; [|done..]. cbn -[select_n].
  intros [= <- <-] Hm. by rewrite (IH _ _ Hn Hm).
Qed.

(** At the end of the set, the next selection starts over. *)
Lemma rr_wrap n l : l ≠ [] → select_n (S n) (mk l None) = select_n (S n) (mk l (head l)).
Proof. by destruct l. Qed.

Lemma rr_cycle s :
  ok s → select_n (length (container s)) s ⇓ λ '(vs, s'),
    vs ≡ₚ container s ∧ container s' = container s.
Proof.
  destruct s as [l c]. intros [Hs Hc]. cbn -[select_n] in *. destruct c as [c|].
  - destruct (list_elem_of_split l c) as (a & b & ->); [by apply Hc|].
    pose proof (rr_select_run a (c :: b) []) as Hb. rewrite app_nil_r in Hb. specialize (Hb Hs).
    assert (select_n (length a) (mk (a ++ c :: b) None) ⇓ λ '(vs, s'),
      vs = a ∧ container s' = a ++ c :: b) as Ha.
    { destruct a as [|x a]; [done|]. cbn [length]. rewrite rr_wrap by done.
      pose proof (rr_select_run [] (x :: a) (c :: b) Hs) as Ha. cbn -[select_n] in *. by rewrite Ha. }
    apply yields_inv in Ha as ([vs s'] & Ha & -> & Hs').
    rewrite length_app, Nat.add_comm. erewrite rr_select_n_app; [|exact Hb|exact Ha].
    split; [|done]. by rewrite (comm (++)).
  - destruct l as [|x l]; [done|]. cbn [length]. rewrite rr_wrap by done.
    pose proof (rr_select_run [] (x :: l) []) as Ha. rewrite !app_nil_r in Ha.
    cbn -[select_n] in *. by rewrite Ha.
Qed.

Lemma rr_nodup l : StronglySorted Z.lt l → NoDup l.
Proof.
  induction 1 as [|x l _ IH Hx]; constructor; [|done].
  rewrite Forall_forall in Hx. intros ?%Hx. lia.
Qed.

Lemma rr_empty l : (list_to_set l : gset Z) = ∅ ↔ l = [].
Proof. destruct l; cbn; [done|]. split; [set_solver|done]. Qed.

Lemma rr_select_ok r s :
  ok s → (∀ n, 0 ≤ r n) →
  if bool_decide ((list_to_set (container s) : gset Z) = ∅) then select r s = AssertFailed
  else select r s ⇓ λ '(v, s'), v ∈ (list_to_set (container s) : gset Z) ∧ ok s' ∧
    (list_to_set (container s') : gset Z) = list_to_set (container s).
Proof.
  intros [Hs Hc] _. unfold select. rewrite (bool_decide_ext _ _ (rr_empty (container s))).
  case_bool_decide as He; [done|]. cbn -[next].
  assert (∃ v, (match current s with None => begin (container s) | c => c end) = Some v ∧
    v ∈ container s) as (v & -> & Hv).
  { destruct (current s) as [v|]; [by eauto|]. destruct (container s) as [|x l]; [done|].
    exists x. split; [done|set_solver]. }
  cbn -[next]. split_and!; [by apply elem_of_list_to_set| |done]. split; [done|].
  cbn -[next]. by intros x [? _]%rr_next_member.
Qed.

Lemma rr_erase_ok v s :
  ok s → erase v s ⇓ λ '(b, s'), b = bool_decide (v ∈ container s) ∧ ok s' ∧
    (∀ x, x ∈ container s' ↔ x ∈ container s ∧ x ≠ v).
Proof.
  intros Hok. pose proof Hok as [Hs Hc]. unfold erase.
  case_bool_decide as Hv; [|split_and!; [done..|naive_solver]].
  split_and!; [done| |intros x; cbn; rewrite list_elem_of_filter; tauto]. split; cbn -[next].
  - clear Hc Hv Hok. induction Hs as [|x l Hl IH Hx]; [constructor|].
    destruct (decide (x ≠ v)); [|by rewrite filter_cons_False].
    rewrite filter_cons_True by done. constructor; [done|]. apply Forall_forall.
    intros y [_ Hy]%list_elem_of_filter. rewrite Forall_forall in Hx. by apply Hx.
  - intros c Hcur. apply list_elem_of_filter. case_bool_decide as Heq.
    + apply rr_next_member in Hcur as [? ?]. split; [lia|done].
    + split; [congruence|by apply Hc].
Qed.

#[export] Program Instance rr_laws : SelectorLaws Z RoundRobinSelector.t := {
  selector_ok := ok;
  values s := list_to_set (container s);
  select_law := rr_select_ok;
}.
Next Obligation. by repeat split; [constructor|]. Qed.
Next Obligation.
  intros v s [Hs Hc]. cbn. unfold insert. pose proof (rr_set_insert v (container s) Hs) as Hi.
  destruct (set_insert v (container s)) as [b l]. cbn in *. destruct Hi as (-> & Hl & Hx).
  split_and!; [apply bool_decide_ext; set_solver| |set_solver].
  split; [done|]. cbn. intros x ?%Hc. apply Hx. by right.
Qed.
Next Obligation.
  intros v s Hok. eapply yields_mono; [by apply rr_erase_ok|]. intros [b s'] (-> & ? & Hx).
  split_and!; [apply bool_decide_ext; set_solver|done|]. set_unfold. intros x. by rewrite Hx.
Qed.
Next Obligation. intros s _. by repeat split; [constructor|]. Qed.
Next Obligation. intros s Hok. cbn. apply bool_decide_ext. by rewrite rr_empty. Qed.
Next Obligation.
  intros s [Hs _]. cbn. rewrite size_list_to_set; [done|]. by apply rr_nodup.
Qed.
Next Obligation.
  intros s [Hs _]. cbn. rewrite elements_list_to_set; [done|]. by apply rr_nodup.
Qed.

End RoundRobinSelector.

(** ** [ClassSelector] *)

Section ClassSelector.
Context `{Countable V, Countable K} {S KS : Type}.
Context `{!Selector V S, !Selector K KS, !SelectorLaws V S, !SelectorLaws K KS}.
Context (hasher : V → K).
Implicit Types s : ClassSelector.t V K S KS.
Import ClassSelector.

#[local] Instance class_ops : Selector V (ClassSelector.t V K S KS) := ops hasher.

(** Every class has a non-empty sub-selector with the values of the class, and
    the classes are those the key selector chooses from. *)
Record class_ok s : Prop := {
  keys_ok : selector_ok (key_selector s);
  keys_dom : values (key_selector s) = dom (container s);
  subs_ok k sub : container s !! k = Some sub → selector_ok sub ∧ values sub ≠ ∅;
  subs_values k sub v : container s !! k = Some sub →
    v ∈ values sub ↔ reverse_index s !! v = Some k;
  classes_known v k : reverse_index s !! v = Some k → is_Some (container s !! k);
}.

Lemma class_empty s : class_ok s → dom (reverse_index s) = ∅ ↔ container s = ∅.
Proof.
  intros Hok. rewrite dom_empty_iff_L. split; intros He; apply map_empty; intros x.
  - destruct (container s !! x) as [sub|] eqn:Hsub; [|done].
    destruct (subs_ok s Hok _ _ Hsub) as [_ [v Hv]%set_choose_L].
    by rewrite (subs_values s Hok _ _ _ Hsub), He, lookup_empty in Hv.
  - destruct (reverse_index s !! x) as [k|] eqn:Hk; [|done].
    destruct (classes_known s Hok _ _ Hk) as [sub Hsub]. by rewrite He, lookup_empty in Hsub.
Qed.

Lemma class_select_ok r s :
  class_ok s → (∀ n, 0 ≤ r n) →
  if bool_decide (dom (reverse_index s) = ∅) then select r s = AssertFailed
  else select r s ⇓ λ '(v, s'), v ∈ dom (reverse_index s) ∧ class_ok s' ∧
    dom (reverse_index s') = dom (reverse_index s).
Proof.
  intros Hok Hr. unfold select. rewrite (bool_decide_ext _ _ (class_empty s Hok)).
  case_bool_decide as He; [done|]. cbn [negb cassert mbind outcome_bind].
  assert (values (key_selector s) ≠ ∅) as Hne.
  { rewrite (keys_dom s Hok). intros Hd. by apply dom_empty_iff_L in Hd. }
  ystep. { rewrite empty_law, bool_decide_false by (done || apply Hok). done. }
  pose proof (select_law (λ n, r (2 * n)%nat) (key_selector s) (keys_ok s Hok) (λ n, Hr _)) as Hsel.
  rewrite bool_decide_false in Hsel by done. ystep. eapply yields_mono; [exact Hsel|].
  intros [k ks] (Hk & Hks & Hksv). rewrite (keys_dom s Hok) in Hk. apply elem_of_dom in Hk as [sub Hsub].
  rewrite Hsub. destruct (subs_ok s Hok _ _ Hsub) as [Hsubok Hsubne].
  pose proof (select_law (λ n, r (2 * n + 1)%nat) sub Hsubok (λ n, Hr _)) as Hsel'.
  rewrite bool_decide_false in Hsel' by done. ystep. eapply yields_mono; [exact Hsel'|].
  intros [v sub'] (Hv & Hsub' & Hvals). rewrite (subs_values s Hok _ _ _ Hsub) in Hv.
  split_and!; [by apply elem_of_dom| |done]. split; cbn.
  - done.
  - by rewrite Hksv, (keys_dom s Hok), dom_insert_lookup_L.
  - intros k' sub2 [[<- <-]|[? ?]]%lookup_insert_Some; [by rewrite Hvals|]. by apply (subs_ok s Hok k').
  - intros k' sub2 x [[<- <-]|[? ?]]%lookup_insert_Some.
    + by rewrite Hvals, (subs_values s Hok _ _ _ Hsub).
    + by apply Hok.
  - intros x k' ?%(classes_known s Hok). by apply lookup_insert_is_Some'; right.
Qed.

Lemma class_insert_ok v s :
  class_ok s → insert hasher v s ⇓ λ '(b, s'), b = bool_decide (v ∉ dom (reverse_index s)) ∧
    class_ok s' ∧ dom (reverse_index s') = {[v]} ∪ dom (reverse_index s).
Proof.
  intros Hok. unfold insert. destruct (reverse_index s !! v) as [k|] eqn:Hv.
  { assert (v ∈ dom (reverse_index s)) by (by apply elem_of_dom; eauto).
    split_and!; [by rewrite bool_decide_false by set_solver|done|set_solver]. }
  set (k := hasher v). set (sub := default selector_new (container s !! k)).
  assert (selector_ok sub ∧ ∀ x, x ∈ values sub ↔ reverse_index s !! x = Some k) as [Hsub Hsubv].
  { unfold sub. destruct (container s !! k) as [sub'|] eqn:Hk; cbn.
    - split; [by eapply (subs_ok s Hok)|]. intros x. by apply (subs_values s Hok).
    - destruct (new_law (V:=V) (T:=S)) as [Hnew ->]. split; [done|]. intros x. split; [set_solver|].
      intros [? Hx]%(classes_known s Hok). congruence. }
  ystep. eapply yields_mono; [by apply insert_law|]. intros [b1 sub'] (_ & Hsub' & Hval').
  ystep. eapply yields_mono; [apply insert_law, Hok|]. intros [b2 ks] (_ & Hks & Hkval).
  split_and!.
  - rewrite bool_decide_true; [done|]. by apply not_elem_of_dom.
  - split; cbn.
    + done.
    + by rewrite Hkval, (keys_dom s Hok), dom_insert_L.
    + intros k' sub2 [[<- <-]|[_ ?]]%lookup_insert_Some; [|by eapply (subs_ok s Hok)].
      split; [done|]. set_solver.
    + intros k' sub2 x [[<- <-]|[Hne Hsub2]]%lookup_insert_Some; rewrite lookup_insert_Some.
      * rewrite Hval'. specialize (Hsubv x). destruct (decide (v = x)); set_solver.
      * rewrite (subs_values s Hok _ _ x Hsub2). split; [|by intros [[? ?]|[? ?]]].
        intros Hx. right. split; [congruence|done].
    + intros x k' [[<- <-]|[_ ?%(classes_known s Hok)]]%lookup_insert_Some;
        apply lookup_insert_is_Some'; by auto.
  - cbn. by rewrite dom_insert_L.
Qed.

Lemma class_erase_ok v s :
  class_ok s → erase v s ⇓ λ '(b, s'), b = bool_decide (v ∈ dom (reverse_index s)) ∧
    class_ok s' ∧ dom (reverse_index s') = dom (reverse_index s) ∖ {[v]}.
Proof.
  intros Hok. unfold erase. destruct (reverse_index s !! v) as [k|] eqn:Hv.
  2: { assert (v ∉ dom (reverse_index s)) by (by apply not_elem_of_dom).
    split_and!; [by rewrite bool_decide_false|done|set_solver]. }
  assert (v ∈ dom (reverse_index s)) by (by apply elem_of_dom; eauto).
  rewrite bool_decide_true by done. destruct (classes_known s Hok _ _ Hv) as [sub Hsub]. rewrite Hsub.
  destruct (subs_ok s Hok _ _ Hsub) as [Hsubok _]. pose proof (subs_values s Hok k sub) as Hsubv.
  ystep. eapply yields_mono; [by apply erase_law|]. intros [b1 sub'] (_ & Hsub' & Hval').
  assert (∀ x, x ∈ values sub' ↔ delete v (reverse_index s) !! x = Some k) as Hsubv'.
  { intros x. rewrite Hval', lookup_delete_Some. specialize (Hsubv x Hsub). set_solver. }
  assert (∀ k' sub2 x, k ≠ k' → container s !! k' = Some sub2 →
    x ∈ values sub2 ↔ delete v (reverse_index s) !! x = Some k') as Hothers.
  { intros k' sub2 x Hne Hsub2. rewrite (subs_values s Hok _ _ x Hsub2), lookup_delete_Some.
    split; [|by intros []]. intros Hx. split; [congruence|done]. }
  rewrite empty_law by done. case_bool_decide as He; cbn [negb].
  - ystep. eapply yields_mono; [apply erase_law, Hok|]. intros [b2 ks] (_ & Hks & Hkval).
    split_and!; [done| |cbn; by rewrite dom_delete_L]. split; cbn.
    + done.
    + by rewrite Hkval, (keys_dom s Hok), dom_delete_L.
    + intros k' sub2 [_ ?]%lookup_delete_Some. by eapply (subs_ok s Hok).
    + intros k' sub2 x [? ?]%lookup_delete_Some. by apply Hothers.
    + intros x k' Hx. rewrite lookup_delete_is_Some. split.
      * intros <-. apply Hsubv' in Hx. set_solver.
      * apply lookup_delete_Some in Hx as [_ Hx]. by eapply (classes_known s Hok).
  - split_and!; [done| |cbn; by rewrite dom_delete_L]. split; cbn.
    + apply Hok.
    + by rewrite (keys_dom s Hok), dom_insert_lookup_L.
    + intros k' sub2 [[<- <-]|[_ ?]]%lookup_insert_Some; [done|]. by eapply (subs_ok s Hok).
    + intros k' sub2 x [[<- <-]|[? ?]]%lookup_insert_Some; [done|]. by apply Hothers.
    + intros x k' [_ ?%(classes_known s Hok)]%lookup_delete_Some. by apply lookup_insert_is_Some'; right.
Qed.

(** The values of disjoint classes, one class after the other *)
Lemma class_fold (ri : V → option K) (m : gmap K S) :
  (∀ k sub, m !! k = Some sub → selector_ok sub ∧ ∀ v, v ∈ values sub → ri v = Some k) →
  let l := map_fold (λ _ sub dst, dst ++ selector_copyTo sub) [] m in
  NoDup l ∧ ∀ v, v ∈ l ↔ ∃ k sub, m !! k = Some sub ∧ v ∈ values sub.
Proof.
  apply (map_fold_weak_ind (λ dst m,
    (∀ k sub, m !! k = Some sub → selector_ok sub ∧ ∀ v, v ∈ values sub → ri v = Some k) →
    NoDup dst ∧ ∀ v, v ∈ dst ↔ ∃ k sub, m !! k = Some sub ∧ v ∈ values sub)).
  { intros _. split; [constructor|]. set_solver. }
  intros k sub m' dst Hk IH Hm.
  destruct (Hm k sub) as [Hsub Hri]; [by rewrite lookup_insert_eq|].
  destruct IH as [Hd Hin].
  { intros k' sub' Hm'. apply Hm. by rewrite lookup_insert_ne by congruence. }
  assert (∀ v, v ∈ selector_copyTo sub ↔ v ∈ values sub) as Hc.
  { intros v. by rewrite (copyTo_law sub Hsub), elem_of_elements. }
  split.
  - apply NoDup_app. split_and!; [done| |rewrite (copyTo_law sub Hsub); apply NoDup_elements].
    intros v (k' & sub' & Hk' & Hv)%Hin Hv'%Hc%Hri.
    apply (Hm k' sub') in Hv; [congruence|]. by rewrite lookup_insert_ne by congruence.
  - intros v. rewrite elem_of_app, Hin, Hc. split.
    + intros [(k' & sub' & ? & ?)|?]; [exists k', sub'|exists k, sub]; rewrite ?lookup_insert_eq; [|done].
      by rewrite lookup_insert_ne by congruence.
    + intros (k' & sub' & [[<- <-]|[_ ?]]%lookup_insert_Some & ?); [by right|]. left. eauto.
Qed.

Lemma class_copyTo_ok s : class_ok s → selector_copyTo s ≡ₚ elements (dom (reverse_index s)).
Proof.
  intros Hok. destruct (class_fold (λ v, reverse_index s !! v) (container s)) as [Hd Hin].
  { intros k sub Hk. split; [by eapply (subs_ok s Hok)|]. intros v. by apply (subs_values s Hok). }
  apply NoDup_Permutation; [done|apply NoDup_elements|]. intros v. rewrite Hin, elem_of_elements, elem_of_dom.
  split.
  - intros (k & sub & Hk & Hv). exists k. by apply (subs_values s Hok k sub).
  - intros [k Hk]. destruct (classes_known s Hok _ _ Hk) as [sub Hsub]. exists k, sub. split; [done|].
    by apply (subs_values s Hok k sub).
Qed.

Lemma class_size_ok s : class_ok s → selector_size s = Z.of_nat (size (dom (reverse_index s))).
Proof.
  intros Hok. trans (Z.of_nat (length (selector_copyTo s))).
  2: { rewrite (class_copyTo_ok s Hok). done. }
  pose proof (λ k sub Hk, proj1 (subs_ok s Hok k sub Hk)) as Hsubs. cbn.
  rewrite !map_fold_foldr. setoid_rewrite <- elem_of_map_to_list in Hsubs.
  induction (map_to_list (container s)) as [|[k sub] l IH]; cbn; [done|].
  rewrite IH by (intros; eapply Hsubs; by right). rewrite length_app.
  assert (selector_ok sub) as Hsub by (eapply Hsubs; by left).
  rewrite (size_law sub Hsub), (copyTo_law sub Hsub).
  change (length (elements (values sub))) with (size (values sub)). lia.
Qed.

#[export] Program Instance class_laws : SelectorLaws V (ClassSelector.t V K S KS) := {
  selector_ok := class_ok;
  values s := dom (reverse_index s);
  select_law := class_select_ok;
  insert_law := class_insert_ok;
  erase_law := class_erase_ok;
  size_law := class_size_ok;
  copyTo_law := class_copyTo_ok;
}.
Next Obligation.
  split; [|cbn; by rewrite dom_empty_L]. destruct (new_law (V:=K) (T:=KS)) as [? ?].
  split; cbn; [done|by rewrite dom_empty_L|..]; intros *; by rewrite lookup_empty.
Qed.
Next Obligation.
  intros s Hok. split; [|cbn; by rewrite dom_empty_L].
  destruct (clear_law (key_selector s) (keys_ok s Hok)) as [? ?].
  split; cbn; [done|by rewrite dom_empty_L|..]; intros *; by rewrite lookup_empty.
Qed.
Next Obligation. intros s Hok. apply bool_decide_ext. by rewrite class_empty. Qed.

End ClassSelector.

(** ** [QueuedSelector], [BFSSelector] and [DFSSelector] *)

Section QueuedSelector.
Context `{Countable V}.
Implicit Types s : QueuedSelector.t V.
Import QueuedSelector.

Lemma queued_member s v : ok s → v ∈ (queue s).*2 ↔ v ∈ dom (map s).
Proof.
  intros Hok. rewrite elem_of_dom, list_elem_of_fmap. split.
  - intros ([n ?] & -> & Hn). exists n. by apply Hok.
  - intros [n Hn]. exists (n, v). split; [done|]. by apply Hok.
Qed.

Lemma queued_empty s : ok s → queue s = [] ↔ dom (map s) = ∅.
Proof.
  intros Hok. pose proof (λ v, queued_member s v Hok) as Hm.
  destruct (queue s) as [|[n v] q]; [set_solver|]. split; [done|]. set_solver.
Qed.

Lemma erase_node_ok s v n :
  ok s → map s !! v = Some n → ok (mk (erase_node n (queue s)) (delete v (map s)) (next_node s)).
Proof.
  intros [Hnew Hd Hm] Hv. split; cbn; unfold erase_node.
  - intros n' v' [_ ?]%list_elem_of_filter. by eapply Hnew.
  - clear Hnew Hm Hv. induction (queue s) as [|[m w] q IH]; [constructor|].
    cbn in Hd. apply NoDup_cons in Hd as [Hm Hd]. destruct (decide ((m, w).1 ≠ n)).
    + rewrite filter_cons_True, fmap_cons by done. apply NoDup_cons. split; [|by apply IH].
      contradict Hm. rewrite list_elem_of_fmap in *. destruct Hm as (x & ? & [_ ?]%list_elem_of_filter). eauto.
    + rewrite filter_cons_False by done. by apply IH.
  - intros v' n'. rewrite lookup_delete_Some, list_elem_of_filter, Hm. cbn.
    assert ((n', v') ∈ queue s → v ≠ v' ↔ n' ≠ n) as Hne; [|tauto].
    intros Hn'. apply Hm in Hn' as Hn''. split; [|congruence]. intros Hvv ->. apply Hm in Hv.
    apply list_elem_of_lookup in Hv as [i Hi], Hn' as [j Hj].
    assert (i = j) as ->; [|congruence].
    apply (NoDup_lookup (queue s).*1 i j n Hd); rewrite list_lookup_fmap; by rewrite ?Hi, ?Hj.
Qed.

Lemma push_front_ok s v :
  ok s → map s !! v = None →
  ok (push_front v s) ∧ dom (map (push_front v s)) = {[v]} ∪ dom (map s).
Proof.
  intros [Hnew Hd Hm] Hv. split; [|cbn; by rewrite dom_insert_L]. split; cbn.
  - intros n' v' [[= -> ->]|Hn%Hnew]%elem_of_cons; lia.
  - constructor; [|done]. intros ([n' v'] & Heq & Hn%Hnew)%list_elem_of_fmap. cbn in Heq. lia.
  - intros v' n'. rewrite lookup_insert_Some, elem_of_cons, Hm. split.
    + intros [[-> <-]|[? ?]]; [by left|by right].
    + intros [[= -> ->]|Hn]; [by left|]. right. split; [|done]. intros <-. apply Hm in Hn. congruence.
Qed.

Lemma queued_update_ok s v :
  ok s → let '(b, s') := update v s in
  b = bool_decide (v ∉ dom (map s)) ∧ ok s' ∧ dom (map s') = {[v]} ∪ dom (map s).
Proof.
  intros Hok. unfold update. destruct (map s !! v) as [n|] eqn:Hv.
  - assert (v ∈ dom (map s)) by (apply elem_of_dom; eauto).
    rewrite bool_decide_false by set_solver.
    destruct (push_front_ok (mk (erase_node n (queue s)) (delete v (map s)) (next_node s)) v) as [Hp Hdom].
    { by apply erase_node_ok. }
    { cbn. by rewrite lookup_delete_eq. }
    unfold push_front in *. cbn in *. rewrite insert_delete_eq in *. split_and!; [done..|].
    rewrite Hdom, dom_delete_L. apply set_eq. intros x. destruct (decide (x = v)); set_solver.
  - destruct (push_front_ok s v Hok Hv) as [Hp Hdom]. split_and!; [|done..].
    rewrite bool_decide_true; [done|]. by apply not_elem_of_dom.
Qed.

Lemma queued_remove_ok s v :
  ok s → let '(b, s') := remove v s in
  b = bool_decide (v ∈ dom (map s)) ∧ ok s' ∧ dom (map s') = dom (map s) ∖ {[v]}.
Proof.
  intros Hok. unfold remove. destruct (map s !! v) as [n|] eqn:Hv.
  - split_and!; [|by apply erase_node_ok|cbn; by rewrite dom_delete_L].
    rewrite bool_decide_true; [done|]. apply elem_of_dom. eauto.
  - assert (v ∉ dom (map s)) by (by apply not_elem_of_dom).
    split_and!; [by rewrite bool_decide_false|done|set_solver].
Qed.

Lemma filter_all {A} (P : A → Prop) `{∀ x, Decision (P x)} (l : list A) :
  (∀ x, x ∈ l → P x) → filter P l = l.
Proof.
  induction l as [|x l IH]; [done|]. intros Hl. rewrite filter_cons_True by (apply Hl; set_solver).
  f_equal. apply IH. set_solver.
Qed.

(** The node of [v] is the only one that holds [v]. *)
Lemma erase_node_values s v n :
  ok s → map s !! v = Some n →
  (erase_node n (queue s)).*2 = filter (λ x, x ≠ v) (queue s).*2.
Proof.
  intros [Hnew Hd Hm] Hv. unfold erase_node.
  assert (∀ m w, (m, w) ∈ queue s → m ≠ n ↔ w ≠ v) as Hne.
  { intros m w Hmw. apply Hm in Hmw as Hw. split; [congruence|]. intros Hwv ->. apply Hm in Hv.
    apply list_elem_of_lookup in Hv as [i Hi], Hmw as [j Hj]. assert (i = j) as ->; [|congruence].
    apply (NoDup_lookup (queue s).*1 i j n Hd); rewrite list_lookup_fmap; by rewrite ?Hi, ?Hj. }
  clear -Hne. induction (queue s) as [|[m w] q IH]; [done|].
  specialize (IH ltac:(set_solver)). specialize (Hne m w ltac:(set_solver)).
  rewrite fmap_cons, !filter_cons. cbn [fst snd]. repeat case_decide; try tauto.
  by rewrite fmap_cons, IH.
Qed.

Lemma queued_recency s o :
  ok s →
  let '(b, s') := match o with Update v => update v s | Remove v => remove v s end in
  ok s' ∧ (b, (queue s').*2) = recency_op o (queue s).*2.
Proof.
  intros Hok. destruct o as [v|v].
  - pose proof (queued_update_ok s v Hok) as Hu. unfold update in *. cbn.
    rewrite (bool_decide_ext _ (v ∉ dom (map s))) by (by rewrite queued_member).
    destruct (map s !! v) as [n|] eqn:Hv; destruct Hu as (-> & ? & _); split; try done; cbn.
    + by rewrite (erase_node_values s v n).
    + rewrite filter_all; [done|]. intros x Hx ->. rewrite queued_member, elem_of_dom in Hx by done.
      destruct Hx. congruence.
  - pose proof (queued_remove_ok s v Hok) as Hr. unfold remove in *. cbn.
    rewrite (bool_decide_ext _ (v ∈ dom (map s))) by (by rewrite queued_member).
    destruct (map s !! v) as [n|] eqn:Hv; destruct Hr as (-> & ? & _); split; try done; cbn.
    + by rewrite (erase_node_values s v n).
    + rewrite filter_all; [done|]. intros x Hx ->. rewrite queued_member, elem_of_dom in Hx by done.
      destruct Hx. congruence.
Qed.

(** Any end of the queue *)
Lemma queued_select_ok s (o : option (nat * V)) :
  ok s → (o = None ↔ queue s = []) → (∀ x, o = Some x → x ∈ queue s) →
  (snd <$> o = None ↔ dom (map s) = ∅) ∧ ∀ v, snd <$> o = Some v → v ∈ dom (map s).
Proof.
  intros Hok Hn Hs. rewrite fmap_None, Hn, queued_empty by done. split; [done|].
  intros v ([n ?] & -> & ?)%fmap_Some. apply queued_member, list_elem_of_fmap; [done|]. eauto.
Qed.

End QueuedSelector.

#[export] Program Instance bfs_laws `{Countable V} : Selector2Laws V (BFSSelector.t V) := {
  selector2_ok s := QueuedSelector.ok (BFSSelector.base s);
  members s := dom (QueuedSelector.map (BFSSelector.base s));
}.
Next Obligation.
  intros V ?? v s Hok. cbn. pose proof (queued_update_ok _ v Hok). by destruct (QueuedSelector.update _ _).
Qed.
Next Obligation.
  intros V ?? v s Hok. cbn. pose proof (queued_remove_ok _ v Hok). by destruct (QueuedSelector.remove _ _).
Qed.
Next Obligation.
  intros V ?? r s Hok _. cbn. split_and!; [done..| |]; apply (queued_select_ok (BFSSelector.base s)); try done.
  all: rewrite ?last_None; try done; intros x; apply last_Some_elem_of.
Qed.

#[export] Program Instance dfs_laws `{Countable V} : Selector2Laws V (DFSSelector.t V) := {
  selector2_ok s := QueuedSelector.ok (DFSSelector.base s);
  members s := dom (QueuedSelector.map (DFSSelector.base s));
}.
Next Obligation.
  intros V ?? v s Hok. cbn. pose proof (queued_update_ok _ v Hok). by destruct (QueuedSelector.update _ _).
Qed.
Next Obligation.
  intros V ?? v s Hok. cbn. pose proof (queued_remove_ok _ v Hok). by destruct (QueuedSelector.remove _ _).
Qed.
Next Obligation.
  intros V ?? r s Hok _. cbn. split_and!; [done..| |]; apply (queued_select_ok (DFSSelector.base s)); try done.
  all: rewrite ?head_None; try done; intros x; apply head_Some_elem_of.
Qed.

(** ** [StickySelector] *)

Section StickySelector.
Context `{Countable V} {T : Type} `{!Selector2 V T, !Selector2Laws V T}.
Import StickySelector.

(** The sticky value is one of the values. *)
#[export] Program Instance sticky_laws : Selector2Laws V (StickySelector.t V T) := {
  selector2_ok s := selector2_ok (base s) ∧ ∀ v, sticky_value s = Some v → v ∈ members (base s);
  members s := members (base s);
}.
Next Obligation.
  intros v s [Hok Hs]. cbn. unfold update. ystep. eapply yields_mono; [by apply update_law|].
  intros [b t'] (-> & Ht & Hm). cbn. rewrite Hm. split_and!; [done..| |done]. set_solver.
Qed.
Next Obligation.
  intros v s [Hok Hs]. cbn. unfold remove. ystep. eapply yields_mono; [by apply remove_law|].
  intros [b t'] (-> & Ht & Hm). cbn. rewrite Hm. split_and!; [done..| |done].
  intros x. case_bool_decide as Hv; [done|]. intros Hx. specialize (Hs x Hx). set_solver.
Qed.
Next Obligation.
  intros r s [Hok Hs] Hr. cbn. unfold select. destruct (sticky_value s) as [v|] eqn:Hv.
  - rewrite Hv. split_and!; [done..| |naive_solver]. split; [done|]. specialize (Hs v). set_solver.
  - pose proof (select2_law r (base s) Hok Hr) as Hsel. destruct (Selectors.select r (base s)) as [o t'].
    cbn. destruct Hsel as (Ht & Hm & He & Ho). rewrite Hm. by split_and!.
Qed.

End StickySelector.

(** ** [RandomSelector2] *)

Section RandomSelector2.
Context `{Countable V}.
Import RandomSelector2.

#[export] Program Instance random2_laws : Selector2Laws V (RandomSelector2.t V) := {
  selector2_ok s := RandomSelector.ok (base s);
  members s := list_to_set (RandomSelector.vec (base s));
}.
Next Obligation.
  intros v s Hok. cbn. unfold update. ystep.
  eapply yields_mono; [exact (insert_law v (base s) Hok)|].
  intros [b t'] (-> & Ht & Hm). cbn in *. by split_and!.
Qed.
Next Obligation.
  intros v s Hok. cbn. unfold remove. ystep.
  eapply yields_mono; [exact (erase_law v (base s) Hok)|].
  intros [b t'] (-> & Ht & Hm). cbn in *. by split_and!.
Qed.
Next Obligation.
  intros r s Hok Hr. cbn. split_and!; [done..| |].
  - rewrite vec_empty, lookup_ge_None. split.
    + intros Hle. destruct (RandomSelector.vec (base s)) as [|x l]; [done|]. cbn [length] in *.
      pose proof (Z.mod_pos_bound (r 0%nat) (Z.of_nat (S (length l)))). lia.
    + intros ->. cbn. lia.
  - intros v Hv. apply elem_of_list_to_set. by eapply list_elem_of_lookup_2.
Qed.

End RandomSelector2.

(** ** Sequences of operations *)

Section behaves.
Context {V T : Type} `{Countable V, !Selector V T, !SelectorLaws V T}.

Lemma selector_step_ok o (t : T) :
  selector_ok t →
  match run_selector_op o t with
  | Done (r, t') => set_step (values t) o r (values t') ∧ selector_ok t'
  | AssertFailed => ∃ r, o = Select r ∧ values t = ∅
  | OutOfFuel => False
  end.
Proof.
  intros Ht. destruct o as [r|v|v| |]; cbn.
  - pose proof (select_law (λ n, Z.of_N (r n)) t Ht (λ n, N2Z.is_nonneg (r n))) as Hs.
    case_bool_decide as He; [rewrite Hs; cbn; by exists r|]. apply yields_inv in Hs as ([v t'] & -> & Hv & Ht' & Hval).
    cbn. rewrite Hval. split; [by constructor|done].
  - pose proof (insert_law v t Ht) as Hs. apply yields_inv in Hs as ([b t'] & -> & -> & Ht' & Hval).
    cbn. rewrite Hval. split; [by constructor|done].
  - pose proof (erase_law v t Ht) as Hs. apply yields_inv in Hs as ([b t'] & -> & -> & Ht' & Hval).
    cbn. rewrite Hval. split; [by constructor|done].
  - destruct (clear_law t Ht) as [? ->]. split; [by constructor|done].
  - rewrite empty_law, size_law by done. split; [|done]. constructor. by apply copyTo_law.
Qed.

Lemma selector_behaves (t : T) : selector_ok t → behaves_as t (values t).
Proof.
  intros Ht l. revert t Ht. induction l as [|o l IH]; intros t Ht; cbn; [eexists; constructor|].
  unfold mbind, M_bind. pose proof (selector_step_ok o t Ht) as Hstep.
  destruct (run_selector_op o t) as [[r t1]| |]; cbn; [| |done].
  2: { destruct Hstep as (r & -> & Hempty). rewrite Hempty. exists [], r, l, []. split; [done|constructor]. }
  destruct Hstep as [Hstep Ht1]. specialize (IH t1 Ht1).
  destruct (run_selector l t1) as [[rs t2]| |]; cbn; [| |done].
  - destruct IH as [X' HX]. exists X'. by econstructor.
  - destruct IH as (l1 & r' & l2 & rs & -> & HX). exists (o :: l1), r', l2, (r :: rs).
    split; [done|]. by econstructor.
Qed.

Lemma new_selector_behaves : behaves_as (selector_new (V:=V) (T:=T)) ∅.
Proof. destruct (new_law (V:=V) (T:=T)) as [Hok <-]. by apply selector_behaves. Qed.

End behaves.

(** Both queued selectors pass their changes on to the queue. *)
Lemma queued_run `{Countable V} {T} `{!Selector2 V T} (base : T → QueuedSelector.t V) ops s :
  (∀ o s, run_selector2_op o s ⇓ λ '(b, s'), (b, base s') =
    match o with
    | Update v => QueuedSelector.update v (base s)
    | Remove v => QueuedSelector.remove v (base s)
    end) →
  QueuedSelector.ok (base s) →
  run_selector2 ops s ⇓ λ '(bs, s'),
    (bs, (QueuedSelector.queue (base s')).*2) = recency ops (QueuedSelector.queue (base s)).*2.
Proof.
  intros Hbase. revert s. induction ops as [|o ops IH]; intros s Hok; cbn [run_selector2 recency]; [done|].
  pose proof (queued_recency _ o Hok) as Ho. unfold mbind, M_bind. apply yields_bind.
  eapply yields_mono; [apply Hbase|]. intros [b s1] Hs1. rewrite <- Hs1 in Ho.
  destruct Ho as [Hok1 <-]. apply yields_bind. eapply yields_mono; [by apply IH|].
  intros [bs s2] Hs2. by rewrite <- Hs2.
Qed.

Lemma empty_queue_ok `{Countable V} : QueuedSelector.ok (empty_queue (V:=V)).
Proof. split; cbn; [set_solver|constructor|]. intros v n. rewrite lookup_empty. set_solver. Qed.

(** ** Properties *)

(** C28: the selectors implement sets.  Whatever sequence of insertions, erasures,
    selections, clearings and queries is made on a new [RandomSelector], a new
    [RoundRobinSelector], or a new [ClassSelector] over any selectors that
    themselves implement sets, the results are those of a set of values: a
    selection returns an element, [insert] and [erase] report whether the set
    changed, [empty], [size] and [copyTo] describe it.  The only failure is a
    selection from an empty selector. *)
Theorem selectors_implement_sets `{Countable V, Countable K} {S KS : Type}
    `{!Selector V S, !Selector K KS, !SelectorLaws V S, !SelectorLaws K KS} (hasher : V → K) :
  behaves_as (V:=V) (T:=RandomSelector.t V) selector_new ∅ ∧
  behaves_as (V:=Z) (T:=RoundRobinSelector.t) selector_new ∅ ∧
  @behaves_as V (ClassSelector.t V K S KS) _ _ (ClassSelector.ops hasher)
    (@selector_new _ _ (ClassSelector.ops hasher)) ∅.
Proof.
  split_and!; [apply new_selector_behaves..|].
  exact (new_selector_behaves (SelectorLaws0:=class_laws hasher)).
Qed.

(** C31: round-robin selection is fair.  From any state of the selector, as many
    selections as there are values return every value exactly once. *)
Theorem round_robin_fair s :
  RoundRobinSelector.ok s →
  RoundRobinSelector.select_n (length (RoundRobinSelector.container s)) s ⇓ λ '(vs, s'),
    vs ≡ₚ RoundRobinSelector.container s ∧
    RoundRobinSelector.container s' = RoundRobinSelector.container s.
Proof. apply rr_cycle. Qed.

Lemma round_robin_fair_witness :
  RoundRobinSelector.select_n 3 (RoundRobinSelector.mk [2; 5; 9] (Some 5)) ⇓ λ '(vs, _), vs ≡ₚ [2; 5; 9].
Proof.
  eapply yields_mono; [apply (round_robin_fair (RoundRobinSelector.mk [2; 5; 9] (Some 5)))|].
  - split; [repeat constructor|]. intros v [= <-]. cbn. set_solver.
  - intros [vs s'] [Hvs _]. exact Hvs.
Defined.

(** Depth-first and breadth-first selection.  After any sequence of updates
    and removals, the depth-first selector returns the value updated last, the
    breadth-first selector the value whose last update is the oldest, and nothing
    when no value is left.  An update of a value that is there moves it to the
    front; the results of the operations say which values were there. *)
Theorem queued_selectors_correct `{Countable V} (ops : list (Selector2Op V)) r :
  run_selector2 ops (DFSSelector.mk empty_queue) ⇓ (λ '(bs, s),
    bs = (recency ops []).1 ∧ (select r s).1 = head (recency ops []).2) ∧
  run_selector2 ops (BFSSelector.mk empty_queue) ⇓ (λ '(bs, s),
    bs = (recency ops []).1 ∧ (select r s).1 = last (recency ops []).2).
Proof.
  split.
  - assert (∀ o (s : DFSSelector.t V), run_selector2_op o s ⇓ λ '(b, s'), (b, DFSSelector.base s') =
      match o with Update v => QueuedSelector.update v (DFSSelector.base s)
      | Remove v => QueuedSelector.remove v (DFSSelector.base s) end) as Hop.
    { intros [v|v] s; cbn; by case_match. }
    eapply yields_mono; [apply (queued_run DFSSelector.base _ _ Hop), empty_queue_ok|]. intros [bs s] Hs. cbn in *.
    rewrite <- Hs. cbn. split; [done|]. by destruct (QueuedSelector.queue _).
  - assert (∀ o (s : BFSSelector.t V), run_selector2_op o s ⇓ λ '(b, s'), (b, BFSSelector.base s') =
      match o with Update v => QueuedSelector.update v (BFSSelector.base s)
      | Remove v => QueuedSelector.remove v (BFSSelector.base s) end) as Hop.
    { intros [v|v] s; cbn; by case_match. }
    eapply yields_mono; [apply (queued_run BFSSelector.base _ _ Hop), empty_queue_ok|]. intros [bs s] Hs. cbn in *.
    rewrite <- Hs. cbn. split; [done|]. by rewrite fmap_last.
Qed.

(** A value can be in both bins of a [GenerationalSelector]: it is reported as new
    twice, and it can still be selected after it was erased. *)
Lemma generational_erase_leaves_value (r : nat → N) :
  ∃ s, run_selector (V:=Z) (T:=GenerationalSelector.t RoundRobinSelector.t)
    [Insert 7; Select r; Insert 7; Erase 7; Select r] selector_new =
    Done ([Changed true; Selected 7; Changed true; Changed true; Selected 7], s).
Proof. eexists. vm_compute. reflexivity. Qed.
