(* ===== verification/CallTracer.v ===== *)
(** * Call stacks of the guest: [s2e/Chef/CallTracer.cpp]

    The tracer keeps the stack of function frames of one guest thread, from the
    changes of its stack pointer.  The frames are listed newest first, the order
    of [frame(i)]; [parent], which the code only writes, is the next frame of the
    list.  The signals that an operation emits are listed in order: the
    interpreter tracer and the scheduler react to them. *)

From stdpp Require Import prelude.
From S2P Require Import Prelude Bits.

(** [struct CallStackFrame] *)
Record CallStackFrame : Set := mkFrame {
  frame_id : Z;
  call_site : Z;
  function : Z;
  bb_index : Z;
  loop_id : Z;
  loop_depth : Z;
  is_header : bool;
  top : Z;
  bottom : Z;
}.

(** [class CallStack] *)
Record CallStack : Set := mkStack { next_id : Z; frames : list CallStackFrame }.

(** The signals of [class CallTracer] *)
Inductive CallEvent : Set :=
| StackFramePush (old_top new_top : CallStackFrame)
| StackFramePopping (old_top new_top : CallStackFrame)
| StackFrameResize (frame : CallStackFrame)
| BasicBlockEnter (frame : CallStackFrame).

(** The constructor of [CallStackFrame] *)
Definition new_frame (id cs fn t b : Z) : CallStackFrame := mkFrame id cs fn 0 0 0 false t b.

(** [CallStack::CallStack], for a thread whose stack starts at [stack_top] *)
Definition CallStack_create (stack_top : Z) : CallStack :=
  mkStack 2 [new_frame 1 0 0 (u64 (stack_top + 8)) stack_top].

(** [CallStack::clone]: the constructor, then a copy of every frame *)
Definition clone (stack_top : Z) (s : CallStack) : CallStack :=
  mkStack (next_id s) (frames s ++ frames (CallStack_create stack_top)).

(** [CallStack::newFrame] *)
Definition newFrame (call_site function sp : Z) (s : CallStack) :
    outcome (CallStack * list CallEvent) :=
  match frames s with
  | [] => AssertFailed
  | old_frame :: _ =>
      _ ← cassert (sp <? bottom old_frame);
      let frame := new_frame (next_id s) call_site function (bottom old_frame) sp in
      Done (mkStack (u64 (next_id s + 1)) (frame :: frames s), [StackFramePush old_frame frame])
  end.

(** The first loop of [CallStack::updateFrame].  With one frame left the access
    [frames_[frames_.size()-2]] is out of range and the assertion fails. *)
Fixpoint unwind (sp : Z) (fs : list CallStackFrame) :
    outcome (list CallStackFrame * list CallEvent) :=
  match fs with
  | [] => AssertFailed
  | f :: rest =>
      if top f <=? sp then
        match rest with
        | [] => AssertFailed
        | g :: _ =>
            '(fs', events) ← unwind sp rest;
            Done (fs', StackFramePopping f g :: events)
        end
      else Done (fs, [])
  end.

(** [frames_.back()->bottom = sp] *)
Definition set_bottom (sp : Z) (f : CallStackFrame) : CallStackFrame :=
  mkFrame (frame_id f) (call_site f) (function f) (bb_index f) (loop_id f) (loop_depth f)
    (is_header f) (top f) sp.

(** [CallStack::updateFrame] *)
Definition updateFrame (sp : Z) (s : CallStack) : outcome (CallStack * list CallEvent) :=
  '(fs, events) ← unwind sp (frames s);
  match fs with
  | [] => AssertFailed
  | f :: rest =>
      if bottom f =? sp then Done (mkStack (next_id s) fs, events)
      else
        let f' := set_bottom sp f in
        Done (mkStack (next_id s) (f' :: rest), events ++ [StackFrameResize f'])
  end.

(** [CallStack::updateBasicBlock] *)
Definition updateBasicBlock (bb loop depth : Z) (header : bool) (s : CallStack) :
    outcome (CallStack * list CallEvent) :=
  match frames s with
  | [] => AssertFailed
  | f :: rest =>
      let f' := mkFrame (frame_id f) (call_site f) (function f) bb loop depth header
        (top f) (bottom f) in
      Done (mkStack (next_id s) (f' :: rest), [BasicBlockEnter f'])
  end.

(** ** [class CallTracer] *)

(** [R_ESP], [OPSHIFT], [BASIC_BLOCK_OPCODE] *)
Definition R_ESP : Z := 4.
Definition OPSHIFT : Z := 8.
Definition BASIC_BLOCK_OPCODE : Z := 187.

(** [enum ETranslationBlockType] *)
Inductive ETranslationBlockType : Set :=
| TB_DEFAULT | TB_JMP | TB_JMP_IND | TB_COND_JMP | TB_COND_JMP_IND
| TB_CALL | TB_CALL_IND | TB_REP | TB_RET.

(** [CallTracer::onTranslateRegisterAccess]: an instruction that writes the
    registers [wmask] calls [onStackPointerModification] with the flag that is
    returned, or is not instrumented *)
Definition onTranslateRegisterAccess (kernel_mode : bool) (tb_type : ETranslationBlockType)
    (wmask : Z) : option bool :=
  if kernel_mode then None
  else if Z.land wmask (Z.shiftl 1 R_ESP) =? 0 then None
  else Some (match tb_type with TB_CALL | TB_CALL_IND => true | _ => false end).

(** [CallTracer::onStackPointerModification] at [pc], when the new program
    counter is [pc'] *)
Definition onStackPointerModification (pc pc' sp : Z) (isCall : bool) (s : CallStack) :
    outcome (CallStack * list CallEvent) :=
  if isCall then newFrame pc pc' sp s else updateFrame sp s.

(** [OPCODE_CHECK] *)
Definition OPCODE_CHECK (operand opcode : Z) : bool :=
  Z.land (Z.shiftr operand OPSHIFT) 255 =? opcode.

(** The fields of a basic-block descriptor *)
Record BasicBlock : Set := mkBB {
  bb_desc_index : Z; bb_desc_loop : Z; bb_desc_depth : Z; bb_desc_header : bool }.

(** The decoding of the descriptor in [CallTracer::onCustomInstruction] *)
Definition decode_bb (opcode : Z) : BasicBlock :=
  let bb_descriptor :=
    u32 (Z.lor (Z.land opcode 255) (Z.shiftl (Z.land (Z.shiftr opcode 16) 65535) 8)) in
  mkBB (Z.land bb_descriptor (Z.shiftl 1 12 - 1))
    (Z.land (Z.shiftr bb_descriptor 12) (Z.shiftl 1 8 - 1))
    (Z.land (Z.shiftr bb_descriptor 20) (Z.shiftl 1 3 - 1))
    (negb (Z.land (Z.shiftr bb_descriptor 23) 1 =? 0)).

(** [CallTracer::onCustomInstruction] up to the scheduling of another state *)
Definition onCustomInstruction (kernel_mode : bool) (opcode : Z) (s : CallStack) :
    outcome (CallStack * list CallEvent) :=
  if negb (OPCODE_CHECK opcode BASIC_BLOCK_OPCODE) || kernel_mode then Done (s, [])
  else
    let bb := decode_bb opcode in
    updateBasicBlock (bb_desc_index bb) (bb_desc_loop bb) (bb_desc_depth bb)
      (bb_desc_header bb) s.

(** What the guest does: a call or another change of the stack pointer, or the
    instruction at the start of a basic block *)
Inductive GuestAction : Set :=
| StackPointer (pc pc' sp : Z) (isCall : bool)
| CustomInstruction (kernel_mode : bool) (opcode : Z).

Definition act (a : GuestAction) (s : CallStack) : outcome (CallStack * list CallEvent) :=
  match a with
  | StackPointer pc pc' sp isCall => onStackPointerModification pc pc' sp isCall s
  | CustomInstruction kernel_mode opcode => onCustomInstruction kernel_mode opcode s
  end.

(** A sequence of actions *)
Fixpoint acts (l : list GuestAction) (s : CallStack) : outcome (CallStack * list CallEvent) :=
  match l with
  | [] => Done (s, [])
  | a :: l =>
      '(s, ev) ← act a s;
      '(s, ev') ← acts l s;
      Done (s, ev ++ ev')
  end.

(** ** Invariant *)

(** The frames cover a contiguous part of the stack: each starts where the frame
    of its caller ends, and none is empty. *)
Fixpoint contiguous (fs : list CallStackFrame) : Prop :=
  match fs with
  | [] => True
  | f :: rest =>
      bottom f < top f ∧ contiguous rest ∧
      match rest with [] => True | g :: _ => top f = bottom g end
  end.

(** The identifiers decrease from [n] on. *)
Fixpoint ids_below (n : Z) (fs : list CallStackFrame) : Prop :=
  match fs with
  | [] => True
  | f :: rest => frame_id f < n ∧ ids_below (frame_id f) rest
  end.

Record stack_ok (s : CallStack) : Prop := {
  stack_nonempty : frames s ≠ [];
  stack_contiguous : contiguous (frames s);
  stack_ids : ids_below (next_id s) (frames s);
}.

(** [newFrame] has identifiers left. *)
Definition ids_left (n : Z) (s : CallStack) : Prop := 0 ≤ next_id s ∧ next_id s + n < 2 ^ 64.

(** The stack pointer of an action, when it changes it *)
Definition action_sp (a : GuestAction) : option Z :=
  match a with StackPointer _ _ sp _ => Some sp | CustomInstruction _ _ => None end.

(** Everything but the part of the frame that basic blocks and resizing change *)
Definition same_frame (f g : CallStackFrame) : Prop :=
  frame_id f = frame_id g ∧ call_site f = call_site g ∧ function f = function g ∧ top f = top g.

(** The effect of one signal on the frames: what an observer of the signals can
    rely on *)
Inductive event_step : list CallStackFrame → CallEvent → list CallStackFrame → Prop :=
| step_push old new fs : top new = bottom old →
    event_step (old :: fs) (StackFramePush old new) (new :: old :: fs)
| step_popping old new fs :
    event_step (old :: new :: fs) (StackFramePopping old new) (new :: fs)
| step_resize f f' fs : same_frame f f' →
    event_step (f :: fs) (StackFrameResize f') (f' :: fs)
| step_enter f f' fs : same_frame f f' →
    event_step (f :: fs) (BasicBlockEnter f') (f' :: fs).

Inductive trace : list CallStackFrame → list CallEvent → list CallStackFrame → Prop :=
| trace_nil fs : trace fs [] fs
| trace_cons fs e fs' evs fs'' : event_step fs e fs' → trace fs' evs fs'' → trace fs (e :: evs) fs''.

(** A stack on top of the frames [extra] *)
Definition beneath (extra : list CallStackFrame) (s : CallStack) : CallStack :=
  mkStack (next_id s) (frames s ++ extra).

(** An action leaves the frames from address [b] up alone. *)
Definition stays_below (b : Z) (a : GuestAction) : Prop :=
  match action_sp a with Some sp => sp < b | None => True end.

(** The frames [below] are under at least one other frame, which starts at [b]. *)
Definition on_top_of (b : Z) (below fs : list CallStackFrame) : Prop :=
  ∃ inner f, fs = inner ++ f :: below ∧ top f = b.

(** A thread calls a function, which calls another one and returns. *)
Definition sample_actions : list GuestAction :=
  [StackPointer 100 200 4080 true; StackPointer 204 205 4064 false;
   StackPointer 210 300 4056 true; CustomInstruction false 0x1230BB07;
   StackPointer 310 214 4064 false].

(** ** Lemmas *)

Lemma ids_below_mono n m fs : n ≤ m → ids_below n fs → ids_below m fs.
Proof. destruct fs; cbn; [done|]. intros ? []. split; [lia|done]. Qed.

Lemma unwind_split sp fs fs' ev :
  unwind sp fs = Done (fs', ev) → ∃ popped, fs = popped ++ fs' ∧
    Forall (λ g, top g ≤ sp) popped ∧ ∃ f rest, fs' = f :: rest ∧ sp < top f.
Proof.
  revert fs' ev. induction fs as [|f rest IH]; intros fs' ev; cbn; [done|].
  case_step; unbool.
  - destruct rest as [|g rest]; [done|]. destruct (unwind sp (g :: rest)) as [[]| |] eqn:Hu; [|done..].
    cbn. intros [= <- <-]. destruct (IH _ _ eq_refl) as (popped & -> & ? & ?).
    exists (f :: popped). repeat split; [by constructor|done].
  - intros [= <- <-]. exists []. repeat split; [constructor|by exists f, rest].
Qed.

Lemma contiguous_app l fs : contiguous (l ++ fs) → contiguous fs.
Proof. induction l; cbn; [done|]. naive_solver. Qed.

Lemma contiguous_above l f rest :
  contiguous (l ++ f :: rest) → Forall (λ g, top g ≤ bottom f) l.
Proof.
  induction l as [|g l IH]; cbn; [constructor|]. intros (_ & Hl & Hg).
  specialize (IH Hl). constructor; [|done].
  destruct l as [|h l]; cbn in *; [lia|]. inversion_clear IH. lia.
Qed.

Lemma unwind_exact sp popped f rest :
  Forall (λ g, top g ≤ sp) popped → sp < top f →
  ∃ ev, unwind sp (popped ++ f :: rest) = Done (f :: rest, ev).
Proof.
  intros Hp Hf. induction Hp as [|g popped Hg Hp [ev IH]]; cbn.
  - exists []. by rewrite (proj2 (Z.leb_gt _ _)).
  - rewrite (proj2 (Z.leb_le _ _)) by done.
    destruct popped; cbn in *; rewrite IH; cbn; by eexists.
Qed.

Lemma unwind_fails sp fs : Forall (λ g, top g ≤ sp) fs → unwind sp fs = AssertFailed.
Proof.
  induction 1 as [|f fs Hf Hfs IH]; cbn; [done|]. rewrite (proj2 (Z.leb_le _ _)) by done.
  destruct fs; [done|]. by rewrite IH.
Qed.

Lemma ids_below_app n l fs : ids_below n (l ++ fs) → ids_below n fs.
Proof.
  revert n. induction l as [|f l IH]; cbn; [done|]. intros n [? H].
  apply (ids_below_mono (frame_id f)); [lia|by apply IH].
Qed.

Lemma trace_app fs evs fs' evs' fs'' :
  trace fs evs fs' → trace fs' evs' fs'' → trace fs (evs ++ evs') fs''.
Proof. induction 1; [done|]. intros. cbn. econstructor; eauto. Qed.

Lemma unwind_trace sp fs fs' ev : unwind sp fs = Done (fs', ev) → trace fs ev fs'.
Proof.
  revert fs' ev. induction fs as [|f rest IH]; intros fs' ev; cbn; [done|].
  case_step; [|intros [= <- <-]; constructor].
  destruct rest as [|g rest]; [done|]. destruct (unwind sp (g :: rest)) as [[]| |]; [|done..].
  cbn. intros [= <- <-]. econstructor; [apply step_popping|]. by apply IH.
Qed.

Lemma same_frame_set_bottom sp f : same_frame f (set_bottom sp f).
Proof. by destruct f. Qed.

Lemma updateFrame_inv sp s s' ev :
  updateFrame sp s = Done (s', ev) →
  next_id s' = next_id s ∧ trace (frames s) ev (frames s') ∧ ∃ popped f rest,
    frames s = popped ++ f :: rest ∧ frames s' = set_bottom sp f :: rest ∧
    Forall (λ g, top g ≤ sp) popped ∧ sp < top f.
Proof.
  unfold updateFrame. destruct (unwind sp (frames s)) as [[fs ev0]| |] eqn:Hu; [|done..]. cbn.
  pose proof (unwind_trace _ _ _ _ Hu) as Ht.
  destruct (unwind_split _ _ _ _ Hu) as (popped & Heq & Hp & f & rest & -> & Hsp).
  case_step; unbool; intros [= <- <-]; cbn; (split; [done|]); split.
  - done.
  - exists popped, f, rest. split_and!; [done| |done..]. subst sp. by destruct f.
  - eapply trace_app; [exact Ht|]. econstructor; [|constructor].
    apply step_resize, same_frame_set_bottom.
  - exists popped, f, rest. by split_and!.
Qed.

Lemma newFrame_inv cs fn sp s s' ev :
  newFrame cs fn sp s = Done (s', ev) →
  next_id s' = u64 (next_id s + 1) ∧ trace (frames s) ev (frames s') ∧ ∃ f rest,
    frames s = f :: rest ∧ sp < bottom f ∧
    frames s' = new_frame (next_id s) cs fn (bottom f) sp :: frames s.
Proof.
  unfold newFrame. destruct (frames s) as [|f rest]; [done|].
  destruct (sp <? bottom f) eqn:Hsp; cbn [cassert mbind outcome_bind]; [|done].
  unbool. intros [= <- <-]. split_and!; [done| |by exists f, rest].
  econstructor; [|constructor]. by apply step_push.
Qed.

Lemma updateBasicBlock_inv bb l d h s s' ev :
  updateBasicBlock bb l d h s = Done (s', ev) →
  next_id s' = next_id s ∧ trace (frames s) ev (frames s') ∧ ∃ f f' rest,
    frames s = f :: rest ∧ frames s' = f' :: rest ∧ same_frame f f' ∧ bottom f = bottom f'.
Proof.
  unfold updateBasicBlock. destruct (frames s) as [|f rest]; [done|]. intros [= <- <-]. cbn.
  split_and!; [done| |by eexists f, _, rest].
  econstructor; [|constructor]. by apply step_enter.
Qed.

(** The signals of an action describe it. *)
Lemma act_trace a s s' ev : act a s = Done (s', ev) → trace (frames s) ev (frames s').
Proof.
  destruct a as [pc pc' sp [|]|km opc]; cbn; intros Ha.
  - by apply newFrame_inv in Ha as (_ & ? & _).
  - by apply updateFrame_inv in Ha as (_ & ? & _).
  - unfold onCustomInstruction in Ha. case_match; [simplify_eq; constructor|].
    by apply updateBasicBlock_inv in Ha as (_ & ? & _).
Qed.

Lemma act_ok a s s' ev :
  ids_left 1 s → stack_ok s → act a s = Done (s', ev) →
  stack_ok s' ∧ next_id s ≤ next_id s' ≤ next_id s + 1.
Proof.
  intros Hleft Hok Ha. pose proof Hok as [_ Hc Hi]. destruct a as [pc pc' sp [|]|km opc]; cbn in Ha.
  - apply newFrame_inv in Ha as (Hn & _ & f & rest & Heq & Hsp & Hfs).
    unfold u64 in Hn. rewrite Z.mod_small in Hn by (destruct Hleft; lia).
    split; [|lia]. split; rewrite ?Hfs, ?Hn; [done| |]; cbn; [|split; [lia|done]].
    split_and!; [done..|]. by rewrite Heq.
  - apply updateFrame_inv in Ha as (Hn & _ & popped & f & rest & Heq & Hfs & _ & Hsp).
    split; [|lia]. rewrite Heq in Hc, Hi.
    apply contiguous_app in Hc as (? & ? & ?). apply ids_below_app in Hi as [? ?].
    by split; rewrite ?Hfs, ?Hn.
  - unfold onCustomInstruction in Ha. case_match; [simplify_eq; by split; [|lia]|].
    apply updateBasicBlock_inv in Ha as (Hn & _ & f & f' & rest & Heq & Hfs & (Hid & _ & _ & Ht) & Hb).
    split; [|lia]. rewrite Heq in Hc, Hi. cbn in Hc, Hi.
    split; rewrite ?Hfs, ?Hn; [done|..]; cbn; rewrite <- ?Hid, <- ?Hb, <- ?Ht; done.
Qed.

Lemma acts_inv l s s' ev :
  ids_left (Z.of_nat (length l)) s → stack_ok s → acts l s = Done (s', ev) →
  stack_ok s' ∧ trace (frames s) ev (frames s').
Proof.
  revert s s' ev. induction l as [|a l IH]; intros s s' ev [? Hleft] Hok; cbn.
  { intros [= <- <-]. split; [done|constructor]. }
  destruct (act a s) as [[s1 ev1]| |] eqn:Ha; [|done..]. cbn.
  destruct (acts l s1) as [[s2 ev2]| |] eqn:Hl; [|done..]. cbn. intros [= <- <-].
  cbn [length] in Hleft. rewrite Nat2Z.inj_succ in Hleft.
  destruct (act_ok a s s1 ev1) as [Hok1 ?]; [split; lia|done..|].
  apply act_trace in Ha as Ht1.
  destruct (IH s1 s2 ev2) as [Hok2 Ht2]; [split; lia|done..|].
  split; [done|]. by eapply trace_app.
Qed.

Lemma unwind_beneath extra sp fs fs' ev :
  unwind sp fs = Done (fs', ev) → unwind sp (fs ++ extra) = Done (fs' ++ extra, ev).
Proof.
  revert fs' ev. induction fs as [|f rest IH]; intros fs' ev; cbn; [done|].
  case_step; [|by intros [= <- <-]].
  destruct rest as [|g rest]; [done|]. destruct (unwind sp (g :: rest)) as [[]| |]; [|done..].
  cbn. intros [= <- <-]. specialize (IH _ _ eq_refl). cbn in IH. by rewrite IH.
Qed.

(** Frames below the stack are never looked at. *)
Lemma act_beneath extra a s s' ev :
  act a s = Done (s', ev) → act a (beneath extra s) = Done (beneath extra s', ev).
Proof.
  destruct a as [pc pc' sp [|]|km opc]; cbn.
  - unfold newFrame, beneath. cbn. destruct (frames s) as [|f rest]; [done|].
    cbn. destruct (sp <? bottom f); [|done]. by intros [= <- <-].
  - unfold updateFrame. destruct (unwind sp (frames s)) as [[fs ev0]| |] eqn:Hu; [|done..].
    unfold beneath at 1. cbn. rewrite (unwind_beneath _ _ _ _ _ Hu). cbn.
    destruct fs as [|f rest]; [done|]. cbn. case_step; by intros [= <- <-].
  - unfold onCustomInstruction. case_step; [by intros [= <- <-]|].
    generalize (decode_bb opc) as bb. intros bb. unfold updateBasicBlock, beneath.
    cbn [frames]. destruct (frames s); [done|]. by intros [= <- <-].
Qed.

Lemma acts_beneath extra l s s' ev :
  acts l s = Done (s', ev) → acts l (beneath extra s) = Done (beneath extra s', ev).
Proof.
  revert s s' ev. induction l as [|a l IH]; intros s s' ev; cbn; [by intros [= <- <-]|].
  destruct (act a s) as [[s1 ev1]| |] eqn:Ha; [|done..]. cbn.
  destruct (acts l s1) as [[s2 ev2]| |] eqn:Hl; [|done..]. cbn. intros [= <- <-].
  rewrite (act_beneath _ _ _ _ _ Ha). cbn. by rewrite (IH _ _ _ Hl).
Qed.

Lemma acts_app l l' s s1 ev1 s2 ev2 :
  acts l s = Done (s1, ev1) → acts l' s1 = Done (s2, ev2) →
  acts (l ++ l') s = Done (s2, ev1 ++ ev2).
Proof.
  revert s s1 ev1. induction l as [|a l IH]; intros s s1 ev1; cbn; [by intros [= <- <-]|].
  destruct (act a s) as [[s3 ev3]| |]; [|done..]. cbn.
  destruct (acts l s3) as [[s4 ev4]| |] eqn:Hl; [|done..]. cbn. intros [= <- <-] Hl'.
  rewrite (IH _ _ _ Hl Hl'). cbn. by rewrite (assoc_L (++)).
Qed.

Lemma act_on_top a b below s s' ev :
  stays_below b a → on_top_of b below (frames s) → act a s = Done (s', ev) →
  on_top_of b below (frames s').
Proof.
  intros Hb (inner & f & Heq & Ht) Ha.
  assert (∀ g g' rest, frames s = g :: rest → same_frame g g' →
    on_top_of b below (g' :: rest)) as Hswap.
  { intros g g' rest Hg (_ & _ & _ & Ht'). rewrite Heq in Hg. destruct inner; injection Hg as -> <-.
    - exists [], g'. split; [done|congruence].
    - by exists (g' :: inner), f. }
  destruct a as [pc pc' sp [|]|km opc]; cbn in Ha, Hb.
  - apply newFrame_inv in Ha as (_ & _ & g & rest & _ & _ & ->).
    rewrite Heq. by eexists (_ :: inner), f.
  - destruct (updateFrame_inv _ _ _ _ Ha) as (_ & _ & popped & g & rest & Hsplit & -> & Hp & Hsp).
    rewrite Heq in Hsplit.
    apply app_eq_inv in Hsplit as [(k & -> & Hk)|(k & -> & Hk)].
    + destruct k as [|x k]; injection Hk as -> ->.
      * exists [], (set_bottom sp f). split; [done|by destruct f].
      * by exists (set_bottom sp x :: k), f.
    + destruct k as [|x k]; injection Hk as -> ->.
      * exists [], (set_bottom sp g). split; [done|by destruct g].
      * apply Forall_app in Hp as [_ Hp]. inversion Hp; subst. cbn in Hb. lia.
  - unfold onCustomInstruction in Ha. case_match; [simplify_eq; by exists inner, f|].
    destruct (updateBasicBlock_inv _ _ _ _ _ _ _ Ha) as (_ & _ & g & g' & rest & Hg & -> & Hs & _).
    by apply (Hswap g g').
Qed.

(** What the base frame allows: a stack pointer under its top is in exactly one
    frame or just below the newest one. *)
Lemma frame_at sp fs b :
  last fs = Some b → sp < top b →
  ∃ popped f rest, fs = popped ++ f :: rest ∧ Forall (λ g, top g ≤ sp) popped ∧ sp < top f.
Proof.
  induction fs as [|f fs IH]; [done|]. intros Hb Hsp. destruct (decide (sp < top f)).
  { by exists [], f, fs. }
  destruct fs as [|g fs]; [injection Hb as ->; lia|].
  destruct (IH Hb Hsp) as (popped & h & rest & -> & ? & ?).
  exists (f :: popped), h, rest. split_and!; [done| |done]. constructor; [lia|done].
Qed.

Lemma updateFrame_exact sp s popped f rest :
  frames s = popped ++ f :: rest → Forall (λ g, top g ≤ sp) popped → sp < top f →
  ∃ ev, updateFrame sp s = Done (mkStack (next_id s) (set_bottom sp f :: rest), ev).
Proof.
  intros Heq Hp Hf. unfold updateFrame. rewrite Heq.
  destruct (unwind_exact sp popped f rest Hp Hf) as [ev ->]. cbn.
  case_step; unbool; eexists; [|done]. subst sp. by destruct f.
Qed.

Lemma contiguous_top_le l b : contiguous l → last l = Some b → Forall (λ f, top f ≤ top b) l.
Proof.
  induction l as [|f l IH]; [constructor|]. intros (? & Hl & Hf) Hb.
  destruct l as [|g l]; [injection Hb as ->; by repeat constructor|].
  specialize (IH Hl Hb). constructor; [|done]. destruct Hl as [? _].
  inversion_clear IH. lia.
Qed.

Lemma acts_on_top l b below s s' ev :
  Forall (stays_below b) l → on_top_of b below (frames s) → acts l s = Done (s', ev) →
  on_top_of b below (frames s').
Proof.
  intros Hl. revert s s' ev. induction Hl as [|a l Ha Hl IH]; intros s s' ev Hs; cbn.
  { by intros [= <- <-]. }
  destruct (act a s) as [[s1 ev1]| |] eqn:Hact; [|done..]. cbn.
  destruct (acts l s1) as [[s2 ev2]| |] eqn:Hacts; [|done..]. cbn. intros [= <- <-].
  eapply IH; [|exact Hacts]. by eapply act_on_top.
Qed.

(** ** Properties *)

(** C13: from a new stack or any stack that satisfies the invariant, every
    sequence of calls, stack-pointer changes and basic-block instructions keeps
    the invariant: the stack is never empty, its frames are non-empty address
    ranges that follow each other without gaps, and identifiers decrease towards
    the base.  The signals describe the change exactly. *)
Theorem call_stack_invariant stack_top l s s' ev :
  8 ≤ stack_top + 8 < 2 ^ 64 → (s = CallStack_create stack_top ∨ stack_ok s) →
  ids_left (Z.of_nat (length l)) s → acts l s = Done (s', ev) →
  stack_ok s' ∧ trace (frames s) ev (frames s').
Proof.
  intros Ht Hs Hleft. apply acts_inv; [done|]. destruct Hs as [->|]; [|done].
  split; cbn; [done| |lia]. unfold u64. rewrite Z.mod_small by lia. split_and!; done || lia.
Qed.

(** A change of the stack pointer that is not a call succeeds exactly when
    the new value is below the top of the base frame; it then drops the frames
    that end at or below the stack pointer, the frame that contains it becomes
    the current one and ends there, and the older frames stay as they were.
    Otherwise the code runs out of frames. *)
Theorem updateFrame_correct sp s b :
  stack_ok s → last (frames s) = Some b →
  if sp <? top b then
    updateFrame sp s ⇓ λ '(s', ev), next_id s' = next_id s ∧ ∃ popped f rest,
      frames s = popped ++ f :: rest ∧ frames s' = set_bottom sp f :: rest ∧
      Forall (λ g, top g ≤ sp) popped ∧ sp < top f ∧ (popped ≠ [] → bottom f ≤ sp)
  else updateFrame sp s = AssertFailed.
Proof.
  intros [_ Hc _] Hb. case_step; unbool.
  - destruct (frame_at sp (frames s) b) as (popped & f & rest & Heq & Hp & Hf); [done..|].
    destruct (updateFrame_exact sp s popped f rest) as [ev ->]; [done..|].
    split; [done|]. exists popped, f, rest. split_and!; [done..|]. intros Hne.
    destruct (exists_last Hne) as (popped' & g & ->). rewrite <- app_assoc in Heq. cbn in Heq.
    rewrite Heq in Hc. apply contiguous_app in Hc as (_ & _ & Hg).
    apply Forall_app in Hp as [_ Hp]. inversion_clear Hp. lia.
  - unfold updateFrame. rewrite unwind_fails; [done|].
    eapply Forall_impl; [by apply (contiguous_top_le _ b)|]. cbn. lia.
Qed.

(** Calls and returns match.  After a call, as long as the callee keeps the
    stack pointer below the caller's frame, the frames of the caller and of its
    callers stay untouched under those of the callee, however many calls and
    returns it makes; when the stack pointer is back in the caller's frame, the
    caller is the current frame again and only its end can differ. *)
Theorem call_return s f rest pc pc' sp l s2 ev pcr pcr' sp' :
  stack_ok s → ids_left (Z.of_nat (length l) + 1) s → frames s = f :: rest →
  acts (StackPointer pc pc' sp true :: l) s = Done (s2, ev) →
  Forall (stays_below (bottom f)) l → bottom f ≤ sp' < top f →
  on_top_of (bottom f) (f :: rest) (frames s2) ∧
  ∃ ev', acts (StackPointer pc pc' sp true :: l ++ [StackPointer pcr pcr' sp' false]) s =
    Done (mkStack (next_id s2) (set_bottom sp' f :: rest), ev').
Proof.
  intros Hok Hleft Hfs Hacts Hl Hsp.
  assert (on_top_of (bottom f) (f :: rest) (frames s2)) as Htop.
  { cbn in Hacts. destruct (newFrame pc pc' sp s) as [[s1 ev1]| |] eqn:Hnew; [|done..].
    cbn in Hacts. destruct (acts l s1) as [[s3 ev3]| |] eqn:Hacts'; [|done..]. cbn in Hacts.
    injection Hacts as -> _. eapply acts_on_top; [exact Hl| |exact Hacts'].
    unfold newFrame in Hnew. rewrite Hfs in Hnew. destruct (sp <? bottom f); [|done].
    injection Hnew as <- _. by eexists [], _. }
  split; [done|]. destruct Htop as (inner & g & Heq & Hg).
  assert (contiguous (frames s2)) as Hc.
  { apply acts_inv in Hacts as [[_ Hc _] _]; [done| |done].
    destruct Hleft. cbn [length]. split; lia. }
  destruct (updateFrame_exact sp' s2 (inner ++ [g]) f rest) as [ev' Hup]; [| |lia|].
  { by rewrite Heq, <- app_assoc. }
  { rewrite Heq, (cons_middle g inner) in Hc. rewrite app_assoc in Hc.
    eapply Forall_impl; [exact (contiguous_above _ _ _ Hc)|]. cbn. lia. }
  eexists. rewrite app_comm_cons. eapply acts_app; [exact Hacts|].
  cbn. rewrite Hup. cbn. by rewrite app_nil_r.
Qed.

(** A forked state continues on a copy of the call stack that behaves like
    the original: the same sequence of actions succeeds, emits the same signals
    and ends in a copy of the stack the original ends in. *)
Theorem clone_simulation stack_top l s s' ev :
  acts l s = Done (s', ev) → acts l (clone stack_top s) = Done (clone stack_top s', ev).
Proof. apply (acts_beneath (frames (CallStack_create stack_top))). Qed.

(** The bits of the basic-block descriptor *)
Lemma descriptor_bit opcode i :
  0 ≤ i →
  Z.testbit (u32 (Z.lor (Z.land opcode 255) (Z.shiftl (Z.land (Z.shiftr opcode 16) 65535) 8))) i =
  Z.testbit opcode (if i <? 8 then i else i + 8) && (i <? 24).
Proof.
  intros Hi. unfold u32. change 255 with (Z.ones 8). change 65535 with (Z.ones 16).
  rewrite testbit_mod, Z.lor_spec, Z.land_spec, testbit_ones, Z.shiftl_spec by lia.
  case_step; unbool.
  - rewrite !bool_decide_true, (Z.testbit_neg_r _ (i - 8)) by lia.
    rewrite (proj2 (Z.ltb_lt i 24)) by lia. by rewrite orb_false_r.
  - rewrite (bool_decide_false (i < 8)), andb_false_r by lia. cbn [orb].
    rewrite Z.land_spec, testbit_ones, Z.shiftr_spec by lia.
    replace (i - 8 + 16) with (i + 8) by lia. rewrite andb_comm.
    destruct (i <? 24) eqn:?; unbool.
    + by rewrite !bool_decide_true, !andb_true_r by lia.
    + by rewrite (bool_decide_false (i - 8 < 16)), !andb_false_r by lia.
Qed.

Lemma low_mask w : Z.shiftl 1 w - 1 = Z.ones w.
Proof. by rewrite Z.sub_1_r. Qed.

Lemma land_shift_bit v n w i :
  0 ≤ n → 0 ≤ w → 0 ≤ i →
  Z.testbit (Z.land (Z.shiftr v n) (Z.shiftl 1 w - 1)) i = Z.testbit v (i + n) && (i <? w).
Proof.
  intros. rewrite low_mask, Z.land_spec, Z.shiftr_spec, testbit_ones by done.
  f_equal. case_bool_decide; symmetry; [by apply Z.ltb_lt|apply Z.ltb_ge; lia].
Qed.

(** The fields of the basic-block instruction.  Every field is within the
    width the descriptor gives it, and its bits are the bits of the instruction
    word around the opcode byte: the block index from bits 0-7 and 16-19, the
    loop from 20-27, its depth from 28-30 and the header flag from bit 31. *)
Theorem decode_bb_fields opcode :
  let bb := decode_bb opcode in
  bb_desc_index bb `bits` 12 ∧ bb_desc_loop bb `bits` 8 ∧ bb_desc_depth bb `bits` 3 ∧
  bb_desc_header bb = Z.testbit opcode 31 ∧
  ∀ i, 0 ≤ i →
    Z.testbit (bb_desc_index bb) i = Z.testbit opcode (if i <? 8 then i else i + 8) && (i <? 12) ∧
    Z.testbit (bb_desc_loop bb) i = Z.testbit opcode (i + 20) && (i <? 8) ∧
    Z.testbit (bb_desc_depth bb) i = Z.testbit opcode (i + 28) && (i <? 3).
Proof.
  unfold decode_bb. cbv zeta. cbn [bb_desc_index bb_desc_loop bb_desc_depth bb_desc_header].
  pose proof (descriptor_bit opcode) as Hd.
  set (d := u32 _) in *. clearbody d.
  assert (∀ n w, 0 ≤ n → 0 ≤ w → Z.land (Z.shiftr d n) (Z.shiftl 1 w - 1) `bits` w) as Hb.
  { intros n w Hn Hw. rewrite low_mask, Z.land_ones by done.
    by apply bounded_mod. }
  split_and!; [by rewrite <- (Z.shiftr_0_r d); apply Hb|by apply Hb..| |].
  - specialize (Hd 23 ltac:(done)). cbn -[Z.testbit] in Hd. rewrite andb_true_r in Hd. change (23 + 8) with 31 in Hd. rewrite <- Hd.
    change 1 with (Z.ones 1) at 1. rewrite Z.land_ones, <- Z.bit0_mod by done.
    rewrite Z.shiftr_spec by done. by destruct (Z.testbit d _).
  - intros i Hi. rewrite <- (Z.shiftr_0_r d) at 1. rewrite !land_shift_bit, !Hd by lia.
    assert (∀ n w, 0 ≤ n → n + w ≤ 24 → ∀ x, x && (i + n <? 24) && (i <? w) = x && (i <? w)) as Hw.
    { intros n w ?? x. destruct (i <? w) eqn:?; [|by rewrite !andb_false_r]. unbool.
      by rewrite (proj2 (Z.ltb_lt _ _)), andb_true_r by lia. }
    rewrite !Hw, !Z.add_0_r, !(proj2 (Z.ltb_ge (i + _) 8)), <- !Z.add_assoc by lia. done.
Qed.

(** ** Witnesses *)

Lemma call_stack_invariant_witness :
  ∃ s ev, acts sample_actions (CallStack_create 4096) = Done (s, ev) ∧
    stack_ok s ∧ trace (frames (CallStack_create 4096)) ev (frames s).
Proof.
  eexists _, _. split; [vm_compute; reflexivity|].
  apply (call_stack_invariant 4096 sample_actions); [lia|by left|by split|].
  vm_compute. reflexivity.
Defined.

Lemma sample_stack_ok : stack_ok (CallStack_create 4096).
Proof. split; cbn; [done| |lia]. vm_compute. naive_solver. Qed.

Lemma updateFrame_correct_witness :
  updateFrame 4104 (CallStack_create 4096) = AssertFailed ∧
  updateFrame 4000 (CallStack_create 4096) ⇓ λ '(s', _), next_id s' = 2.
Proof.
  split; [exact (updateFrame_correct 4104 _ _ sample_stack_ok eq_refl)|].
  eapply yields_mono; [exact (updateFrame_correct 4000 _ _ sample_stack_ok eq_refl)|].
  intros [s' ev] [Hn _]. exact Hn.
Defined.

Lemma call_return_witness :
  ∃ ev', acts (sample_actions ++ [StackPointer 220 104 4096 false]) (CallStack_create 4096) =
    Done (mkStack 4 [new_frame 1 0 0 4104 4096], ev').
Proof.
  pose (r := match acts sample_actions (CallStack_create 4096) with
    Done r => r | _ => (CallStack_create 4096, []) end).
  exact (proj2 (call_return (CallStack_create 4096) (new_frame 1 0 0 4104 4096) [] 100 200 4080
    (tail sample_actions) r.1 r.2 220 104 4096 sample_stack_ok ltac:(by split) eq_refl
    ltac:(vm_compute; reflexivity) ltac:(by repeat constructor) ltac:(done))).
Defined.

Lemma clone_simulation_witness :
  ∃ s ev, acts sample_actions (clone 4096 (CallStack_create 4096)) = Done (clone 4096 s, ev).
Proof. eexists _, _. apply clone_simulation. vm_compute. reflexivity. Defined.
