(* ===== verification/InterpreterTracer.v ===== *)
(** * Interpreter stacks: [s2e/Chef/InterpreterTracer.cpp]

    On top of the call stack of the guest, the tracer keeps the stack of frames of
    the interpreted program.  It listens to the signals of the call tracer, where
    every activation of the interpreter-loop function is a high-level frame, and
    to the memory accesses of the loop, where the writes to the location of the
    high-level program counter (HLPC) and the reads of instructions are found.

    Both tracers keep one stack for every execution state, in a
    [StreamAnalyzer]; the maps below are the ones such an analyzer refines.
    Stacks are listed newest frame first; [parent] is never read. *)

From stdpp Require Import prelude gmap.
From S2P Require Import Prelude Bits StreamAnalyzer CallTracer.

(** [struct InterpreterStructureParams] *)
Record InterpreterStructureParams : Set := mkParams {
  interp_loop_function : Z;
  hlpc_update_pc : Z;
  instruction_fetch_pc : Z;
}.

(** [struct HighLevelFrame] *)
Record HighLevelFrame : Set := mkHLFrame {
  low_level_frame_id : Z;
  hlpc_ptr : Z;
  hlpc : Z;
  hlinst : Z;
}.

(** [class HighLevelStack], its [frames_] from the newest to the oldest *)
Definition HighLevelStack : Set := list HighLevelFrame.
#[export] Typeclasses Transparent HighLevelStack.

(** The signals of [class InterpreterTracer], each with the stack it shows *)
Inductive HighLevelEvent : Set :=
| HighLevelFramePush (hl_stack : HighLevelStack)
| HighLevelFramePopping (hl_stack : HighLevelStack)
| HighLevelInstructionFetch (hl_stack : HighLevelStack)
| HighLevelPCUpdate (hl_stack : HighLevelStack).

(** [class InterpreterTracer] with the call tracer it observes.  [tracking] says
    whether [on_data_memory_access_] is connected, [current] is the execution
    state that runs, if one does. *)
Record Tracer : Type := mkTracer {
  interp_params : InterpreterStructureParams;
  ll_stacks : gmap Z CallStack;
  hl_stacks : gmap Z HighLevelStack;
  tracking : bool;
  current : option Z;
}.

(** The constructor of [HighLevelFrame] *)
Definition new_hl_frame (id : Z) : HighLevelFrame := mkHLFrame id 0 0 0.

(** [HighLevelStack::clone] *)
Definition hl_clone (hl_stack : HighLevelStack) : HighLevelStack := hl_stack.

(** The stack of a state; [createState] makes a new one at the first use. *)
Definition hl_stack_of (hl : gmap Z HighLevelStack) (k : Z) : HighLevelStack :=
  default ([] : HighLevelStack) (hl !! k).

(** The loop of [setInterpreterStructureParams], over the frames from the oldest
    on: a high-level frame for every activation of the loop function *)
Definition loop_frames (f : Z) (fs : list CallStackFrame) : list CallStackFrame :=
  filter (λ fr, function fr = f) fs.

Definition initial_stack (params : InterpreterStructureParams) (s : CallStack) : HighLevelStack :=
  (λ fr, new_hl_frame (frame_id fr)) <$> loop_frames (interp_loop_function params) (frames s).

(** [InterpreterTracer::pushHighLevelFrame], [id] the frame of the call stack *)
Definition pushHighLevelFrame (id : Z) (hl_stack : HighLevelStack) :
    HighLevelStack * list HighLevelEvent :=
  let hl_stack := new_hl_frame id :: hl_stack in (hl_stack, [HighLevelFramePush hl_stack]).

(** [InterpreterTracer::popHighLevelFrame] *)
Definition popHighLevelFrame (hl_stack : HighLevelStack) : HighLevelStack * list HighLevelEvent :=
  (tail hl_stack, [HighLevelFramePopping hl_stack]).

(** The [while] of [onDataMemoryAccess]: pop until the frame that keeps its HLPC
    at [address]; the code has checked that there is one. *)
Fixpoint pop_to (address : Z) (hl_stack : HighLevelStack) : HighLevelStack * list HighLevelEvent :=
  match hl_stack with
  | [] => ([], [])
  | f :: rest =>
      if hlpc_ptr f =? address then (hl_stack, [])
      else
        let '(hl', ev) := pop_to address rest in (hl', snd (popHighLevelFrame hl_stack) ++ ev)
  end.

(** A memory access of the tracked thread: the program counter, the address and
    the value where they are concrete, and whether the thread is running in user
    mode *)
Record MemoryAccess : Set := mkAccess {
  access_pc : Z;
  vaddr : option Z;
  value_expr : option Z;
  isWrite : bool;
  user_mode : bool;
}.

(** Changes to the newest frame *)
Definition set_hlpc_ptr (v : Z) (f : HighLevelFrame) : HighLevelFrame :=
  mkHLFrame (low_level_frame_id f) v (hlpc f) (hlinst f).
Definition set_hlpc (v : Z) (f : HighLevelFrame) : HighLevelFrame :=
  mkHLFrame (low_level_frame_id f) (hlpc_ptr f) v (hlinst f).
Definition set_hlinst (v : Z) (f : HighLevelFrame) : HighLevelFrame :=
  mkHLFrame (low_level_frame_id f) (hlpc_ptr f) (hlpc f) v.

Definition on_top (f : HighLevelFrame → HighLevelFrame) (hl_stack : HighLevelStack) : HighLevelStack :=
  match hl_stack with [] => [] | fr :: rest => f fr :: rest end.

(** [onDataMemoryAccess], the part at [hlpc_update_pc] *)
Definition find_hlpc_frame (id address : Z) (hl_stack : HighLevelStack) :
    HighLevelStack * list HighLevelEvent :=
  match hl_stack with
  | [] => ([], [])
  | hl_frame :: _ =>
      if hlpc_ptr hl_frame =? 0 then (on_top (set_hlpc_ptr address) hl_stack, [])
      else if hlpc_ptr hl_frame =? address then (hl_stack, [])
      else if existsb (λ f, hlpc_ptr f =? address) hl_stack then pop_to address hl_stack
      else
        let '(hl_stack, ev) := pushHighLevelFrame id hl_stack in
        (on_top (set_hlpc_ptr address) hl_stack, ev)
  end.

(** [onDataMemoryAccess], the update of the HLPC *)
Definition write_hlpc (address value : Z) (isWrite : bool) (hl_stack : HighLevelStack) :
    HighLevelStack * list HighLevelEvent :=
  match hl_stack with
  | hl_frame :: _ =>
      if (address =? hlpc_ptr hl_frame) && isWrite then
        let hl_stack := on_top (set_hlpc value) hl_stack in
        (hl_stack, [HighLevelPCUpdate hl_stack])
      else (hl_stack, [])
  | [] => ([], [])
  end.

(** [InterpreterTracer::onDataMemoryAccess]; [id] is the newest frame of the call
    stack. *)
Definition onDataMemoryAccess (params : InterpreterStructureParams) (id : Z) (m : MemoryAccess)
    (hl_stack : HighLevelStack) : outcome (HighLevelStack * list HighLevelEvent) :=
  match vaddr m, value_expr m with
  | Some address, Some value =>
      if negb (user_mode m) || (0xc0000000 <=? address) then Done (hl_stack, [])
      else
        _ ← cassert (negb (bool_decide (hl_stack = [])));
        '(hl_stack, ev1) ←
          (if access_pc m =? hlpc_update_pc params then
             _ ← cassert (isWrite m);
             Done (find_hlpc_frame id address hl_stack)
           else Done (hl_stack, []));
        let '(hl_stack, ev2) := write_hlpc address value (isWrite m) hl_stack in
        if access_pc m =? instruction_fetch_pc params then
          _ ← cassert (negb (isWrite m));
          let hl_stack := on_top (set_hlinst address) hl_stack in
          Done (hl_stack, ev1 ++ ev2 ++ [HighLevelInstructionFetch hl_stack])
        else Done (hl_stack, ev1 ++ ev2)
  | _, _ => Done (hl_stack, [])
  end.

(** [InterpreterTracer::updateMemoryTracking] *)
Definition updateMemoryTracking (params : InterpreterStructureParams) (top : CallStackFrame) : bool :=
  function top =? interp_loop_function params.

(** [onLowLevelStackFramePush] and [onLowLevelStackFramePopping]: the new value of
    [tracking], the new high-level stack and the signals *)
Definition onCallEvent (params : InterpreterStructureParams) (e : CallEvent) (tracking : bool)
    (hl_stack : HighLevelStack) : outcome (bool * HighLevelStack * list HighLevelEvent) :=
  match e with
  | StackFramePush old_top new_top =>
      if function new_top =? interp_loop_function params then
        let '(hl_stack, ev) := pushHighLevelFrame (frame_id new_top) hl_stack in
        Done (updateMemoryTracking params new_top, hl_stack, ev)
      else Done (updateMemoryTracking params new_top, hl_stack, [])
  | StackFramePopping old_top new_top =>
      if function old_top =? interp_loop_function params then
        _ ← cassert (negb (bool_decide (hl_stack = [])));
        let '(hl_stack, ev) := popHighLevelFrame hl_stack in
        Done (updateMemoryTracking params new_top, hl_stack, ev)
      else Done (updateMemoryTracking params new_top, hl_stack, [])
  | StackFrameResize _ | BasicBlockEnter _ => Done (tracking, hl_stack, [])
  end.

Fixpoint onCallEvents (params : InterpreterStructureParams) (l : list CallEvent) (tracking : bool)
    (hl_stack : HighLevelStack) : outcome (bool * HighLevelStack * list HighLevelEvent) :=
  match l with
  | [] => Done (tracking, hl_stack, [])
  | e :: l =>
      '(t, hl, ev) ← onCallEvent params e tracking hl_stack;
      '(t, hl, ev') ← onCallEvents params l t hl;
      Done (t, hl, ev ++ ev')
  end.

(** What happens to the tracers: the tracked thread acts or accesses memory in the
    current state, the executor switches to another state, forks or kills one *)
Inductive TracerOp : Set :=
| GuestStep (a : GuestAction)
| DataAccess (m : MemoryAccess)
| SwitchTo (s2e_state : Z)
| ForkAt (newStates : list Z)
| KillAt (s2e_state : Z).

(** An interpreter loop at 500 that updates the HLPC at 510 and fetches at 520 *)
Definition sample_params : InterpreterStructureParams := mkParams 500 510 520.

Definition hlpc_write (address value : Z) : TracerOp :=
  DataAccess (mkAccess 510 (Some address) (Some value) true true).

(** The loop runs, calls itself, and returns. *)
Definition sample_steps : list TracerOp :=
  [GuestStep (StackPointer 100 500 4080 true); hlpc_write 1000 7;
   DataAccess (mkAccess 520 (Some 7000) (Some 1) false true); ForkAt [1; 2];
   GuestStep (StackPointer 540 500 4060 true); hlpc_write 2000 8;
   GuestStep (StackPointer 560 544 4080 false); hlpc_write 1000 9; SwitchTo 2;
   GuestStep (StackPointer 560 104 4096 false); KillAt 1].

(** The inner activation writes where the outer one keeps its HLPC. *)
Definition relocation_steps : list TracerOp :=
  [GuestStep (StackPointer 100 500 4080 true); hlpc_write 1000 7;
   GuestStep (StackPointer 540 500 4060 true); hlpc_write 2000 8; hlpc_write 1000 9;
   GuestStep (StackPointer 560 544 4080 false)].

Section Tracers.

(** [thread->stack_top()] of the tracked thread *)
Context (stack_top : Z).

Definition ll_stack_of (ll : gmap Z CallStack) (k : Z) : CallStack :=
  default (CallStack_create stack_top) (ll !! k).

(** [InterpreterTracer::setInterpreterStructureParams] *)
Definition setInterpreterStructureParams (k : Z) (params : InterpreterStructureParams) (t : Tracer) :
    Tracer :=
  let s := ll_stack_of (ll_stacks t) k in
  mkTracer params (<[k := s]> (ll_stacks t)) (<[k := initial_stack params s]> (hl_stacks t))
    false (current t).

(** The handlers of [StreamAnalyzer] in the two tracers *)
Definition ll_op : AnalyzerOp → M (gmap Z CallStack) (option CallStack) :=
  map_op (λ _, Done (CallStack_create stack_top)) (λ s _, Done (clone stack_top s)).
Definition hl_op : AnalyzerOp → M (gmap Z HighLevelStack) (option HighLevelStack) :=
  map_op (State := HighLevelStack) (λ _, Done []) (λ hl _, Done (hl_clone hl)).

(** [InterpreterTracer::onStateSwitch] *)
Definition onStateSwitch (k : Z) (t : Tracer) : outcome Tracer :=
  match frames (ll_stack_of (ll_stacks t) k) with
  | [] => AssertFailed
  | top :: _ => Done (mkTracer (interp_params t) (ll_stacks t) (hl_stacks t)
      (updateMemoryTracking (interp_params t) top) (Some k))
  end.

(** A guest action of the current state, with the signals it leads to *)
Definition guest_step (k : Z) (a : GuestAction) (t : Tracer) : outcome (Tracer * list HighLevelEvent) :=
  '(s, ev) ← act a (ll_stack_of (ll_stacks t) k);
  '(tr, hl, hev) ← onCallEvents (interp_params t) ev (tracking t) (hl_stack_of (hl_stacks t) k);
  Done (mkTracer (interp_params t) (<[k := s]> (ll_stacks t)) (<[k := hl]> (hl_stacks t)) tr
    (current t), hev).

(** A memory access of the current state: the handler runs when it is connected. *)
Definition data_access (k : Z) (m : MemoryAccess) (t : Tracer) : outcome (Tracer * list HighLevelEvent) :=
  if tracking t then
    match frames (ll_stack_of (ll_stacks t) k) with
    | [] => AssertFailed
    | top :: _ =>
        '(hl, hev) ← onDataMemoryAccess (interp_params t) (frame_id top) m (hl_stack_of (hl_stacks t) k);
        Done (mkTracer (interp_params t) (ll_stacks t) (<[k := hl]> (hl_stacks t)) (tracking t)
          (current t), hev)
    end
  else Done (t, []).

Definition tracer_step (o : TracerOp) (t : Tracer) : outcome (Tracer * list HighLevelEvent) :=
  match o, current t with
  | GuestStep a, Some k => guest_step k a t
  | DataAccess m, Some k => data_access k m t
  | SwitchTo k, _ => t ← onStateSwitch k t; Done (t, [])
  | ForkAt news, Some k =>
      '(_, ll) ← ll_op (ForkState k news) (ll_stacks t);
      '(_, hl) ← hl_op (ForkState k news) (hl_stacks t);
      Done (mkTracer (interp_params t) ll hl (tracking t) (current t), [])
  | KillAt k, _ =>
      '(_, ll) ← ll_op (KillState k) (ll_stacks t);
      '(_, hl) ← hl_op (KillState k) (hl_stacks t);
      Done (mkTracer (interp_params t) ll hl (tracking t)
        (if bool_decide (current t = Some k) then None else current t), [])
  | _, None => Done (t, [])
  end.

(** ** The invariant that ties the two stacks together *)

(** One high-level frame for every activation of the loop function, in order *)
Definition mirrors (params : InterpreterStructureParams) (hl : HighLevelStack)
    (fs : list CallStackFrame) : Prop :=
  low_level_frame_id <$> hl = frame_id <$> loop_frames (interp_loop_function params) fs.

(** The newest frame runs the interpreter loop. *)
Definition in_loop (params : InterpreterStructureParams) (fs : list CallStackFrame) : Prop :=
  ∃ f r, fs = f :: r ∧ function f = interp_loop_function params.

Record tracer_ok (t : Tracer) : Prop := {
  loop_function_known : interp_loop_function (interp_params t) ≠ 0;
  ll_nonempty k : frames (ll_stack_of (ll_stacks t) k) ≠ [];
  stacks_mirror k : mirrors (interp_params t) (hl_stack_of (hl_stacks t) k)
    (frames (ll_stack_of (ll_stacks t) k));
  tracking_loop k : tracking t = true → current t = Some k →
    in_loop (interp_params t) (frames (ll_stack_of (ll_stacks t) k));
}.

(** The interpreter keeps the HLPC of an activation of its loop in one place, and a fork
    makes one new state, as [S2EExecutor::notifyFork] reports it, so that the analyzers
    refine the maps. *)
Definition well_behaved (o : TracerOp) (t : Tracer) : Prop :=
  match o, current t with
  | DataAccess m, Some k =>
      access_pc m = hlpc_update_pc (interp_params t) →
      ∀ f rest address, hl_stack_of (hl_stacks t) k = f :: rest → vaddr m = Some address →
        hlpc_ptr f = 0 ∨ hlpc_ptr f = address
  | ForkAt news, Some k => (length (others k news) ≤ 1)%nat
  | _, _ => True
  end.

Inductive tracer_run : Tracer → list TracerOp → Tracer → Prop :=
| run_nil t : tracer_run t [] t
| run_cons t o t' ev l t'' : well_behaved o t → tracer_step o t = Done (t', ev) →
    tracer_run t' l t'' → tracer_run t (o :: l) t''.

(** A sequence of steps, with the signals *)
Fixpoint tracer_steps (l : list TracerOp) (t : Tracer) : outcome (Tracer * list HighLevelEvent) :=
  match l with
  | [] => Done (t, [])
  | o :: l =>
      '(t, ev) ← tracer_step o t;
      '(t, ev') ← tracer_steps l t;
      Done (t, ev ++ ev')
  end.

(** What the guest and the executor must respect for a step to be possible *)
Definition allowed (o : TracerOp) (t : Tracer) : Prop :=
  match o, current t with
  | GuestStep a, Some k => ∃ r, act a (ll_stack_of (ll_stacks t) k) = Done r
  | DataAccess m, _ =>
      (access_pc m = hlpc_update_pc (interp_params t) → isWrite m = true) ∧
      (access_pc m = instruction_fetch_pc (interp_params t) → isWrite m = false)
  | ForkAt news, Some k =>
      NoDup news ∧ ∀ k', k' ∈ news → k' ≠ k → ll_stacks t !! k' = None ∧ hl_stacks t !! k' = None
  | _, _ => True
  end.

(** The only state with stacks is [k]. *)
Definition single_state (k : Z) (t : Tracer) : Prop :=
  frames (ll_stack_of (ll_stacks t) k) ≠ [] ∧
  ∀ k', k' ≠ k → ll_stacks t !! k' = None ∧ hl_stacks t !! k' = None.

(** ** Lemmas *)

Lemma mirrors_nil params fs : mirrors params [] fs → loop_frames (interp_loop_function params) fs = [].
Proof. unfold mirrors. intros H. by destruct (loop_frames _ _). Qed.

Lemma mirrors_cons params hl f fs :
  mirrors params hl (f :: fs) ↔
  if function f =? interp_loop_function params
  then ∃ h hl', hl = h :: hl' ∧ low_level_frame_id h = frame_id f ∧ mirrors params hl' fs
  else mirrors params hl fs.
Proof.
  unfold mirrors, loop_frames. rewrite filter_cons.
  destruct (function f =? _) eqn:?; case_decide; unbool; try done.
  split.
  - destruct hl as [|h hl]; [done|]. intros [= ??]. by exists h, hl.
  - intros (h & hl' & -> & ? & Hm). cbn. f_equal; [done|exact Hm].
Qed.

Lemma tracking_ok params f fs : updateMemoryTracking params f = true → in_loop params (f :: fs).
Proof. unfold updateMemoryTracking. intros. unbool. by exists f, fs. Qed.

Lemma same_frame_mirrors params hl f f' fs :
  same_frame f f' → mirrors params hl (f :: fs) → mirrors params hl (f' :: fs).
Proof. intros (Hid & _ & Hf & _). rewrite !mirrors_cons, Hf. case_step; [by rewrite Hid|done]. Qed.

Lemma same_frame_in_loop params f f' fs :
  same_frame f f' → in_loop params (f :: fs) → in_loop params (f' :: fs).
Proof. intros (_ & _ & Hf & _) (? & ? & [= <- <-] & ?). exists f', fs. by rewrite <- Hf. Qed.

(** One signal: the handlers keep the stacks in step and [tracking] right. *)
Lemma onCallEvent_ok params e fs fs' tr hl :
  event_step fs e fs' → mirrors params hl fs →
  onCallEvent params e tr hl ⇓ λ '(tr', hl', _), mirrors params hl' fs' ∧
    ((tr = true → in_loop params fs) → tr' = true → in_loop params fs').
Proof.
  intros He Hm. destruct He as [old new fs _|old new fs|f f' fs Hs|f f' fs Hs].
  - cbn [onCallEvent]. case_step; (split; [|intros _; apply tracking_ok]); apply mirrors_cons.
    + rewrite Heqb. by eexists _, hl.
    + by rewrite Heqb.
  - cbn [onCallEvent]. apply mirrors_cons in Hm. case_step.
    + destruct Hm as (h & hl' & -> & _ & Hm). split; [done|]. intros _. apply tracking_ok.
    + split; [done|]. intros _. apply tracking_ok.
  - split; [by eapply same_frame_mirrors|]. intros Hl Htr. by eapply same_frame_in_loop, Hl.
  - split; [by eapply same_frame_mirrors|]. intros Hl Htr. by eapply same_frame_in_loop, Hl.
Qed.

Lemma onCallEvents_ok params l fs fs' tr hl :
  trace fs l fs' → mirrors params hl fs → (tr = true → in_loop params fs) →
  onCallEvents params l tr hl ⇓ λ '(tr', hl', _), mirrors params hl' fs' ∧
    (tr' = true → in_loop params fs').
Proof.
  intros Ht. revert tr hl. induction Ht as [fs|fs e fs1 l fs2 He Ht IH]; intros tr hl Hm Hl; [done|].
  cbn [onCallEvents]. ystep. eapply yields_mono; [by eapply onCallEvent_ok|].
  intros [[tr1 hl1] ev1] [Hm1 Hl1]. ystep. eapply yields_mono; [apply IH; auto|].
  by intros [[tr2 hl2] ev2] ?.
Qed.

Lemma on_top_ids f hl :
  (∀ h, low_level_frame_id (f h) = low_level_frame_id h) →
  low_level_frame_id <$> on_top f hl = low_level_frame_id <$> hl.
Proof. intros Hf. destruct hl; cbn; [done|]. by rewrite Hf. Qed.

Lemma write_hlpc_ids address value w hl :
  low_level_frame_id <$> (write_hlpc address value w hl).1 = low_level_frame_id <$> hl.
Proof. destruct hl as [|h hl]; cbn; [done|]. by case_step. Qed.

(** A memory access with one HLPC location per activation changes no identifier,
    and only fails when the guest does not write at [hlpc_update_pc] or not read at
    [instruction_fetch_pc]. *)
Lemma onDataMemoryAccess_ok params id m h hl :
  (access_pc m = hlpc_update_pc params →
    ∀ address, vaddr m = Some address → hlpc_ptr h = 0 ∨ hlpc_ptr h = address) →
  match onDataMemoryAccess params id m (h :: hl) with
  | Done (hl', _) => low_level_frame_id <$> hl' = low_level_frame_id <$> (h :: hl)
  | AssertFailed =>
      ¬ ((access_pc m = hlpc_update_pc params → isWrite m = true) ∧
         (access_pc m = instruction_fetch_pc params → isWrite m = false))
  | OutOfFuel => False
  end.
Proof.
  intros Hone. unfold onDataMemoryAccess. destruct (vaddr m) as [address|]; [|done].
  destruct (value_expr m) as [value|]; [|done].
  destruct (negb (user_mode m) || (0xc0000000 <=? address)); [done|].
  rewrite bool_decide_false by done. cbn [negb cassert mbind outcome_bind].
  assert (∀ hl1 ev1, low_level_frame_id <$> hl1 = low_level_frame_id <$> (h :: hl) →
    match (let '(hl2, ev2) := write_hlpc address value (isWrite m) hl1 in
      if access_pc m =? instruction_fetch_pc params then
        _ ← cassert (negb (isWrite m));
        Done (on_top (set_hlinst address) hl2,
          ev1 ++ ev2 ++ [HighLevelInstructionFetch (on_top (set_hlinst address) hl2)])
      else Done (hl2, ev1 ++ ev2)) with
    | Done (hl', _) => low_level_frame_id <$> hl' = low_level_frame_id <$> (h :: hl)
    | AssertFailed => ¬ (access_pc m = instruction_fetch_pc params → isWrite m = false)
    | OutOfFuel => False
    end) as Htail.
  { intros hl1 ev1 Hids. pose proof (write_hlpc_ids address value (isWrite m) hl1) as Hw.
    destruct (write_hlpc _ _ _ hl1) as [hl2 ev2]. cbn in Hw.
    destruct (access_pc m =? instruction_fetch_pc params) eqn:?; unbool; [|congruence].
    destruct (isWrite m); cbn [negb cassert mbind outcome_bind]; [naive_solver|].
    rewrite on_top_ids by done. congruence. }
  destruct (access_pc m =? hlpc_update_pc params) eqn:Hpc; unbool.
  - destruct (isWrite m); cbn [cassert mbind outcome_bind]; [|naive_solver].
    destruct (find_hlpc_frame id address (h :: hl)) as [hl1 ev1] eqn:Hf.
    specialize (Htail hl1 ev1). cbn [mbind outcome_bind].
    assert (low_level_frame_id <$> hl1 = low_level_frame_id <$> (h :: hl)) as Hids.
    { cbn in Hf. destruct (Hone Hpc address eq_refl) as [Hp|Hp]; rewrite Hp in Hf; cbn in Hf;
        rewrite ?Z.eqb_refl in Hf; repeat case_match; by injection Hf as <- _. }
    specialize (Htail Hids). repeat case_match; naive_solver.
  - specialize (Htail (h :: hl) [] eq_refl). cbn [mbind outcome_bind] in *. repeat case_match; naive_solver.
Qed.

Lemma ll_insert ll k s k' :
  ll_stack_of (<[k := s]> ll) k' = if decide (k = k') then s else ll_stack_of ll k'.
Proof. unfold ll_stack_of. rewrite lookup_insert. by case_decide. Qed.

Lemma hl_insert hl k s k' :
  hl_stack_of (<[k := s]> hl) k' = if decide (k = k') then s else hl_stack_of hl k'.
Proof. unfold hl_stack_of. rewrite lookup_insert. by case_decide. Qed.

Lemma trace_nonempty fs l fs' : trace fs l fs' → fs ≠ [] → fs' ≠ [].
Proof. induction 1 as [|fs e fs1 l fs2 He _ IH]; [done|]. intros _. apply IH. by destruct He. Qed.

(** The frame that a fork duplicates is not an activation of the loop. *)
Lemma mirrors_base params hl fs :
  interp_loop_function params ≠ 0 →
  mirrors params hl (fs ++ frames (CallStack_create stack_top)) ↔ mirrors params hl fs.
Proof.
  intros Hp. unfold mirrors, loop_frames, CallStack_create. cbn [frames].
  rewrite filter_app, (filter_cons_False _ _ []).
  - by rewrite filter_nil, app_nil_r.
  - cbn. congruence.
Qed.

Lemma guest_step_ok k a t :
  tracer_ok t → current t = Some k →
  match guest_step k a t with
  | Done (t', _) => tracer_ok t'
  | _ => ¬ ∃ r, act a (ll_stack_of (ll_stacks t) k) = Done r
  end.
Proof.
  intros Hok Hk. unfold guest_step.
  destruct (act a (ll_stack_of (ll_stacks t) k)) as [[s ev]| |] eqn:Ha; cbn; [|naive_solver..].
  apply act_trace in Ha.
  pose proof (onCallEvents_ok (interp_params t) ev _ _ (tracking t) (hl_stack_of (hl_stacks t) k)
    Ha (stacks_mirror t Hok k) (λ Ht, tracking_loop t Hok k Ht Hk)) as Hev.
  destruct (onCallEvents _ _ _ _) as [[[tr hl] hev]| |]; [|done..]. cbn in *.
  destruct Hev as [Hm Hl]. split; cbn; [apply Hok|..].
  - intros k'. rewrite ll_insert. case_decide; [|apply Hok].
    eapply trace_nonempty, (ll_nonempty t Hok k). done.
  - intros k'. rewrite ll_insert, hl_insert. case_decide; [done|apply Hok].
  - intros k' Htr Hk'. rewrite Hk in Hk'. injection Hk' as <-. rewrite ll_insert.
    rewrite decide_True by done. by apply Hl.
Qed.

Lemma data_access_ok k m t :
  tracer_ok t → current t = Some k → well_behaved (DataAccess m) t →
  match data_access k m t with
  | Done (t', _) => tracer_ok t'
  | _ => ¬ allowed (DataAccess m) t
  end.
Proof.
  intros Hok Hk Hone. unfold data_access. destruct (tracking t) eqn:Htr; [|done].
  destruct (tracking_loop t Hok k Htr Hk) as (f & fs & Hfs & Hf). rewrite Hfs.
  pose proof (stacks_mirror t Hok k) as Hm. rewrite Hfs in Hm. apply mirrors_cons in Hm as Hm'.
  rewrite (proj2 (Z.eqb_eq _ _) Hf) in Hm'. destruct Hm' as (h & hl & Hhl & _ & _).
  cbn in Hone. rewrite Hk in Hone. rewrite Hhl in *.
  pose proof (onDataMemoryAccess_ok (interp_params t) (frame_id f) m h hl
    ltac:(intros; by eapply Hone)) as Hacc.
  destruct (onDataMemoryAccess _ _ _ _) as [[hl' hev]| |]; cbn in *; [|done..].
  split; cbn; [apply Hok..| |].
  - intros k'. rewrite hl_insert. case_decide; [|apply Hok]. subst k'. rewrite Hfs.
    unfold mirrors in *. by rewrite Hacc.
  - intros k' _. rewrite Hk. intros [= <-]. by apply (tracking_loop t Hok k).
Qed.

Lemma switch_ok k t :
  tracer_ok t → match onStateSwitch k t with Done t' => tracer_ok t' | _ => False end.
Proof.
  intros Hok. unfold onStateSwitch. pose proof (ll_nonempty t Hok k).
  destruct (frames (ll_stack_of (ll_stacks t) k)) as [|f fs] eqn:Hfs; [done|].
  split; cbn; [apply Hok..|]. intros k' Htr [= <-]. rewrite Hfs. by apply tracking_ok.
Qed.

Lemma mirrors_new params hl :
  interp_loop_function params ≠ 0 →
  mirrors params hl (frames (CallStack_create stack_top)) ↔ hl = [].
Proof.
  intros Hp. rewrite <- (app_nil_l (frames _)), mirrors_base by done. unfold mirrors. cbn.
  split; [apply fmap_nil_inv|by intros ->].
Qed.

Lemma fork_ok k news t ll hl u v :
  tracer_ok t → current t = Some k →
  ll_op (ForkState k news) (ll_stacks t) = Done (u, ll) →
  hl_op (ForkState k news) (hl_stacks t) = Done (v, hl) →
  tracer_ok (mkTracer (interp_params t) ll hl (tracking t) (current t)).
Proof.
  intros Hok Hk Hll Hhl. pose proof (loop_function_known t Hok) as Hp.
  pose proof (stacks_mirror t Hok) as Hm. pose proof (ll_nonempty t Hok) as Hne.
  split; cbn; [done|..].
  - intros k'. specialize (Hne k'). unfold ll_stack_of in *.
    destruct (fork_value _ _ _ _ _ _ _ k' Hll) as [[-> _]|(_ & _ & old & _ & ->)]; [done|]. cbn.
    destruct (frames old); done.
  - intros k'. pose proof (Hm k') as Hk'. specialize (Hm k). unfold ll_stack_of, hl_stack_of in *.
    destruct (fork_value _ _ _ _ _ _ _ k' Hll) as [[-> Hl]|([Hin Hkk] & Hl & old & Hold & ->)],
      (fork_value _ _ _ _ _ _ _ k' Hhl) as [[-> Hh]|([Hin' Hkk'] & Hh & h & Hh' & ->)]; [done|..].
    + rewrite Hh in Hk'. rewrite Hl, Hh' in Hm by done. apply mirrors_new in Hm; [|done].
      cbn in *. unfold hl_clone. by rewrite Hm.
    + rewrite Hl in Hk'. rewrite Hh, Hold in Hm by done. apply mirrors_new in Hk'; [|done].
      cbn in *. rewrite Hk'. by apply mirrors_base.
    + rewrite Hold, Hh' in Hm. by apply mirrors_base.
  - intros k' Htr Hk'. rewrite Hk in Hk'. injection Hk' as <-.
    pose proof (tracking_loop t Hok k Htr Hk) as Hl. unfold ll_stack_of in *.
    by destruct (fork_value _ _ _ _ _ _ _ k Hll) as [[-> _]|[[_ ?] _]].
Qed.

Lemma kill_ok k t :
  tracer_ok t →
  tracer_ok (mkTracer (interp_params t) (delete k (ll_stacks t)) (delete k (hl_stacks t)) (tracking t)
    (if bool_decide (current t = Some k) then None else current t)).
Proof.
  intros Hok. pose proof (loop_function_known t Hok) as Hp.
  assert (∀ k', ll_stack_of (delete k (ll_stacks t)) k' =
    if decide (k = k') then CallStack_create stack_top else ll_stack_of (ll_stacks t) k') as Hll.
  { intros k'. unfold ll_stack_of. rewrite lookup_delete. by case_decide. }
  split; cbn; [done|..].
  - intros k'. rewrite Hll. case_decide; [done|apply Hok].
  - intros k'. rewrite Hll. unfold hl_stack_of. rewrite lookup_delete.
    case_decide; [by apply mirrors_new|apply (stacks_mirror t Hok)].
  - intros k' Htr. case_bool_decide as Hc; [done|]. intros Hk'. rewrite Hll.
    rewrite decide_False by congruence. by apply Hok.
Qed.

(** One step: it keeps the invariant, and it is possible when it is allowed. *)
Lemma tracer_step_ok o t :
  tracer_ok t → well_behaved o t →
  match tracer_step o t with Done (t', _) => tracer_ok t' | _ => ¬ allowed o t end.
Proof.
  intros Hok Hone. unfold tracer_step.
  destruct o as [a|m|k|news|k], (current t) as [c|] eqn:Hc; try done.
  - pose proof (guest_step_ok c a t Hok Hc). unfold allowed. by rewrite Hc.
  - by apply data_access_ok.
  - pose proof (switch_ok k t Hok). by destruct (onStateSwitch k t).
  - pose proof (switch_ok k t Hok). by destruct (onStateSwitch k t).
  - unfold allowed. rewrite Hc.
    destruct (ll_op (ForkState c news) (ll_stacks t)) as [[u ll]| |] eqn:Hll; cbn [mbind outcome_bind].
    2-3: intros [Hd Hnews]; assert (ll_op (ForkState c news) (ll_stacks t) ⇓ λ _, True) as Hy
      by (by apply fork_possible; naive_solver); by rewrite Hll in Hy.
    destruct (hl_op (ForkState c news) (hl_stacks t)) as [[v hl]| |] eqn:Hhl; cbn [mbind outcome_bind].
    2-3: intros [Hd Hnews]; assert (hl_op (ForkState c news) (hl_stacks t) ⇓ λ _, True) as Hy
      by (by apply fork_possible; naive_solver); by rewrite Hhl in Hy.
    rewrite <- Hc. by eapply fork_ok.
  - pose proof (kill_ok k t Hok) as Hk. by rewrite Hc in Hk.
  - pose proof (kill_ok k t Hok) as Hk. by rewrite Hc in Hk.
Qed.

Lemma set_params_ok k params t :
  interp_loop_function params ≠ 0 → single_state k t →
  tracer_ok (setInterpreterStructureParams k params t).
Proof.
  intros Hp [Hne Hsingle]. split; cbn; [done|..]; [|..|done].
  - intros k'. rewrite ll_insert. case_decide; [done|].
    unfold ll_stack_of. by destruct (Hsingle k') as [-> _].
  - intros k'. rewrite ll_insert, hl_insert. case_decide.
    + unfold mirrors, initial_stack. rewrite <- list_fmap_compose. by apply list_fmap_ext.
    + unfold ll_stack_of, hl_stack_of. destruct (Hsingle k') as [-> ->]; [done|].
      by apply mirrors_new.
Qed.

Lemma tracer_run_ok t l t' : tracer_run t l t' → tracer_ok t → tracer_ok t'.
Proof.
  induction 1 as [|t o t1 ev l t2 Hone Hstep _ IH]; [done|]. intros Hok. apply IH.
  pose proof (tracer_step_ok o t Hok Hone) as Hs. by rewrite Hstep in Hs.
Qed.

End Tracers.

(** ** Properties *)


(** When an activation of the loop writes its HLPC where an outer activation
    keeps its own, the tracer takes it for a return and drops the high-level
    frame, although the call stack still has both activations.  When the inner one
    returns, the frame of the outer one is dropped too, and the next memory access
    of the outer activation fails the assertion that there is a frame. *)
Theorem relocated_hlpc_loses_frame :
  ∃ t ev, tracer_steps 4096 relocation_steps
    (setInterpreterStructureParams 4096 1 sample_params (mkTracer sample_params ∅ ∅ false (Some 1)))
    = Done (t, ev) ∧
  in_loop sample_params (frames (ll_stack_of 4096 (ll_stacks t) 1)) ∧ tracking t = true ∧
  hl_stack_of (hl_stacks t) 1 = [] ∧
  tracer_step 4096 (DataAccess (mkAccess 530 (Some 3000) (Some 7) false true)) t = AssertFailed.
Proof.
  eexists _, _. split; [vm_compute; reflexivity|].
  split; [eexists _, _; split; vm_compute; reflexivity|]. vm_compute. done.
Qed.

