(* ===== verification/HighLevelExecutor.v ===== *)
(** * High-level paths: [s2e/Chef/HighLevelExecutor.cpp],
      [s2e/Chef/HighLevelStrategy.h] and the sprout strategy of
      [s2e/Chef/LowLevelStrategy.cpp]

    The executor records the paths of the interpreted program as a tree of
    segments, one for every high-level instruction on a path.  Low-level states,
    one for each execution state of the guest, move down the tree as the
    interpreter updates its program counter.  A high-level state stands at the
    segment that all its low-level states have at least reached, and moves on, or
    forks, when the last of them leaves that segment.

    Objects are named by references: paths and segments by the order of their
    creation, low-level states by their execution state, high-level states by the
    order of their creation.  The weak [parent] of a segment is only tested for
    being gone; the model asks for more, that it was reset.  The low-level strategy
    is the part every such strategy has, the target it was given.  The index of
    loops and calls that [LowLevelTopoStrategy] keeps beside it is left out. *)

From stdpp Require Import prelude gmap.
From S2P Require Import Prelude Selectors.

(** ** [class HighLevelStrategy] *)

Class HighLevelStrategy (T : Type) := {
  addStates : option nat → list nat → T → outcome T;
  killState : nat → T → outcome T;
  updateState : nat → T → outcome T;
  selectState : T → option nat * T;
}.

(** The contract the executor relies on: the strategy knows the high-level states,
    and selects one of them as long as there is one. *)
Class HighLevelStrategyLaws (T : Type) `{!HighLevelStrategy T} := {
  strategy_ok : T → Prop;
  tracked : T → gset nat;
  add_law current news t :
    strategy_ok t → (∀ h, current = Some h → h ∈ tracked t) → NoDup news →
    (∀ h, h ∈ news → h ∉ tracked t) →
    addStates current news t ⇓ λ t', strategy_ok t' ∧ tracked t' = tracked t ∪ list_to_set news;
  kill_law h t : strategy_ok t → h ∈ tracked t →
    killState h t ⇓ λ t', strategy_ok t' ∧ tracked t' = tracked t ∖ {[h]};
  updateState_law h t : strategy_ok t → h ∈ tracked t →
    updateState h t ⇓ λ t', strategy_ok t' ∧ tracked t' = tracked t;
  selectState_law t : strategy_ok t →
    let '(o, t') := selectState t in
    strategy_ok t' ∧ tracked t' = tracked t ∧ (o = None ↔ tracked t = ∅) ∧
    ∀ h, o = Some h → h ∈ tracked t;
}.

(** [class SelectorStrategy], with the random numbers its selections draw *)
Record SelectorStrategy (T : Type) : Type := mkStrategy {
  selector : T;
  draws : nat → nat → N;
  drawn : nat;
}.
Arguments mkStrategy {T}.
Arguments selector {T}.
Arguments draws {T}.
Arguments drawn {T}.

Section SelectorStrategy.
Context {T : Type} `{!Selector2 nat T}.

(** [selector_.update(state)] with the assertion on its result *)
Definition update_expecting (new : bool) (h : nat) (s : SelectorStrategy T) :
    outcome (SelectorStrategy T) :=
  '(b, t) ← update h (selector s);
  _ ← cassert (Bool.eqb b new);
  Done (mkStrategy t (draws s) (drawn s)).

Fixpoint add_all (news : list nat) (s : SelectorStrategy T) : outcome (SelectorStrategy T) :=
  match news with
  | [] => Done s
  | h :: news => s ← update_expecting true h s; add_all news s
  end.

(** [SelectorStrategy::addStates] *)
Definition selector_addStates (current : option nat) (news : list nat) (s : SelectorStrategy T) :
    outcome (SelectorStrategy T) :=
  s ← match current with Some h => update_expecting false h s | None => Done s end;
  add_all news s.

(** [SelectorStrategy::killState] *)
Definition selector_killState (h : nat) (s : SelectorStrategy T) : outcome (SelectorStrategy T) :=
  '(b, t) ← remove h (selector s);
  _ ← cassert b;
  Done (mkStrategy t (draws s) (drawn s)).

(** [SelectorStrategy::selectState] *)
Definition selector_selectState (s : SelectorStrategy T) : option nat * SelectorStrategy T :=
  let '(o, t) := select (λ n, Z.of_N (draws s (drawn s) n)) (selector s) in
  (o, mkStrategy t (draws s) (S (drawn s))).

#[global] Instance selector_strategy : HighLevelStrategy (SelectorStrategy T) := {
  addStates := selector_addStates;
  killState := selector_killState;
  updateState := update_expecting false;
  selectState := selector_selectState;
}.
End SelectorStrategy.

(** ** The tree of segments *)

(** [class HighLevelPathSegment] *)
Record HighLevelPathSegment : Type := mkSegment {
  seg_hlpc : Z;
  seg_path : nat;
  seg_parent : option nat;
  children : gmap Z nat;
  low_level_states : gset Z;
}.

(** [class HighLevelExecutor] with the objects it reaches: the segments; the
    [low_level_states] of each path; the segment of each low-level state, and whether
    interrupts are on in its execution state; the segment of each high-level state;
    [high_level_states_]; and the high-level state the low-level strategy was given
    last. *)
Record Executor (T : Type) : Type := mkExecutor {
  segments : gmap nat HighLevelPathSegment;
  next_segment : nat;
  path_states : gmap nat (gset Z);
  path_id_counter : nat;
  ll_segment : gmap Z nat;
  apic : gmap Z bool;
  hl_segment : gmap nat nat;
  next_hl : nat;
  high_level_states : gset nat;
  selected_state : option nat;
  strategy : T;
  target_hl_state : option nat;
}.
Arguments mkExecutor {T}.
Arguments segments {T}.
Arguments next_segment {T}.
Arguments path_states {T}.
Arguments path_id_counter {T}.
Arguments ll_segment {T}.
Arguments apic {T}.
Arguments hl_segment {T}.
Arguments next_hl {T}.
Arguments high_level_states {T}.
Arguments selected_state {T}.
Arguments strategy {T}.
Arguments target_hl_state {T}.

Section Executor.
Context {T : Type} `{!HighLevelStrategy T}.

(** Assignments to parts of the state *)
Definition set_segments (f : gmap nat HighLevelPathSegment → gmap nat HighLevelPathSegment) (e : Executor T) : Executor T :=
  mkExecutor (f (segments e)) (next_segment e) (path_states e) (path_id_counter e) (ll_segment
    e) (apic e) (hl_segment e) (next_hl e) (high_level_states e) (selected_state e) (strategy e)
    (target_hl_state e).
Definition alloc_segment (s : HighLevelPathSegment) (e : Executor T) : Executor T :=
  mkExecutor (<[next_segment e := s]> (segments e)) (S (next_segment e)) (path_states e)
    (path_id_counter e) (ll_segment e) (apic e) (hl_segment e) (next_hl e) (high_level_states e)
    (selected_state e) (strategy e) (target_hl_state e).
Definition alloc_path  (e : Executor T) : Executor T :=
  mkExecutor (segments e) (next_segment e) (<[path_id_counter e := ∅]> (path_states e)) (S
    (path_id_counter e)) (ll_segment e) (apic e) (hl_segment e) (next_hl e) (high_level_states
    e) (selected_state e) (strategy e) (target_hl_state e).
Definition set_path_states (f : gmap nat (gset Z) → gmap nat (gset Z)) (e : Executor T) : Executor T :=
  mkExecutor (segments e) (next_segment e) (f (path_states e)) (path_id_counter e) (ll_segment
    e) (apic e) (hl_segment e) (next_hl e) (high_level_states e) (selected_state e) (strategy e)
    (target_hl_state e).
Definition set_ll_segment (f : gmap Z nat → gmap Z nat) (e : Executor T) : Executor T :=
  mkExecutor (segments e) (next_segment e) (path_states e) (path_id_counter e) (f (ll_segment
    e)) (apic e) (hl_segment e) (next_hl e) (high_level_states e) (selected_state e) (strategy
    e) (target_hl_state e).
Definition set_apic (s : Z) (enabled : bool) (e : Executor T) : Executor T :=
  mkExecutor (segments e) (next_segment e) (path_states e) (path_id_counter e) (ll_segment e)
    (<[s := enabled]> (apic e)) (hl_segment e) (next_hl e) (high_level_states e) (selected_state
    e) (strategy e) (target_hl_state e).
Definition set_hl_segment (h g : nat) (e : Executor T) : Executor T :=
  mkExecutor (segments e) (next_segment e) (path_states e) (path_id_counter e) (ll_segment e)
    (apic e) (<[h := g]> (hl_segment e)) (next_hl e) (high_level_states e) (selected_state e)
    (strategy e) (target_hl_state e).
Definition alloc_hl (g : nat) (e : Executor T) : Executor T :=
  mkExecutor (segments e) (next_segment e) (path_states e) (path_id_counter e) (ll_segment e)
    (apic e) (<[next_hl e := g]> (hl_segment e)) (S (next_hl e)) ({[next_hl e]} ∪
    high_level_states e) (selected_state e) (strategy e) (target_hl_state e).
Definition erase_hl (h : nat) (e : Executor T) : Executor T :=
  mkExecutor (segments e) (next_segment e) (path_states e) (path_id_counter e) (ll_segment e)
    (apic e) (hl_segment e) (next_hl e) (high_level_states e ∖ {[h]}) (selected_state e)
    (strategy e) (target_hl_state e).
Definition set_strategy (t : T) (e : Executor T) : Executor T :=
  mkExecutor (segments e) (next_segment e) (path_states e) (path_id_counter e) (ll_segment e)
    (apic e) (hl_segment e) (next_hl e) (high_level_states e) (selected_state e) (t)
    (target_hl_state e).
Definition set_selected (o : option nat) (t : T) (e : Executor T) : Executor T :=
  mkExecutor (segments e) (next_segment e) (path_states e) (path_id_counter e) (ll_segment e)
    (apic e) (hl_segment e) (next_hl e) (high_level_states e) (o) (t) (target_hl_state e).
Definition set_target (o : option nat) (e : Executor T) : Executor T :=
  mkExecutor (segments e) (next_segment e) (path_states e) (path_id_counter e) (ll_segment e)
    (apic e) (hl_segment e) (next_hl e) (high_level_states e) (selected_state e) (strategy e)
    (o).

(** [*segment], a reference to a live object *)
Definition get_segment (g : nat) : M (Executor T) HighLevelPathSegment := λ e,
  match segments e !! g with Some s => Done (s, e) | None => AssertFailed end.

Definition with_state {A} (f : Executor T → A * Executor T) : M (Executor T) A := λ e, Done (f e).

Definition modify (f : Executor T → Executor T) : M (Executor T) unit := λ e, Done (tt, f e).

(** [path->low_level_states] *)
Definition states_of_path (p : nat) (e : Executor T) : gset Z := default ∅ (path_states e !! p).

(** [HighLevelPathTracer::createRootSegment] *)
Definition createRootSegment : M (Executor T) nat := λ e,
  let p := path_id_counter e in
  Done (next_segment e, alloc_segment (mkSegment 0 p None ∅ ∅) (alloc_path e)).

(** [HighLevelPathTracer::getNextSegment] *)
Definition getNextSegment (g : nat) (next_hlpc : Z) : M (Executor T) nat :=
  seg ← get_segment g;
  match children seg !! next_hlpc with
  | Some c => mret c
  | None => with_state (λ e,
      let '(p, e) := if bool_decide (children seg = ∅) then (seg_path seg, e)
        else (path_id_counter e, alloc_path e) in
      let c := next_segment e in
      let e := alloc_segment (mkSegment next_hlpc p (Some g) ∅ ∅) e in
      let seg' := mkSegment (seg_hlpc seg) (seg_path seg) (seg_parent seg)
        (<[next_hlpc := c]> (children seg)) (low_level_states seg) in
      (c, set_segments <[g := seg']> e))
  end.

(** [low_level_states] of a segment *)
Definition set_states (f : gset Z → gset Z) (g : nat) (seg : HighLevelPathSegment) :
    Executor T → Executor T :=
  set_segments <[g := mkSegment (seg_hlpc seg) (seg_path seg) (seg_parent seg) (children seg)
    (f (low_level_states seg))]>.

(** The state of a path that has only one *)
Definition only_state (X : gset Z) : option Z :=
  match elements X with [s] => Some s | _ => None end.

(** [HighLevelPathSegment::joinState] *)
Definition joinState (g : nat) (s : Z) : M (Executor T) unit :=
  seg ← get_segment g;
  with_state (λ e,
  let p := seg_path seg in
  let e := match only_state (states_of_path p e) with
    | Some s' => set_apic s false (set_apic s' false e)
    | None => e
    end in
  let e := set_ll_segment <[s := g]> e in
  let e := set_states (union {[s]}) g seg e in
  let e := set_path_states <[p := {[s]} ∪ states_of_path p e]> e in
  (tt, if only_state (states_of_path p e) is Some _ then set_apic s true e else e)).

(** [HighLevelPathSegment::leaveState] *)
Definition leaveState (g : nat) (s : Z) : M (Executor T) unit :=
  seg ← get_segment g;
  with_state (λ e,
  let p := seg_path seg in
  let e := set_states (λ X, X ∖ {[s]}) g seg e in
  let e := set_path_states <[p := states_of_path p e ∖ {[s]}]> e in
  let e := set_ll_segment (delete s) e in
  (tt, if only_state (states_of_path p e) is Some s' then set_apic s' true e else e)).

(** ** High-level states *)

(** [segment->parent.reset()] *)
Definition reset_parent (g : nat) : M (Executor T) unit :=
  seg ← get_segment g;
  modify (set_segments <[g := mkSegment (seg_hlpc seg) (seg_path seg) None (children seg)
    (low_level_states seg)]>).

(** [selected_state_->segment] *)
Definition hl_state_segment (h : nat) : M (Executor T) nat := λ e,
  match hl_segment e !! h with Some g => Done (g, e) | None => AssertFailed end.

(** [HighLevelState::step] *)
Definition hl_step (h : nat) (hlpc : Z) : M (Executor T) unit :=
  g ← hl_state_segment h;
  c ← getNextSegment g hlpc;
  _ ← modify (set_hl_segment h c);
  reset_parent c.

(** [HighLevelState::fork], and [high_level_states_.insert] of the new state *)
Definition hl_fork (h : nat) (hlpc : Z) : M (Executor T) nat :=
  g ← hl_state_segment h;
  c ← getNextSegment g hlpc;
  next ← get_segment c;
  seg ← get_segment g;
  _ ← lift (cassert (negb (seg_path next =? seg_path seg)%nat));
  h' ← with_state (λ e, (next_hl e, alloc_hl c e));
  _ ← reset_parent c;
  mret h'.

(** The loop over the children in [doUpdateSelectedState]: fork, or note the
    successor on the same path; [stepping_hlpc] is 0 until it is found. *)
Fixpoint fork_children (h path : nat) (stepping_hlpc : Z) (l : list (Z * nat)) :
    M (Executor T) (Z * list nat) :=
  match l with
  | [] => mret (stepping_hlpc, [])
  | (hlpc, c) :: l =>
      next ← get_segment c;
      if (seg_path next =? path)%nat then
        _ ← lift (cassert (stepping_hlpc =? 0));
        fork_children h path hlpc l
      else
        h' ← hl_fork h hlpc;
        '(stepping_hlpc, add_list) ← fork_children h path stepping_hlpc l;
        mret (stepping_hlpc, h' :: add_list)
  end.

(** A call of the strategy *)
Definition ask_strategy (f : T → outcome T) : M (Executor T) unit := λ e,
  t ← f (strategy e);
  Done (tt, set_strategy t e).

(** [hl_strategy_->selectState()] *)
Definition reselect : M (Executor T) unit := λ e,
  let '(o, t) := selectState (strategy e) in Done (tt, set_selected o t e).

(** [HighLevelExecutor::doUpdateSelectedState], for [selected_state_] [h] *)
Definition doUpdateSelectedState (h : nat) : M (Executor T) bool :=
  g ← hl_state_segment h;
  seg ← get_segment g;
  if negb (bool_decide (low_level_states seg = ∅)) then mret false
  else
    _ ← lift (cassert (bool_decide (seg_parent seg = None)));
    _ ← (match map_to_list (children seg) with
      | [] =>
          _ ← ask_strategy (killState h);
          modify (erase_hl h)
      | [(hlpc, _)] =>
          _ ← hl_step h hlpc;
          ask_strategy (updateState h)
      | l =>
          '(stepping_hlpc, add_list) ← fork_children h (seg_path seg) 0 l;
          _ ← lift (cassert (negb (stepping_hlpc =? 0)));
          _ ← hl_step h stepping_hlpc;
          ask_strategy (addStates (Some h) add_list)
      end);
    _ ← reselect;
    mret true.

(** The loop of [HighLevelExecutor::tryUpdateSelectedState] *)
Fixpoint update_loop (fuel : nat) : M (Executor T) unit := λ e,
  match fuel with
  | O => OutOfFuel
  | S fuel =>
      match selected_state e with
      | None => Done (tt, e)
      | Some h =>
          '(again, e) ← doUpdateSelectedState h e;
          if (again : bool) then update_loop fuel e else Done (tt, e)
      end
  end.

(** [HighLevelExecutor::tryUpdateSelectedState]: every round takes one segment off
    the tree, so one more round than there are segments is enough. *)
Definition tryUpdateSelectedState : M (Executor T) unit := λ e,
  '(_, e) ← update_loop (S (next_segment e)) e;
  Done (tt, match selected_state e with Some h => set_target (Some h) e | None => e end).

(** ** Low-level states and the handlers *)

(** [segment] of a low-level state *)
Definition ll_state_segment (s : Z) : M (Executor T) nat := λ e,
  match ll_segment e !! s with Some g => Done (g, e) | None => AssertFailed end.

(** [LowLevelState::step] *)
Definition ll_step (s : Z) (hlpc : Z) : M (Executor T) unit :=
  old_segment ← ll_state_segment s;
  next_segment ← getNextSegment old_segment hlpc;
  _ ← leaveState old_segment s;
  _ ← joinState next_segment s;
  tryUpdateSelectedState.

(** [LowLevelState::clone]: the new execution state starts with a copy of the CPU *)
Definition ll_clone (s s' : Z) : M (Executor T) unit :=
  g ← ll_state_segment s;
  _ ← modify (λ e, match apic e !! s with Some b => set_apic s' b e | None => e end);
  joinState g s'.

(** [LowLevelState::terminate] *)
Definition ll_terminate (s : Z) : M (Executor T) unit :=
  g ← ll_state_segment s;
  _ ← leaveState g s;
  tryUpdateSelectedState.

(** [HighLevelExecutor::createState] *)
Definition createState (s : Z) : M (Executor T) unit :=
  g ← createRootSegment;
  h ← with_state (λ e, (next_hl e, alloc_hl g e));
  _ ← joinState g s;
  _ ← ask_strategy (addStates None [h]);
  _ ← reselect;
  modify (λ e, set_target (selected_state e) e).

(** [StreamAnalyzer::getState] *)
Definition use_state (s : Z) : M (Executor T) unit := λ e,
  _ ← cassert (negb (s =? 0));
  match ll_segment e !! s with Some _ => Done (tt, e) | None => createState s e end.

(** [HighLevelExecutor::onHighLevelPCUpdate] *)
Definition onHighLevelPCUpdate (s hlpc : Z) : M (Executor T) unit :=
  _ ← use_state s;
  ll_step s hlpc.

(** [StreamAnalyzer::onStateFork], [valid] whether its iterator at [s] can be used: an
    insertion into the map may invalidate it, so that the next use counts as a failure. *)
Fixpoint fork_states (s : Z) (valid : bool) (news : list Z) : M (Executor T) unit :=
  match news with
  | [] => mret tt
  | s' :: news =>
      if s' =? s then fork_states s valid news
      else
        _ ← lift (cassert valid);
        e ← with_state (λ e, (e, e));
        _ ← lift (cassert (bool_decide (ll_segment e !! s' = None)));
        _ ← ll_clone s s';
        fork_states s false news
  end.

Definition onStateFork (s : Z) (news : list Z) : M (Executor T) unit := λ e,
  match ll_segment e !! s with None => Done (tt, e) | Some _ => fork_states s true news e end.

(** [StreamAnalyzer::onStateKill] *)
Definition onStateKill (s : Z) : M (Executor T) unit := λ e,
  match ll_segment e !! s with None => Done (tt, e) | Some _ => ll_terminate s e end.

(** [LowLevelSproutStrategy::selectLowLevelState]: some low-level state of the
    target's segment *)
Definition selectLowLevelState (e : Executor T) : outcome (option Z) :=
  match target_hl_state e with
  | None => Done None
  | Some h =>
      '(g, e) ← hl_state_segment h e;
      '(seg, _) ← get_segment g e;
      match elements (low_level_states seg) with
      | [] => AssertFailed
      | s :: _ => Done (Some s)
      end
  end.

(** What the rest of the program does to the executor *)
Inductive ExecutorOp : Type :=
| PCUpdate (s hlpc : Z)
| StateFork (s : Z) (news : list Z)
| StateKill (s : Z).

Definition run_executor_op (o : ExecutorOp) : M (Executor T) unit :=
  match o with
  | PCUpdate s hlpc => onHighLevelPCUpdate s hlpc
  | StateFork s news => onStateFork s news
  | StateKill s => onStateKill s
  end.

Fixpoint run_executor (l : list ExecutorOp) : M (Executor T) unit :=
  match l with [] => mret tt | o :: l => _ ← run_executor_op o; run_executor l end.

(** A new executor *)
Definition empty_executor (t : T) : Executor T := mkExecutor ∅ 0 ∅ 0 ∅ ∅ ∅ 0 ∅ None t None.

(** ** The tree as a graph *)

Definition child_of (e : Executor T) (g : nat) (hlpc : Z) : option nat :=
  segments e !! g ≫= λ seg, children seg !! hlpc.
Definition path_of (e : Executor T) (g : nat) : option nat := seg_path <$> segments e !! g.
Definition parent_of (e : Executor T) (g : nat) : option (option nat) := seg_parent <$> segments e !! g.
Definition states_at (e : Executor T) (g : nat) : gset Z :=
  default ∅ (low_level_states <$> segments e !! g).

(** A high-level state stands at the segment. *)
Definition hl_at (e : Executor T) (g : nat) : Prop :=
  ∃ h, h ∈ high_level_states e ∧ hl_segment e !! h = Some g.

(** Segment [g'] is [g] or below it. *)
Inductive below (e : Executor T) (g : nat) : nat → Prop :=
| below_refl : below e g g
| below_child g' hlpc c : below e g g' → child_of e g' hlpc = Some c → below e g c.

(** ** The invariant *)

Context `{!HighLevelStrategyLaws T}.

(** The segments form a forest, and one child of every inner segment continues its
    path. *)
Record tree_ok (e : Executor T) : Prop := {
  tree_bound g : is_Some (path_of e g) → (g < next_segment e)%nat;
  tree_child g hlpc c : child_of e g hlpc = Some c →
    is_Some (path_of e c) ∧ (g < c)%nat ∧ hlpc ≠ 0;
  tree_unique g hlpc g' hlpc' c :
    child_of e g hlpc = Some c → child_of e g' hlpc' = Some c → g = g' ∧ hlpc = hlpc';
  tree_path g p : path_of e g = Some p → (p < path_id_counter e)%nat;
  tree_successor g hlpc c : child_of e g hlpc = Some c →
    ∃ hlpc' c', child_of e g hlpc' = Some c' ∧ path_of e c' = path_of e g;
  tree_successor_unique g hlpc c hlpc' c' :
    child_of e g hlpc = Some c → path_of e c = path_of e g →
    child_of e g hlpc' = Some c' → path_of e c' = path_of e g → hlpc = hlpc';
}.

(** The sets of low-level states agree, and a state that is alone on its path has
    its interrupts on. *)
Record states_ok (e : Executor T) : Prop := {
  states_segment s g : ll_segment e !! s = Some g ↔ s ∈ states_at e g;
  states_path s p : s ∈ states_of_path p e ↔
    ∃ g, ll_segment e !! s = Some g ∧ path_of e g = Some p;
  states_apic s p : states_of_path p e = {[s]} → apic e !! s = Some true;
}.

(** The high-level states divide the tree: the segments in [passed] are above them,
    all others are at or below exactly one. *)
Record frontier_ok (passed : gset nat) (e : Executor T) : Prop := {
  hl_live h : h ∈ high_level_states e → (h < next_hl e)%nat ∧ ∃ g,
    hl_segment e !! h = Some g ∧ parent_of e g = Some None ∧ g ∉ passed;
  hl_distinct h h' g : h ∈ high_level_states e → h' ∈ high_level_states e →
    hl_segment e !! h = Some g → hl_segment e !! h' = Some g → h = h';
  passed_above g hlpc c : child_of e g hlpc = Some c → c ∈ passed ∨ hl_at e c → g ∈ passed;
  not_passed g : is_Some (path_of e g) → g ∉ passed →
    hl_at e g ∨ ∃ g' hlpc, g' ∉ passed ∧ child_of e g' hlpc = Some g;
  ll_not_passed s g : ll_segment e !! s = Some g → g ∉ passed;
  passed_bound g : g ∈ passed → (g < next_segment e)%nat;
}.

(** The strategy knows the high-level states. *)
Definition known_ok (e : Executor T) : Prop :=
  strategy_ok (strategy e) ∧ tracked (strategy e) = high_level_states e.

Definition executor_ok (passed : gset nat) (e : Executor T) : Prop :=
  tree_ok e ∧ states_ok e ∧ frontier_ok passed e ∧ known_ok e.

(** Between two handlers, the selected state is the target and has a low-level state
    to run; there is none selected only when there is no high-level state. *)
Definition selection_ok (e : Executor T) : Prop :=
  match selected_state e with
  | Some h => h ∈ high_level_states e ∧ target_hl_state e = Some h ∧
      ∃ g, hl_segment e !! h = Some g ∧ states_at e g ≠ ∅
  | None => high_level_states e = ∅
  end.

(** What the executor may be asked: the HLPC of a step is not 0, execution states are
    not [NULL], and a fork creates one new state, as [S2EExecutor::notifyFork] reports it. *)
Definition op_ok (o : ExecutorOp) (e : Executor T) : Prop :=
  match o with
  | PCUpdate s hlpc => s ≠ 0 ∧ hlpc ≠ 0
  | StateFork s news => (length (others s news) ≤ 1)%nat ∧ ∀ s', s' ∈ news → s' ≠ s → ll_segment e !! s' = None
  | StateKill s => True
  end.

(** The states of the executor that operations it may be asked lead to *)
Inductive reachable (t : T) : Executor T → Prop :=
| reach_start : reachable t (empty_executor t)
| reach_op e o e' : reachable t e → op_ok o e → run_executor_op o e = Done (tt, e') → reachable t e'.

End Executor.

(** The executor with depth-first search, the default *)
Definition dfs_executor : Executor (SelectorStrategy (DFSSelector.t nat)) :=
  empty_executor (mkStrategy (DFSSelector.mk empty_queue) (λ _ _, 0%N) 0).

(** Three states at one segment take two paths, the second forks, the first dies, and
    the last state follows the second. *)
Definition crowded_path : list ExecutorOp :=
  [PCUpdate 1 10; StateFork 1 [1; 2]; StateFork 1 [1; 3]; PCUpdate 1 20; PCUpdate 2 30; StateFork 2 [4];
   StateKill 1; PCUpdate 3 30].
