(* ===== verification/HighLevelExecutorProofs.v ===== *)
(** * The executor keeps its invariant

    Proofs about [HighLevelExecutor]: the tree of segments, the sets of low-level
    states and the division of the tree by the high-level states stay consistent;
    the update of the selected state terminates; the assertions hold. *)

From stdpp Require Import prelude gmap.
From S2P Require Import Prelude Selectors SelectorProofs HighLevelExecutor.

(** ** [SelectorStrategy] keeps the contract of strategies *)

Section SelectorStrategy.
Context {T : Type} `{!Selector2 nat T, !Selector2Laws nat T}.
Implicit Types s : SelectorStrategy T.

Lemma update_expecting_ok new h s :
  selector2_ok (selector s) → new = bool_decide (h ∉ members (selector s)) →
  update_expecting new h s ⇓ λ s',
    selector2_ok (selector s') ∧ members (selector s') = {[h]} ∪ members (selector s).
Proof.
  intros Hok ->. unfold update_expecting. ystep. eapply yields_mono; [by apply update_law|].
  intros [b t] (-> & Ht & Hm). ystep; [by apply Bool.eqb_true_iff|done].
Qed.

Lemma strategy_add_all_ok news s :
  selector2_ok (selector s) → NoDup news → (∀ h, h ∈ news → h ∉ members (selector s)) →
  add_all news s ⇓ λ s', selector2_ok (selector s') ∧
    members (selector s') = members (selector s) ∪ list_to_set news.
Proof.
  intros Hok Hd. revert s Hok. induction Hd as [|h news Hh Hd IH]; intros s Hok Hnew; cbn.
  { split; [done|set_solver]. }
  ystep. eapply yields_mono; [apply update_expecting_ok; [done|]|].
  { rewrite bool_decide_true by set_solver. done. }
  intros s1 [Hok1 Hm1]. eapply yields_mono; [apply IH; [done|]|].
  { intros h' Hh'. rewrite Hm1. set_solver. }
  intros s2 [? ->]. split; [done|]. set_solver.
Qed.

#[export] Program Instance selector_strategy_laws : HighLevelStrategyLaws (SelectorStrategy T) := {
  strategy_ok s := selector2_ok (selector s);
  tracked s := members (selector s);
}.
Next Obligation.
  intros current news s Hok Hc Hd Hn. cbn. unfold selector_addStates.
  assert (match current with Some h => update_expecting false h s | None => Done s end ⇓ λ s',
    selector2_ok (selector s') ∧ members (selector s') = members (selector s)) as Hcur.
  { destruct current as [h|]; [|done]. specialize (Hc h eq_refl).
    eapply yields_mono; [apply update_expecting_ok; [done|by rewrite bool_decide_false by set_solver]|].
    intros s1 [? ->]. split; [done|set_solver]. }
  ystep. eapply yields_mono; [exact Hcur|]. intros s1 [Hok1 Hm1].
  eapply yields_mono; [apply strategy_add_all_ok; [done..|]|]; [by rewrite Hm1|].
  intros s2 [? ->]. by rewrite Hm1.
Qed.
Next Obligation.
  intros h s Hok Hh. cbn. unfold selector_killState. ystep. eapply yields_mono; [by apply remove_law|].
  intros [b t] (-> & Ht & Hm). ystep; [by apply bool_decide_eq_true|done].
Qed.
Next Obligation.
  intros h s Hok Hh. cbn.
  eapply yields_mono; [apply update_expecting_ok; [done|by rewrite bool_decide_false by set_solver]|].
  intros s1 [? ->]. split; [done|set_solver].
Qed.
Next Obligation.
  intros s Hok. cbn. unfold selector_selectState.
  pose proof (select2_law (λ n, Z.of_N (draws s (drawn s) n)) (selector s) Hok (λ n, N2Z.is_nonneg _)) as Hs.
  by destruct (select _ (selector s)).
Qed.

End SelectorStrategy.

Section Executor.
Context {T : Type} `{!HighLevelStrategy T, !HighLevelStrategyLaws T}.
Implicit Types (e : Executor T) (passed : gset nat).

(** ** Changes to one segment *)

Section insert_segment.
Context (e e' : Executor T) (g : nat) (seg : HighLevelPathSegment).
Context (Hsegs : segments e' = <[g := seg]> (segments e)).

Lemma child_of_insert g' hlpc :
  child_of e' g' hlpc = if decide (g = g') then children seg !! hlpc else child_of e g' hlpc.
Proof. unfold child_of. rewrite Hsegs, lookup_insert. by case_decide. Qed.

Lemma path_of_insert g' : path_of e' g' = if decide (g = g') then Some (seg_path seg) else path_of e g'.
Proof. unfold path_of. rewrite Hsegs, lookup_insert. by case_decide. Qed.

Lemma parent_of_insert g' :
  parent_of e' g' = if decide (g = g') then Some (seg_parent seg) else parent_of e g'.
Proof. unfold parent_of. rewrite Hsegs, lookup_insert. by case_decide. Qed.

Lemma states_at_insert g' :
  states_at e' g' = if decide (g = g') then low_level_states seg else states_at e g'.
Proof. unfold states_at. rewrite Hsegs, lookup_insert. by case_decide. Qed.
End insert_segment.

(** The same graph *)
Lemma tree_ok_ext e e' :
  (∀ g hlpc, child_of e' g hlpc = child_of e g hlpc) → (∀ g, path_of e' g = path_of e g) →
  next_segment e' = next_segment e → path_id_counter e' = path_id_counter e →
  tree_ok e → tree_ok e'.
Proof.
  intros Hc Hp Hn Hi [????? Huniq]. split; intros *; rewrite ?Hc, ?Hp, ?Hn, ?Hi; eauto.
  setoid_rewrite Hc. setoid_rewrite Hp. eauto.
Qed.

Lemma frontier_ok_ext passed e e' :
  (∀ g hlpc, child_of e' g hlpc = child_of e g hlpc) → (∀ g, path_of e' g = path_of e g) →
  (∀ g, parent_of e' g = parent_of e g ∨ parent_of e' g = Some None) →
  next_segment e' = next_segment e → next_hl e' = next_hl e →
  hl_segment e' = hl_segment e → high_level_states e' = high_level_states e →
  (∀ s g, ll_segment e' !! s = Some g → g ∉ passed) →
  frontier_ok passed e → frontier_ok passed e'.
Proof.
  intros Hc Hp Hpar Hn Hnh Hhs Hh Hll [Hlive Hdist Habove Hnot _ Hb]. split.
  - intros h. rewrite Hh, Hnh, Hhs. intros Hin. destruct (Hlive h Hin) as [? (g & ? & ? & ?)].
    split; [done|]. exists g. split_and!; [done| |done]. destruct (Hpar g) as [->|]; done.
  - intros *. rewrite Hh, Hhs. eauto.
  - intros *. unfold hl_at. rewrite Hc, Hh, Hhs. apply Habove.
  - intros g. rewrite Hp. unfold hl_at. rewrite Hh, Hhs. setoid_rewrite Hc. apply Hnot.
  - done.
  - intros g. rewrite Hn. apply Hb.
Qed.

(** [path->low_level_states] of a path that no segment has *)
Lemma fresh_path_states e : tree_ok e → states_ok e → states_of_path (path_id_counter e) e = ∅.
Proof.
  intros Ht Hs. apply set_eq. intros s. rewrite (states_path e Hs). split; [|set_solver].
  intros (g & _ & Hp%(tree_path e Ht)). lia.
Qed.

Lemma alloc_path_states e p : tree_ok e → states_ok e → states_of_path p (alloc_path e) = states_of_path p e.
Proof.
  intros Ht Hs. unfold states_of_path, alloc_path. cbn. rewrite lookup_insert. case_decide as Hp; [|done].
  subst p. symmetry. by apply fresh_path_states.
Qed.

(** ** [getNextSegment] *)

(** [e'] is [e] with more of the tree. *)
Record extends e e' : Prop := {
  ext_ll : ll_segment e' = ll_segment e;
  ext_apic : apic e' = apic e;
  ext_hl : hl_segment e' = hl_segment e;
  ext_hls : high_level_states e' = high_level_states e;
  ext_selected : selected_state e' = selected_state e;
  ext_strategy : strategy e' = strategy e;
  ext_target : target_hl_state e' = target_hl_state e;
  ext_path g : is_Some (path_of e g) → path_of e' g = path_of e g;
  ext_states g : states_at e' g = states_at e g;
}.

(** The new state of the executor when a segment is added *)
Definition with_child g hlpc seg p e : Executor T :=
  set_segments <[g := mkSegment (seg_hlpc seg) (seg_path seg) (seg_parent seg)
    (<[hlpc := next_segment e]> (children seg)) (low_level_states seg)]>
    (alloc_segment (mkSegment hlpc p (Some g) ∅ ∅) e).

Lemma ll_path e s g0 : states_ok e → ll_segment e !! s = Some g0 → is_Some (path_of e g0).
Proof.
  intros Hs Hl%(states_segment e Hs). unfold states_at, path_of in *.
  destruct (segments e !! g0); [by eexists|]. set_solver.
Qed.

Lemma parent_path e x h c : child_of e x h = Some c → is_Some (path_of e x).
Proof.
  unfold child_of, path_of. destruct (segments e !! x) as [seg'|]; cbn; [|done]. by eexists.
Qed.

Section with_child.
Context (e : Executor T) (g : nat) (hlpc : Z) (seg : HighLevelPathSegment) (p : nat).
Context (Ht : tree_ok e) (Hg : segments e !! g = Some seg) (Hnone : children seg !! hlpc = None).
Context (Hhlpc : hlpc ≠ 0).

Let e' := with_child g hlpc seg p e.

Lemma with_child_ne : (g < next_segment e)%nat.
Proof. apply (tree_bound e Ht). unfold path_of. rewrite Hg. by eexists. Qed.

Lemma with_child_child x h :
  child_of e' x h = if decide (x = g ∧ h = hlpc) then Some (next_segment e) else child_of e x h.
Proof.
  pose proof with_child_ne. unfold e', with_child, child_of. cbn. rewrite !lookup_insert.
  destruct (decide (g = x)) as [<-|Hx]; cbn.
  - rewrite Hg. cbn. destruct (decide (h = hlpc)) as [->|Hh].
    + by rewrite lookup_insert_eq, decide_True.
    + rewrite lookup_insert_ne, decide_False by (done || by intros []). done.
  - rewrite (decide_False (P := x = g ∧ h = hlpc)) by (intros []; congruence). case_decide as Hn; [|done]. subst x. cbn.
    destruct (segments e !! next_segment e) eqn:Hx'; [|done].
    assert (next_segment e < next_segment e)%nat; [|lia]. apply (tree_bound e Ht).
    unfold path_of. rewrite Hx'. by eexists.
Qed.

Lemma with_child_path x : path_of e' x = if decide (x = next_segment e) then Some p else path_of e x.
Proof.
  pose proof with_child_ne. unfold e', with_child, path_of. cbn. rewrite !lookup_insert.
  destruct (decide (g = x)) as [<-|Hx]; [rewrite decide_False, Hg by lia; done|].
  repeat case_decide; done || congruence.
Qed.

Lemma with_child_parent x :
  parent_of e' x = if decide (x = next_segment e) then Some (Some g) else parent_of e x.
Proof.
  pose proof with_child_ne. unfold e', with_child, parent_of. cbn. rewrite !lookup_insert.
  destruct (decide (g = x)) as [<-|Hx]; [rewrite decide_False, Hg by lia; done|].
  repeat case_decide; done || congruence.
Qed.

Lemma no_segment_next : segments e !! next_segment e = None.
Proof.
  destruct (segments e !! next_segment e) eqn:Hn; [|done].
  assert (next_segment e < next_segment e)%nat; [|lia].
  apply (tree_bound e Ht). unfold path_of. rewrite Hn. by eexists.
Qed.

Lemma with_child_states x : states_at e' x = states_at e x.
Proof.
  pose proof with_child_ne. pose proof no_segment_next as Hn.
  unfold e', with_child, states_at. cbn. rewrite !lookup_insert.
  destruct (decide (g = x)) as [<-|Hx]; [by rewrite Hg|]. case_decide as Hx'; [|done].
  by rewrite <- Hx', Hn.
Qed.
Lemma no_path_next : path_of e (next_segment e) = None.
Proof. unfold path_of. by rewrite no_segment_next. Qed.

(** A child is always an older segment than the new one. *)
Lemma child_old x h c : child_of e x h = Some c → c ≠ next_segment e ∧ x ≠ next_segment e.
Proof.
  intros Hc. destruct (tree_child e Ht _ _ _ Hc) as ([? Hp] & ? & _).
  pose proof no_path_next. split; [congruence|]. pose proof (tree_bound e Ht c ltac:(by eexists)). lia.
Qed.

Context (Hp : (p < path_id_counter e)%nat).
Context (Hkind : children seg = ∅ ∧ p = seg_path seg ∨ children seg ≠ ∅ ∧ ∀ x, path_of e x ≠ Some p).

(** A segment with children has one on its own path. *)
Lemma with_child_successor x h c :
  child_of e' x h = Some c → ∃ h' c', child_of e' x h' = Some c' ∧ path_of e' c' = path_of e' x.
Proof.
  pose proof with_child_ne as Hne. assert (path_of e g = Some (seg_path seg)) as Hpg by (unfold path_of; by rewrite Hg).
  rewrite with_child_child. case_decide as Hx.
  + destruct Hx as [-> ->]. intros _. destruct Hkind as [[Hempty Hpp]|[Hn _]].
    * exists hlpc, (next_segment e). rewrite with_child_child, !with_child_path.
      rewrite !decide_True, decide_False by (done || lia). by rewrite Hpg, Hpp.
    * apply map_choose in Hn as (h0 & c0 & Hc0).
      assert (child_of e g h0 = Some c0) as Hc by (unfold child_of; by rewrite Hg).
      destruct (tree_successor e Ht _ _ _ Hc) as (h1 & c1 & Hc1 & Hp1). exists h1, c1.
      rewrite with_child_child, !with_child_path. destruct (child_old _ _ _ Hc1).
      rewrite !decide_False; [done|lia|done|]. intros [_ ->]. unfold child_of in Hc1. rewrite Hg in Hc1.
      cbn in Hc1. congruence.
  + intros Hc. destruct (tree_successor e Ht _ _ _ Hc) as (h1 & c1 & Hc1 & Hp1). exists h1, c1.
    rewrite with_child_child, !with_child_path. destruct (child_old _ _ _ Hc1).
    rewrite !decide_False; [done..|]. intros [-> ->]. unfold child_of in Hc1. rewrite Hg in Hc1.
    cbn in Hc1. congruence.
Qed.

Lemma with_child_tree : tree_ok e'.
Proof.
  pose proof with_child_ne as Hne. pose proof no_path_next as Hnew.
  assert (∀ h c, child_of e g h = Some c → children seg ≠ ∅) as Hch.
  { intros h c. unfold child_of. rewrite Hg. cbn. intros Hc He. by rewrite He, lookup_empty in Hc. }
  assert (∀ h c, child_of e g h = Some c → Some p ≠ path_of e g) as Hpne.
  { intros h c Hc. specialize (Hch _ _ Hc). destruct Hkind as [[? _]|[_ Hk]]; [done|]. by specialize (Hk g). }
  split.
  - intros x. rewrite with_child_path. cbn. case_decide; [lia|].
    intros Hx%(tree_bound e Ht). lia.
  - intros x h c. rewrite with_child_child, with_child_path. case_decide as Hx.
    + intros [= <-]. destruct Hx as [-> ->]. rewrite decide_True by done. split_and!; [by eexists|lia|done].
    + intros Hc. destruct (child_old _ _ _ Hc). rewrite decide_False by done. by apply (tree_child e Ht).
  - intros x h x' h' c. rewrite !with_child_child.
    destruct (decide (x = g ∧ h = hlpc)) as [[-> ->]|], (decide (x' = g ∧ h' = hlpc)) as [[-> ->]|].
    + done.
    + intros [= <-] Hc%child_old. by destruct Hc.
    + intros Hc%child_old [= <-]. by destruct Hc.
    + apply (tree_unique e Ht).
  - intros x q. rewrite with_child_path. case_decide; [intros [= <-]; done|]. apply (tree_path e Ht).
  - apply with_child_successor.
  - intros x h c h' c'. rewrite !with_child_child, !with_child_path. intros Hc Hcp Hc' Hcp'.
    assert (x ≠ next_segment e) as Hx.
    { destruct (decide (x = g ∧ h = hlpc)) as [[-> _]|]; [lia|]. by apply child_old in Hc as [_ ?]. }
    rewrite (decide_False (P := x = next_segment e)) in Hcp, Hcp' by done.
    destruct (decide (x = g ∧ h = hlpc)) as [[Hxg ?]|], (decide (x = g ∧ h' = hlpc)) as [[Hxg' ?]|].
    + congruence.
    + injection Hc as <-. rewrite decide_True in Hcp by done. rewrite Hxg in *. by destruct (Hpne _ _ Hc').
    + injection Hc' as <-. rewrite decide_True in Hcp' by done. rewrite Hxg' in *. by destruct (Hpne _ _ Hc).
    + destruct (child_old _ _ _ Hc), (child_old _ _ _ Hc'). rewrite decide_False in Hcp by done.
      rewrite decide_False in Hcp' by done. by eapply (tree_successor_unique e Ht).
Qed.

Lemma hl_path passed h g0 :
  frontier_ok passed e → h ∈ high_level_states e → hl_segment e !! h = Some g0 → g0 ≠ next_segment e.
Proof.
  intros Hf Hh Hg0. destruct (hl_live passed e Hf h Hh) as (_ & g1 & Hg1 & Hpar & _).
  rewrite Hg0 in Hg1. injection Hg1 as <-. intros ->. unfold parent_of in Hpar. by rewrite no_segment_next in Hpar.
Qed.

Lemma with_child_frontier passed : frontier_ok passed e → g ∉ passed → frontier_ok passed e'.
Proof.
  intros Hf Hgp. pose proof (λ h g0, hl_path passed h g0 Hf) as Hhl.
  destruct Hf as [Hlive Hdist Habove Hnot Hll Hb]. split.
  - intros h Hh. destruct (Hlive h Hh) as (Hlt & g0 & Hg0 & Hpar & Hpass). split; [done|].
    exists g0. split_and!; [done| |done]. rewrite with_child_parent, decide_False; [done|]. by eapply Hhl.
  - exact Hdist.
  - intros x h c. rewrite with_child_child. case_decide as Hx; [|exact (Habove x h c)].
    intros [= <-] [Hp'|(h0 & Hh0 & Hg0)].
    + apply Hb in Hp'. lia.
    + by eapply Hhl in Hg0.
  - intros x. rewrite with_child_path. case_decide as Hx.
    + intros _ _. right. exists g, hlpc. split; [done|]. rewrite with_child_child, decide_True by done. congruence.
    + intros Hpx Hxp. destruct (Hnot x Hpx Hxp) as [?|(g' & h & Hg' & Hc)]; [by left|]. right.
      exists g', h. split; [done|]. rewrite with_child_child, decide_False; [done|]. intros [-> ->].
      unfold child_of in Hc. rewrite Hg in Hc. cbn in Hc. congruence.
  - exact Hll.
  - intros x Hx. cbn. apply Hb in Hx. lia.
Qed.

Lemma with_child_states_ok : states_ok e → states_ok e'.
Proof.
  intros Hs. pose proof no_path_next as Hnew. split.
  - intros s x. rewrite with_child_states. apply (states_segment e Hs).
  - intros s q. cbn. etrans; [apply (states_path e Hs)|].
    split; intros (x & Hx & Hpx); exists x; (split; [done|]); rewrite with_child_path in *.
    + rewrite decide_False; [done|]. congruence.
    + destruct (ll_path e s x Hs Hx). rewrite decide_False in Hpx; [done|]. congruence.
  - apply Hs.
Qed.

End with_child.

Lemma alloc_path_ok passed e :
  executor_ok passed e → executor_ok passed (alloc_path e).
Proof.
  intros (Ht & Hs & Hf & Hk). split_and!; [| |split; apply Hf|done].
  - split; try apply Ht. intros g p Hp%(tree_path e Ht). cbn. lia.
  - split; [apply Hs| |].
    + intros s p. rewrite alloc_path_states by done. apply Hs.
    + intros s p. rewrite alloc_path_states by done. apply Hs.
Qed.

(** [getNextSegment] finds or adds the child, and changes nothing else. *)
Lemma getNextSegment_ok passed e g hlpc :
  executor_ok passed e → is_Some (path_of e g) → g ∉ passed → hlpc ≠ 0 →
  getNextSegment g hlpc e ⇓ λ '(c, e'),
    executor_ok passed e' ∧ child_of e' g hlpc = Some c ∧ extends e e' ∧
    (child_of e g hlpc = Some c → e' = e).
Proof.
  intros Hok [p Hp] Hg Hhlpc. pose proof Hok as (Ht & Hs & Hf & Hk).
  unfold path_of in Hp. destruct (segments e !! g) as [seg|] eqn:Hseg; [|done]. injection Hp as <-.
  unfold getNextSegment, mbind, M_bind, get_segment. rewrite Hseg. cbn -[alloc_path].
  destruct (children seg !! hlpc) as [c|] eqn:Hc.
  { split_and!; [done|unfold child_of; by rewrite Hseg|by split|done]. }
  assert (∀ e0 q, executor_ok passed e0 → segments e0 = segments e → (q < path_id_counter e0)%nat →
    (children seg = ∅ ∧ q = seg_path seg ∨ children seg ≠ ∅ ∧ ∀ x, path_of e0 x ≠ Some q) →
    executor_ok passed (with_child g hlpc seg q e0) ∧
    child_of (with_child g hlpc seg q e0) g hlpc = Some (next_segment e0)) as Hwith.
  { intros e0 q (Ht0 & Hs0 & Hf0 & Hk0) Heq Hq Hkind. rewrite <- Heq in Hseg.
    split; [|by rewrite with_child_child, decide_True]. split_and!; [| | |done].
    - by apply with_child_tree.
    - by apply with_child_states_ok.
    - by apply with_child_frontier. }
  assert (child_of e g hlpc = None) as Hnone by (unfold child_of; by rewrite Hseg).
  case_bool_decide as Hch.
  - destruct (Hwith e (seg_path seg)) as [Hok' Hc']; [done..| |by left|].
    { apply (tree_path e Ht g). unfold path_of. by rewrite Hseg. }
    split_and!; [done..| |congruence]. split; try done; intros x.
    + intros [q Hx]. etrans; [apply with_child_path; done|]. rewrite decide_False; [done|].
      intros ->. by rewrite no_path_next in Hx.
    + by apply with_child_states.
  - destruct (Hwith (alloc_path e) (path_id_counter e)) as [Hok' Hc']; [by apply alloc_path_ok|done|cbn; lia| |].
    { right. split; [done|]. intros x Hx%(tree_path e Ht). lia. }
    assert (tree_ok (alloc_path e)) as Ht' by apply (alloc_path_ok passed e Hok).
    split_and!; [done..| |congruence]. split; try done; intros x.
    + intros [q Hx]. etrans; [apply (with_child_path (alloc_path e)); done|]. rewrite decide_False; [done|].
      intros ->. cbn in Hx. by rewrite no_path_next in Hx.
    + by apply (with_child_states (alloc_path e)).
Qed.

(** ** [joinState] and [leaveState] *)

(** [e'] differs from [e] in the low-level states, their interrupts and in [parent]
    links that were reset. *)
Record same_tree e e' : Prop := {
  same_child g hlpc : child_of e' g hlpc = child_of e g hlpc;
  same_path g : path_of e' g = path_of e g;
  same_parent g : parent_of e' g = parent_of e g;
  same_next : next_segment e' = next_segment e;
  same_counter : path_id_counter e' = path_id_counter e;
  same_hl : hl_segment e' = hl_segment e;
  same_hls : high_level_states e' = high_level_states e;
  same_next_hl : next_hl e' = next_hl e;
  same_selected : selected_state e' = selected_state e;
  same_strategy : strategy e' = strategy e;
  same_target : target_hl_state e' = target_hl_state e;
}.

Lemma same_tree_core passed e e' :
  tree_ok e → frontier_ok passed e → same_tree e e' →
  (∀ s g, ll_segment e' !! s = Some g → g ∉ passed) → tree_ok e' ∧ frontier_ok passed e'.
Proof.
  intros Ht Hf [] Hll. split.
  - by eapply tree_ok_ext.
  - eapply frontier_ok_ext; try done. by left.
Qed.

Lemma same_tree_known e e' : same_tree e e' → known_ok e → known_ok e'.
Proof. intros [] [? ?]. split; congruence. Qed.

Lemma only_state_Some X s : only_state X = Some s ↔ X = {[s]}.
Proof.
  unfold only_state. split.
  - destruct (elements X) as [|x [|]] eqn:Hx; [done| |done]. intros [= <-].
    apply set_eq. intros y. rewrite <- elem_of_elements, Hx. set_solver.
  - intros ->. by rewrite elements_singleton.
Qed.

(** A change to the states of one segment *)
Lemma set_states_same f g seg e : segments e !! g = Some seg → same_tree e (set_states f g seg e).
Proof.
  intros Hg. split; try done; intros x; [intros hlpc; etrans; [by apply (child_of_insert e _ g)|]|..];
    [|etrans; [by apply (path_of_insert e _ g)|]|etrans; [by apply (parent_of_insert e _ g)|]];
    case_decide as Hx; try done; subst x; unfold child_of, path_of, parent_of; by rewrite Hg.
Qed.

(** The effect of [leaveState], part by part *)
Lemma leaveState_effect e g s seg :
  segments e !! g = Some seg →
  leaveState g s e ⇓ λ '(_, e'), same_tree e e' ∧ ll_segment e' = delete s (ll_segment e) ∧
    (∀ x, states_at e' x = if decide (g = x) then states_at e x ∖ {[s]} else states_at e x) ∧
    (∀ q, states_of_path q e' =
      if decide (seg_path seg = q) then states_of_path q e ∖ {[s]} else states_of_path q e) ∧
    (∀ x, states_of_path (seg_path seg) e' = {[x]} → apic e' !! x = Some true) ∧
    (∀ x, apic e !! x = Some true → apic e' !! x = Some true).
Proof.
  intros Hseg. unfold leaveState, mbind, M_bind, get_segment. rewrite Hseg. cbn -[set_states].
  set (e1 := set_ll_segment (delete s) _). set (p := seg_path seg).
  set (e2 := match only_state _ with Some _ => _ | None => _ end).
  assert (∀ q, states_of_path q e2 = states_of_path q e1) as Hpath by (intros q; unfold e2; by case_match).
  split_and!.
  - pose proof (set_states_same (λ X, X ∖ {[s]}) g seg e Hseg) as []. unfold e2. case_match; by split.
  - unfold e2. by case_match.
  - intros x. trans (states_at e1 x); [unfold e2; by case_match|].
    etrans; [by apply (states_at_insert e e1 g)|]. case_decide as Hx; [|done].
    subst x. cbn. unfold states_at. by rewrite Hseg.
  - intros q. rewrite Hpath. unfold e1, states_of_path. cbn. rewrite lookup_insert.
    repeat case_decide; by subst.
  - intros x. rewrite Hpath. intros Hx%only_state_Some. unfold e2. fold p. rewrite Hx. cbn.
    by rewrite lookup_insert_eq.
  - intros x Hx. unfold e2. case_match; [|done]. cbn. rewrite lookup_insert. by case_decide.
Qed.

Lemma leaveState_ok passed e g s :
  tree_ok e → states_ok e → frontier_ok passed e → ll_segment e !! s = Some g →
  leaveState g s e ⇓ λ '(_, e'),
    (tree_ok e' ∧ states_ok e' ∧ frontier_ok passed e') ∧ same_tree e e' ∧
    ll_segment e' = delete s (ll_segment e) ∧ ∀ x, states_at e' x = states_at e x ∖ {[s]}.
Proof.
  intros Ht Hs Hf Hl. destruct (ll_path e s g Hs Hl) as [p Hp]. unfold path_of in Hp.
  destruct (segments e !! g) as [seg|] eqn:Hseg; [|done].
  assert (path_of e g = Some (seg_path seg)) as Hpg by (unfold path_of; by rewrite Hseg).
  eapply yields_mono; [by apply leaveState_effect|].
  intros [[] e'] (Hsame & Hll & Hst & Hpath & Halone & Hapic).
  assert (∀ x, states_at e' x = states_at e x ∖ {[s]}) as Hst'.
  { intros x. rewrite Hst. case_decide as Hx; [done|].
    assert (s ∉ states_at e x); [|set_solver]. intros Hin%(states_segment e Hs). congruence. }
  assert (∀ q, states_of_path q e' = states_of_path q e ∖ {[s]}) as Hpath'.
  { intros q. rewrite Hpath. case_decide as Hq; [done|].
    assert (s ∉ states_of_path q e); [|set_solver].
    rewrite (states_path e Hs). intros (x & Hx & Hpx). congruence. }
  destruct (same_tree_core passed e e') as [Ht' Hf']; [done..| |].
  { intros s' g'. rewrite Hll, lookup_delete_Some. intros [_ ?]. by eapply (ll_not_passed passed e Hf). }
  split_and!; [done| |done..]. split.
  - intros s' g'. rewrite Hll, Hst', lookup_delete_Some, (states_segment e Hs). set_solver.
  - intros s' q. rewrite Hpath', elem_of_difference, (states_path e Hs), Hll. setoid_rewrite lookup_delete_Some.
    setoid_rewrite (same_path _ _ Hsame). set_solver.
  - intros s' q Hq. destruct (decide (seg_path seg = q)) as [<-|Hne]; [by apply Halone|].
    apply Hapic, (states_apic e Hs s' q). by rewrite Hpath, decide_False in Hq by done.
Qed.

(** The effect of [joinState], part by part *)
Lemma joinState_effect e g s seg :
  segments e !! g = Some seg →
  joinState g s e ⇓ λ '(_, e'), same_tree e e' ∧ ll_segment e' = <[s := g]> (ll_segment e) ∧
    (∀ x, states_at e' x = if decide (g = x) then {[s]} ∪ states_at e x else states_at e x) ∧
    (∀ q, states_of_path q e' =
      if decide (seg_path seg = q) then {[s]} ∪ states_of_path q e else states_of_path q e) ∧
    (∀ x, states_of_path (seg_path seg) e' = {[x]} → apic e' !! s = Some true) ∧
    (∀ x, x ≠ s → states_of_path (seg_path seg) e ≠ {[x]} → apic e' !! x = apic e !! x).
Proof.
  intros Hseg. unfold joinState, mbind, M_bind, get_segment. rewrite Hseg. cbn -[set_states].
  set (e0 := match only_state (states_of_path (seg_path seg) e) with Some _ => _ | None => _ end).
  set (e1 := set_path_states _ _). set (p := seg_path seg).
  set (e2 := match only_state _ with Some _ => _ | None => _ end).
  assert (segments e0 = segments e ∧ path_states e0 = path_states e ∧ ll_segment e0 = ll_segment e) as (Hs0 & Hp0 & Hl0).
  { unfold e0. by case_match. }
  assert (∀ q, states_of_path q e2 = states_of_path q e1) as Hpath by (intros q; unfold e2; by case_match).
  split_and!.
  - assert (same_tree e (set_states (union {[s]}) g seg e0)) as [].
    { pose proof (set_states_same (union {[s]}) g seg e Hseg) as [].
      unfold e0. case_match; by split. }
    unfold e2. case_match; by split.
  - unfold e2. case_match; cbn; by rewrite Hl0.
  - intros x. trans (states_at e1 x); [unfold e2; by case_match|].
    etrans; [apply (states_at_insert e e1 g); cbn; by rewrite Hs0|]. case_decide as Hx; [|done].
    subst x. cbn. unfold states_at. by rewrite Hseg.
  - intros q. rewrite Hpath. unfold e1, states_of_path. cbn. rewrite Hp0, lookup_insert.
    repeat case_decide; by subst.
  - intros x. rewrite Hpath. intros Hx%only_state_Some. unfold e2. fold p. rewrite Hx. cbn.
    by rewrite lookup_insert_eq.
  - intros x Hxs Hx. trans (apic e1 !! x).
    { unfold e2. case_match; [|done]. cbn. by rewrite lookup_insert_ne. }
    unfold e1. cbn. unfold e0. destruct (only_state _) as [s'|] eqn:Ho; [|done].
    apply only_state_Some in Ho. cbn. rewrite !lookup_insert_ne; [done|by intros ->|done].
Qed.

Lemma joinState_ok passed e g s :
  tree_ok e → states_ok e → frontier_ok passed e →
  is_Some (path_of e g) → g ∉ passed → ll_segment e !! s = None →
  joinState g s e ⇓ λ '(_, e'),
    (tree_ok e' ∧ states_ok e' ∧ frontier_ok passed e') ∧ same_tree e e' ∧
    ll_segment e' = <[s := g]> (ll_segment e) ∧
    ∀ x, states_at e' x = if decide (g = x) then {[s]} ∪ states_at e x else states_at e x.
Proof.
  intros Ht Hs Hf [p Hp] Hg Hl. pose proof Hp as Hpg. unfold path_of in Hp. destruct (segments e !! g) as [seg|] eqn:Hseg; [|done].
  injection Hp as Hp. eapply yields_mono; [by apply joinState_effect|].
  intros [[] e'] (Hsame & Hll & Hst & Hpath & Halone & Hapic). rewrite Hp in *.
  assert (∀ q, s ∉ states_of_path q e) as Hnot.
  { intros q. rewrite (states_path e Hs). intros (x & Hx & _). congruence. }
  destruct (same_tree_core passed e e') as [Ht' Hf']; [done..| |].
  { intros s' g'. rewrite Hll, lookup_insert_Some. intros [[_ <-]|[_ ?]]; [done|].
    by eapply (ll_not_passed passed e Hf). }
  split_and!; [done| |done..]. split.
  - intros s' g'. rewrite Hll, Hst, lookup_insert_Some.
    pose proof (states_segment e Hs s' g'). pose proof (states_segment e Hs s g').
    case_decide; set_solver.
  - intros s' q. rewrite Hpath, Hll. pose proof (states_path e Hs s' q) as Hsp.
    setoid_rewrite lookup_insert_Some. setoid_rewrite (same_path _ _ Hsame).
    destruct (decide (s' = s)) as [->|Hne].
    + specialize (Hnot q). case_decide as Hq; [subst q|]; [set_solver|]. split; [done|].
      intros (x & [[_ <-]|[? _]] & Hx); [congruence|done].
    + case_decide as Hq; rewrite ?elem_of_union, Hsp; set_solver.
  - intros s' q Hq. pose proof (Hnot q) as Hn. rewrite Hpath in Hq. case_decide as Hpq.
    + subst q. assert (s ∈ ({[s']} : gset Z)) as <-%elem_of_singleton by (rewrite <- Hq; set_solver).
      apply (Halone s). by rewrite Hpath, decide_True.
    + rewrite Hapic; [by apply (states_apic e Hs s' q)|clear -Hq Hn; set_solver|]. intros Hps.
      assert (s' ∈ states_of_path p e ∧ s' ∈ states_of_path q e) as [H1 H2]
        by (clear -Hq Hps; set_solver).
      apply (states_path e Hs) in H1 as (x & ? & ?), H2 as (y & ? & ?). congruence.
Qed.

(** ** Moving the high-level states *)

(** [e'] is [e] after the high-level states in [G], new ones and maybe old ones, were
    put at the given segments. *)
Record placed (G : list (nat * nat)) e e' : Prop := {
  placed_child g hlpc : child_of e' g hlpc = child_of e g hlpc;
  placed_path g : path_of e' g = path_of e g;
  placed_states g : states_at e' g = states_at e g;
  placed_parent g : parent_of e' g = if decide (g ∈ G.*2) then Some None else parent_of e g;
  placed_next : next_segment e' = next_segment e;
  placed_paths : path_states e' = path_states e ∧ path_id_counter e' = path_id_counter e;
  placed_ll : ll_segment e' = ll_segment e ∧ apic e' = apic e;
  placed_hl h : hl_segment e' !! h =
    match list_to_map (M := gmap nat nat) G !! h with Some g => Some g | None => hl_segment e !! h end;
  placed_hls : high_level_states e' = high_level_states e ∪ list_to_set G.*1;
  placed_selected : selected_state e' = selected_state e ∧ target_hl_state e' = target_hl_state e;
  placed_strategy : strategy e' = strategy e;
}.

Lemma placed_tree G e e' : placed G e e' → tree_ok e → tree_ok e'.
Proof. intros []. apply tree_ok_ext; tauto. Qed.

Lemma placed_states_ok G e e' : placed G e e' → states_ok e → states_ok e'.
Proof.
  intros [_ Hp Hst _ _ [Hps _] [Hll Hap] _ _ _ _] [Hs1 Hs2 Hs3]. split; intros *.
  - by rewrite Hll, Hst.
  - unfold states_of_path in *. rewrite Hps, Hll. setoid_rewrite Hp. apply Hs2.
  - unfold states_of_path in *. rewrite Hps, Hap. apply Hs3.
Qed.

(** The frontier moves past segment [g]: the high-level state [h] that was there is
    gone or at a child, and every child has one of the states in [G]. *)
Section advance.
Context (passed : gset nat) (e e' : Executor T) (h g : nat) (G : list (nat * nat)).
Context (Ht : tree_ok e) (Hs : states_ok e) (Hf : frontier_ok passed e).
Context (Hh : h ∈ high_level_states e) (Hg : hl_segment e !! h = Some g) (Hempty : states_at e g = ∅).
Context (Hchild : ∀ g' hlpc, child_of e' g' hlpc = child_of e g' hlpc).
Context (Hpath : ∀ g', path_of e' g' = path_of e g').
Context (Hparent : ∀ g', parent_of e' g' = if decide (g' ∈ G.*2) then Some None else parent_of e g').
Context (Hnext : next_segment e' = next_segment e) (Hll : ll_segment e' = ll_segment e).
Context (Hids : NoDup G.*1) (Hsegs : NoDup G.*2).
Context (Hnew : ∀ x, x ∈ G.*1 → x = h ∨ (next_hl e ≤ x)%nat).
Context (Hbound : ∀ x, x ∈ G.*1 → (x < next_hl e')%nat) (Hmore : (next_hl e ≤ next_hl e')%nat).
Context (HG : ∀ c, c ∈ G.*2 ↔ ∃ hlpc, child_of e g hlpc = Some c).
Context (Hhl : ∀ x, hl_segment e' !! x =
  match list_to_map (M := gmap nat nat) G !! x with Some c => Some c | None => hl_segment e !! x end).
Context (Hhls : high_level_states e' = (high_level_states e ∖ {[h]}) ∪ list_to_set G.*1).

Lemma advance_not_passed : g ∉ passed.
Proof. destruct (hl_live passed e Hf h Hh) as (_ & g' & Hg' & _ & ?). congruence. Qed.

Lemma advance_child c : c ∈ G.*2 → c ≠ g ∧ c ∉ passed ∧ ¬ hl_at e c.
Proof.
  intros [hlpc Hc]%HG. pose proof advance_not_passed.
  destruct (tree_child e Ht _ _ _ Hc) as (_ & ? & _). split; [lia|].
  pose proof (passed_above passed e Hf _ _ _ Hc). tauto.
Qed.

(** A high-level state after the move was placed, or was elsewhere before. *)
Lemma advance_hl x c :
  x ∈ high_level_states e' → hl_segment e' !! x = Some c →
  (x, c) ∈ G ∨ x ∉ G.*1 ∧ x ∈ high_level_states e ∧ x ≠ h ∧ hl_segment e !! x = Some c ∧ c ≠ g.
Proof.
  rewrite Hhl, Hhls. intros Hx. destruct (list_to_map G !! x) as [c'|] eqn:Hc.
  - intros [= <-]. left. by apply elem_of_list_to_map_2.
  - apply not_elem_of_list_to_map in Hc. intros Hxc. right.
    assert (x ∈ high_level_states e ∧ x ≠ h) as [? ?] by (clear -Hx Hc; set_solver).
    split_and!; try done. intros ->. by apply (hl_distinct passed e Hf x h g) in Hxc.
Qed.

Lemma advance_hl_in x c : (x, c) ∈ G → x ∈ high_level_states e' ∧ hl_segment e' !! x = Some c.
Proof.
  intros Hx. split.
  - rewrite Hhls. apply elem_of_union_r, elem_of_list_to_set, list_elem_of_fmap. by exists (x, c).
  - rewrite Hhl. by rewrite (elem_of_list_to_map_1 G x c).
Qed.

Lemma advance_hl_old x : x ∈ high_level_states e → x ≠ h → x ∉ G.*1 ∧ x ∈ high_level_states e' ∧
  hl_segment e' !! x = hl_segment e !! x.
Proof.
  intros Hx Hne. destruct (hl_live passed e Hf x Hx) as [Hlt _].
  assert (x ∉ G.*1) as Hn by (intros [?|?]%Hnew; [done|lia]). split_and!; [done| |].
  - rewrite Hhls. set_solver.
  - rewrite Hhl. by rewrite (not_elem_of_list_to_map_1 G x).
Qed.

Lemma advance_live x :
  x ∈ high_level_states e' → (x < next_hl e')%nat ∧ ∃ c,
    hl_segment e' !! x = Some c ∧ parent_of e' c = Some None ∧ c ∉ {[g]} ∪ passed.
Proof.
  intros Hx. assert (is_Some (hl_segment e' !! x)) as [c Hc].
  { rewrite Hhl. case_match eqn:Hm; [by eexists|]. apply not_elem_of_list_to_map in Hm.
    assert (x ∈ high_level_states e) as Hx' by (rewrite Hhls in Hx; clear -Hx Hm; set_solver).
    destruct (hl_live passed e Hf x Hx') as (_ & c & -> & _). by eexists. }
  destruct (advance_hl x c Hx Hc) as [HxG|(_ & Hxe & Hxh & Hxc & Hcg)].
  - assert (c ∈ G.*2) as HcG by (apply list_elem_of_fmap; by exists (x, c)).
    destruct (advance_child c HcG) as (? & ? & _). split; [apply Hbound, list_elem_of_fmap; by exists (x, c)|].
    exists c. split_and!; [done|by rewrite Hparent, decide_True|]. set_solver.
  - destruct (hl_live passed e Hf x Hxe) as (Hlt & c' & Hc' & Hpar & Hcp). split; [lia|].
    exists c. rewrite Hxc in Hc'. injection Hc' as <-. split_and!; [done| |clear -Hcp Hcg; set_solver].
    rewrite Hparent. by case_decide.
Qed.

Lemma advance_distinct x x' c :
  x ∈ high_level_states e' → x' ∈ high_level_states e' →
  hl_segment e' !! x = Some c → hl_segment e' !! x' = Some c → x = x'.
Proof.
  intros Hx Hx' Hc Hc'.
  destruct (advance_hl x c Hx Hc) as [HxG|(_ & Hxe & ? & Hxc & _)],
    (advance_hl x' c Hx' Hc') as [HxG'|(_ & Hxe' & ? & Hxc' & _)].
  - apply list_elem_of_lookup in HxG as [i Hi], HxG' as [j Hj].
    assert (i = j) as ->; [|congruence].
    apply (NoDup_lookup G.*2 i j c Hsegs); rewrite list_lookup_fmap; by rewrite ?Hi, ?Hj.
  - destruct (advance_child c) as (_ & _ & Hno); [apply list_elem_of_fmap; by exists (x, c)|].
    destruct Hno. by exists x'.
  - destruct (advance_child c) as (_ & _ & Hno); [apply list_elem_of_fmap; by exists (x', c)|].
    destruct Hno. by exists x.
  - by eapply (hl_distinct passed e Hf).
Qed.

Lemma advance_above x hlpc c :
  child_of e' x hlpc = Some c → c ∈ {[g]} ∪ passed ∨ hl_at e' c → x ∈ {[g]} ∪ passed.
Proof.
  rewrite Hchild. intros Hc [Hcp|(y & Hy & Hyc)].
  - apply elem_of_union in Hcp as [->%elem_of_singleton|Hcp]; apply elem_of_union_r;
      apply (passed_above passed e Hf _ _ _ Hc); [right; by exists h|by left].
  - destruct (advance_hl y c Hy Hyc) as [HyG|(_ & Hye & _ & Hyc' & _)].
    + assert (c ∈ G.*2) as [hlpc' Hc']%HG by (apply list_elem_of_fmap; by exists (y, c)).
      destruct (tree_unique e Ht _ _ _ _ _ Hc Hc') as [-> _]. set_solver.
    + apply elem_of_union_r. apply (passed_above passed e Hf _ _ _ Hc). right. by exists y.
Qed.

Lemma advance_covered x :
  is_Some (path_of e' x) → x ∉ {[g]} ∪ passed →
  hl_at e' x ∨ ∃ g' hlpc, g' ∉ {[g]} ∪ passed ∧ child_of e' g' hlpc = Some x.
Proof.
  rewrite Hpath. intros Hx Hxp. assert (x ∉ passed ∧ x ≠ g) as [Hxp' Hxg] by (clear -Hxp; set_solver).
  destruct (not_passed passed e Hf x Hx Hxp') as [(y & Hy & Hyx)|(g' & hlpc & Hg' & Hc)].
  - left. exists y. destruct (advance_hl_old y Hy) as (_ & ? & ->); [congruence|done].
  - destruct (decide (g' = g)) as [->|Hne].
    + left. assert (x ∈ G.*2) as ([y ?] & -> & HyG)%list_elem_of_fmap by (apply HG; by exists hlpc).
      exists y. by apply advance_hl_in.
    + right. exists g', hlpc. rewrite Hchild. split; [clear -Hg' Hne; set_solver|done].
Qed.

Lemma advance_frontier : frontier_ok ({[g]} ∪ passed) e'.
Proof.
  split; [apply advance_live|apply advance_distinct|apply advance_above|apply advance_covered|..].
  - intros s x. rewrite Hll. intros Hx. pose proof (ll_not_passed passed e Hf s x Hx) as Hn.
    assert (x ≠ g) as Hxg; [|clear -Hn Hxg; set_solver]. intros ->.
    apply (states_segment e Hs) in Hx. rewrite Hempty in Hx. set_solver.
  - intros x. rewrite Hnext. intros [->%elem_of_singleton|Hx]%elem_of_union; [|by apply (passed_bound passed e Hf)].
    apply (tree_bound e Ht). destruct (hl_live passed e Hf h Hh) as (_ & g' & Hg' & Hpar & _).
    rewrite Hg in Hg'. injection Hg' as <-. unfold parent_of, path_of in *.
    destruct (segments e !! g); [by eexists|done].
Qed.
End advance.

(** ** [HighLevelState::fork] and [HighLevelState::step] *)

Lemma bind_done {A B} (m : M (Executor T) A) (f : A → M (Executor T) B) e a e' :
  m e = Done (a, e') → (m ≫= f) e = f a e'.
Proof. unfold mbind, M_bind. by intros ->. Qed.

Lemma bind_yields {A B} (m : M (Executor T) A) (f : A → M (Executor T) B) e P :
  m e ⇓ (λ '(a, e'), f a e' ⇓ P) → (m ≫= f) e ⇓ P.
Proof. unfold mbind, M_bind. by destruct (m e) as [[]| |]. Qed.

Lemma getNextSegment_known e g hlpc c :
  child_of e g hlpc = Some c → getNextSegment g hlpc e = Done (c, e).
Proof.
  unfold child_of, getNextSegment, mbind, M_bind, get_segment.
  destruct (segments e !! g) as [seg|]; [|done]. cbn. by intros ->.
Qed.

Lemma path_segment e g p : path_of e g = Some p → ∃ seg, segments e !! g = Some seg ∧ seg_path seg = p.
Proof. unfold path_of. destruct (segments e !! g) as [seg|]; [|done]. intros [= <-]. eauto. Qed.

(** A high-level state is put at a segment, and the segment loses its parent link. *)
Lemma place_one e e0 h c :
  is_Some (path_of e c) → segments e0 = segments e → next_segment e0 = next_segment e →
  path_states e0 = path_states e ∧ path_id_counter e0 = path_id_counter e →
  ll_segment e0 = ll_segment e ∧ apic e0 = apic e →
  hl_segment e0 = <[h := c]> (hl_segment e) → high_level_states e0 = high_level_states e ∪ {[h]} →
  selected_state e0 = selected_state e ∧ target_hl_state e0 = target_hl_state e →
  strategy e0 = strategy e →
  reset_parent c e0 ⇓ λ '(_, e'), placed [(h, c)] e e' ∧ next_hl e' = next_hl e0.
Proof.
  intros [p (seg & Hseg & _)%path_segment] Hsegs Hn Hp Hll Hhl Hhls Hsel Hst.
  unfold reset_parent, mbind, M_bind, get_segment. rewrite Hsegs, Hseg. cbn. split; [|done].
  set (seg' := mkSegment _ _ None _ _). set (e' := set_segments _ e0).
  assert (segments e' = <[c := seg']> (segments e)) as He' by (cbn; by rewrite Hsegs).
  split; try done.
  - intros x hlpc. rewrite (child_of_insert e e' c seg' He'). case_decide as Hx; [|done].
    subst x. unfold child_of. by rewrite Hseg.
  - intros x. rewrite (path_of_insert e e' c seg' He'). case_decide as Hx; [|done].
    subst x. unfold path_of. by rewrite Hseg.
  - intros x. rewrite (states_at_insert e e' c seg' He'). case_decide as Hx; [|done].
    subst x. unfold states_at. by rewrite Hseg.
  - intros x. rewrite (parent_of_insert e e' c seg' He'). cbn.
    destruct (decide (c = x)); [rewrite decide_True by set_solver|rewrite decide_False by set_solver]; done.
  - intros x. cbn. rewrite Hhl. destruct (decide (h = x)) as [<-|Hx].
    + by rewrite !lookup_insert_eq.
    + by rewrite !lookup_insert_ne.
  - cbn. rewrite Hhls. set_solver.
Qed.

Lemma hl_fork_effect e h g hlpc c :
  hl_segment e !! h = Some g → child_of e g hlpc = Some c → is_Some (path_of e c) →
  path_of e c ≠ path_of e g →
  hl_fork h hlpc e ⇓ λ '(h', e'), h' = next_hl e ∧ placed [(next_hl e, c)] e e' ∧ next_hl e' = S (next_hl e).
Proof.
  intros Hh Hc Hpc Hne. pose proof Hpc as [q (next & Hnext & <-)%path_segment].
  assert (∃ seg, segments e !! g = Some seg) as [seg Hseg].
  { unfold child_of in Hc. destruct (segments e !! g); [eauto|done]. }
  unfold path_of in Hne. rewrite Hnext, Hseg in Hne. cbn in Hne. unfold hl_fork.
  rewrite (bind_done _ _ _ g e) by (unfold hl_state_segment; by rewrite Hh).
  rewrite (bind_done _ _ _ c e) by (by apply getNextSegment_known).
  rewrite (bind_done _ _ _ next e) by (unfold get_segment; by rewrite Hnext).
  rewrite (bind_done _ _ _ seg e) by (unfold get_segment; by rewrite Hseg).
  rewrite (bind_done _ _ _ tt e) by (rewrite (proj2 (Nat.eqb_neq _ _)) by congruence; done).
  rewrite (bind_done _ _ _ (next_hl e) (alloc_hl c e)) by done. apply bind_yields.
  eapply yields_mono; [apply (place_one e (alloc_hl c e) (next_hl e) c); try done; cbn; set_solver|].
  intros [[] e'] [Hpl Hn]. by split_and!.
Qed.

Lemma placed_nil e : placed [] e e.
Proof. split; try done. cbn. set_solver. Qed.

Lemma placed_trans G G' e e1 e2 :
  placed G e e1 → placed G' e1 e2 → (∀ x, x ∈ G.*1 → x ∉ G'.*1) → placed (G ++ G') e e2.
Proof.
  intros [] [] Hd. split; try (intros; congruence); try (destruct_and!; split; congruence).
  - intros x. rewrite placed_parent1, placed_parent0, fmap_app.
    pose proof (elem_of_app G.*2 G'.*2 x). repeat case_decide; done || tauto.
  - intros x. rewrite placed_hl1, placed_hl0, list_to_map_app, lookup_union.
    destruct (list_to_map G !! x) eqn:HG, (list_to_map G' !! x) eqn:HG'; try done.
    apply elem_of_list_to_map_2 in HG, HG'. destruct (Hd x); apply list_elem_of_fmap; by eexists (x, _).
  - by rewrite placed_hls1, placed_hls0, fmap_app, list_to_set_app_L, (assoc_L (∪)).
Qed.

(** The loop over the children forks a state for each that is on another path. *)
Lemma fork_children_ok e h g p k l :
  hl_segment e !! h = Some g → (h < next_hl e)%nat → path_of e g = Some p → NoDup l.*1 →
  (∀ hlpc c, (hlpc, c) ∈ l → child_of e g hlpc = Some c ∧ is_Some (path_of e c)) →
  (∀ hlpc c, (hlpc, c) ∈ l → path_of e c = Some p →
    k = 0 ∧ ∀ hlpc' c', (hlpc', c') ∈ l → path_of e c' = Some p → hlpc' = hlpc) →
  fork_children h p k l e ⇓ λ '((k', adds), e'), ∃ G, placed G e e' ∧ adds = G.*1 ∧
    G.*1 = seq (next_hl e) (length G) ∧ next_hl e' = (next_hl e + length G)%nat ∧
    G.*2 = (filter (λ x, path_of e x.2 ≠ Some p) l).*2 ∧
    (∀ hlpc c, (hlpc, c) ∈ l → path_of e c = Some p → k' = hlpc) ∧
    ((∀ hlpc c, (hlpc, c) ∈ l → path_of e c ≠ Some p) → k' = k).
Proof.
  revert e k. induction l as [|[hlpc c] l IH]; intros e k Hh Hlt Hp Hd Hl Hk; cbn [fork_children].
  { exists []. split_and!; try done; [apply placed_nil|].
    by intros ?? ?%elem_of_nil. }
  destruct (Hl hlpc c) as [Hc Hpc]; [by left|]. pose proof Hpc as [q (next & Hnext & Hq)%path_segment].
  rewrite (bind_done _ _ _ next e) by (unfold get_segment; by rewrite Hnext).
  assert (path_of e c = Some (seg_path next)) as Hpc' by (unfold path_of; by rewrite Hnext).
  cbn in Hd. apply NoDup_cons in Hd as [Hnin Hd]. destruct (Nat.eqb_spec (seg_path next) p) as [Hnp|Hnp].
  - rewrite Hnp in Hpc'. destruct (Hk hlpc c) as [-> Huniq]; [by left|done|].
    rewrite (bind_done _ _ _ tt e) by done.
    assert (∀ hlpc' c', (hlpc', c') ∈ l → path_of e c' ≠ Some p) as Hno.
    { intros hlpc' c' Hin Hp'. destruct Hnin. rewrite <- (Huniq hlpc' c'); [|by right|done].
      apply list_elem_of_fmap. by exists (hlpc', c'). }
    eapply yields_mono; [apply (IH e hlpc); try done|].
    { intros ???. apply Hl. by right. }
    { intros hlpc' c' Hin Hp'. by destruct (Hno hlpc' c'). }
    intros [[k' adds] e'] (G & HG & -> & Hseq & Hn & Hfil & _ & Hkk).
    exists G. split_and!; try done.
    + rewrite filter_cons_False by (by intros []). done.
    + intros hlpc' c' Hin Hp'. rewrite (Huniq hlpc' c') by done. by apply Hkk.
    + intros Hall. by destruct (Hall hlpc c ltac:(by left)).
  - assert (path_of e c ≠ Some p) as Hne by congruence.
    apply bind_yields. eapply yields_mono; [apply (hl_fork_effect e h g hlpc c); congruence|].
    intros [h' e1] (-> & Hpl & Hn1). pose proof Hpl as []. apply bind_yields.
    eapply yields_mono; [apply (IH e1 k); rewrite ?Hn1; try done; try lia|].
    { rewrite placed_hl0. cbn. rewrite lookup_insert_ne by lia. by rewrite lookup_empty. }
    { congruence. }
    { intros hlpc' c' Hin. rewrite placed_child0, placed_path0. apply Hl. by right. }
    { intros hlpc' c' Hin. rewrite placed_path0. intros Hp'. destruct (Hk hlpc' c') as [-> Hu]; [by right|done|].
      split; [done|]. intros hlpc2 c2 Hin2. rewrite placed_path0. apply Hu. by right. }
    intros [[k' adds] e'] (G & HG & -> & Hseq & Hn & Hfil & Hkk & Hkk').
    exists ((next_hl e, c) :: G). split_and!; try done.
    + apply (placed_trans [(next_hl e, c)] G e e1 e'); [done..|]. intros x Hx. cbn in Hx.
      apply list_elem_of_singleton in Hx as ->. rewrite Hseq, elem_of_seq. lia.
    + cbn. by rewrite Hseq, Hn1.
    + rewrite Hn, Hn1. cbn. lia.
    + cbn [fmap list_fmap fst snd]. rewrite filter_cons_True by done. cbn. rewrite Hfil.
      do 2 f_equal. apply list_filter_iff. intros x. by rewrite placed_path0.
    + intros hlpc' c' [[= -> ->]|Hin]%elem_of_cons Hp'; [done|]. apply (Hkk hlpc' c' Hin). congruence.
    + intros Hall. apply Hkk'. intros hlpc' c' Hin. rewrite placed_path0. apply (Hall hlpc'). by right.
Qed.

Lemma hl_step_effect e h g hlpc c :
  h ∈ high_level_states e → hl_segment e !! h = Some g → child_of e g hlpc = Some c →
  is_Some (path_of e c) →
  hl_step h hlpc e ⇓ λ '(_, e'), placed [(h, c)] e e' ∧ next_hl e' = next_hl e.
Proof.
  intros Hin Hh Hc Hpc. unfold hl_step.
  rewrite (bind_done _ _ _ g e) by (unfold hl_state_segment; by rewrite Hh).
  rewrite (bind_done _ _ _ c e) by (by apply getNextSegment_known).
  rewrite (bind_done _ _ _ tt (set_hl_segment h c e)) by done.
  eapply yields_mono; [apply (place_one e (set_hl_segment h c e) h c); try done; cbn; set_solver|]. done.
Qed.

(** The invariant but for the strategy, once every child of the segment of [h] has its
    high-level state *)
Lemma advance_ok passed e e' h g G :
  executor_ok passed e → h ∈ high_level_states e → hl_segment e !! h = Some g → states_at e g = ∅ →
  placed G e e' → h ∈ G.*1 → NoDup G.*1 → NoDup G.*2 →
  (∀ x, x ∈ G.*1 → x = h ∨ (next_hl e ≤ x)%nat) → (∀ x, x ∈ G.*1 → (x < next_hl e')%nat) →
  (next_hl e ≤ next_hl e')%nat → (∀ c, c ∈ G.*2 ↔ ∃ hlpc, child_of e g hlpc = Some c) →
  tree_ok e' ∧ states_ok e' ∧ frontier_ok ({[g]} ∪ passed) e'.
Proof.
  intros (Ht & Hs & Hf & _) Hh Hg Hempty Hpl HhG Hids Hsegs Hnew Hbound Hmore HG.
  split_and!; [by eapply placed_tree|by eapply placed_states_ok|]. destruct Hpl.
  apply (advance_frontier passed e e' h g G); try done; [tauto|].
  rewrite placed_hls0. apply set_eq. intros x.
  assert (h ∈@{gset nat} list_to_set G.*1) by (by apply elem_of_list_to_set).
  destruct (decide (x = h)); set_solver.
Qed.

(** What the strategy does to the rest of the state: nothing. *)
Lemma known_frontier passed e e' :
  tree_ok e → states_ok e → frontier_ok passed e → known_ok e' →
  segments e' = segments e → next_segment e' = next_segment e → path_states e' = path_states e →
  path_id_counter e' = path_id_counter e → ll_segment e' = ll_segment e → apic e' = apic e →
  hl_segment e' = hl_segment e → next_hl e' = next_hl e → high_level_states e' = high_level_states e →
  executor_ok passed e'.
Proof.
  destruct e, e'. cbn. intros Ht Hs Hf Hk -> -> -> -> -> -> -> -> ->.
  split_and!; [split; apply Ht|split; apply Hs|split; apply Hf|done].
Qed.

(** A new selection *)
Definition reselected e : Prop :=
  match selected_state e with
  | Some h => h ∈ high_level_states e
  | None => high_level_states e = ∅
  end.

Lemma reselect_ok passed e :
  executor_ok passed e → reselect e ⇓ λ '(_, e'), executor_ok passed e' ∧ reselected e' ∧
    next_segment e' = next_segment e ∧ ll_segment e' = ll_segment e ∧
    high_level_states e' = high_level_states e ∧ hl_segment e' = hl_segment e ∧ segments e' = segments e.
Proof.
  intros (Ht & Hs & Hf & Hk1 & Hk2). unfold reselect. pose proof (selectState_law (strategy e) Hk1) as Hsel.
  destruct (selectState (strategy e)) as [o t]. destruct Hsel as (Ht' & Htr & Hnone & Hsome). cbn.
  split_and!; try done.
  - apply (known_frontier passed e); try done. split; cbn; congruence.
  - unfold reselected. cbn. rewrite <- Hk2. destruct o as [h|]; [by apply Hsome|by apply Hnone].
Qed.

(** ** [doUpdateSelectedState] *)

(** The frontier has moved past [g], and the low-level states are where they were. *)
Definition moved passed g e e' : Prop :=
  executor_ok ({[g]} ∪ passed) e' ∧ next_segment e' = next_segment e ∧ ll_segment e' = ll_segment e ∧
  ∀ x, states_at e' x = states_at e x.

Section doUpdate.
Context (passed : gset nat) (e : Executor T) (h g : nat) (seg : HighLevelPathSegment).
Context (Hok : executor_ok passed e) (Hh : h ∈ high_level_states e).
Context (Hg : hl_segment e !! h = Some g) (Hseg : segments e !! g = Some seg).
Context (Hempty : states_at e g = ∅).

Lemma children_child hlpc c : children seg !! hlpc = Some c ↔ child_of e g hlpc = Some c.
Proof. unfold child_of. by rewrite Hseg. Qed.

Lemma kill_moved :
  children seg = ∅ →
  (_ ← ask_strategy (killState h); modify (erase_hl h)) e ⇓ λ '(_, e'), moved passed g e e'.
Proof.
  intros Hch. pose proof Hok as (Ht & Hs & Hf & Hk1 & Hk2). apply bind_yields. unfold ask_strategy. ystep.
  eapply yields_mono; [apply kill_law; [done|by rewrite Hk2]|]. intros t [Ht1 Ht2]. cbn.
  split_and!; try done. split_and!; [split; apply Ht|split; apply Hs| |].
  - apply (advance_frontier passed e _ h g []); try done; cbn;
      try apply NoDup_nil_2; try (by intros x ?%elem_of_nil); [|clear; set_solver].
    intros c. split; [by intros ?%elem_of_nil|]. intros [hlpc Hc%children_child]. by rewrite Hch, lookup_empty in Hc.
  - split; cbn; [done|]. by rewrite Ht2, Hk2.
Qed.

Lemma step_moved hlpc c :
  map_to_list (children seg) = [(hlpc, c)] →
  (_ ← hl_step h hlpc; ask_strategy (updateState h)) e ⇓ λ '(_, e'), moved passed g e e'.
Proof.
  intros Hl. pose proof Hok as (Ht & Hs & Hf & Hk1 & Hk2).
  assert (∀ hlpc' c', child_of e g hlpc' = Some c' ↔ hlpc' = hlpc ∧ c' = c) as Hch.
  { intros. rewrite <- children_child, <- elem_of_map_to_list, Hl. set_solver. }
  assert (child_of e g hlpc = Some c) as Hc by (by apply Hch).
  destruct (tree_child e Ht _ _ _ Hc) as (Hpc & _ & _). apply bind_yields.
  eapply yields_mono; [by apply (hl_step_effect e h g hlpc c)|]. intros [[] e1] [Hpl Hn].
  destruct (advance_ok passed e e1 h g [(h, c)]) as (Ht1 & Hs1 & Hf1); try done; cbn.
  { set_solver. } { apply NoDup_singleton. } { apply NoDup_singleton. } { set_solver. }
  { intros x ->%list_elem_of_singleton. rewrite Hn. by destruct (hl_live passed e Hf h Hh). } { lia. }
  { intros c'. setoid_rewrite Hch. set_solver. }
  destruct Hpl. unfold ask_strategy. ystep. rewrite placed_strategy0.
  eapply yields_mono; [apply updateState_law; [done|by rewrite Hk2]|]. intros t [Ht2 Htr]. cbn.
  split_and!; try done; [|tauto]. apply (known_frontier _ e1); try done. split; cbn; [done|].
  rewrite Htr, Hk2, placed_hls0. set_solver.
Qed.

(** The children, and the one on the same path *)
Lemma children_list l :
  l = map_to_list (children seg) → l ≠ [] →
  NoDup l.*1 ∧ NoDup (filter (λ x, path_of e x.2 ≠ path_of e g) l).*2 ∧ (∀ hlpc c, (hlpc, c) ∈ l ↔ child_of e g hlpc = Some c) ∧
  ∃ hlpc0 c0, (hlpc0, c0) ∈ l ∧ path_of e c0 = path_of e g ∧ hlpc0 ≠ 0 ∧
    ∀ hlpc c, (hlpc, c) ∈ l → path_of e c = path_of e g → hlpc = hlpc0 ∧ c = c0.
Proof.
  intros -> Hne. pose proof Hok as (Ht & _).
  assert (∀ hlpc c, (hlpc, c) ∈ map_to_list (children seg) ↔ child_of e g hlpc = Some c) as Hl.
  { intros. by rewrite elem_of_map_to_list, children_child. }
  split_and!; [apply NoDup_fst_map_to_list| |done|].
  - apply NoDup_fmap_2_strong; [|apply NoDup_filter, NoDup_map_to_list].
    intros [h1 c1] [h2 c2] [_ H1%Hl]%list_elem_of_filter [_ H2%Hl]%list_elem_of_filter ?. cbn in *. subst.
    by destruct (tree_unique e Ht _ _ _ _ _ H1 H2) as [_ ->].
  - destruct (map_to_list (children seg)) as [|[h1 c1] l] eqn:Heq; [done|].
    assert (child_of e g h1 = Some c1) as Hc1 by (apply Hl; by left).
    destruct (tree_successor e Ht _ _ _ Hc1) as (h0 & c0 & Hc0 & Hp0). exists h0, c0.
    split_and!; [by apply Hl|done|by eapply (tree_child e Ht)|].
    intros h2 c2 H2%Hl Hp2. pose proof (tree_successor_unique e Ht _ _ _ _ _ H2 Hp2 Hc0 Hp0) as ->.
    split; congruence.
Qed.

(** The states after a fork: the new ones at the children on other paths, and [h] at
    the child on the same path *)
Lemma fork_places l F hlpc0 c0 n :
  (∀ hlpc c, (hlpc, c) ∈ l ↔ child_of e g hlpc = Some c) → (hlpc0, c0) ∈ l →
  path_of e c0 = path_of e g →
  (∀ hlpc c, (hlpc, c) ∈ l → path_of e c = path_of e g → hlpc = hlpc0 ∧ c = c0) →
  NoDup (filter (λ x, path_of e x.2 ≠ path_of e g) l).*2 →
  F.*1 = seq (next_hl e) n → F.*2 = (filter (λ x, path_of e x.2 ≠ path_of e g) l).*2 →
  let G := F ++ [(h, c0)] in
  h ∈ G.*1 ∧ NoDup G.*1 ∧ NoDup G.*2 ∧
  (∀ x, x ∈ G.*1 → x = h ∨ (next_hl e ≤ x)%nat) ∧ (∀ x, x ∈ G.*1 → (x < next_hl e + n)%nat) ∧
  ∀ c, c ∈ G.*2 ↔ ∃ hlpc, child_of e g hlpc = Some c.
Proof.
  intros Hin Hin0 Hp0 Huniq Hd HF1 HF2 G. unfold G. pose proof Hok as (_ & _ & Hf & _).
  destruct (hl_live passed e Hf h Hh) as [Hlt _]. rewrite !fmap_app, HF1, HF2. cbn. split_and!.
  - set_solver.
  - apply NoDup_app. split_and!; [apply NoDup_seq| |apply NoDup_singleton].
    intros x Hx%elem_of_seq ->%list_elem_of_singleton. lia.
  - apply NoDup_app. split_and!; [done| |apply NoDup_singleton].
    intros c ([hlpc c'] & -> & [Hp _]%list_elem_of_filter)%list_elem_of_fmap Heq%list_elem_of_singleton.
    cbn in *. congruence.
  - intros x [Hx%elem_of_seq| ->%list_elem_of_singleton]%elem_of_app; [right; lia|by left].
  - intros x [Hx%elem_of_seq| ->%list_elem_of_singleton]%elem_of_app; lia.
  - intros c. rewrite elem_of_app, list_elem_of_singleton, list_elem_of_fmap. split.
    + intros [([hlpc c'] & -> & [_ Hc%Hin]%list_elem_of_filter)| ->]; [by exists hlpc|exists hlpc0; by apply Hin].
    + intros [hlpc Hc%Hin]. destruct (decide (path_of e c = path_of e g)) as [Hp|Hp].
      * right. by destruct (Huniq _ _ Hc Hp).
      * left. exists (hlpc, c). split; [done|]. by apply list_elem_of_filter.
Qed.

Lemma fork_moved l :
  l = map_to_list (children seg) → l ≠ [] →
  ('(stepping_hlpc, add_list) ← fork_children h (seg_path seg) 0 l;
   _ ← lift (cassert (negb (stepping_hlpc =? 0)));
   _ ← hl_step h stepping_hlpc;
   ask_strategy (addStates (Some h) add_list)) e ⇓ λ '(_, e'), moved passed g e e'.
Proof.
  intros Hl Hne. destruct (children_list l Hl Hne) as (Hd1 & Hd2 & Hin & hlpc0 & c0 & Hin0 & Hp0 & Hz & Huniq).
  clear Hl. pose proof Hok as (Ht & Hs & Hf & Hk1 & Hk2).
  assert (path_of e g = Some (seg_path seg)) as Hpg by (unfold path_of; by rewrite Hseg).
  destruct (hl_live passed e Hf h Hh) as [Hlt _].
  destruct (tree_child e Ht g hlpc0 c0) as (Hpc0 & _ & _); [by apply Hin|]. apply bind_yields.
  eapply yields_mono; [apply (fork_children_ok e h g (seg_path seg) 0 l); try done|].
  { intros hlpc c Hc%Hin. split; [done|]. by destruct (tree_child e Ht _ _ _ Hc). }
  { rewrite <- Hpg. intros hlpc c Hc Hp. split; [done|]. intros hlpc' c' Hc' Hp'.
    destruct (Huniq _ _ Hc Hp), (Huniq _ _ Hc' Hp'). congruence. }
  rewrite <- Hpg. intros [[k adds] e1] (F & HF & -> & Hseq & Hn1 & HF2 & Hk & _).
  assert (k = hlpc0) as -> by (by eapply Hk). rewrite (bind_done _ _ _ tt e1).
  2: { by rewrite (proj2 (Z.eqb_neq _ _)) by done. }
  assert (∀ x, x ∈ F.*1 → (next_hl e ≤ x)%nat) as HF1 by (intros x; rewrite Hseq, elem_of_seq; lia).
  assert (h ∉ F.*1) as HhF by (intros ?%HF1; lia).
  destruct (fork_places l F hlpc0 c0 (length F)) as (Hh' & Hi1 & Hi2 & Hi3 & Hi4 & Hi5); try done.
  apply bind_yields. eapply yields_mono; [apply (hl_step_effect e1 h g hlpc0 c0)|].
  { rewrite (placed_hls _ _ _ HF). set_solver. }
  { rewrite (placed_hl _ _ _ HF). by rewrite (not_elem_of_list_to_map_1 F h). }
  { rewrite (placed_child _ _ _ HF). by apply Hin. }
  { by rewrite (placed_path _ _ _ HF). }
  intros [[] e2] [Hpl Hn2].
  assert (placed (F ++ [(h, c0)]) e e2) as HG.
  { eapply placed_trans; [done..|]. intros x Hx. cbn. intros ->%list_elem_of_singleton. done. }
  destruct (advance_ok passed e e2 h g (F ++ [(h, c0)])) as (Ht2 & Hs2 & Hf2); try done; try lia.
  { rewrite Hn2, Hn1. done. }
  destruct HG. unfold ask_strategy. ystep. rewrite placed_strategy0.
  eapply yields_mono; [apply add_law; [done|intros ? [= <-]; by rewrite Hk2|..]|].
  { rewrite Hseq. apply NoDup_seq. }
  { rewrite Hk2. intros x Hx%HF1 Hx'. destruct (hl_live passed e Hf x Hx'). lia. }
  intros t [Ht3 Htr]. split_and!; try done; cbn; [|tauto]. apply (known_frontier _ e2); try done.
  split; cbn; [done|]. rewrite Htr, Hk2, placed_hls0, fmap_app, list_to_set_app_L. cbn. set_solver.
Qed.

End doUpdate.
(** One round of the loop: the selected state has a low-level state, or the frontier
    moves past its segment. *)
Lemma doUpdate_ok passed e h :
  executor_ok passed e → h ∈ high_level_states e →
  doUpdateSelectedState h e ⇓ λ '(again, e'),
    if (again : bool) then ∃ g, g ∉ passed ∧ moved passed g e e' ∧ reselected e'
    else e' = e ∧ ∃ g, hl_segment e !! h = Some g ∧ states_at e g ≠ ∅.
Proof.
  intros Hok Hh. pose proof Hok as (Ht & Hs & Hf & Hk).
  destruct (hl_live passed e Hf h Hh) as (_ & g & Hg & Hpar & Hgp).
  unfold parent_of in Hpar. destruct (segments e !! g) as [seg|] eqn:Hseg; [|done]. injection Hpar as Hpar.
  assert (states_at e g = low_level_states seg) as Hst by (unfold states_at; by rewrite Hseg).
  unfold doUpdateSelectedState. rewrite (bind_done _ _ _ g e) by (unfold hl_state_segment; by rewrite Hg).
  rewrite (bind_done _ _ _ seg e) by (unfold get_segment; by rewrite Hseg).
  case_bool_decide as He; cbn [negb].
  2: { split; [done|]. exists g. split; [done|]. by rewrite Hst. }
  rewrite He in Hst. rewrite (bind_done _ _ _ tt e) by (by rewrite bool_decide_true).
  apply bind_yields.
  eapply (yields_mono _ (λ '(_, e'), moved passed g e e')).
  - destruct (map_to_list (children seg)) as [|[hlpc c] [|x l]] eqn:Hl.
    + apply (kill_moved passed e h g seg); try done. by apply map_to_list_empty_iff.
    + by eapply (step_moved passed e h g seg).
    + by apply (fork_moved passed e h g seg).
  - intros [[] e1] (Hok1 & Hn1 & Hl1 & Hs1). apply bind_yields.
    eapply yields_mono; [by apply reselect_ok|]. intros [[] e2] (Hok2 & Hsel & Hn2 & Hl2 & _ & _ & Hseg2).
    exists g. split_and!; try done. split_and!; [done|congruence..|]. intros x. rewrite <- Hs1.
    unfold states_at. by rewrite Hseg2.
Qed.

Lemma passed_size passed e : frontier_ok passed e → (size passed ≤ next_segment e)%nat.
Proof.
  intros Hf. rewrite <- (length_seq (next_segment e) 0), <- (size_list_to_set (C := gset nat) (seq 0 _)) by apply NoDup_seq.
  apply subseteq_size. intros g Hg%(passed_bound passed e Hf).
  apply elem_of_list_to_set, elem_of_seq. lia.
Qed.

(** The loop ends: every round passes another segment. *)
Lemma update_loop_ok fuel passed e :
  executor_ok passed e → reselected e → (next_segment e < fuel + size passed)%nat →
  update_loop fuel e ⇓ λ '(_, e'), ∃ passed', executor_ok passed' e' ∧ ll_segment e' = ll_segment e ∧
    match selected_state e' with
    | Some h => h ∈ high_level_states e' ∧ ∃ g, hl_segment e' !! h = Some g ∧ states_at e' g ≠ ∅
    | None => high_level_states e' = ∅
    end.
Proof.
  revert passed e. induction fuel as [|fuel IH]; intros passed e Hok Hsel Hfuel.
  { pose proof Hok as (_ & _ & Hf & _). pose proof (passed_size passed e Hf). lia. }
  cbn. unfold reselected in Hsel. destruct (selected_state e) as [h|] eqn:Hh.
  2: { exists passed. by rewrite Hh. }
  ystep. eapply yields_mono; [by apply (doUpdate_ok passed)|]. intros [again e1]. destruct again.
  - intros (g & Hg & (Hok1 & Hn1 & Hl1 & _) & Hsel1).
    eapply yields_mono; [apply (IH ({[g]} ∪ passed)); [done..|]|].
    { rewrite size_union, size_singleton by set_solver. lia. }
    intros [[] e2] (passed2 & Hok2 & Hl2 & Hpost). exists passed2. split_and!; [done|congruence|done].
  - intros [-> Hg]. exists passed. rewrite Hh. by split_and!.
Qed.

Lemma tryUpdate_ok passed e :
  executor_ok passed e → reselected e →
  tryUpdateSelectedState e ⇓ λ '(_, e'), ∃ passed', executor_ok passed' e' ∧ selection_ok e' ∧
    ll_segment e' = ll_segment e.
Proof.
  intros Hok Hsel. unfold tryUpdateSelectedState. ystep.
  eapply yields_mono; [apply (update_loop_ok _ passed); [done..|lia]|].
  intros [[] e1] (passed' & Hok1 & Hl1 & Hpost). cbn. exists passed'. unfold selection_ok.
  destruct (selected_state e1) as [h|] eqn:Hh; cbn; rewrite Hh.
  - destruct Hpost as [? ?]. pose proof Hok1 as (? & ? & ? & ?). split_and!; try done.
    by apply (known_frontier passed' e1).
  - by split_and!.
Qed.

(** ** The handlers *)

Lemma reselected_same e e' :
  selected_state e' = selected_state e → high_level_states e' = high_level_states e →
  reselected e → reselected e'.
Proof. unfold reselected. by intros -> ->. Qed.

Lemma selection_reselected e : selection_ok e → reselected e.
Proof. unfold selection_ok, reselected. case_match; [by intros []|done]. Qed.

Lemma ll_step_ok passed e s g hlpc :
  executor_ok passed e → reselected e → ll_segment e !! s = Some g → hlpc ≠ 0 →
  ll_step s hlpc e ⇓ λ '(_, e'), ∃ passed', executor_ok passed' e' ∧ selection_ok e'.
Proof.
  intros Hok Hsel Hg Hz. pose proof Hok as (Ht & Hs & Hf & _). unfold ll_step.
  pose proof (ll_not_passed passed e Hf s g Hg) as Hgp.
  rewrite (bind_done _ _ _ g e) by (unfold ll_state_segment; by rewrite Hg). apply bind_yields.
  eapply yields_mono; [apply (getNextSegment_ok passed e g hlpc); try done; by eapply ll_path|].
  intros [c e1] ((Ht1 & Hs1 & Hf1 & Hk1) & Hc & Hext & _). destruct Hext. apply bind_yields.
  eapply yields_mono; [apply (leaveState_ok passed e1 g s); try done; congruence|].
  intros [[] e2] ((Ht2 & Hs2 & Hf2) & Hsame2 & Hl2 & _).
  apply (same_tree_known _ _ Hsame2) in Hk1 as Hk2. apply bind_yields.
  eapply yields_mono; [apply (joinState_ok passed e2 c s); try done|].
  { rewrite (same_path _ _ Hsame2). by destruct (tree_child e1 Ht1 _ _ _ Hc). }
  { intros Hcp. destruct Hgp. by eapply (passed_above passed e1 Hf1); [|left]. }
  { by rewrite Hl2, lookup_delete_eq. }
  intros [[] e3] ((Ht3 & Hs3 & Hf3) & Hsame3 & _). apply (same_tree_known _ _ Hsame3) in Hk2 as Hk3.
  eapply yields_mono; [apply (tryUpdate_ok passed e3); [done|]|].
  { destruct Hsame2, Hsame3. apply (reselected_same e); congruence. }
  intros [[] e4] (passed' & ? & ? & _). eauto.
Qed.

Lemma kill_handler_ok passed e s :
  executor_ok passed e → selection_ok e →
  onStateKill s e ⇓ λ '(_, e'), ∃ passed', executor_ok passed' e' ∧ selection_ok e'.
Proof.
  intros Hok Hsel. pose proof Hok as (Ht & Hs & Hf & Hk). unfold onStateKill.
  destruct (ll_segment e !! s) as [g|] eqn:Hg; [|by exists passed]. unfold ll_terminate.
  rewrite (bind_done _ _ _ g e) by (unfold ll_state_segment; by rewrite Hg). apply bind_yields.
  eapply yields_mono; [by apply (leaveState_ok passed e g s)|].
  intros [[] e2] ((Ht2 & Hs2 & Hf2) & Hsame2 & Hl2 & _).
  apply (same_tree_known _ _ Hsame2) in Hk as Hk2.
  eapply yields_mono; [apply (tryUpdate_ok passed e2); [done|]|].
  { destruct Hsame2. apply (reselected_same e); [done..|]. by apply selection_reselected. }
  intros [[] e4] (passed' & ? & ? & _). eauto.
Qed.

(** A state that is on no path can have its interrupts in any state. *)
Lemma set_apic_ok passed e s b :
  executor_ok passed e → ll_segment e !! s = None → executor_ok passed (set_apic s b e).
Proof.
  intros (Ht & Hs & Hf & Hk) Hl. split_and!; [split; apply Ht| |split; apply Hf|done].
  split; [apply Hs..|]. intros s' p Hp. cbn. rewrite lookup_insert_ne.
  - by apply (states_apic e Hs s' p).
  - intros ->. assert (s' ∈ states_of_path p e) as Hin by (change (states_of_path p e = {[s']}) in Hp; set_solver).
    apply (states_path e Hs) in Hin as (g & ? & _). congruence.
Qed.

Lemma clone_ok passed e s s' g :
  executor_ok passed e → selection_ok e → ll_segment e !! s = Some g → ll_segment e !! s' = None →
  ll_clone s s' e ⇓ λ '(_, e'), executor_ok passed e' ∧ selection_ok e' ∧
    ll_segment e' = <[s' := g]> (ll_segment e).
Proof.
  intros Hok Hsel Hg Hs'. unfold ll_clone.
  rewrite (bind_done _ _ _ g e) by (unfold ll_state_segment; by rewrite Hg).
  set (e0 := match apic e !! s with Some b => set_apic s' b e | None => e end).
  assert (executor_ok passed e0) as Hok0 by (unfold e0; case_match; [by apply set_apic_ok|done]).
  assert (segments e0 = segments e ∧ ll_segment e0 = ll_segment e ∧ selection_ok e0) as (Hseg0 & Hl0 & Hsel0).
  { unfold e0. by case_match. }
  rewrite (bind_done _ _ _ tt e0) by done. pose proof Hok0 as (Ht & Hs & Hf & Hk).
  eapply yields_mono; [apply (joinState_ok passed e0 g s'); try done|].
  { eapply ll_path; [done|]. by rewrite Hl0. }
  { eapply (ll_not_passed passed e0 Hf). by rewrite Hl0. }
  { by rewrite Hl0. }
  intros [[] e1] ((Ht1 & Hs1 & Hf1) & Hsame & Hl1 & Hst1).
  apply (same_tree_known _ _ Hsame) in Hk as Hk1. split_and!; [done| |by rewrite Hl1, Hl0].
  destruct Hsame. unfold selection_ok in *. rewrite same_selected0, same_hls0, same_target0, same_hl0.
  destruct (selected_state e0) as [h|]; [|done]. destruct Hsel0 as (? & ? & x & Hx & Hne).
  split_and!; [done..|]. exists x. split; [done|]. rewrite Hst1. case_decide; [set_solver|done].
Qed.

(** The loop skips the forked state. *)
Lemma fork_states_none s valid news e : others s news = [] → fork_states s valid news e = Done (tt, e).
Proof.
  induction news as [|s' news IH]; [done|]. rewrite others_cons. cbn [fork_states]. by case_step.
Qed.

Lemma fork_handler_ok passed e s news :
  executor_ok passed e → selection_ok e → (length (others s news) ≤ 1)%nat →
  (∀ s', s' ∈ news → s' ≠ s → ll_segment e !! s' = None) →
  onStateFork s news e ⇓ λ '(_, e'), executor_ok passed e' ∧ selection_ok e'.
Proof.
  intros Hok Hsel Hone. unfold onStateFork. destruct (ll_segment e !! s) as [g|] eqn:Hg; [|done].
  induction news as [|s' news IH]; intros Hnew; cbn [fork_states]; [done|]. rewrite others_cons in Hone.
  case_step; unbool; [apply IH; try done; intros; apply Hnew; set_solver|].
  rewrite (bind_done _ _ _ tt e) by done. rewrite (bind_done _ _ _ e e) by done.
  rewrite (bind_done _ _ _ tt e) by (rewrite bool_decide_true; [done|]; apply Hnew; set_solver).
  apply bind_yields. eapply yields_mono; [apply (clone_ok passed e s s' g); try done; apply Hnew; set_solver|].
  intros [[] e1] (Hok1 & Hsel1 & Hl1). rewrite fork_states_none; [done|]. apply length_zero_iff_nil.
  cbn in Hone. lia.
Qed.

(** A new root with its high-level state *)
Definition with_root e : Executor T :=
  alloc_hl (next_segment e) (alloc_segment (mkSegment 0 (path_id_counter e) None ∅ ∅) (alloc_path e)).

Section with_root.
Context (passed : gset nat) (e : Executor T) (Ht : tree_ok e) (Hs : states_ok e) (Hf : frontier_ok passed e).
Let e' := with_root e.

Lemma root_child x hlpc : child_of e' x hlpc = child_of e x hlpc.
Proof.
  rewrite (child_of_insert e e' (next_segment e) _ eq_refl). case_decide as Hx; [|done]. subst x.
  unfold child_of. rewrite no_segment_next by done. cbn. by rewrite lookup_empty.
Qed.

Lemma root_path x : path_of e' x = if decide (next_segment e = x) then Some (path_id_counter e) else path_of e x.
Proof. apply (path_of_insert e e' (next_segment e) _ eq_refl). Qed.

Lemma root_not_new x : is_Some (path_of e x) → next_segment e ≠ x.
Proof. intros Hx%(tree_bound e Ht). lia. Qed.

Lemma root_tree : tree_ok e'.
Proof.
  assert (∀ g hlpc c, child_of e g hlpc = Some c → path_of e' g = path_of e g ∧ path_of e' c = path_of e c) as Hsame.
  { intros g hlpc c Hc. pose proof (root_not_new _ (parent_path e _ _ _ Hc)) as Hg.
    destruct (tree_child e Ht _ _ _ Hc) as (Hp%root_not_new & _). by rewrite !root_path, !decide_False. }
  split.
  - intros x. rewrite root_path. case_decide; [subst; cbn; lia|]. intros ?%(tree_bound e Ht). cbn. lia.
  - intros g hlpc c. rewrite root_child. intros Hc. destruct (Hsame _ _ _ Hc) as [_ ->].
    by apply (tree_child e Ht).
  - intros *. rewrite !root_child. apply (tree_unique e Ht).
  - intros x p. rewrite root_path. case_decide; [intros [= <-]; cbn; lia|].
    intros ?%(tree_path e Ht). cbn. lia.
  - intros g hlpc c. rewrite root_child. intros Hc. destruct (tree_successor e Ht _ _ _ Hc) as (h1 & c1 & Hc1 & Hp1).
    exists h1, c1. rewrite root_child. destruct (Hsame _ _ _ Hc1) as [-> ->]. done.
  - intros g h1 c1 h2 c2. rewrite !root_child. intros Hc1 Hp1 Hc2 Hp2.
    destruct (Hsame _ _ _ Hc1) as [Hg Hpc1], (Hsame _ _ _ Hc2) as [_ Hpc2].
    apply (tree_successor_unique e Ht g h1 c1 h2 c2); congruence.
Qed.

Lemma root_states_at x : states_at e' x = states_at e x.
Proof.
  rewrite (states_at_insert e e' (next_segment e) _ eq_refl). case_decide as Hx; [|done]. subst x.
  unfold states_at. by rewrite no_segment_next by done.
Qed.

Lemma root_states : states_ok e'.
Proof.
  split.
  - intros s g. rewrite root_states_at. apply (states_segment e Hs).
  - intros s p. change (states_of_path p e') with (states_of_path p (alloc_path e)).
    rewrite alloc_path_states, (states_path e Hs) by done. cbn.
    split; intros (g & Hg & Hp); exists g; (split; [done|]);
      rewrite root_path, decide_False in *; try done; by eapply root_not_new, ll_path.
  - intros s p. change (states_of_path p e') with (states_of_path p (alloc_path e)).
    rewrite alloc_path_states by done. apply (states_apic e Hs).
Qed.

Lemma root_hl x g :
  x ∈ high_level_states e' → hl_segment e' !! x = Some g →
  x = next_hl e ∧ g = next_segment e ∨ x ≠ next_hl e ∧ x ∈ high_level_states e ∧ hl_segment e !! x = Some g.
Proof.
  cbn. rewrite lookup_insert_Some. intros Hx [[<- <-]|[Hne Hg]]; [by left|]. right. set_solver.
Qed.

Lemma root_frontier : frontier_ok passed e'.
Proof.
  assert (next_segment e ∉ passed) as Hnew by (intros ?%(passed_bound passed e Hf); lia).
  assert (∀ x g, x ∈ high_level_states e → hl_segment e !! x = Some g →
    (x < next_hl e)%nat ∧ parent_of e g = Some None ∧ g ∉ passed ∧ is_Some (path_of e g)) as Hlive.
  { intros x g Hx Hg. destruct (hl_live passed e Hf x Hx) as (? & g' & Hg' & Hpar & ?).
    assert (g' = g) as -> by congruence. split_and!; try done.
    unfold parent_of, path_of in *. destruct (segments e !! g); [by eexists|done]. }
  split.
  - intros x Hx. destruct (decide (x = next_hl e)) as [->|Hne].
    + split; [cbn; lia|]. exists (next_segment e). split_and!; [by cbn; rewrite lookup_insert_eq| |done].
      by rewrite (parent_of_insert e e' (next_segment e) _ eq_refl), decide_True.
    + assert (x ∈ high_level_states e) as Hx' by (cbn in Hx; set_solver).
      destruct (hl_live passed e Hf x Hx') as (Hlt & g & Hg & Hpar & Hgp). split; [cbn; lia|]. exists g.
      destruct (Hlive x g Hx' Hg) as (_ & _ & _ & ?%root_not_new).
      split_and!; [cbn; by rewrite lookup_insert_ne by done| |done].
      by rewrite (parent_of_insert e e' (next_segment e) _ eq_refl), decide_False.
  - intros x x' g Hx Hx' Hg Hg'.
    destruct (root_hl x g Hx Hg) as [[-> ->]|(? & Hxe & Hge)], (root_hl x' _ Hx' Hg') as [[-> ?]|(? & Hxe' & Hge')].
    + done.
    + by destruct (Hlive _ _ Hxe' Hge') as (_ & _ & _ & ?%root_not_new).
    + subst g. by destruct (Hlive _ _ Hxe Hge) as (_ & _ & _ & ?%root_not_new).
    + by eapply (hl_distinct passed e Hf).
  - intros g hlpc c. rewrite root_child. intros Hc Hor. apply (passed_above passed e Hf _ _ _ Hc).
    destruct Hor as [?|(x & Hx & Hxc)]; [by left|]. right.
    destruct (root_hl x c Hx Hxc) as [[-> ->]|(_ & ? & ?)]; [|by exists x].
    by destruct (tree_child e Ht _ _ _ Hc) as (?%root_not_new & _).
  - intros g. rewrite root_path. case_decide as Hg.
    + intros _ _. left. exists (next_hl e). subst g. cbn. rewrite lookup_insert_eq. split; [set_solver|done].
    + intros Hp Hgp. setoid_rewrite root_child.
      destruct (not_passed passed e Hf g Hp Hgp) as [(x & Hx & Hxg)|?]; [|by right]. left. exists x.
      destruct (Hlive _ _ Hx Hxg) as (? & _). cbn. rewrite lookup_insert_ne by lia. split; [set_solver|done].
  - intros s g Hg. by apply (ll_not_passed passed e Hf s).
  - intros g Hg%(passed_bound passed e Hf). cbn. lia.
Qed.
End with_root.

Lemma createState_ok passed e s :
  executor_ok passed e → ll_segment e !! s = None →
  createState s e ⇓ λ '(_, e'), executor_ok passed e' ∧ reselected e' ∧ is_Some (ll_segment e' !! s).
Proof.
  intros (Ht & Hs & Hf & Hk1 & Hk2) Hl. unfold createState.
  rewrite (bind_done _ _ _ (next_segment e)
    (alloc_segment (mkSegment 0 (path_id_counter e) None ∅ ∅) (alloc_path e))) by done.
  rewrite (bind_done _ _ _ (next_hl e) (with_root e)) by done. apply bind_yields.
  eapply yields_mono; [apply (joinState_ok passed (with_root e) (next_segment e) s)|].
  { by apply root_tree. } { by apply root_states. } { by apply root_frontier. }
  { rewrite root_path, decide_True by done. by eexists. }
  { intros ?%(passed_bound passed e Hf). lia. } { done. }
  intros [[] e1] ((Ht1 & Hs1 & Hf1) & Hsame & Hl1 & _). destruct Hsame. apply bind_yields.
  unfold ask_strategy. ystep. rewrite same_strategy0. cbn.
  eapply yields_mono; [apply (add_law None [next_hl e]); [done|done|apply NoDup_singleton|]|].
  { intros h ->%list_elem_of_singleton. rewrite Hk2. intros Hh. destruct (hl_live passed e Hf _ Hh). lia. }
  intros t [Ht2 Htr]. apply bind_yields.
  eapply yields_mono; [apply (reselect_ok passed)|].
  { apply (known_frontier passed e1); try done. split; cbn; [done|]. rewrite Htr, Hk2, same_hls0. cbn. set_solver. }
  intros [[] e3] (Hok3 & Hsel3 & _ & Hl3 & _ & _ & _). cbn. split_and!.
  - pose proof Hok3 as (? & ? & ? & ?). by apply (known_frontier passed e3).
  - by apply (reselected_same e3).
  - rewrite Hl3. cbn. rewrite Hl1, lookup_insert_eq. by eexists.
Qed.

(** Every operation keeps the invariant and the selection. *)
Lemma executor_op_ok passed e o :
  executor_ok passed e → selection_ok e → op_ok o e →
  run_executor_op o e ⇓ λ '(_, e'), ∃ passed', executor_ok passed' e' ∧ selection_ok e'.
Proof.
  intros Hok Hsel Ho. destruct o as [s hlpc|s news|s]; cbn in *.
  - destruct Ho as [Hz Hh]. unfold onHighLevelPCUpdate. apply bind_yields. unfold use_state.
    ystep; [by rewrite (proj2 (Z.eqb_neq s 0))|]. destruct (ll_segment e !! s) as [g|] eqn:Hg.
    + apply (ll_step_ok passed e s g); try done. by apply selection_reselected.
    + eapply yields_mono; [by apply (createState_ok passed)|].
      intros [[] e1] (Hok1 & Hsel1 & g & Hg1). by apply (ll_step_ok passed e1 s g).
  - destruct Ho. eapply yields_mono; [by apply (fork_handler_ok passed)|]. intros [[] e'] ?. by exists passed.
  - by apply (kill_handler_ok passed).
Qed.

Lemma empty_ok t : strategy_ok t → tracked t = ∅ → executor_ok ∅ (empty_executor t) ∧ selection_ok (empty_executor t).
Proof.
  intros Ht Htr. split; [|done]. split_and!; [| | |by split].
  - split; unfold child_of, path_of; cbn; intros *; rewrite ?lookup_empty; try done. by intros [? ?].
  - split; unfold states_at, states_of_path; cbn; intros *; rewrite ?lookup_empty; cbn; try set_solver.
  - split; unfold child_of, path_of; cbn; intros *; rewrite ?lookup_empty; try done; try set_solver.
Qed.

Lemma executor_reachable_ok t e :
  strategy_ok t → tracked t = ∅ → reachable t e → ∃ passed, executor_ok passed e ∧ selection_ok e.
Proof.
  intros Ht Htr. induction 1 as [|e o e' _ (passed & Hok & Hsel) Ho Hrun].
  - exists ∅. by apply empty_ok.
  - pose proof (executor_op_ok passed e o Hok Hsel Ho) as Hy. rewrite Hrun in Hy. done.
Qed.

(** A segment that is not passed is at or below a high-level state. *)
Lemma covered_ok passed e g :
  tree_ok e → frontier_ok passed e → is_Some (path_of e g) → g ∉ passed →
  ∃ h g0, h ∈ high_level_states e ∧ hl_segment e !! h = Some g0 ∧ below e g0 g.
Proof.
  intros Ht Hf. induction g as [g IH] using lt_wf_ind. intros Hg Hgp.
  destruct (not_passed passed e Hf g Hg Hgp) as [(h & Hh & Hhg)|(g' & hlpc & Hg' & Hc)].
  - exists h, g. split_and!; [done..|constructor].
  - destruct (tree_child e Ht _ _ _ Hc) as (_ & Hlt & _).
    destruct (IH g' Hlt) as (h & g0 & ? & ? & ?); [by eapply parent_path|done|].
    exists h, g0. split_and!; [done..|]. by econstructor.
Qed.

(** Two segments above the same one are on one path. *)
Lemma below_linear e g1 g2 g :
  tree_ok e → below e g1 g → below e g2 g → below e g1 g2 ∨ below e g2 g1.
Proof.
  intros Ht H1. revert g2. induction H1 as [|g hlpc c H1 IH Hc]; intros g2 H2; [by right|].
  inversion H2 as [|g' hlpc' c' H2' Hc']; subst; [left; by econstructor|].
  destruct (tree_unique e Ht _ _ _ _ _ Hc Hc') as [<- _]. by apply IH.
Qed.

(** No high-level state is below another one. *)
Lemma frontier_antichain passed e h h' g g' :
  frontier_ok passed e → h ∈ high_level_states e → h' ∈ high_level_states e →
  hl_segment e !! h = Some g → hl_segment e !! h' = Some g' → below e g g' → h = h'.
Proof.
  intros Hf Hh Hh' Hg Hg' Hb. destruct Hb as [|x hlpc c Hb Hc]; [by eapply (hl_distinct passed e Hf)|].
  exfalso. assert (x ∈ passed) as Hx by (eapply (passed_above passed e Hf); [done|right; by exists h']).
  assert (g ∈ passed) as Hgp.
  { clear Hc. induction Hb as [|y hlpc' x Hb IH Hc]; [done|]. apply IH. eapply (passed_above passed e Hf); [done|by left]. }
  destruct (hl_live passed e Hf h Hh) as (_ & g1 & Hg1 & _ & Hn). congruence.
Qed.

End Executor.

(** ** Properties *)

(** C5: the state of the executor.  As long as the HLPC of no step is 0, execution states
    are not [NULL] and a fork creates one new state, the segments form a forest in which
    exactly one child of an inner segment continues its path; the sets of low-level states
    of segments and paths agree with the states; every low-level state is at or below
    exactly one high-level state, and no high-level state is at or below another; the
    strategy knows the high-level states; and a low-level state that is alone on its path
    has its interrupts on. *)
Theorem executor_invariant {T} `{!HighLevelStrategy T, !HighLevelStrategyLaws T} (t : T) e :
  strategy_ok t → tracked t = ∅ → reachable t e →
  tree_ok e ∧ states_ok e ∧ known_ok e ∧
  (∀ s g, ll_segment e !! s = Some g →
    ∃ h g0, (h ∈ high_level_states e ∧ hl_segment e !! h = Some g0 ∧ below e g0 g) ∧
      ∀ h' g0', h' ∈ high_level_states e → hl_segment e !! h' = Some g0' → below e g0' g → h' = h) ∧
  (∀ h h' g g', h ∈ high_level_states e → h' ∈ high_level_states e →
    hl_segment e !! h = Some g → hl_segment e !! h' = Some g' → below e g g' → h = h').
Proof.
  intros Ht Htr Hr. destruct (executor_reachable_ok t e Ht Htr Hr) as (passed & (Htree & Hs & Hf & Hk) & _).
  split_and!; [done..| |].
  - intros s g Hg. destruct (covered_ok passed e g) as (h & g0 & Hh & Hg0 & Hb);
      [done..|by eapply ll_path|by eapply (ll_not_passed passed e Hf)|].
    exists h, g0. split; [done|]. intros h' g0' Hh' Hg0' Hb'.
    destruct (below_linear e g0 g0' g) as [?|?]; [done..| |].
    + symmetry. by eapply (frontier_antichain passed).
    + by eapply (frontier_antichain passed).
  - intros *. apply (frontier_antichain passed e _ _ _ _ Hf).
Qed.

(** C4: the executor makes progress on what it may be asked, see [op_ok].  In every state
    that such requests lead to, an update of the program counter of a state other than
    [NULL] to an HLPC other than 0, a fork into one new state or the end of a state is
    handled to the end: no assertion fails, and the search for a high-level state that has
    work terminates.  Afterwards the selected high-level state is the target of the
    low-level strategy and has a low-level state at its segment, which the sprout strategy
    returns; none is selected only when no high-level state is left.  An HLPC of 0 can
    make an assertion fail, see [hlpc_zero_fails]. *)
Theorem executor_progress {T} `{!HighLevelStrategy T, !HighLevelStrategyLaws T} (t : T) e o :
  strategy_ok t → tracked t = ∅ → reachable t e → op_ok o e →
  run_executor_op o e ⇓ λ '(_, e'), selection_ok e' ∧
    (selected_state e' ≠ None → ∃ s h g, selectLowLevelState e' = Done (Some s) ∧
      selected_state e' = Some h ∧ hl_segment e' !! h = Some g ∧ ll_segment e' !! s = Some g).
Proof.
  intros Ht Htr Hr Ho. destruct (executor_reachable_ok t e Ht Htr Hr) as (passed & Hok & Hsel).
  eapply yields_mono; [by apply (executor_op_ok passed)|].
  intros [[] e'] (passed' & (Htree & Hs & _) & Hsel'). split; [done|]. intros Hne.
  unfold selection_ok in Hsel'. destruct (selected_state e') as [h|]; [|done].
  destruct Hsel' as (Hh & Htarget & g & Hg & Hst). pose proof Hst as [s Hs']%set_choose_L.
  unfold selectLowLevelState. rewrite Htarget. unfold hl_state_segment. rewrite Hg. cbn.
  unfold get_segment. unfold states_at in Hst. destruct (segments e' !! g) as [seg|] eqn:Hseg; [|done]. cbn in *.
  destruct (elements (low_level_states seg)) as [|s1 l] eqn:Hel.
  { by apply elements_empty_inv, leibniz_equiv in Hel. }
  exists s1, h, g. split_and!; [done..|]. apply (states_segment e' Hs). unfold states_at. rewrite Hseg. cbn.
  apply elem_of_elements. rewrite Hel. by left.
Qed.

(** Interrupts.  A state that was alone on its path, and so has its interrupts on,
    keeps them on when it joins a path that several states share: only the states
    already there have them off. *)
Theorem joining_state_keeps_interrupts :
  ∃ e, run_executor crowded_path dfs_executor = Done (tt, e) ∧ states_of_path 1 e = {[2; 3; 4]} ∧
    apic e !! 2 = Some false ∧ apic e !! 4 = Some false ∧ apic e !! 3 = Some true.
Proof. eexists. split; [vm_compute; reflexivity|]. vm_compute. done. Qed.

(** A step to the HLPC 0 is taken for no step.  When the states of a segment go
    on to HLPC 0 and to another one, the executor does not find the child that
    continues the path, and an assertion fails. *)
Theorem hlpc_zero_fails :
  ∃ e, run_executor [PCUpdate 1 10; StateFork 1 [1; 2]; PCUpdate 1 0] dfs_executor = Done (tt, e) ∧
    run_executor_op (PCUpdate 2 30) e = AssertFailed.
Proof. eexists. split; [vm_compute; reflexivity|]. vm_compute. done. Qed.

(** ** Witnesses *)

(** The operations may be asked one after the other, and lead to [e']. *)
Fixpoint possible {T} `{!HighLevelStrategy T} (l : list ExecutorOp) (e e' : Executor T) : Prop :=
  match l with
  | [] => e' = e
  | o :: l => op_ok o e ∧ ∃ e1, run_executor_op o e = Done (tt, e1) ∧ possible l e1 e'
  end.

Lemma possible_reachable {T} `{!HighLevelStrategy T} (t : T) l e e' :
  reachable t e → possible l e e' → reachable t e'.
Proof.
  revert e. induction l as [|o l IH]; intros e He; [by intros ->|].
  intros (Ho & e1 & Hrun & Hl). eapply IH; [|done]. by econstructor.
Qed.

(** Two states part, so that one of them is on a path of its own, and a third one follows. *)
Definition forked_paths : list ExecutorOp :=
  [PCUpdate 1 10; StateFork 1 [1; 2]; StateFork 1 [1; 3]; PCUpdate 1 20; PCUpdate 2 30; PCUpdate 3 20].

Ltac solve_op_ok :=
  vm_compute; first
  [ split; discriminate
  | split; [lia|intros s' Hs' Hne; repeat (apply elem_of_cons in Hs' as [->|Hs']; [by vm_compute|]); by apply elem_of_nil in Hs'] ].

Lemma forked_paths_possible : ∃ e, possible forked_paths dfs_executor e.
Proof.
  eexists. repeat (split; [solve_op_ok|eexists; split; [vm_compute; reflexivity|]]). reflexivity.
Qed.

Lemma executor_invariant_witness :
  ∃ e, possible forked_paths dfs_executor e ∧ tree_ok e ∧ states_ok e ∧ known_ok e.
Proof.
  destruct forked_paths_possible as [e He]. exists e. split; [exact He|].
  destruct (executor_invariant (strategy dfs_executor) e) as (Ht & Hs & Hk & _).
  - exact empty_queue_ok.
  - reflexivity.
  - exact (possible_reachable _ _ _ _ (reach_start _) He).
  - exact (conj Ht (conj Hs Hk)).
Defined.

Lemma executor_progress_witness :
  ∃ e, possible forked_paths dfs_executor e ∧
    run_executor_op (PCUpdate 2 40) e ⇓ λ '(_, e'), selection_ok e' ∧
      (selected_state e' ≠ None → ∃ s h g, selectLowLevelState e' = Done (Some s) ∧
        selected_state e' = Some h ∧ hl_segment e' !! h = Some g ∧ ll_segment e' !! s = Some g).
Proof.
  destruct forked_paths_possible as [e He]. exists e. split; [exact He|].
  apply (executor_progress (strategy dfs_executor) e (PCUpdate 2 40)).
  - exact empty_queue_ok.
  - reflexivity.
  - exact (possible_reachable _ _ _ _ (reach_start _) He).
  - split; discriminate.
Defined.
