(* ===== verification/BitArray.v ===== *)
(** * Arrays of bits: [include/klee/util/BitArray.h]

    A bit array is a vector of 32-bit words.  It does not know its size; the
    callers pass it.  An array of [n] bits implements a list of [n] booleans.

    [isAllZeros] and [isAllOnes] read the word at [size/32], which is one past the
    end when the size is a multiple of 32; [beyond] is what they find there. *)

From stdpp Require Import prelude.
From S2P Require Import Prelude Bits.

Abbreviation BitArray := (list Z).

(** [1<<(idx&0x1F)], as a [uint32_t] *)
Definition bit_mask (idx : Z) : Z := u32 (Z.shiftl 1 (Z.land idx 0x1F)).

(** [length]; the sum is an [unsigned] *)
Definition words (size : Z) : Z := u32 (size + 31) / 32.

(** [BitArray(size, value)] *)
Definition new_BitArray (size : Z) (value : bool) : BitArray :=
  replicate (Z.to_nat (words size)) (if value then 0xFFFFFFFF else 0).

(** [BitArray(b, size)] *)
Definition copy_BitArray (b : BitArray) (size : Z) : outcome BitArray :=
  if (Z.to_nat (words size) <=? length b)%nat then Done (take (Z.to_nat (words size)) b)
  else AssertFailed.

(** [bits[i]] *)
Definition word (b : BitArray) (i : Z) : outcome Z :=
  match b !! Z.to_nat i with Some w => Done w | None => AssertFailed end.

Definition BitArray_get (b : BitArray) (idx : Z) : outcome bool :=
  w ← word b (idx / 32); Done (negb (Z.land (Z.shiftr w (Z.land idx 0x1F)) 1 =? 0)).

Definition update_word (b : BitArray) (idx : Z) (f : Z → Z) : outcome BitArray :=
  w ← word b (idx / 32); Done (<[Z.to_nat (idx / 32) := f w]> b).

Definition BitArray_set (b : BitArray) (idx : Z) : outcome BitArray :=
  update_word b idx (λ w, Z.lor w (bit_mask idx)).

Definition BitArray_unset (b : BitArray) (idx : Z) : outcome BitArray :=
  update_word b idx (λ w, Z.land w (u32 (Z.lnot (bit_mask idx)))).

Definition BitArray_set_value (b : BitArray) (idx : Z) (value : bool) : outcome BitArray :=
  if value then BitArray_set b idx else BitArray_unset b idx.

(** [(1 << (size&0x1F)) - 1] *)
Definition rest_mask (size : Z) : Z := u32 (bit_mask size - 1).

Definition last_word (beyond : Z) (b : BitArray) (size : Z) : Z :=
  default beyond (b !! Z.to_nat (size / 32)).

Definition isAllZeros (beyond : Z) (b : BitArray) (size : Z) : bool :=
  forallb (λ w, w =? 0) (take (Z.to_nat (size / 32)) b) &&
  (Z.land (last_word beyond b size) (rest_mask size) =? 0).

Definition isAllOnes (beyond : Z) (b : BitArray) (size : Z) : bool :=
  forallb (λ w, w =? 0xFFFFFFFF) (take (Z.to_nat (size / 32)) b) &&
  (Z.land (last_word beyond b size) (rest_mask size) =? rest_mask size).

(** ** Arrays as lists of booleans *)

(** [b] holds the bits [l]. *)
Definition holds (b : BitArray) (l : list bool) : Prop :=
  Z.of_nat (length l) + 31 < 2 ^ 32 ∧
  length b = Z.to_nat (words (Z.of_nat (length l))) ∧ Forall (bounded 32) b ∧
  ∀ i v, l !! i = Some v → ∃ w, b !! (i / 32)%nat = Some w ∧ Z.testbit w (Z.of_nat (i mod 32)) = v.

Section bit_lemmas.
Implicit Types (b : BitArray) (l : list bool) (i : nat) (n : Z).

Lemma low5 n : 0 ≤ n → Z.land n 0x1F = n mod 32.
Proof. intros. change 0x1F with (Z.ones 5). by rewrite Z.land_ones by lia. Qed.

Lemma index_parts i :
  Z.to_nat (Z.of_nat i / 32) = (i / 32)%nat ∧ Z.of_nat i mod 32 = Z.of_nat (i mod 32).
Proof. rewrite Nat2Z.inj_mod. split; [|done]. rewrite Z2Nat.inj_div by lia. by rewrite Nat2Z.id. Qed.

Lemma words_spec n : 0 ≤ n → n + 31 < 2 ^ 32 → words n = (n + 31) / 32.
Proof. intros. unfold words. by rewrite u32_small by lia. Qed.

Lemma bit_mask_spec i n :
  0 ≤ n → Z.testbit (bit_mask (Z.of_nat i)) n = bool_decide (n = Z.of_nat (i mod 32)).
Proof.
  intros Hn. unfold bit_mask. rewrite low5 by lia. destruct (index_parts i) as [_ ->].
  pose proof (Nat.mod_upper_bound i 32 ltac:(lia)).
  rewrite Z.shiftl_1_l, u32_small by (split; [apply Z.pow_nonneg; lia|apply Z.pow_lt_mono_r; lia]).
  case_bool_decide; [subst; apply Z.pow2_bits_true; lia|by apply Z.pow2_bits_false].
Qed.

Lemma in_words l i : (i < length l)%nat → Z.of_nat (length l) + 31 < 2 ^ 32 →
  (i / 32 < Z.to_nat (words (Z.of_nat (length l))))%nat.
Proof.
  intros Hi Hl. rewrite words_spec by lia. pose proof (Nat.div_mod i 32 ltac:(lia)).
  pose proof (Nat.mod_upper_bound i 32 ltac:(lia)).
  assert (Z.of_nat (i / 32) < (Z.of_nat (length l) + 31) / 32); [|lia].
  pose proof (Z.div_mod (Z.of_nat (length l) + 31) 32 ltac:(lia)).
  pose proof (Z.mod_pos_bound (Z.of_nat (length l) + 31) 32 ltac:(lia)). lia.
Qed.

Lemma word_spec b (i : nat) w : b !! (i / 32)%nat = Some w → word b (Z.of_nat i / 32) = Done w.
Proof. intros Hw. unfold word. destruct (index_parts i) as [-> _]. by rewrite Hw. Qed.

Lemma get_ok b l i v : holds b l → l !! i = Some v → BitArray_get b (Z.of_nat i) = Done v.
Proof.
  intros (_ & _ & _ & Hb) Hi. destruct (Hb i v Hi) as (w & Hw & <-). unfold BitArray_get.
  rewrite (word_spec _ _ w) by done. cbn. rewrite low5 by lia. destruct (index_parts i) as [_ ->].
  rewrite Z.testbit_odd. change 1 with (Z.ones 1). rewrite Z.land_ones, Z.pow_1_r, Zmod_odd by lia.
  by destruct (Z.odd _).
Qed.

Lemma new_ok (n : nat) v :
  Z.of_nat n + 31 < 2 ^ 32 → holds (new_BitArray (Z.of_nat n) v) (replicate n v).
Proof.
  intros Hn. split; [by rewrite length_replicate|]. rewrite length_replicate. unfold new_BitArray.
  rewrite length_replicate. split; [done|]. split; [by apply Forall_replicate; destruct v|].
  intros i v' [-> Hi]%lookup_replicate. exists (if v then 0xFFFFFFFF else 0). split.
  - apply lookup_replicate. split; [done|]. pose proof (in_words (replicate n v) i) as Hw.
    rewrite length_replicate in Hw. by apply Hw.
  - pose proof (Nat.mod_upper_bound i 32 ltac:(lia)). destruct v; [|apply Z.testbit_0_l].
    change 0xFFFFFFFF with (Z.ones 32). apply Z.ones_spec_low. lia.
Qed.

Lemma copy_ok b l : holds b l → copy_BitArray b (Z.of_nat (length l)) = Done b.
Proof.
  intros (_ & Hl & _). unfold copy_BitArray. rewrite <- Hl, Nat.leb_refl.
  by rewrite take_ge.
Qed.

(** Changing the bit [i] of its word. *)
Lemma update_ok b l (i : nat) v f :
  holds b l → (i < length l)%nat →
  (∀ w, w `bits` 32 → f w `bits` 32 ∧ ∀ n, 0 ≤ n < 32 →
    Z.testbit (f w) n = if bool_decide (n = Z.of_nat (i mod 32)) then v else Z.testbit w n) →
  update_word b (Z.of_nat i) f ⇓ λ b', holds b' (<[i := v]> l).
Proof.
  intros (Hn & Hlen & Hw & Hb) Hi Hf. destruct (lookup_lt_is_Some_2 l i Hi) as [v0 Hv0].
  destruct (Hb i v0 Hv0) as (w & Hwi & _). unfold update_word. rewrite (word_spec _ _ w) by done. cbn.
  destruct (index_parts i) as [-> _]. destruct (Hf w) as [Hfw Hft].
  { by apply (Forall_lookup_1 _ _ _ _ Hw Hwi). }
  split; [by rewrite length_insert|]. split; [by rewrite !length_insert|].
  split; [by apply Forall_insert|]. intros j v' Hj. pose proof (Nat.mod_upper_bound j 32 ltac:(lia)).
  assert (i = j ↔ i / 32 = j / 32 ∧ i mod 32 = j mod 32)%nat as Hij.
  { split; [by intros ->|]. intros [Hq Hr]. rewrite (Nat.div_mod i 32), (Nat.div_mod j 32) by lia. lia. }
  destruct (decide (i / 32 = j / 32)%nat) as [Hq|Hq].
  - rewrite <- Hq. exists (f w). rewrite list_lookup_insert_eq by (by apply lookup_lt_is_Some_1; eauto).
    split; [done|]. rewrite Hft by lia. apply list_lookup_insert_Some in Hj as [(-> & <- & _)|[Hne Hj]].
    + by rewrite bool_decide_eq_true_2.
    + destruct (Hb j v' Hj) as (w' & Hw' & <-). rewrite <- Hq, Hwi in Hw'. injection Hw' as ->.
      rewrite bool_decide_eq_false_2; [done|]. intros Heq%Nat2Z.inj. apply Hne, Hij. by split.
  - rewrite list_lookup_insert_ne by done. apply list_lookup_insert_Some in Hj as [(-> & _)|[_ Hj]]; [done|].
    by apply Hb.
Qed.

Lemma bit_mask_bounded i : bit_mask (Z.of_nat i) `bits` 32.
Proof. unfold bit_mask, u32. by apply bounded_mod. Qed.

Lemma set_ok b l (i : nat) :
  holds b l → (i < length l)%nat → BitArray_set b (Z.of_nat i) ⇓ λ b', holds b' (<[i := true]> l).
Proof.
  intros Hb Hi. apply update_ok; [done..|]. intros w Hw. split.
  - apply bounded_lor; [done..|apply bit_mask_bounded].
  - intros n Hn. rewrite Z.lor_spec, bit_mask_spec by lia. case_bool_decide; by rewrite ?orb_true_r, ?orb_false_r.
Qed.

Lemma unset_ok b l (i : nat) :
  holds b l → (i < length l)%nat → BitArray_unset b (Z.of_nat i) ⇓ λ b', holds b' (<[i := false]> l).
Proof.
  intros Hb Hi. apply update_ok; [done..|]. intros w Hw. split.
  - apply bounded_land; [done..|]. unfold u32. by apply bounded_mod.
  - intros n Hn. rewrite Z.land_spec. unfold u32. rewrite testbit_mod, Z.lnot_spec, bit_mask_spec by lia.
    repeat case_bool_decide; try lia; by rewrite ?andb_true_r, ?andb_false_r.
Qed.

Lemma rest_mask_spec (n : nat) : rest_mask (Z.of_nat n) = Z.ones (Z.of_nat (n mod 32)).
Proof.
  unfold rest_mask, bit_mask. rewrite low5 by lia. destruct (index_parts n) as [_ ->].
  pose proof (Nat.mod_upper_bound n 32 ltac:(lia)). rewrite Z.shiftl_1_l.
  assert (0 < 2 ^ Z.of_nat (n mod 32) < 2 ^ 32)
    by (split; [apply Z.pow_pos_nonneg; lia|apply Z.pow_lt_mono_r; lia]).
  rewrite (u32_small (2 ^ _)) by lia. rewrite u32_small by lia. by rewrite Z.ones_equiv, Z.sub_1_r.
Qed.

Lemma low_all (v : bool) w k :
  0 ≤ k → (Z.land w (Z.ones k) =? (if v then Z.ones k else 0)) = true ↔
    ∀ n, 0 ≤ n < k → Z.testbit w n = v.
Proof.
  intros Hk. rewrite Z.eqb_eq. split.
  - intros Hl n Hn. apply (f_equal (λ x, Z.testbit x n)) in Hl.
    rewrite Z.land_spec, Z.ones_spec_low, andb_true_r in Hl by lia. rewrite Hl.
    destruct v; [by apply Z.ones_spec_low|apply Z.testbit_0_l].
  - intros Hl. apply Z.bits_inj'. intros n Hn. rewrite Z.land_spec. destruct (decide (n < k)).
    + rewrite Hl, Z.ones_spec_low by lia. destruct v; [by rewrite Z.ones_spec_low by lia|by rewrite Z.testbit_0_l].
    + rewrite Z.ones_spec_high, andb_false_r by lia.
      destruct v; [by rewrite Z.ones_spec_high by lia|by rewrite Z.testbit_0_l].
Qed.

Lemma word_all (v : bool) w :
  w `bits` 32 → (w =? (if v then 0xFFFFFFFF else 0)) = true ↔ ∀ n, 0 ≤ n < 32 → Z.testbit w n = v.
Proof.
  intros Hw. rewrite <- (low_all v w 32) by lia. rewrite Z.land_ones by lia.
  by rewrite (bounded_small 32 w Hw).
Qed.

Lemma forallb_lookup {A} (f : A → bool) (l : list A) :
  forallb f l = true ↔ ∀ i x, l !! i = Some x → f x = true.
Proof.
  rewrite forallb_forall. split.
  - intros Hf i x Hi. by apply Hf, list_elem_of_In, (list_elem_of_lookup_2 _ i).
  - intros Hf x [i Hi]%list_elem_of_In%list_elem_of_lookup. by apply (Hf i).
Qed.

(** The scan of an array for one value, as both tests do it *)
Lemma scan_ok (v : bool) beyond b l :
  holds b l →
  forallb (λ w, w =? (if v then 0xFFFFFFFF else 0)) (take (Z.to_nat (Z.of_nat (length l) / 32)) b) &&
  (Z.land (last_word beyond b (Z.of_nat (length l))) (rest_mask (Z.of_nat (length l))) =?
    (if v then rest_mask (Z.of_nat (length l)) else 0)) = forallb (eqb v) l.
Proof.
  intros (Hn & Hlen & Hw & Hb). apply eq_true_iff_eq. rewrite andb_true_iff, !forallb_lookup.
  rewrite rest_mask_spec, low_all by lia. unfold last_word. destruct (index_parts (length l)) as [-> _].
  pose proof (Nat.div_mod (length l) 32 ltac:(lia)). pose proof (Nat.mod_upper_bound (length l) 32 ltac:(lia)).
  split.
  - intros [Hfull Hlast] i x Hi. destruct (Hb i x Hi) as (w & Hwi & <-). apply lookup_lt_Some in Hi.
    pose proof (Nat.div_mod i 32 ltac:(lia)). pose proof (Nat.mod_upper_bound i 32 ltac:(lia)).
    apply eqb_true_iff. symmetry. destruct (decide (i / 32 < length l / 32)%nat) as [Hlt|].
    + assert (w =? (if v then 0xFFFFFFFF else 0) = true) as Hall.
      { apply (Hfull (i / 32)%nat). by rewrite lookup_take_lt. }
      apply word_all with (n := Z.of_nat (i mod 32)) in Hall; [done| |lia].
      by apply (Forall_lookup_1 _ _ _ _ Hw Hwi).
    + assert (i / 32 = length l / 32)%nat as Hq by lia. rewrite <- Hq, Hwi in Hlast. apply Hlast. lia.
  - intros Hall.
    assert (∀ q r, (32 * q + r < length l)%nat → (r < 32)%nat → ∃ w, b !! q = Some w ∧ Z.testbit w (Z.of_nat r) = v)
      as Hbit.
    { intros q r Hlt Hr. destruct (lookup_lt_is_Some_2 l _ Hlt) as [x Hx].
      destruct (Hb _ x Hx) as (w & Hw' & Ht). specialize (Hall _ _ Hx). apply -> eqb_true_iff in Hall.
      rewrite Nat.mul_comm, Nat.div_add_l, Nat.div_small, Nat.add_0_r in Hw' by lia.
      rewrite Nat.add_comm, Nat.mul_comm, Nat.Div0.mod_add, Nat.mod_small in Ht by lia. exists w. split; [done|congruence]. }
    split.
    + intros q w Hq. apply lookup_take_Some in Hq as [Hq Hlt]. apply word_all.
      { by apply (Forall_lookup_1 _ _ _ _ Hw Hq). }
      intros n Hn'. destruct (Hbit q (Z.to_nat n)) as (w' & Hw' & Ht); [lia..|].
      rewrite Hq in Hw'. injection Hw' as ->. by rewrite Z2Nat.id in Ht by lia.
    + intros n Hn'. destruct (Hbit (length l / 32)%nat (Z.to_nat n)) as (w' & Hw' & Ht); [lia..|].
      rewrite Hw'. cbn. by rewrite Z2Nat.id in Ht by lia.
Qed.
End bit_lemmas.

(** ** Properties *)

(** A bit array of [n] bits implements a list of [n] booleans: the constructors,
    [get], [set], [unset], and the two tests, whose result does not depend on what
    they read past the end of the words. *)
Theorem bit_array_correct b l (i : nat) beyond :
  holds b l → (i < length l)%nat →
  BitArray_get b (Z.of_nat i) ⇓ (λ v, l !! i = Some v) ∧
  (∀ v, BitArray_set_value b (Z.of_nat i) v ⇓ λ b', holds b' (<[i := v]> l)) ∧
  copy_BitArray b (Z.of_nat (length l)) ⇓ (λ b', holds b' l) ∧
  (∀ v, holds (new_BitArray (Z.of_nat (length l)) v) (replicate (length l) v)) ∧
  isAllZeros beyond b (Z.of_nat (length l)) = forallb (eqb false) l ∧
  isAllOnes beyond b (Z.of_nat (length l)) = forallb (eqb true) l.
Proof.
  intros Hb Hi. destruct (lookup_lt_is_Some_2 l i Hi) as [v Hv]. split_and!.
  - by rewrite (get_ok b l i v).
  - intros []; [by apply set_ok|by apply unset_ok].
  - by rewrite (copy_ok b l).
  - intros. apply new_ok, Hb.
  - by apply (scan_ok false).
  - by apply (scan_ok true).
Qed.

(** The last bit of the first word, in an array of two words. *)
Lemma bit_array_correct_witness :
  BitArray_set_value (new_BitArray 40 false) 31 true = Done [0x80000000; 0] ∧
  isAllZeros 7 (new_BitArray 40 false) 40 = true ∧
  BitArray_set_value (new_BitArray 40 false) 31 true ⇓ λ b', holds b' (<[31%nat := true]> (replicate 40 false)).
Proof.
  split; [reflexivity|]. split; [reflexivity|].
  destruct (bit_array_correct (new_BitArray 40 false) (replicate 40 false) 31 7) as (_ & Hset & _).
  - by apply (new_ok 40 false).
  - cbn. lia.
  - apply (Hset true).
Defined.
