(* ===== verification/ObjectState.v ===== *)
(** * Memory objects: [include/klee/Memory.h], [lib/Core/Memory.cpp]

    An object of memory keeps each byte in up to three places: the concrete store,
    a cached expression, and an update list on an array.  Two masks say which of
    them are valid.  Reads and writes at symbolic offsets go through the update
    list and flush the caches first.

    The update list of an object whose root array does not exist yet has a null
    root; [getUpdates] makes a constant array of it when it is first needed.  A
    shared object lives in the memory of the host process.  An access past the end
    of a C array is an outcome [AssertFailed]. *)

From stdpp Require Import prelude gmap strings.
From S2P Require Import Prelude Bitvec Bits APInt ExprData ExprConstants ExprCasts ExprBinary.
From S2P Require Import ExprBinaryProofs ExprSelectRead BitArray.

(** [class Context] *)
Class Context : Type := { isLittleEndian : bool; getPointerWidth : Z }.

(** [cl::opt UseConstantArrays] *)
Class MemoryOptions : Type := { UseConstantArrays : bool }.

(** The address that [new Array("const_arr" + id, size, contents)] returns.  The
    arrays that are ever made are in the store. *)
Class ArrayAlloc : Type := new_Array : Z → Z → list ConstantExpr → Array.

(** The array at that address is the one that was asked for. *)
Class ArrayAllocLaws `{ArrayStore} `{ArrayAlloc} : Prop := new_Array_spec id size contents :
  wf_array (mkArray String.EmptyString size contents) →
  array_size (deref (new_Array id size contents)) = size ∧
  constantValues (deref (new_Array id size contents)) = contents.

(** [class MemoryObject] *)
Record MemoryObject : Set := mkMemoryObject {
  address : Z;
  mo_size : Z;
  isUserSpecified : bool;
  isSharedConcrete : bool;
}.

(** [class ObjectState]; [root] and [head] are the update list. *)
Record ObjectState : Set := mkObjectState {
  concreteMask : option BitArray;
  copyOnWriteOwner : Z;
  object : MemoryObject;
  concreteStore : list Z;
  flushMask : option BitArray;
  knownSymbolics : option (list (option Expr));
  root : option Array;
  head : UpdateNode;
  os_size : Z;
  readOnly : bool;
}.

Definition set_concreteMask (m : option BitArray) (os : ObjectState) : ObjectState :=
  mkObjectState m (copyOnWriteOwner os) (object os) (concreteStore os) (flushMask os)
    (knownSymbolics os) (root os) (head os) (os_size os) (readOnly os).
Definition set_copyOnWriteOwner (o : Z) (os : ObjectState) : ObjectState :=
  mkObjectState (concreteMask os) o (object os) (concreteStore os) (flushMask os)
    (knownSymbolics os) (root os) (head os) (os_size os) (readOnly os).
Definition set_concreteStore (l : list Z) (os : ObjectState) : ObjectState :=
  mkObjectState (concreteMask os) (copyOnWriteOwner os) (object os) l (flushMask os)
    (knownSymbolics os) (root os) (head os) (os_size os) (readOnly os).
Definition set_flushMask (m : option BitArray) (os : ObjectState) : ObjectState :=
  mkObjectState (concreteMask os) (copyOnWriteOwner os) (object os) (concreteStore os) m
    (knownSymbolics os) (root os) (head os) (os_size os) (readOnly os).
Definition set_knownSymbolics (l : option (list (option Expr))) (os : ObjectState) : ObjectState :=
  mkObjectState (concreteMask os) (copyOnWriteOwner os) (object os) (concreteStore os) (flushMask os)
    l (root os) (head os) (os_size os) (readOnly os).
Definition set_updates (r : option Array) (un : UpdateNode) (os : ObjectState) : ObjectState :=
  mkObjectState (concreteMask os) (copyOnWriteOwner os) (object os) (concreteStore os) (flushMask os)
    (knownSymbolics os) r un (os_size os) (readOnly os).

(** The object with the memory of the host and the number of constant arrays made
    so far, a static counter of [getUpdates] *)
Record Memory : Set := mkMemory {
  this : ObjectState;
  host : gmap Z Z;
  const_arrays : Z;
}.

Definition set_this (os : ObjectState) (m : Memory) : Memory :=
  mkMemory os (host m) (const_arrays m).

Definition get_this : M Memory ObjectState := λ m, Done (this m, m).
Definition put_this (os : ObjectState) : M Memory unit := λ m, Done (tt, set_this os m).

(** [f] changes the object or fails. *)
Definition change (f : ObjectState → outcome ObjectState) : M Memory unit :=
  os ← get_this; os' ← lift (f os); put_this os'.

(** [a[i]] and [a[i] = x] for a C array *)
Definition at_index {A} (l : list A) (i : Z) : outcome A :=
  match l !! Z.to_nat i with Some x => Done x | None => AssertFailed end.

Definition set_index {A} (l : list A) (i : Z) (x : A) : outcome (list A) :=
  if (Z.to_nat i <? length l)%nat then Done (<[Z.to_nat i := x]> l) else AssertFailed.

(** ** The masks *)

Definition isByteConcrete (os : ObjectState) (offset : Z) : outcome bool :=
  match concreteMask os with None => Done true | Some b => BitArray_get b offset end.

Definition isByteFlushed (os : ObjectState) (offset : Z) : outcome bool :=
  match flushMask os with None => Done false | Some b => g ← BitArray_get b offset; Done (negb g) end.

(** [knownSymbolics[offset].get()] *)
Definition known_at (os : ObjectState) (offset : Z) : option Expr :=
  knownSymbolics os ≫= λ l, mjoin (l !! Z.to_nat offset).

Definition isByteKnownSymbolic (os : ObjectState) (offset : Z) : outcome bool :=
  match knownSymbolics os with
  | None => Done false
  | Some l => e ← at_index l offset; Done (bool_decide (is_Some e))
  end.

Definition markByteConcrete (offset : Z) (os : ObjectState) : outcome ObjectState :=
  match concreteMask os with
  | None => Done os
  | Some b => b ← BitArray_set b offset; Done (set_concreteMask (Some b) os)
  end.

Definition markByteSymbolic (offset : Z) (os : ObjectState) : outcome ObjectState :=
  b ← BitArray_unset (default (new_BitArray (os_size os) true) (concreteMask os)) offset;
  Done (set_concreteMask (Some b) os).

Definition markByteFlushed (offset : Z) (os : ObjectState) : outcome ObjectState :=
  match flushMask os with
  | None => Done (set_flushMask (Some (new_BitArray (os_size os) false)) os)
  | Some b => b ← BitArray_unset b offset; Done (set_flushMask (Some b) os)
  end.

Definition markByteUnflushed (offset : Z) (os : ObjectState) : outcome ObjectState :=
  match flushMask os with
  | None => Done os
  | Some b => b ← BitArray_set b offset; Done (set_flushMask (Some b) os)
  end.

Definition setKnownSymbolic (offset : Z) (value : option Expr) (os : ObjectState) :
    outcome ObjectState :=
  match knownSymbolics os, value with
  | Some l, _ => l ← set_index l offset value; Done (set_knownSymbolics (Some l) os)
  | None, Some _ =>
      l ← set_index (replicate (Z.to_nat (os_size os)) None) offset value;
      Done (set_knownSymbolics (Some l) os)
  | None, None => Done os
  end.

Definition isAllConcrete (beyond : Z) (os : ObjectState) : bool :=
  match concreteMask os with None => true | Some b => isAllOnes beyond b (os_size os) end.

Definition getConcreteStore (beyond : Z) (allowSymbolic : bool) (os : ObjectState) :
    option (list Z) :=
  if negb allowSymbolic && negb (isAllConcrete beyond os) then None else Some (concreteStore os).

(** [Expr::getMinBytesForWidth] *)
Definition getMinBytesForWidth (w : Z) : Z := u32 (w + 7) / 8.

Fixpoint concrete_loop (os : ObjectState) (offset : Z) (n : nat) (i : Z) : outcome bool :=
  match n with
  | O => Done true
  | S n =>
      c ← isByteConcrete os (u32 (offset + i));
      if (c : bool) then concrete_loop os offset n (i + 1) else Done false
  end.

Definition isConcrete (os : ObjectState) (offset width : Z) : outcome bool :=
  match concreteMask os with
  | None => Done true
  | Some _ => concrete_loop os offset (Z.to_nat (getMinBytesForWidth width)) 0
  end.

(** ** Construction *)

Section objects.
Context `{APIntOps} `{ArrayStore} `{ObjectIdentity} `{Options}.
Context `{Context} `{MemoryOptions} `{ArrayAlloc}.

(** [makeConcrete]; [makeSymbolic], with its loop over the bytes [i], [i + 1], ... *)
Definition makeConcrete (os : ObjectState) : ObjectState :=
  set_knownSymbolics None (set_flushMask None (set_concreteMask None os)).

Fixpoint symbolic_loop (n : nat) (i : Z) (os : ObjectState) : outcome ObjectState :=
  match n with
  | O => Done os
  | S n =>
      os ← markByteSymbolic i os;
      os ← setKnownSymbolic i None os;
      os ← markByteFlushed i os;
      symbolic_loop n (i + 1) os
  end.

Definition makeSymbolic (os : ObjectState) : outcome ObjectState :=
  _ ← cassert (if head os is NullNode then true else false);
  symbolic_loop (Z.to_nat (os_size os)) 0 os.

Definition initializeToZero (os : ObjectState) : ObjectState :=
  set_concreteStore (replicate (Z.to_nat (os_size os)) 0) (makeConcrete os).

Definition initializeToRandom (os : ObjectState) : ObjectState :=
  set_concreteStore (replicate (Z.to_nat (os_size os)) 0xAB) (makeConcrete os).

(** [ObjectState(mo)]; [uninit] is what the new store holds.  [tmp_arr] is the id of
    the array that is made without [-use-constant-arrays]. *)
Definition new_ObjectState (mo : MemoryObject) (uninit : list Z) (tmp_arr : Z) : ObjectState :=
  mkObjectState None 0 mo uninit None None
    (if UseConstantArrays then None else Some (new_Array tmp_arr (mo_size mo) []))
    NullNode (mo_size mo) false.

(** [ObjectState(mo, array)] *)
Definition new_ObjectState_array (mo : MemoryObject) (array : Array) (uninit : list Z) :
    outcome ObjectState :=
  makeSymbolic (mkObjectState None 0 mo uninit None None (Some array) NullNode (mo_size mo) false).

(** [ObjectState(os)] *)
Definition copy_mask (m : option BitArray) (size : Z) : outcome (option BitArray) :=
  match m with None => Done None | Some b => b ← copy_BitArray b size; Done (Some b) end.

Definition copy_ObjectState (os : ObjectState) : outcome ObjectState :=
  _ ← cassert (negb (readOnly os));
  concrete ← copy_mask (concreteMask os) (os_size os);
  flush ← copy_mask (flushMask os) (os_size os);
  Done (mkObjectState concrete 0 (object os) (concreteStore os) flush (knownSymbolics os)
    (root os) (head os) (os_size os) false).

(** ** The update list *)

(** [updates.extend] *)
Definition extend (index value : Expr) (os : ObjectState) : outcome ObjectState :=
  _ ← cassert (getWidth value =? Int8);
  Done (set_updates (root os) (Node (head os) index value) os).

(** The writes of a list, the newest first *)
Fixpoint node_writes (un : UpdateNode) : list (Expr * Expr) :=
  match un with NullNode => [] | Node next index value => (index, value) :: node_writes next end.

(** The loop that pushes concrete writes into the constant array, and what is left *)
Fixpoint pull_writes (Writes : list (Expr * Expr)) (Contents : list ConstantExpr) :
    outcome (list ConstantExpr * list (Expr * Expr)) :=
  match Writes with
  | (Constant Index, Constant Value) :: rest =>
      i ← getZExtValue Index 64;
      Contents ← set_index Contents i Value;
      pull_writes rest Contents
  | _ => Done (Contents, Writes)
  end.

Fixpoint extend_all (Writes : list (Expr * Expr)) (os : ObjectState) : outcome ObjectState :=
  match Writes with
  | [] => Done os
  | (index, value) :: rest => os ← extend index value os; extend_all rest os
  end.

(** [getUpdates] *)
Definition getUpdates : M Memory UpdateList := λ m,
  match root (this m) with
  | Some r => Done (mkUpdateList r (head (this m)), m)
  | None =>
      let os := this m in
      zero ← ConstantExpr_create 0 Int8;
      '(Contents, rest) ← pull_writes (reverse (node_writes (head os)))
        (replicate (Z.to_nat (os_size os)) zero);
      let id := const_arrays m + 1 in
      let array := new_Array id (os_size os) Contents in
      os ← extend_all rest (set_updates (Some array) NullNode os);
      Done (mkUpdateList array (head os), mkMemory os (host m) id)
  end.

(** [flushRangeForRead] and [flushRangeForWrite]: the loop over the offsets, and one
    step of it *)
Definition flush_byte (offset : Z) (os : ObjectState) : outcome ObjectState :=
  index ← create_constant offset Int32;
  concrete ← isByteConcrete os offset;
  value ← (if (concrete : bool) then b ← at_index (concreteStore os) offset; create_constant b Int8
    else
      known ← isByteKnownSymbolic os offset;
      _ ← cassert known;
      match known_at os offset with Some e => Done e | None => AssertFailed end);
  extend index value os.

Definition unset_flush (offset : Z) (os : ObjectState) : outcome ObjectState :=
  match flushMask os with
  | None => AssertFailed
  | Some b => b ← BitArray_unset b offset; Done (set_flushMask (Some b) os)
  end.

Definition read_flush_step (offset : Z) (os : ObjectState) : outcome ObjectState :=
  flushed ← isByteFlushed os offset;
  if (flushed : bool) then Done os
  else os ← flush_byte offset os; unset_flush offset os.

(** The byte loses its cached value. *)
Definition drop_cache (offset : Z) (os : ObjectState) : outcome ObjectState :=
  concrete ← isByteConcrete os offset;
  if (concrete : bool) then markByteSymbolic offset os
  else
    known ← isByteKnownSymbolic os offset;
    if (known : bool) then setKnownSymbolic offset None os else Done os.

Definition write_flush_step (offset : Z) (os : ObjectState) : outcome ObjectState :=
  flushed ← isByteFlushed os offset;
  if (flushed : bool) then drop_cache offset os
  else
    os ← flush_byte offset os;
    os ← drop_cache offset os;
    unset_flush offset os.

Fixpoint flush_loop (step : Z → ObjectState → outcome ObjectState) (n : nat) (offset : Z)
    (os : ObjectState) : outcome ObjectState :=
  match n with
  | O => Done os
  | S n => os ← step offset os; flush_loop step n (offset + 1) os
  end.

Definition flush_range (step : Z → ObjectState → outcome ObjectState)
    (rangeBase rangeSize : Z) (os : ObjectState) : outcome ObjectState :=
  let mask := default (new_BitArray (os_size os) true) (flushMask os) in
  flush_loop step (Z.to_nat rangeSize) rangeBase (set_flushMask (Some mask) os).

Definition flushRangeForRead := flush_range read_flush_step.
Definition flushRangeForWrite := flush_range write_flush_step.

(** [fastRangeCheckOffset]: the base and the size of the range *)
Definition fastRangeCheckOffset (offset : Expr) (os : ObjectState) : Z * Z := (0, os_size os).

(** ** Bytes *)

(** The byte at an offset from the address of the object, in the host process *)
Definition host_read (offset : Z) : M Memory Z := λ m,
  match host m !! (address (object (this m)) + offset) with
  | Some v => Done (v, m)
  | None => AssertFailed
  end.

Definition host_write (offset value : Z) : M Memory unit := λ m,
  let a := address (object (this m)) + offset in
  match host m !! a with
  | Some _ => Done (tt, mkMemory (this m) (<[a := value]> (host m)) (const_arrays m))
  | None => AssertFailed
  end.

(** [read8(unsigned)] *)
Definition read8 (offset : Z) : M Memory Expr :=
  os ← get_this;
  if isSharedConcrete (object os) then v ← host_read offset; lift (create_constant v Int8)
  else
    concrete ← lift (isByteConcrete os offset);
    if (concrete : bool) then lift (v ← at_index (concreteStore os) offset; create_constant v Int8)
    else
      match known_at os offset with
      | Some e => mret e
      | None =>
          flushed ← lift (isByteFlushed os offset);
          _ ← lift (cassert flushed);
          updates ← getUpdates;
          index ← lift (create_constant offset Int32);
          lift (ReadExpr_create updates index)
      end.

(** [read8(ref<Expr>)] *)
Definition read8_at (offset : Expr) : M Memory Expr :=
  _ ← lift (cassert (negb (isConstant offset)));
  os ← get_this;
  _ ← lift (cassert (negb (isSharedConcrete (object os))));
  let '(base, size) := fastRangeCheckOffset offset os in
  _ ← change (flushRangeForRead base size);
  updates ← getUpdates;
  index ← lift (ZExtExpr_create offset Int32);
  lift (ReadExpr_create updates index).

(** [write8(unsigned, uint8_t)] *)
Definition write8 (offset value : Z) : M Memory unit :=
  os ← get_this;
  if isSharedConcrete (object os) then host_write offset value
  else change (λ os,
    store ← set_index (concreteStore os) offset value;
    os ← setKnownSymbolic offset None (set_concreteStore store os);
    os ← markByteConcrete offset os;
    markByteUnflushed offset os).

(** [write8(unsigned, ref<Expr>)] *)
Definition write8_expr (offset : Z) (value : Expr) : M Memory unit :=
  match value with
  | Constant CE => v ← lift (getZExtValue CE 8); write8 offset (v mod 256)
  | _ =>
      os ← get_this;
      _ ← lift (cassert (negb (isSharedConcrete (object os))));
      change (λ os,
        os ← setKnownSymbolic offset (Some value) os;
        os ← markByteSymbolic offset os;
        markByteUnflushed offset os)
  end.

(** [write8(ref<Expr>, ref<Expr>)] *)
Definition write8_at (offset value : Expr) : M Memory unit :=
  _ ← lift (cassert (negb (isConstant offset)));
  os ← get_this;
  _ ← lift (cassert (negb (isSharedConcrete (object os))));
  let '(base, size) := fastRangeCheckOffset offset os in
  _ ← change (flushRangeForWrite base size);
  index ← lift (ZExtExpr_create offset Int32);
  change (extend index value).

(** ** Words *)

(** [Context::get().isLittleEndian() ? i : (NumBytes - i - 1)] *)
Definition byte_index (NumBytes i : Z) : Z := if isLittleEndian then i else NumBytes - i - 1.

(** The loop of [read]; a null [Res] is [None]. *)
Fixpoint read_loop (rd : Z → M Memory Expr) (NumBytes : Z) (n : nat) (i : Z) (Res : option Expr) :
    M Memory (option Expr) :=
  match n with
  | O => mret Res
  | S n =>
      let idx := byte_index NumBytes i in
      Byte ← rd idx;
      Res ← (if idx =? 0 then mret (Some Byte)
        else match Res with
        | Some r => c ← lift (ConcatExpr_create Byte r); mret (Some c)
        | None => lift AssertFailed
        end);
      read_loop rd NumBytes n (i + 1) Res
  end.

Definition read_bytes (rd : Z → M Memory Expr) (width : Z) : M Memory Expr :=
  if width =? Bool then b ← rd 0; lift (ExtractExpr_create b 0 Bool)
  else
    let NumBytes := width / 8 in
    _ ← lift (cassert (width =? NumBytes * 8));
    Res ← read_loop rd NumBytes (Z.to_nat NumBytes) 0 None;
    lift (match Res with Some r => Done r | None => AssertFailed end).

(** [read(unsigned, Width)] *)
Definition read (offset width : Z) : M Memory Expr :=
  read_bytes (λ idx, read8 (u32 (offset + idx))) width.

(** [read(ref<Expr>, Width)] *)
Definition read_at (offset : Expr) (width : Z) : M Memory Expr :=
  offset ← lift (ZExtExpr_create offset Int32);
  match offset with
  | Constant CE => v ← lift (getZExtValue CE 32); read (u32 v) width
  | _ =>
      if width =? Bool then b ← read8_at offset; lift (ExtractExpr_create b 0 Bool)
      else read_bytes (λ idx,
        i ← lift (create_constant idx Int32);
        o ← lift (core_create Add offset i);
        read8_at o) width
  end.

(** [write16], [write32] and [write64] *)
Fixpoint write_const_loop (offset value NumBytes : Z) (n : nat) (i : Z) : M Memory unit :=
  match n with
  | O => mret tt
  | S n =>
      _ ← write8 (u32 (offset + byte_index NumBytes i)) (Z.shiftr value (8 * i) mod 256);
      write_const_loop offset value NumBytes n (i + 1)
  end.

Definition write_const (NumBytes offset value : Z) : M Memory unit :=
  write_const_loop offset value NumBytes (Z.to_nat NumBytes) 0.

Definition write16 := write_const 2.
Definition write32 := write_const 4.
Definition write64 := write_const 8.

(** The general case of [write] *)
Fixpoint write_loop (wr : Z → Expr → M Memory unit) (value : Expr) (NumBytes : Z) (n : nat) (i : Z) :
    M Memory unit :=
  match n with
  | O => mret tt
  | S n =>
      byte ← lift (ExtractExpr_create value (8 * i) Int8);
      _ ← wr (byte_index NumBytes i) byte;
      write_loop wr value NumBytes n (i + 1)
  end.

Definition write_bytes (wr : Z → Expr → M Memory unit) (value : Expr) : M Memory unit :=
  let w := getWidth value in
  if w =? Bool then b ← lift (ZExtExpr_create value Int8); wr 0 b
  else
    let NumBytes := w / 8 in
    _ ← lift (cassert (w =? NumBytes * 8));
    write_loop wr value NumBytes (Z.to_nat NumBytes) 0.

(** [write(unsigned, ref<Expr>)]; a constant of more than 64 bits goes the general
    way, as its own width check lets it. *)
Definition write (offset : Z) (value : Expr) : M Memory unit :=
  match value with
  | Constant CE =>
      if cwidth CE <=? 64 then
        val ← lift (getZExtValue CE 64);
        let w := cwidth CE in
        if (w =? Bool) || (w =? Int8) then write8 offset (val mod 2 ^ 8)
        else if w =? Int16 then write16 offset (val mod 2 ^ 16)
        else if w =? Int32 then write32 offset (val mod 2 ^ 32)
        else if w =? Int64 then write64 offset val
        else lift AssertFailed
      else write_bytes (λ idx b, write8_expr (u32 (offset + idx)) b) value
  | _ => write_bytes (λ idx b, write8_expr (u32 (offset + idx)) b) value
  end.

(** [write(ref<Expr>, ref<Expr>)] *)
Definition write_at (offset value : Expr) : M Memory unit :=
  offset ← lift (ZExtExpr_create offset Int32);
  match offset with
  | Constant CE => v ← lift (getZExtValue CE 32); write (u32 v) value
  | _ =>
      if getWidth value =? Bool then b ← lift (ZExtExpr_create value Int8); write8_at offset b
      else write_bytes (λ idx b,
        i ← lift (create_constant idx Int32);
        o ← lift (core_create Add offset i);
        write8_at o b) value
  end.

(** [readConcrete8]: the value, if the byte is concrete *)
Definition readConcrete8 (offset : Z) : M Memory (option Z) :=
  os ← get_this;
  if isSharedConcrete (object os) then v ← host_read offset; mret (Some v)
  else
    concrete ← lift (isByteConcrete os offset);
    if (concrete : bool) then v ← lift (at_index (concreteStore os) offset); mret (Some v)
    else mret None.

(** Sequences of accesses, with the expressions that the reads return *)
Inductive MemoryOp : Set :=
| OpRead (offset : Expr) (width : Z)
| OpWrite (offset value : Expr).

Fixpoint run_memory_ops (ops : list MemoryOp) : M Memory (list Expr) :=
  match ops with
  | [] => mret []
  | OpRead offset width :: ops =>
      e ← read_at offset width; es ← run_memory_ops ops; mret (e :: es)
  | OpWrite offset value :: ops => _ ← write_at offset value; run_memory_ops ops
  end.
End objects.
