(* ===== verification/ObjectStateProofs.v ===== *)
(** * Memory objects implement byte arrays

    Whatever the caches of an object hold, its reads return the bytes that the
    writes before them left, under every assignment of the symbolic arrays. *)

From stdpp Require Import prelude gmap.
From S2P Require Import Prelude Bitvec Bits APInt ExprData ExprConstants ExprCasts ExprBinary.
From S2P Require Import ExprBinaryProofs ExprSelectRead BitArray ObjectState.

(** ** Masks *)

(** The bit [i] of a mask *)
Definition bit (b : BitArray) (i : nat) : bool :=
  match b !! (i / 32)%nat with Some w => Z.testbit w (Z.of_nat (i mod 32)) | None => false end.

Definition mask_ok (n : nat) (b : BitArray) : Prop := holds b (bit b <$> seq 0 n).

Section masks.
Implicit Types (b : BitArray) (i j n : nat).

Lemma bits_lookup b n i : (i < n)%nat → (bit b <$> seq 0 n) !! i = Some (bit b i).
Proof. intros. by rewrite list_lookup_fmap, lookup_seq_lt by done. Qed.

Lemma holds_bits b l : holds b l → l = bit b <$> seq 0 (length l).
Proof.
  intros (_ & _ & _ & Hb). apply list_eq. intros i. destruct (l !! i) as [v|] eqn:E.
  - rewrite bits_lookup by (by apply lookup_lt_Some in E). unfold bit.
    by destruct (Hb i v E) as (w & -> & ->).
  - symmetry. apply lookup_ge_None. rewrite length_fmap, length_seq. by apply lookup_ge_None.
Qed.

Lemma holds_mask_ok b l n : holds b l → length l = n → mask_ok n b ∧ ∀ i v, l !! i = Some v → bit b i = v.
Proof.
  intros Hb <-. pose proof (holds_bits b l Hb) as Hl. split; [by rewrite Hl in Hb at 1|].
  intros i v Hi. pose proof (lookup_lt_Some _ _ _ Hi). rewrite Hl, bits_lookup in Hi by done.
  by injection Hi.
Qed.

Lemma mask_get n b i : mask_ok n b → (i < n)%nat → BitArray_get b (Z.of_nat i) = Done (bit b i).
Proof. intros Hb Hi. apply (get_ok b _ i _ Hb). by apply bits_lookup. Qed.

Lemma mask_new n v :
  Z.of_nat n + 31 < 2 ^ 32 →
  mask_ok n (new_BitArray (Z.of_nat n) v) ∧
  ∀ i, (i < n)%nat → bit (new_BitArray (Z.of_nat n) v) i = v.
Proof.
  intros Hn. destruct (holds_mask_ok _ _ n (new_ok n v Hn)) as [? Hb]; [by rewrite length_replicate|].
  split; [done|]. intros i Hi. apply Hb. by apply lookup_replicate.
Qed.

(** [b'] is [b] with the bit [i] set to [v]. *)
Definition flipped n b i v b' : Prop :=
  mask_ok n b' ∧ ∀ j, (j < n)%nat → bit b' j = if decide (j = i) then v else bit b j.

Lemma mask_insert n b i v b' :
  (i < n)%nat → holds b' (<[i := v]> (bit b <$> seq 0 n)) → flipped n b i v b'.
Proof.
  intros Hi Hb'. destruct (holds_mask_ok _ _ n Hb') as [Hok Hbit].
  { by rewrite length_insert, length_fmap, length_seq. }
  split; [done|]. intros j Hj. apply Hbit. case_decide; subst.
  - apply list_lookup_insert_eq. by rewrite length_fmap, length_seq.
  - rewrite list_lookup_insert_ne by done. by apply bits_lookup.
Qed.

Lemma mask_set n b i :
  mask_ok n b → (i < n)%nat → BitArray_set b (Z.of_nat i) ⇓ flipped n b i true.
Proof.
  intros Hb Hi. eapply yields_mono; [apply (set_ok _ _ i Hb); by rewrite length_fmap, length_seq|].
  intros b' Hb'. by apply mask_insert.
Qed.

Lemma mask_unset n b i :
  mask_ok n b → (i < n)%nat → BitArray_unset b (Z.of_nat i) ⇓ flipped n b i false.
Proof.
  intros Hb Hi. eapply yields_mono; [apply (unset_ok _ _ i Hb); by rewrite length_fmap, length_seq|].
  intros b' Hb'. by apply mask_insert.
Qed.

Lemma mask_copy n b : mask_ok n b → copy_BitArray b (Z.of_nat n) = Done b.
Proof. intros Hb. pose proof (copy_ok b _ Hb) as Hc. by rewrite length_fmap, length_seq in Hc. Qed.

Lemma mask_all_ones n b beyond :
  mask_ok n b → isAllOnes beyond b (Z.of_nat n) = true ↔ ∀ i, (i < n)%nat → bit b i = true.
Proof.
  intros Hb. pose proof (scan_ok true beyond b _ Hb) as Hs. rewrite length_fmap, length_seq in Hs.
  change (isAllOnes beyond b (Z.of_nat n) = forallb (eqb true) (bit b <$> seq 0 n)) in Hs.
  rewrite Hs, forallb_lookup. split.
  - intros Hall i Hi. specialize (Hall i (bit b i) (bits_lookup b n i Hi)). by destruct (bit b i).
  - intros Hall i x Hx. pose proof (lookup_lt_Some _ _ _ Hx) as Hi.
    rewrite length_fmap, length_seq in Hi. rewrite bits_lookup in Hx by done. injection Hx as <-.
    by rewrite Hall.
Qed.
End masks.

(** ** What an object shows *)

(** For each byte: whether it is concrete, whether it is flushed, its cached
    expression and its concrete value; then the update list and the other fields *)
Record view : Type := mkView {
  v_concrete : nat → bool;
  v_flushed : nat → bool;
  v_known : nat → option Expr;
  v_store : nat → Z;
  v_root : option Array;
  v_head : UpdateNode;
  v_object : MemoryObject;
  v_owner : Z;
  v_readOnly : bool;
}.

Definition upd {A} (i : nat) (x : A) (f : nat → A) : nat → A := λ j, if decide (j = i) then x else f j.

Definition with_concrete f v :=
  mkView f (v_flushed v) (v_known v) (v_store v) (v_root v) (v_head v) (v_object v) (v_owner v) (v_readOnly v).
Definition with_flushed f v :=
  mkView (v_concrete v) f (v_known v) (v_store v) (v_root v) (v_head v) (v_object v) (v_owner v) (v_readOnly v).
Definition with_known f v :=
  mkView (v_concrete v) (v_flushed v) f (v_store v) (v_root v) (v_head v) (v_object v) (v_owner v) (v_readOnly v).
Definition with_store f v :=
  mkView (v_concrete v) (v_flushed v) (v_known v) f (v_root v) (v_head v) (v_object v) (v_owner v) (v_readOnly v).
Definition with_updates r h v :=
  mkView (v_concrete v) (v_flushed v) (v_known v) (v_store v) r h (v_object v) (v_owner v) (v_readOnly v).

Definition concrete_of (os : ObjectState) (i : nat) : bool :=
  match concreteMask os with None => true | Some b => bit b i end.
Definition flushed_of (os : ObjectState) (i : nat) : bool :=
  match flushMask os with None => false | Some b => negb (bit b i) end.
Definition known_of (os : ObjectState) (i : nat) : option Expr :=
  knownSymbolics os ≫= λ l, mjoin (l !! i).

Record shows (n : nat) (os : ObjectState) (v : view) : Prop := {
  sh_size : os_size os = Z.of_nat n;
  sh_bound : Z.of_nat n + 31 < 2 ^ 32;
  sh_concreteMask b : concreteMask os = Some b → mask_ok n b;
  sh_flushMask b : flushMask os = Some b → mask_ok n b;
  sh_knownSymbolics l : knownSymbolics os = Some l → length l = n;
  sh_length : length (concreteStore os) = n;
  sh_concrete i : (i < n)%nat → concrete_of os i = v_concrete v i;
  sh_flushed i : (i < n)%nat → flushed_of os i = v_flushed v i;
  sh_known i : (i < n)%nat → known_of os i = v_known v i;
  sh_store i : (i < n)%nat → concreteStore os !! i = Some (v_store v i);
  sh_root : root os = v_root v;
  sh_head : head os = v_head v;
  sh_object : object os = v_object v;
  sh_owner : copyOnWriteOwner os = v_owner v;
  sh_readOnly : readOnly os = v_readOnly v;
}.

Section primitives.
Implicit Types (n i j : nat) (os : ObjectState) (v : view).

(** Solves the parts of [shows] that a primitive leaves alone. *)
Ltac unchanged H := destruct H; split; cbn; try done.

Lemma isByteConcrete_ok n os v i :
  shows n os v → (i < n)%nat → isByteConcrete os (Z.of_nat i) = Done (v_concrete v i).
Proof.
  intros Hs Hi. unfold isByteConcrete. rewrite <- (sh_concrete _ _ _ Hs) by done. unfold concrete_of.
  destruct (concreteMask os) eqn:E; [|done]. apply (mask_get n); [|done]. by eapply sh_concreteMask.
Qed.

Lemma isByteFlushed_ok n os v i :
  shows n os v → (i < n)%nat → isByteFlushed os (Z.of_nat i) = Done (v_flushed v i).
Proof.
  intros Hs Hi. unfold isByteFlushed. rewrite <- (sh_flushed _ _ _ Hs) by done. unfold flushed_of.
  destruct (flushMask os) eqn:E; [|done]. rewrite (mask_get n); [done| |done]. by eapply sh_flushMask.
Qed.

Lemma isByteKnownSymbolic_ok n os v i :
  shows n os v → (i < n)%nat →
  isByteKnownSymbolic os (Z.of_nat i) = Done (bool_decide (is_Some (v_known v i))).
Proof.
  intros Hs Hi. unfold isByteKnownSymbolic. rewrite <- (sh_known _ _ _ Hs) by done. unfold known_of.
  destruct (knownSymbolics os) as [l|] eqn:E; [|done]. cbn. unfold at_index. rewrite Nat2Z.id.
  destruct (lookup_lt_is_Some_2 l i) as [e ->]; [by rewrite (sh_knownSymbolics _ _ _ Hs l)|done].
Qed.

Lemma known_lookup n os v i :
  shows n os v → (i < n)%nat →
  known_at os (Z.of_nat i) = v_known v i.
Proof. intros Hs Hi. rewrite <- (sh_known _ _ _ Hs) by done. unfold known_at. by rewrite Nat2Z.id. Qed.

Lemma at_store n os v i :
  shows n os v → (i < n)%nat → at_index (concreteStore os) (Z.of_nat i) = Done (v_store v i).
Proof. intros Hs Hi. unfold at_index. by rewrite Nat2Z.id, (sh_store _ _ _ Hs) by done. Qed.

Lemma markByteConcrete_ok n os v i :
  shows n os v → (i < n)%nat →
  markByteConcrete (Z.of_nat i) os ⇓ λ os', shows n os' (with_concrete (upd i true (v_concrete v)) v).
Proof.
  intros Hs Hi. unfold markByteConcrete. destruct (concreteMask os) as [b|] eqn:E.
  - ystep. eapply yields_mono; [apply (mask_set n); [by eapply sh_concreteMask|done]|]. intros b' [Hb' Hbit].
    ystep. unchanged Hs; [by intros ? [= <-]|].
    intros j Hj. unfold upd. rewrite <- sh_concrete0 by done. unfold concrete_of. cbn. by rewrite E, Hbit.
  - apply yields_done. unchanged Hs. intros j Hj. unfold upd. rewrite <- sh_concrete0 by done.
    unfold concrete_of. rewrite E. by case_decide.
Qed.

Lemma markByteSymbolic_ok n os v i :
  shows n os v → (i < n)%nat →
  markByteSymbolic (Z.of_nat i) os ⇓ λ os', shows n os' (with_concrete (upd i false (v_concrete v)) v).
Proof.
  intros Hs Hi. unfold markByteSymbolic. set (b := default _ _).
  assert (mask_ok n b ∧ ∀ j, (j < n)%nat → bit b j = v_concrete v j) as [Hb Hbit].
  { unfold b. rewrite (sh_size _ _ _ Hs). destruct (concreteMask os) as [b'|] eqn:E; cbn.
    - split; [by eapply sh_concreteMask|]. intros j Hj. rewrite <- (sh_concrete _ _ _ Hs) by done.
      unfold concrete_of. by rewrite E.
    - destruct (mask_new n true) as [? Hn]; [by eapply sh_bound|]. split; [done|]. intros j Hj.
      rewrite Hn by done. rewrite <- (sh_concrete _ _ _ Hs) by done. unfold concrete_of. by rewrite E. }
  ystep. eapply yields_mono; [by apply (mask_unset n)|]. intros b' [Hb' Hbit'].
  ystep. unchanged Hs; [by intros ? [= <-]|].
  intros j Hj. unfold concrete_of, upd. cbn. rewrite Hbit' by done. case_decide; [done|]. by apply Hbit.
Qed.

Lemma markByteUnflushed_ok n os v i :
  shows n os v → (i < n)%nat →
  markByteUnflushed (Z.of_nat i) os ⇓ λ os', shows n os' (with_flushed (upd i false (v_flushed v)) v).
Proof.
  intros Hs Hi. unfold markByteUnflushed. destruct (flushMask os) as [b|] eqn:E.
  - ystep. eapply yields_mono; [apply (mask_set n); [by eapply sh_flushMask|done]|]. intros b' [Hb' Hbit].
    ystep. unchanged Hs; [by intros ? [= <-]|].
    intros j Hj. unfold upd. rewrite <- sh_flushed0 by done. unfold flushed_of. cbn. rewrite E, Hbit by done.
    by case_decide.
  - apply yields_done. unchanged Hs. intros j Hj. unfold upd. rewrite <- sh_flushed0 by done.
    unfold flushed_of. rewrite E. by case_decide.
Qed.

(** [flushMask->unset(offset)], on a mask that exists *)
Lemma unset_flush_ok n os v i :
  shows n os v → is_Some (flushMask os) → (i < n)%nat →
  unset_flush (Z.of_nat i) os ⇓ λ os', shows n os' (with_flushed (upd i true (v_flushed v)) v) ∧
    is_Some (flushMask os').
Proof.
  intros Hs [b E] Hi. unfold unset_flush. rewrite E. ystep.
  eapply yields_mono; [apply (mask_unset n); [by eapply sh_flushMask|done]|]. intros b' [Hb' Hbit].
  ystep. split; [|by eexists]. unchanged Hs; [by intros ? [= <-]|].
  intros j Hj. unfold upd. rewrite <- sh_flushed0 by done. unfold flushed_of. cbn. rewrite E, Hbit by done.
  by case_decide.
Qed.

(** The first call marks every byte. *)
Lemma markByteFlushed_ok n os v i :
  shows n os v → (i < n)%nat →
  markByteFlushed (Z.of_nat i) os ⇓ λ os', is_Some (flushMask os') ∧
    shows n os' (with_flushed
      (if flushMask os is Some _ then upd i true (v_flushed v) else λ _, true) v).
Proof.
  intros Hs Hi. unfold markByteFlushed. destruct (flushMask os) as [b|] eqn:E.
  - eapply yields_mono; [|intros os' Hos'; exact (conj (proj2 Hos') (proj1 Hos'))].
    pose proof (unset_flush_ok n os v i Hs) as Hu. unfold unset_flush in Hu. rewrite E in Hu.
    apply Hu; [by eexists|done].
  - apply yields_done. split; [by eexists|]. destruct (mask_new n false) as [Hm Hbit]; [by eapply sh_bound|].
    unchanged Hs.
    + intros ? [= <-]. by rewrite sh_size0.
    + intros j Hj. unfold flushed_of. cbn. by rewrite sh_size0, Hbit.
Qed.

Lemma set_index_ok {A} (l : list A) i x :
  (i < length l)%nat → set_index l (Z.of_nat i) x = Done (<[i := x]> l).
Proof. intros Hi. unfold set_index. rewrite Nat2Z.id. by rewrite (proj2 (Nat.ltb_lt _ _) Hi). Qed.

Lemma setKnownSymbolic_ok n os v i e :
  shows n os v → (i < n)%nat →
  setKnownSymbolic (Z.of_nat i) e os ⇓ λ os', shows n os' (with_known (upd i e (v_known v)) v).
Proof.
  intros Hs Hi. unfold setKnownSymbolic.
  assert (∀ l, length l = n → (∀ j, (j < n)%nat → l !! j = Some (v_known v j)) →
    shows n (set_knownSymbolics (Some (<[i := e]> l)) os) (with_known (upd i e (v_known v)) v)) as Hset.
  { intros l Hl Hlk. unchanged Hs.
    - intros ? [= <-]. by rewrite length_insert.
    - intros j Hj. unfold known_of, upd. cbn. case_decide; subst.
      + by rewrite list_lookup_insert_eq by lia.
      + by rewrite list_lookup_insert_ne, Hlk. }
  destruct (knownSymbolics os) as [l|] eqn:E; [|destruct e as [e|]].
  - pose proof (sh_knownSymbolics _ _ _ Hs l E) as Hl.
    rewrite set_index_ok by lia. ystep. apply yields_done, Hset; [done|]. intros j Hj.
    rewrite <- (sh_known _ _ _ Hs) by done. unfold known_of. rewrite E. cbn.
    by destruct (lookup_lt_is_Some_2 l j) as [x ->]; [lia|].
  - rewrite (sh_size _ _ _ Hs), Nat2Z.id, set_index_ok by (by rewrite length_replicate). ystep.
    apply yields_done, Hset; [by rewrite length_replicate|]. intros j Hj. rewrite lookup_replicate_2 by done.
    rewrite <- (sh_known _ _ _ Hs) by done. unfold known_of. by rewrite E.
  - apply yields_done. unchanged Hs. intros j Hj. unfold upd. rewrite <- sh_known0 by done. unfold known_of.
    rewrite E. by case_decide.
Qed.

Lemma store_byte_ok n os v i x :
  shows n os v → (i < n)%nat →
  set_index (concreteStore os) (Z.of_nat i) x ⇓ λ l,
    shows n (set_concreteStore l os) (with_store (upd i x (v_store v)) v).
Proof.
  intros Hs Hi. rewrite set_index_ok by (by rewrite (sh_length _ _ _ Hs)). apply yields_done.
  unchanged Hs; [by rewrite length_insert|]. intros j Hj. unfold upd. case_decide; subst.
  - apply list_lookup_insert_eq. lia.
  - rewrite list_lookup_insert_ne by done. auto.
Qed.
End primitives.

(** Views that are the same on the bytes of the object *)
Record same_view (n : nat) (v v' : view) : Prop := {
  sv_concrete i : (i < n)%nat → v_concrete v i = v_concrete v' i;
  sv_flushed i : (i < n)%nat → v_flushed v i = v_flushed v' i;
  sv_known i : (i < n)%nat → v_known v i = v_known v' i;
  sv_store i : (i < n)%nat → v_store v i = v_store v' i;
  sv_root : v_root v = v_root v';
  sv_head : v_head v = v_head v';
  sv_object : v_object v = v_object v';
  sv_owner : v_owner v = v_owner v';
  sv_readOnly : v_readOnly v = v_readOnly v';
}.

Lemma shows_same n os v v' : shows n os v → same_view n v v' → shows n os v'.
Proof.
  intros [] []. split; try done; try congruence; intros i Hi.
  - rewrite <- sv_concrete0; auto.
  - rewrite <- sv_flushed0; auto.
  - rewrite <- sv_known0; auto.
  - rewrite <- sv_store0; auto.
Qed.

(** ** The value of a byte *)

Section bytes.
Context `{APIntLaws} `{WfStore} `{ObjectIdentity} `{Options} `{Context} `{MemoryOptions} `{ArrayAlloc} `{!ArrayAllocLaws}.
Implicit Types (n i j : nat) (os : ObjectState) (v : view) (ρ : assignment) (e : Expr).

(** A read of a list whose array is still to be made of zeros *)
Fixpoint zero_read ρ (un : UpdateNode) (i : Z) : Z :=
  match un with
  | NullNode => 0
  | Node next index value => if eval ρ index =? i then eval ρ value else zero_read ρ next i
  end.

Definition list_value ρ (r : option Array) (un : UpdateNode) (i : Z) : Z :=
  match r with Some a => eval_read ρ a un i | None => zero_read ρ un i end.

Definition content ρ v i : Z :=
  if v_concrete v i then v_store v i
  else match v_known v i with
  | Some e => eval ρ e
  | None => list_value ρ (v_root v) (v_head v) (Z.of_nat i)
  end.

(** The invariant: the three cache invariants of the source, and that the update
    list is right about the bytes that are flushed *)
Record coherent (n : nat) (v : view) : Prop := {
  co_store i : (i < n)%nat → v_store v i `bits` 8;
  co_known i e : (i < n)%nat → v_known v i = Some e →
    v_concrete v i = false ∧ wf e ∧ getWidth e = Int8;
  co_cached i : (i < n)%nat → v_flushed v i = false → v_concrete v i = true ∨ is_Some (v_known v i);
  co_nodes : wf_nodes (v_head v);
  co_null c x : v_root v = None → (Constant c, x) ∈ node_writes (v_head v) →
    0 ≤ cvalue c < Z.of_nat n;
  co_flushed ρ i : wf_assignment ρ → (i < n)%nat → v_flushed v i = true →
    content ρ v i = list_value ρ (v_root v) (v_head v) (Z.of_nat i);
}.

(** [v'] holds the same bytes. *)
Record preserves (n : nat) (v v' : view) : Prop := {
  p_coherent : coherent n v';
  p_content ρ i : wf_assignment ρ → (i < n)%nat → content ρ v' i = content ρ v i;
  p_object : v_object v' = v_object v;
  p_owner : v_owner v' = v_owner v;
  p_readOnly : v_readOnly v' = v_readOnly v;
}.

Lemma preserves_refl n v : coherent n v → preserves n v v.
Proof. by split. Qed.

Lemma preserves_trans n v1 v2 v3 : preserves n v1 v2 → preserves n v2 v3 → preserves n v1 v3.
Proof. intros [] []. split; try congruence. intros ρ i Hρ Hi. rewrite p_content1; auto. Qed.

Lemma list_value_node ρ r un index value (i : Z) :
  list_value ρ r (Node un index value) i =
    if eval ρ index =? i then eval ρ value else list_value ρ r un i.
Proof. by destruct r. Qed.

Lemma list_value_bounded ρ r un (i : Z) : wf_assignment ρ → wf_nodes un → list_value ρ r un i `bits` 8.
Proof.
  intros Hρ Hun. destruct r as [a|]; [by apply eval_bounded_mut|].
  induction un as [|next IH index value]; cbn; [by apply bounded_0|].
  destruct Hun as (? & ? & ? & Hv & Hw). case_step; [|auto].
  change 8 with Int8. rewrite <- Hw. by apply eval_bounded.
Qed.

Lemma content_bounded n ρ v i : coherent n v → wf_assignment ρ → (i < n)%nat → content ρ v i `bits` 8.
Proof.
  intros Hc Hρ Hi. unfold content. destruct (v_concrete v i); [by apply (co_store n)|].
  destruct (v_known v i) as [e|] eqn:E.
  - destruct (co_known _ _ Hc i e Hi E) as (_ & He & Hw). change 8 with Int8. rewrite <- Hw. by apply eval_bounded.
  - apply list_value_bounded; [done|]. by eapply co_nodes.
Qed.

(** *** Flushing *)

(** The view after the byte [i] was flushed with the value [e] *)
Definition flush_view i e v : view :=
  with_flushed (upd i true (v_flushed v))
    (with_updates (v_root v) (Node (v_head v) (const (Z.of_nat i) Int32) e) v).

Definition drop_view i v : view :=
  with_known (upd i None (v_known v)) (with_concrete (upd i false (v_concrete v)) v).

(** [e] is the value of the byte. *)
Definition byte_of v i e : Prop :=
  wf e ∧ getWidth e = Int8 ∧ ∀ ρ, wf_assignment ρ → eval ρ e = content ρ v i.

Lemma flush_byte_ok n os v i :
  shows n os v → coherent n v → (i < n)%nat → v_flushed v i = false →
  flush_byte (Z.of_nat i) os ⇓ λ os', ∃ e, byte_of v i e ∧ flushMask os' = flushMask os ∧
    shows n os' (with_updates (v_root v) (Node (v_head v) (const (Z.of_nat i) Int32) e) v).
Proof.
  intros Hs Hc Hi Hfl. unfold flush_byte. pose proof (sh_bound _ _ _ Hs) as Hn.
  rewrite create_constant_spec by (unfold Int32, bounded; lia). ystep.
  rewrite (isByteConcrete_ok n os v) by done. ystep.
  assert (∀ e, byte_of v i e → extend (const (Z.of_nat i) Int32) e os ⇓ λ os', ∃ e, byte_of v i e ∧
    flushMask os' = flushMask os ∧
    shows n os' (with_updates (v_root v) (Node (v_head v) (const (Z.of_nat i) Int32) e) v)) as Hext.
  { intros e He. unfold extend. ystep; [apply Z.eqb_eq, He|]. ystep. exists e. split_and!; [apply He..|done|].
    destruct Hs. split; try done. cbn. by rewrite sh_head0. }
  destruct (v_concrete v i) eqn:Ec.
  - rewrite (at_store n os v) by done. ystep. ystep.
    pose proof (co_store _ _ Hc i Hi). rewrite create_constant_spec by done. ystep.
    apply Hext. split_and!; [done..|]. intros ρ Hρ. unfold content. by rewrite Ec.
  - rewrite (isByteKnownSymbolic_ok n os v) by done. ystep. ystep.
    destruct (co_cached _ _ Hc i Hi Hfl) as [|[e He]]; [congruence|].
    ystep; [by rewrite He|]. rewrite (known_lookup n os v i Hs Hi), He. ystep. apply Hext.
    destruct (co_known _ _ Hc i e Hi He) as (_ & ? & ?). split_and!; [done..|].
    intros ρ Hρ. unfold content. by rewrite Ec, He.
Qed.

Lemma const_index n i : (i < n)%nat → Z.of_nat n + 31 < 2 ^ 32 → wf (const (Z.of_nat i) Int32).
Proof. intros. split; cbn; [done|]. unfold bounded, Int32. lia. Qed.

Lemma list_value_flush ρ r un e i j :
  list_value ρ r (Node un (const (Z.of_nat i) Int32) e) (Z.of_nat j) =
    if decide (j = i) then eval ρ e else list_value ρ r un (Z.of_nat j).
Proof.
  rewrite list_value_node. cbn. case_decide; subst; [by rewrite Z.eqb_refl|].
  by rewrite (proj2 (Z.eqb_neq _ _)) by lia.
Qed.

Lemma flush_view_ok n v i e :
  coherent n v → Z.of_nat n + 31 < 2 ^ 32 → (i < n)%nat → v_flushed v i = false → byte_of v i e →
  preserves n v (flush_view i e v).
Proof.
  intros Hc Hn Hi Hfl (He & Hwe & Hev). pose proof (co_cached _ _ Hc i Hi Hfl) as Hcached.
  assert (∀ ρ j, wf_assignment ρ → (j < n)%nat → content ρ (flush_view i e v) j = content ρ v j) as Hcon.
  { intros ρ j Hρ Hj. unfold content. cbn [flush_view with_flushed with_updates v_concrete v_store v_known v_root v_head].
    destruct (v_concrete v j) eqn:Ec; [done|]. destruct (v_known v j) eqn:Ek; [done|].
    rewrite list_value_flush. case_decide; [|done]. subst. rewrite Ec, Ek in Hcached. by destruct Hcached as [|[]]. }
  split; try done. split; cbn; try by eapply co_store.
  - intros j e'. by eapply co_known.
  - intros j Hj. unfold upd. case_decide; [done|]. by apply (co_cached n).
  - split_and!; try done; [by eapply co_nodes|by apply (const_index n)].
  - intros c x Hr Hin. apply elem_of_cons in Hin as [[= -> ->]|Hin]; [cbn; lia|]. by eapply co_null.
  - intros ρ j Hρ Hj Hfl'. rewrite Hcon by done. rewrite list_value_flush. unfold upd in Hfl'.
    case_decide; [subst; by rewrite Hev|]. by apply (co_flushed n).
Qed.

Lemma drop_view_ok n v i :
  coherent n v → (i < n)%nat → v_flushed v i = true → preserves n v (drop_view i v).
Proof.
  intros Hc Hi Hfl.
  assert (∀ ρ j, wf_assignment ρ → (j < n)%nat → content ρ (drop_view i v) j = content ρ v j) as Hcon.
  { intros ρ j Hρ Hj. destruct (decide (j = i)) as [->|Hne].
    - rewrite (co_flushed n v Hc) by done. unfold content, drop_view, upd. cbn.
      by destruct (decide (i = i)).
    - unfold content, drop_view, upd. cbn. by destruct (decide (j = i)). }
  split; try done. split; cbn; try by eapply co_store.
  - intros j e Hj. unfold upd. case_decide; [done|]. by apply (co_known n).
  - intros j Hj Hf. unfold upd. case_decide; [congruence|]. by apply (co_cached n).
  - by eapply co_nodes.
  - intros c x. by eapply co_null.
  - intros ρ j Hρ Hj Hf. rewrite Hcon by done. by apply (co_flushed n).
Qed.

(** The caches of the byte are dropped. *)
Lemma drop_cache_ok n os v i :
  shows n os v → (i < n)%nat → (v_concrete v i = true → v_known v i = None) →
  drop_cache (Z.of_nat i) os ⇓ λ os', shows n os' (drop_view i v).
Proof.
  intros Hs Hi Hex. unfold drop_cache. rewrite (isByteConcrete_ok n os v) by done. ystep.
  destruct (v_concrete v i) eqn:Ec.
  - eapply yields_mono; [by apply (markByteSymbolic_ok n)|]. intros os' Hs'.
    eapply shows_same; [exact Hs'|]. split; try done. intros j Hj. cbn. unfold upd.
    case_decide; [subst; auto|done].
  - rewrite (isByteKnownSymbolic_ok n os v) by done. ystep. case_bool_decide.
    + eapply yields_mono; [by apply (setKnownSymbolic_ok n)|]. intros os' Hs'.
      eapply shows_same; [exact Hs'|]. split; try done. intros j Hj. cbn. unfold upd.
      by case_decide; subst.
    + apply yields_done. eapply shows_same; [exact Hs|]. split; try done; intros j Hj; cbn; unfold upd;
        case_decide; subst; try done. by apply eq_None_not_Some.
Qed.

Lemma drop_cache_mask (i : Z) os os' : drop_cache i os = Done os' → flushMask os' = flushMask os.
Proof.
  unfold drop_cache, markByteSymbolic, setKnownSymbolic. intros Hd.
  destruct (isByteConcrete os i) as [[]| |]; cbn in Hd; try done.
  - destruct (BitArray_unset _ _); cbn in Hd; by simplify_eq.
  - destruct (isByteKnownSymbolic os i) as [[]| |]; cbn in Hd; simplify_eq; try done.
    destruct (knownSymbolics os); cbn in Hd; [|by simplify_eq].
    destruct (set_index _ _ _); cbn in Hd; by simplify_eq.
Qed.

(** After a step, the byte [i] is flushed and those that were stay so; a write also
    drops its caches. *)
Definition stepped (write : bool) n i os v os' : Prop :=
  ∃ v', shows n os' v' ∧ preserves n v v' ∧ is_Some (flushMask os') ∧
    (∀ j, (j < n)%nat → j = i ∨ v_flushed v j = true → v_flushed v' j = true) ∧
    (write = true → ∀ j, (j < n)%nat → j = i ∨ v_concrete v j = false ∧ v_known v j = None →
      v_concrete v' j = false ∧ v_known v' j = None).

Lemma read_flush_step_ok n os v i :
  shows n os v → coherent n v → is_Some (flushMask os) → (i < n)%nat →
  read_flush_step (Z.of_nat i) os ⇓ stepped false n i os v.
Proof.
  intros Hs Hc Hm Hi. unfold read_flush_step. rewrite (isByteFlushed_ok n os v) by done. ystep.
  pose proof (sh_bound _ _ _ Hs). destruct (v_flushed v i) eqn:Ef.
  - apply yields_done. exists v. split_and!; try done. by intros j Hj [->|].
  - ystep. eapply yields_mono; [by apply (flush_byte_ok n)|]. intros os1 (e & He & Hm1 & Hs1).
    eapply yields_mono; [apply (unset_flush_ok n); [done|by rewrite Hm1|done]|]. intros os2 [Hs2 Hm2].
    exists (flush_view i e v). split_and!; try done; [by apply flush_view_ok|].
    cbn. unfold upd. intros j Hj [->|]; [by rewrite decide_True|]. by case_decide.
Qed.

Lemma write_flush_step_ok n os v i :
  shows n os v → coherent n v → is_Some (flushMask os) → (i < n)%nat →
  write_flush_step (Z.of_nat i) os ⇓ stepped true n i os v.
Proof.
  intros Hs Hc Hm Hi. unfold write_flush_step. rewrite (isByteFlushed_ok n os v) by done. ystep.
  pose proof (sh_bound _ _ _ Hs).
  assert (v_concrete v i = true → v_known v i = None) as Hex.
  { intros Ec. destruct (v_known v i) eqn:Ek; [|done]. destruct (co_known _ _ Hc i _ Hi Ek). congruence. }
  assert (∀ v0 j, j = i ∨ v_concrete v0 j = false ∧ v_known v0 j = None →
    v_concrete (drop_view i v0) j = false ∧ v_known (drop_view i v0) j = None) as Hdrop.
  { intros v0 j Hj. cbn. unfold upd. case_decide; naive_solver. }
  destruct (v_flushed v i) eqn:Ef.
  - destruct (yields_inv _ _ (drop_cache_ok n os v i Hs Hi Hex)) as (os' & Hd & Hs').
    rewrite Hd. exists (drop_view i v). split_and!; try done; [by apply drop_view_ok|..].
    + by rewrite (drop_cache_mask _ _ _ Hd).
    + by intros j Hj [->|].
    + intros _ j _. apply Hdrop.
  - ystep. eapply yields_mono; [by apply (flush_byte_ok n)|]. intros os1 (e & He & Hm1 & Hs1).
    destruct (yields_inv _ _ (drop_cache_ok n os1 _ i Hs1 Hi Hex)) as (os2 & Hd & Hs2). rewrite Hd. ystep.
    eapply yields_mono; [apply (unset_flush_ok n); [done| |done]|].
    { by rewrite (drop_cache_mask _ _ _ Hd), Hm1. }
    intros os3 [Hs3 Hm3]. pose proof (flush_view_ok n v i e Hc ltac:(done) Hi Ef He) as Hp.
    assert (v_flushed (flush_view i e v) i = true) as Hfi by (cbn; unfold upd; by rewrite decide_True).
    pose proof (drop_view_ok n (flush_view i e v) i (p_coherent _ _ _ Hp) Hi Hfi) as Hp'.
    exists (drop_view i (flush_view i e v)). split_and!; try done.
    + by eapply preserves_trans.
    + cbn. unfold upd. intros j Hj [->|]; [by rewrite decide_True|]. by case_decide.
    + intros _ j _ Hj. by apply Hdrop.
Qed.

Lemma flush_loop_ok write step n k i os v :
  (∀ os v i, shows n os v → coherent n v → is_Some (flushMask os) → (i < n)%nat →
    step (Z.of_nat i) os ⇓ stepped write n i os v) →
  shows n os v → coherent n v → is_Some (flushMask os) → (i + k = n)%nat →
  flush_loop step k (Z.of_nat i) os ⇓ λ os', ∃ v', shows n os' v' ∧ preserves n v v' ∧
    is_Some (flushMask os') ∧
    (∀ j, (j < n)%nat → (i ≤ j)%nat ∨ v_flushed v j = true → v_flushed v' j = true) ∧
    (write = true → ∀ j, (j < n)%nat → (i ≤ j)%nat ∨ v_concrete v j = false ∧ v_known v j = None →
      v_concrete v' j = false ∧ v_known v' j = None).
Proof.
  intros Hstep. revert i os v. induction k as [|k IH]; intros i os v Hs Hc Hm Hk; cbn [flush_loop].
  - apply yields_done. exists v. split_and!; try done.
    + intros j Hj [|]; [lia|done].
    + intros _ j Hj [|]; [lia|done].
  - ystep. eapply yields_mono; [apply Hstep; done || lia|]. intros os1 (v1 & Hs1 & Hp1 & Hm1 & Hf1 & Hw1).
    replace (Z.of_nat i + 1) with (Z.of_nat (S i)) by lia.
    eapply yields_mono; [apply IH; [done|by eapply p_coherent|done|lia]|].
    intros os2 (v2 & Hs2 & Hp2 & Hm2 & Hf2 & Hw2). exists v2. split_and!; try done.
    + by eapply preserves_trans.
    + intros j Hj Hor. apply Hf2; [done|]. destruct (decide (j ≤ i)%nat); [|left; lia]. right.
      apply Hf1; [done|]. destruct Hor; [left; lia|by right].
    + intros Hw j Hj Hor. apply Hw2; [done..|]. destruct (decide (j ≤ i)%nat); [|left; lia]. right.
      apply Hw1; [done..|]. destruct Hor; [left; lia|by right].
Qed.

(** A flush of the whole object *)
Lemma flush_range_ok write step n os v :
  (∀ os v i, shows n os v → coherent n v → is_Some (flushMask os) → (i < n)%nat →
    step (Z.of_nat i) os ⇓ stepped write n i os v) →
  shows n os v → coherent n v →
  flush_range step 0 (os_size os) os ⇓ λ os', ∃ v', shows n os' v' ∧ preserves n v v' ∧
    (∀ j, (j < n)%nat → v_flushed v' j = true) ∧
    (write = true → ∀ j, (j < n)%nat → v_concrete v' j = false ∧ v_known v' j = None).
Proof.
  intros Hstep Hs Hc. unfold flush_range. set (b := default _ _).
  rewrite (sh_size _ _ _ Hs), Nat2Z.id. change 0 with (Z.of_nat 0).
  assert (shows n (set_flushMask (Some b) os) v) as Hs'.
  { destruct (flushMask os) as [b'|] eqn:E; cbn in b.
    - unfold b. rewrite <- E. by destruct os.
    - destruct (mask_new n true) as [Hm Hbit]; [by eapply sh_bound|].
      destruct Hs. split; cbn; try done.
      + intros ? [= <-]. unfold b. by rewrite sh_size0.
      + intros j Hj. rewrite <- sh_flushed0 by done. unfold flushed_of. cbn. rewrite E. unfold b.
        by rewrite sh_size0, Hbit. }
  eapply yields_mono; [apply (flush_loop_ok write step n n 0 _ v Hstep); [done|done|by eexists|lia]|].
  intros os' (v' & ? & ? & _ & Hf & Hw). exists v'. split_and!; try done.
  - intros j Hj. apply Hf; [done|left; lia].
  - intros ? j Hj. apply Hw; [done..|left; lia].
Qed.

(** *** The constant array *)

(** The value at [i] after writes, the oldest first, over [base] *)
Definition apply_writes ρ (ws : list (Expr * Expr)) (base i : Z) : Z :=
  foldl (λ acc w, if eval ρ w.1 =? i then eval ρ w.2 else acc) base ws.

Definition wf_write (w : Expr * Expr) : Prop :=
  (wf w.1 ∧ getWidth w.1 = Int32) ∧ wf w.2 ∧ getWidth w.2 = Int8.

Lemma wf_nodes_writes un : wf_nodes un ↔ Forall wf_write (node_writes un).
Proof.
  induction un as [|next IH index value]; cbn; [split; constructor|].
  rewrite Forall_cons, IH. unfold wf_write. cbn. tauto.
Qed.

Lemma list_value_writes ρ r un (i : Z) :
  list_value ρ r un i = apply_writes ρ (reverse (node_writes un)) (list_value ρ r NullNode i) i.
Proof.
  unfold apply_writes. induction un as [|next IH index value]; [done|].
  rewrite list_value_node. cbn [node_writes]. rewrite reverse_cons, foldl_snoc. cbn. by rewrite IH.
Qed.

Lemma extend_all_ok ws os :
  Forall wf_write ws →
  extend_all ws os ⇓ λ os', ∃ un, os' = set_updates (root os) un os ∧
    node_writes un = reverse ws ++ node_writes (head os).
Proof.
  intros Hws. revert os. induction Hws as [|[ix x] ws (_ & _ & Hw) _ IH]; intros os; cbn [extend_all].
  { apply yields_done. exists (head os). by destruct os. }
  unfold extend. cbn in Hw. rewrite Hw. cbn [Z.eqb cassert mbind outcome_bind].
  replace (Int8 =? Int8) with true by done. cbn [cassert mbind outcome_bind].
  eapply yields_mono; [apply IH|]. intros os' (un & -> & Hun). exists un. split; [done|].
  rewrite Hun, reverse_cons, <- app_assoc. done.
Qed.

Definition byte_const (c : ConstantExpr) : Prop := wf_constant c ∧ cwidth c = Int8.

Lemma pull_writes_ok ws C n :
  Forall wf_write ws → (∀ c x, (Constant c, x) ∈ ws → 0 ≤ cvalue c < Z.of_nat n) →
  length C = n → Forall byte_const C →
  pull_writes ws C ⇓ λ '(C', rest), ∃ pulled, ws = pulled ++ rest ∧ length C' = n ∧
    Forall byte_const C' ∧
    ∀ ρ i c c', C !! i = Some c → C' !! i = Some c' →
      cvalue c' = apply_writes ρ pulled (cvalue c) (Z.of_nat i).
Proof.
  intros Hws. revert C. induction Hws as [|[ix x] ws (Hix & Hx & Hwx) _ IH]; intros C Hin HC HF; cbn [pull_writes].
  { exists []. split_and!; try done. intros ρ i c c' Hc Hc'. rewrite Hc in Hc'. by injection Hc' as ->. }
  assert (∃ pulled, (ix, x) :: ws = pulled ++ (ix, x) :: ws ∧ length C = n ∧ Forall byte_const C ∧
    ∀ ρ i c c', C !! i = Some c → C !! i = Some c' →
      cvalue c' = apply_writes ρ pulled (cvalue c) (Z.of_nat i)) as Hstop.
  { exists []. split_and!; try done. intros ρ i c c' Hc Hc'. rewrite Hc in Hc'. by injection Hc' as ->. }
  destruct ix as [ci| | | | | | | | |]; try exact Hstop. destruct x as [cx| | | | | | | | |]; try exact Hstop.
  destruct (Hin ci (Constant cx)) as [Hlo Hhi]; [left|]. cbn in *.
  rewrite getZExtValue_spec by (apply Hix || done). ystep.
  rewrite <- (Z2Nat.id (cvalue ci)), set_index_ok by lia. ystep.
  eapply yields_mono; [apply IH; [|by rewrite length_insert|by apply Forall_insert]|].
  { intros c y Hy. eapply Hin. by right. }
  intros [C' rest] (pulled & -> & HC' & HF' & Hval). exists ((Constant ci, Constant cx) :: pulled).
  split_and!; try done. intros ρ i c c' Hc Hc'. unfold apply_writes. cbn.
  destruct (decide (i = Z.to_nat (cvalue ci))) as [->|Hne].
  - rewrite (proj2 (Z.eqb_eq _ _)) by lia. apply Hval; [|done]. apply list_lookup_insert_eq. lia.
  - rewrite (proj2 (Z.eqb_neq _ _)) by lia. apply Hval; [|done]. by rewrite list_lookup_insert_ne.
Qed.

(** The same bytes with another update list that reads the same *)
Lemma with_updates_ok n v a un :
  coherent n v → wf_nodes un →
  (∀ ρ i, wf_assignment ρ → (i < n)%nat →
    list_value ρ (Some a) un (Z.of_nat i) = list_value ρ (v_root v) (v_head v) (Z.of_nat i)) →
  preserves n v (with_updates (Some a) un v).
Proof.
  intros Hc Hun Hval.
  assert (∀ ρ j, wf_assignment ρ → (j < n)%nat → content ρ (with_updates (Some a) un v) j = content ρ v j) as Hcon.
  { intros ρ j Hρ Hj. unfold content. cbn -[list_value]. by rewrite Hval. }
  split; try done. split; cbn -[list_value]; try done.
  - by eapply co_store.
  - intros j e. by eapply co_known.
  - intros j Hj. by apply (co_cached n).
  - intros ρ j Hρ Hj Hf. rewrite Hcon, Hval by done. by apply (co_flushed n).
Qed.

Lemma apply_writes_app ρ ws ws' base (i : Z) :
  apply_writes ρ (ws ++ ws') base i = apply_writes ρ ws' (apply_writes ρ ws base i) i.
Proof. apply foldl_app. Qed.

Definition updated n m v (ul : UpdateList) m' : Prop :=
  host m' = host m ∧ ∃ v', shows n (this m') v' ∧ preserves n v v' ∧
    v' = with_updates (Some (ul_root ul)) (ul_head ul) v.

Lemma getUpdates_ok n m v :
  shows n (this m) v → coherent n v → runs getUpdates m (updated n m v).
Proof.
  intros Hs Hc. unfold runs, getUpdates. destruct (root (this m)) as [r|] eqn:Er.
  { apply yields_done. split; [done|]. exists v. split_and!; try done.
    pose proof (sh_root _ _ _ Hs). pose proof (sh_head _ _ _ Hs). destruct v. cbn in *. unfold with_updates. cbn. congruence. }
  rewrite ConstantExpr_create_spec by done. ystep. pose proof (sh_bound _ _ _ Hs).
  assert (v_root v = None) as Hr by (by rewrite <- (sh_root _ _ _ Hs)).
  rewrite (sh_head _ _ _ Hs), (sh_size _ _ _ Hs), Nat2Z.id.
  pose proof (proj1 (wf_nodes_writes _) (co_nodes _ _ Hc)) as Hwr.
  ystep. eapply yields_mono; [apply (pull_writes_ok _ _ n)|].
  - by apply Forall_reverse.
  - intros c x Hin. apply (co_null n v Hc c x Hr). by rewrite elem_of_reverse in Hin.
  - apply length_replicate.
  - by apply Forall_replicate.
  - intros [C rest] (pulled & Hws & HC & HF & Hval).
    assert (Forall wf_write rest) as Hrest.
    { apply Forall_reverse in Hwr. rewrite Hws in Hwr. by apply Forall_app in Hwr as [_ ?]. }
    ystep. eapply yields_mono; [by apply extend_all_ok|]. intros os' (un & -> & Hun). cbn in Hun.
    rewrite app_nil_r in Hun. apply yields_done. split; [done|]. cbn [ul_root ul_head].
    set (a := new_Array _ _ _).
    assert (constantValues (deref a) = C) as Ha.
    { apply new_Array_spec. split; cbn; [lia|]. split; [by right; rewrite HC|done]. }
    eexists. split; [|split; [apply (with_updates_ok n v a un)|done]].
    + destruct Hs. by split.
    + done.
    + apply wf_nodes_writes. rewrite Hun. by apply Forall_reverse.
    + intros ρ i Hρ Hi. rewrite Hr, (list_value_writes ρ (Some a) un), (list_value_writes ρ None (v_head v)).
      rewrite Hws, Hun, reverse_involutive.
      rewrite apply_writes_app. f_equal. cbn. unfold initial_byte. rewrite Ha, Nat2Z.id.
      destruct (lookup_lt_is_Some_2 C i) as [c Hci]; [lia|]. rewrite Hci.
      rewrite (Hval ρ i (mkConstant Int8 0) c) by (by rewrite ?lookup_replicate_2). done.
Qed.

(** ** Memory *)

Definition view_of os : view :=
  mkView (concrete_of os) (flushed_of os) (known_of os) (λ i, default 0 (concreteStore os !! i))
    (root os) (head os) (object os) (copyOnWriteOwner os) (readOnly os).

Lemma shows_view_of n os v : shows n os v → shows n os (view_of os) ∧ same_view n v (view_of os).
Proof.
  intros []. split; split; try done; intros i Hi; cbn.
  - by rewrite sh_store0.
  - by rewrite sh_concrete0.
  - by rewrite sh_flushed0.
  - by rewrite sh_known0.
  - by rewrite sh_store0.
Qed.

Lemma same_content n ρ v v' i : same_view n v v' → (i < n)%nat → content ρ v' i = content ρ v i.
Proof.
  intros [] Hi. unfold content.
  by rewrite <- sv_concrete0, <- sv_store0, <- sv_known0, <- sv_root0, <- sv_head0 by done.
Qed.

Lemma same_coherent n v v' : same_view n v v' → coherent n v → coherent n v'.
Proof.
  intros Hsv []. split; intros.
  - rewrite <- (sv_store _ _ _ Hsv) by done. auto.
  - rewrite <- (sv_concrete _ _ _ Hsv) by done. rewrite <- (sv_known _ _ _ Hsv) in * by done. eauto.
  - rewrite <- (sv_concrete _ _ _ Hsv), <- (sv_known _ _ _ Hsv) by done.
    rewrite <- (sv_flushed _ _ _ Hsv) in * by done. auto.
  - by rewrite <- (sv_head _ _ _ Hsv).
  - rewrite <- (sv_head _ _ _ Hsv), <- (sv_root _ _ _ Hsv) in *. eauto.
  - rewrite (same_content n ρ v) by done. rewrite <- (sv_head _ _ _ Hsv), <- (sv_root _ _ _ Hsv).
    rewrite <- (sv_flushed _ _ _ Hsv) in * by done. auto.
Qed.

Definition shared (m : Memory) : bool := isSharedConcrete (object (this m)).

Definition host_byte (m : Memory) i : option Z :=
  host m !! (address (object (this m)) + Z.of_nat i).

(** The value of the byte [i] of the object *)
Definition byte ρ (m : Memory) i : Z :=
  if shared m then default 0 (host_byte m i) else content ρ (view_of (this m)) i.

Record memory_ok (n : nat) (m : Memory) : Prop := {
  mo_shows : shows n (this m) (view_of (this m));
  mo_coherent : coherent n (view_of (this m));
  mo_host i : shared m = true → (i < n)%nat → ∃ x, host_byte m i = Some x ∧ x `bits` 8;
}.

(** [m'] is [m] with the bytes [f]. *)
Record becomes (n : nat) (m : Memory) (f : assignment → nat → Z) (m' : Memory) : Prop := {
  be_ok : memory_ok n m';
  be_byte ρ i : wf_assignment ρ → (i < n)%nat → byte ρ m' i = f ρ i;
  be_object : object (this m') = object (this m);
  be_owner : copyOnWriteOwner (this m') = copyOnWriteOwner (this m);
  be_readOnly : readOnly (this m') = readOnly (this m);
}.

Lemma becomes_refl n m : memory_ok n m → becomes n m (λ ρ, byte ρ m) m.
Proof. by split. Qed.

Lemma becomes_trans n m1 f m2 g m3 : becomes n m1 f m2 → becomes n m2 g m3 → becomes n m1 g m3.
Proof. intros [] []. split; try congruence; done. Qed.

Lemma becomes_ext n m f g m' :
  becomes n m f m' → (∀ ρ i, wf_assignment ρ → (i < n)%nat → f ρ i = g ρ i) → becomes n m g m'.
Proof. intros [] Hfg. split; try done. intros. rewrite be_byte0; auto. Qed.

(** An object that is not shared becomes what a view of it says. *)
Lemma becomes_view n m m' v' f :
  memory_ok n m → shared m = false → shows n (this m') v' → coherent n v' →
  (∀ ρ i, wf_assignment ρ → (i < n)%nat → content ρ v' i = f ρ i) →
  v_object v' = object (this m) → v_owner v' = copyOnWriteOwner (this m) →
  v_readOnly v' = readOnly (this m) → becomes n m f m'.
Proof.
  intros Hm Hsh Hs Hc Hf Hob How Hro. destruct (shows_view_of _ _ _ Hs) as [Hs' Hsv].
  assert (shared m' = false) as Hsh' by (unfold shared; by rewrite (sh_object _ _ _ Hs), Hob).
  split; [split| |..].
  - done.
  - by eapply same_coherent.
  - by rewrite Hsh'.
  - intros ρ i Hρ Hi. unfold byte. rewrite Hsh'. rewrite (same_content n ρ v') by done. auto.
  - by rewrite (sh_object _ _ _ Hs).
  - by rewrite (sh_owner _ _ _ Hs).
  - by rewrite (sh_readOnly _ _ _ Hs).
Qed.

Lemma becomes_preserves n m m' v' :
  memory_ok n m → shared m = false → shows n (this m') v' → preserves n (view_of (this m)) v' →
  becomes n m (λ ρ, byte ρ m) m'.
Proof.
  intros Hm Hsh Hs []. eapply becomes_view; try done.
  intros ρ i Hρ Hi. unfold byte. rewrite Hsh. auto.
Qed.

(** *** One byte *)

Lemma runs_get (A : Type) (f : ObjectState → M Memory A) m P :
  runs (f (this m)) m P → runs (get_this ≫= f) m P.
Proof. done. Qed.

Lemma runs_change f m (P : unit → Memory → Prop) :
  f (this m) ⇓ (λ os, P tt (set_this os m)) → runs (change f) m P.
Proof. unfold runs, change, get_this, mbind, M_bind. cbn. by destruct (f (this m)). Qed.

Context (Hopt : ConstArrayOpt = false).

(** A read of the current update list, at the index that [mk] makes *)
Lemma read_updates_ok n m mk index :
  memory_ok n m → shared m = false → mk = Done index → wf index → getWidth index = Int32 →
  runs (updates ← getUpdates; index ← lift mk; lift (ReadExpr_create updates index)) m (λ e m',
    becomes n m (λ ρ, byte ρ m) m' ∧ wf e ∧ getWidth e = Int8 ∧
    ∀ ρ i, wf_assignment ρ → (i < n)%nat → eval ρ index = Z.of_nat i →
      v_flushed (view_of (this m)) i = true → eval ρ e = byte ρ m i).
Proof.
  intros Hm Hsh -> Hix Hw. pose proof Hm as [Hs Hc _]. apply runs_bind.
  eapply runs_mono; [by apply (getUpdates_ok n)|]. intros ul m' (_ & v' & Hs' & Hp & ->).
  apply runs_bind, runs_lift, yields_done, runs_lift.
  destruct ul as [r h]. pose proof (co_nodes _ _ (p_coherent _ _ _ Hp)) as Hh. cbn in Hh.
  eapply yields_mono; [by apply ReadExpr_create_ok|]. intros e (He & Hwe & Hev).
  split; [by eapply becomes_preserves|]. split_and!; [done..|]. intros ρ i Hρ Hi Hidx Hfl.
  rewrite Hev; [|done|by intros ?; congruence]. rewrite Hidx. unfold byte. rewrite Hsh.
  rewrite <- (p_content _ _ _ Hp ρ i Hρ Hi). symmetry. by apply (co_flushed n _ (p_coherent _ _ _ Hp)).
Qed.

Lemma read8_ok n m i :
  memory_ok n m → (i < n)%nat →
  runs (read8 (Z.of_nat i)) m (λ e m', becomes n m (λ ρ, byte ρ m) m' ∧
    wf e ∧ getWidth e = Int8 ∧ ∀ ρ, wf_assignment ρ → eval ρ e = byte ρ m i).
Proof.
  intros Hm Hi. pose proof Hm as [Hs Hc Hh]. unfold read8. apply runs_get.
  change (isSharedConcrete (object (this m))) with (shared m). destruct (shared m) eqn:Hsh.
  { destruct (Hh i eq_refl Hi) as (x & Hx & Hb). apply runs_bind. unfold runs, host_read.
    unfold host_byte in Hx. rewrite Hx. apply yields_done. apply runs_lift.
    rewrite create_constant_spec by done. apply yields_done. split; [by apply becomes_refl|].
    split_and!; try done. intros ρ Hρ. unfold byte, host_byte. by rewrite Hsh, Hx. }
  apply runs_bind, runs_lift. rewrite (isByteConcrete_ok n _ _ _ Hs Hi). apply yields_done.
  destruct (v_concrete _ i) eqn:Ec.
  { apply runs_lift. rewrite (at_store n _ _ _ Hs Hi). ystep.
    pose proof (co_store _ _ Hc i Hi). rewrite create_constant_spec by done. apply yields_done.
    split; [by apply becomes_refl|]. split_and!; try done. intros ρ Hρ. unfold byte, content. by rewrite Hsh, Ec. }
  rewrite (known_lookup n _ _ i Hs Hi). destruct (v_known _ i) as [e|] eqn:Ek.
  { apply runs_ret. destruct (co_known _ _ Hc i e Hi Ek) as (_ & ? & ?). split; [by apply becomes_refl|].
    split_and!; try done. intros ρ Hρ. unfold byte, content. by rewrite Hsh, Ec, Ek. }
  assert (v_flushed (view_of (this m)) i = true) as Hfl.
  { destruct (v_flushed _ i) eqn:Ef; [done|]. destruct (co_cached _ _ Hc i Hi Ef) as [|[]]; congruence. }
  pose proof (const_index n i Hi (sh_bound _ _ _ Hs)) as Hix.
  apply runs_bind, runs_lift. rewrite (isByteFlushed_ok n _ _ _ Hs Hi), Hfl. apply yields_done.
  apply runs_bind, runs_lift, yields_done.
  eapply runs_mono; [apply (read_updates_ok n m _ (const (Z.of_nat i) Int32)); try done|].
  - apply create_constant_spec; [done|apply Hix].
  - intros e m' (? & ? & ? & Hev). split_and!; [done..|]. intros ρ Hρ. by apply (Hev ρ i Hρ Hi).
Qed.

(** The view after a write of a constant, and of an expression *)
Definition store_view i x v : view :=
  with_flushed (upd i false (v_flushed v)) (with_concrete (upd i true (v_concrete v))
    (with_known (upd i None (v_known v)) (with_store (upd i x (v_store v)) v))).

Definition cache_view i e v : view :=
  with_flushed (upd i false (v_flushed v)) (with_concrete (upd i false (v_concrete v))
    (with_known (upd i (Some e) (v_known v)) v)).

Lemma store_view_content ρ i x v j : content ρ (store_view i x v) j = upd i x (content ρ v) j.
Proof. unfold content, store_view, upd. cbn. by destruct (decide (j = i)). Qed.

Lemma cache_view_content ρ i e v j : content ρ (cache_view i e v) j = upd i (eval ρ e) (content ρ v) j.
Proof. unfold content, cache_view, upd. cbn. by destruct (decide (j = i)). Qed.

Lemma store_view_ok n i x v : coherent n v → x `bits` 8 → coherent n (store_view i x v).
Proof.
  intros [] Hx. split; cbn; try done.
  - intros j Hj. unfold upd. case_decide; auto.
  - intros j e Hj. unfold upd. case_decide; [done|]. auto.
  - intros j Hj. unfold upd. case_decide; [by left|]. auto.
  - intros ρ j Hρ Hj. rewrite store_view_content. unfold upd. case_decide; [done|]. auto.
Qed.

Lemma cache_view_ok n i e v : coherent n v → wf e → getWidth e = Int8 → coherent n (cache_view i e v).
Proof.
  intros [] He Hw. split; cbn; try done.
  - intros j e' Hj. unfold upd. case_decide; [by intros [= ->]|]. auto.
  - intros j Hj. unfold upd. case_decide; [by right|]. auto.
  - intros ρ j Hρ Hj. rewrite cache_view_content. unfold upd. case_decide; [done|]. auto.
Qed.

Lemma write8_ok n m i x :
  memory_ok n m → (i < n)%nat → x `bits` 8 →
  runs (write8 (Z.of_nat i) x) m (λ _, becomes n m (λ ρ, upd i x (byte ρ m))).
Proof.
  intros Hm Hi Hx. pose proof Hm as [Hs Hc Hh]. unfold write8. apply runs_get.
  change (isSharedConcrete (object (this m))) with (shared m). destruct (shared m) eqn:Hsh.
  { destruct (Hh i eq_refl Hi) as (y & Hy & _). unfold runs, host_write. unfold host_byte in Hy. rewrite Hy.
    apply yields_done.
    assert (∀ j, host_byte (mkMemory (this m) (<[address (object (this m)) + Z.of_nat i := x]> (host m))
      (const_arrays m)) j = if decide (j = i) then Some x else host_byte m j) as Hhb.
    { intros j. unfold host_byte. cbn. case_decide; subst; [by rewrite lookup_insert_eq|].
      by rewrite lookup_insert_ne by lia. }
    split; try done; [split; try done|].
    - intros j _ Hj. rewrite Hhb. case_decide; [eauto|]. by apply Hh.
    - intros ρ j Hρ Hj. unfold byte. change (shared (mkMemory _ _ _)) with (shared m). rewrite Hsh, Hhb.
      unfold upd. by case_decide. }
  apply runs_change. ystep. eapply yields_mono; [by apply (store_byte_ok n)|]. intros l Hs1. ystep.
  eapply yields_mono; [apply (setKnownSymbolic_ok n _ _ i None Hs1 Hi)|]. intros os2 Hs2. ystep.
  eapply yields_mono; [apply (markByteConcrete_ok n _ _ i Hs2 Hi)|]. intros os3 Hs3.
  eapply yields_mono; [apply (markByteUnflushed_ok n _ _ i Hs3 Hi)|]. intros os4 Hs4.
  eapply (becomes_view n m _ (store_view i x (view_of (this m)))); try done.
  - by apply store_view_ok.
  - intros ρ j Hρ Hj. rewrite store_view_content. unfold byte, upd. by rewrite Hsh.
Qed.

Lemma write8_expr_ok n m i e :
  memory_ok n m → (i < n)%nat → wf e → getWidth e = Int8 → shared m = false ∨ isConstant e = true →
  runs (write8_expr (Z.of_nat i) e) m (λ _, becomes n m (λ ρ, upd i (eval ρ e) (byte ρ m))).
Proof.
  intros Hm Hi He Hw Hor. pose proof Hm as [Hs Hc Hh]. destruct (isConstant e) eqn:Ec.
  { destruct e as [c| | | | | | | | |]; try done. cbn [write8_expr]. apply runs_bind, runs_lift.
    cbn in Hw. destruct He as [_ Hv]. rewrite Hw in Hv. rewrite getZExtValue_spec by (rewrite Hw; done).
    apply yields_done. rewrite (bounded_small 8 (cvalue c) Hv : cvalue c mod 256 = _).
    by apply write8_ok. }
  destruct Hor as [Hsh|]; [|done].
  assert (runs (os ← get_this; _ ← lift (cassert (negb (isSharedConcrete (object os))));
    change (λ os, os ← setKnownSymbolic (Z.of_nat i) (Some e) os;
      os ← markByteSymbolic (Z.of_nat i) os; markByteUnflushed (Z.of_nat i) os)) m
    (λ _, becomes n m (λ ρ, upd i (eval ρ e) (byte ρ m)))) as Hrun; [|by destruct e].
  apply runs_get, runs_bind, runs_lift. change (isSharedConcrete (object (this m))) with (shared m).
  rewrite Hsh. apply yields_done. apply runs_change.
  ystep. eapply yields_mono; [by apply (setKnownSymbolic_ok n)|]. intros os2 Hs2. ystep.
  eapply yields_mono; [apply (markByteSymbolic_ok n _ _ i Hs2 Hi)|]. intros os3 Hs3.
  eapply yields_mono; [apply (markByteUnflushed_ok n _ _ i Hs3 Hi)|]. intros os4 Hs4.
  eapply (becomes_view n m _ (cache_view i e (view_of (this m)))); try done.
  - by apply cache_view_ok.
  - intros ρ j Hρ Hj. rewrite cache_view_content. unfold byte, upd. by rewrite Hsh.
Qed.

Lemma ZExt_same e : ZExtExpr_create e (getWidth e) = Done e.
Proof. unfold ZExtExpr_create, ZExtExpr_create_with. by rewrite Z.eqb_refl. Qed.

(** What makes an offset symbolic *)
Definition symbolic (off : Expr) : Prop := wf off ∧ getWidth off = Int32 ∧ isConstant off = false.

Lemma read8_at_ok n m off :
  memory_ok n m → shared m = false → symbolic off →
  runs (read8_at off) m (λ e m', becomes n m (λ ρ, byte ρ m) m' ∧ wf e ∧ getWidth e = Int8 ∧
    ∀ ρ i, wf_assignment ρ → (i < n)%nat → eval ρ off = Z.of_nat i → eval ρ e = byte ρ m i).
Proof.
  intros Hm Hsh (Hoff & Hw & Hnc). pose proof Hm as [Hs Hc _]. unfold read8_at.
  apply runs_bind, runs_lift. rewrite Hnc. apply yields_done. apply runs_get, runs_bind, runs_lift.
  change (isSharedConcrete (object (this m))) with (shared m). rewrite Hsh. apply yields_done.
  cbn [fastRangeCheckOffset]. apply runs_bind, runs_change.
  eapply yields_mono; [apply (flush_range_ok false read_flush_step n _ _ (read_flush_step_ok n) Hs Hc)|].
  intros os' (v' & Hs' & Hp & Hfl & _). set (m1 := set_this os' m).
  pose proof (becomes_preserves n m m1 v' Hm Hsh Hs' Hp) as Hb.
  eapply runs_mono; [apply (read_updates_ok n m1 _ off)|].
  - apply Hb.
  - unfold shared, m1. cbn. by rewrite (sh_object _ _ _ Hs'), (p_object _ _ _ Hp).
  - rewrite <- Hw. apply ZExt_same.
  - done.
  - done.
  - intros e m' (Hb' & ? & ? & Hev). split_and!; [..|done|done|].
    + eapply becomes_ext; [by eapply becomes_trans|]. intros. by apply Hb.
    + intros ρ i Hρ Hi Hix. rewrite (Hev ρ i Hρ Hi Hix); [by apply Hb|].
      cbn. rewrite (sh_flushed _ _ _ Hs') by done. auto.
Qed.

Lemma write8_at_ok n m off e :
  memory_ok n m → shared m = false → symbolic off → wf e → getWidth e = Int8 →
  runs (write8_at off e) m (λ _, becomes n m
    (λ ρ j, if eval ρ off =? Z.of_nat j then eval ρ e else byte ρ m j)).
Proof.
  intros Hm Hsh (Hoff & Hw & Hnc) He Hwe. pose proof Hm as [Hs Hc _]. unfold write8_at.
  apply runs_bind, runs_lift. rewrite Hnc. apply yields_done. apply runs_get, runs_bind, runs_lift.
  change (isSharedConcrete (object (this m))) with (shared m). rewrite Hsh. apply yields_done.
  cbn [fastRangeCheckOffset]. apply runs_bind, runs_change.
  eapply yields_mono; [apply (flush_range_ok true write_flush_step n _ _ (write_flush_step_ok n) Hs Hc)|].
  intros os' (v' & Hs' & Hp & Hfl & Hdrop). apply runs_bind, runs_lift. rewrite <- Hw, ZExt_same.
  apply yields_done. apply runs_change. unfold extend. cbn [this set_this]. ystep; [by apply Z.eqb_eq|].
  apply yields_done. specialize (Hdrop eq_refl).
  set (v2 := with_updates (v_root v') (Node (v_head v') off e) v').
  assert (∀ ρ j, (j < n)%nat → content ρ v2 j = list_value ρ (v_root v') (Node (v_head v') off e) (Z.of_nat j)) as Hcon.
  { intros ρ j Hj. unfold content. cbn -[list_value]. by destruct (Hdrop j Hj) as [-> ->]. }
  eapply (becomes_view n m _ v2); try done.
  - destruct Hs'. split; try done. cbn. by rewrite sh_head0.
  - destruct (p_coherent _ _ _ Hp). split; cbn -[list_value]; try done.
    + intros c x Hr Hin. apply elem_of_cons in Hin as [[= <- ->]|Hin]; [done|]. by eapply co_null0.
    + intros ρ j Hρ Hj _. by apply Hcon.
  - intros ρ j Hρ Hj. rewrite Hcon, list_value_node by done. case_step; [done|].
    unfold byte. rewrite Hsh, <- (p_content _ _ _ Hp ρ j Hρ Hj).
    symmetry. apply (co_flushed n _ (p_coherent _ _ _ Hp)); auto.
  - apply Hp.
  - apply Hp.
  - apply Hp.
Qed.

(** *** Words *)

(** The value of bytes, the lowest first *)
Fixpoint bytes_value (l : list Z) : Z :=
  match l with [] => 0 | b :: l => b + 2 ^ 8 * bytes_value l end.

Lemma bytes_value_snoc l b :
  bytes_value (l ++ [b]) = bytes_value l + 2 ^ (8 * Z.of_nat (length l)) * b.
Proof.
  induction l as [|x l IH]; cbn [app bytes_value length]; [change (2 ^ (8 * Z.of_nat 0)) with 1; lia|].
  rewrite IH. replace (8 * Z.of_nat (S (length l))) with (8 + 8 * Z.of_nat (length l)) by lia.
  rewrite pow2_add by lia. lia.
Qed.

(** A way to read the bytes of [m] one by one; [val] are their values under the
    assignments in [good]. *)
Definition reads n m (good : assignment → Prop) (val : assignment → nat → Z) (k : nat)
    (rd : Z → M Memory Expr) : Prop :=
  ∀ m' i, (i < k)%nat → becomes n m (λ ρ, byte ρ m) m' →
    runs (rd (Z.of_nat i)) m' (λ e m'', becomes n m (λ ρ, byte ρ m) m'' ∧
      wf e ∧ getWidth e = Int8 ∧ ∀ ρ, wf_assignment ρ → good ρ → eval ρ e = val ρ i).

(** The loop so far *)
Definition loaded (good : assignment → Prop) (val : assignment → nat → Z) (i : nat) (Res : option Expr) : Prop :=
  match Res with
  | None => i = 0%nat
  | Some r => (0 < i)%nat ∧ wf r ∧ getWidth r = 8 * Z.of_nat i ∧
      ∀ ρ, wf_assignment ρ → good ρ → eval ρ r = bytes_value (val ρ <$> seq 0 i)
  end.

Context (Hle : isLittleEndian = true).

Lemma read_loop_ok n m good val k j i rd Res m' :
  reads n m good val k rd → (k ≤ 8)%nat → (i + j = k)%nat → loaded good val i Res →
  becomes n m (λ ρ, byte ρ m) m' →
  runs (read_loop rd (Z.of_nat k) j (Z.of_nat i) Res) m' (λ Res' m'',
    loaded good val k Res' ∧ becomes n m (λ ρ, byte ρ m) m'').
Proof.
  intros Hrd Hk. revert i Res m'. induction j as [|j IH]; intros i Res m' Hij Hl Hb; cbn [read_loop].
  { apply runs_ret. by replace k with i by lia. }
  unfold byte_index. rewrite Hle. apply runs_bind.
  eapply runs_mono; [by apply Hrd; [lia|]|]. intros e m1 (Hb1 & He & Hwe & Hev).
  replace (Z.of_nat i + 1) with (Z.of_nat (S i)) by lia. apply runs_bind.
  assert (runs (if Z.of_nat i =? 0 then mret (Some e) else match Res with
    | Some r => c ← lift (ConcatExpr_create e r); mret (Some c)
    | None => lift AssertFailed end) m1 (λ Res' m2, m2 = m1 ∧ loaded good val (S i) Res')) as Hcat.
  { case_step; unbool.
    - apply runs_ret. split; [done|]. replace i with 0%nat in * by lia. cbn. split_and!; try done; [lia|].
      intros ρ Hρ Hgood. rewrite Hev by done. lia.
    - destruct Res as [r|]; [|cbn in Hl; lia]. destruct Hl as (Hi & Hr & Hwr & Hvr).
      apply runs_bind, runs_lift. eapply yields_mono; [apply ConcatExpr_create_spec; [done..|unfold Int8 in *; lia]|].
      intros c (Hc & Hwc & Hvc). apply runs_ret. split; [done|]. cbn [loaded].
      split_and!; [lia|done|unfold Int8 in *; lia|]. intros ρ Hρ Hgood.
      rewrite Hvc, bv_concat_add by (done || lia || by apply eval_bounded). rewrite Hvr, Hev, Hwr by done.
      rewrite seq_S, fmap_app. cbn [fmap list_fmap]. by rewrite bytes_value_snoc, length_fmap, length_seq. }
  eapply runs_mono; [exact Hcat|]. intros Res' m2 [-> Hl']. apply IH; [lia|done|done].
Qed.

(** The widths of reads and writes, in bytes *)
Definition bytes_of (width : Z) (k : nat) : Prop :=
  (width = Bool ∧ k = 1%nat) ∨ (width = 8 * Z.of_nat k ∧ (0 < k ≤ 8)%nat).

Definition loaded_value (width : Z) (l : list Z) : Z := bytes_value l mod 2 ^ width.

Lemma read_bytes_ok n m good val k width rd :
  reads n m good val k rd → bytes_of width k → memory_ok n m →
  (∀ ρ i, wf_assignment ρ → good ρ → (i < k)%nat → val ρ i `bits` 8) →
  runs (read_bytes rd width) m (λ e m', becomes n m (λ ρ, byte ρ m) m' ∧ wf e ∧ getWidth e = width ∧
    ∀ ρ, wf_assignment ρ → good ρ → eval ρ e = loaded_value width (val ρ <$> seq 0 k)).
Proof.
  intros Hrd Hk Hm Hval. unfold read_bytes, loaded_value.
  pose proof (becomes_refl n m Hm) as Hb0. destruct Hk as [[-> ->]|[-> Hk]].
  - cbn [Z.eqb]. replace (Bool =? Bool) with true by done. apply runs_bind.
    eapply runs_mono; [apply (Hrd m 0%nat); [lia|done]|]. intros e m1 (Hb1 & He & Hwe & Hev).
    apply runs_lift. eapply yields_mono; [apply ExtractExpr_create_spec; [done|lia|done|rewrite Hwe; done]|].
    intros r (Hr & Hwr & Hvr). split_and!; [done..|]. intros ρ Hρ Hgood. rewrite Hvr, Hev by done. cbn.
    unfold bv_extract. rewrite Z.shiftr_0_r. f_equal. lia.
  - replace (8 * Z.of_nat k =? Bool) with false by (symmetry; apply Z.eqb_neq; unfold Bool; lia).
    rewrite Z.mul_comm, Z.div_mul by lia. apply runs_bind, runs_lift. rewrite Z.mul_comm, Z.eqb_refl.
    apply yields_done. rewrite Nat2Z.id. apply runs_bind.
    eapply runs_mono; [apply (read_loop_ok n m good val k k 0 rd None m); [done|lia|lia|done|done]|].
    intros [r|] m1 [Hl Hb1]; cbn in Hl; [|lia]. destruct Hl as (_ & Hr & Hwr & Hvr).
    apply runs_lift, yields_done. split_and!; [done..|lia|]. intros ρ Hρ Hgood. rewrite Hvr by done.
    symmetry. apply bounded_small. clear -Hval Hρ Hgood Hk.
    assert (∀ j, (j ≤ k)%nat → bytes_value (val ρ <$> seq 0 j) `bits` (8 * Z.of_nat j)) as Hbnd; [|by apply Hbnd].
    induction j as [|j IH]; intros Hj; [by apply bounded_0|].
    rewrite seq_S, fmap_app. cbn [fmap list_fmap]. rewrite bytes_value_snoc, length_fmap, length_seq.
    specialize (IH ltac:(lia)). pose proof (Hval ρ j Hρ Hgood ltac:(lia)) as Hv. unfold bounded in *.
    replace (8 * Z.of_nat (S j)) with (8 * Z.of_nat j + 8) by lia. rewrite pow2_add by lia. cbn. nia.
Qed.

(** The bytes after the [k] low bytes of [x] are written at [pos], which wraps
    around at 32 bits *)
Fixpoint store_bytes (pos x : Z) (k : nat) (f : nat → Z) (j : nat) : Z :=
  match k with
  | O => f j
  | S k =>
      if (pos + Z.of_nat k) mod 2 ^ 32 =? Z.of_nat j then bv_extract x (8 * Z.of_nat k) 8
      else store_bytes pos x k f j
  end.

(** A way to write bytes at the position [pos] and after it *)
Definition writes n (ok : Memory → Expr → Prop) (pos : assignment → Z) (k : nat)
    (wr : Z → Expr → M Memory unit) : Prop :=
  ∀ m i e, (i < k)%nat → memory_ok n m → ok m e → wf e → getWidth e = Int8 →
    runs (wr (Z.of_nat i) e) m (λ _, becomes n m
      (λ ρ j, if (pos ρ + Z.of_nat i) mod 2 ^ 32 =? Z.of_nat j then eval ρ e else byte ρ m j)).

Lemma becomes_shared n m f m' : becomes n m f m' → shared m' = shared m.
Proof. intros []. unfold shared. by rewrite be_object0. Qed.

Lemma write_loop_ok n (ok : Memory → Expr → Prop) pos k j i wr value m0 m :
  writes n ok pos k wr → (∀ m e, shared m = shared m0 → ok m e) →
  (i + j = k)%nat → wf value → getWidth value = 8 * Z.of_nat k →
  becomes n m0 (λ ρ, store_bytes (pos ρ) (eval ρ value) i (byte ρ m0)) m →
  runs (write_loop wr value (Z.of_nat k) j (Z.of_nat i)) m (λ _,
    becomes n m0 (λ ρ, store_bytes (pos ρ) (eval ρ value) k (byte ρ m0))).
Proof.
  intros Hwr Hok. revert i m. induction j as [|j IH]; intros i m Hij Hv Hw Hb; cbn [write_loop].
  { apply runs_ret. by replace k with i by lia. }
  apply runs_bind, runs_lift.
  eapply yields_mono; [apply ExtractExpr_create_spec; [done|lia|done|rewrite Hw; unfold Int8; lia]|].
  intros e (He & Hwe & Hev). unfold byte_index. rewrite Hle. apply runs_bind.
  eapply runs_mono; [apply Hwr; [lia|apply Hb|by apply Hok, (becomes_shared _ _ _ _ Hb)|done|done]|].
  intros [] m1 Hb1. replace (Z.of_nat i + 1) with (Z.of_nat (S i)) by lia. apply IH; [lia|done|done|].
  eapply becomes_ext; [by eapply becomes_trans|]. intros ρ x Hρ Hx. cbn. rewrite Hev by done.
  case_step; [done|]. by apply Hb.
Qed.

Lemma write_bytes_ok n (ok : Memory → Expr → Prop) pos k wr value m :
  writes n ok pos k wr → (∀ m' e, shared m' = shared m → ok m' e) → memory_ok n m →
  wf value → bytes_of (getWidth value) k →
  runs (write_bytes wr value) m (λ _,
    becomes n m (λ ρ, store_bytes (pos ρ) (eval ρ value) k (byte ρ m))).
Proof.
  intros Hwr Hok Hm Hv Hk. unfold write_bytes. destruct Hk as [[Hw ->]|[Hw Hk]]; rewrite Hw.
  - replace (Bool =? Bool) with true by done. apply runs_bind, runs_lift.
    eapply yields_mono; [by apply ZExtExpr_create_spec|]. intros e (He & Hwe & Hev).
    eapply runs_mono; [apply (Hwr m 0%nat); [lia|done|by apply Hok|done|done]|]. intros [] m1 Hb1.
    eapply becomes_ext; [exact Hb1|]. intros ρ j Hρ Hj. cbn. by rewrite Hev.
  - replace (8 * Z.of_nat k =? Bool) with false by (symmetry; apply Z.eqb_neq; unfold Bool; lia).
    rewrite Z.mul_comm, Z.div_mul by lia. apply runs_bind, runs_lift. rewrite Z.mul_comm, Z.eqb_refl.
    apply yields_done. rewrite Nat2Z.id.
    apply (write_loop_ok n ok pos k k 0 wr value m m); try done.
Qed.

Lemma write_const_loop_ok n k j i (off : nat) x m0 m :
  (i + j = k)%nat → (off + k ≤ n)%nat →
  becomes n m0 (λ ρ, store_bytes (Z.of_nat off) x i (byte ρ m0)) m →
  runs (write_const_loop (Z.of_nat off) x (Z.of_nat k) j (Z.of_nat i)) m (λ _,
    becomes n m0 (λ ρ, store_bytes (Z.of_nat off) x k (byte ρ m0))).
Proof.
  intros Hij Hk. revert i m Hij. induction j as [|j IH]; intros i m Hij Hb; cbn [write_const_loop].
  { apply runs_ret. by replace k with i by lia. }
  pose proof (sh_bound _ _ _ (mo_shows _ _ (be_ok _ _ _ _ Hb))) as Hn.
  unfold byte_index. rewrite Hle, u32_small by lia. rewrite <- Nat2Z.inj_add. apply runs_bind.
  eapply runs_mono; [apply (write8_ok n); [apply Hb|lia|by apply bounded_mod]|]. intros [] m1 Hb1.
  replace (Z.of_nat i + 1) with (Z.of_nat (S i)) by lia. apply IH; [lia|].
  eapply becomes_ext; [by eapply becomes_trans|]. intros ρ y Hρ Hy. cbn -[Z.pow].
  rewrite (Z.mod_small (Z.of_nat off + Z.of_nat i)) by lia. unfold upd. case_decide.
  - subst y. by rewrite (proj2 (Z.eqb_eq _ _)) by lia.
  - rewrite (proj2 (Z.eqb_neq _ _)) by lia. by apply Hb.
Qed.

(** *** Reads and writes of an object *)

Lemma byte_bounded n ρ m i : memory_ok n m → wf_assignment ρ → (i < n)%nat → byte ρ m i `bits` 8.
Proof.
  intros [Hs Hc Hh] Hρ Hi. unfold byte. destruct (shared m) eqn:E.
  - by destruct (Hh i eq_refl Hi) as (x & -> & ?).
  - by apply (content_bounded n).
Qed.

Lemma seq_shift (f : nat → Z) off k : (λ i, f (off + i)%nat) <$> seq 0 k = f <$> seq off k.
Proof.
  replace (seq off k) with (Nat.add off <$> seq 0 k) by (by rewrite fmap_add_seq, Nat.add_0_r).
  by rewrite <- list_fmap_compose.
Qed.

Lemma read_ok n m (off : nat) k width :
  memory_ok n m → (off + k ≤ n)%nat → bytes_of width k →
  runs (read (Z.of_nat off) width) m (λ e m', becomes n m (λ ρ, byte ρ m) m' ∧ wf e ∧ getWidth e = width ∧
    ∀ ρ, wf_assignment ρ → eval ρ e = loaded_value width (byte ρ m <$> seq off k)).
Proof.
  intros Hm Hoff Hk. pose proof (sh_bound _ _ _ (mo_shows _ _ Hm)) as Hn.
  eapply runs_mono; [apply (read_bytes_ok n m (λ _, True) (λ ρ i, byte ρ m (off + i)%nat) k); try done|].
  - intros m' i Hi Hb. rewrite u32_small by lia. rewrite <- Nat2Z.inj_add.
    eapply runs_mono; [apply (read8_ok n); [apply Hb|lia]|]. intros e m1 (Hb1 & ? & ? & Hev).
    split_and!; [|done..|].
    + eapply becomes_ext; [by eapply becomes_trans|]. intros. by apply Hb.
    + intros ρ Hρ _. rewrite Hev by done. apply Hb; [done|lia].
  - intros ρ i Hρ _ Hi. apply (byte_bounded n); [done..|lia].
  - intros e m' (? & ? & ? & Hev). split_and!; [done..|]. intros ρ Hρ. by rewrite Hev, seq_shift.
Qed.

(** The sums of an offset and the index of a byte stay symbolic. *)
Definition stays_symbolic k (o : Expr) : Prop :=
  ∀ i, (i < k)%nat → core_create Add o (const (Z.of_nat i) Int32) ⇓ λ e, isConstant e = false.

Lemma small_const i : (i ≤ 8)%nat → wf (const (Z.of_nat i) Int32).
Proof. intros. split; cbn; [done|]. unfold bounded, Int32. lia. Qed.

Lemma add_index k o i :
  wf o → getWidth o = Int32 → stays_symbolic k o → (i < k)%nat → (k ≤ 8)%nat →
  core_create Add o (const (Z.of_nat i) Int32) ⇓ λ a, symbolic a ∧
    ∀ ρ, wf_assignment ρ → eval ρ a = (eval ρ o + Z.of_nat i) mod 2 ^ 32.
Proof.
  intros Ho Hw Hst Hi Hk.
  eapply yields_mono; [apply yields_and; [by apply Hst|apply core_create_ok; try done; by apply small_const; lia]|].
  intros a [Hnc [Hwf Hwa _ Hev _]]. split; [split_and!; try done; cbn in Hwa; congruence|].
  intros ρ Hρ. rewrite Hev; [|done|by intros [? _]]. cbn -[Z.pow]. by rewrite Hw.
Qed.

(** An access of [k] bytes at an offset that may be made: inside the object if it is
    constant, in an object that is not shared if it is symbolic *)
Definition offset_ok n m k (off : Expr) : Prop :=
  wf off ∧ ZExtExpr_create off Int32 ⇓ λ o,
    match o with
    | Constant c => (Z.to_nat (cvalue c) + k ≤ n)%nat
    | _ => shared m = false ∧ stays_symbolic k o
    end.

(** The position of an access *)
Definition position ρ (off : Expr) : Z := eval ρ off mod 2 ^ 32.

(** The offset that is used: a constant in the object, or a symbolic one *)
Definition used_offset n m k off o : Prop :=
  wf o ∧ getWidth o = Int32 ∧ (∀ ρ, wf_assignment ρ → eval ρ o = position ρ off) ∧
  ((∃ p : nat, o = const (Z.of_nat p) Int32 ∧ (p + k ≤ n)%nat ∧
      ∀ ρ, wf_assignment ρ → position ρ off = Z.of_nat p) ∨
   (isConstant o = false ∧ shared m = false ∧ stays_symbolic k o)).

Lemma offset_used n m k off :
  offset_ok n m k off → ZExtExpr_create off Int32 ⇓ used_offset n m k off.
Proof.
  intros [Hoff Ho]. eapply yields_mono; [apply yields_and; [by apply ZExtExpr_create_spec|exact Ho]|].
  intros o [(Hwf & Hw & Hev) Ho'].
  assert (∀ ρ, wf_assignment ρ → eval ρ o = position ρ off) as Hpos.
  { intros ρ Hρ. rewrite Hev by done. unfold bv_extract, position. by rewrite Z.shiftr_0_r. }
  split_and!; [done..|]. destruct (isConstant o) eqn:Ec; [left|right; by destruct o].
  destruct o as [c| | | | | | | | |]; try done. cbn in Hw. destruct Hwf as [_ [Hlo Hhi]].
  exists (Z.to_nat (cvalue c)). rewrite Z2Nat.id by done. split_and!; [|done|].
  - destruct c. cbn in *. by subst.
  - intros ρ Hρ. by rewrite <- Hpos.
Qed.

Lemma const_offset_value p : (Z.of_nat p < 2 ^ 32) →
  getZExtValue (mkConstant Int32 (Z.of_nat p)) 32 = Done (Z.of_nat p).
Proof. intros. by rewrite getZExtValue_spec. Qed.

(** Reading one byte after another from a symbolic offset *)
Lemma reads_at n m k o off :
  memory_ok n m → shared m = false → wf o → getWidth o = Int32 → isConstant o = false → stays_symbolic k o → (k ≤ 8)%nat →
  (∀ ρ, wf_assignment ρ → eval ρ o = position ρ off) →
  reads n m (λ ρ, position ρ off + Z.of_nat k ≤ Z.of_nat n)
    (λ ρ i, byte ρ m (Z.to_nat (position ρ off) + i)%nat) k
    (λ idx, i ← lift (create_constant idx Int32); a ← lift (core_create Add o i); read8_at a).
Proof.
  intros Hm Hsh Ho Hw Hnc Hst Hk Hpos m' i Hi Hb. pose proof (sh_bound _ _ _ (mo_shows _ _ Hm)) as Hn.
  apply runs_bind, runs_lift. rewrite create_constant_spec by (done || apply small_const; lia).
  apply yields_done. apply runs_bind, runs_lift.
  eapply yields_mono; [apply (add_index k); [done..|lia|done]|]. intros a [Ha Hva].
  eapply runs_mono; [apply (read8_at_ok n); [apply Hb|by rewrite (becomes_shared _ _ _ _ Hb)|done]|].
  intros e m1 (Hb1 & ? & ? & Hev). split_and!; [|done..|].
  - eapply becomes_ext; [by eapply becomes_trans|]. intros. by apply Hb.
  - intros ρ Hρ Hin. assert (0 ≤ position ρ off) by (apply Z.mod_pos_bound; lia).
    rewrite (Hev ρ (Z.to_nat (position ρ off) + i)%nat); [apply Hb; [done|lia]|done|lia|].
    rewrite Hva, Hpos by done. rewrite Z.mod_small; lia.
Qed.

Lemma read_at_ok n m off k width :
  memory_ok n m → offset_ok n m k off → bytes_of width k →
  runs (read_at off width) m (λ e m', becomes n m (λ ρ, byte ρ m) m' ∧ wf e ∧ getWidth e = width ∧
    ∀ ρ, wf_assignment ρ → position ρ off + Z.of_nat k ≤ Z.of_nat n →
      eval ρ e = loaded_value width (byte ρ m <$> seq (Z.to_nat (position ρ off)) k)).
Proof.
  intros Hm Hoff Hk. pose proof (sh_bound _ _ _ (mo_shows _ _ Hm)) as Hn. unfold read_at. apply runs_bind, runs_lift.
  eapply yields_mono; [by apply offset_used|].
  intros o (Hwf & Hw & Hpos & [(p & -> & Hp & Hpp)|(Hnc & Hsh & Hst)]).
  - cbv beta iota. apply runs_bind, runs_lift. rewrite const_offset_value by lia. apply yields_done.
    rewrite u32_small by lia. eapply runs_mono; [by apply (read_ok n m p k)|].
    intros e m1 (? & ? & ? & Hev). split_and!; [done..|]. intros ρ Hρ _. by rewrite Hev, Hpp, Nat2Z.id.
  - assert (symbolic o) as Hsym by done.
    assert (∀ A (f : ConstantExpr → A) x, match o with Constant c => f c | _ => x end = x) as Hmatch
      by (by destruct o). rewrite Hmatch. destruct (width =? Bool) eqn:Eb; unbool.
    + apply runs_bind. eapply runs_mono; [by apply (read8_at_ok n)|]. intros e m1 (Hb1 & He & Hwe & Hev).
      apply runs_lift. eapply yields_mono; [apply ExtractExpr_create_spec; [done|lia|done|by rewrite Hwe]|].
      intros r (? & ? & Hvr). split_and!; [done|done|congruence|]. intros ρ Hρ Hin.
      destruct Hk as [[-> ->]|[-> ?]]; [|unfold Bool in *; lia].
      assert (0 ≤ position ρ off) by (apply Z.mod_pos_bound; lia). rewrite Hvr by done.
      rewrite (Hev ρ (Z.to_nat (position ρ off))); [|done|lia|rewrite Hpos by done; lia].
      unfold loaded_value, bv_extract. cbn -[Z.pow]. rewrite Z.shiftr_0_r. f_equal. lia.
    + assert (k ≤ 8)%nat by (destruct Hk as [[??]|[??]]; lia).
      eapply runs_mono; [eapply (read_bytes_ok n m _ _ k); [by apply (reads_at n m k o off)|done|done|]|].
      * intros ρ i Hρ Hin Hi. cbv beta in Hin. apply (byte_bounded n); [done..|].
        assert (0 ≤ position ρ off) by (apply Z.mod_pos_bound; lia). lia.
      * intros e m1 (? & ? & ? & Hev). split_and!; [done..|]. intros ρ Hρ Hin. by rewrite Hev, seq_shift.
Qed.

(** A value that may be written: a constant has one of the widths of the [switch]; an
    expression goes to an object that is not shared. *)
Definition value_ok m k (value : Expr) : Prop :=
  wf value ∧ bytes_of (getWidth value) k ∧
  if isConstant value then getWidth value ∈ [Bool; Int8; Int16; Int32; Int64] else shared m = false.

Lemma write_const_ok n m (off : nat) k x :
  memory_ok n m → (off + k ≤ n)%nat →
  runs (write_const (Z.of_nat k) (Z.of_nat off) x) m (λ _,
    becomes n m (λ ρ, store_bytes (Z.of_nat off) x k (byte ρ m))).
Proof.
  intros Hm Hk. unfold write_const. rewrite Nat2Z.id.
  apply (write_const_loop_ok n k k 0 off x m m); [lia|done|]. by apply becomes_refl.
Qed.

Lemma write_byte_ok n m (off : nat) x :
  memory_ok n m → (off + 1 ≤ n)%nat → x `bits` 8 →
  runs (write8 (Z.of_nat off) x) m (λ _,
    becomes n m (λ ρ, store_bytes (Z.of_nat off) x 1 (byte ρ m))).
Proof.
  intros Hm Hk Hx. pose proof (sh_bound _ _ _ (mo_shows _ _ Hm)) as Hn.
  eapply runs_mono; [by apply (write8_ok n); [|lia|]|]. intros [] m1 Hb.
  eapply becomes_ext; [exact Hb|]. intros ρ j Hρ Hj. unfold upd. cbn [store_bytes].
  rewrite Z.add_0_r, Z.mod_small by lia. unfold bv_extract. rewrite Z.shiftr_0_r, (bounded_small 8) by done.
  case_decide; [subst; by rewrite Z.eqb_refl|]. by rewrite (proj2 (Z.eqb_neq _ _)) by lia.
Qed.

Lemma writes_const n (off k : nat) :
  (off + k ≤ n)%nat → Z.of_nat n + 31 < 2 ^ 32 →
  writes n (λ m _, shared m = false) (λ _, Z.of_nat off) k (λ idx b, write8_expr (u32 (Z.of_nat off + idx)) b).
Proof.
  intros Hk Hn m i e Hi Hm Hsh He Hw. rewrite u32_small by lia. rewrite <- Nat2Z.inj_add.
  eapply runs_mono; [apply (write8_expr_ok n); [done|lia|done|done|by left]|]. intros [] m1 Hb.
  eapply becomes_ext; [exact Hb|]. intros ρ j Hρ Hj. rewrite Z.mod_small by lia. unfold upd.
  case_decide; [subst; by rewrite (proj2 (Z.eqb_eq _ _)) by lia|]. by rewrite (proj2 (Z.eqb_neq _ _)) by lia.
Qed.

Lemma write_ok n m (off : nat) value k :
  memory_ok n m → (off + k ≤ n)%nat → value_ok m k value →
  runs (write (Z.of_nat off) value) m (λ _,
    becomes n m (λ ρ, store_bytes (Z.of_nat off) (eval ρ value) k (byte ρ m))).
Proof.
  intros Hm Hoff (Hv & Hk & Hc). pose proof (sh_bound _ _ _ (mo_shows _ _ Hm)) as Hn.
  destruct (isConstant value) eqn:Ec.
  - destruct value as [c| | | | | | | | |]; try done. cbn [write getWidth eval] in *. destruct Hv as [Hw Hv].
    rewrite (proj2 (Z.leb_le _ _)) by lia. apply runs_bind, runs_lift. rewrite getZExtValue_spec by lia.
    apply yields_done. unfold write16, write32, write64.
    rewrite !elem_of_cons, elem_of_nil in Hc. destruct Hc as [E|[E|[E|[E|[E|[]]]]]]; rewrite E in *;
      destruct Hk as [[HB ->]|[HB ?]]; try done; unfold Bool, Int8, Int16, Int32, Int64 in *; try lia;
      cbn [Z.eqb Pos.eqb orb].
    + rewrite bounded_small by (by apply (bounded_mono 1)). apply write_byte_ok; try done.
      by apply (bounded_mono 1).
    + replace k with 1%nat in * by lia. rewrite bounded_small by done. by apply write_byte_ok.
    + replace k with 2%nat in * by lia. rewrite bounded_small by done. by apply (write_const_ok n m off 2).
    + replace k with 4%nat in * by lia. rewrite bounded_small by done. by apply (write_const_ok n m off 4).
    + replace k with 8%nat in * by lia. by apply (write_const_ok n m off 8).
  - assert (write (Z.of_nat off) value = write_bytes (λ idx b, write8_expr (u32 (Z.of_nat off + idx)) b) value) as ->
      by (by destruct value).
    apply (write_bytes_ok n (λ m _, shared m = false) (λ _, Z.of_nat off) k); try done; [by apply writes_const|].
    intros. congruence.
Qed.

Lemma writes_at n k o off :
  wf o → getWidth o = Int32 → isConstant o = false → stays_symbolic k o → (k ≤ 8)%nat →
  (∀ ρ, wf_assignment ρ → eval ρ o = position ρ off) →
  writes n (λ m _, shared m = false) (λ ρ, position ρ off) k
    (λ idx b, i ← lift (create_constant idx Int32); a ← lift (core_create Add o i); write8_at a b).
Proof.
  intros Ho Hw Hnc Hst Hk Hpos m i e Hi Hm Hsh He Hwe.
  apply runs_bind, runs_lift. rewrite create_constant_spec by (done || apply small_const; lia).
  apply yields_done. apply runs_bind, runs_lift.
  eapply yields_mono; [apply (add_index k); [done..|lia|done]|]. intros a [Ha Hva].
  eapply runs_mono; [by apply (write8_at_ok n)|]. intros [] m1 Hb.
  eapply becomes_ext; [exact Hb|]. intros ρ j Hρ Hj. cbn -[Z.pow]. by rewrite Hva, Hpos.
Qed.

Lemma write_at_ok n m off value k :
  memory_ok n m → offset_ok n m k off → value_ok m k value →
  runs (write_at off value) m (λ _,
    becomes n m (λ ρ, store_bytes (position ρ off) (eval ρ value) k (byte ρ m))).
Proof.
  intros Hm Hoff Hval. pose proof (sh_bound _ _ _ (mo_shows _ _ Hm)) as Hn. unfold write_at. apply runs_bind, runs_lift.
  eapply yields_mono; [by apply offset_used|].
  intros o (Hwf & Hw & Hpos & [(p & -> & Hp & Hpp)|(Hnc & Hsh & Hst)]).
  - cbv beta iota. apply runs_bind, runs_lift. rewrite const_offset_value by lia. apply yields_done.
    rewrite u32_small by lia. eapply runs_mono; [by apply (write_ok n m p value k)|].
    intros [] m1 Hb. eapply becomes_ext; [exact Hb|]. intros ρ j Hρ Hj. cbv beta. by rewrite Hpp.
  - destruct Hval as (Hv & Hk & _).
    assert (∀ A (f : ConstantExpr → A) x, match o with Constant c => f c | _ => x end = x) as Hmatch
      by (by destruct o). rewrite Hmatch. destruct (getWidth value =? Bool) eqn:Eb; unbool.
    + apply runs_bind, runs_lift. eapply yields_mono; [by apply ZExtExpr_create_spec|].
      intros e (He & Hwe & Hev). eapply runs_mono; [by apply (write8_at_ok n)|]. intros [] m1 Hb.
      eapply becomes_ext; [exact Hb|]. intros ρ j Hρ Hj. cbv beta.
      destruct Hk as [[_ ->]|[? ?]]; [|unfold Bool in *; lia]. cbn [store_bytes].
      rewrite Hpos, Hev by done. rewrite Z.add_0_r. unfold position at 2. rewrite Z.mod_mod by lia.
      unfold bv_extract. done.
    + assert (k ≤ 8)%nat by (destruct Hk as [[??]|[??]]; lia).
      apply (write_bytes_ok n (λ m _, shared m = false) (λ ρ, position ρ off) k); try done; [by apply writes_at|].
      intros. congruence.
Qed.

(** *** Sequences of accesses *)

Definition width_bytes (w : Z) : nat := if w =? Bool then 1 else Z.to_nat (w / 8).

(** The accesses of a byte array, under an assignment.  A read out of bounds has no
    value. *)
Fixpoint spec_ops ρ n (ops : list MemoryOp) (f : nat → Z) : list (option Z) * (nat → Z) :=
  match ops with
  | [] => ([], f)
  | OpRead off w :: ops =>
      let k := width_bytes w in
      let p := position ρ off in
      let v := if p + Z.of_nat k <=? Z.of_nat n
        then Some (loaded_value w (f <$> seq (Z.to_nat p) k)) else None in
      let '(vs, f') := spec_ops ρ n ops f in (v :: vs, f')
  | OpWrite off value :: ops =>
      spec_ops ρ n ops (store_bytes (position ρ off) (eval ρ value) (width_bytes (getWidth value)) f)
  end.

Definition op_ok n m (op : MemoryOp) : Prop :=
  match op with
  | OpRead off w => bytes_of w (width_bytes w) ∧ offset_ok n m (width_bytes w) off
  | OpWrite off value =>
      offset_ok n m (width_bytes (getWidth value)) off ∧ value_ok m (width_bytes (getWidth value)) value
  end.

Lemma op_ok_shared n m m' op : shared m' = shared m → op_ok n m op → op_ok n m' op.
Proof. intros Hsh. unfold op_ok, offset_ok, value_ok. by rewrite Hsh. Qed.

Lemma store_bytes_ext n pos x k f g j :
  (∀ i, (i < n)%nat → f i = g i) → (j < n)%nat → store_bytes pos x k f j = store_bytes pos x k g j.
Proof. intros Hfg Hj. induction k as [|k IH]; cbn; [auto|]. by rewrite IH. Qed.

Lemma seq_bytes_ext n (f g : nat → Z) p k :
  (∀ i, (i < n)%nat → f i = g i) → (p + k ≤ n)%nat → f <$> seq p k = g <$> seq p k.
Proof.
  intros Hfg Hp. apply list_fmap_ext. intros i x Hx. apply lookup_seq in Hx as [-> ?]. apply Hfg. lia.
Qed.

Lemma run_ops_ok n ops m :
  memory_ok n m → Forall (op_ok n m) ops →
  runs (run_memory_ops ops) m (λ es m', memory_ok n m' ∧ ∀ ρ f, wf_assignment ρ →
    (∀ i, (i < n)%nat → byte ρ m i = f i) →
    (∀ i, (i < n)%nat → byte ρ m' i = (spec_ops ρ n ops f).2 i) ∧
    Forall2 (λ e ov, ∀ x, ov = Some x → eval ρ e = x) es (spec_ops ρ n ops f).1).
Proof.
  intros Hm Hops. revert m Hm Hops. induction ops as [|op ops IH]; intros m Hm Hops; cbn [run_memory_ops].
  { apply runs_ret. by split. }
  apply Forall_cons in Hops as [Hop Hops]. destruct op as [off w|off value]; destruct Hop as [Hop1 Hop2];
    apply runs_bind.
  - eapply runs_mono; [by apply (read_at_ok n m off (width_bytes w))|]. intros e m1 (Hb & He & Hw & Hev).
    apply runs_bind. eapply runs_mono; [apply IH; [apply Hb|]|].
    { eapply Forall_impl; [exact Hops|]. intros op. apply op_ok_shared. by apply (becomes_shared _ _ _ _ Hb). }
    intros es m2 [Hm2 Hspec]. apply runs_ret. split; [done|]. intros ρ f Hρ Hf. cbn [spec_ops].
    destruct (Hspec ρ f Hρ) as [Hbytes Hvals]; [intros i Hi; by rewrite (be_byte _ _ _ _ Hb), Hf|].
    destruct (spec_ops ρ n ops f) as [vs f']. cbn [fst snd] in *. split; [done|]. constructor; [|done].
    intros x. case_step; [|done]. unbool. intros [= <-]. rewrite Hev by done. f_equal.
    assert (0 ≤ position ρ off) by (apply Z.mod_pos_bound; lia).
    by apply (seq_bytes_ext n); [|lia].
  - eapply runs_mono; [by apply (write_at_ok n m off value (width_bytes (getWidth value)))|]. intros [] m1 Hb.
    eapply runs_mono; [apply IH; [apply Hb|]|].
    { eapply Forall_impl; [exact Hops|]. intros op. apply op_ok_shared. by apply (becomes_shared _ _ _ _ Hb). }
    intros es m2 [Hm2 Hspec]. split; [done|]. intros ρ f Hρ Hf. cbn [spec_ops]. apply Hspec; [done|].
    intros i Hi. rewrite (be_byte _ _ _ _ Hb) by done. by apply (store_bytes_ext n).
Qed.

(** ** Construction *)

(** A view with all bytes concrete *)
Definition concrete_view (f : nat → Z) v : view :=
  with_concrete (λ _, true) (with_flushed (λ _, false) (with_known (λ _, None) (with_store f v))).

Lemma concrete_view_ok n f v :
  coherent n v → (∀ i, (i < n)%nat → f i `bits` 8) → coherent n (concrete_view f v).
Proof. intros [] Hf. split; cbn; try done; auto. Qed.

Lemma new_ObjectState_ok n mo uninit tmp_arr :
  mo_size mo = Z.of_nat n → Z.of_nat n + 31 < 2 ^ 32 → length uninit = n → Forall (bounded 8) uninit →
  let os := new_ObjectState mo uninit tmp_arr in
  shows n os (view_of os) ∧ coherent n (view_of os) ∧
  ∀ ρ i, (i < n)%nat → uninit !! i = Some (content ρ (view_of os) i).
Proof.
  intros Hsz Hn Hlen Hb os.
  assert (∀ i, (i < n)%nat → uninit !! i = Some (default 0 (uninit !! i))) as Hlk.
  { intros i Hi. by destruct (lookup_lt_is_Some_2 uninit i) as [x ->]; [lia|]. }
  split; [by split|]. split; [|intros ρ i Hi; by apply Hlk].
  split; cbn; try done.
  - intros i Hi. rewrite Forall_lookup in Hb. by apply (Hb i), Hlk.
  - by left.
  - intros c x _ Hx. by apply elem_of_nil in Hx.
Qed.

(** [initializeToZero] and [initializeToRandom] *)
Lemma initialize_ok n os x :
  shows n os (view_of os) → coherent n (view_of os) → x `bits` 8 →
  let os' := set_concreteStore (replicate (Z.to_nat (os_size os)) x) (makeConcrete os) in
  shows n os' (view_of os') ∧ coherent n (view_of os') ∧
  ∀ ρ i, (i < n)%nat → content ρ (view_of os') i = x.
Proof.
  intros Hs Hc Hx os'.
  assert (shows n os' (concrete_view (λ _, x) (view_of os))) as Hs'.
  { destruct Hs. split; cbn; try done; rewrite sh_size0, Nat2Z.id.
    - by rewrite length_replicate.
    - intros i Hi. by apply lookup_replicate_2. }
  destruct (shows_view_of _ _ _ Hs') as [Hsv Hsame]. split; [done|]. split.
  - eapply same_coherent; [done|]. by apply concrete_view_ok.
  - intros ρ i Hi. by rewrite (same_content n ρ _ _ i Hsame Hi).
Qed.

(** The loop of [makeSymbolic] marks every byte. *)
Lemma symbolic_loop_ok n k i os v :
  shows n os v → (i + k = n)%nat → (∀ j, (j < n)%nat → v_known v j = None) →
  (∀ j, (j < i)%nat → v_concrete v j = false) → (∀ j, (j < i)%nat → v_flushed v j = true) →
  symbolic_loop k (Z.of_nat i) os ⇓ λ os', ∃ v', shows n os' v' ∧
    (∀ j, (j < n)%nat → v_known v' j = None ∧ v_concrete v' j = false ∧ v_flushed v' j = true) ∧
    v_store v' = v_store v ∧ v_root v' = v_root v ∧ v_head v' = v_head v ∧
    v_object v' = v_object v ∧ v_owner v' = v_owner v ∧ v_readOnly v' = v_readOnly v.
Proof.
  revert i os v. induction k as [|k IH]; intros i os v Hs Hk Hkn Hcn Hfl; cbn [symbolic_loop].
  { apply yields_done. exists v. split_and!; try done. intros j Hj.
    split_and!; [auto|apply Hcn; lia|apply Hfl; lia]. }
  ystep. eapply yields_mono; [apply (markByteSymbolic_ok n _ _ i Hs); lia|]. intros os1 Hs1.
  ystep. eapply yields_mono; [apply (setKnownSymbolic_ok n _ _ i None Hs1); lia|]. intros os2 Hs2.
  ystep. eapply yields_mono; [apply (markByteFlushed_ok n _ _ i Hs2); lia|]. intros os3 [_ Hs3].
  replace (Z.of_nat i + 1) with (Z.of_nat (S i)) by lia.
  eapply yields_mono; [apply (IH (S i) os3 _ Hs3); [lia|..]|].
  - intros j Hj. cbn. unfold upd. case_decide; auto.
  - intros j Hj. cbn. unfold upd. case_decide; [done|]. apply Hcn. lia.
  - intros j Hj. cbn. case_match; [|done]. unfold upd. case_decide; [done|]. apply Hfl. lia.
  - intros os' (v' & ? & ? & ? & ? & ? & ? & ? & ?). exists v'. by split_and!.
Qed.

Lemma new_ObjectState_array_ok n mo array uninit :
  mo_size mo = Z.of_nat n → Z.of_nat n + 31 < 2 ^ 32 → length uninit = n → Forall (bounded 8) uninit →
  new_ObjectState_array mo array uninit ⇓ λ os, object os = mo ∧ copyOnWriteOwner os = 0 ∧ readOnly os = false ∧
    shows n os (view_of os) ∧ coherent n (view_of os) ∧
    ∀ ρ i, (i < n)%nat → content ρ (view_of os) i = initial_byte ρ array (Z.of_nat i).
Proof.
  intros Hsz Hn Hlen Hb. unfold new_ObjectState_array, makeSymbolic. ystep; [done|]. cbn [os_size]. rewrite Hsz, Nat2Z.id.
  set (os0 := mkObjectState _ _ _ _ _ _ _ _ _ _).
  assert (∀ i, (i < n)%nat → uninit !! i = Some (default 0 (uninit !! i))) as Hlk.
  { intros i Hi. by destruct (lookup_lt_is_Some_2 uninit i) as [x ->]; [lia|]. }
  assert (shows n os0 (view_of os0)) as Hs0 by (by split).
  change 0 with (Z.of_nat 0). eapply yields_mono; [apply (symbolic_loop_ok n n 0 os0 _ Hs0); [lia|done|lia|lia]|].
  intros os (v' & Hs & Hbytes & Hst & Hr & Hh & Hob & How & Hro). destruct (shows_view_of _ _ _ Hs) as [Hsv Hsame].
  assert (∀ ρ i, (i < n)%nat → content ρ v' i = list_value ρ (v_root v') (v_head v') (Z.of_nat i)) as Hcon.
  { intros ρ i Hi. unfold content. by destruct (Hbytes i Hi) as (-> & -> & _). }
  split_and!.
  - by rewrite (sh_object _ _ _ Hs), Hob.
  - by rewrite (sh_owner _ _ _ Hs), How.
  - by rewrite (sh_readOnly _ _ _ Hs), Hro.
  - done.
  - eapply same_coherent; [done|]. split.
    + intros i Hi. rewrite Hst. rewrite Forall_lookup in Hb. by apply (Hb i), Hlk.
    + intros i e Hi. by destruct (Hbytes i Hi) as (-> & _).
    + intros i Hi. by destruct (Hbytes i Hi) as (_ & _ & ->).
    + by rewrite Hh.
    + by rewrite Hr.
    + auto.
  - intros ρ i Hi. rewrite (same_content n ρ v') by done. rewrite Hcon, Hr, Hh by done. done.
Qed.

(** A copy holds the same bytes; it has no owner. *)
Lemma copy_ObjectState_ok n os :
  shows n os (view_of os) → readOnly os = false →
  copy_ObjectState os = Done (set_copyOnWriteOwner 0 os).
Proof.
  intros [] Hro. unfold copy_ObjectState. rewrite Hro. cbn [negb cassert mbind outcome_bind].
  assert (∀ b, (∀ b', b = Some b' → mask_ok n b') → copy_mask b (os_size os) = Done b) as Hcopy.
  { intros [b|] Hb; [|done]. cbn. rewrite sh_size0, (mask_copy n) by auto. done. }
  rewrite !Hcopy by done. cbn. destruct os. cbn in *. by subst.
Qed.

Lemma isAllConcrete_ok n os beyond :
  shows n os (view_of os) →
  isAllConcrete beyond os = true ↔ ∀ i, (i < n)%nat → v_concrete (view_of os) i = true.
Proof.
  intros []. unfold isAllConcrete. cbn. unfold concrete_of.
  destruct (concreteMask os) as [b|] eqn:E; [|done]. rewrite sh_size0. apply mask_all_ones. auto.
Qed.

(** Facts of a whole memory from those of its object *)
Lemma memory_of_object n os h c :
  isSharedConcrete (object os) = false → shows n os (view_of os) → coherent n (view_of os) →
  memory_ok n (mkMemory os h c).
Proof. intros Hsh Hs Hc. split; [done..|]. intros i Hs'. unfold shared in Hs'. cbn in Hs'. congruence. Qed.

Lemma byte_of_object ρ os h c i :
  isSharedConcrete (object os) = false → byte ρ (mkMemory os h c) i = content ρ (view_of os) i.
Proof. intros Hsh. unfold byte, shared. cbn. by rewrite Hsh. Qed.

(** ** Properties *)

(** C15: a memory object is an array of bytes, on a little-endian target and with the
    constant-array optimisation off.  Any sequence of reads and writes, at
    constant and at symbolic offsets, of constant and of symbolic values of one to
    eight bytes, returns; under every assignment, each read that is in bounds has
    the value of the bytes that were last written there, in little-endian order,
    and the caches keep their invariant. *)
Theorem memory_refines_bytes n ops m :
  memory_ok n m → Forall (op_ok n m) ops →
  runs (run_memory_ops ops) m (λ es m', memory_ok n m' ∧ ∀ ρ, wf_assignment ρ →
    (∀ i, (i < n)%nat → byte ρ m' i = (spec_ops ρ n ops (byte ρ m)).2 i) ∧
    Forall2 (λ e ov, ∀ x, ov = Some x → eval ρ e = x) es (spec_ops ρ n ops (byte ρ m)).1).
Proof.
  intros Hm Hops. eapply runs_mono; [by apply (run_ops_ok n ops m)|].
  intros es m' [Hm' Hspec]. split; [done|]. intros ρ Hρ. by apply Hspec.
Qed.
End bytes.

Section construction.
Context `{APIntLaws} `{WfStore} `{ObjectIdentity} `{Options} `{Context} `{MemoryOptions} `{ArrayAlloc} `{!ArrayAllocLaws}.

(** The constructors establish the invariant: an object on a symbolic array
    holds the bytes of the array, an initialised one holds that byte everywhere,
    and a copy holds the bytes of its source and belongs to no address space. *)
Theorem memory_construction n mo array uninit tmp_arr h c :
  mo_size mo = Z.of_nat n → Z.of_nat n + 31 < 2 ^ 32 → isSharedConcrete mo = false →
  length uninit = n → Forall (bounded 8) uninit →
  (new_ObjectState_array mo array uninit ⇓ λ os, memory_ok n (mkMemory os h c) ∧
    ∀ ρ i, (i < n)%nat → byte ρ (mkMemory os h c) i = initial_byte ρ array (Z.of_nat i)) ∧
  (let zero := mkMemory (initializeToZero (new_ObjectState mo uninit tmp_arr)) h c in
   memory_ok n zero ∧ ∀ ρ i, (i < n)%nat → byte ρ zero i = 0) ∧
  (let random := mkMemory (initializeToRandom (new_ObjectState mo uninit tmp_arr)) h c in
   memory_ok n random ∧ ∀ ρ i, (i < n)%nat → byte ρ random i = 0xAB) ∧
  (∀ os, memory_ok n (mkMemory os h c) → readOnly os = false →
    copy_ObjectState os ⇓ λ os', memory_ok n (mkMemory os' h c) ∧ copyOnWriteOwner os' = 0 ∧
      ∀ ρ i, (i < n)%nat → byte ρ (mkMemory os' h c) i = byte ρ (mkMemory os h c) i).
Proof.
  intros Hsz Hn Hsh Hlen Hb.
  destruct (new_ObjectState_ok n mo uninit tmp_arr Hsz Hn Hlen Hb) as (Hs & Hc & _).
  split_and!.
  - eapply yields_mono; [by apply (new_ObjectState_array_ok n mo array uninit)|].
    intros os (Ho & _ & _ & Hs' & Hc' & Hby). rewrite <- Ho in Hsh.
    split; [by apply memory_of_object|]. intros ρ i Hi. by rewrite byte_of_object, Hby.
  - destruct (initialize_ok n _ 0 Hs Hc (bounded_0 8 ltac:(lia))) as (Hs' & Hc' & Hby).
    split; [by apply memory_of_object|]. intros ρ i Hi. rewrite byte_of_object by done. by apply Hby.
  - destruct (initialize_ok n _ 0xAB Hs Hc ltac:(done)) as (Hs' & Hc' & Hby).
    split; [by apply memory_of_object|]. intros ρ i Hi. rewrite byte_of_object by done. by apply Hby.
  - intros os Hm Hro. destruct Hm as [Hso Hco Hho]. rewrite (copy_ObjectState_ok n) by done. apply yields_done.
    split; [|done]. split; [| |done]; destruct Hso, Hco; by split.
Qed.

(** C36: on a big-endian target no read of more than one byte returns: the first byte
    that the loop reads is the last one, and it is joined to a null expression. *)
Theorem big_endian_read_fails n m off k :
  isLittleEndian = false → ConstArrayOpt = false → memory_ok n m →
  (off + k ≤ n)%nat → (1 < k ≤ 8)%nat →
  read (Z.of_nat off) (8 * Z.of_nat k) m = AssertFailed.
Proof.
  intros Hbe Hopt Hm Hoff Hk. pose proof (sh_bound _ _ _ (mo_shows _ _ Hm)) as Hn. unfold read, read_bytes.
  rewrite (proj2 (Z.eqb_neq _ _)) by (unfold Bool; lia).
  replace (8 * Z.of_nat k / 8) with (Z.of_nat k) by (rewrite Z.mul_comm, Z.div_mul; lia).
  rewrite (proj2 (Z.eqb_eq _ _)) by lia. rewrite Nat2Z.id. destruct k as [|k]; [lia|]. cbn [read_loop].
  unfold byte_index. rewrite Hbe. replace (Z.of_nat (S k) - 0 - 1) with (Z.of_nat k) by lia.
  rewrite u32_small by lia. replace (Z.of_nat off + Z.of_nat k) with (Z.of_nat (off + k)) by lia.
  pose proof (read8_ok Hopt n m (off + k) Hm ltac:(lia)) as Hr. unfold runs, yields in Hr.
  destruct (read8 _ m) as [[e m']| |] eqn:E; [|done..].
  unfold mbind, M_bind. cbn [cassert lift]. cbv beta iota delta [mbind outcome_bind lift].
  rewrite E. by destruct k as [|k]; [lia|].
Qed.
End construction.

(** ** Witnesses *)

Section witnesses.

(** A store that holds every array that can be asked for *)
Definition array_code : Type := Z * (Z * list (Z * Z)).

Definition sample_array_ok (size : Z) (contents : list (Z * Z)) : bool :=
  (0 <=? size) && (size <? 2 ^ 32) &&
  (bool_decide (contents = []) || (Z.of_nat (length contents) =? size)) &&
  forallb (λ c, (c.1 =? 8) && (0 <=? c.2) && (c.2 <? 2 ^ 8)) contents.

Definition empty_array : ArrayObj := mkArray String.EmptyString 4 [].

#[local] Instance code_store : ArrayStore := λ a,
  match decode (A := array_code) a with
  | Some (_, (size, contents)) =>
      if sample_array_ok size contents
      then mkArray String.EmptyString size ((λ c, mkConstant c.1 c.2) <$> contents) else empty_array
  | None => empty_array
  end.

#[local] Instance code_alloc : ArrayAlloc := λ id size contents,
  encode (A := array_code) (id, (size, (λ c, (cwidth c, cvalue c)) <$> contents)).

Lemma empty_array_wf : wf_array empty_array.
Proof. split; [done|]. split; [by left|by constructor]. Qed.

#[local] Instance code_store_wf : WfStore.
Proof.
  intros a. unfold deref, code_store. destruct (decode a) as [[id [size contents]]|]; [|apply empty_array_wf].
  destruct (sample_array_ok size contents) eqn:E; [|apply empty_array_wf]. unfold sample_array_ok in E.
  unbool. split; [done|]. split; cbn.
  - rewrite length_fmap. match goal with Hl : _ || _ = true |- _ => apply orb_prop in Hl as [Hl|Hl] end;
      unbool; subst; [by left|by right].
  - rewrite Forall_fmap. rewrite forallb_forall in *. apply Forall_forall. intros [w v] Hc.
    apply list_elem_of_In in Hc. match goal with Ha : ∀ x, In x _ → _ |- _ => specialize (Ha _ Hc) end.
    cbn in *. unbool. subst. done.
Qed.

Lemma code_array_ok size contents :
  wf_array (mkArray String.EmptyString size contents) →
  sample_array_ok size ((λ c, (cwidth c, cvalue c)) <$> contents) = true.
Proof.
  intros (Hs & Hl & Hc). cbn in *. unfold sample_array_ok. rewrite !andb_true_iff, !Z.leb_le, Z.ltb_lt.
  split; [split; [lia|]|].
  - apply orb_true_iff. destruct Hl as [->|Hl]; [by left|right]. rewrite length_fmap. by apply Z.eqb_eq.
  - apply forallb_forall. intros c Hin. apply list_elem_of_In, list_elem_of_fmap in Hin as ([w v] & -> & Hin).
    rewrite Forall_forall in Hc. destruct (Hc _ Hin) as [[_ [Hb1 Hb2]] Hw]. cbn in *. subst w.
    unfold Int8 in *. rewrite !andb_true_iff, Z.eqb_eq, Z.leb_le, Z.ltb_lt. done.
Qed.

#[local] Instance code_alloc_laws : ArrayAllocLaws.
Proof.
  intros id size contents Hwf. unfold deref, code_store, new_Array, code_alloc. rewrite decode_encode.
  rewrite code_array_ok by done. cbn. split; [done|]. rewrite <- list_fmap_compose.
  rewrite <- (list_fmap_id contents) at 2. apply list_fmap_ext. by intros _ [w v] _.
Qed.

#[local] Existing Instance identity.
#[local] Instance opt_off : Options := const_array_opt false.
#[local] Instance little : Context := {| isLittleEndian := true; getPointerWidth := 32 |}.
#[local] Instance use_constant_arrays : MemoryOptions := {| UseConstantArrays := true |}.

Definition sample_mo : MemoryObject := mkMemoryObject 0x1000 4 false false.
Definition sample_memory : Memory :=
  mkMemory (initializeToZero (new_ObjectState sample_mo [1; 2; 3; 4] 0)) ∅ 0.

(** A store of two constant bytes, one at a symbolic offset, and a load of both *)
Definition sample_ops : list MemoryOp :=
  [OpWrite (const 1 32) (const 0x1234 16); OpWrite (ZExt (Sample.input 0) 32) (Sample.input 1);
   OpRead (const 1 32) 16].

Lemma sample_memory_ok : memory_ok 4 sample_memory.
Proof.
  destruct (new_ObjectState_ok 4 sample_mo [1; 2; 3; 4] 0) as (Hs & Hc & _); [done..|by repeat constructor|].
  destruct (initialize_ok 4 _ 0 Hs Hc (bounded_0 8 ltac:(lia))) as (Hs' & Hc' & _). by apply memory_of_object.
Qed.

Lemma sample_ops_ok : Forall (op_ok 4 sample_memory) sample_ops.
Proof.
  assert (∀ w k, w = 8 * Z.of_nat k → (0 < k ≤ 8)%nat → bytes_of w k) as Hw by (by right).
  assert (op_ok 4 sample_memory (OpWrite (const 1 32) (const 0x1234 16))) as H1.
  { split; [split; [done|by vm_compute; lia]|].
    split; [done|]. split; [apply (Hw 16 2%nat); lia|]. by repeat constructor. }
  assert (op_ok 4 sample_memory (OpWrite (ZExt (Sample.input 0) 32) (Sample.input 1))) as H2.
  { split; [split; [done|]|split; [done|]; split; [apply (Hw 8 1%nat); lia|done]].
    split; [done|]. intros i Hi. change (i < 1)%nat in Hi. assert (i = 0)%nat as -> by lia. by vm_compute. }
  assert (op_ok 4 sample_memory (OpRead (const 1 32) 16)) as H3.
  { split; [apply (Hw 16 2%nat); lia|]. split; [done|]. vm_compute. lia. }
  apply Forall_cons_2; [exact H1|apply Forall_cons_2; [exact H2|by apply Forall_singleton]].
Qed.

Lemma memory_refines_bytes_witness :
  run_memory_ops sample_ops sample_memory ⇓ (λ r, length r.1 = 1%nat) ∧
  runs (run_memory_ops sample_ops) sample_memory (λ es m', memory_ok 4 m' ∧ ∀ ρ, wf_assignment ρ →
    (∀ i, (i < 4)%nat → byte ρ m' i = (spec_ops ρ 4 sample_ops (byte ρ sample_memory)).2 i) ∧
    Forall2 (λ e ov, ∀ x, ov = Some x → eval ρ e = x) es (spec_ops ρ 4 sample_ops (byte ρ sample_memory)).1).
Proof.
  split; [by vm_compute|].
  exact (memory_refines_bytes eq_refl eq_refl 4 sample_ops sample_memory sample_memory_ok sample_ops_ok).
Defined.

Lemma memory_construction_witness :
  new_ObjectState_array sample_mo 2%positive [1; 2; 3; 4] ⇓ (λ os, flushMask os = Some [0]) ∧
  (new_ObjectState_array sample_mo 2%positive [1; 2; 3; 4] ⇓ λ os, memory_ok 4 (mkMemory os ∅ 0) ∧
    ∀ ρ i, (i < 4)%nat → byte ρ (mkMemory os ∅ 0) i = initial_byte ρ 2%positive (Z.of_nat i)).
Proof.
  split; [by vm_compute|].
  refine (proj1 (memory_construction 4 sample_mo 2%positive [1; 2; 3; 4] 0 ∅ 0 _ _ _ _ _)); [done..|].
  by repeat constructor.
Defined.

#[local] Instance big : Context := {| isLittleEndian := false; getPointerWidth := 32 |}.

Lemma big_endian_read_fails_witness : read 1 16 sample_memory = AssertFailed.
Proof. refine (big_endian_read_fails 4 sample_memory 1 2 eq_refl eq_refl sample_memory_ok _ _); lia. Defined.
End witnesses.
