(* ===== verification/SearchTree.v ===== *)
(** * Balanced search trees as values

    What an [ImmutableTree] of [Internal/ADT/ImmutableTree.h] stands for: a binary
    search tree, the sorted list of its values, and the operations on both.  The
    operations of the source, on nodes with reference counts, are in [ImmutableTree]
    and are related to these in [ImmutableTreeProofs]. *)

From stdpp Require Import prelude sorting.
From S2P Require Import Prelude.

(** [key_compare] and [key_of_value], with the laws of a strict weak order: the keys
    of a map of memory objects are pointers, and are compared by their addresses. *)
Class KeyCompare (K : Type) : Type := { key_compare : K → K → bool }.
Class KeyOfValue (K V : Type) : Type := { key_of_value : V → K }.

Class KeyCompareLaws (K : Type) `{KeyCompare K} : Prop := {
  kc_irrefl a : key_compare a a = false;
  kc_trans a b c : key_compare a b = true → key_compare b c = true → key_compare a c = true;
  kc_weak a b c : key_compare a c = true → key_compare a b = true ∨ key_compare b c = true;
}.

Inductive tree (V : Type) : Type :=
| Leaf
| Branch (l : tree V) (v : V) (r : tree V).
Arguments Leaf {V}.
Arguments Branch {V} _ _ _.

Section trees.
Context {K V : Type} `{KeyCompare K} `{KeyOfValue K V}.
Implicit Types (t l r : tree V) (v x y : V) (k : K) (xs ys : list V).

(** [x < y] on values, and [k < x], [x < k] *)
Definition vlt x y : bool := key_compare (key_of_value x) (key_of_value y).
Definition below x k : bool := key_compare (key_of_value x) k.
Definition above k x : bool := key_compare k (key_of_value x).

Fixpoint t_height t : Z :=
  match t with Leaf => 0 | Branch l _ r => Z.max (t_height l) (t_height r) + 1 end.

Fixpoint t_elements t : list V :=
  match t with Leaf => [] | Branch l v r => t_elements l ++ v :: t_elements r end.

Definition t_balance l v r : tree V :=
  if t_height l >? t_height r + 2 then
    match l with
    | Branch ll lv lr =>
        if t_height ll >=? t_height lr then Branch ll lv (Branch lr v r)
        else match lr with
        | Branch lrl lrv lrr => Branch (Branch ll lv lrl) lrv (Branch lrr v r)
        | Leaf => Branch l v r
        end
    | Leaf => Branch l v r
    end
  else if t_height r >? t_height l + 2 then
    match r with
    | Branch rl rv rr =>
        if t_height rr >=? t_height rl then Branch (Branch l v rl) rv rr
        else match rl with
        | Branch rll rlv rlr => Branch (Branch l v rll) rlv (Branch rlr rv rr)
        | Leaf => Branch l v r
        end
    | Leaf => Branch l v r
    end
  else Branch l v r.

Fixpoint t_insert v t : tree V :=
  match t with
  | Leaf => Branch Leaf v Leaf
  | Branch l x r =>
      if vlt v x then t_balance (t_insert v l) x r
      else if vlt x v then t_balance l x (t_insert v r) else t
  end.

Fixpoint t_replace v t : tree V :=
  match t with
  | Leaf => Branch Leaf v Leaf
  | Branch l x r =>
      if vlt v x then t_balance (t_replace v l) x r
      else if vlt x v then t_balance l x (t_replace v r) else Branch l v r
  end.

(** The least and the greatest value with the rest; [d] for the empty tree *)
Fixpoint t_popMin d t : V * tree V :=
  match t with
  | Leaf => (d, Leaf)
  | Branch Leaf v r => (v, r)
  | Branch l v r => let '(m, l') := t_popMin d l in (m, t_balance l' v r)
  end.

Fixpoint t_popMax d t : V * tree V :=
  match t with
  | Leaf => (d, Leaf)
  | Branch l v Leaf => (v, l)
  | Branch l v r => let '(m, r') := t_popMax d r in (m, t_balance l v r')
  end.

Fixpoint t_remove d k t : tree V :=
  match t with
  | Leaf => Leaf
  | Branch l x r =>
      if above k x then t_balance (t_remove d k l) x r
      else if below x k then t_balance l x (t_remove d k r)
      else match l, r with
      | Leaf, _ => r
      | _, Leaf => l
      | _, _ => let '(m, r') := t_popMin d r in t_balance l m r'
      end
  end.

(** ** Sorted lists *)

Abbreviation sorted := (StronglySorted (λ x y, vlt x y = true)).

Fixpoint list_insert v xs : list V :=
  match xs with
  | [] => [v]
  | x :: xs => if vlt v x then v :: x :: xs else if vlt x v then x :: list_insert v xs else x :: xs
  end.

Fixpoint list_replace v xs : list V :=
  match xs with
  | [] => [v]
  | x :: xs => if vlt v x then v :: x :: xs else if vlt x v then x :: list_replace v xs else v :: xs
  end.

Fixpoint list_remove k xs : list V :=
  match xs with
  | [] => []
  | x :: xs => if above k x then x :: xs else if below x k then x :: list_remove k xs else xs
  end.

(** The value with the key [k]; the last one with a key that is not above [k]; those
    from the first whose key is not below [k], and those from the first above [k] *)
Definition same_key k x : bool := negb (above k x) && negb (below x k).
Definition list_find k xs : option V := List.find (same_key k) xs.
Definition list_previous k xs : option V := last (filter (λ x, above k x = false) xs).
Definition list_from k xs : list V := filter (λ x, below x k = false) xs.
Definition list_after k xs : list V := filter (λ x, above k x = true) xs.

(** ** Balance *)

Fixpoint t_balanced t : Prop :=
  match t with
  | Leaf => True
  | Branch l _ r =>
      t_balanced l ∧ t_balanced r ∧ - 2 ≤ t_height l - t_height r ≤ 2
  end.

Lemma t_height_pos t : 0 ≤ t_height t.
Proof. induction t; cbn; lia. Qed.

Ltac heights :=
  repeat match goal with
  | t : tree V |- _ => lazymatch goal with
    | _ : 0 ≤ t_height t |- _ => fail
    | _ => pose proof (t_height_pos t) end
  end.

Ltac balance_solve := heights; cbn in *; destruct_and?; split_and?; try done; try intros [? ?]; lia.

(** Rebalancing restores the balance of trees that differ by at most three, and
    changes the height by at most one. *)
Lemma t_balance_balanced l v r :
  t_balanced l → t_balanced r → - 3 ≤ t_height l - t_height r ≤ 3 →
  t_balanced (t_balance l v r) ∧
  Z.max (t_height l) (t_height r) ≤ t_height (t_balance l v r) ≤ Z.max (t_height l) (t_height r) + 1 ∧
  (- 2 ≤ t_height l - t_height r ≤ 2 → t_height (t_balance l v r) = Z.max (t_height l) (t_height r) + 1).
Proof.
  intros Hl Hr Hd. heights. unfold t_balance. rewrite !Z.gtb_ltb.
  destruct (Z.ltb_spec (t_height r + 2) (t_height l)) as [Hlt|Hge].
  - destruct l as [|ll lv lr]; [balance_solve|]. rewrite Z.geb_leb.
    destruct (Z.leb_spec (t_height lr) (t_height ll)); [balance_solve|].
    destruct lr; balance_solve.
  - destruct (Z.ltb_spec (t_height l + 2) (t_height r)) as [Hlt|Hge']; [|balance_solve].
    destruct r as [|rl rv rr]; [balance_solve|]. rewrite Z.geb_leb.
    destruct (Z.leb_spec (t_height rl) (t_height rr)); [balance_solve|].
    destruct rl; balance_solve.
Qed.

Lemma t_insert_balanced v t :
  t_balanced t → t_balanced (t_insert v t) ∧ t_height t ≤ t_height (t_insert v t) ≤ t_height t + 1.
Proof.
  induction t as [|l IHl x r IHr]; [by cbn; lia|]. intros (Hl & Hr & Hd). cbn [t_insert].
  destruct (IHl Hl) as [Hl' ?], (IHr Hr) as [Hr' ?]. case_step; [|case_step; [|balance_solve]].
  - destruct (t_balance_balanced (t_insert v l) x r) as (? & ? & ?); [done..|lia|]. cbn [t_height]. split; [done|lia].
  - destruct (t_balance_balanced l x (t_insert v r)) as (? & ? & ?); [done..|lia|]. cbn [t_height]. split; [done|lia].
Qed.

Lemma t_replace_balanced v t :
  t_balanced t → t_balanced (t_replace v t) ∧ t_height t ≤ t_height (t_replace v t) ≤ t_height t + 1.
Proof.
  induction t as [|l IHl x r IHr]; [by cbn; lia|]. intros (Hl & Hr & Hd). cbn [t_replace].
  destruct (IHl Hl) as [Hl' ?], (IHr Hr) as [Hr' ?]. case_step; [|case_step; [|balance_solve]].
  - destruct (t_balance_balanced (t_replace v l) x r) as (? & ? & ?); [done..|lia|]. cbn [t_height]. split; [done|lia].
  - destruct (t_balance_balanced l x (t_replace v r)) as (? & ? & ?); [done..|lia|]. cbn [t_height]. split; [done|lia].
Qed.

Lemma t_popMin_balanced d t :
  t_balanced t → t_balanced (t_popMin d t).2 ∧ t_height t - 1 ≤ t_height (t_popMin d t).2 ≤ t_height t.
Proof.
  induction t as [|l IHl x r IHr]; [by cbn; lia|]. intros (Hl & Hr & Hd).
  destruct (IHl Hl) as [Hl' ?]. destruct l as [|ll lv lr]; [balance_solve|]. set (l := Branch ll lv lr) in *.
  change (t_popMin d (Branch l x r)) with (let '(m, l') := t_popMin d l in (m, t_balance l' x r)).
  destruct (t_popMin d l) as [m l']. cbn in *.
  destruct (t_balance_balanced l' x r) as (? & ? & ?); [done..|lia|]. split; [done|lia].
Qed.

Lemma t_popMax_balanced d t :
  t_balanced t → t_balanced (t_popMax d t).2 ∧ t_height t - 1 ≤ t_height (t_popMax d t).2 ≤ t_height t.
Proof.
  induction t as [|l IHl x r IHr]; [by cbn; lia|]. intros (Hl & Hr & Hd).
  destruct (IHr Hr) as [Hr' ?]. destruct r as [|rl rv rr]; [balance_solve|]. set (r := Branch rl rv rr) in *.
  change (t_popMax d (Branch l x r)) with (let '(m, r') := t_popMax d r in (m, t_balance l x r')).
  destruct (t_popMax d r) as [m r']. cbn in *.
  destruct (t_balance_balanced l x r') as (? & ? & ?); [done..|lia|]. split; [done|lia].
Qed.

Lemma t_remove_balanced d k t :
  t_balanced t → t_balanced (t_remove d k t) ∧ t_height t - 1 ≤ t_height (t_remove d k t) ≤ t_height t.
Proof.
  induction t as [|l IHl x r IHr]; [by cbn; lia|]. intros (Hl & Hr & Hd). cbn [t_remove].
  destruct (IHl Hl) as [Hl' ?], (IHr Hr) as [Hr' ?]. case_step; [|case_step].
  - destruct (t_balance_balanced (t_remove d k l) x r) as (? & ? & ?); [done..|lia|]. cbn [t_height]. split; [done|lia].
  - destruct (t_balance_balanced l x (t_remove d k r)) as (? & ? & ?); [done..|lia|]. cbn [t_height]. split; [done|lia].
  - destruct l as [|ll lv lr]; [balance_solve|]. destruct r as [|rl rv rr]; [balance_solve|].
    destruct (t_popMin_balanced d _ Hr) as [Hp ?]. set (r := Branch rl rv rr) in *. set (l := Branch ll lv lr) in *.
    destruct (t_popMin d r) as [m r']. cbn [snd] in *.
    destruct (t_balance_balanced l m r') as (? & ? & ?); [done..|lia|]. cbn [t_height]. split; [done|lia].
Qed.

(** A balanced tree of [n] values has a height of at most three times the binary
    logarithm of [n + 1]. *)
Lemma cube_sum a b X : 0 ≤ a → 0 ≤ b → 4 * X ≤ a ^ 3 → X ≤ b ^ 3 → 8 * X ≤ (a + b) ^ 3.
Proof.
  intros Ha Hb HaX HbX. assert (X ≤ a * b * (a + b)) as Hm.
  { destruct (Z.le_gt_cases a b).
    - transitivity (a ^ 3); [lia|]. assert (a * a ≤ a * b) by nia. nia.
    - transitivity (b ^ 3); [lia|]. assert (b * b ≤ a * b) by nia. nia. }
  lia.
Qed.

Lemma t_balanced_size t :
  t_balanced t → 2 ^ t_height t ≤ (Z.of_nat (length (t_elements t)) + 1) ^ 3.
Proof.
  induction t as [|l IHl v r IHr]; [done|]. intros (Hl & Hr & Hd). cbn [t_height t_elements].
  rewrite length_app. cbn [length]. specialize (IHl Hl). specialize (IHr Hr). heights.
  set (a := Z.of_nat (length (t_elements l)) + 1) in *. set (b := Z.of_nat (length (t_elements r)) + 1) in *.
  replace (Z.of_nat _ + 1) with (a + b) by lia. assert (1 ≤ a ∧ 1 ≤ b) as [Ha Hb] by lia.
  destruct (Z.le_gt_cases 2 (Z.max (t_height l) (t_height r))) as [Hm|Hm].
  2:{ transitivity (2 ^ 2); [apply pow2_le; lia|]. transitivity (2 ^ 3); [done|]. apply Z.pow_le_mono_l. lia. }
  set (e := Z.max (t_height l) (t_height r) - 2).
  replace (_ + 1) with (3 + e) by lia. rewrite pow2_add by lia. change (2 ^ 3) with 8.
  destruct (Z.le_gt_cases (t_height r) (t_height l)) as [Hlr|Hlr].
  - assert (2 ^ (2 + e) ≤ 2 ^ t_height l) by (apply pow2_le; lia). rewrite pow2_add in * by lia.
    assert (2 ^ e ≤ 2 ^ t_height r) by (apply pow2_le; lia). apply cube_sum; lia.
  - assert (2 ^ (2 + e) ≤ 2 ^ t_height r) by (apply pow2_le; lia). rewrite pow2_add in * by lia.
    assert (2 ^ e ≤ 2 ^ t_height l) by (apply pow2_le; lia). rewrite Z.add_comm. apply cube_sum; lia.
Qed.

(** ** The values of a tree *)

Lemma t_balance_elements l v r : t_elements (t_balance l v r) = t_elements l ++ v :: t_elements r.
Proof.
  unfold t_balance. repeat case_step; subst; cbn; rewrite <- ?app_assoc; cbn; by rewrite <- ?app_assoc.
Qed.

Lemma t_popMin_elements d t :
  t ≠ Leaf → t_elements t = (t_popMin d t).1 :: t_elements (t_popMin d t).2.
Proof.
  induction t as [|l IHl x r IHr]; [done|]. intros _. destruct l as [|ll lv lr]; [done|].
  set (l := Branch ll lv lr) in *.
  change (t_popMin d (Branch l x r)) with (let '(m, l') := t_popMin d l in (m, t_balance l' x r)).
  cbn [t_elements]. rewrite IHl by done. destruct (t_popMin d l) as [m l']. cbn.
  by rewrite t_balance_elements.
Qed.

Lemma t_popMax_elements d t :
  t ≠ Leaf → t_elements t = t_elements (t_popMax d t).2 ++ [(t_popMax d t).1].
Proof.
  induction t as [|l IHl x r IHr]; [done|]. intros _. destruct r as [|rl rv rr]; [done|].
  set (r := Branch rl rv rr) in *.
  change (t_popMax d (Branch l x r)) with (let '(m, r') := t_popMax d r in (m, t_balance l x r')).
  cbn [t_elements]. rewrite IHr by done. destruct (t_popMax d r) as [m r']. cbn.
  rewrite t_balance_elements. by rewrite <- app_assoc.
Qed.

Context `{!KeyCompareLaws K}.

Lemma kc_asym (a b : K) : key_compare a b = true → key_compare b a = false.
Proof.
  intros Hab. destruct (key_compare b a) eqn:E; [|done].
  pose proof (kc_trans a b a Hab E) as Haa. by rewrite kc_irrefl in Haa.
Qed.

(** [a ≤ b < c] and [a < b ≤ c] *)
Lemma kc_le_lt (a b c : K) : key_compare b a = false → key_compare b c = true → key_compare a c = true.
Proof. intros Hba Hbc. destruct (kc_weak b a c Hbc); [congruence|done]. Qed.

Lemma kc_lt_le (a b c : K) : key_compare a b = true → key_compare c b = false → key_compare a c = true.
Proof. intros Hab Hcb. destruct (kc_weak a c b Hab); [done|congruence]. Qed.

Lemma vlt_trans x y z : vlt x y = true → vlt y z = true → vlt x z = true.
Proof. apply kc_trans. Qed.

Lemma sorted_cons x xs : sorted (x :: xs) ↔ sorted xs ∧ ∀ y, y ∈ xs → vlt x y = true.
Proof.
  split.
  - intros Hs. apply StronglySorted_inv in Hs as [? Hf]. split; [done|]. by rewrite Forall_forall in Hf.
  - intros [? Hf]. constructor; [done|]. by rewrite Forall_forall.
Qed.

Lemma sorted_middle xs x ys :
  sorted (xs ++ x :: ys) ↔ sorted xs ∧ sorted ys ∧
    (∀ y, y ∈ xs → vlt y x = true) ∧ (∀ y, y ∈ ys → vlt x y = true).
Proof.
  induction xs as [|a xs IH]; cbn [app].
  - rewrite sorted_cons. split; [intros [? ?]|intros (_ & ? & _ & ?)]; [|done].
    split_and!; try done; [constructor|]. intros ? Hy. by apply elem_of_nil in Hy.
  - rewrite !sorted_cons, IH. setoid_rewrite elem_of_app. setoid_rewrite elem_of_cons. split.
    + intros ((? & ? & ? & ?) & Ha). split_and!; try done; [auto|]. intros y [->|?]; auto.
    + intros ((? & Ha) & ? & Hx & ?). split_and!; try done; [auto|]. intros y [?|[->|?]]; [auto..|].
      apply (vlt_trans _ x); [apply Hx; by left|]. by auto.
Qed.

(** What an operation at a key does to a list that is split at [x] *)
Lemma list_insert_left v xs x ys :
  vlt v x = true → list_insert v (xs ++ x :: ys) = list_insert v xs ++ x :: ys.
Proof.
  intros Hv. induction xs as [|y xs IH]; cbn; [by rewrite Hv|]. repeat case_match; cbn; by rewrite ?IH.
Qed.

Lemma list_insert_right v xs ys :
  (∀ y, y ∈ xs → vlt y v = true) → list_insert v (xs ++ ys) = xs ++ list_insert v ys.
Proof.
  induction xs as [|y xs IH]; [done|]. setoid_rewrite elem_of_cons. intros Hv. cbn. unfold vlt in *.
  rewrite kc_asym, (Hv y), IH by auto. done.
Qed.

Lemma list_replace_left v xs x ys :
  vlt v x = true → list_replace v (xs ++ x :: ys) = list_replace v xs ++ x :: ys.
Proof.
  intros Hv. induction xs as [|y xs IH]; cbn; [by rewrite Hv|]. repeat case_match; cbn; by rewrite ?IH.
Qed.

Lemma list_replace_right v xs ys :
  (∀ y, y ∈ xs → vlt y v = true) → list_replace v (xs ++ ys) = xs ++ list_replace v ys.
Proof.
  induction xs as [|y xs IH]; [done|]. setoid_rewrite elem_of_cons. intros Hv. cbn. unfold vlt in *.
  rewrite kc_asym, (Hv y), IH by auto. done.
Qed.

Lemma list_remove_left k xs x ys :
  above k x = true → list_remove k (xs ++ x :: ys) = list_remove k xs ++ x :: ys.
Proof.
  intros Hv. induction xs as [|y xs IH]; cbn; [by rewrite Hv|]. repeat case_match; cbn; by rewrite ?IH.
Qed.

Lemma list_remove_right k xs ys :
  (∀ y, y ∈ xs → below y k = true) → list_remove k (xs ++ ys) = xs ++ list_remove k ys.
Proof.
  induction xs as [|y xs IH]; [done|]. setoid_rewrite elem_of_cons. intros Hv. cbn. unfold above, below in *.
  rewrite kc_asym, (Hv y), IH by auto. done.
Qed.

Lemma t_insert_elements v t :
  sorted (t_elements t) → t_elements (t_insert v t) = list_insert v (t_elements t).
Proof.
  induction t as [|l IHl x r IHr]; [done|]. cbn. intros (Hl & Hr & Hlx & Hxr)%sorted_middle.
  destruct (vlt v x) eqn:Ev; [by rewrite t_balance_elements, IHl, list_insert_left|].
  assert (∀ y, y ∈ t_elements l → vlt y v = true) as Hlv by (intros; eapply kc_lt_le; [by apply Hlx|done]).
  rewrite list_insert_right by done. cbn. rewrite Ev. case_match; [by rewrite t_balance_elements, IHr|done].
Qed.

Lemma t_replace_elements v t :
  sorted (t_elements t) → t_elements (t_replace v t) = list_replace v (t_elements t).
Proof.
  induction t as [|l IHl x r IHr]; [done|]. cbn. intros (Hl & Hr & Hlx & Hxr)%sorted_middle.
  destruct (vlt v x) eqn:Ev; [by rewrite t_balance_elements, IHl, list_replace_left|].
  assert (∀ y, y ∈ t_elements l → vlt y v = true) as Hlv by (intros; eapply kc_lt_le; [by apply Hlx|done]).
  rewrite list_replace_right by done. cbn. rewrite Ev. case_match; [by rewrite t_balance_elements, IHr|done].
Qed.

Lemma t_remove_elements d k t :
  sorted (t_elements t) → t_elements (t_remove d k t) = list_remove k (t_elements t).
Proof.
  induction t as [|l IHl x r IHr]; [done|]. cbn [t_elements t_remove]. intros (Hl & Hr & Hlx & Hxr)%sorted_middle.
  destruct (above k x) eqn:Ev; [by rewrite t_balance_elements, IHl, list_remove_left|].
  assert (∀ y, y ∈ t_elements l → below y k = true) as Hlv by (intros; eapply kc_lt_le; [by apply Hlx|done]).
  rewrite list_remove_right by done. cbn. rewrite Ev.
  destruct (below x k); [by rewrite t_balance_elements, IHr|].
  destruct l as [|ll lv lr]; [done|]. destruct r as [|rl rv rr]; [cbn; by rewrite app_nil_r|].
  set (r := Branch rl rv rr) in *. rewrite (t_popMin_elements d r) by done.
  destruct (t_popMin d r) as [m r']. by rewrite t_balance_elements.
Qed.

(** ** Keys in sorted lists *)

Lemma above_not_below k x : above k x = true → below x k = false.
Proof. apply kc_asym. Qed.

Lemma below_not_above k x : below x k = true → above k x = false.
Proof. apply kc_asym. Qed.

Lemma above_mono k x y : below x k = false → vlt x y = true → above k y = true.
Proof. apply kc_le_lt. Qed.

Lemma below_mono k x y : above k x = false → vlt y x = true → below y k = true.
Proof. intros Hk Hy. by apply (kc_lt_le _ (key_of_value x)). Qed.

Lemma filter_every P `{∀ x : V, Decision (P x)} xs : (∀ x, x ∈ xs → P x) → filter P xs = xs.
Proof.
  induction xs as [|x xs IH]; [done|]. setoid_rewrite elem_of_cons. intros HP.
  rewrite filter_cons_True, IH by auto. done.
Qed.

Lemma filter_none P `{∀ x : V, Decision (P x)} xs : (∀ x, x ∈ xs → ¬ P x) → filter P xs = [].
Proof.
  induction xs as [|x xs IH]; [done|]. setoid_rewrite elem_of_cons. intros HP.
  rewrite filter_cons_False, IH by auto. done.
Qed.

(** The keys of a sorted list around [x] *)
Lemma keys_above k xs x ys y :
  sorted (xs ++ x :: ys) → below x k = false → y ∈ ys → above k y = true.
Proof. intros (_ & _ & _ & Hys)%sorted_middle Hk Hy. eapply above_mono; [done|auto]. Qed.

Lemma keys_below k xs x ys y :
  sorted (xs ++ x :: ys) → above k x = false → y ∈ xs → below y k = true.
Proof. intros (_ & _ & Hxs & _)%sorted_middle Hk Hy. eapply below_mono; [done|auto]. Qed.

Lemma find_none k xs : (∀ x, x ∈ xs → same_key k x = false) → list_find k xs = None.
Proof.
  unfold list_find. induction xs as [|x xs IH]; [done|]. setoid_rewrite elem_of_cons. intros Hx. cbn.
  rewrite (Hx x), IH by auto. done.
Qed.

Lemma find_app k xs ys : list_find k xs = None → list_find k (xs ++ ys) = list_find k ys.
Proof. unfold list_find. induction xs as [|x xs IH]; [done|]. cbn. by case_match. Qed.

Lemma same_key_above k x : above k x = true → same_key k x = false.
Proof. unfold same_key. by intros ->. Qed.

Lemma same_key_below k x : below x k = true → same_key k x = false.
Proof. unfold same_key. intros ->. apply andb_false_r. Qed.

Lemma list_find_middle k xs x ys :
  sorted (xs ++ x :: ys) →
  list_find k (xs ++ x :: ys) =
    if above k x then list_find k xs else if below x k then list_find k ys else Some x.
Proof.
  intros Hs. destruct (above k x) eqn:Ea.
  - assert (list_find k (x :: ys) = None) as Hn.
    { apply find_none. intros y [->|Hy]%elem_of_cons; apply same_key_above; [done|].
      by eapply keys_above; [done|apply above_not_below|]. }
    clear Hs. unfold list_find in *. induction xs as [|y xs IH]; [done|].
    cbn [app List.find]. by rewrite IH.
  - rewrite find_app.
    2:{ apply find_none. intros y Hy. apply same_key_below. by eapply keys_below. }
    unfold list_find. cbn. unfold same_key. rewrite Ea. by destruct (below x k).
Qed.

Lemma list_previous_middle k xs x ys :
  sorted (xs ++ x :: ys) →
  list_previous k (xs ++ x :: ys) =
    if above k x then list_previous k xs
    else if below x k then Some (default x (list_previous k ys)) else Some x.
Proof.
  intros Hs. unfold list_previous. rewrite filter_app. destruct (above k x) eqn:Ea.
  - rewrite (filter_none _ (x :: ys)); [by rewrite app_nil_r|]. intros y Hy. apply not_false_iff_true.
    apply elem_of_cons in Hy as [->|Hy]; [done|]. by eapply keys_above; [|apply above_not_below|].
  - rewrite filter_cons_True by done. rewrite last_app_cons. destruct (below x k) eqn:Eb.
    + rewrite last_cons. by destruct (last (filter _ ys)).
    + rewrite filter_none; [done|]. intros y Hy. apply not_false_iff_true. by eapply keys_above.
Qed.

Lemma list_from_middle k xs x ys :
  sorted (xs ++ x :: ys) →
  list_from k (xs ++ x :: ys) =
    if above k x then list_from k xs ++ x :: ys
    else if below x k then list_from k ys else x :: ys.
Proof.
  intros Hs. unfold list_from. rewrite filter_app.
  assert (below x k = false → filter (λ y, below y k = false) (x :: ys) = x :: ys) as Hall.
  { intros Hb. apply filter_every. intros y [->|Hy]%elem_of_cons; [done|].
    apply above_not_below. by eapply keys_above. }
  destruct (above k x) eqn:Ea; [by rewrite Hall by (by apply above_not_below)|].
  rewrite (filter_none _ xs).
  2:{ intros y Hy. apply not_false_iff_true. by eapply keys_below. }
  destruct (below x k) eqn:Eb; [|by apply Hall]. by rewrite filter_cons_False by congruence.
Qed.

(** The values after a key, and the value of a key, from the first that is not below *)
Lemma list_from_cases k xs :
  sorted xs →
  list_after k xs = match list_from k xs with [] => [] | y :: ys => if above k y then y :: ys else ys end ∧
  list_find k xs = match list_from k xs with [] => None | y :: _ => if above k y then None else Some y end.
Proof.
  induction xs as [|x xs IH]; [done|]. intros Hs. pose proof Hs as [Hs' _]%sorted_cons.
  destruct (IH Hs') as [IHa IHf].
  pose proof (list_find_middle k [] x xs Hs) as Hfm. cbn [app] in Hfm. rewrite Hfm.
  unfold list_after, list_from in *. rewrite !filter_cons. destruct (below x k) eqn:Eb.
  - pose proof (below_not_above _ _ Eb) as Ea. rewrite Ea. rewrite !decide_False by done. done.
  - assert (∀ y, y ∈ xs → above k y = true) as Hxs by (intros; by eapply (keys_above k [])).
    rewrite (decide_True (P := false = false)) by done.
    rewrite (filter_every (λ y, above k y = true)) by done.
    rewrite (filter_every (λ y, below y k = false)) by (intros; apply above_not_below; auto).
    by destruct (above k x).
Qed.

Lemma split_from k xs : sorted xs → xs = filter (λ x, below x k = true) xs ++ list_from k xs.
Proof.
  unfold list_from. induction xs as [|x xs IH]; [done|]. intros Hs. pose proof Hs as [Hs' _]%sorted_cons.
  destruct (below x k) eqn:Eb.
  - rewrite filter_cons_True, filter_cons_False by congruence. cbn. by rewrite <- IH.
  - assert (∀ y, y ∈ xs → below y k = false) as Hxs
      by (intros; apply above_not_below; by eapply (keys_above k [])).
    rewrite filter_cons_False, filter_cons_True by congruence.
    rewrite (filter_none (λ x, below x k = true)) by (intros y Hy; rewrite Hxs by done; done).
    by rewrite (filter_every (λ x, below x k = false)).
Qed.

(** ** The operations on sorted lists make a finite map *)

Lemma kc_congr (a b : K) :
  key_compare a b = false → key_compare b a = false →
  ∀ c, key_compare a c = key_compare b c ∧ key_compare c a = key_compare c b.
Proof.
  intros Hab Hba c. split.
  - destruct (key_compare b c) eqn:E; [by eapply kc_le_lt|].
    destruct (key_compare a c) eqn:E'; [|done]. pose proof (kc_le_lt b a c). naive_solver.
  - destruct (key_compare c b) eqn:E; [by eapply kc_lt_le|].
    destruct (key_compare c a) eqn:E'; [|done]. pose proof (kc_lt_le c a b). naive_solver.
Qed.

Lemma sorted_list_insert v xs : sorted xs → sorted (list_insert v xs).
Proof.
  assert (∀ ys y, y ∈ list_insert v ys → y = v ∨ y ∈ ys) as Hin.
  { induction ys as [|x ys IH]; intros y; cbn; [by intros ->%list_elem_of_singleton; left|].
    repeat case_match; rewrite ?elem_of_cons; naive_solver. }
  induction xs as [|x xs IH]; intros Hs; [repeat constructor|]. cbn.
  destruct (vlt v x) eqn:E1; [|destruct (vlt x v) eqn:E2; [|done]].
  - apply sorted_cons. split; [done|]. apply sorted_cons in Hs as [_ Hx].
    intros y [->|Hy]%elem_of_cons; [done|]. eapply vlt_trans; eauto.
  - apply sorted_cons in Hs as [? Hx]. apply sorted_cons. split; [auto|].
    intros y [->|Hy]%Hin; [done|auto].
Qed.

Lemma elem_of_list_replace v xs y : y ∈ list_replace v xs → y = v ∨ y ∈ xs.
Proof.
  induction xs as [|x xs IH]; cbn; [by intros ->%list_elem_of_singleton; left|].
  repeat case_match; rewrite ?elem_of_cons; naive_solver.
Qed.

Lemma list_replace_new v xs : v ∈ list_replace v xs.
Proof. induction xs as [|x xs IH]; cbn; [by left|]. repeat case_match; rewrite ?elem_of_cons; auto. Qed.

Lemma sorted_list_replace v xs : sorted xs → sorted (list_replace v xs).
Proof.
  induction xs as [|x xs IH]; intros Hs; [repeat constructor|]. cbn.
  destruct (vlt v x) eqn:E1; [|destruct (vlt x v) eqn:E2].
  - apply sorted_cons. split; [done|]. apply sorted_cons in Hs as [_ Hx].
    intros y [->|Hy]%elem_of_cons; [done|]. eapply vlt_trans; eauto.
  - apply sorted_cons in Hs as [? Hx]. apply sorted_cons. split; [auto|].
    intros y [->|Hy]%elem_of_list_replace; [done|auto].
  - apply sorted_cons in Hs as [? Hx]. apply sorted_cons. split; [done|].
    intros y Hy. eapply kc_le_lt; [exact E2|by apply Hx].
Qed.

Lemma elem_of_list_remove k xs y : y ∈ list_remove k xs → y ∈ xs.
Proof. induction xs as [|x xs IH]; cbn; [done|]. repeat case_match; rewrite ?elem_of_cons; naive_solver. Qed.

Lemma sorted_list_remove k xs : sorted xs → sorted (list_remove k xs).
Proof.
  induction xs as [|x xs IH]; intros Hs; [done|]. cbn. repeat case_match; [done| |].
  - apply sorted_cons in Hs as [? Hx]. apply sorted_cons. split; [auto|]. intros y Hy%elem_of_list_remove. auto.
  - by apply sorted_cons in Hs as [? _].
Qed.

Lemma find_cons k x xs : sorted (x :: xs) →
  list_find k (x :: xs) = if above k x then None else if below x k then list_find k xs else Some x.
Proof. apply (list_find_middle k []). Qed.

(** The position of [k] relative to two values whose order is known *)
Lemma above_trans k x y : above k x = true → vlt x y = true → above k y = true.
Proof. apply kc_trans. Qed.

Lemma same_key_false k x : above k x = true ∨ below x k = true → same_key k x = false.
Proof. intros [?|?]; [by apply same_key_above|by apply same_key_below]. Qed.

Lemma same_key_congr k x y :
  vlt x y = false → vlt y x = false → above k x = above k y ∧ below x k = below y k.
Proof. intros Hxy Hyx. destruct (kc_congr _ _ Hxy Hyx k) as [? ?]. by split. Qed.

(** What the three operations do to the value of a key *)
Lemma list_find_insert k v xs :
  sorted xs → list_find k (list_insert v xs) =
    if same_key k v then Some (default v (list_find k xs)) else list_find k xs.
Proof.
  intros Hs. pose proof (sorted_list_insert v xs Hs) as Hs'. induction xs as [|x xs IH].
  { cbn in *. by destruct (same_key k v). }
  rewrite (find_cons k x) by done. cbn [list_insert list_replace] in *.
  destruct (vlt v x) eqn:E1; [|destruct (vlt x v) eqn:E2].
  - rewrite find_cons by done. destruct (above k v) eqn:Ea.
    + rewrite same_key_false by (by left). by rewrite (above_trans k v x).
    + destruct (below v k) eqn:Eb; [rewrite same_key_false by (by right); by rewrite <- find_cons|].
      unfold same_key. rewrite Ea, Eb. cbn. by rewrite (above_mono k v x).
  - rewrite find_cons by done. apply sorted_cons in Hs as [Hs _], Hs' as [Hs' _]. destruct (above k x) eqn:Ea.
    + by rewrite same_key_false by (left; by apply (above_trans k x)).
    + destruct (below x k) eqn:Eb; [by apply IH|]. rewrite same_key_false; [done|].
      left. by apply (above_mono k x).
  - rewrite find_cons by done. destruct (same_key_congr k v x E1 E2) as [Ha Hb].
    unfold same_key. rewrite Ha, Hb. by destruct (above k x), (below x k).
Qed.

Lemma list_find_replace k v xs :
  sorted xs → list_find k (list_replace v xs) = if same_key k v then Some v else list_find k xs.
Proof.
  intros Hs. pose proof (sorted_list_replace v xs Hs) as Hs'. induction xs as [|x xs IH].
  { cbn in *. by destruct (same_key k v). }
  rewrite (find_cons k x) by done. cbn [list_insert list_replace] in *.
  destruct (vlt v x) eqn:E1; [|destruct (vlt x v) eqn:E2].
  - rewrite find_cons by done. destruct (above k v) eqn:Ea.
    + rewrite same_key_false by (by left). by rewrite (above_trans k v x).
    + destruct (below v k) eqn:Eb; [rewrite same_key_false by (by right); by rewrite <- find_cons|].
      unfold same_key. by rewrite Ea, Eb.
  - rewrite find_cons by done. apply sorted_cons in Hs as [Hs _], Hs' as [Hs' _]. destruct (above k x) eqn:Ea.
    + by rewrite same_key_false by (left; by apply (above_trans k x)).
    + destruct (below x k) eqn:Eb; [by apply IH|]. rewrite same_key_false; [done|].
      left. by apply (above_mono k x).
  - rewrite find_cons by done. destruct (same_key_congr k v x E1 E2) as [Ha Hb].
    unfold same_key. rewrite Ha, Hb. by destruct (above k x), (below x k).
Qed.

Lemma list_find_remove k k' xs :
  sorted xs → list_find k (list_remove k' xs) =
    if negb (key_compare k k') && negb (key_compare k' k) then None else list_find k xs.
Proof.
  intros Hs. pose proof (sorted_list_remove k' xs Hs) as Hs'.
  induction xs as [|x xs IH]; [by destruct (_ && _)|]. cbn [list_remove] in *.
  destruct (negb _ && negb _) eqn:E.
  - apply andb_prop in E as [E1%negb_true_iff E2%negb_true_iff].
    destruct (kc_congr _ _ E1 E2 (key_of_value x)) as [Ha Hb].
    change (above k x = above k' x) in Ha. change (below x k = below x k') in Hb.
    destruct (above k' x) eqn:Ea; [by rewrite find_cons, Ha|]. destruct (below x k') eqn:Eb.
    + rewrite find_cons, Ha, Hb by done. apply sorted_cons in Hs as [? _], Hs' as [? _]. by apply IH.
    + apply find_none. intros y Hy. apply same_key_above, (above_mono k x); [done|].
      apply sorted_cons in Hs as [_ Hs]. auto.
  - destruct (above k' x) eqn:Ea; [done|]. destruct (below x k') eqn:Eb.
    + rewrite !find_cons by done. apply sorted_cons in Hs as [? _], Hs' as [? _].
      destruct (above k x), (below x k); try done. by apply IH.
    + rewrite find_cons by done. destruct (kc_congr _ _ Eb Ea k) as [Hb Ha].
      change (below x k = key_compare k' k) in Hb. change (above k x = key_compare k k') in Ha.
      rewrite Ha, Hb. destruct (key_compare k k') eqn:E1; [|by destruct (key_compare k' k)].
      apply find_none. intros y Hy. apply same_key_above, (above_trans k x); [done|].
      apply sorted_cons in Hs as [_ Hs]. auto.
Qed.
End trees.
