(* ===== verification/ImmutableTree.v ===== *)
(** * Persistent trees: [Internal/ADT/ImmutableTree.h] and [ImmutableMap.h]

    The nodes are on a heap, are shared between trees and carry reference counts.
    An access to a node that was deleted, a push past the end of the stack of an
    iterator and a failed [assert] are outcomes [AssertFailed].  The reference
    counts are unbounded integers: a count of [2^32] needs as many pointers.

    The recursions over nodes take fuel; the height of the root is enough. *)

From stdpp Require Import prelude gmap.
From S2P Require Import Prelude SearchTree.

(** [Node *]; [None] is the address of [Node::terminator]. *)
Definition ptr : Set := option positive.

(** [class Node] *)
Record Node (V : Type) : Type := mkNode {
  left : ptr;
  right : ptr;
  value : V;
  height : Z;
  references : Z;
}.
Arguments mkNode {V} _ _ _ _ _.
Arguments left {V} _.
Arguments right {V} _.
Arguments value {V} _.
Arguments height {V} _.
Arguments references {V} _.

(** The nodes that are not deleted, the references of the terminator and the static
    counter [allocated] *)
Record Heap (V : Type) : Type := mkHeap {
  nodes : gmap positive (Node V);
  terminator_references : Z;
  allocated : Z;
}.
Arguments mkHeap {V} _ _ _.
Arguments nodes {V} _.
Arguments terminator_references {V} _.
Arguments allocated {V} _.

(** The state before the first tree is made *)
Definition initial_heap {V} : Heap V := mkHeap ∅ 3 0.

Section operations.
Context {K V : Type} `{KeyCompare K} `{KeyOfValue K V}.

(** [Node::terminator.value], which the constructor of the terminator leaves to the
    default constructor of [V] *)
Context (terminator_value : V).

Definition isTerminator (p : ptr) : bool := bool_decide (p = None).

Definition set_references (r : Z) (n : Node V) : Node V :=
  mkNode (left n) (right n) (value n) (height n) r.

Definition set_nodes (m : gmap positive (Node V)) (h : Heap V) : Heap V :=
  mkHeap m (terminator_references h) (allocated h).

(** [*p] *)
Definition node_at (p : ptr) (h : Heap V) : outcome (Node V) :=
  match p with
  | None => Done (mkNode None None terminator_value 0 (terminator_references h))
  | Some a => match nodes h !! a with Some n => Done n | None => AssertFailed end
  end.

Definition get (p : ptr) : M (Heap V) (Node V) := λ h, n ← node_at p h; Done (n, h).

(** [p->references = r] *)
Definition put_references (p : ptr) (r : Z) : M (Heap V) unit := λ h,
  match p with
  | None => Done (tt, mkHeap (nodes h) r (allocated h))
  | Some a => n ← node_at p h; Done (tt, set_nodes (<[a := set_references r n]> (nodes h)) h)
  end.

(** [new Node(left, right, value)] *)
Definition new_Node (l r : ptr) (v : V) : M (Heap V) ptr := λ h,
  nl ← node_at l h;
  nr ← node_at r h;
  let a := fresh (dom (nodes h)) in
  let n := mkNode l r v (Z.max (height nl) (height nr) + 1) 1 in
  Done (Some a, mkHeap (<[a := n]> (nodes h)) (terminator_references h) (allocated h + 1)).

Definition incref (p : ptr) : M (Heap V) ptr :=
  n ← get p; _ ← put_references p (references n + 1); mret p.

(** The end of [~Node], and the return of the memory; the terminator is static. *)
Definition free (p : ptr) : M (Heap V) unit := λ h,
  match p with
  | None => AssertFailed
  | Some a => Done (tt, mkHeap (delete a (nodes h)) (terminator_references h) (allocated h - 1))
  end.

(** [decref], with [~Node] *)
Fixpoint decref_fuel (fuel : nat) (p : ptr) : M (Heap V) unit :=
  match fuel with
  | O => lift OutOfFuel
  | S fuel =>
      n ← get p;
      let r := references n - 1 in
      _ ← put_references p r;
      if r =? 0 then
        _ ← decref_fuel fuel (left n);
        _ ← decref_fuel fuel (right n);
        free p
      else mret tt
  end.

(** Enough fuel for a recursion that starts at [p] *)
Definition depth (p : ptr) : M (Heap V) nat := n ← get p; mret (S (Z.to_nat (height n))).

Definition decref (p : ptr) : M (Heap V) unit := fuel ← depth p; decref_fuel fuel p.

(** [Node::balance] *)
Definition balance (l : ptr) (v : V) (r : ptr) : M (Heap V) ptr :=
  nl ← get l;
  nr ← get r;
  if height nl >? height nr + 2 then
    let ll := left nl in
    let lr := right nl in
    nll ← get ll;
    nlr ← get lr;
    if height nll >=? height nlr then
      lr ← incref lr;
      nlr ← new_Node lr r v;
      ll ← incref ll;
      res ← new_Node ll nlr (value nl);
      _ ← decref l;
      mret res
    else
      let lrl := left nlr in
      let lrr := right nlr in
      ll ← incref ll;
      lrl ← incref lrl;
      nll ← new_Node ll lrl (value nl);
      lrr ← incref lrr;
      nr ← new_Node lrr r v;
      res ← new_Node nll nr (value nlr);
      _ ← decref l;
      mret res
  else if height nr >? height nl + 2 then
    let rl := left nr in
    let rr := right nr in
    nrl ← get rl;
    nrr ← get rr;
    if height nrr >=? height nrl then
      rl ← incref rl;
      nrl ← new_Node l rl v;
      rr ← incref rr;
      res ← new_Node nrl rr (value nr);
      _ ← decref r;
      mret res
    else
      let rll := left nrl in
      let rlr := right nrl in
      rll ← incref rll;
      nl ← new_Node l rll v;
      rlr ← incref rlr;
      rr ← incref rr;
      nrr ← new_Node rlr rr (value nr);
      res ← new_Node nl nrr (value nrl);
      _ ← decref r;
      mret res
  else new_Node l r v.

(** [Node::size] *)
Fixpoint tree_node_size (fuel : nat) (p : ptr) : M (Heap V) Z :=
  match fuel with
  | O => lift OutOfFuel
  | S fuel =>
      if isTerminator p then mret 0
      else n ← get p; l ← tree_node_size fuel (left n); r ← tree_node_size fuel (right n); mret (l + 1 + r)
  end.

(** [Node::popMin] and [Node::popMax], with the value that they write to [valueOut] *)
Fixpoint node_popMin (fuel : nat) (p : ptr) : M (Heap V) (V * ptr) :=
  match fuel with
  | O => lift OutOfFuel
  | S fuel =>
      n ← get p;
      if isTerminator (left n) then r ← incref (right n); mret (value n, r)
      else
        '(valueOut, l) ← node_popMin fuel (left n);
        r ← incref (right n);
        res ← balance l (value n) r;
        mret (valueOut, res)
  end.

Fixpoint node_popMax (fuel : nat) (p : ptr) : M (Heap V) (V * ptr) :=
  match fuel with
  | O => lift OutOfFuel
  | S fuel =>
      n ← get p;
      if isTerminator (right n) then l ← incref (left n); mret (value n, l)
      else
        l ← incref (left n);
        '(valueOut, r) ← node_popMax fuel (right n);
        res ← balance l (value n) r;
        mret (valueOut, res)
  end.

(** [Node::insert], [Node::replace] and [Node::remove] *)
Fixpoint node_insert (v : V) (fuel : nat) (p : ptr) : M (Heap V) ptr :=
  match fuel with
  | O => lift OutOfFuel
  | S fuel =>
      if isTerminator p then
        l ← incref None; r ← incref None; new_Node l r v
      else
        n ← get p;
        if key_compare (key_of_value v) (key_of_value (value n)) then
          l ← node_insert v fuel (left n); r ← incref (right n); balance l (value n) r
        else if key_compare (key_of_value (value n)) (key_of_value v) then
          l ← incref (left n); r ← node_insert v fuel (right n); balance l (value n) r
        else incref p
  end.

Fixpoint node_replace (v : V) (fuel : nat) (p : ptr) : M (Heap V) ptr :=
  match fuel with
  | O => lift OutOfFuel
  | S fuel =>
      if isTerminator p then
        l ← incref None; r ← incref None; new_Node l r v
      else
        n ← get p;
        if key_compare (key_of_value v) (key_of_value (value n)) then
          l ← node_replace v fuel (left n); r ← incref (right n); balance l (value n) r
        else if key_compare (key_of_value (value n)) (key_of_value v) then
          l ← incref (left n); r ← node_replace v fuel (right n); balance l (value n) r
        else l ← incref (left n); r ← incref (right n); new_Node l r v
  end.

Fixpoint node_remove (k : K) (fuel : nat) (p : ptr) : M (Heap V) ptr :=
  match fuel with
  | O => lift OutOfFuel
  | S fuel =>
      if isTerminator p then incref p
      else
        n ← get p;
        if key_compare k (key_of_value (value n)) then
          l ← node_remove k fuel (left n); r ← incref (right n); balance l (value n) r
        else if key_compare (key_of_value (value n)) k then
          l ← incref (left n); r ← node_remove k fuel (right n); balance l (value n) r
        else if isTerminator (left n) then incref (right n)
        else if isTerminator (right n) then incref (left n)
        else
          '(min, nr) ← node_popMin fuel (right n);
          l ← incref (left n);
          balance l min nr
  end.

(** ** Trees: an [ImmutableTree] is the pointer to its root. *)

Definition ImmutableTree_create : M (Heap V) ptr := incref None.
Definition ImmutableTree_copy (s : ptr) : M (Heap V) ptr := incref s.
Definition ImmutableTree_destroy (node : ptr) : M (Heap V) unit := decref node.

(** [operator=]: the new [node] *)
Definition ImmutableTree_assign (node s : ptr) : M (Heap V) ptr := n ← incref s; _ ← decref node; mret n.

Definition ImmutableTree_empty (node : ptr) : bool := isTerminator node.

Definition ImmutableTree_insert (v : V) (node : ptr) : M (Heap V) ptr := fuel ← depth node; node_insert v fuel node.
Definition ImmutableTree_replace (v : V) (node : ptr) : M (Heap V) ptr := fuel ← depth node; node_replace v fuel node.
Definition ImmutableTree_remove (k : K) (node : ptr) : M (Heap V) ptr := fuel ← depth node; node_remove k fuel node.
Definition ImmutableTree_popMin (node : ptr) : M (Heap V) (V * ptr) := fuel ← depth node; node_popMin fuel node.
Definition ImmutableTree_popMax (node : ptr) : M (Heap V) (V * ptr) := fuel ← depth node; node_popMax fuel node.
Definition ImmutableTree_size (node : ptr) : M (Heap V) Z := fuel ← depth node; tree_node_size fuel node.

(** The loop of [lookup] and [count] *)
Fixpoint lookup_loop (k : K) (fuel : nat) (n : ptr) : M (Heap V) (option V) :=
  match fuel with
  | O => lift OutOfFuel
  | S fuel =>
      if isTerminator n then mret None
      else
        nd ← get n;
        let key := key_of_value (value nd) in
        if key_compare k key then lookup_loop k fuel (left nd)
        else if key_compare key k then lookup_loop k fuel (right nd)
        else mret (Some (value nd))
  end.

Definition ImmutableTree_lookup (k : K) (node : ptr) : M (Heap V) (option V) :=
  fuel ← depth node; lookup_loop k fuel node.

Definition ImmutableTree_count (k : K) (node : ptr) : M (Heap V) Z :=
  v ← ImmutableTree_lookup k node; mret (if (v : option V) is Some _ then 1 else 0).

(** [lookup_previous]; [result] is the value of its node. *)
Fixpoint previous_loop (k : K) (fuel : nat) (n : ptr) (result : option V) : M (Heap V) (option V) :=
  match fuel with
  | O => lift OutOfFuel
  | S fuel =>
      if isTerminator n then mret result
      else
        nd ← get n;
        let key := key_of_value (value nd) in
        if key_compare k key then previous_loop k fuel (left nd) result
        else if key_compare key k then previous_loop k fuel (right nd) (Some (value nd))
        else mret (Some (value nd))
  end.

Definition ImmutableTree_lookup_previous (k : K) (node : ptr) : M (Heap V) (option V) :=
  fuel ← depth node; previous_loop k fuel node None.

(** The child to the right ([true]) or to the left *)
Definition child (d : bool) (n : Node V) : ptr := if d then right n else left n.

(** The loops of [max] and [min] *)
Fixpoint last_loop (d : bool) (fuel : nat) (n : ptr) : M (Heap V) V :=
  match fuel with
  | O => lift OutOfFuel
  | S fuel =>
      nd ← get n;
      if isTerminator (child d nd) then mret (value nd) else last_loop d fuel (child d nd)
  end.

Definition ImmutableTree_last (d : bool) (node : ptr) : M (Heap V) V :=
  _ ← lift (cassert (negb (isTerminator node)));
  fuel ← depth node; last_loop d fuel node.

Definition ImmutableTree_min := ImmutableTree_last false.
Definition ImmutableTree_max := ImmutableTree_last true.

(** ** Iterators *)

(** [class iterator]: the root, and a [FixedStack] with the last pushed node first *)
Record iterator : Type := mkIterator { it_root : ptr; it_max : Z; it_stack : list ptr }.

(** [FixedStack::push_back] *)
Definition push_back (x : ptr) (it : iterator) : outcome iterator :=
  if Z.of_nat (length (it_stack it)) <? it_max it
  then Done (mkIterator (it_root it) (it_max it) (x :: it_stack it)) else AssertFailed.

(** The loops that push a node and its left or right descendants *)
Fixpoint push_spine (d : bool) (fuel : nat) (n : ptr) (it : iterator) : M (Heap V) iterator :=
  match fuel with
  | O => lift OutOfFuel
  | S fuel =>
      if isTerminator n then mret it
      else
        it ← lift (push_back n it);
        nd ← get n;
        push_spine d fuel (child d nd) it
  end.

(** [iterator(root, atBeginning)]; [stack.back()] *)
Definition new_iterator (root : ptr) (atBeginning : bool) : M (Heap V) iterator :=
  root ← incref root;
  nd ← get root;
  let it := mkIterator root (height nd) [] in
  if atBeginning then fuel ← depth root; push_spine false fuel root it else mret it.

Definition copy_iterator (i : iterator) : M (Heap V) iterator :=
  root ← incref (it_root i); mret (mkIterator root (it_max i) (it_stack i)).

Definition destroy_iterator (it : iterator) : M (Heap V) unit := decref (it_root it).

Definition back (it : iterator) : M (Heap V) ptr :=
  lift (match it_stack it with x :: _ => Done x | [] => AssertFailed end).

Definition it_value (it : iterator) : M (Heap V) V := p ← back it; n ← get p; mret (value n).

(** [operator==] compares the stacks. *)
Definition it_eq (a b : iterator) : bool := bool_decide (it_stack a = it_stack b).

(** The loop that goes up to the first ancestor whose other child it comes from *)
Fixpoint go_up (d : bool) (prev : ptr) (stack : list ptr) (it : iterator) : M (Heap V) iterator :=
  match stack with
  | [] => mret (mkIterator (it_root it) (it_max it) [])
  | n :: rest =>
      nd ← get n;
      if bool_decide (prev = child (negb d) nd)
      then mret (mkIterator (it_root it) (it_max it) (n :: rest))
      else go_up d n rest it
  end.

(** A step in the direction [d] from a node *)
Definition it_step (d : bool) (it : iterator) : M (Heap V) iterator :=
  p ← back it;
  n ← get p;
  if isTerminator (child d n) then go_up d p (tail (it_stack it)) it
  else
    it ← lift (push_back (child d n) it);
    nd ← get (child d n);
    fuel ← depth (child (negb d) nd);
    push_spine (negb d) fuel (child (negb d) nd) it.

(** [operator++] and [operator--] *)
Definition it_next (it : iterator) : M (Heap V) iterator :=
  _ ← lift (cassert (negb (bool_decide (it_stack it = [])))); it_step true it.

Definition it_prev (it : iterator) : M (Heap V) iterator :=
  if bool_decide (it_stack it = []) then fuel ← depth (it_root it); push_spine true fuel (it_root it) it
  else it_step false it.

Definition ImmutableTree_begin (node : ptr) : M (Heap V) iterator := new_iterator node true.
Definition ImmutableTree_end (node : ptr) : M (Heap V) iterator := new_iterator node false.

(** The loop of [lower_bound]; the flag says that it returned from the loop. *)
Fixpoint bound_loop (k : K) (fuel : nat) (root : ptr) (it : iterator) : M (Heap V) (bool * iterator) :=
  match fuel with
  | O => lift OutOfFuel
  | S fuel =>
      if isTerminator root then mret (false, it)
      else
        it ← lift (push_back root it);
        nd ← get root;
        if key_compare k (key_of_value (value nd)) then bound_loop k fuel (left nd) it
        else if key_compare (key_of_value (value nd)) k then bound_loop k fuel (right nd) it
        else mret (true, it)
  end.

Definition lower_bound (k : K) (node : ptr) : M (Heap V) iterator :=
  it ← new_iterator node false;
  fuel ← depth node;
  '(found, it) ← bound_loop k fuel node it;
  if (found : bool) then mret it
  else if bool_decide (it_stack it = []) then mret it
  else
    last ← it_value it;
    if key_compare (key_of_value last) k then it_next it else mret it.

(** [find] and [upper_bound]; the iterators that are not returned are destroyed. *)
Definition ImmutableTree_find (k : K) (node : ptr) : M (Heap V) iterator :=
  end_ ← new_iterator node false;
  it ← lower_bound k node;
  gone ← (if it_eq it end_ then mret true
    else v ← it_value it; mret (key_compare k (key_of_value v)));
  if (gone : bool) then _ ← destroy_iterator it; mret end_
  else _ ← destroy_iterator end_; mret it.

Definition upper_bound (k : K) (node : ptr) : M (Heap V) iterator :=
  end_ ← new_iterator node false;
  it ← lower_bound k node;
  here ← (if it_eq it end_ then mret false
    else v ← it_value it; mret (negb (key_compare k (key_of_value v))));
  it ← (if (here : bool) then it_next it else mret it);
  _ ← destroy_iterator end_;
  mret it.

(** [for (it = begin(); it != end(); ++it)], with the values that it visits *)
Fixpoint visit_all (fuel : nat) (it end_ : iterator) : M (Heap V) (list V) :=
  match fuel with
  | O => lift OutOfFuel
  | S fuel =>
      if it_eq it end_ then mret []
      else
        v ← it_value it;
        it ← it_next it;
        vs ← visit_all fuel it end_;
        mret (v :: vs)
  end.

(** ** Programs with trees

    The variables of type [ImmutableTree] of a client and its statements; [x = e] for
    an expression [e] of class type assigns a temporary, which is then destroyed. *)

Record Trees : Type := mkTrees { heap : Heap V; vars : gmap positive ptr }.

Inductive TreeOp : Type :=
| OpNew (x : positive)
| OpCopy (x y : positive)
| OpDestroy (x : positive)
| OpAssign (x y : positive)
| OpInsert (x : positive) (v : V) (y : positive)
| OpReplace (x : positive) (v : V) (y : positive)
| OpRemove (x : positive) (k : K) (y : positive)
| OpPopMin (x y : positive)
| OpPopMax (x y : positive).

Definition on_heap {A} (m : M (Heap V) A) : M Trees A := λ s,
  '(a, h) ← m (heap s); Done (a, mkTrees h (vars s)).

Definition read_var (x : positive) : M Trees ptr := λ s,
  match vars s !! x with Some p => Done (p, s) | None => AssertFailed end.

Definition write_var (x : positive) (p : ptr) : M Trees unit := λ s,
  Done (tt, mkTrees (heap s) (<[x := p]> (vars s))).

Definition unused_var (x : positive) : M Trees unit := λ s,
  match vars s !! x with Some _ => AssertFailed | None => Done (tt, s) end.

Definition drop_var (x : positive) : M Trees unit := λ s,
  Done (tt, mkTrees (heap s) (delete x (vars s))).

(** [x = m(y)] *)
Definition assign_result (x y : positive) (m : ptr → M (Heap V) ptr) : M Trees unit :=
  py ← read_var y;
  px ← read_var x;
  tmp ← on_heap (m py);
  n ← on_heap (ImmutableTree_assign px tmp);
  _ ← write_var x n;
  on_heap (ImmutableTree_destroy tmp).

Definition run_tree_op (op : TreeOp) : M Trees unit :=
  match op with
  | OpNew x => _ ← unused_var x; n ← on_heap ImmutableTree_create; write_var x n
  | OpCopy x y => _ ← unused_var x; s ← read_var y; n ← on_heap (ImmutableTree_copy s); write_var x n
  | OpDestroy x => n ← read_var x; _ ← on_heap (ImmutableTree_destroy n); drop_var x
  | OpAssign x y => s ← read_var y; node ← read_var x; n ← on_heap (ImmutableTree_assign node s); write_var x n
  | OpInsert x v y => assign_result x y (ImmutableTree_insert v)
  | OpReplace x v y => assign_result x y (ImmutableTree_replace v)
  | OpRemove x k y => assign_result x y (ImmutableTree_remove k)
  | OpPopMin x y => assign_result x y (λ p, '(_, q) ← ImmutableTree_popMin p; mret q)
  | OpPopMax x y => assign_result x y (λ p, '(_, q) ← ImmutableTree_popMax p; mret q)
  end.

Fixpoint run_tree_ops (ops : list TreeOp) : M Trees unit :=
  match ops with [] => mret tt | op :: ops => _ ← run_tree_op op; run_tree_ops ops end.
End operations.
