(* ===== verification/ImmutableTreeProofs.v ===== *)
(** * The persistent trees implement sorted maps, and count their references

    The invariant of the heap is exact: the count of a node is the number of the
    pointers to it in nodes and in live variables.  Every operation is related to
    the one on trees of [SearchTree]; what the rest of the program can reach does
    not change. *)

From stdpp Require Import prelude gmap sorting.
From S2P Require Import Prelude SearchTree ImmutableTree.

(** ** Occurrences in lists of pointers *)

Definition occ (p : ptr) (l : list ptr) : Z := Z.of_nat (length (filter (λ q, q = p) l)).

Lemma occ_nil p : occ p [] = 0.
Proof. done. Qed.

Lemma occ_cons p q l : occ p (q :: l) = (if decide (q = p) then 1 else 0) + occ p l.
Proof. unfold occ. rewrite filter_cons. case_decide; cbn; lia. Qed.

Lemma occ_app p l l' : occ p (l ++ l') = occ p l + occ p l'.
Proof. unfold occ. rewrite filter_app, length_app. lia. Qed.

Lemma occ_nonneg p l : 0 ≤ occ p l.
Proof. unfold occ. lia. Qed.

#[export] Instance occ_perm p : Proper ((≡ₚ) ==> eq) (occ p).
Proof. intros l l' Hl. unfold occ. by rewrite Hl. Qed.

Lemma occ_elem p l : p ∈ l ↔ 0 < occ p l.
Proof.
  induction l as [|q l IH]; [rewrite elem_of_nil, occ_nil; lia|].
  rewrite elem_of_cons, occ_cons, IH. pose proof (occ_nonneg p l). case_decide; naive_solver lia.
Qed.

Create Rewrite HintDb occ.
#[export] Hint Rewrite occ_nil occ_cons occ_app : occ.

Section heap.
Context {K V : Type} `{KeyCompare K} `{KeyOfValue K V} (d : V).
Implicit Types (p q x : ptr) (a b : positive) (n : Node V) (h : Heap V) (R : list ptr) (t : tree V) (v : V).

(** ** The pointers in nodes *)

Definition pointers (m : gmap positive (Node V)) : list ptr :=
  map_to_list m ≫= λ e, [left e.2; right e.2].

Lemma pointers_insert m a n :
  m !! a = None → pointers (<[a := n]> m) ≡ₚ left n :: right n :: pointers m.
Proof. intros Ha. unfold pointers. by rewrite (map_to_list_insert m a n Ha). Qed.

Lemma pointers_delete m a n :
  m !! a = Some n → pointers m ≡ₚ left n :: right n :: pointers (delete a m).
Proof.
  intros Ha. rewrite <- (pointers_insert (delete a m) a n) by apply lookup_delete_eq.
  by rewrite insert_delete_id.
Qed.

Lemma pointers_references m a n r :
  m !! a = Some n → pointers (<[a := set_references r n]> m) ≡ₚ pointers m.
Proof.
  intros Ha. rewrite <- insert_delete_eq, pointers_insert by apply lookup_delete_eq.
  by rewrite (pointers_delete m a n Ha).
Qed.

Lemma pointers_elem m a n : m !! a = Some n → left n ∈ pointers m ∧ right n ∈ pointers m.
Proof. intros Ha. rewrite (pointers_delete m a n Ha). rewrite !elem_of_cons. auto. Qed.

Lemma pointers_inv m p :
  p ∈ pointers m → ∃ a n, m !! a = Some n ∧ (p = left n ∨ p = right n).
Proof.
  unfold pointers. rewrite list_elem_of_bind. intros ([a n] & Hp & Hin).
  apply elem_of_map_to_list in Hin. exists a, n. split; [done|].
  apply elem_of_cons in Hp as [->|Hp]; [by left|]. apply list_elem_of_singleton in Hp. by right.
Qed.

(** ** The invariant *)

(** The height field of [*p] *)
Definition hgt h p : Z :=
  match p with None => 0 | Some a => match nodes h !! a with Some n => height n | None => 0 end end.

Definition valid h p : Prop := match p with None => True | Some a => is_Some (nodes h !! a) end.

(** [R] are the pointers to nodes that are not in nodes, with repetitions. *)
Record inv h R : Prop := {
  inv_references a n :
    nodes h !! a = Some n → references n = occ (Some a) (pointers (nodes h) ++ R) ∧ 0 < references n;
  inv_terminator : terminator_references h = 3 + occ None (pointers (nodes h) ++ R);
  inv_valid p : p ∈ pointers (nodes h) ++ R → valid h p;
  inv_height a n :
    nodes h !! a = Some n → height n = Z.max (hgt h (left n)) (hgt h (right n)) + 1 ∧ 0 < height n;
  inv_allocated : allocated h = Z.of_nat (size (nodes h));
}.

Lemma inv_perm h R R' : R ≡ₚ R' → inv h R → inv h R'.
Proof.
  intros HR []. assert (pointers (nodes h) ++ R ≡ₚ pointers (nodes h) ++ R') as HP by (by rewrite HR).
  split; try done.
  - intros a n Ha. rewrite <- HP. auto.
  - by rewrite <- HP.
  - intros p Hp. rewrite <- HP in Hp. auto.
Qed.

#[export] Instance inv_proper h : Proper ((≡ₚ) ==> iff) (inv h).
Proof. intros R R' HR. split; by apply inv_perm. Qed.

Lemma hgt_nonneg h R p : inv h R → 0 ≤ hgt h p.
Proof.
  intros Hi. destruct p as [a|]; cbn; [|lia]. destruct (nodes h !! a) eqn:E; [|lia].
  pose proof (inv_height _ _ Hi _ _ E). lia.
Qed.

(** [h'] has the nodes of [h], possibly with other counts. *)
Definition extends h h' : Prop :=
  ∀ a n, nodes h !! a = Some n → ∃ r, nodes h' !! a = Some (set_references r n).

Lemma heap_extends_refl h : extends h h.
Proof. intros a n Ha. exists (references n). rewrite Ha. by destruct n. Qed.

Lemma heap_extends_trans h1 h2 h3 : extends h1 h2 → extends h2 h3 → extends h1 h3.
Proof.
  intros H12 H23 a n Ha. destruct (H12 _ _ Ha) as [r Hr]. destruct (H23 _ _ Hr) as [r' Hr'].
  by exists r'.
Qed.

(** The value of a tree *)
Fixpoint rep h p t : Prop :=
  match t with
  | Leaf => p = None
  | Branch l v r => ∃ a n, p = Some a ∧ nodes h !! a = Some n ∧ value n = v ∧
      rep h (left n) l ∧ rep h (right n) r
  end.

Lemma rep_extends h h' p t : extends h h' → rep h p t → rep h' p t.
Proof.
  intros He. revert p. induction t as [|l IHl v r IHr]; intros p; [done|]. cbn.
  intros (a & n & -> & Ha & Hv & Hl & Hr). destruct (He _ _ Ha) as [r' Hr'].
  exists a, (set_references r' n). split_and!; [done..|by apply IHl|by apply IHr].
Qed.

Lemma rep_height h R p t : inv h R → rep h p t → hgt h p = t_height t.
Proof.
  intros Hi. revert p. induction t as [|l IHl v r IHr]; intros p; cbn; [by intros ->|].
  intros (a & n & -> & Ha & _ & Hl & Hr). cbn. rewrite Ha.
  destruct (inv_height _ _ Hi _ _ Ha) as [-> _]. by rewrite (IHl _ Hl), (IHr _ Hr).
Qed.

Lemma rep_valid h p t : rep h p t → valid h p.
Proof. destruct t; cbn; [by intros ->|]. intros (a & n & -> & Ha & _). cbn. by rewrite Ha. Qed.

Lemma rep_functional h p t t' : rep h p t → rep h p t' → t = t'.
Proof.
  revert p t'. induction t as [|l IHl v r IHr]; intros p t'.
  - intros ->. destruct t'; [done|]. by intros (? & ? & ? & _).
  - intros (a & n & -> & Ha & <- & Hl & Hr). destruct t' as [|l' v' r']; [done|].
    intros (a' & n' & [= <-] & Ha' & <- & Hl' & Hr'). rewrite Ha in Ha'. injection Ha' as <-.
    by rewrite (IHl _ _ Hl Hl'), (IHr _ _ Hr Hr').
Qed.

(** Every pointer of a good heap is a tree. *)
Lemma rep_exists h R p : inv h R → valid h p → ∃ t, rep h p t.
Proof.
  intros Hi. remember (Z.to_nat (hgt h p)) as k eqn:Ek. revert p Ek.
  induction (lt_wf k) as [k _ IH]. intros [a|] Ek; [|by exists Leaf]. intros [n Ha].
  destruct (inv_height _ _ Hi _ _ Ha) as [Hh Hpos]. cbn in Ek. rewrite Ha in Ek.
  destruct (pointers_elem _ _ _ Ha) as [Hl Hr].
  assert (∀ q, q ∈ pointers (nodes h) → hgt h q < height n → ∃ t, rep h q t) as Hex.
  { intros q Hq Hlt. eapply (IH (Z.to_nat (hgt h q))); [|done|].
    - pose proof (hgt_nonneg h R q Hi). lia.
    - apply (inv_valid _ _ Hi). apply elem_of_app. by left. }
  destruct (Hex _ Hl ltac:(lia)) as [tl Hl']. destruct (Hex _ Hr ltac:(lia)) as [tr Hr'].
  exists (Branch tl (value n) tr). by exists a, n.
Qed.

(** ** What the program can reach *)

Inductive live h R : ptr → Prop :=
| live_root p : p ∈ R → live h R p
| live_left a n : live h R (Some a) → nodes h !! a = Some n → live h R (left n)
| live_right a n : live h R (Some a) → nodes h !! a = Some n → live h R (right n).

(** The nodes that can be reached from [R] are in [h'] as they are in [h]. *)
Definition keeps R h h' : Prop :=
  ∀ a n, live h R (Some a) → nodes h !! a = Some n → ∃ r, nodes h' !! a = Some (set_references r n).

Lemma live_mono h R R' p : R ⊆ R' → live h R p → live h R' p.
Proof.
  intros HR. induction 1; [apply live_root; auto|by eapply live_left|by eapply live_right].
Qed.

Lemma keeps_mono R R' h h' : R ⊆ R' → keeps R' h h' → keeps R h h'.
Proof. intros HR Hk a n Hl. apply Hk. by eapply live_mono. Qed.

Lemma extends_keeps R h h' : extends h h' → keeps R h h'.
Proof. intros He a n _. apply He. Qed.

Lemma live_keeps R h h' p : keeps R h h' → live h R p → live h' R p.
Proof.
  intros Hk. induction 1 as [p Hp|a n Hl IH Ha|a n Hl IH Ha]; [by apply live_root| |].
  - destruct (Hk _ _ Hl Ha) as [r Hr]. by apply (live_left _ _ _ _ IH Hr).
  - destruct (Hk _ _ Hl Ha) as [r Hr]. by apply (live_right _ _ _ _ IH Hr).
Qed.

Lemma keeps_trans R h1 h2 h3 : keeps R h1 h2 → keeps R h2 h3 → keeps R h1 h3.
Proof.
  intros H12 H23 a n Hl Ha. destruct (H12 _ _ Hl Ha) as [r Hr].
  destruct (H23 _ _ (live_keeps _ _ _ _ H12 Hl) Hr) as [r' Hr']. by exists r'.
Qed.

Lemma rep_keeps R h h' p t : keeps R h h' → live h R p → rep h p t → rep h' p t.
Proof.
  intros Hk. revert p. induction t as [|l IHl v r IHr]; intros p Hp; [done|]. cbn.
  intros (a & n & -> & Ha & Hv & Hl & Hr). destruct (Hk _ _ Hp Ha) as [r' Hr'].
  exists a, (set_references r' n). split_and!; [done..| |].
  - apply IHl; [by apply (live_left _ _ a n)|done].
  - apply IHr; [by apply (live_right _ _ a n)|done].
Qed.

Lemma live_valid h R p : inv h R → live h R p → valid h p.
Proof.
  intros Hi. induction 1 as [p Hp|a n _ _ Ha|a n _ _ Ha]; apply (inv_valid _ _ Hi), elem_of_app; [by right|left..];
    by destruct (pointers_elem _ _ _ Ha).
Qed.

(** ** Counting *)

Lemma get_node h a n P : nodes h !! a = Some n → P n h → runs (get d (Some a)) h P.
Proof. intros Ha HP. unfold runs, get. cbn. by rewrite Ha. Qed.

Lemma get_valid h p P :
  valid h p → (∀ n, height n = hgt h p → P n h) → runs (get d p) h P.
Proof.
  intros Hv HP. destruct p as [a|]; [|by apply HP]. destruct Hv as [n Ha].
  apply (get_node _ _ _ _ Ha). apply HP. cbn. by rewrite Ha.
Qed.

Lemma hgt_references h a n r p :
  nodes h !! a = Some n → hgt (set_nodes (<[a := set_references r n]> (nodes h)) h) p = hgt h p.
Proof.
  intros Ha. destruct p as [b|]; [|done]. cbn. destruct (decide (b = a)) as [->|Hne].
  - by rewrite lookup_insert_eq, Ha.
  - by rewrite lookup_insert_ne.
Qed.

Lemma valid_references h a n r p :
  nodes h !! a = Some n → valid h p → valid (set_nodes (<[a := set_references r n]> (nodes h)) h) p.
Proof. intros Ha. destruct p as [b|]; [|done]. cbn. intros ?. by apply lookup_insert_is_Some'; right. Qed.

(** The count of one node changes. *)
Lemma inv_recount h R R' a n r :
  inv h R → nodes h !! a = Some n → (∀ p, p ∈ R' → valid h p) →
  r = occ (Some a) (pointers (nodes h) ++ R') → 0 < r →
  (∀ p, p ≠ Some a → occ p R' = occ p R) →
  inv (set_nodes (<[a := set_references r n]> (nodes h)) h) R'.
Proof.
  intros Hi Ha Hv Hr Hpos Hocc. pose proof (pointers_references _ _ _ r Ha) as HP.
  split; cbn [nodes terminator_references allocated set_nodes].
  - intros b nb Hb. rewrite HP. destruct (decide (b = a)) as [->|Hne].
    + rewrite lookup_insert_eq in Hb. by injection Hb as <-.
    + rewrite lookup_insert_ne in Hb by done. rewrite occ_app, Hocc by congruence. rewrite <- occ_app.
      by apply (inv_references _ _ Hi).
  - rewrite HP, occ_app, Hocc, <- occ_app by done. apply (inv_terminator _ _ Hi).
  - intros p Hp. apply valid_references; [done|]. rewrite HP in Hp. apply elem_of_app in Hp as [Hp|Hp]; [|auto].
    apply (inv_valid _ _ Hi), elem_of_app. by left.
  - intros b nb Hb. rewrite !hgt_references by done. destruct (decide (b = a)) as [->|Hne].
    + rewrite lookup_insert_eq in Hb. injection Hb as <-. exact (inv_height _ _ Hi a n Ha).
    + rewrite lookup_insert_ne in Hb by done. by apply (inv_height _ _ Hi b).
  - rewrite (inv_allocated _ _ Hi), map_size_insert_Some; [done|by rewrite Ha].
Qed.

Lemma inv_recount_terminator h R R' r :
  inv h R → (∀ p, p ∈ R' → valid h p) → r = 3 + occ None (pointers (nodes h) ++ R') →
  (∀ p, p ≠ None → occ p R' = occ p R) → inv (mkHeap (nodes h) r (allocated h)) R'.
Proof.
  intros Hi Hv Hr Hocc. split; cbn [nodes terminator_references allocated]; try done.
  - intros b nb Hb. rewrite occ_app, Hocc by done. rewrite <- occ_app. by apply (inv_references _ _ Hi).
  - intros p Hp. apply elem_of_app in Hp as [Hp|Hp]; [|by apply Hv].
    apply (inv_valid _ _ Hi), elem_of_app. by left.
  - intros b nb Hb. by apply (inv_height _ _ Hi b).
  - apply (inv_allocated _ _ Hi).
Qed.

Lemma extends_references h a n r :
  nodes h !! a = Some n → extends h (set_nodes (<[a := set_references r n]> (nodes h)) h).
Proof.
  intros Ha b nb Hb. cbn. destruct (decide (b = a)) as [->|Hne].
  - rewrite lookup_insert_eq. exists r. congruence.
  - rewrite lookup_insert_ne by done. exists (references nb). rewrite Hb. by destruct nb.
Qed.

Lemma incref_ok h R p :
  inv h R → valid h p →
  runs (incref d p) h (λ q h', q = p ∧ inv h' (p :: R) ∧ extends h h').
Proof.
  intros Hi Hv. assert (∀ q, q ∈ p :: R → valid h q) as Hall.
  { intros q [->|Hq]%elem_of_cons; [done|]. apply (inv_valid _ _ Hi), elem_of_app. by right. }
  unfold incref. apply runs_bind. destruct p as [a|].
  - destruct Hv as [n Ha]. apply (get_node _ _ _ _ Ha). apply runs_bind.
    unfold runs at 1, put_references. cbn. rewrite Ha. cbn. split; [done|].
    destruct (inv_references _ _ Hi _ _ Ha) as [Hr Hpos]. split; [|by apply extends_references].
    apply (inv_recount h R); [done..| |lia|].
    + rewrite !occ_app, occ_cons, decide_True by done. rewrite occ_app in Hr. lia.
    + intros q Hq. by rewrite occ_cons, decide_False by congruence.
  - split; [done|]. cbn. split; [|exact (heap_extends_refl h)].
    apply (inv_recount_terminator h R); [done..| |].
    + rewrite (inv_terminator _ _ Hi), !occ_app, occ_cons, decide_True by done. lia.
    + intros q Hq. by rewrite occ_cons, decide_False by congruence.
Qed.

Lemma node_at_valid h p : valid h p → ∃ n, node_at d p h = Done n ∧ height n = hgt h p.
Proof.
  destruct p as [a|]; cbn; [|by eexists]. intros [n Ha]. rewrite Ha. by exists n.
Qed.

(** A node at a new address *)
Lemma hgt_insert h m tr al a n p :
  m = nodes h → m !! a = None → valid h p → hgt (mkHeap (<[a := n]> m) tr al) p = hgt h p.
Proof.
  intros -> Ha Hv. destruct p as [b|]; [|done]. destruct Hv as [nb Hb]. cbn.
  by rewrite lookup_insert_ne by congruence.
Qed.

Lemma valid_not_fresh h a p : nodes h !! a = None → valid h p → p ≠ Some a.
Proof. intros Ha Hv ->. destruct Hv as [n Hn]. congruence. Qed.

Lemma extends_insert h a n tr al :
  nodes h !! a = None → extends h (mkHeap (<[a := n]> (nodes h)) tr al).
Proof.
  intros Ha b nb Hb. cbn. rewrite lookup_insert_ne by congruence. exists (references nb). rewrite Hb.
  by destruct nb.
Qed.

Lemma inv_insert h R l r v a :
  inv h (l :: r :: R) → nodes h !! a = None →
  inv (mkHeap (<[a := mkNode l r v (Z.max (hgt h l) (hgt h r) + 1) 1]> (nodes h))
    (terminator_references h) (allocated h + 1)) (Some a :: R).
Proof.
  intros Hi Ha. set (n := mkNode _ _ _ _ _).
  assert (pointers (<[a := n]> (nodes h)) ++ Some a :: R ≡ₚ Some a :: pointers (nodes h) ++ l :: r :: R) as HP.
  { rewrite pointers_insert by done. cbn. rewrite <- !Permutation_middle. by rewrite !(Permutation_swap (Some a)). }
  assert (∀ p, p ∈ pointers (nodes h) ++ l :: r :: R → valid h p) as Hv by apply (inv_valid _ _ Hi).
  assert (occ (Some a) (pointers (nodes h) ++ l :: r :: R) = 0) as Hz.
  { pose proof (occ_nonneg (Some a) (pointers (nodes h) ++ l :: r :: R)).
    destruct (decide (Some a ∈ pointers (nodes h) ++ l :: r :: R)) as [Hin|Hin].
    - by destruct (valid_not_fresh h a (Some a) Ha (Hv _ Hin)).
    - rewrite occ_elem in Hin. lia. }
  assert (∀ b nb, nodes h !! b = Some nb → b ≠ a) as Hne by (intros b nb Hb ->; congruence).
  split; cbn [nodes terminator_references allocated].
  - intros b nb [[<- <-]|[? Hb]]%lookup_insert_Some; rewrite HP, occ_cons.
    + rewrite decide_True by done. cbn. lia.
    + rewrite decide_False by congruence. rewrite Z.add_0_l. by apply (inv_references _ _ Hi).
  - rewrite HP, occ_cons, decide_False by done. apply (inv_terminator _ _ Hi).
  - intros p. rewrite HP. intros [->|Hp%Hv]%elem_of_cons; [cbn; by rewrite lookup_insert_eq|].
    destruct p as [b|]; [|done]. destruct Hp as [nb Hb]. cbn. rewrite lookup_insert_ne by (apply not_eq_sym; by eauto). by exists nb.
  - intros b nb [[<- <-]|[? Hb]]%lookup_insert_Some; cbn [left right height n].
    + rewrite !(hgt_insert h) by (try done; apply Hv, elem_of_app; right; set_solver).
      pose proof (hgt_nonneg h _ l Hi). lia.
    + destruct (pointers_elem _ _ _ Hb). rewrite !(hgt_insert h) by (try done; apply Hv, elem_of_app; by left).
      by apply (inv_height _ _ Hi b).
  - rewrite map_size_insert_None by done. rewrite (inv_allocated _ _ Hi). lia.
Qed.

Lemma new_Node_ok h R l r v tl tr :
  inv h (l :: r :: R) → rep h l tl → rep h r tr →
  runs (new_Node d l r v) h (λ q h', inv h' (q :: R) ∧ rep h' q (Branch tl v tr) ∧ extends h h').
Proof.
  intros Hi Hl Hr. destruct (node_at_valid h l (rep_valid _ _ _ Hl)) as (nl & El & Hhl).
  destruct (node_at_valid h r (rep_valid _ _ _ Hr)) as (nr & Er & Hhr).
  unfold new_Node, runs. rewrite El, Er. cbn [mbind outcome_bind yields]. rewrite Hhl, Hhr.
  set (a := fresh _). assert (nodes h !! a = None) as Ha by (apply not_elem_of_dom, is_fresh).
  split; [by apply inv_insert|].
  assert (extends h (mkHeap (<[a := mkNode l r v (Z.max (hgt h l) (hgt h r) + 1) 1]> (nodes h))
    (terminator_references h) (allocated h + 1))) as He by (by apply extends_insert).
  split; [|done]. exists a, (mkNode l r v (Z.max (hgt h l) (hgt h r) + 1) 1). cbn. rewrite lookup_insert_eq.
  split_and!; [done..| |]; by eapply rep_extends.
Qed.

(** *** [decref] *)

Lemma decref_node fuel a n h :
  nodes h !! a = Some n →
  decref_fuel d (S fuel) (Some a) h =
    let h1 := set_nodes (<[a := set_references (references n - 1) n]> (nodes h)) h in
    if references n - 1 =? 0 then
      '(_, h2) ← decref_fuel d fuel (left n) h1; '(_, h3) ← decref_fuel d fuel (right n) h2; free (Some a) h3
    else Done (tt, h1).
Proof.
  intros Ha. cbn [decref_fuel]. unfold mbind, M_bind, get, put_references. cbn. rewrite Ha. cbn. rewrite Ha. cbn.
  by destruct (references n - 1 =? 0).
Qed.

Lemma decref_terminator fuel h :
  decref_fuel d (S fuel) None h =
    let h1 := mkHeap (nodes h) (terminator_references h - 1) (allocated h) in
    if terminator_references h - 1 =? 0 then
      '(_, h2) ← decref_fuel d fuel None h1; '(_, h3) ← decref_fuel d fuel None h2; AssertFailed
    else Done (tt, h1).
Proof.
  cbn [decref_fuel]. unfold mbind, M_bind, get, put_references. cbn.
  by destruct (terminator_references h - 1 =? 0).
Qed.

Definition add_node a n h : Heap V :=
  mkHeap (<[a := n]> (nodes h)) (terminator_references h) (allocated h + 1).

(** A node that nothing points to stays out of the way. *)
Lemma decref_frame fuel p h h' a n :
  nodes h !! a = None → decref_fuel d fuel p h = Done (tt, h') →
  nodes h' !! a = None ∧ decref_fuel d fuel p (add_node a n h) = Done (tt, add_node a n h').
Proof.
  revert p h h'. induction fuel as [|fuel IH]; intros p h h' Ha; [done|]. destruct p as [b|].
  - destruct (nodes h !! b) as [nb|] eqn:Hb; [|cbn; unfold mbind, M_bind, get; cbn; by rewrite Hb].
    assert (b ≠ a) as Hne by congruence. rewrite (decref_node _ _ _ _ Hb).
    rewrite (decref_node _ b nb) by (cbn; by rewrite lookup_insert_ne).
    set (h1 := set_nodes _ h). set (h1' := set_nodes _ (add_node a n h)).
    assert (h1' = add_node a n h1) as -> by (unfold h1', h1, add_node, set_nodes; cbn; by rewrite insert_insert_ne).
    assert (nodes h1 !! a = None) as Ha1 by (cbn; by rewrite lookup_insert_ne).
    clearbody h1. cbn zeta. case_match; [|by intros [= <-]].
    destruct (decref_fuel d fuel (left nb) h1) as [[[] h2]| |] eqn:E1; [|done..].
    destruct (IH _ _ _ Ha1 E1) as [Ha2 ->]. cbn.
    destruct (decref_fuel d fuel (right nb) h2) as [[[] h3]| |] eqn:E2; [|done..].
    destruct (IH _ _ _ Ha2 E2) as [Ha3 ->]. cbn. intros [= <-]. cbn.
    rewrite lookup_delete_ne by done. split; [done|]. unfold add_node. cbn.
    rewrite delete_insert_ne by done. do 3 f_equal. lia.
  - rewrite !decref_terminator. cbn zeta.
    change (terminator_references (add_node a n h)) with (terminator_references h).
    case_match; [|by intros [= <-]]. set (h1 := mkHeap (nodes h) _ _).
    destruct (decref_fuel d fuel None h1) as [[[] h2]| |]; [|done..]. cbn.
    by destruct (decref_fuel d fuel None h2) as [[[] h3]| |].
Qed.

(** Without the last pointer to a node, the pointers in it count. *)
Lemma inv_delete h R a n :
  inv h (Some a :: R) → nodes h !! a = Some n → references n = 1 →
  let h0 := mkHeap (delete a (nodes h)) (terminator_references h) (allocated h - 1) in
  inv h0 (left n :: right n :: R) ∧ (∀ p, p ∈ pointers (nodes h) ++ R → p ≠ Some a).
Proof.
  intros Hi Ha H1 h0. destruct (inv_references _ _ Hi _ _ Ha) as [Hr _].
  assert (pointers (nodes h) ++ Some a :: R ≡ₚ Some a :: pointers (nodes h) ++ R) as HP
    by (by rewrite <- Permutation_middle).
  assert (∀ p, p ∈ pointers (nodes h) ++ R → p ≠ Some a) as Hne.
  { intros p Hp ->. rewrite HP, occ_cons, decide_True in Hr by done. apply occ_elem in Hp. lia. }
  assert (pointers (delete a (nodes h)) ++ left n :: right n :: R ≡ₚ pointers (nodes h) ++ R) as HP0.
  { rewrite (pointers_delete _ _ _ Ha). cbn. by rewrite <- !Permutation_middle. }
  assert (∀ p, p ∈ pointers (nodes h) ++ R → valid h0 p ∧ hgt h0 p = hgt h p) as Hv.
  { intros p Hp. pose proof (Hne p Hp). assert (valid h p) as Hvp.
    { apply (inv_valid _ _ Hi). rewrite HP. by right. }
    destruct p as [b|]; [|done]. cbn in *. by rewrite lookup_delete_ne by congruence. }
  split; [|done]. split; cbn [nodes terminator_references allocated h0].
  - intros b nb [? Hb]%lookup_delete_Some. rewrite HP0.
    destruct (inv_references _ _ Hi _ _ Hb) as [Hrb ?]. rewrite HP, occ_cons, decide_False in Hrb by congruence.
    split; [lia|done].
  - rewrite HP0, (inv_terminator _ _ Hi), HP, occ_cons, decide_False by done. lia.
  - intros p. rewrite HP0. apply Hv.
  - intros b nb [? Hb]%lookup_delete_Some. destruct (pointers_elem _ _ _ Hb).
    rewrite !(λ p Hp, proj2 (Hv p Hp)) by (apply elem_of_app; by left). by apply (inv_height _ _ Hi b).
  - rewrite map_size_delete_Some by (by eexists). rewrite (inv_allocated _ _ Hi).
    assert (size (nodes h) ≠ 0%nat) by (intros Hz%map_size_empty_inv; by rewrite Hz in Ha). lia.
Qed.

Lemma hgt_keeps R h h' p : keeps R h h' → live h R p → valid h p → hgt h' p = hgt h p.
Proof.
  intros Hk Hl Hv. destruct p as [a|]; [|done]. destruct Hv as [n Ha].
  destruct (Hk _ _ Hl Ha) as [r Hr]. cbn. by rewrite Ha, Hr.
Qed.

Lemma keeps_delete h R a tr al :
  (∀ p, p ∈ pointers (nodes h) ++ R → p ≠ Some a) → keeps R h (mkHeap (delete a (nodes h)) tr al).
Proof.
  intros Hne b nb Hl Hb. exists (references nb). cbn. rewrite lookup_delete_ne; [rewrite Hb; by destruct nb|].
  intros <-. assert (Some a ∈ pointers (nodes h) ++ R) as Hin; [|by apply Hne in Hin].
  apply elem_of_app. inversion Hl as [? HR|c n Hc Hn|c n Hc Hn]; [by right|left..];
    by destruct (pointers_elem _ _ _ Hn).
Qed.

Lemma decref_fuel_ok fuel h R p :
  inv h (p :: R) → hgt h p < Z.of_nat fuel →
  runs (decref_fuel d fuel p) h (λ _ h', inv h' R ∧ keeps R h h').
Proof.
  revert h R p. induction fuel as [|fuel IH]; intros h R p Hi Hf.
  { pose proof (hgt_nonneg h _ p Hi). lia. }
  assert (∀ q, q ∈ R → valid h q) as HR.
  { intros q Hq. apply (inv_valid _ _ Hi), elem_of_app. right. by right. }
  destruct p as [a|].
  - assert (valid h (Some a)) as [n Ha] by (apply (inv_valid _ _ Hi), elem_of_app; right; by left).
    destruct (inv_references _ _ Hi _ _ Ha) as [Hr Hpos]. unfold runs. rewrite (decref_node _ _ _ _ Ha). cbn zeta.
    destruct (references n - 1 =? 0) eqn:E; unbool.
    + destruct (inv_delete h R a n Hi Ha ltac:(lia)) as [Hi0 Hne].
      set (h0 := mkHeap (delete a (nodes h)) _ _) in *. set (n0 := set_references _ n).
      replace (set_nodes _ h) with (add_node a n0 h0).
      2:{ unfold add_node, set_nodes, h0. cbn. rewrite insert_delete_eq. f_equal. lia. }
      assert (nodes h0 !! a = None) as Ha0 by apply lookup_delete_eq.
      assert (∀ q, hgt h0 q ≤ hgt h q) as Hle.
      { intros [b|]; [|done]. cbn. destruct (decide (b = a)) as [->|Hb]; [|by rewrite lookup_delete_ne].
        rewrite lookup_delete_eq. apply (hgt_nonneg h _ (Some a) Hi). }
      destruct (inv_height _ _ Hi _ _ Ha) as [Hh _]. cbn in Hf. rewrite Ha in Hf.
      pose proof (Hle (left n)). pose proof (Hle (right n)).
      destruct (runs_inv _ _ _ (IH h0 (right n :: R) (left n) Hi0 ltac:(lia))) as ([] & h2 & E1 & Hi2 & Hk2).
      destruct (decref_frame _ _ _ _ a n0 Ha0 E1) as [Ha2 ->]. cbn [mbind outcome_bind].
      assert (hgt h2 (right n) = hgt h0 (right n)) as Hh2.
      { apply (hgt_keeps _ _ _ _ Hk2); [apply live_root; by left|].
        apply (inv_valid _ _ Hi0), elem_of_app. right. right. by left. }
      destruct (runs_inv _ _ _ (IH h2 R (right n) Hi2 ltac:(lia))) as ([] & h3 & E2 & Hi3 & Hk3).
      destruct (decref_frame _ _ _ _ a n0 Ha2 E2) as [Ha3 ->]. cbn [mbind outcome_bind free yields].
      replace (mkHeap _ _ _) with h3.
      2:{ unfold add_node. cbn. rewrite delete_insert_id by done. destruct h3. cbn. f_equal. lia. }
      split; [done|]. eapply keeps_trans; [apply (keeps_delete h R a); done|].
      eapply keeps_trans; [|exact Hk3]. eapply keeps_mono; [|exact Hk2]. set_solver.
    + split; [|apply extends_keeps; by apply extends_references].
      apply (inv_recount h (Some a :: R)); [done..| |lia|].
      * rewrite !occ_app, occ_cons, decide_True in Hr by done. rewrite occ_app. lia.
      * intros q Hq. by rewrite occ_cons, decide_False by congruence.
  - unfold runs. rewrite decref_terminator. pose proof (inv_terminator _ _ Hi) as Ht.
    rewrite occ_app, occ_cons, decide_True in Ht by done. pose proof (occ_nonneg None (pointers (nodes h))).
    pose proof (occ_nonneg None R). rewrite (proj2 (Z.eqb_neq _ _)) by lia.
    split; [|apply extends_keeps; exact (heap_extends_refl h)].
    apply (inv_recount_terminator h (None :: R)); [done..| |].
    + rewrite occ_app. lia.
    + intros q Hq. by rewrite occ_cons, decide_False by congruence.
Qed.

Lemma decref_ok h R p :
  inv h (p :: R) → runs (decref d p) h (λ _ h', inv h' R ∧ keeps R h h').
Proof.
  intros Hi. assert (valid h p) as Hv by (apply (inv_valid _ _ Hi), elem_of_app; right; by left).
  unfold decref, depth. do 2 apply runs_bind. apply get_valid; [done|]. intros n Hn. apply runs_ret.
  apply decref_fuel_ok; [done|]. rewrite Hn. pose proof (hgt_nonneg h _ p Hi). lia.
Qed.

(** ** Rebalancing *)

(** Permutations of the first few elements of a list *)
Ltac perm :=
  repeat match goal with
  | |- ?l ≡ₚ ?l => reflexivity
  | |- ?x :: _ ≡ₚ ?x :: _ => apply Permutation_skip
  | |- ?x :: _ ≡ₚ ?b :: ?x :: ?r => etransitivity; [|apply Permutation_swap]; apply Permutation_skip
  | |- ?x :: _ ≡ₚ ?b :: ?c :: ?x :: ?r =>
      etransitivity; [|apply (Permutation_middle [b; c] r x)]; cbn [app]; apply Permutation_skip
  | |- ?x :: _ ≡ₚ ?b :: ?c :: ?e :: ?x :: ?r =>
      etransitivity; [|apply (Permutation_middle [b; c; e] r x)]; cbn [app]; apply Permutation_skip
  end.

(** The owned pointers in another order *)
Ltac owning R' :=
  match goal with Hi : inv ?h _ |- _ =>
    apply (inv_perm h _ R') in Hi; [|first [reflexivity|symmetry; perm|perm]] end.

(** What is known of trees also holds after the heap was extended. *)
Ltac carry He := repeat match goal with Hr : rep ?h _ _ |- _ => apply (rep_extends _ _ _ _ He) in Hr end.

Ltac grow He :=
  match type of He with extends ?h _ =>
    match goal with Hx : extends _ h |- _ => apply (heap_extends_trans _ _ _ Hx) in He; clear Hx end end.

(** One [incref] or [new Node]; the trees and the invariant are those of the new heap. *)
Ltac heap_step :=
  match goal with
  | Hi : inv ?h ?R |- runs (incref _ ?p ≫= _) ?h _ =>
      apply runs_bind; eapply runs_mono;
      [apply (incref_ok h R p Hi); by eapply rep_valid|];
      let h' := fresh "h" in let He := fresh "He" in
      intros ? h' (-> & ? & He); clear Hi; carry He; grow He
  | Hi : inv ?h (?l :: ?r :: ?R) |- runs (new_Node _ ?l ?r ?v ≫= _) ?h _ =>
      apply runs_bind; eapply runs_mono; [eapply (new_Node_ok h R l r v _ _ Hi); eassumption|];
      let q := fresh "q" in let h' := fresh "h" in let He := fresh "He" in
      intros q h' (? & ? & He); clear Hi; carry He; grow He
  end.

(** The last step: [l] is not needed any more. *)
Lemma decref_last h0 h R l q t :
  extends h0 h → inv h (l :: q :: R) → rep h q t →
  runs (_ ← decref d l; mret q) h (λ q' h', q' = q ∧ inv h' (q :: R) ∧ rep h' q t ∧ keeps R h0 h').
Proof.
  intros He Hi Hq. apply runs_bind. eapply runs_mono; [by apply decref_ok|].
  intros _ h' [Hi' Hk]. apply runs_ret. split; [done|]. split; [done|]. split.
  - eapply rep_keeps; [exact Hk|apply live_root; by left|done].
  - eapply keeps_trans; [by apply extends_keeps|]. eapply keeps_mono; [|exact Hk]. set_solver.
Qed.

(** What [*p] holds, for a pointer to a tree *)
Definition node_of h n t : Prop :=
  height n = t_height t ∧
  match t with Leaf => True | Branch l v r => value n = v ∧ rep h (left n) l ∧ rep h (right n) r end.

Lemma get_tree_ok h R p t (P : Node V → Heap V → Prop) :
  inv h R → rep h p t → (∀ n, node_of h n t → P n h) → runs (get d p) h P.
Proof.
  intros Hi Hp HP. pose proof (rep_height _ _ _ _ Hi Hp) as Hh. destruct t as [|l v r].
  - apply get_valid; [by eapply rep_valid|]. intros n Hn. apply HP. split; [congruence|done].
  - destruct Hp as (a & n & -> & Ha & Hv & Hl & Hr). apply (get_node _ _ _ _ Ha). apply HP.
    cbn in Hh. rewrite Ha in Hh. by split.
Qed.

Ltac do_get := apply runs_bind; eapply get_tree_ok; [eassumption..|].

Lemma balance_ok h R l r tl tr v :
  inv h (l :: r :: R) → rep h l tl → rep h r tr →
  runs (balance d l v r) h (λ q h',
    inv h' (q :: R) ∧ rep h' q (t_balance tl v tr) ∧ keeps R h h').
Proof.
  intros Hi Hl Hr. unfold balance. pose proof (heap_extends_refl h) as Hx.
  do_get. intros nl [Hnl Hl']. do_get. intros nr [Hnr Hr'].
  rewrite Hnl, Hnr. unfold t_balance. destruct (t_height tl >? t_height tr + 2) eqn:E1.
  - destruct tl as [|tll lv tlr]; [cbn in E1; pose proof (t_height_pos tr); lia|].
    destruct Hl' as (<- & Hll & Hlr). do_get. intros nll [Hnll _]. do_get. intros nlr [Hnlr Hlr'].
    rewrite Hnll, Hnlr. destruct (t_height tll >=? t_height tlr) eqn:E2.
    + heap_step. owning (right nl :: r :: l :: R). heap_step. heap_step. heap_step.
      owning (l :: q0 :: R). eapply runs_mono; [by eapply decref_last|]. by intros ? ? (-> & ?).
    + destruct tlr as [|tlrl lrv tlrr]; [cbn in E2; pose proof (t_height_pos tll); lia|].
      destruct Hlr' as (<- & Hlrl & Hlrr). heap_step. heap_step. owning (left nl :: left nlr :: l :: r :: R).
      heap_step. heap_step. owning (right nlr :: r :: q :: l :: R). heap_step. owning (q :: q0 :: l :: R).
      heap_step. owning (l :: q1 :: R). eapply runs_mono; [by eapply decref_last|]. by intros ? ? (-> & ?).
  - destruct (t_height tr >? t_height tl + 2) eqn:E2.
    + destruct tr as [|trl rv trr]; [cbn in E2; pose proof (t_height_pos tl); lia|].
      destruct Hr' as (<- & Hrl & Hrr). do_get. intros nrl [Hnrl Hrl']. do_get. intros nrr [Hnrr _].
      rewrite Hnrl, Hnrr. destruct (t_height trr >=? t_height trl) eqn:E3.
      * heap_step. owning (l :: left nr :: r :: R). heap_step. heap_step. owning (q :: right nr :: r :: R).
        heap_step. owning (r :: q0 :: R). eapply runs_mono; [by eapply decref_last|]. by intros ? ? (-> & ?).
      * destruct trl as [|trll rlv trlr]; [cbn in E3; pose proof (t_height_pos trr); lia|].
        destruct Hrl' as (<- & Hrll & Hrlr). heap_step. owning (l :: left nrl :: r :: R). heap_step.
        heap_step. heap_step. owning (right nrl :: right nr :: q :: r :: R). heap_step.
        owning (q :: q0 :: r :: R). heap_step. owning (r :: q1 :: R).
        eapply runs_mono; [by eapply decref_last|]. by intros ? ? (-> & ?).
    + eapply runs_mono; [by apply new_Node_ok|]. intros q h' (? & ? & ?). split_and!; [done..|].
      by apply extends_keeps.
Qed.

(** ** Trees from trees *)

(** [m] returns a new pointer to the tree [t], and leaves what is reachable alone. *)
Definition makes (m : M (Heap V) ptr) t h R : Prop :=
  runs m h (λ q h', inv h' (q :: R) ∧ rep h' q t ∧ keeps R h h').

Lemma makes_incref h R p t : inv h R → rep h p t → makes (incref d p) t h R.
Proof.
  intros Hi Hp. eapply runs_mono; [apply incref_ok; [done|by eapply rep_valid]|].
  intros q h' (-> & ? & He). split_and!; [done|by eapply rep_extends|by apply extends_keeps].
Qed.

(** Rebalancing after a change of the left or of the right subtree *)
Lemma balance_left m h R x v tl tr :
  makes m tl h R → live h R x → rep h x tr →
  makes (l ← m; r ← incref d x; balance d l v r) (t_balance tl v tr) h R.
Proof.
  intros Hm Hx Hr. apply runs_bind. eapply runs_mono; [exact Hm|]. intros l h1 (Hi1 & Hl & Hk1).
  pose proof (rep_keeps _ _ _ _ _ Hk1 Hx Hr) as Hr1. apply runs_bind.
  eapply runs_mono; [by apply (makes_incref h1 (l :: R) x tr)|]. intros r h2 (Hi2 & Hr2 & Hk2).
  assert (rep h2 l tl) as Hl2 by (eapply rep_keeps; [exact Hk2|apply live_root; by left|done]).
  owning (l :: r :: R). eapply runs_mono; [by apply balance_ok|]. intros q h3 (? & ? & Hk3).
  split_and!; [done..|]. eapply keeps_trans; [exact Hk1|]. eapply keeps_trans; [|exact Hk3].
  eapply keeps_mono; [|exact Hk2]. set_solver.
Qed.

Lemma balance_right m h R x v tl tr :
  inv h R → live h R x → rep h x tl →
  (∀ h1, inv h1 (x :: R) → keeps R h h1 → makes m tr h1 (x :: R)) →
  makes (l ← incref d x; r ← m; balance d l v r) (t_balance tl v tr) h R.
Proof.
  intros Hi Hx Hl Hm. apply runs_bind.
  eapply runs_mono; [apply incref_ok; [done|by eapply rep_valid]|]. intros l h1 (-> & Hi1 & He1). carry He1.
  assert (keeps R h h1) as Hk1 by (by apply extends_keeps). apply runs_bind.
  eapply runs_mono; [by apply Hm|]. intros r h2 (Hi2 & Hr2 & Hk2).
  assert (rep h2 x tl) as Hl2 by (eapply rep_keeps; [exact Hk2|apply live_root; by left|done]).
  owning (x :: r :: R). eapply runs_mono; [by apply balance_ok|]. intros q h3 (? & ? & Hk3).
  split_and!; [done..|]. eapply keeps_trans; [exact Hk1|]. eapply keeps_trans; [|exact Hk3].
  eapply keeps_mono; [|exact Hk2]. set_solver.
Qed.

(** The subtrees of a reachable tree *)
Lemma live_children h R p l v r :
  live h R p → rep h p (Branch l v r) →
  ∃ a n, p = Some a ∧ nodes h !! a = Some n ∧ value n = v ∧
    rep h (left n) l ∧ rep h (right n) r ∧ live h R (left n) ∧ live h R (right n).
Proof.
  intros Hp (a & n & -> & Ha & Hv & Hl & Hr). exists a, n.
  split_and!; try done; [by eapply live_left|by eapply live_right].
Qed.

Lemma rep_terminator h p t : rep h p t → isTerminator p = if t is Leaf then true else false.
Proof. destruct t; cbn; [by intros ->|]. by intros (a & n & -> & _). Qed.

Lemma makes_leaf h R v :
  inv h R → makes (l ← incref d None; r ← incref d None; new_Node d l r v) (Branch Leaf v Leaf) h R.
Proof.
  intros Hi. pose proof (heap_extends_refl h) as Hx.
  assert (∀ h', rep h' None Leaf) as HL by done. apply runs_bind.
  eapply runs_mono; [by apply (incref_ok h R None)|]. intros q h1 (-> & Hi1 & He1). apply runs_bind.
  eapply runs_mono; [by apply (incref_ok h1 (None :: R) None)|]. intros q h2 (-> & Hi2 & He2).
  eapply runs_mono; [by apply (new_Node_ok h2 R None None v Leaf Leaf)|]. intros q h3 (? & ? & He3).
  split_and!; [done..|]. apply extends_keeps. eapply heap_extends_trans; [exact He1|]. by eapply heap_extends_trans.
Qed.

Lemma node_insert_ok v fuel h R p t :
  inv h R → live h R p → rep h p t → t_height t < Z.of_nat fuel →
  makes (node_insert d v fuel p) (t_insert v t) h R.
Proof.
  revert h R p t. induction fuel as [|fuel IH]; intros h R p t Hi Hp Ht Hf.
  { pose proof (t_height_pos t). lia. }
  cbn [node_insert]. rewrite (rep_terminator _ _ _ Ht). destruct t as [|l x r]; [by apply makes_leaf|].
  destruct (live_children _ _ _ _ _ _ Hp Ht) as (a & n & -> & Ha & <- & Hl & Hr & Hll & Hlr).
  cbn in Hf. apply runs_bind, (get_node _ _ _ _ Ha). cbn [t_insert]. unfold vlt. case_match.
  - apply balance_left; [apply IH; [done..|lia]|done..].
  - case_match; [|by apply makes_incref]. apply balance_right; [done..|]. intros h1 Hi1 Hk1.
    apply IH; [done| |by eapply rep_keeps|lia].
    eapply live_mono; [|by eapply live_keeps]. set_solver.
Qed.

Lemma node_replace_ok v fuel h R p t :
  inv h R → live h R p → rep h p t → t_height t < Z.of_nat fuel →
  makes (node_replace d v fuel p) (t_replace v t) h R.
Proof.
  revert h R p t. induction fuel as [|fuel IH]; intros h R p t Hi Hp Ht Hf.
  { pose proof (t_height_pos t). lia. }
  cbn [node_replace]. rewrite (rep_terminator _ _ _ Ht). destruct t as [|l x r]; [by apply makes_leaf|].
  destruct (live_children _ _ _ _ _ _ Hp Ht) as (a & n & -> & Ha & <- & Hl & Hr & Hll & Hlr).
  cbn in Hf. apply runs_bind, (get_node _ _ _ _ Ha). cbn [t_replace]. unfold vlt. case_match.
  - apply balance_left; [apply IH; [done..|lia]|done..].
  - case_match.
    + apply balance_right; [done..|]. intros h1 Hi1 Hk1. apply IH; [done| |by eapply rep_keeps|lia].
      eapply live_mono; [|by eapply live_keeps]. set_solver.
    + pose proof (heap_extends_refl h) as Hx. heap_step. heap_step. owning (left n :: right n :: R).
      eapply runs_mono; [by eapply new_Node_ok|]. intros q h' (? & ? & He'). split_and!; [done..|].
      apply extends_keeps. by eapply heap_extends_trans.
Qed.

(** The same, with a value *)
Definition pops (m : M (Heap V) (V * ptr)) (vt : V * tree V) h R : Prop :=
  runs m h (λ '(w, q) h', w = vt.1 ∧ inv h' (q :: R) ∧ rep h' q vt.2 ∧ keeps R h h').

Lemma node_popMin_ok fuel h R p t :
  inv h R → live h R p → rep h p t → t_height t < Z.of_nat fuel →
  pops (node_popMin d fuel p) (t_popMin d t) h R.
Proof.
  revert h R p t. induction fuel as [|fuel IH]; intros h R p t Hi Hp Ht Hf.
  { pose proof (t_height_pos t). lia. }
  cbn [node_popMin]. destruct t as [|l x r].
  { cbn in Ht. subst p. apply runs_bind. unfold runs, get. cbn. apply runs_bind.
    eapply runs_mono; [by apply (makes_incref h R None Leaf)|]. intros q h' (? & ? & ?). by apply runs_ret. }
  destruct (live_children _ _ _ _ _ _ Hp Ht) as (a & n & -> & Ha & <- & Hl & Hr & Hll & Hlr).
  apply runs_bind, (get_node _ _ _ _ Ha). rewrite (rep_terminator _ _ _ Hl).
  destruct l as [|ll lv lr].
  { apply runs_bind. eapply runs_mono; [by apply (makes_incref h R (right n) r)|].
    intros q h' (? & ? & ?). by apply runs_ret. }
  set (l := Branch ll lv lr) in *.
  change (t_popMin d (Branch l (value n) r)) with (let '(m, l') := t_popMin d l in (m, t_balance l' (value n) r)).
  assert (t_height l < Z.of_nat fuel) as Hfl by (cbn [t_height] in *; lia).
  pose proof (IH h R (left n) l Hi Hll Hl Hfl) as Hpop. destruct (t_popMin d l) as [m l'].
  apply runs_bind. eapply runs_mono; [exact Hpop|]. intros [w pl] h1 (-> & Hi1 & Hl1 & Hk1).
  apply runs_bind. eapply runs_mono; [apply (makes_incref h1 (pl :: R) (right n) r); [done|by eapply rep_keeps]|].
  intros q h2 (Hi2 & Hr2 & Hk2). owning (pl :: q :: R). apply runs_bind.
  eapply runs_mono; [apply (balance_ok h2 R pl q l' r); [done| |done]|].
  { eapply rep_keeps; [exact Hk2|apply live_root; by left|done]. }
  intros res h3 (? & ? & Hk3). apply runs_ret. split_and!; [done..|].
  eapply keeps_trans; [exact Hk1|]. eapply keeps_trans; [|exact Hk3]. eapply keeps_mono; [|exact Hk2]. set_solver.
Qed.

Lemma node_popMax_ok fuel h R p t :
  inv h R → live h R p → rep h p t → t_height t < Z.of_nat fuel →
  pops (node_popMax d fuel p) (t_popMax d t) h R.
Proof.
  revert h R p t. induction fuel as [|fuel IH]; intros h R p t Hi Hp Ht Hf.
  { pose proof (t_height_pos t). lia. }
  cbn [node_popMax]. destruct t as [|l x r].
  { cbn in Ht. subst p. apply runs_bind. unfold runs, get. cbn. apply runs_bind.
    eapply runs_mono; [by apply (makes_incref h R None Leaf)|]. intros q h' (? & ? & ?). by apply runs_ret. }
  destruct (live_children _ _ _ _ _ _ Hp Ht) as (a & n & -> & Ha & <- & Hl & Hr & Hll & Hlr).
  apply runs_bind, (get_node _ _ _ _ Ha). rewrite (rep_terminator _ _ _ Hr).
  destruct r as [|rl rv rr].
  { apply runs_bind. eapply runs_mono; [by apply (makes_incref h R (left n) l)|].
    intros q h' (? & ? & ?). by apply runs_ret. }
  set (r := Branch rl rv rr) in *.
  change (t_popMax d (Branch l (value n) r)) with (let '(m, r') := t_popMax d r in (m, t_balance l (value n) r')).
  assert (t_height r < Z.of_nat fuel) as Hfr by (cbn [t_height] in *; lia).
  apply runs_bind. eapply runs_mono; [by apply (makes_incref h R (left n) l)|].
  intros pl h1 (Hi1 & Hl1 & Hk1).
  assert (live h1 (pl :: R) (right n)) as Hlr1 by (eapply live_mono; [|by eapply live_keeps]; set_solver).
  pose proof (IH h1 (pl :: R) (right n) r Hi1 Hlr1 (rep_keeps _ _ _ _ _ Hk1 Hlr Hr) Hfr) as Hpop.
  destruct (t_popMax d r) as [m r']. apply runs_bind. eapply runs_mono; [exact Hpop|].
  intros [w q] h2 (-> & Hi2 & Hr2 & Hk2). owning (pl :: q :: R). apply runs_bind.
  eapply runs_mono; [apply (balance_ok h2 R pl q l r'); [done| |done]|].
  { eapply rep_keeps; [exact Hk2|apply live_root; by left|done]. }
  intros res h3 (? & ? & Hk3). apply runs_ret. split_and!; [done..|].
  eapply keeps_trans; [exact Hk1|]. eapply keeps_trans; [|exact Hk3]. eapply keeps_mono; [|exact Hk2]. set_solver.
Qed.

Lemma node_remove_ok k fuel h R p t :
  inv h R → live h R p → rep h p t → t_height t < Z.of_nat fuel →
  makes (node_remove d k fuel p) (t_remove d k t) h R.
Proof.
  revert h R p t. induction fuel as [|fuel IH]; intros h R p t Hi Hp Ht Hf.
  { pose proof (t_height_pos t). lia. }
  cbn [node_remove]. rewrite (rep_terminator _ _ _ Ht). destruct t as [|l x r]; [by apply makes_incref|].
  destruct (live_children _ _ _ _ _ _ Hp Ht) as (a & n & -> & Ha & <- & Hl & Hr & Hll & Hlr).
  cbn [t_height] in Hf. apply runs_bind, (get_node _ _ _ _ Ha). cbn [t_remove]. unfold above, below. case_match.
  { apply balance_left; [apply IH; [done..|lia]|done..]. }
  case_match.
  { apply balance_right; [done..|]. intros h1 Hi1 Hk1. apply IH; [done| |by eapply rep_keeps|lia].
    eapply live_mono; [|by eapply live_keeps]. set_solver. }
  rewrite (rep_terminator _ _ _ Hl), (rep_terminator _ _ _ Hr).
  destruct l as [|ll lv lr]; [by apply makes_incref|]. destruct r as [|rl rv rr]; [by apply makes_incref|].
  set (l := Branch ll lv lr) in *. set (r := Branch rl rv rr) in *.
  pose proof (node_popMin_ok fuel h R (right n) r Hi Hlr Hr ltac:(lia)) as Hpop.
  destruct (t_popMin d r) as [m r']. apply runs_bind. eapply runs_mono; [exact Hpop|].
  intros [w q] h1 (-> & Hi1 & Hr1 & Hk1). apply runs_bind.
  eapply runs_mono; [apply (makes_incref h1 (q :: R) (left n) l); [done|by eapply rep_keeps]|].
  intros pl h2 (Hi2 & Hl2 & Hk2). eapply runs_mono; [apply (balance_ok h2 R pl q l r'); [done..|]|].
  { eapply rep_keeps; [exact Hk2|apply live_root; by left|done]. }
  intros res h3 (? & ? & Hk3). split_and!; [done..|].
  eapply keeps_trans; [exact Hk1|]. eapply keeps_trans; [|exact Hk3]. eapply keeps_mono; [|exact Hk2]. set_solver.
Qed.

(** ** The methods of [ImmutableTree] *)

Lemma with_depth {A} (f : nat → M (Heap V) A) h R p t P :
  inv h R → rep h p t → (∀ fuel, t_height t < Z.of_nat fuel → runs (f fuel) h P) →
  runs (fuel ← depth d p; f fuel) h P.
Proof.
  intros Hi Hp Hf. unfold depth. do 2 apply runs_bind. eapply get_tree_ok; [done..|]. intros n [Hn _].
  apply runs_ret, Hf. pose proof (t_height_pos t). lia.
Qed.

Lemma persistent_insert_ok v h R p t :
  inv h R → live h R p → rep h p t → makes (ImmutableTree_insert d v p) (t_insert v t) h R.
Proof. intros. eapply with_depth; [done..|]. intros. by apply node_insert_ok. Qed.

Lemma tree_replace_ok v h R p t :
  inv h R → live h R p → rep h p t → makes (ImmutableTree_replace d v p) (t_replace v t) h R.
Proof. intros. eapply with_depth; [done..|]. intros. by apply node_replace_ok. Qed.

Lemma tree_remove_ok k h R p t :
  inv h R → live h R p → rep h p t → makes (ImmutableTree_remove d k p) (t_remove d k t) h R.
Proof. intros. eapply with_depth; [done..|]. intros. by apply node_remove_ok. Qed.

Lemma tree_popMin_ok h R p t :
  inv h R → live h R p → rep h p t → pops (ImmutableTree_popMin d p) (t_popMin d t) h R.
Proof. intros. eapply with_depth; [done..|]. intros. by apply node_popMin_ok. Qed.

Lemma tree_popMax_ok h R p t :
  inv h R → live h R p → rep h p t → pops (ImmutableTree_popMax d p) (t_popMax d t) h R.
Proof. intros. eapply with_depth; [done..|]. intros. by apply node_popMax_ok. Qed.

(** [m] returns [x] and does not change the heap. *)
Definition reads {A} (m : M (Heap V) A) (x : A) h : Prop := m h = Done (x, h).

Lemma reads_bind {A B} (m : M (Heap V) A) (f : A → M (Heap V) B) (x : A) (y : B) h :
  reads m x h → reads (f x) y h → reads (m ≫= f) y h.
Proof. unfold reads, mbind, M_bind. by intros ->. Qed.

Lemma reads_node h a n : nodes h !! a = Some n → reads (get d (Some a)) n h.
Proof. unfold reads, get. cbn. by intros ->. Qed.

Lemma reads_depth {A} (f : nat → M (Heap V) A) (x : A) h R p t :
  inv h R → rep h p t → (∀ fuel, t_height t < Z.of_nat fuel → reads (f fuel) x h) →
  reads (fuel ← depth d p; f fuel) x h.
Proof.
  intros Hi Hp Hf. destruct (node_at_valid h p (rep_valid _ _ _ Hp)) as (n & Hn & Hh).
  apply (reads_bind _ _ (S (Z.to_nat (height n)))).
  - unfold depth. apply (reads_bind _ _ n); [|done]. unfold reads, get. by rewrite Hn.
  - apply Hf. rewrite Hh, (rep_height _ _ _ _ Hi Hp). pose proof (t_height_pos t). lia.
Qed.

Lemma node_size_ok fuel h p t :
  rep h p t → t_height t < Z.of_nat fuel → reads (tree_node_size d fuel p) (Z.of_nat (length (t_elements t))) h.
Proof.
  revert p t. induction fuel as [|fuel IH]; intros p t Hp Hf; [pose proof (t_height_pos t); lia|].
  cbn [tree_node_size]. rewrite (rep_terminator _ _ _ Hp). destruct t as [|l x r]; [done|].
  destruct Hp as (a & n & -> & Ha & _ & Hl & Hr). cbn in Hf. apply (reads_bind _ _ _ _ _ (reads_node _ _ _ Ha)).
  eapply reads_bind; [apply (IH _ _ Hl); lia|]. eapply reads_bind; [apply (IH _ _ Hr); lia|].
  unfold reads. cbn. rewrite length_app. cbn. unfold mret, M_ret. do 2 f_equal. lia.
Qed.

Context `{!KeyCompareLaws K}.
Abbreviation sorted := (StronglySorted (λ x y : V, vlt (K := K) x y = true)).

Lemma lookup_loop_ok k fuel h p t :
  rep h p t → sorted (t_elements t) → t_height t < Z.of_nat fuel →
  reads (lookup_loop d k fuel p) (list_find k (t_elements t)) h.
Proof.
  revert p t. induction fuel as [|fuel IH]; intros p t Hp Hs Hf; [pose proof (t_height_pos t); lia|].
  cbn [lookup_loop]. rewrite (rep_terminator _ _ _ Hp). destruct t as [|l x r]; [done|].
  destruct Hp as (a & n & -> & Ha & <- & Hl & Hr). cbn in Hf, Hs. apply (reads_bind _ _ _ _ _ (reads_node _ _ _ Ha)).
  cbn [t_elements]. rewrite list_find_middle by done. unfold above, below.
  apply sorted_middle in Hs as (? & ? & _). case_match; [apply IH; [done..|lia]|].
  case_match; [apply IH; [done..|lia]|done].
Qed.

Lemma previous_loop_ok k fuel h p t result :
  rep h p t → sorted (t_elements t) → t_height t < Z.of_nat fuel →
  reads (previous_loop d k fuel p result)
    (if list_previous k (t_elements t) is Some v then Some v else result) h.
Proof.
  revert p t result. induction fuel as [|fuel IH]; intros p t result Hp Hs Hf; [pose proof (t_height_pos t); lia|].
  cbn [previous_loop]. rewrite (rep_terminator _ _ _ Hp). destruct t as [|l x r]; [done|].
  destruct Hp as (a & n & -> & Ha & <- & Hl & Hr). cbn in Hf, Hs. apply (reads_bind _ _ _ _ _ (reads_node _ _ _ Ha)).
  cbn [t_elements]. rewrite list_previous_middle by done. unfold above, below.
  apply sorted_middle in Hs as (? & ? & _). case_match; [apply IH; [done..|lia]|]. case_match; [|done].
  pose proof (IH _ _ (Some (value n)) Hr ltac:(done) ltac:(lia)) as Hlast.
  by destruct (list_previous k (t_elements r)).
Qed.
End heap.
