(* ===== verification/TreeIterators.v ===== *)
(** * Iterators over persistent trees

    A position in a tree is a subtree and the ancestors of its root with their other
    subtrees.  The stack of an iterator is such a position; moving it enumerates the
    values of the tree in order. *)

From stdpp Require Import prelude gmap sorting.
From S2P Require Import Prelude SearchTree ImmutableTree ImmutableTreeProofs.

Section iterators.
Context {K V : Type} `{KeyCompare K} `{KeyOfValue K V} (dv : V) `{!KeyCompareLaws K}.
Implicit Types (p q root : ptr) (a : positive) (n : Node V) (h : Heap V) (R stk : list ptr) (t l r : tree V) (v : V).
Implicit Types (d e : bool).

Abbreviation sorted := (StronglySorted (λ x y : V, vlt (K := K) x y = true)).

(** ** Directions: [true] is to the right *)

Definition kid d t : tree V :=
  match t with Leaf => Leaf | Branch l _ r => if d then r else l end.

(** The values of a tree in the direction [d] *)
Fixpoint tin d t : list V :=
  match t with
  | Leaf => []
  | Branch l v r => if d then tin d l ++ v :: tin d r else tin d r ++ v :: tin d l
  end.

Lemma tin_branch d l v r :
  tin d (Branch l v r) = tin d (kid (negb d) (Branch l v r)) ++ v :: tin d (kid d (Branch l v r)).
Proof. by destruct d. Qed.

Lemma tin_true t : tin true t = t_elements t.
Proof. induction t as [|l IHl v r IHr]; [done|]. cbn. by rewrite IHl, IHr. Qed.

Lemma tin_reverse d t : tin (negb d) t = reverse (tin d t).
Proof.
  induction t as [|l IHl v r IHr]; [done|].
  destruct d; cbn [negb tin] in *; rewrite IHl, IHr, reverse_app, reverse_cons; by rewrite <- app_assoc.
Qed.

(** The ancestors: the direction that was taken, the value and the other subtree *)
Definition frame : Type := bool * V * tree V.
Implicit Types (ctx : list frame).

(** What comes after a subtree in the direction [d] *)
Fixpoint rest d ctx : list V :=
  match ctx with
  | [] => []
  | (e, v, sib) :: ctx => (if bool_decide (e = d) then [] else v :: tin d sib) ++ rest d ctx
  end.

(** The subtree [t] at [p] of the tree [t0] at [root], with the nodes above it *)
Inductive zip h root (t0 : tree V) : ptr → list ptr → tree V → list frame → Prop :=
| zip_root : zip h root t0 root [] t0 []
| zip_down e a n stk l r ctx :
    zip h root t0 (Some a) stk (Branch l (value n) r) ctx → nodes h !! a = Some n →
    zip h root t0 (child e n) (Some a :: stk) (kid e (Branch l (value n) r))
      ((e, value n, kid (negb e) (Branch l (value n) r)) :: ctx).

Lemma zip_rep h root t0 p stk t ctx : rep h root t0 → zip h root t0 p stk t ctx → rep h p t.
Proof.
  intros Ht0. induction 1 as [|e a n stk l r ctx Hz IH Ha]; [done|].
  destruct IH as (a' & n' & [= <-] & Ha' & _ & Hl & Hr). rewrite Ha in Ha'. injection Ha' as <-. by destruct e.
Qed.

Lemma zip_elements h root t0 p stk t ctx d :
  zip h root t0 p stk t ctx → tin d t0 = reverse (rest (negb d) ctx) ++ tin d t ++ rest d ctx.
Proof.
  induction 1 as [|e a n stk l r ctx Hz IH Ha]; [cbn [rest]; by rewrite reverse_nil, app_nil_r|].
  rewrite IH, tin_branch. cbn [rest]. destruct (decide (e = d)) as [->|Hne].
  - rewrite (bool_decide_true (d = d)), (bool_decide_false (d = negb d)) by (by destruct d). rewrite reverse_app.
    rewrite reverse_cons, <- tin_reverse, negb_involutive. by rewrite <- !app_assoc.
  - assert (e = negb d) as -> by (by destruct d, e).
    rewrite (bool_decide_true (negb d = negb d)), (bool_decide_false (negb d = d)) by (by destruct d).
    rewrite negb_involutive. cbn [app].
    by rewrite <- !app_assoc.
Qed.

Lemma zip_height h root t0 p stk t ctx :
  zip h root t0 p stk t ctx → Z.of_nat (length stk) + t_height t ≤ t_height t0.
Proof.
  induction 1 as [|e a n stk l r ctx Hz IH Ha]; [cbn; lia|]. cbn [length t_height] in *.
  assert (t_height (kid e (Branch l (value n) r)) ≤ Z.max (t_height l) (t_height r)) by (destruct e; cbn; lia).
  lia.
Qed.

(** A subtree and its sibling are at different addresses. *)
Lemma sorted_sibling h a n l r d p :
  sorted (t_elements (Branch l (value n) r)) → rep h (Some a) (Branch l (value n) r) → nodes h !! a = Some n →
  p = child d n → p ≠ None → p ≠ child (negb d) n.
Proof.
  intros Hs (a' & n' & [= <-] & Ha' & _ & Hl & Hr) Ha -> Hp Heq. rewrite Ha in Ha'. injection Ha' as <-.
  assert (left n = right n) as Hlr by (by destruct d). rewrite <- Hlr in Hr.
  assert (l = r) as <- by (by eapply rep_functional). destruct l as [|ll lv lr].
  { cbn in Hl, Hr. destruct d; cbn in Hp; congruence. }
  cbn [t_elements] in Hs. apply sorted_middle in Hs as (_ & _ & H1 & H2).
  assert (lv ∈ t_elements ll ++ lv :: t_elements lr) as Hin by set_solver.
  specialize (H1 lv Hin). specialize (H2 lv Hin). pose proof (kc_asym _ _ H1) as Hasym.
  unfold vlt in H2. congruence.
Qed.

Lemma zip_sorted h root t0 p stk t ctx :
  sorted (t_elements t0) → zip h root t0 p stk t ctx → sorted (t_elements t).
Proof.
  intros Hs. induction 1 as [|e a n stk l r ctx Hz IH Ha]; [done|]. cbn in IH.
  apply sorted_middle in IH as (? & ? & _). by destruct e.
Qed.

(** ** Positions of iterators *)

(** [ys] are the values from the position of the iterator on, in the direction [d]; the
    stack of an iterator at the end is empty. *)
Definition points h root t0 d (it : iterator) (ys : list V) : Prop :=
  it_root it = root ∧ it_max it = t_height t0 ∧
  match it_stack it with
  | [] => ys = []
  | p :: stk => ∃ l v r ctx, zip h root t0 p stk (Branch l v r) ctx ∧
      ys = v :: tin d (kid d (Branch l v r)) ++ rest d ctx
  end.

Section moves.
Context (h : Heap V) (R : list ptr) (root : ptr) (t0 : tree V) (Hinv : inv h R).
Context (Hroot : rep h root t0).

Lemma rep_child n a l v r e :
  rep h (Some a) (Branch l v r) → nodes h !! a = Some n → value n = v ∧ rep h (child e n) (kid e (Branch l v r)).
Proof.
  intros (a' & n' & [= <-] & Ha' & Hv & Hl & Hr) Ha. rewrite Ha in Ha'. injection Ha' as <-. by destruct e.
Qed.

Lemma push_back_ok it p stk t ctx :
  it_stack it = stk → it_max it = t_height t0 → zip h root t0 p stk t ctx → t ≠ Leaf →
  push_back p it = Done (mkIterator (it_root it) (it_max it) (p :: stk)).
Proof.
  intros Hst Hmax Hz Ht. pose proof (zip_height _ _ _ _ _ _ _ Hz). destruct t as [|l v r]; [done|].
  pose proof (t_height_pos l). cbn in *. unfold push_back. rewrite Hst, Hmax.
  rewrite (proj2 (Z.ltb_lt _ _)) by lia. done.
Qed.

(** Pushing the descendants to one side of a node on the stack *)
Lemma push_spine_ok e fuel a n stk l v r ctx it :
  zip h root t0 (Some a) stk (Branch l v r) ctx → nodes h !! a = Some n →
  it_root it = root → it_max it = t_height t0 → it_stack it = Some a :: stk →
  t_height (kid e (Branch l v r)) < Z.of_nat fuel →
  ∃ it', reads (push_spine dv e fuel (child e n) it) it' h ∧
    points h root t0 (negb e) it' (tin (negb e) (Branch l v r) ++ rest (negb e) ctx).
Proof.
  revert a n stk l v r ctx it. induction fuel as [|fuel IH]; intros a n stk l v r ctx it Hz Ha Hr Hm Hst Hf.
  { pose proof (t_height_pos (kid e (Branch l v r))). lia. }
  pose proof (zip_rep _ _ _ _ _ _ _ Hroot Hz) as Hrep.
  destruct (rep_child n a l v r e Hrep Ha) as [<- Hc]. cbn [push_spine].
  rewrite tin_branch, negb_involutive. rewrite (rep_terminator _ _ _ Hc).
  destruct (kid e (Branch l (value n) r)) as [|l' v' r'] eqn:Ek.
  - exists it. split; [done|]. split_and!; [done..|]. rewrite Hst. by exists l, (value n), r, ctx.
  - pose proof (zip_down _ _ _ e _ _ _ _ _ _ Hz Ha) as Hz'. rewrite Ek in Hz'.
    destruct Hc as (b & nb & Hb & Hnb & Hvb & _). rewrite Hb in Hz' |- *.
    destruct (IH b nb (Some a :: stk) l' v' r' _ (mkIterator (it_root it) (it_max it) (Some b :: Some a :: stk)) Hz' Hnb)
      as (it' & Hrd & Hp); [done..| |].
    { assert (t_height (kid e (Branch l' v' r')) < t_height (Branch l' v' r')) by (destruct e; cbn; lia). lia. }
    exists it'. split.
    + eapply reads_bind; [unfold reads, lift; by rewrite (push_back_ok it _ _ _ _ Hst Hm Hz')|].
      eapply reads_bind; [by apply reads_node|]. exact Hrd.
    + cbn [rest] in Hp. rewrite bool_decide_false in Hp by (by destruct e).
      by rewrite <- app_assoc.
Qed.

(** From the root: the first value in the direction [negb e] *)
Lemma push_root_ok e fuel it :
  it_root it = root → it_max it = t_height t0 → it_stack it = [] → t_height t0 < Z.of_nat fuel →
  ∃ it', reads (push_spine dv e fuel root it) it' h ∧ points h root t0 (negb e) it' (tin (negb e) t0).
Proof.
  intros Hr Hm Hst Hf. destruct fuel as [|fuel]; [pose proof (t_height_pos t0); lia|].
  cbn [push_spine]. rewrite (rep_terminator _ _ _ Hroot).
  assert (t0 = Leaf ∨ ∃ l v r, t0 = Branch l v r) as [E|(l & v & r & E)] by (destruct t0; eauto).
  { rewrite E. exists it. split; [done|]. split_and!; [done|by rewrite <- E|]. by rewrite Hst. }
  pose proof (zip_root h root t0) as Hz. rewrite E in Hz at 2. pose proof Hroot as Hrep. rewrite E in Hrep, Hf.
  destruct Hrep as (a & n & Ea & Ha & Hv & _). rewrite Ea in Hz at 2.
  destruct (push_spine_ok e fuel a n [] l v r [] (mkIterator root (t_height t0) [Some a]) Hz Ha)
    as (it' & Hrd & Hp); [done..|destruct e; cbn in *; lia|].
  exists it'. split.
  - rewrite E, Ea. eapply reads_bind.
    { unfold reads, lift. rewrite (push_back_ok it (Some a) [] _ _ Hst Hm Hz) by done. by rewrite Hr, Hm. }
    eapply reads_bind; [by apply reads_node|]. exact Hrd.
  - rewrite E at 2. by rewrite app_nil_r in Hp.
Qed.

Context (Hsorted : sorted (t_elements t0)).

(** Going up to the next value in the direction [d] *)
Lemma go_up_ok d p stk t ctx it :
  zip h root t0 p stk t ctx → t ≠ Leaf → it_root it = root → it_max it = t_height t0 →
  ∃ it', reads (go_up dv d p stk it) it' h ∧ points h root t0 d it' (rest d ctx).
Proof.
  intros Hz Ht Hr Hm. induction Hz as [|e a n stk l r ctx Hz IH Ha]; cbn [go_up].
  { eexists. split; [done|]. by split_and!. }
  pose proof (zip_rep _ _ _ _ _ _ _ Hroot Hz) as Hrep. cbn [rest].
  destruct (rep_child n a l (value n) r e Hrep Ha) as [_ Hc].
  assert (child e n ≠ None) as Hne.
  { destruct (kid e (Branch l (value n) r)); [done|]. destruct Hc as (b & ? & Hb & _). by rewrite Hb. }
  destruct (decide (e = d)) as [->|Hd].
  - rewrite (bool_decide_true (d = d)) by done. destruct IH as (it' & Hrd & Hp); [done|].
    exists it'. split; [|done]. eapply reads_bind; [by apply reads_node|].
    rewrite bool_decide_false; [done|]. by eapply sorted_sibling; [eapply zip_sorted|..].
  - assert (e = negb d) as -> by (by destruct d, e). rewrite (bool_decide_false (negb d = d)) by done.
    eexists. split; [eapply reads_bind; [by apply reads_node|]; by rewrite bool_decide_true|].
    split_and!; [done..|]. cbn. exists l, (value n), r, ctx. split; [done|]. by rewrite negb_involutive.
Qed.

(** A step in the direction [d] *)
Lemma it_step_ok d it y ys :
  points h root t0 d it (y :: ys) → ∃ it', reads (it_step dv d it) it' h ∧ points h root t0 d it' ys.
Proof.
  intros (Hr & Hm & Hp). unfold it_step. destruct (it_stack it) as [|p stk] eqn:Est; [done|].
  destruct Hp as (l & v & r & ctx & Hz & [= -> ->]).
  change (if d then r else l) with (kid d (Branch l v r)).
  pose proof (zip_rep _ _ _ _ _ _ _ Hroot Hz) as Hrep. pose proof Hrep as (a & n & -> & Ha & <- & _).
  assert (reads (back it) (Some a) h) as Hback by (unfold reads, back; by rewrite Est).
  destruct (rep_child n a l (value n) r d Hrep Ha) as [_ Hc].
  pose proof (rep_terminator _ _ _ Hc) as Hterm. pose proof (zip_down _ _ _ d _ _ _ _ _ _ Hz Ha) as Hz'.
  destruct (kid d (Branch l (value n) r)) as [|l' v' r'] eqn:Ek.
  - destruct (go_up_ok d (Some a) stk _ ctx it Hz) as (it' & Hrd & Hp); [done..|]. exists it'. split; [|exact Hp].
    eapply reads_bind; [exact Hback|]. eapply reads_bind; [by apply reads_node|]. rewrite Hterm.
    exact Hrd.
  - pose proof Hc as Hrb. destruct Hc as (b & nb & Hb & Hnb & _). rewrite Hb in Hz', Hrb, Hterm.
    destruct (rep_child nb b l' v' r' (negb d) Hrb Hnb) as [_ Hc'].
    set (it1 := mkIterator (it_root it) (it_max it) (Some b :: Some a :: stk)).
    assert (∃ it', reads (fuel ← depth dv (child (negb d) nb); push_spine dv (negb d) fuel (child (negb d) nb) it1) it' h ∧
      points h root t0 d it' (tin d (Branch l' v' r') ++ rest d ctx)) as (it' & Hrd & Hp').
    { destruct (push_spine_ok (negb d) (S (Z.to_nat (t_height (kid (negb d) (Branch l' v' r')))))
        b nb (Some a :: stk) l' v' r' _ it1 Hz' Hnb) as (it' & Hrd & Hp'); [done..| |].
      { pose proof (t_height_pos (kid (negb d) (Branch l' v' r'))). lia. }
      rewrite negb_involutive in Hp'. cbn [rest] in Hp'. rewrite (bool_decide_true (d = d)) in Hp' by done.
      exists it'. split; [|done]. eapply reads_bind; [|exact Hrd].
      destruct (node_at_valid dv h _ (rep_valid _ _ _ Hc')) as (nc & Hnc & Hh).
      unfold depth, reads, mbind, M_bind, get. rewrite Hnc. cbn. by rewrite Hh, (rep_height _ _ _ _ Hinv Hc'). }
    exists it'. split; [|done]. eapply reads_bind; [exact Hback|]. eapply reads_bind; [by apply reads_node|].
    rewrite Hb, Hterm. eapply reads_bind.
    { unfold reads, lift. by rewrite (push_back_ok it (Some b) (Some a :: stk) _ _ Est Hm Hz'). }
    eapply reads_bind; [by apply reads_node|]. exact Hrd.
Qed.

(** The values behind a position *)
Lemma points_flip d it y ys zs :
  tin d t0 = reverse zs ++ y :: ys → points h root t0 d it (y :: ys) → points h root t0 (negb d) it (y :: zs).
Proof.
  intros Ht (Hr & Hm & Hp). split_and!; [done..|]. destruct (it_stack it) as [|p stk]; [done|].
  destruct Hp as (l & v & r & ctx & Hz & Heq). exists l, v, r, ctx. split; [done|].
  pose proof (zip_elements _ _ _ _ _ _ _ d Hz) as He. rewrite tin_branch in He.
  assert (y = v ∧ ys = tin d (kid d (Branch l v r)) ++ rest d ctx) as [-> ->] by (by injection Heq as -> ->).
  rewrite Ht in He. rewrite <- app_assoc in He. cbn [app] in He. rewrite app_assoc in He. apply app_inv_tail in He.
  f_equal. rewrite <- (reverse_involutive zs), He, reverse_app, reverse_involutive, tin_reverse. done.
Qed.

Lemma it_next_ok it y ys :
  points h root t0 true it (y :: ys) → ∃ it', reads (it_next dv it) it' h ∧ points h root t0 true it' ys.
Proof.
  intros Hp. destruct (it_step_ok true it y ys Hp) as (it' & Hrd & Hp'). exists it'. split; [|done].
  unfold it_next. destruct Hp as (_ & _ & Hp). destruct (it_stack it); [done|].
  by eapply reads_bind; [done|].
Qed.

Lemma it_prev_ok it xs x ys :
  t_elements t0 = xs ++ x :: ys → points h root t0 true it ys →
  ∃ it', reads (it_prev dv it) it' h ∧ points h root t0 true it' (x :: ys).
Proof.
  intros He Hp. unfold it_prev.
  assert (∀ it', points h root t0 false it' (x :: reverse xs) → points h root t0 true it' (x :: ys)) as Hback.
  { intros it'. apply (points_flip false). change false with (negb true). rewrite tin_reverse, tin_true, He.
    by rewrite reverse_app, reverse_cons, <- app_assoc. }
  pose proof Hp as (Hr & Hm & Hst). destruct (it_stack it) as [|p stk] eqn:Est.
  - subst ys. destruct (push_root_ok true (S (Z.to_nat (t_height t0))) it Hr Hm Est) as (it' & Hrd & Hp').
    { pose proof (t_height_pos t0). lia. }
    exists it'. split.
    + rewrite bool_decide_true by done. eapply reads_bind; [|by rewrite Hr].
      destruct (node_at_valid dv h root (rep_valid _ _ _ Hroot)) as (nr & Hnr & Hh).
      unfold depth, reads, mbind, M_bind, get. rewrite Hr, Hnr. cbn. by rewrite Hh, (rep_height _ _ _ _ Hinv Hroot).
    + apply Hback. change (negb true) with false in Hp'. change false with (negb true) in Hp' at 2.
      rewrite tin_reverse, tin_true, He, reverse_app in Hp'. exact Hp'.
  - destruct ys as [|y ys]; [destruct Hst as (? & ? & ? & ? & ? & ?); done|].
    destruct (it_step_ok false it y (x :: reverse xs)) as (it' & Hrd & Hp').
    { apply (points_flip true) with (ys := ys); [|done]. rewrite tin_true, He, reverse_cons, reverse_involutive.
      by rewrite <- app_assoc. }
    exists it'. split; [|by apply Hback]. by rewrite bool_decide_false.
Qed.

(** The descent of [lower_bound] *)
Definition taken k ctx : Prop :=
  match ctx with [] => True | (e, v, _) :: _ => if (e : bool) then below v k = true else above k v = true end.

Lemma bound_loop_ok k fuel p stk t ctx it :
  zip h root t0 p stk t ctx → it_root it = root → it_max it = t_height t0 → it_stack it = stk →
  taken k ctx → t_height t < Z.of_nat fuel →
  list_from k (t_elements t0) = list_from k (t_elements t) ++ rest true ctx →
  ∃ found it', reads (bound_loop dv k fuel p it) (found, it') h ∧
    if (found : bool) then points h root t0 true it' (list_from k (t_elements t0))
    else it_root it' = root ∧ it_max it' = t_height t0 ∧ ∃ p' ctx', zip h root t0 p' (it_stack it') Leaf ctx' ∧
      taken k ctx' ∧ list_from k (t_elements t0) = rest true ctx'.
Proof.
  revert p stk t ctx it. induction fuel as [|fuel IH]; intros p stk t ctx it Hz Hr Hm Hst Htk Hf Hfrom.
  { pose proof (t_height_pos t). lia. }
  pose proof (zip_rep _ _ _ _ _ _ _ Hroot Hz) as Hrep. cbn [bound_loop]. rewrite (rep_terminator _ _ _ Hrep).
  destruct t as [|l v r].
  { exists false, it. split; [done|]. split_and!; [done..|]. exists p, ctx. by rewrite Hst. }
  destruct Hrep as (a & n & -> & Ha & <- & _). cbn [t_height] in Hf.
  pose proof (zip_sorted _ _ _ _ _ _ _ Hsorted Hz) as Hs. cbn [t_elements] in Hs, Hfrom.
  rewrite (list_from_middle k _ _ _ Hs) in Hfrom.
  set (it1 := mkIterator (it_root it) (it_max it) (Some a :: stk)).
  assert (∀ e, zip h root t0 (child e n) (Some a :: stk) (kid e (Branch l (value n) r))
    ((e, value n, kid (negb e) (Branch l (value n) r)) :: ctx)) as Hd by (intros e; by apply zip_down).
  destruct (above k (value n)) eqn:Ea; [|destruct (below (value n) k) eqn:Eb].
  - destruct (IH _ _ _ _ it1 (Hd false)) as (found & it' & Hrd & Hres); [done..|cbn; lia| |].
    { rewrite Hfrom. cbn. rewrite tin_true. by rewrite <- app_assoc. }
    exists found, it'. split; [|done]. eapply reads_bind; [unfold reads, lift; by rewrite (push_back_ok it _ _ _ _ Hst Hm Hz)|].
    eapply reads_bind; [by apply reads_node|]. unfold above in Ea. rewrite Ea. exact Hrd.
  - destruct (IH _ _ _ _ it1 (Hd true)) as (found & it' & Hrd & Hres); [done..|cbn; lia| |].
    { rewrite Hfrom. done. }
    exists found, it'. split; [|done]. eapply reads_bind; [unfold reads, lift; by rewrite (push_back_ok it _ _ _ _ Hst Hm Hz)|].
    eapply reads_bind; [by apply reads_node|]. unfold above in Ea. unfold below in Eb. rewrite Ea, Eb. exact Hrd.
  - exists true, it1. split.
    + eapply reads_bind; [unfold reads, lift; by rewrite (push_back_ok it _ _ _ _ Hst Hm Hz)|].
      eapply reads_bind; [by apply reads_node|]. unfold above in Ea. unfold below in Eb. by rewrite Ea, Eb.
    + split_and!; [done..|]. exists l, (value n), r, ctx. split; [done|]. rewrite Hfrom. cbn. by rewrite tin_true.
Qed.
End moves.

(** ** The methods that return iterators *)

Lemma reads_runs {A} (m : M (Heap V) A) (x : A) h P : reads m x h → P x h → runs m h P.
Proof. unfold reads, runs. by intros ->. Qed.

Lemma zip_keeps h h' R root t0 p stk t ctx :
  keeps R h h' → live h R root → rep h root t0 →
  zip h root t0 p stk t ctx → live h R p ∧ zip h' root t0 p stk t ctx.
Proof.
  intros Hk Hl Ht0. induction 1 as [|e a n stk l r ctx Hz [IHl IHz] Ha]; [split; [done|constructor]|].
  destruct (Hk _ _ IHl Ha) as [c Hc]. split.
  - destruct e; [by eapply live_right|by eapply live_left].
  - pose proof (zip_down h' root t0 e a (set_references c n) stk l r ctx IHz Hc) as Hd. by destruct e.
Qed.

Lemma points_keeps h h' R root t0 d it ys :
  keeps R h h' → live h R root → rep h root t0 → points h root t0 d it ys → points h' root t0 d it ys.
Proof.
  intros Hk Hl Ht0 (Hr & Hm & Hp). split_and!; [done..|]. destruct (it_stack it) as [|p stk]; [done|].
  destruct Hp as (l & v & r & ctx & Hz & ->). exists l, v, r, ctx. split; [|done].
  by eapply zip_keeps.
Qed.

Lemma new_iterator_ok h R root t b :
  inv h R → rep h root t →
  runs (new_iterator dv root b) h (λ it h', inv h' (root :: R) ∧ extends h h' ∧ rep h' root t ∧
    points h' root t true it (if b then t_elements t else [])).
Proof.
  intros Hi Ht. unfold new_iterator. apply runs_bind.
  eapply runs_mono; [apply incref_ok; [done|by eapply rep_valid]|]. intros q h1 (-> & Hi1 & He1).
  pose proof (rep_extends _ _ _ _ He1 Ht) as Ht1. apply runs_bind. eapply get_tree_ok; [done..|]. intros n [Hn _].
  rewrite Hn. destruct b; [|by apply runs_ret].
  eapply with_depth; [done..|]. intros fuel Hf.
  destruct (push_root_ok h1 root t Ht1 false fuel (mkIterator root (t_height t) [])) as (it & Hrd & Hp); [done..|].
  eapply reads_runs; [exact Hrd|]. split_and!; [done..|]. cbn [negb] in Hp. by rewrite tin_true in Hp.
Qed.

Lemma it_value_ok h root t0 d it y ys :
  rep h root t0 → points h root t0 d it (y :: ys) → reads (it_value dv it) y h.
Proof.
  intros Ht0 (_ & _ & Hp). unfold it_value, back. destruct (it_stack it) as [|p stk]; [done|].
  destruct Hp as (l & v & r & ctx & Hz & [= -> _]).
  destruct (zip_rep _ _ _ _ _ _ _ Ht0 Hz) as (a & n & -> & Ha & <- & _).
  eapply reads_bind; [done|]. by eapply reads_bind; [by apply reads_node|].
Qed.

Lemma lower_bound_ok h R root t k :
  inv h R → rep h root t → sorted (t_elements t) →
  runs (lower_bound dv k root) h (λ it h', inv h' (root :: R) ∧ extends h h' ∧ rep h' root t ∧
    points h' root t true it (list_from k (t_elements t))).
Proof.
  intros Hi Ht Hs. unfold lower_bound. apply runs_bind.
  eapply runs_mono; [by apply (new_iterator_ok h R root t false)|]. intros it0 h1 (Hi1 & He1 & Ht1 & Hr & Hm & Hst).
  assert (it_stack it0 = []) as Hst0.
  { destruct (it_stack it0); [done|]. by destruct Hst as (? & ? & ? & ? & _ & ?). }
  eapply with_depth; [done..|]. intros fuel Hf.
  destruct (bound_loop_ok h1 root t Ht1 Hs k fuel root [] t [] it0) as (found & it & Hrd & Hres);
    [constructor|done..|cbn; by rewrite app_nil_r|].
  apply runs_bind. eapply reads_runs; [exact Hrd|]. destruct found; [by apply runs_ret|].
  destruct Hres as (Hr1 & Hm1 & p & ctx & Hz & Htk & ->).
  inversion Hz as [Hroot Hstk|e a n stk l r ctx' Hz' Ha Hp Hstk Hk Hctx].
  { subst. rewrite bool_decide_true by done. apply runs_ret. split_and!; try done.
    split_and!; [done..|]. by rewrite <- Hstk. }
  rewrite bool_decide_false by done. subst ctx p. cbn [taken] in Htk.
  assert (points h1 root t true it (value n :: tin true (kid true (Branch l (value n) r)) ++ rest true ctx')) as Hpt.
  { split_and!; [done..|]. rewrite <- Hstk. by exists l, (value n), r, ctx'. }
  apply runs_bind. eapply reads_runs; [by eapply it_value_ok|]. cbn [rest]. destruct e.
  - change (key_compare (key_of_value (value n)) k = true) in Htk. rewrite Htk.
    rewrite Hk in Hpt. destruct (it_next_ok h1 (root :: R) root t Hi1 Ht1 Hs _ _ _ Hpt) as (it' & Hrd' & Hp').
    eapply reads_runs; [exact Hrd'|]. by rewrite bool_decide_true.
  - assert (key_compare (key_of_value (value n)) k = false) as -> by (by apply kc_asym).
    apply runs_ret. split_and!; [done..|]. by rewrite bool_decide_false.
Qed.

Lemma points_end h root t0 d it ys : points h root t0 d it ys → it_stack it = [] ↔ ys = [].
Proof.
  intros (_ & _ & Hp). destruct (it_stack it); [done|]. destruct Hp as (? & ? & ? & ? & _ & ->). done.
Qed.

Lemma it_eq_end h root t0 d it end_ ys :
  points h root t0 d it ys → points h root t0 d end_ [] → it_eq it end_ = bool_decide (ys = []).
Proof.
  intros Hp He. unfold it_eq. rewrite (proj2 (points_end _ _ _ _ _ _ He) eq_refl).
  apply bool_decide_ext. by eapply points_end.
Qed.

Lemma visit_all_ok h R root t0 fuel it end_ ys :
  inv h R → rep h root t0 → sorted (t_elements t0) →
  points h root t0 true it ys → points h root t0 true end_ [] → (length ys < fuel)%nat →
  reads (visit_all dv fuel it end_) ys h.
Proof.
  intros Hi Ht Hs. revert it ys. induction fuel as [|fuel IH]; intros it ys Hp He Hf; [lia|].
  cbn [visit_all]. rewrite (it_eq_end _ _ _ _ _ _ _ Hp He). destruct ys as [|y ys]; [done|].
  rewrite bool_decide_false by done. destruct (it_next_ok h R root t0 Hi Ht Hs _ _ _ Hp) as (it' & Hrd & Hp').
  eapply reads_bind; [by eapply it_value_ok|]. eapply reads_bind; [exact Hrd|].
  eapply reads_bind; [apply (IH it' ys); [done..|cbn in Hf; lia]|done].
Qed.

(** An iterator that is not returned is destroyed. *)
Lemma release h0 h R root t gone it ys :
  extends h0 h → inv h (root :: root :: R) → rep h root t → it_root gone = root →
  points h root t true it ys →
  runs (_ ← destroy_iterator dv gone; mret it) h (λ it h',
    inv h' (root :: R) ∧ keeps (root :: R) h0 h' ∧ rep h' root t ∧ points h' root t true it ys).
Proof.
  intros He Hi Ht Hg Hp. apply runs_bind. unfold destroy_iterator. rewrite Hg.
  eapply runs_mono; [by apply decref_ok|]. intros [] h' [Hi' Hk]. apply runs_ret.
  assert (live h (root :: R) root) as Hl by (apply live_root; by left).
  split_and!; [done| |by eapply rep_keeps|by eapply points_keeps].
  eapply keeps_trans; [by apply extends_keeps|exact Hk].
Qed.

Lemma upper_bound_ok h R root t k :
  inv h R → rep h root t → sorted (t_elements t) →
  runs (upper_bound dv k root) h (λ it h', inv h' (root :: R) ∧ keeps (root :: R) h h' ∧ rep h' root t ∧
    points h' root t true it (list_after k (t_elements t))).
Proof.
  intros Hi Ht Hs. unfold upper_bound. apply runs_bind.
  eapply runs_mono; [by apply (new_iterator_ok h R root t false)|]. intros end_ h1 (Hi1 & He1 & Ht1 & Hp1).
  apply runs_bind. eapply runs_mono; [by apply (lower_bound_ok h1 (root :: R) root t k)|].
  intros it h2 (Hi2 & He2 & Ht2 & Hp2).
  assert (points h2 root t true end_ []) as Hend.
  { eapply (points_keeps h1 h2 (root :: R)); [by apply extends_keeps|apply live_root; by left|done..]. }
  destruct (list_from_cases k _ Hs) as [-> _]. rewrite (it_eq_end _ _ _ _ _ _ _ Hp2 Hend).
  assert (extends h h2) as He by (by eapply heap_extends_trans).
  apply runs_bind. destruct (list_from k (t_elements t)) as [|y ys].
  { apply runs_ret. apply runs_bind, runs_ret. by eapply release; [..|apply Hend|]. }
  rewrite bool_decide_false by done. apply runs_bind. eapply reads_runs; [by eapply it_value_ok|]. apply runs_ret.
  change (key_compare k (key_of_value y)) with (above k y). destruct (above k y).
  { apply runs_bind, runs_ret. by eapply release; [..|apply Hend|]. }
  destruct (it_next_ok h2 _ root t Hi2 Ht2 Hs _ _ _ Hp2) as (it' & Hrd & Hp').
  apply runs_bind. eapply reads_runs; [exact Hrd|]. by eapply release; [..|apply Hend|].
Qed.

Lemma tree_find_ok h R root t k :
  inv h R → rep h root t → sorted (t_elements t) →
  runs (ImmutableTree_find dv k root) h (λ it h', inv h' (root :: R) ∧ keeps (root :: R) h h' ∧ rep h' root t ∧
    points h' root t true it (if list_find k (t_elements t) is Some _ then list_from k (t_elements t) else [])).
Proof.
  intros Hi Ht Hs. unfold ImmutableTree_find. apply runs_bind.
  eapply runs_mono; [by apply (new_iterator_ok h R root t false)|]. intros end_ h1 (Hi1 & He1 & Ht1 & Hp1).
  apply runs_bind. eapply runs_mono; [by apply (lower_bound_ok h1 (root :: R) root t k)|].
  intros it h2 (Hi2 & He2 & Ht2 & Hp2).
  assert (points h2 root t true end_ []) as Hend.
  { eapply (points_keeps h1 h2 (root :: R)); [by apply extends_keeps|apply live_root; by left|done..]. }
  destruct (list_from_cases k _ Hs) as [_ ->]. rewrite (it_eq_end _ _ _ _ _ _ _ Hp2 Hend).
  assert (extends h h2) as He by (by eapply heap_extends_trans).
  apply runs_bind. destruct (list_from k (t_elements t)) as [|y ys].
  { apply runs_ret. by eapply release; [..|apply Hp2|]. }
  rewrite bool_decide_false by done. apply runs_bind. eapply reads_runs; [by eapply it_value_ok|]. apply runs_ret.
  change (key_compare k (key_of_value y)) with (above k y). destruct (above k y).
  - by eapply release; [..|apply Hp2|].
  - by eapply release; [..|apply Hend|].
Qed.
End iterators.
