(* ===== verification/ImmutableTreeCorrect.v ===== *)
(** * Persistent trees: what their clients rely on

    Programs that create, copy, assign, change and destroy trees refine programs on
    sorted lists, without leaks and without accesses to deleted nodes; the queries and
    the iterators answer from the sorted list of the tree. *)

From stdpp Require Import prelude gmap sorting.
From S2P Require Import Prelude SearchTree ImmutableTree ImmutableTreeProofs TreeIterators.

Section clients.
Context {K V : Type} `{KeyCompare K} `{KeyOfValue K V} (dv : V) `{!KeyCompareLaws K}.
Implicit Types (p q : ptr) (h : Heap V) (R : list ptr) (t : tree V) (v : V) (k : K) (x y : positive).

Abbreviation sorted := (StronglySorted (λ x y : V, vlt (K := K) x y = true)).

(** ** Specification *)

(** The values of the variables *)
Definition spec_op (op : TreeOp) (σ : gmap positive (list V)) : option (gmap positive (list V)) :=
  match op with
  | OpNew x => match σ !! x with Some _ => None | None => Some (<[x := []]> σ) end
  | OpCopy x y => match σ !! x with Some _ => None | None => l ← σ !! y; Some (<[x := l]> σ) end
  | OpDestroy x => _ ← σ !! x; Some (delete x σ)
  | OpAssign x y => l ← σ !! y; _ ← σ !! x; Some (<[x := l]> σ)
  | OpInsert x v y => l ← σ !! y; _ ← σ !! x; Some (<[x := list_insert v l]> σ)
  | OpReplace x v y => l ← σ !! y; _ ← σ !! x; Some (<[x := list_replace v l]> σ)
  | OpRemove x k y => l ← σ !! y; _ ← σ !! x; Some (<[x := list_remove k l]> σ)
  | OpPopMin x y => l ← σ !! y; _ ← σ !! x; Some (<[x := tail l]> σ)
  | OpPopMax x y => l ← σ !! y; _ ← σ !! x; Some (<[x := removelast l]> σ)
  end.

Fixpoint spec_tree_ops (ops : list TreeOp) (σ : gmap positive (list V)) : option (gmap positive (list V)) :=
  match ops with [] => Some σ | op :: ops => σ ← spec_op op σ; spec_tree_ops ops σ end.

(** ** The invariant of a program *)

(** A pointer to a balanced search tree with the values [l] *)
Definition holds_list h p (l : list V) : Prop :=
  ∃ t, rep h p t ∧ t_balanced t ∧ sorted (t_elements t) ∧ t_elements t = l.

Definition roots (m : gmap positive ptr) : list ptr := (map_to_list m).*2.

Record program_ok (s : Trees) (σ : gmap positive (list V)) : Prop := {
  po_inv : inv (heap s) (roots (vars s));
  po_vars x : option_Forall2 (holds_list (heap s)) (vars s !! x) (σ !! x);
}.

Lemma roots_insert m x p : m !! x = None → roots (<[x := p]> m) ≡ₚ p :: roots m.
Proof. intros Hx. unfold roots. by rewrite (map_to_list_insert m x p Hx). Qed.

Lemma roots_delete m x p : m !! x = Some p → roots m ≡ₚ p :: roots (delete x m).
Proof.
  intros Hx. rewrite <- (roots_insert (delete x m) x p) by apply lookup_delete_eq.
  by rewrite insert_delete_id.
Qed.

Lemma roots_update m x p : roots (<[x := p]> m) ≡ₚ p :: roots (delete x m).
Proof. rewrite <- insert_delete_eq. by rewrite roots_insert by apply lookup_delete_eq. Qed.

Lemma roots_elem m x p : m !! x = Some p → p ∈ roots m.
Proof. intros Hx. rewrite (roots_delete m x p Hx). by left. Qed.

Lemma holds_list_keeps h h' R p l : keeps R h h' → p ∈ R → holds_list h p l → holds_list h' p l.
Proof.
  intros Hk Hp (t & Ht & ? & ? & ?). exists t. split_and!; try done.
  eapply rep_keeps; [exact Hk|by apply live_root|done].
Qed.

(** The lists that the operations make *)
Lemma holds_insert h p v t :
  t_balanced t → sorted (t_elements t) → rep h p (t_insert v t) → holds_list h p (list_insert v (t_elements t)).
Proof.
  intros Hb Hs Hp. exists (t_insert v t). rewrite t_insert_elements by done.
  split_and!; try done; [by apply t_insert_balanced|by apply sorted_list_insert].
Qed.

Lemma holds_replace h p v t :
  t_balanced t → sorted (t_elements t) → rep h p (t_replace v t) → holds_list h p (list_replace v (t_elements t)).
Proof.
  intros Hb Hs Hp. exists (t_replace v t). rewrite t_replace_elements by done.
  split_and!; try done; [by apply t_replace_balanced|by apply sorted_list_replace].
Qed.

Lemma holds_remove h p k t :
  t_balanced t → sorted (t_elements t) → rep h p (t_remove dv k t) → holds_list h p (list_remove k (t_elements t)).
Proof.
  intros Hb Hs Hp. exists (t_remove dv k t). rewrite t_remove_elements by done.
  split_and!; try done; [by apply t_remove_balanced|by apply sorted_list_remove].
Qed.

Lemma holds_popMin h p t :
  t_balanced t → sorted (t_elements t) → rep h p (t_popMin dv t).2 → holds_list h p (tail (t_elements t)).
Proof.
  intros Hb Hs Hp. exists (t_popMin dv t).2. split; [done|]. split; [by apply t_popMin_balanced|].
  destruct t as [|l x r]; [done|]. pose proof (t_popMin_elements dv (Branch l x r) ltac:(done)) as He.
  rewrite He in Hs. apply sorted_cons in Hs as [Hs _]. by rewrite He.
Qed.

Lemma holds_popMax h p t :
  t_balanced t → sorted (t_elements t) → rep h p (t_popMax dv t).2 → holds_list h p (removelast (t_elements t)).
Proof.
  intros Hb Hs Hp. exists (t_popMax dv t).2. split; [done|]. split; [by apply t_popMax_balanced|].
  destruct t as [|l x r]; [done|]. pose proof (t_popMax_elements dv (Branch l x r) ltac:(done)) as He.
  rewrite He in Hs. apply sorted_middle in Hs as [Hs _]. by rewrite He, removelast_last.
Qed.

(** ** Statements *)

Lemma runs_on_heap {A} (m : M (Heap V) A) s P :
  runs m (heap s) (λ a h, P a (mkTrees h (vars s))) → runs (on_heap m) s P.
Proof. unfold runs, on_heap. by destruct (m (heap s)) as [[]| |]. Qed.

Lemma runs_read_var x (s : Trees (V := V)) p P : vars s !! x = Some p → P p s → runs (read_var x) s P.
Proof. unfold runs, read_var. by intros ->. Qed.

Lemma tree_assign_ok h R node q :
  inv h (node :: R) → q ∈ node :: R →
  runs (ImmutableTree_assign dv node q) h (λ n h', n = q ∧ inv h' (q :: R) ∧ keeps (q :: R) h h').
Proof.
  intros Hi Hq. apply runs_bind. eapply runs_mono.
  { apply (incref_ok dv h _ q Hi). apply (inv_valid _ _ Hi), elem_of_app. by right. }
  intros n h1 (-> & Hi1 & He1). apply runs_bind. apply (inv_perm h1 _ (node :: q :: R)) in Hi1; [|apply Permutation_swap].
  eapply runs_mono; [by apply decref_ok|]. intros [] h2 [Hi2 Hk2]. apply runs_ret. split_and!; [done..|].
  eapply keeps_trans; [by apply extends_keeps|exact Hk2].
Qed.

(** A variable gets a new pointer, and the other variables are kept. *)
Lemma program_update h h' m σ x q l :
  inv h' (q :: roots (delete x m)) → keeps (q :: roots (delete x m)) h h' →
  (∀ y, option_Forall2 (holds_list h) (m !! y) (σ !! y)) → holds_list h' q l →
  program_ok (mkTrees h' (<[x := q]> m)) (<[x := l]> σ).
Proof.
  intros Hi Hk Hv Hq. split; cbn [heap vars].
  - by rewrite roots_update.
  - intros y. destruct (decide (y = x)) as [->|Hne].
    + rewrite !lookup_insert_eq. by constructor.
    + rewrite !lookup_insert_ne by done. specialize (Hv y). inversion Hv as [p l' Hp E1 E2|E1 E2]; constructor.
      eapply holds_list_keeps; [exact Hk| |done]. right. apply (roots_elem _ y). by rewrite lookup_delete_ne.
Qed.

(** [x = m(y)], for [m] that makes a tree with the values [f] of those of [y] *)
Lemma assign_result_ok s σ x y m f :
  program_ok s σ →
  (∀ h R p t, inv h R → live h R p → rep h p t → t_balanced t → sorted (t_elements t) →
    runs (m p) h (λ q h', inv h' (q :: R) ∧ keeps R h h' ∧ holds_list h' q (f (t_elements t)))) →
  match σ !! y ≫= λ l, σ !! x ≫= λ _, Some (<[x := f l]> σ) with
  | Some σ' => runs (assign_result dv x y m) s (λ _ s', program_ok s' σ')
  | None => assign_result dv x y m s = AssertFailed
  end.
Proof.
  intros [Hi Hv] Hm. unfold assign_result. pose proof (Hv y) as Hy. pose proof (Hv x) as Hx.
  inversion Hy as [py l Hpy Ey Ey'|Ey Ey'].
  2:{ unfold mbind, M_bind, read_var. by rewrite <- Ey. }
  inversion Hx as [px lx Hpx Ex Ex'|Ex Ex'].
  2:{ unfold mbind, M_bind, read_var. rewrite <- Ey. cbn. by rewrite <- Ex. }
  cbn. destruct Hpy as (t & Ht & Hb & Hs & <-). symmetry in Ey, Ex. apply runs_bind, (runs_read_var y s py); [done|].
  apply runs_bind, (runs_read_var x s px); [done|]. apply runs_bind, runs_on_heap. eapply runs_mono.
  { apply (Hm _ _ py t Hi); [|done..]. apply live_root. by eapply roots_elem. }
  intros tmp h1 (Hi1 & Hk1 & Hq1). cbn [vars]. set (R := roots (delete x (vars s))).
  assert (tmp :: roots (vars s) ≡ₚ px :: tmp :: R) as HR by (rewrite (roots_delete _ _ _ Ex); apply Permutation_swap).
  rewrite HR in Hi1. apply runs_bind, runs_on_heap. cbn [heap vars].
  eapply runs_mono; [apply (tree_assign_ok h1 (tmp :: R) px tmp Hi1); right; by left|].
  intros n h2 (-> & Hi2 & Hk2). apply runs_bind, runs_ret. apply runs_on_heap. cbn [heap vars].
  eapply runs_mono; [by apply decref_ok|]. intros [] h3 [Hi3 Hk3].
  assert (keeps (tmp :: R) h1 h3) as Hk13.
  { eapply keeps_trans; [|exact Hk3]. eapply keeps_mono; [|exact Hk2]. set_solver. }
  eapply (program_update h1); [done..| |].
  - intros z. specialize (Hv z). inversion Hv as [p l' Hp E1 E2|E1 E2]; constructor.
    eapply holds_list_keeps; [exact Hk1| |done]. by apply (roots_elem _ z).
  - eapply holds_list_keeps; [exact Hk13| |done]. by left.
Qed.

(** A new variable *)
Lemma declare_ok s σ x q h' l :
  program_ok s σ → vars s !! x = None → inv h' (q :: roots (vars s)) → extends (heap s) h' → holds_list h' q l →
  program_ok (mkTrees h' (<[x := q]> (vars s))) (<[x := l]> σ).
Proof.
  intros [_ Hv] Hx Hi He Hq. eapply (program_update (heap s)); [|by apply extends_keeps|done..].
  by rewrite delete_id.
Qed.

Lemma var_none s σ x : program_ok s σ → σ !! x = None ↔ vars s !! x = None.
Proof. intros [_ Hv]. specialize (Hv x). by inversion Hv. Qed.

Lemma var_some s σ x l : program_ok s σ → σ !! x = Some l → ∃ p, vars s !! x = Some p ∧ holds_list (heap s) p l.
Proof. intros [_ Hv] Hx. specialize (Hv x). rewrite Hx in Hv. inversion Hv. eauto. Qed.

Lemma copy_statement_ok s σ x y l :
  program_ok s σ → σ !! x = None → σ !! y = Some l →
  runs (run_tree_op dv (OpCopy x y)) s (λ _ s', program_ok s' (<[x := l]> σ)).
Proof.
  intros Hs Hx Hy. pose proof (proj1 (var_none _ _ _ Hs) Hx) as Hvx.
  destruct (var_some _ _ _ _ Hs Hy) as (p & Hp & t & Ht & ?). cbn. apply runs_bind. unfold unused_var, runs at 1.
  rewrite Hvx. cbn. apply runs_bind, (runs_read_var y s p); [done|]. apply runs_bind, runs_on_heap.
  eapply runs_mono; [apply (incref_ok dv _ _ p (po_inv _ _ Hs)); by eapply rep_valid|].
  intros q h' (-> & Hi & He). apply (declare_ok s σ x p h' l); try done. exists t. split; [by eapply rep_extends|done].
Qed.

Lemma destroy_ok s σ x l :
  program_ok s σ → σ !! x = Some l →
  runs (run_tree_op dv (OpDestroy x)) s (λ _ s', program_ok s' (delete x σ)).
Proof.
  intros Hs Hx. destruct (var_some _ _ _ _ Hs Hx) as (p & Hp & _). cbn.
  apply runs_bind, (runs_read_var x s p); [done|]. apply runs_bind, runs_on_heap.
  pose proof (po_inv _ _ Hs) as Hi. rewrite (roots_delete _ _ _ Hp) in Hi.
  eapply runs_mono; [by apply decref_ok|]. intros [] h' [Hi' Hk]. split; [done|]. cbn [heap vars]. intros y.
  pose proof (po_vars _ _ Hs y) as Hy. destruct (decide (y = x)) as [->|Hne].
  - rewrite !lookup_delete_eq. constructor.
  - rewrite !lookup_delete_ne by done. inversion Hy as [q l' Hq E1 E2|E1 E2]; constructor.
    eapply holds_list_keeps; [exact Hk| |done]. apply (roots_elem _ y). by rewrite lookup_delete_ne.
Qed.

Lemma assign_ok s σ x y l lx :
  program_ok s σ → σ !! x = Some lx → σ !! y = Some l →
  runs (run_tree_op dv (OpAssign x y)) s (λ _ s', program_ok s' (<[x := l]> σ)).
Proof.
  intros Hs Hx Hy. destruct (var_some _ _ _ _ Hs Hx) as (px & Hpx & _), (var_some _ _ _ _ Hs Hy) as (py & Hpy & Hl).
  cbn. apply runs_bind, (runs_read_var y s py); [done|]. apply runs_bind, (runs_read_var x s px); [done|].
  apply runs_bind, runs_on_heap. pose proof (po_inv _ _ Hs) as Hi. pose proof (roots_elem _ _ _ Hpy) as Hin.
  rewrite (roots_delete _ _ _ Hpx) in Hi, Hin.
  eapply runs_mono; [by apply (tree_assign_ok _ _ px py Hi)|]. intros n h' (-> & Hi' & Hk).
  eapply (program_update (heap s)); [done..|apply Hs|]. eapply holds_list_keeps; [exact Hk|by left|done].
Qed.

Lemma run_tree_op_ok op s σ :
  program_ok s σ →
  match spec_op op σ with
  | Some σ' => runs (run_tree_op dv op) s (λ _ s', program_ok s' σ')
  | None => run_tree_op dv op s = AssertFailed
  end.
Proof.
  intros Hs. destruct op as [x|x y|x|x y|x v y|x v y|x k y|x y|x y]; cbn [spec_op].
  - destruct (σ !! x) eqn:Ex.
    + destruct (var_some _ _ _ _ Hs Ex) as (p & Hp & _). cbn. unfold mbind, M_bind, unused_var. by rewrite Hp.
    + pose proof (proj1 (var_none _ _ _ Hs) Ex) as Hvx. cbn. apply runs_bind. unfold unused_var, runs at 1.
      rewrite Hvx. apply runs_bind, runs_on_heap.
      eapply runs_mono; [by apply (incref_ok dv _ _ None (po_inv _ _ Hs))|]. intros q h' (-> & Hi & He).
      apply (declare_ok s σ x None h' []); try done. exists Leaf. split_and!; try done. constructor.
  - destruct (σ !! x) eqn:Ex.
    + destruct (var_some _ _ _ _ Hs Ex) as (p & Hp & _). cbn. unfold mbind, M_bind, unused_var. by rewrite Hp.
    + destruct (σ !! y) as [l|] eqn:Ey; [by apply copy_statement_ok|]. pose proof (proj1 (var_none _ _ _ Hs) Ex) as Hvx.
      pose proof (proj1 (var_none _ _ _ Hs) Ey) as Hvy. cbn.
      unfold mbind, M_bind, unused_var, read_var. rewrite Hvx. cbn. by rewrite Hvy.
  - destruct (σ !! x) as [l|] eqn:Ex; [by eapply destroy_ok|]. pose proof (proj1 (var_none _ _ _ Hs) Ex) as Hvx.
    cbn. unfold mbind, M_bind, read_var. by rewrite Hvx.
  - destruct (σ !! y) as [l|] eqn:Ey; cbn [mbind option_bind].
    + destruct (σ !! x) as [lx|] eqn:Ex; [by eapply assign_ok|]. pose proof (proj1 (var_none _ _ _ Hs) Ex) as Hvx.
      destruct (var_some _ _ _ _ Hs Ey) as (p & Hp & _). cbn. unfold mbind, M_bind, read_var.
      rewrite Hp. cbn. by rewrite Hvx.
    + pose proof (proj1 (var_none _ _ _ Hs) Ey) as Hvy. cbn. unfold mbind, M_bind, read_var. by rewrite Hvy.
  - apply (assign_result_ok s σ x y _ (list_insert v) Hs). intros h R p t Hi Hp Ht Hb Hso.
    eapply runs_mono; [by apply (persistent_insert_ok dv v h R p t)|]. intros q h' (? & ? & ?).
    split_and!; [done..|by apply holds_insert].
  - apply (assign_result_ok s σ x y _ (list_replace v) Hs). intros h R p t Hi Hp Ht Hb Hso.
    eapply runs_mono; [by apply (tree_replace_ok dv v h R p t)|]. intros q h' (? & ? & ?).
    split_and!; [done..|by apply holds_replace].
  - apply (assign_result_ok s σ x y _ (list_remove k) Hs). intros h R p t Hi Hp Ht Hb Hso.
    eapply runs_mono; [by apply (tree_remove_ok dv k h R p t)|]. intros q h' (? & ? & ?).
    split_and!; [done..|by apply holds_remove].
  - apply (assign_result_ok s σ x y _ tail Hs). intros h R p t Hi Hp Ht Hb Hso.
    apply runs_bind. eapply runs_mono; [by apply (tree_popMin_ok dv h R p t)|]. intros [w q] h' (? & ? & ? & ?).
    apply runs_ret. split_and!; [done..|by apply holds_popMin].
  - apply (assign_result_ok s σ x y _ (@removelast V) Hs). intros h R p t Hi Hp Ht Hb Hso.
    apply runs_bind. eapply runs_mono; [by apply (tree_popMax_ok dv h R p t)|]. intros [w q] h' (? & ? & ? & ?).
    apply runs_ret. split_and!; [done..|by apply holds_popMax].
Qed.

Lemma run_tree_ops_ok ops s σ :
  program_ok s σ →
  match spec_tree_ops ops σ with
  | Some σ' => runs (run_tree_ops dv ops) s (λ _ s', program_ok s' σ')
  | None => run_tree_ops dv ops s = AssertFailed
  end.
Proof.
  revert s σ. induction ops as [|op ops IH]; intros s σ Hs; [by apply runs_ret|]. cbn.
  pose proof (run_tree_op_ok op s σ Hs) as Hop. destruct (spec_op op σ) as [σ'|]; cbn.
  - apply runs_inv in Hop as ([] & s' & Eop & Hs'). specialize (IH s' σ' Hs').
    destruct (spec_tree_ops ops σ'); unfold runs, mbind, M_bind; by rewrite Eop.
  - unfold mbind, M_bind. by rewrite Hop.
Qed.

Lemma initial_ok : program_ok (mkTrees initial_heap ∅) ∅.
Proof.
  split; cbn [heap vars initial_heap].
  - split; cbn [nodes terminator_references allocated]; try done.
    intros p Hp. by apply elem_of_nil in Hp.
  - intros x. rewrite !lookup_empty. constructor.
Qed.

(** ** Leaks *)

(** Every node is reachable: a chain of pointers to it goes up in height. *)
Lemma all_live h R a n : inv h R → nodes h !! a = Some n → live h R (Some a).
Proof.
  intros Hi Ha. assert (∃ B, ∀ b nb, nodes h !! b = Some nb → height nb ≤ B) as [B HB].
  { clear. induction (nodes h) as [|b nb m Hb IH] using map_ind; [exists 0; intros b nb; by rewrite lookup_empty|].
    destruct IH as [B HB]. exists (Z.max B (height nb)). intros c nc [[_ <-]|[_ Hc]]%lookup_insert_Some; [lia|].
    specialize (HB c nc Hc). lia. }
  remember (Z.to_nat (B - height n)) as k eqn:Ek. revert a n Ha Ek. induction (lt_wf k) as [k _ IH].
  intros a n Ha ->. destruct (inv_references _ _ Hi _ _ Ha) as [Hr Hpos]. rewrite Hr in Hpos.
  apply occ_elem, elem_of_app in Hpos as [Hin|Hin]; [|by apply live_root].
  apply pointers_inv in Hin as (b & nb & Hb & Hlr). destruct (inv_height _ _ Hi _ _ Hb) as [Hh _].
  assert (height n < height nb) as Hlt.
  { assert (hgt h (Some a) = height n) as <- by (cbn; by rewrite Ha). destruct Hlr as [->| ->]; lia. }
  assert (live h R (Some b)) as Hl.
  { eapply (IH (Z.to_nat (B - height nb))); [|done..]. pose proof (HB _ _ Ha). pose proof (HB _ _ Hb). lia. }
  destruct Hlr as [->| ->]; [by eapply live_left|by eapply live_right].
Qed.

Lemma no_roots_no_nodes h : inv h [] → nodes h = ∅.
Proof.
  intros Hi. apply map_empty. intros a. destruct (nodes h !! a) as [n|] eqn:Ha; [|done].
  assert (∀ p, ¬ live h [] p) as Hno.
  { intros p Hp. induction Hp as [p Hp| |]; [by apply elem_of_nil in Hp|done|done]. }
  by destruct (Hno (Some a)); eapply all_live.
Qed.

(** ** Queries *)

Lemma last_loop_ok d fuel h p t :
  rep h p t → t ≠ Leaf → t_height t < Z.of_nat fuel →
  ∃ v, reads (last_loop dv d fuel p) v h ∧ last (tin d t) = Some v.
Proof.
  revert p t. induction fuel as [|fuel IH]; intros p t Hp Ht Hf; [pose proof (t_height_pos t); lia|].
  destruct t as [|l x r]; [done|]. pose proof Hp as (a & n & -> & Ha & <- & _). cbn [last_loop].
  destruct (rep_child h n a l (value n) r d Hp Ha) as [_ Hc]. rewrite tin_branch.
  destruct (kid d (Branch l (value n) r)) as [|l' v' r'] eqn:Ek.
  - exists (value n). split; [|cbn [tin]; by rewrite last_snoc]. eapply reads_bind; [by apply reads_node|].
    by rewrite (rep_terminator _ _ _ Hc).
  - assert (t_height (Branch l' v' r') < Z.of_nat fuel) as Hf'.
    { rewrite <- Ek. destruct d; cbn in *; lia. }
    destruct (IH _ _ Hc ltac:(done) Hf') as (w & Hrd & Hw). exists w. split.
    + eapply reads_bind; [by apply reads_node|]. by rewrite (rep_terminator _ _ _ Hc).
    + rewrite last_app_cons, last_cons, Hw. done.
Qed.

Lemma tree_last_ok (d : bool) h R p l :
  inv h R → holds_list h p l →
  match (if d then last l else head l) with
  | Some v => reads (ImmutableTree_last dv d p) v h
  | None => ImmutableTree_last dv d p h = AssertFailed
  end.
Proof.
  intros Hi (t & Ht & _ & _ & <-). unfold ImmutableTree_last. destruct t as [|l x r].
  { cbn in Ht. subst p. by destruct d. }
  set (t := Branch l x r) in *.
  assert (∃ v, reads (ImmutableTree_last dv d p) v h ∧ last (tin d t) = Some v) as (v & Hrd & Hv).
  { destruct (last_loop_ok d (S (Z.to_nat (t_height t))) h p t Ht) as (v & Hrd & Hv);
      [done|pose proof (t_height_pos t); lia|]. exists v. split; [|done].
    unfold ImmutableTree_last. rewrite (rep_terminator _ _ _ Ht). eapply reads_bind; [done|].
    destruct (node_at_valid dv h p (rep_valid _ _ _ Ht)) as (np & Hnp & Hh).
    eapply reads_bind; [|exact Hrd]. unfold depth, reads, mbind, M_bind, get. rewrite Hnp. cbn.
    by rewrite Hh, (rep_height _ _ _ _ Hi Ht). }
  destruct d.
  - rewrite tin_true in Hv. by rewrite Hv.
  - change false with (negb true) in Hv at 1. rewrite tin_reverse, tin_true, last_reverse in Hv. by rewrite Hv.
Qed.

Lemma tree_lookup_ok h R p l k :
  inv h R → holds_list h p l → reads (ImmutableTree_lookup dv k p) (list_find k l) h.
Proof.
  intros Hi (t & Ht & _ & Hs & <-). eapply reads_depth; [done..|]. intros. by apply lookup_loop_ok.
Qed.

(** ** Properties *)

(** C19: programs with persistent trees refine programs with sorted lists.  Every
    sequence of declarations, copies, assignments, insertions, replacements, removals
    and destructions returns, without an access to a deleted node, exactly when its
    variables are declared; each variable holds a balanced search tree of its sorted
    values, every node is reachable from a variable, [allocated] counts the nodes, and
    none is left when the last variable is gone. *)
Theorem trees_refine_lists (ops : list TreeOp) :
  match spec_tree_ops ops ∅ with
  | Some σ => runs (run_tree_ops dv ops) (mkTrees initial_heap ∅) (λ _ s,
      (∀ x, option_Forall2 (holds_list (heap s)) (vars s !! x) (σ !! x)) ∧
      (∀ a n, nodes (heap s) !! a = Some n → live (heap s) (roots (vars s)) (Some a)) ∧
      allocated (heap s) = Z.of_nat (size (nodes (heap s))) ∧
      (σ = ∅ → nodes (heap s) = ∅))
  | None => run_tree_ops dv ops (mkTrees initial_heap ∅) = AssertFailed
  end.
Proof.
  assert (program_ok (mkTrees initial_heap ∅) ∅) as Hs by (apply initial_ok).
  pose proof (run_tree_ops_ok ops _ _ Hs) as Hops. destruct (spec_tree_ops ops ∅) as [σ|]; [|done].
  eapply runs_mono; [exact Hops|]. intros [] s [Hi Hv]. split_and!; [done| |apply Hi|].
  - intros a n Ha. by eapply all_live.
  - intros ->. apply no_roots_no_nodes. replace (roots (vars s)) with (@nil ptr) in Hi; [done|].
    assert (vars s = ∅) as ->; [|done]. apply map_empty. intros x. specialize (Hv x).
    rewrite lookup_empty in Hv. by inversion Hv.
Qed.

(** C35: the depth of the recursions and the size of the stacks of iterators is
    logarithmic: after any program, the height [h] of a tree of [n] values satisfies
    [2^h <= (n + 1)^3]. *)
Theorem tree_height_logarithmic (ops : list TreeOp) σ x l :
  spec_tree_ops ops ∅ = Some σ → σ !! x = Some l →
  runs (run_tree_ops dv ops) (mkTrees initial_heap ∅) (λ _ s,
    ∃ p n, vars s !! x = Some p ∧ node_at dv p (heap s) = Done n ∧
      2 ^ height n ≤ (Z.of_nat (length l) + 1) ^ 3).
Proof.
  intros Hops Hx. pose proof (run_tree_ops_ok ops _ _ initial_ok) as Hr. rewrite Hops in Hr.
  eapply runs_mono; [exact Hr|]. intros [] s Hs. destruct (var_some _ _ _ _ Hs Hx) as (p & Hp & t & Ht & Hb & _ & <-).
  destruct (node_at_valid dv _ _ (rep_valid _ _ _ Ht)) as (n & Hn & Hh). exists p, n. split_and!; [done..|].
  rewrite Hh, (rep_height _ _ _ _ (po_inv _ _ Hs) Ht). by apply t_balanced_size.
Qed.

(** An update, and a lookup in its result *)
Lemma update_lookup m h R p l (f : list V → list V) k :
  inv h R → live h R p → holds_list h p l →
  (∀ t, rep h p t → t_balanced t → sorted (t_elements t) →
    runs m h (λ q h', inv h' (q :: R) ∧ keeps R h h' ∧ holds_list h' q (f (t_elements t)))) →
  runs (q ← m; ImmutableTree_lookup dv k q) h (λ r h', r = list_find k (f l)).
Proof.
  intros Hi Hp (t & Ht & Hb & Hs & <-) Hm. apply runs_bind. eapply runs_mono; [by apply (Hm t)|].
  intros q h' (Hi' & _ & Hq). eapply reads_runs; [by eapply tree_lookup_ok|done].
Qed.

(** C34: what is stored is found: a lookup after [insert] finds the old value of the
    key if there was one and the new value otherwise, after [replace] the new value,
    after [remove] nothing; other keys keep their values. *)
Theorem tree_update_lookup h R p l v k k' :
  inv h R → live h R p → holds_list h p l →
  runs (q ← ImmutableTree_insert dv v p; ImmutableTree_lookup dv k q) h (λ r _,
    r = if same_key k v then Some (default v (list_find k l)) else list_find k l) ∧
  runs (q ← ImmutableTree_replace dv v p; ImmutableTree_lookup dv k q) h (λ r _,
    r = if same_key k v then Some v else list_find k l) ∧
  runs (q ← ImmutableTree_remove dv k' p; ImmutableTree_lookup dv k q) h (λ r _,
    r = if negb (key_compare k k') && negb (key_compare k' k) then None else list_find k l).
Proof.
  intros Hi Hp Hl. assert (sorted l) as Hs by (by destruct Hl as (t & _ & _ & Hs & <-)).
  rewrite <- (list_find_insert k v l), <- (list_find_replace k v l), <- (list_find_remove k k' l) by done.
  split_and!; (apply (update_lookup _ h R p l); [done..|]); intros t Ht Hb Hst.
  - eapply runs_mono; [by apply (persistent_insert_ok dv v h R p t)|]. intros q h' (? & ? & ?).
    split_and!; [done..|by apply holds_insert].
  - eapply runs_mono; [by apply (tree_replace_ok dv v h R p t)|]. intros q h' (? & ? & ?).
    split_and!; [done..|by apply holds_replace].
  - eapply runs_mono; [by apply (tree_remove_ok dv k' h R p t)|]. intros q h' (? & ? & ?).
    split_and!; [done..|by apply holds_remove].
Qed.

(** A loop from the iterator that [m] returns to the end *)
Definition loop_from p (m : M (Heap V) iterator) (n : nat) : M (Heap V) (list V) :=
  it ← m; end_ ← ImmutableTree_end dv p; visit_all dv n it end_.

(** The values that it visits *)
Lemma visit_from m h R p t ys :
  runs m h (λ it h', inv h' (p :: R) ∧ rep h' p t ∧ points h' p t true it ys) → sorted (t_elements t) →
  (length ys ≤ length (t_elements t))%nat →
  runs (loop_from p m (S (length (t_elements t)))) h (λ zs _, zs = ys).
Proof.
  intros Hm Hs Hlen. apply runs_bind. eapply runs_mono; [exact Hm|]. intros it h1 (Hi1 & Ht1 & Hp1).
  apply runs_bind. eapply runs_mono; [by apply (new_iterator_ok dv h1 (p :: R) p t false)|].
  intros end_ h2 (Hi2 & He2 & Ht2 & Hend). eapply reads_runs; [|done].
  eapply (visit_all_ok dv h2 (p :: p :: R) p t); [done..| |done|lia].
  eapply (points_keeps h1 h2 (p :: R)); [by apply extends_keeps|apply live_root; by left|done..].
Qed.

(** C20: iterators enumerate trees in order: a loop from [begin] visits the values, one
    from [lower_bound(k)] those from the first that is not below [k], one from
    [upper_bound(k)] those above [k], and one from [find(k)] starts at the value of [k] or
    at the end; a step back from [lower_bound(k)] is at the last value below [k].  No
    stack overflows. *)
Theorem tree_iterators_correct h R p l k :
  inv h R → live h R p → holds_list h p l →
  let n := S (length l) in
  runs (loop_from p (ImmutableTree_begin dv p) n) h (λ ys _, ys = l) ∧
  runs (loop_from p (lower_bound dv k p) n) h (λ ys _, ys = list_from k l) ∧
  runs (loop_from p (upper_bound dv k p) n) h (λ ys _, ys = list_after k l) ∧
  runs (loop_from p (ImmutableTree_find dv k p) n) h (λ ys _,
    ys = if list_find k l is Some _ then list_from k l else []) ∧
  (∀ w, last (filter (λ z, below z k = true) l) = Some w →
    runs (it ← lower_bound dv k p; it ← it_prev dv it; it_value dv it) h (λ v _, v = w)).
Proof.
  intros Hi Hp (t & Ht & Hb & Hs & <-) n. unfold n.
  assert (∀ P `{∀ z : V, Decision (P z)}, length (filter P (t_elements t)) ≤ length (t_elements t))%nat as Hlen
    by (intros; apply length_filter).
  split_and!.
  - apply (visit_from _ h R p t); [|done..].
    eapply runs_mono; [by apply (new_iterator_ok dv h R p t true)|]. by intros it h' (? & ? & ? & ?).
  - apply (visit_from _ h R p t); [|done|apply Hlen].
    eapply runs_mono; [by apply (lower_bound_ok dv h R p t k)|]. by intros it h' (? & ? & ? & ?).
  - apply (visit_from _ h R p t); [|done|apply Hlen].
    eapply runs_mono; [by apply (upper_bound_ok dv h R p t k)|]. by intros it h' (? & ? & ? & ?).
  - apply (visit_from _ h R p t); [|done|case_match; [apply Hlen|cbn; lia]].
    eapply runs_mono; [by apply (tree_find_ok dv h R p t k)|]. by intros it h' (? & ? & ? & ?).
  - intros w Hw. apply last_Some in Hw as [xs Hxs]. apply runs_bind.
    eapply runs_mono; [by apply (lower_bound_ok dv h R p t k)|]. intros it h1 (Hi1 & He1 & Ht1 & Hp1).
    destruct (it_prev_ok dv h1 (p :: R) p t Hi1 Ht1 Hs it xs w (list_from k (t_elements t))) as (it' & Hrd & Hp'); [|done|].
    { change (w :: list_from k (t_elements t)) with ([w] ++ list_from k (t_elements t)). rewrite app_assoc, <- Hxs.
      by apply split_from. }
    apply runs_bind. eapply reads_runs; [exact Hrd|]. eapply reads_runs; [by eapply it_value_ok|done].
Qed.

(** The queries answer from the sorted list of the tree: [count], [lookup], the
    last value whose key is not above a key, [size], [empty], and [min] and [max], which
    fail their assertion exactly on the empty tree. *)
Theorem tree_queries_correct h R p l k :
  inv h R → holds_list h p l →
  ImmutableTree_count dv k p h = Done (if list_find k l is Some _ then 1 else 0, h) ∧
  ImmutableTree_lookup_previous dv k p h = Done (list_previous k l, h) ∧
  ImmutableTree_size dv p h = Done (Z.of_nat (length l), h) ∧
  ImmutableTree_empty p = bool_decide (l = []) ∧
  ImmutableTree_min dv p h = (match head l with Some v => Done (v, h) | None => AssertFailed end) ∧
  ImmutableTree_max dv p h = (match last l with Some v => Done (v, h) | None => AssertFailed end).
Proof.
  intros Hi Hl. pose proof (tree_last_ok false h R p l Hi Hl) as Hmin.
  pose proof (tree_last_ok true h R p l Hi Hl) as Hmax. cbn beta iota in Hmin, Hmax.
  pose proof (tree_lookup_ok h R p l k Hi Hl) as Hlook. destruct Hl as (t & Ht & _ & Hs & <-). split_and!.
  - by apply (reads_bind _ _ _ _ _ Hlook).
  - eapply (reads_depth dv _ _ h R p t); [done..|]. intros fuel Hf.
    pose proof (previous_loop_ok dv k fuel h p t None Ht Hs Hf) as Hp. by destruct (list_previous k (t_elements t)).
  - eapply (reads_depth dv _ _ h R p t); [done..|]. intros fuel Hf. by apply node_size_ok.
  - unfold ImmutableTree_empty. rewrite (rep_terminator _ _ _ Ht). destruct t as [|l x r]; [done|]. cbn.
    symmetry. apply bool_decide_false. by destruct (t_elements l).
  - unfold ImmutableTree_min. destruct (head (t_elements t)); exact Hmin.
  - unfold ImmutableTree_max. destruct (last (t_elements t)); exact Hmax.
Qed.
End clients.

(** ** Witnesses *)

Section witnesses.
#[local] Instance Z_compare : KeyCompare Z := {| key_compare := Z.ltb |}.
#[local] Instance first_key : KeyOfValue Z (Z * Z) := {| key_of_value := fst |}.

#[local] Instance Z_compare_laws : KeyCompareLaws Z.
Proof. split; cbn; intros; lia. Qed.

(** A map of four keys is copied and changed; the original is kept. *)
Definition sample_program : list (TreeOp (K := Z) (V := Z * Z)) :=
  [OpNew 1; OpInsert 1 (4, 40) 1; OpInsert 1 (2, 20) 1; OpInsert 1 (8, 80) 1; OpInsert 1 (6, 60) 1;
   OpCopy 2 1; OpReplace 2 (6, 61) 2; OpRemove 2 4 2; OpPopMax 2 2; OpInsert 1 (2, 21) 1].

Definition sample_map : list (Z * Z) := [(2, 20); (4, 40); (6, 60); (8, 80)].

Lemma sample_spec : spec_tree_ops sample_program ∅ = Some {[1%positive := sample_map; 2%positive := [(2, 20); (6, 61)]]}.
Proof. by vm_compute. Qed.

(** The state that the program leaves *)
Definition sample_state : Trees :=
  match run_tree_ops (0, 0) sample_program (mkTrees initial_heap ∅) with
  | Done (_, s) => s
  | _ => mkTrees initial_heap ∅
  end.

Definition sample_root : ptr :=
  match vars sample_state !! 1%positive with Some p => p | None => None end.

Lemma sample_state_ok :
  inv (heap sample_state) (roots (vars sample_state)) ∧
  live (heap sample_state) (roots (vars sample_state)) sample_root ∧
  holds_list (heap sample_state) sample_root sample_map.
Proof.
  pose proof (run_tree_ops_ok (0, 0) sample_program _ _ initial_ok) as Hr. rewrite sample_spec in Hr.
  unfold sample_root, sample_state, runs in *. destruct (run_tree_ops _ _ _) as [[[] s]| |]; [|done..]. cbv beta iota in *.
  destruct (var_some s _ 1%positive sample_map Hr eq_refl) as (p & Hp & Hl). rewrite Hp. split; [apply Hr|].
  split; [|done]. apply live_root. by eapply roots_elem.
Qed.

Lemma trees_refine_lists_witness :
  match spec_tree_ops sample_program ∅ with
  | Some σ => σ !! 1%positive = Some sample_map ∧
      runs (run_tree_ops (0, 0) sample_program) (mkTrees initial_heap ∅) (λ _ s,
        (∀ x, option_Forall2 (holds_list (heap s)) (vars s !! x) (σ !! x)) ∧
        (∀ a n, nodes (heap s) !! a = Some n → live (heap s) (roots (vars s)) (Some a)) ∧
        allocated (heap s) = Z.of_nat (size (nodes (heap s))) ∧
        (σ = ∅ → nodes (heap s) = ∅))
  | None => False
  end.
Proof.
  pose proof (trees_refine_lists (0, 0) sample_program) as Hr. rewrite sample_spec in Hr |- *. split; [done|exact Hr].
Defined.

Lemma tree_height_logarithmic_witness :
  runs (run_tree_ops (0, 0) sample_program) (mkTrees initial_heap ∅) (λ _ s,
    ∃ p n, vars s !! 1%positive = Some p ∧ node_at (0, 0) p (heap s) = Done n ∧ 2 ^ height n ≤ (4 + 1) ^ 3).
Proof. exact (tree_height_logarithmic (0, 0) sample_program _ 1%positive sample_map sample_spec eq_refl). Defined.

Lemma tree_update_lookup_witness :
  runs (q ← ImmutableTree_insert (0, 0) (5, 50) sample_root; ImmutableTree_lookup (0, 0) 5 q) (heap sample_state) (λ r _, r = Some (5, 50)).
Proof.
  destruct sample_state_ok as (Hi & Hl & Hm).
  exact (proj1 (tree_update_lookup (0, 0) _ _ _ sample_map (5, 50) 5 5 Hi Hl Hm)).
Defined.

Lemma tree_iterators_correct_witness :
  runs (loop_from (0, 0) sample_root (lower_bound (0, 0) 5 sample_root) 5) (heap sample_state)
    (λ ys _, ys = [(6, 60); (8, 80)]).
Proof.
  destruct sample_state_ok as (Hi & Hl & Hm).
  exact (proj1 (proj2 (tree_iterators_correct (0, 0) _ _ _ sample_map 5 Hi Hl Hm))).
Defined.

Lemma tree_queries_correct_witness :
  ImmutableTree_lookup_previous (0, 0) 7 sample_root (heap sample_state) = Done (Some (6, 60), heap sample_state).
Proof.
  destruct sample_state_ok as (Hi & Hl & Hm).
  exact (proj1 (proj2 (tree_queries_correct (0, 0) _ _ _ sample_map 7 Hi Hm))).
Defined.
End witnesses.
