(* ===== verification/AddressSpace.v ===== *)
(** * Address spaces: [klee/AddressSpace.h], [lib/Core/AddressSpace.cpp],
      [lib/Core/TimingSolver.cpp] and the bounds checks of [klee/Memory.h]

    An address space maps memory objects, ordered by address, to object states.  It is
    copied when a state forks; the object states are then shared and are copied when
    they are first written.  A pointer that is an expression is resolved to objects by
    asking the solver.

    The map is the sorted list of its pairs, which is what [ImmutableTreeCorrect] shows
    that the persistent map stands for.  Object states are on a heap; they are not
    deleted.  [addressSpaceChange] is a virtual method of the owner, recorded here. *)

From stdpp Require Import prelude gmap strings.
From S2P Require Import Prelude Bitvec Bits APInt ExprData ExprConstants ExprCasts ExprBinary.
From S2P Require Import ExprBinaryProofs ExprSelectRead BitfieldSimplifier Solver BitArray ObjectState SearchTree.

(** ** Data *)

(** [ObjectPair]; an [ObjectState *] is an address. *)
Definition ObjectPair : Set := MemoryObject * positive.

(** [MemoryObjectLT], and the keys of a [MemoryMap] *)
Definition MemoryObjectLT (a b : MemoryObject) : bool := address a <? address b.
Arguments MemoryObjectLT _ _ /.
#[export] Instance MemoryMap_compare : KeyCompare MemoryObject := {| key_compare := MemoryObjectLT |}.
#[export] Instance MemoryMap_key : KeyOfValue MemoryObject ObjectPair := {| key_of_value := fst |}.

(** [MemoryObject hack(address)] *)
Definition hack (a : Z) : MemoryObject := mkMemoryObject a 0 false false.

(** ** Bounds checks of [MemoryObject] *)

Section checks.
Context `{APIntOps} `{ArrayStore} `{ObjectIdentity} `{Options} `{Context}.

Definition getBaseExpr (mo : MemoryObject) : outcome Expr := create_constant (address mo) getPointerWidth.
Definition getSizeExpr (mo : MemoryObject) : outcome Expr := create_constant (mo_size mo) getPointerWidth.

Definition getOffsetExpr (mo : MemoryObject) (pointer : Expr) : outcome Expr :=
  base ← getBaseExpr mo; Binary_create Sub pointer base.

Definition getBoundsCheckOffset (mo : MemoryObject) (offset : Expr) : outcome Expr :=
  if mo_size mo =? 0 then Binary_create Eq offset (Constant (alloc 0 getPointerWidth))
  else size ← getSizeExpr mo; Binary_create Ult offset size.

(** For an access of a number of bytes *)
Definition getBoundsCheckOffset_bytes (mo : MemoryObject) (offset : Expr) (bytes : Z) : outcome Expr :=
  if bytes <=? mo_size mo
  then Binary_create Ult offset (Constant (alloc (u32 (mo_size mo - bytes + 1)) getPointerWidth))
  else Done (Constant (alloc 0 Bool)).

Definition getBoundsCheckPointer (mo : MemoryObject) (pointer : Expr) : outcome Expr :=
  offset ← getOffsetExpr mo pointer; getBoundsCheckOffset mo offset.

Definition getBoundsCheckPointer_bytes (mo : MemoryObject) (pointer : Expr) (bytes : Z) : outcome Expr :=
  offset ← getOffsetExpr mo pointer; getBoundsCheckOffset_bytes mo offset bytes.

(** ** [class TimingSolver]: constants are answered without the solver.  The time that
    is spent is not modelled. *)

Section timing.
Context {S : Type} (impl : SolverImpl S).

(** [ConstraintManager::simplifyExpr] *)
Definition simplifyExpr (e : Expr) : Expr := e.

Definition ts_evaluate (cs : list Expr) (expr : Expr) : M S (option Validity) :=
  match expr with
  | Constant CE => t ← lift (CE_isTrue CE); mret (Some (if (t : bool) then VTrue else VFalse))
  | _ => evaluate impl (mkQuery cs (simplifyExpr expr))
  end.

Definition ts_mustBeTrue (cs : list Expr) (expr : Expr) : M S (option bool) :=
  match expr with
  | Constant CE => t ← lift (CE_isTrue CE); mret (Some t)
  | _ => mustBeTrue impl (mkQuery cs (simplifyExpr expr))
  end.

Definition ts_mustBeFalse (cs : list Expr) (expr : Expr) : M S (option bool) :=
  e ← lift (createIsZero expr); ts_mustBeTrue cs e.

Definition ts_mayBeTrue (cs : list Expr) (expr : Expr) : M S (option bool) :=
  on_success (ts_mustBeFalse cs expr) (λ res, mret (Some (negb res))).

Definition ts_mayBeFalse (cs : list Expr) (expr : Expr) : M S (option bool) :=
  on_success (ts_mustBeTrue cs expr) (λ res, mret (Some (negb res))).

Definition ts_getValue (cs : list Expr) (expr : Expr) : M S (option ConstantExpr) :=
  match expr with
  | Constant CE => mret (Some CE)
  | _ => getValue impl (mkQuery cs (simplifyExpr expr))
  end.

Definition ts_getInitialValues (cs : list Expr) (objects : list Array) : M S (option (list bytes)) :=
  if bool_decide (objects = []) then mret (Some [])
  else getInitialValues impl (mkQuery cs (Constant (alloc 0 Bool))) objects.

Definition ts_getRange (cs : list Expr) (expr : Expr) : M S (Expr * Expr) := getRange impl (mkQuery cs expr).
End timing.

(** ** Resolution of addresses *)

(** [resolveOne(ref<ConstantExpr>)]; the subtraction is at 64 bits. *)
Definition resolveOne_const (objects : list ObjectPair) (addr : ConstantExpr) : outcome (option ObjectPair) :=
  address' ← getZExtValue addr 64;
  Done (match list_previous (hack address') objects with
  | Some res =>
      let mo := res.1 in
      if ((mo_size mo =? 0) && (address' =? address mo)) || (u64 (address' - address mo) <? mo_size mo)
      then Some res else None
  | None => None
  end).

(** [resolveOneFast]: the pair and [*inBounds], if it resolves.  [uninit] is what
    [knownZeroBits] holds when the simplifier does not set it. *)
Definition resolveOneFast (uninit : Z) (objects : list ObjectPair) (address' : Expr) (width : Z) :
    F (option (ObjectPair * bool)) := λ simplifier,
  match address' with
  | Constant ce =>
      (success ← resolveOne_const objects ce;
       match success with
       | None => Done None
       | Some result =>
           v ← getZExtValue ce 64;
           let val := u64 (v - address result.1) in
           Done (Some (result, u64 (val + getMinBytesForWidth width) <=? mo_size result.1))
       end, simplifier)
  | Binary Add (Constant base) offset =>
      let '(r, simplifier) := simplify offset simplifier in
      ('(_, info) ← r;
       let known := match info with Some i => knownZeroBits i | None => uninit end in
       if Z.land known (Z.ldiff (Z.ones 64) 0xff) =? Z.ldiff (Z.ones 64) 0xff then
         let inBoundsSize := 256 in
         success ← resolveOne_const objects base;
         match success with
         | None => Done None
         | Some result =>
             v ← getZExtValue base 64;
             if negb (address result.1 =? v) then Done None
             else Done (Some (result, mo_size result.1 <=? inBoundsSize))
         end
       else Done None, simplifier)
  | _ => (Done None, simplifier)
  end.

(** The objects before [upper_bound(&hack)], which [--oi] visits from the last one *)
Definition list_upto (k : MemoryObject) (objects : list ObjectPair) : list ObjectPair :=
  filter (λ x, above k x = false) objects.

Section resolution.
Context {S : Type} (impl : SolverImpl S) (cs : list Expr) (p : Expr).

(** The two loops of [resolveOne]: [None] is [return false], [Some (Some oi)] is that
    [oi] was found, and [Some None] that the loop ended. *)
Fixpoint resolveOne_backwards (l : list ObjectPair) : M S (option (option ObjectPair)) :=
  match l with
  | [] => mret (Some None)
  | oi :: l =>
      inBounds ← lift (getBoundsCheckPointer oi.1 p);
      on_success (ts_mayBeTrue impl cs inBounds) (λ may,
        if may then mret (Some (Some oi))
        else
          base ← lift (getBaseExpr oi.1);
          uge ← lift (Binary_create Uge p base);
          on_success (ts_mustBeTrue impl cs uge) (λ must,
            if must then mret (Some None) else resolveOne_backwards l))
  end.

Fixpoint resolveOne_forwards (l : list ObjectPair) : M S (option (option ObjectPair)) :=
  match l with
  | [] => mret (Some None)
  | oi :: l =>
      base ← lift (getBaseExpr oi.1);
      ult ← lift (Binary_create Ult p base);
      on_success (ts_mustBeTrue impl cs ult) (λ must,
        if must then mret (Some None)
        else
          inBounds ← lift (getBoundsCheckPointer oi.1 p);
          on_success (ts_mayBeTrue impl cs inBounds) (λ may,
            if may then mret (Some (Some oi)) else resolveOne_forwards l))
  end.

(** The body of [resolveOne] of an expression, with the same results *)
Definition find_one (objects : list ObjectPair) : M S (option (option ObjectPair)) :=
  match p with
  | Constant CE => r ← lift (resolveOne_const objects CE); mret (Some r)
  | _ =>
      on_success (ts_getValue impl cs p) (λ cex,
        example ← lift (getZExtValue cex 64);
        let search :=
          on_success (resolveOne_backwards (reverse (list_upto (hack example) objects))) (λ found,
            match found with
            | Some oi => mret (Some (Some oi))
            | None => resolveOne_forwards (list_after (hack example) objects)
            end) in
        match list_previous (hack example) objects with
        | Some res =>
            if u64 (example - address res.1) <? mo_size res.1 then mret (Some (Some res)) else search
        | None => search
        end)
  end.

(** What [resolveOne] leaves: the value that it returns, and [success] and [result] if it
    assigned them *)
Record OneResult : Type := mkOneResult {
  returned : bool;
  success : option bool;
  result : option ObjectPair;
}.

(** [resolveOne] of an expression.  It returns [true] whether it found an object or not. *)
Definition resolveOne (objects : list ObjectPair) : M S OneResult :=
  r ← find_one objects;
  mret (match r with
  | None => mkOneResult false None None
  | Some None => mkOneResult true (Some false) None
  | Some (Some oi) => mkOneResult true (Some true) (Some oi)
  end).

(** [resolve] returns whether the list is incomplete.  [timed_out] is
    [timeout_us && timeout_us < timer.check()]. *)
Context (timed_out : M S bool) (maxResolutions : Z).

(** One object: [Some b] is [return b]. *)
Definition resolve_object (oi : ObjectPair) (rl : list ObjectPair) : M S (option bool * list ObjectPair) :=
  inBounds ← lift (getBoundsCheckPointer oi.1 p);
  may ← ts_mayBeTrue impl cs inBounds;
  match may with
  | None => mret (Some true, rl)
  | Some false => mret (None, rl)
  | Some true =>
      let rl := rl ++ [oi] in
      let size := u32 (Z.of_nat (length rl)) in
      if size =? 1 then
        must ← ts_mustBeTrue impl cs inBounds;
        mret (match must with None => Some true | Some true => Some false | Some false => None end, rl)
      else if size =? maxResolutions then mret (Some true, rl)
      else mret (None, rl)
  end.

Fixpoint resolve_backwards (l : list ObjectPair) (rl : list ObjectPair) :
    M S (option bool * list ObjectPair) :=
  match l with
  | [] => mret (None, rl)
  | oi :: l =>
      late ← timed_out;
      if (late : bool) then mret (Some true, rl)
      else
        '(stop, rl) ← resolve_object oi rl;
        match stop with
        | Some b => mret (Some b, rl)
        | None =>
            base ← lift (getBaseExpr oi.1);
            uge ← lift (Binary_create Uge p base);
            must ← ts_mustBeTrue impl cs uge;
            match must with
            | None => mret (Some true, rl)
            | Some true => mret (None, rl)
            | Some false => resolve_backwards l rl
            end
        end
  end.

Fixpoint resolve_forwards (l : list ObjectPair) (rl : list ObjectPair) : M S (bool * list ObjectPair) :=
  match l with
  | [] => mret (false, rl)
  | oi :: l =>
      late ← timed_out;
      if (late : bool) then mret (true, rl)
      else
        base ← lift (getBaseExpr oi.1);
        ult ← lift (Binary_create Ult p base);
        must ← ts_mustBeTrue impl cs ult;
        match must with
        | None => mret (true, rl)
        | Some true => mret (false, rl)
        | Some false =>
            '(stop, rl) ← resolve_object oi rl;
            match stop with
            | Some b => mret (b, rl)
            | None => resolve_forwards l rl
            end
        end
  end.

Definition resolve (objects rl : list ObjectPair) : M S (bool * list ObjectPair) :=
  match p with
  | Constant CE =>
      r ← lift (resolveOne_const objects CE);
      mret (false, match r with Some res => rl ++ [res] | None => rl end)
  | _ =>
      cex ← ts_getValue impl cs p;
      match cex with
      | None => mret (true, rl)
      | Some cex =>
          example ← lift (getZExtValue cex 64);
          '(stop, rl) ← resolve_backwards (reverse (list_upto (hack example) objects)) rl;
          match stop with
          | Some b => mret (b, rl)
          | None => resolve_forwards (list_after (hack example) objects) rl
          end
      end
  end.
End resolution.
End checks.

(** ** The address spaces of all the states *)

(** [class AddressSpace]; [state] is the state that owns it, if it is set. *)
Record AddressSpace : Set := mkSpace {
  cowKey : Z;
  objects : list ObjectPair;
  state : option positive;
}.

(** A call of [addressSpaceChange] on a state *)
Record Change : Set := mkChange {
  ch_state : positive;
  ch_object : MemoryObject;
  ch_old : option positive;
  ch_new : option positive;
}.

(** The object states that were made, the address spaces, the memory of the host, the
    counter of [getUpdates], and the changes that were reported, last first *)
Record Spaces : Set := mkSpaces {
  states : gmap positive ObjectState;
  spaces : gmap positive AddressSpace;
  sp_host : gmap Z Z;
  sp_arrays : Z;
  reported : list Change;
}.

Definition set_states (h : gmap positive ObjectState) (s : Spaces) : Spaces :=
  mkSpaces h (spaces s) (sp_host s) (sp_arrays s) (reported s).
Definition set_spaces (a : gmap positive AddressSpace) (s : Spaces) : Spaces :=
  mkSpaces (states s) a (sp_host s) (sp_arrays s) (reported s).
Definition set_host (h : gmap Z Z) (s : Spaces) : Spaces :=
  mkSpaces (states s) (spaces s) h (sp_arrays s) (reported s).

(** [*p], an assignment to [*p], and [new] *)
Definition get_state (q : positive) : M Spaces ObjectState := λ s,
  match states s !! q with Some os => Done (os, s) | None => AssertFailed end.
Definition put_state (q : positive) (os : ObjectState) : M Spaces unit := λ s,
  Done (tt, set_states (<[q := os]> (states s)) s).
Definition new_state (os : ObjectState) : M Spaces positive := λ s,
  let q := fresh (dom (states s)) in Done (q, set_states (<[q := os]> (states s)) s).
Definition get_space (a : positive) : M Spaces AddressSpace := λ s,
  match spaces s !! a with Some sp => Done (sp, s) | None => AssertFailed end.
Definition put_space (a : positive) (sp : AddressSpace) : M Spaces unit := λ s,
  Done (tt, set_spaces (<[a := sp]> (spaces s)) s).

(** [state->addressSpaceChange(mo, old, new)], after [assert(state)] *)
Definition addressSpaceChange (st : option positive) (mo : MemoryObject) (old new : option positive) :
    M Spaces unit := λ s,
  match st with
  | None => AssertFailed
  | Some st => Done (tt, mkSpaces (states s) (spaces s) (sp_host s) (sp_arrays s)
      (mkChange st mo old new :: reported s))
  end.

(** [AddressSpace(_state)] and the copy constructor, at the address [a] *)
Definition new_AddressSpace (a st : positive) : M Spaces unit := put_space a (mkSpace 1 [] (Some st)).

Definition copy_AddressSpace (a b : positive) : M Spaces unit :=
  sp ← get_space b;
  let key := u32 (cowKey sp + 1) in
  _ ← put_space b (mkSpace key (objects sp) (state sp));
  put_space a (mkSpace key (objects sp) None).

(** [ExecutionState::clone], as far as the address space is concerned *)
Definition clone_state (a b st : positive) : M Spaces unit :=
  _ ← copy_AddressSpace a b;
  sp ← get_space a;
  put_space a (mkSpace (cowKey sp) (objects sp) (Some st)).

Section spaces.
Context (a : positive).

Definition findObject (mo : MemoryObject) : M Spaces (option positive) :=
  sp ← get_space a; mret (snd <$> list_find mo (objects sp)).

Definition findObject_address (address' : Z) : M Spaces (option ObjectPair) :=
  sp ← get_space a; mret (list_find (hack address') (objects sp)).

Definition bindObject (mo : MemoryObject) (os : positive) : M Spaces unit :=
  sp ← get_space a;
  oldOS ← findObject mo;
  _ ← match oldOS with
      | Some old => addressSpaceChange (state sp) mo (Some old) None
      | None => mret tt
      end;
  _ ← addressSpaceChange (state sp) mo None (Some os);
  o ← get_state os;
  _ ← lift (cassert (copyOnWriteOwner o =? 0));
  _ ← put_state os (set_copyOnWriteOwner (cowKey sp) o);
  put_space a (mkSpace (cowKey sp) (list_replace (mo, os) (objects sp)) (state sp)).

Definition unbindObject (mo : MemoryObject) : M Spaces unit :=
  sp ← get_space a;
  _ ← lift (cassert (bool_decide (is_Some (state sp))));
  os ← findObject mo;
  _ ← match os with
      | Some os => addressSpaceChange (state sp) mo (Some os) None
      | None => mret tt
      end;
  put_space a (mkSpace (cowKey sp) (list_remove mo (objects sp)) (state sp)).

Definition isOwnedByUs (os : positive) : M Spaces bool :=
  sp ← get_space a; o ← get_state os; mret (cowKey sp =? copyOnWriteOwner o).

Definition getWriteable (mo : MemoryObject) (os : positive) : M Spaces positive :=
  sp ← get_space a;
  o ← get_state os;
  _ ← lift (cassert (negb (readOnly o)));
  if cowKey sp =? copyOnWriteOwner o then mret os
  else
    o' ← lift (copy_ObjectState o);
    n ← new_state (set_copyOnWriteOwner (cowKey sp) o');
    _ ← addressSpaceChange (state sp) mo (Some os) (Some n);
    _ ← put_space a (mkSpace (cowKey sp) (list_replace (mo, n) (objects sp)) (state sp));
    mret n.

(** ** Concrete bytes to and from the memory of the host *)

(** [memcpy] to the host and from it, and [memcmp] *)
Fixpoint host_store (addr : Z) (l : list Z) (h : gmap Z Z) : gmap Z Z :=
  match l with [] => h | x :: l => host_store (addr + 1) l (<[addr := x]> h) end.

Fixpoint host_load (addr : Z) (n : nat) (h : gmap Z Z) : outcome (list Z) :=
  match n with
  | O => Done []
  | Datatypes.S n =>
      match h !! addr with
      | Some x => l ← host_load (addr + 1) n h; Done (x :: l)
      | None => AssertFailed
      end
  end.

Fixpoint copyOut_loop (l : list ObjectPair) : M Spaces unit :=
  match l with
  | [] => mret tt
  | (mo, os) :: l =>
      if isUserSpecified mo then copyOut_loop l
      else
        o ← get_state os;
        _ ← (if readOnly o then mret tt
             else λ s, Done (tt, set_host (host_store (address mo)
               (take (Z.to_nat (mo_size mo)) (concreteStore o)) (sp_host s)) s));
        copyOut_loop l
  end.

Definition copyOutConcretes : M Spaces unit := sp ← get_space a; copyOut_loop (objects sp).

Fixpoint copyIn_loop (l : list ObjectPair) : M Spaces bool :=
  match l with
  | [] => mret true
  | (mo, os) :: l =>
      if isUserSpecified mo then copyIn_loop l
      else
        o ← get_state os;
        bytes ← (λ s, (l ← host_load (address mo) (Z.to_nat (mo_size mo)) (sp_host s); Done (l, s)));
        if readOnly o then
          if bool_decide (bytes = take (Z.to_nat (mo_size mo)) (concreteStore o)) then copyIn_loop l
          else mret false
        else
          wos ← getWriteable mo os;
          w ← get_state wos;
          _ ← put_state wos (set_concreteStore
            (bytes ++ drop (Z.to_nat (mo_size mo)) (concreteStore w)) w);
          copyIn_loop l
  end.

Definition copyInConcretes : M Spaces bool := sp ← get_space a; copyIn_loop (objects sp).
End spaces.

(** ** What the states do with their memory *)

(** Reads go to the object that [findObject] returns, and writes to the one that
    [getWriteable] returns. *)
Inductive SpaceOp : Set :=
| SBind (a : positive) (os : ObjectState)
| SUnbind (a : positive) (mo : MemoryObject)
| SClone (a b st : positive)
| SRead (a : positive) (mo : MemoryObject) (offset : Expr) (width : Z)
| SWrite (a : positive) (mo : MemoryObject) (offset value : Expr).

Section operations.
Context `{APIntOps} `{ArrayStore} `{ObjectIdentity} `{Options} `{Context} `{MemoryOptions} `{ArrayAlloc}.

(** An access of the object state at [q] *)
Definition at_state {A} (q : positive) (m : M Memory A) : M Spaces A := λ s,
  match states s !! q with
  | None => AssertFailed
  | Some os =>
      '(r, mem) ← m (mkMemory os (sp_host s) (sp_arrays s));
      Done (r, mkSpaces (<[q := this mem]> (states s)) (spaces s) (host mem) (const_arrays mem) (reported s))
  end.

Definition run_space_op (op : SpaceOp) : M Spaces (list Expr) :=
  match op with
  | SBind a os => q ← new_state os; _ ← bindObject a (object os) q; mret []
  | SUnbind a mo => _ ← unbindObject a mo; mret []
  | SClone a b st => _ ← clone_state a b st; mret []
  | SRead a mo offset width =>
      found ← findObject a mo;
      match found with
      | None => lift AssertFailed
      | Some os => e ← at_state os (read_at offset width); mret [e]
      end
  | SWrite a mo offset value =>
      found ← findObject a mo;
      match found with
      | None => lift AssertFailed
      | Some os => wos ← getWriteable a mo os; _ ← at_state wos (write_at offset value); mret []
      end
  end.

Fixpoint run_space_ops (ops : list SpaceOp) : M Spaces (list Expr) :=
  match ops with
  | [] => mret []
  | op :: ops => es ← run_space_op op; es' ← run_space_ops ops; mret (es ++ es')
  end.
End operations.
