(* ===== verification/Resolution.v ===== *)
(** * Pointers are resolved to the objects they can point into

    [AddressSpace::resolveOne] and [AddressSpace::resolve], proved against the contract
    of the solver, for address spaces whose objects do not overlap. *)

From stdpp Require Import prelude gmap strings sorting.
From S2P Require Import Prelude Bitvec Bits APInt ExprData ExprConstants ExprCasts ExprBinary.
From S2P Require Import ExprEval ExprBinaryProofs ExprSelectRead BitfieldSimplifier Solver ReferenceSolver SolverProofs.
From S2P Require Import ObjectState SearchTree AddressSpace.

(** ** Specification *)

(** The address is in the object; an object of no bytes has its own address. *)
Definition contains (mo : MemoryObject) (x : Z) : bool :=
  if mo_size mo =? 0 then x =? address mo else (address mo <=? x) && (x <? address mo + mo_size mo).

(** The end of an object, and that one object ends before another begins *)
Definition mo_end (mo : MemoryObject) : Z := address mo + Z.max 1 (mo_size mo).
Definition precedes (x y : ObjectPair) : Prop := mo_end x.1 ≤ address y.1.

(** The objects fit the pointers, are in order, and do not overlap. *)
Record objects_ok `{Context} (objects : list ObjectPair) : Prop := {
  ok_fits x : x ∈ objects → 0 ≤ address x.1 ∧ 0 ≤ mo_size x.1 < 2 ^ getPointerWidth ∧
    mo_end x.1 ≤ 2 ^ getPointerWidth;
  ok_order : StronglySorted precedes objects;
}.

Lemma contains_range mo x : contains mo x = true → address mo ≤ x < mo_end mo.
Proof. unfold contains, mo_end. case_step; unbool; lia. Qed.

(** Containment by the offset, which wraps around *)
Lemma contains_offset mo w a :
  0 ≤ address mo → 0 ≤ mo_size mo → mo_end mo ≤ 2 ^ w → a `bits` w →
  let off := (a - address mo) mod 2 ^ w in
  contains mo a = if mo_size mo =? 0 then off =? 0 else off <? mo_size mo.
Proof.
  intros Ha Hs Hend [Ha1 Ha2] off. unfold contains, mo_end in *.
  assert (off = if address mo <=? a then a - address mo else a - address mo + 2 ^ w) as ->.
  { unfold off. destruct (Z.leb_spec (address mo) a); [by apply Z.mod_small; lia|].
    symmetry. apply (Z.mod_unique _ _ (-1)); lia. }
  repeat case_match; lia.
Qed.

Section objects.
Context `{Context}.

Lemma StronglySorted_filter {A} (R : A → A → Prop) P `{∀ x : A, Decision (P x)} l :
  StronglySorted R l → StronglySorted R (filter P l).
Proof.
  induction 1 as [|x l Hl IH Hx]; [constructor|]. destruct (decide (P x)); [|by rewrite filter_cons_False].
  rewrite filter_cons_True by done. constructor; [done|]. rewrite Forall_forall in *.
  intros y [_ Hy]%list_elem_of_filter. auto.
Qed.

Lemma StronglySorted_reverse {A} (R : A → A → Prop) l : StronglySorted R l → StronglySorted (flip R) (reverse l).
Proof.
  induction 1 as [|x l Hl IH Hx]; [constructor|]. rewrite reverse_cons. apply StronglySorted_app_2; [|done|by repeat constructor].
  intros y z Hy ->%list_elem_of_singleton. rewrite elem_of_reverse in Hy. rewrite Forall_forall in Hx. exact (Hx y Hy).
Qed.

Lemma precedes_split objects x y :
  objects_ok objects → x ∈ objects → y ∈ objects → x = y ∨ precedes x y ∨ precedes y x.
Proof.
  intros [_ Hs]. induction Hs as [|z l Hs IH Hz]; [by intros ?%elem_of_nil|].
  rewrite Forall_forall in Hz. intros [->|Hx]%elem_of_cons [->|Hy]%elem_of_cons; auto.
Qed.

(** An address is in at most one object. *)
Lemma contains_unique objects x y a :
  objects_ok objects → x ∈ objects → y ∈ objects →
  contains x.1 a = true → contains y.1 a = true → x = y.
Proof.
  intros Hok Hx Hy Hxa%contains_range Hya%contains_range.
  destruct (precedes_split _ _ _ Hok Hx Hy) as [|[|]]; [done|unfold precedes in *; lia..].
Qed.

Lemma list_after_addresses a objects x : x ∈ list_after (hack a) objects ↔ x ∈ objects ∧ a < address x.1.
Proof. unfold list_after. rewrite list_elem_of_filter. cbn. rewrite Z.ltb_lt. tauto. Qed.

Lemma list_upto_addresses a objects x : x ∈ list_upto (hack a) objects ↔ x ∈ objects ∧ address x.1 ≤ a.
Proof. unfold list_upto. rewrite list_elem_of_filter. cbn. rewrite Z.ltb_ge. tauto. Qed.

Lemma upto_or_after a objects x :
  x ∈ objects → x ∈ list_upto (hack a) objects ∨ x ∈ list_after (hack a) objects.
Proof. rewrite list_upto_addresses, list_after_addresses. destruct (Z.le_gt_cases (address x.1) a); auto. Qed.

Lemma upto_after_perm a objects : reverse (list_upto (hack a) objects) ++ list_after (hack a) objects ≡ₚ objects.
Proof.
  rewrite reverse_Permutation. induction objects as [|x l IH]; [done|].
  unfold list_upto, list_after in *. rewrite !filter_cons. repeat case_decide; try congruence.
  - cbn. by rewrite IH.
  - rewrite <- Permutation_middle, IH. done.
  - destruct (above _ x); naive_solver.
Qed.

(** [lookup_previous] finds the object of an address. *)
Lemma list_previous_contains objects x a :
  objects_ok objects → x ∈ objects → contains x.1 a = true →
  list_previous (hack a) objects = Some x.
Proof.
  intros [_ Hs] Hx Ha%contains_range. unfold list_previous.
  apply list_elem_of_split in Hx as (l1 & l2 & ->). rewrite filter_app, filter_cons_True by (cbn; apply Z.ltb_ge; lia).
  apply StronglySorted_app_1_r in Hs as Hs2. inversion Hs2 as [|?? _ Hl2]; subst.
  rewrite (filter_none _ l2); [by rewrite last_snoc|].
  intros y Hy. rewrite Forall_forall in Hl2. specialize (Hl2 y Hy). unfold precedes in Hl2. cbn.
  rewrite Z.ltb_ge. lia.
Qed.
End objects.

(** ** Queries *)

Section resolution_proofs.
Context `{APIntLaws} `{WfStore} `{ObjectIdentity} `{Options} `{QueryClass} `{Context}.
Context {S : Type} (fail : Prop) (impl : SolverImpl S) (Inv : S → Prop).
Context (Himpl : sound fail impl Inv).
Context (Hrange : ConstArrayOpt = true → in_range_only = true).

(** The class [TimingSolver] keeps the contract of the solver. *)
Lemma ts_mustBeTrue_ok cs e :
  wf_query (mkQuery cs e) → answers fail (ts_mustBeTrue impl cs e) Inv (truth_ok (mkQuery cs e)).
Proof.
  intros Hq. destruct e; try by apply (mustBeTrue_ok _ _ _ Himpl).
  apply (constant_query_ok fail (mkQuery cs (Constant c)) c (λ t, t)); [done..|]. by apply refuted_may_be.
Qed.

Lemma ts_mustBeFalse_ok cs e :
  wf_query (mkQuery cs e) →
  answers fail (ts_mustBeFalse impl cs e) Inv (λ b : bool,
    if b then refuted (mkQuery cs e) else may_be (mkQuery cs e) 1).
Proof.
  intros Hq. apply answers_lift. pose proof (negateExpr_ok _ Hq) as Hn. unfold negateExpr in Hn. cbn in Hn.
  destruct (createIsZero e) as [ne| |]; try done. cbn in *.
  eapply answers_mono; [apply ts_mustBeTrue_ok, Hn|done|].
  intros [] Hb; [by eapply negation_valid|]. by apply (negation_may_be _ _ 0 Hn).
Qed.

Lemma ts_mayBeTrue_ok cs e :
  wf_query (mkQuery cs e) →
  answers fail (ts_mayBeTrue impl cs e) Inv (λ b : bool,
    if b then may_be (mkQuery cs e) 1 else refuted (mkQuery cs e)).
Proof.
  intros Hq. eapply on_success_ok; [by apply ts_mustBeFalse_ok|]. intros b Hb. apply answers_ret. by destruct b.
Qed.

Lemma ts_getValue_ok cs e :
  wf_value_query (mkQuery cs e) →
  answers fail (ts_getValue impl cs e) Inv (λ c,
    cwidth c = getWidth e ∧ may_be (mkQuery cs e) (cvalue c)).
Proof.
  intros Hq. destruct e; try by apply (getValue_ok _ _ _ Himpl (mkQuery cs _)).
  apply answers_ret. split; [done|]. destruct Hq as (_ & [ρ Hρ] & _). by exists ρ.
Qed.

#[local] Abbreviation width := getPointerWidth.
Context (Hwidth : 1 < width ≤ 64).

(** An operation on an expression and a constant of the width of pointers *)
Lemma pointer_op k e v :
  is_total k = true → wf e → regular e → getWidth e = width → v `bits` width →
  Binary_create k e (const v width) ⇓ λ x, wf x ∧ regular x ∧ getWidth x = bv_width k width ∧
    ∀ ρ, wf_assignment ρ → eval ρ x = bv_eval k width (eval ρ e) v.
Proof.
  intros Hk He Hr Hw Hv. assert (wf (const v width)) by (apply wf_const; [lia|done]).
  eapply yields_mono; [apply Binary_create_ok; [done..|by destruct k]|].
  intros x Hbx. pose proof Hbx as [? Hwx _ Hx _]. rewrite Hw in *. split_and!; [done| |done|].
  - by eapply built_regular; [exact Hbx|..|apply regular_const].
  - intros ρ Hρ. rewrite Hx; [done|done|intros (_ & _ & ?); split; [|done]|by destruct k].
    by apply Hr; [|apply Hrange].
Qed.

Context (cs : list Expr) (p : Expr).
Context (Hp : wf_value_query (mkQuery cs p)) (Hpw : getWidth p = width).

(** A query that decides a predicate of the pointer *)
Definition decides (f : Z → bool) (x : Expr) : Prop :=
  wf_query (mkQuery cs x) ∧ ∀ ρ, wf_assignment ρ → eval ρ x = Z.b2z (f (eval ρ p)).

Lemma decides_intro f x :
  wf x → regular x → getWidth x = Bool → (∀ ρ, wf_assignment ρ → eval ρ x = Z.b2z (f (eval ρ p))) →
  decides f x.
Proof. intros. destruct Hp as (? & ? & _). split; [|done]. by split. Qed.

Lemma compare_base_ok k mo f :
  is_cmp k = true → address mo `bits` width → (∀ v, bv_eval k width v (address mo) = Z.b2z (f v)) →
  (base ← getBaseExpr mo; Binary_create k p base) ⇓ decides f.
Proof.
  intros Hk Hmo Hf. destruct Hp as (_ & _ & Hwf & Hr). unfold getBaseExpr.
  rewrite create_constant_spec by (done || lia). ystep.
  eapply yields_mono; [apply pointer_op; try done; unfold is_total; by rewrite Hk, orb_true_r|].
  intros x (? & ? & Hw & Hx). apply decides_intro; try done.
  - rewrite Hw. unfold bv_width. by rewrite Hk.
  - intros ρ Hρ. by rewrite Hx.
Qed.

Lemma bounds_check_ok mo :
  0 ≤ address mo → mo_size mo `bits` width → mo_end mo ≤ 2 ^ width →
  getBoundsCheckPointer mo p ⇓ decides (contains mo).
Proof.
  intros Ha Hs Hend. destruct Hp as (_ & _ & Hwf & Hr).
  assert (address mo `bits` width) by (unfold mo_end in Hend; split; lia).
  unfold getBoundsCheckPointer, getOffsetExpr, getBaseExpr.
  rewrite create_constant_spec by (done || lia). ystep. ystep.
  eapply yields_mono; [by apply pointer_op|]. intros off (? & ? & Hw & Hoff). change (getWidth off = width) in Hw.
  assert (∀ ρ, wf_assignment ρ → contains mo (eval ρ p) =
    if mo_size mo =? 0 then eval ρ off =? 0 else eval ρ off <? mo_size mo) as Hc.
  { intros ρ Hρ. rewrite Hoff by done. apply contains_offset; [done|apply Hs|done|].
    rewrite <- Hpw. by apply eval_bounded. }
  unfold getBoundsCheckOffset. destruct (mo_size mo =? 0).
  - rewrite alloc_small by (apply bounded_0; lia).
    eapply yields_mono; [apply (pointer_op Eq); [done..|apply bounded_0; lia]|].
    intros x (? & ? & ? & Hx). apply decides_intro; try done. intros ρ Hρ. by rewrite Hx, Hc.
  - unfold getSizeExpr. rewrite create_constant_spec by (done || lia). ystep.
    eapply yields_mono; [by apply (pointer_op Ult)|].
    intros x (? & ? & ? & Hx). apply decides_intro; try done. intros ρ Hρ. by rewrite Hx, Hc.
Qed.

(** *** The answers about one object *)

Context (all : list ObjectPair) (Hall : objects_ok all).

(** Some model of the constraints has the pointer in the object. *)
Definition may_point (mo : MemoryObject) : Prop := ∃ ρ, models cs ρ ∧ contains mo (eval ρ p) = true.

Lemma object_fits x :
  x ∈ all → 0 ≤ address x.1 ∧ address x.1 `bits` width ∧ mo_size x.1 `bits` width ∧ mo_end x.1 ≤ 2 ^ width.
Proof.
  intros Hx. destruct (ok_fits _ Hall x Hx) as (? & ? & Hend). split_and!; try done.
  unfold mo_end in Hend. split; lia.
Qed.

Lemma decides_may f x b :
  decides f x → (if (b : bool) then may_be (mkQuery cs x) 1 else refuted (mkQuery cs x)) →
  if b then ∃ ρ, models cs ρ ∧ f (eval ρ p) = true else ∀ ρ, models cs ρ → f (eval ρ p) = false.
Proof.
  intros [_ Hx] Hb. destruct b.
  - destruct Hb as (ρ & Hρ & Hv). exists ρ. split; [done|]. cbn in Hv. rewrite (Hx ρ (proj1 Hρ)) in Hv.
    by destruct (f _).
  - intros ρ Hρ. specialize (Hb ρ Hρ). cbn in Hb. rewrite (Hx ρ (proj1 Hρ)) in Hb. by destruct (f _).
Qed.

Lemma decides_must f x :
  decides f x → truth_ok (mkQuery cs x) true → ∀ ρ, models cs ρ → f (eval ρ p) = true.
Proof.
  intros [_ Hx] Hb ρ Hρ. specialize (Hb ρ Hρ). cbn in Hb. rewrite (Hx ρ (proj1 Hρ)) in Hb. by destruct (f _).
Qed.

(** Whether the object may be pointed into *)
Lemma ask_bounds {A} oi (k : Expr → M S A) s P :
  oi ∈ all → (∀ x, decides (contains oi.1) x → runs (k x) s P) →
  runs (x ← lift (getBoundsCheckPointer oi.1 p); k x) s P.
Proof.
  intros (? & ? & ? & ?)%object_fits Hk. apply runs_bind, runs_lift.
  eapply yields_mono; [by apply bounds_check_ok|]. done.
Qed.

Lemma ask_base {A} c f oi (k : Expr → M S A) s P :
  is_cmp c = true → (∀ v, bv_eval c width v (address oi.1) = Z.b2z (f v)) →
  oi ∈ all → (∀ x, decides f x → runs (k x) s P) →
  runs (base ← lift (getBaseExpr oi.1); x ← lift (Binary_create c p base); k x) s P.
Proof.
  intros Hc Hf (? & ? & _)%object_fits Hk. pose proof (compare_base_ok c oi.1 f Hc ltac:(done) Hf) as Hx.
  apply runs_bind, runs_lift. destruct (getBaseExpr oi.1) as [base| |]; try done.
  apply runs_bind, runs_lift. eapply yields_mono; [exact Hx|]. done.
Qed.

Lemma ask_may f x s :
  decides f x → Inv s →
  runs (ts_mayBeTrue impl cs x) s (λ r s', Inv s' ∧
    match r with
    | Some true => ∃ ρ, models cs ρ ∧ f (eval ρ p) = true
    | Some false => ∀ ρ, models cs ρ → f (eval ρ p) = false
    | None => fail
    end).
Proof.
  intros Hx Hs. eapply runs_mono; [by apply ts_mayBeTrue_ok; [apply Hx|]|].
  intros [b|] s' [? Hb]; (split; [done|]); [|done]. pose proof (decides_may f x b Hx Hb). by destruct b.
Qed.

Lemma ask_must f x s :
  decides f x → Inv s →
  runs (ts_mustBeTrue impl cs x) s (λ r s', Inv s' ∧
    match r with
    | Some true => ∀ ρ, models cs ρ → f (eval ρ p) = true
    | Some false => True
    | None => fail
    end).
Proof.
  intros Hx Hs. eapply runs_mono; [by apply ts_mustBeTrue_ok; [apply Hx|]|].
  intros [[]|] s' [? Hb]; (split; [done|]); try done. by apply (decides_must f x).
Qed.

Lemma never_points x : (∀ ρ, models cs ρ → contains x (eval ρ p) = false) → ¬ may_point x.
Proof. intros Hx (ρ & Hρ & Hc). by rewrite Hx in Hc. Qed.

(** No object before [oi] can be pointed into when the pointer is not below it, and none
    from [oi] on when the pointer is below it. *)
Lemma none_before oi l :
  (∀ ρ, models cs ρ → (address oi.1 <=? eval ρ p) = true) → Forall (flip precedes oi) l →
  ∀ x, x ∈ l → ¬ may_point x.1.
Proof.
  intros Hge Hl x Hx (ρ & Hρ & Hc%contains_range). rewrite Forall_forall in Hl.
  specialize (Hl x Hx). specialize (Hge ρ Hρ). unfold flip, precedes in Hl. unbool. lia.
Qed.

Lemma none_after oi l :
  (∀ ρ, models cs ρ → (eval ρ p <? address oi.1) = true) → Forall (precedes oi) l →
  ∀ x, x ∈ oi :: l → ¬ may_point x.1.
Proof.
  intros Hlt Hl x Hx (ρ & Hρ & Hc%contains_range). specialize (Hlt ρ Hρ). unbool.
  apply elem_of_cons in Hx as [->|Hx]; [lia|]. rewrite Forall_forall in Hl.
  specialize (Hl x Hx). unfold precedes, mo_end in *. lia.
Qed.

(** *** One object *)

(** What a search of the objects [l] for one object finds *)
Definition one_of (l : list ObjectPair) (r : option ObjectPair) : Prop :=
  match r with
  | Some oi => oi ∈ l ∧ may_point oi.1
  | None => ∀ x, x ∈ l → ¬ may_point x.1
  end.

Lemma one_of_cons oi l r : ¬ may_point oi.1 → one_of l r → one_of (oi :: l) r.
Proof.
  intros Hoi. destruct r as [x|]; cbn; [rewrite elem_of_cons; tauto|].
  intros Hl x [->|Hx]%elem_of_cons; auto.
Qed.

Lemma resolveOne_backwards_ok l :
  l ⊆ all → StronglySorted (flip precedes) l →
  answers fail (resolveOne_backwards impl cs p l) Inv (one_of l).
Proof.
  intros Hin Hl. induction Hl as [|oi l _ IH Hoi]; cbn [resolveOne_backwards].
  { apply answers_ret. by intros ? ?%elem_of_nil. }
  assert (oi ∈ all ∧ l ⊆ all) as [Ho Hin'] by set_solver. intros s Hs.
  apply ask_bounds; [done|]. intros x Hx. apply runs_bind. eapply runs_mono; [by apply (ask_may _ x s Hx)|].
  intros [[]|] s1 [Hs1 Hm]; cbn; [apply runs_ret; split; [done|]; split; [set_solver|done]| |by apply runs_ret].
  apply never_points in Hm. apply (ask_base Uge (λ v, address oi.1 <=? v)); [done..|]. intros y Hy.
  apply runs_bind. eapply runs_mono; [by apply (ask_must _ y s1 Hy)|].
  intros [[]|] s2 [Hs2 Hge]; cbn; [apply runs_ret; split; [done|]| |by apply runs_ret].
  - apply (one_of_cons oi l None); [done|]. exact (none_before oi l Hge Hoi).
  - eapply runs_mono; [by apply IH|]. intros [r|] s3 [? Hr]; (split; [done|]); [by apply one_of_cons|done].
Qed.

Lemma resolveOne_forwards_ok l :
  l ⊆ all → StronglySorted precedes l →
  answers fail (resolveOne_forwards impl cs p l) Inv (one_of l).
Proof.
  intros Hin Hl. induction Hl as [|oi l _ IH Hoi]; cbn [resolveOne_forwards].
  { apply answers_ret. by intros ? ?%elem_of_nil. }
  assert (oi ∈ all ∧ l ⊆ all) as [Ho Hin'] by set_solver. intros s Hs.
  apply (ask_base Ult (λ v, v <? address oi.1)); [done..|]. intros y Hy.
  apply runs_bind. eapply runs_mono; [by apply (ask_must _ y s Hy)|].
  intros [[]|] s1 [Hs1 Hlt]; cbn; [apply runs_ret; split; [done|]| |by apply runs_ret].
  { exact (none_after oi l Hlt Hoi). }
  apply ask_bounds; [done|]. intros x Hx. apply runs_bind. eapply runs_mono; [by apply (ask_may _ x s1 Hx)|].
  intros [[]|] s2 [Hs2 Hm]; cbn; [apply runs_ret; split; [done|]; split; [set_solver|done]| |by apply runs_ret].
  apply never_points in Hm.
  eapply runs_mono; [by apply IH|]. intros [r|] s3 [? Hr]; (split; [done|]); [by apply one_of_cons|done].
Qed.

Lemma resolveOne_const_ok c :
  wf_constant c → cwidth c ≤ 64 →
  resolveOne_const all c ⇓ λ r,
    match r with
    | Some x => x ∈ all ∧ contains x.1 (cvalue c) = true
    | None => ∀ x, x ∈ all → contains x.1 (cvalue c) = false
    end.
Proof.
  intros [_ Hc] Hw. unfold resolveOne_const. rewrite getZExtValue_spec by done. ystep.
  assert (cvalue c < 2 ^ 64) by (destruct Hc; pose proof (Z.pow_le_mono_r 2 (cwidth c) 64); lia).
  assert (∀ x, list_previous (hack (cvalue c)) all = Some x → x ∈ all ∧ address x.1 ≤ cvalue c) as Hprev.
  { intros x Hx%last_Some_elem_of. by apply list_upto_addresses. }
  assert (∀ x, x ∈ all → contains x.1 (cvalue c) = true → list_previous (hack (cvalue c)) all = Some x) as Hfind
    by (intros; by apply list_previous_contains).
  destruct (list_previous _ all) as [x|] eqn:E.
  - destruct (Hprev x eq_refl) as [Hx Hle]. destruct (ok_fits _ Hall x Hx) as (? & [? ?] & _).
    rewrite u64_small by (split; lia).
    assert ((mo_size x.1 =? 0) && (cvalue c =? address x.1) || (cvalue c - address x.1 <? mo_size x.1) =
      contains x.1 (cvalue c)) as -> by (unfold contains; case_match; lia).
    destruct (contains x.1 (cvalue c)) eqn:Ec; [done|]. intros y Hy.
    apply not_true_iff_false. intros Hcy. pose proof (Hfind y Hy Hcy) as [= ->]. congruence.
  - intros y Hy. apply not_true_iff_false. intros Hcy. by apply (Hfind y Hy) in Hcy.
Qed.

(** The example is an address that the pointer can have. *)
Lemma example_ok cex :
  cwidth cex = getWidth p → may_be (mkQuery cs p) (cvalue cex) →
  wf_constant cex ∧ cwidth cex ≤ 64 ∧ ∃ ρ, models cs ρ ∧ eval ρ p = cvalue cex.
Proof.
  intros Hw (ρ & Hρ & Hv). cbn in Hv. destruct Hp as (_ & _ & Hwf & _).
  split_and!; [|lia|by exists ρ]. split; [lia|]. rewrite Hw, <- Hv. apply eval_bounded; [apply Hρ|done].
Qed.

Lemma upto_sorted a :
  reverse (list_upto (hack a) all) ⊆ all ∧ StronglySorted (flip precedes) (reverse (list_upto (hack a) all)).
Proof.
  split; [|by apply StronglySorted_reverse, StronglySorted_filter, ok_order].
  intros x Hx. rewrite elem_of_reverse, list_upto_addresses in Hx. tauto.
Qed.

Lemma after_sorted a : list_after (hack a) all ⊆ all ∧ StronglySorted precedes (list_after (hack a) all).
Proof.
  split; [|by apply StronglySorted_filter, ok_order]. intros x Hx. rewrite list_after_addresses in Hx. tauto.
Qed.

Lemma one_of_subset l r : l ⊆ all → (∀ x, x ∈ all → x ∈ l ∨ ¬ may_point x.1) → one_of l r → one_of all r.
Proof.
  intros Hl Hrest. destruct r as [x|]; cbn; [naive_solver|]. intros Hr x Hx.
  destruct (Hrest x Hx); auto.
Qed.

Lemma resolveOne_search_ok a :
  answers fail
    (on_success (resolveOne_backwards impl cs p (reverse (list_upto (hack a) all))) (λ found,
      match found with
      | Some oi => mret (Some (Some oi))
      | None => resolveOne_forwards impl cs p (list_after (hack a) all)
      end)) Inv (one_of all).
Proof.
  destruct (upto_sorted a) as [Hu Hus], (after_sorted a) as [Ha Has].
  eapply on_success_ok; [by apply resolveOne_backwards_ok|]. intros [oi|] Hb.
  - apply answers_ret. destruct Hb. split; [by apply Hu|done].
  - eapply answers_mono; [by apply resolveOne_forwards_ok|done|]. intros r. apply one_of_subset; [done|].
    intros x Hx. destruct (upto_or_after a all x Hx); [|by left]. right. apply Hb. by rewrite elem_of_reverse.
Qed.

Lemma resolveOne_constant_ok c :
  p = Constant c → answers fail (r ← lift (resolveOne_const all c); mret (Some r)) Inv (one_of all).
Proof.
  intros Heq. destruct Hp as (_ & [ρ Hρ] & Hwf & _). cbn in Hwf. rewrite Heq in Hwf, Hpw. cbn in Hpw.
  apply answers_lift. eapply yields_mono; [apply resolveOne_const_ok; [done|lia]|].
  intros [x|] Hr; apply answers_ret.
  - destruct Hr. split; [done|]. exists ρ. by rewrite Heq.
  - intros x Hx (ρ' & _ & Hc). rewrite Heq in Hc. cbn in Hc. by rewrite Hr in Hc.
Qed.

(** The first object that is tried *)
Lemma cheap_search_ok cex x :
  cwidth cex = getWidth p → may_be (mkQuery cs p) (cvalue cex) →
  list_previous (hack (cvalue cex)) all = Some x → u64 (cvalue cex - address x.1) < mo_size x.1 →
  x ∈ all ∧ may_point x.1.
Proof.
  intros Hw Hmay Hx Hlt. destruct (example_ok cex Hw Hmay) as ([_ Hc] & ? & ρ & Hρ & Hv).
  apply last_Some_elem_of, list_upto_addresses in Hx as [Hx Hle]. split; [done|]. exists ρ. split; [done|].
  destruct (ok_fits _ Hall x Hx) as (? & ? & _). rewrite Hv, u64_small in *.
  - unfold contains. case_match; lia.
  - destruct Hc. pose proof (Z.pow_le_mono_r 2 (cwidth cex) 64). split; lia.
Qed.

Lemma find_one_ok : answers fail (find_one impl cs p all) Inv (one_of all).
Proof.
  unfold find_one. pose proof resolveOne_constant_ok as Hconst.
  pose proof (ts_getValue_ok cs p Hp) as Hval. cbn in Hval.
  assert (∀ cex, cwidth cex = getWidth p ∧ may_be (mkQuery cs p) (cvalue cex) →
    answers fail (example ← lift (getZExtValue cex 64);
      let search :=
        on_success (resolveOne_backwards impl cs p (reverse (list_upto (hack example) all))) (λ found,
          match found with
          | Some oi => mret (Some (Some oi))
          | None => resolveOne_forwards impl cs p (list_after (hack example) all)
          end) in
      match list_previous (hack example) all with
      | Some res => if u64 (example - address res.1) <? mo_size res.1 then mret (Some (Some res)) else search
      | None => search
      end) Inv (one_of all)) as Hsym.
  { intros cex [Hw Hmay]. apply answers_lift. rewrite getZExtValue_spec by (destruct (example_ok cex Hw Hmay); tauto).
    apply yields_done. cbv zeta. destruct (list_previous _ all) as [x|] eqn:E; [|apply resolveOne_search_ok].
    case_step; [|apply resolveOne_search_ok]. unbool. apply answers_ret. by eapply cheap_search_ok. }
  destruct p; [by apply Hconst|..]; by eapply on_success_ok.
Qed.

Lemma resolveOne_ok s :
  Inv s → runs (resolveOne impl cs p all) s (λ r s', Inv s' ∧
    match r with
    | mkOneResult false success result => fail ∧ success = None ∧ result = None
    | mkOneResult true success None => success = Some false ∧ ∀ x, x ∈ all → ¬ may_point x.1
    | mkOneResult true success (Some oi) => success = Some true ∧ oi ∈ all ∧ may_point oi.1
    end).
Proof.
  intros Hs. apply runs_bind. eapply runs_mono; [by apply find_one_ok|].
  intros [[oi|]|] s' [Hs' Hr]; by apply runs_ret.
Qed.

(** *** All objects *)

Context (late : Prop) (timed_out : M S bool) (maxResolutions : Z).
Context (Htime : ∀ s, Inv s → runs timed_out s (λ b s', Inv s' ∧ (b = true → late))).
Context (Hmax : 0 ≤ maxResolutions < 2 ^ 32).

(** Why a search may stop early: the solver failed, it was late, or the limit is
    reached.  A limit of one object is not checked. *)
Definition gave_up (rl : list ObjectPair) : Prop :=
  fail ∨ late ∨ (1 < maxResolutions ∧ Z.of_nat (length rl) = maxResolutions).

(** A search of [l] that began with [rl] left [rl']; [stop] as in [resolve_object] *)
Definition searched (l rl : list ObjectPair) (stop : option bool) (rl' : list ObjectPair) : Prop :=
  ∃ new, rl' = rl ++ new ∧ new ⊆+ l ∧ Forall (λ x, may_point x.1) new ∧
    (1 < maxResolutions → Z.of_nat (length rl') ≤ maxResolutions) ∧
    match stop with
    | Some true => gave_up rl'
    | Some false => ∃ x, x ∈ new ∧ ∀ ρ, models cs ρ → contains x.1 (eval ρ p) = true
    | None =>
        (∀ x, x ∈ l → may_point x.1 → x ∈ new) ∧
        (1 < maxResolutions → Z.of_nat (length rl') < maxResolutions)
    end.

(** The number of objects is in range, and below the limit. *)
Definition room (l rl : list ObjectPair) : Prop :=
  Z.of_nat (length rl + length l) < 2 ^ 32 ∧
  (1 < maxResolutions → Z.of_nat (length rl) < maxResolutions).

(** Nothing is added. *)
Lemma searched_none l rl stop :
  room l rl →
  match stop with Some true => gave_up rl | Some false => False | None => ∀ x, x ∈ l → ¬ may_point x.1 end →
  searched l rl stop rl.
Proof.
  intros [_ Hr] Hstop. exists []. rewrite app_nil_r. split_and!; [done|apply submseteq_nil_l|done|lia|].
  destruct stop as [[]|]; [done..|]. split; [|done]. intros x Hx Hm. by destruct (Hstop x Hx).
Qed.

Lemma searched_app l1 l2 rl rl1 stop rl' :
  searched l1 rl None rl1 → searched l2 rl1 stop rl' → searched (l1 ++ l2) rl stop rl'.
Proof.
  intros (n1 & -> & Hsub1 & Hm1 & _ & Hall1 & _) (n2 & -> & Hsub2 & Hm2 & Hlen & Hstop).
  exists (n1 ++ n2). rewrite app_assoc. split_and!; try done.
  - by apply submseteq_app.
  - by apply Forall_app.
  - destruct stop as [[]|]; [done| |].
    + destruct Hstop as (x & ? & ?). exists x. split; [|done]. apply elem_of_app. by right.
    + destruct Hstop as [Hall2 ?]. split; [|done]. setoid_rewrite elem_of_app. naive_solver.
Qed.

Lemma searched_stop l1 l2 rl b rl' : searched l1 rl (Some b) rl' → searched (l1 ++ l2) rl (Some b) rl'.
Proof.
  intros (new & -> & Hsub & Hm & Hlen & Hstop). exists new. split_and!; try done.
  etrans; [exact Hsub|]. apply submseteq_inserts_r. done.
Qed.

Lemma room_next oi l rl rl1 : searched [oi] rl None rl1 → room (oi :: l) rl → room l rl1.
Proof.
  intros (new & -> & Hsub & _ & _ & _ & Hlt) [Hr _]. split; [|done].
  apply submseteq_length in Hsub. rewrite length_app. cbn in *. lia.
Qed.

Lemma resolve_object_ok oi l rl s :
  oi ∈ all → room (oi :: l) rl → Inv s →
  runs (resolve_object impl cs p maxResolutions oi rl) s (λ '(stop, rl') s', Inv s' ∧ searched [oi] rl stop rl').
Proof.
  intros Ho [Hr Hlt] Hs. assert (room [oi] rl) as Hroom by (split; [cbn in *; lia|done]).
  apply ask_bounds; [done|]. intros x Hx. apply runs_bind.
  eapply runs_mono; [by apply (ask_may _ x s Hx)|].
  intros [[]|] s1 [Hs1 Hm].
  2:{ apply runs_ret. split; [done|]. apply searched_none; [done|].
      intros y ->%list_elem_of_singleton. by apply never_points. }
  2:{ apply runs_ret. split; [done|]. apply searched_none; [done|]. by left. }
  cbv beta iota zeta. assert (u32 (Z.of_nat (length (rl ++ [oi]))) = Z.of_nat (length rl) + 1) as ->.
  { rewrite length_app. unfold u32. cbn in *. rewrite Z.mod_small; lia. }
  assert (∀ stop, (Z.of_nat (length rl) + 1 = maxResolutions → stop = None → ¬ 1 < maxResolutions) →
    match stop with
    | Some true => gave_up (rl ++ [oi])
    | Some false => ∀ ρ, models cs ρ → contains oi.1 (eval ρ p) = true
    | None => True
    end → searched [oi] rl stop (rl ++ [oi])) as Hadd.
  { intros stop Hl Hstop. exists [oi]. rewrite length_app. cbn [length]. split_and!; [done..| |lia|].
    - by apply Forall_singleton.
    - destruct stop as [[]|]; [done| |].
      + exists oi. split; [by left|done].
      + split; [done|]. intros Hm1. specialize (Hlt Hm1).
        destruct (Z.eq_dec (Z.of_nat (length rl) + 1) maxResolutions) as [Heq|]; [by destruct (Hl Heq)|lia]. }
  case_step; unbool.
  - apply runs_bind. eapply runs_mono; [by apply (ask_must _ x s1 Hx)|].
    intros [[]|] s2 [Hs2 Hmust]; apply runs_ret; (split; [done|]); apply Hadd; try done; [lia|by left].
  - case_step; unbool; apply runs_ret; (split; [done|]); apply Hadd; try done.
    right. right. rewrite length_app. cbn. lia.
Qed.

Lemma resolve_backwards_ok l rl s :
  l ⊆ all → StronglySorted (flip precedes) l → room l rl → Inv s →
  runs (resolve_backwards impl cs p timed_out maxResolutions l rl) s (λ '(stop, rl') s',
    Inv s' ∧ searched l rl stop rl').
Proof.
  intros Hin Hl. revert rl s. induction Hl as [|oi l _ IH Hoi]; intros rl s Hroom Hs; cbn [resolve_backwards].
  { apply runs_ret. split; [done|]. apply searched_none; [done|]. by intros ? ?%elem_of_nil. }
  assert (oi ∈ all ∧ l ⊆ all) as [Ho Hin'] by set_solver.
  apply runs_bind. eapply runs_mono; [by apply Htime|]. intros [] s1 [Hs1 Hlate].
  { apply runs_ret. split; [done|]. apply searched_none; [done|]. right; left. auto. }
  apply runs_bind. eapply runs_mono; [by apply (resolve_object_ok oi l)|].
  intros [[b|] rl1] s2 [Hs2 Hone]; [apply runs_ret; split; [done|by apply (searched_stop [oi])]|].
  pose proof (room_next _ _ _ _ Hone Hroom) as Hroom1.
  apply (ask_base Uge (λ v, address oi.1 <=? v)); [done..|]. intros y Hy.
  apply runs_bind. eapply runs_mono; [by apply (ask_must _ y s2 Hy)|].
  intros [[]|] s3 [Hs3 Hge].
  - apply runs_ret. split; [done|]. eapply (searched_app [oi]); [done|]. apply searched_none; [done|].
    exact (none_before oi l Hge Hoi).
  - eapply runs_mono; [by apply IH|]. intros [stop rl2] s4 [? Hr]. split; [done|]. by eapply (searched_app [oi]).
  - apply runs_ret. split; [done|]. eapply (searched_app [oi]); [done|]. apply searched_none; [done|]. by left.
Qed.

Lemma resolve_forwards_ok l rl s :
  l ⊆ all → StronglySorted precedes l → room l rl → Inv s →
  runs (resolve_forwards impl cs p timed_out maxResolutions l rl) s (λ '(b, rl') s',
    Inv s' ∧ ∃ stop, searched l rl stop rl' ∧ b = default false stop).
Proof.
  intros Hin Hl. revert rl s. induction Hl as [|oi l _ IH Hoi]; intros rl s Hroom Hs; cbn [resolve_forwards].
  { apply runs_ret. split; [done|]. exists None. split; [|done]. apply searched_none; [done|]. by intros ? ?%elem_of_nil. }
  assert (oi ∈ all ∧ l ⊆ all) as [Ho Hin'] by set_solver.
  apply runs_bind. eapply runs_mono; [by apply Htime|]. intros [] s1 [Hs1 Hlate].
  { apply runs_ret. split; [done|]. exists (Some true). split; [|done]. apply searched_none; [done|]. right; left. auto. }
  apply (ask_base Ult (λ v, v <? address oi.1)); [done..|]. intros y Hy.
  apply runs_bind. eapply runs_mono; [by apply (ask_must _ y s1 Hy)|].
  intros [[]|] s2 [Hs2 Hlt].
  - apply runs_ret. split; [done|]. exists None. split; [|done]. apply searched_none; [done|].
    exact (none_after oi l Hlt Hoi).
  - apply runs_bind. eapply runs_mono; [by apply (resolve_object_ok oi l)|].
    intros [[b|] rl1] s3 [Hs3 Hone].
    { apply runs_ret. split; [done|]. exists (Some b). split; [by apply (searched_stop [oi])|done]. }
    pose proof (room_next _ _ _ _ Hone Hroom) as Hroom1.
    eapply runs_mono; [by apply IH|]. intros [b rl2] s4 (? & stop & Hr & ->). split; [done|].
    exists stop. split; [by eapply (searched_app [oi])|done].
  - apply runs_ret. split; [done|]. exists (Some true). split; [|done]. apply searched_none; [done|]. by left.
Qed.

(** The result of a whole search, which begins with an empty list *)
Definition resolved (incomplete : bool) (rl : list ObjectPair) : Prop :=
  rl ⊆+ all ∧ Forall (λ x, may_point x.1) rl ∧
  (1 < maxResolutions → Z.of_nat (length rl) ≤ maxResolutions) ∧
  if incomplete then gave_up rl else ∀ x, x ∈ all → may_point x.1 → x ∈ rl.

Lemma searched_all l stop rl :
  searched l [] stop rl → l ≡ₚ all → resolved (default false stop) rl.
Proof.
  intros (new & -> & Hsub & Hmay & Hlen & Hstop) Hl. cbn [app] in *. rewrite Hl in Hsub.
  split_and!; try done. destruct stop as [[]|]; cbn; [done| |].
  - intros y Hy (ρ & Hρ & Hc). destruct Hstop as (x & Hx & Hall'). replace y with x; [done|].
    apply (contains_unique all x y (eval ρ p)); auto. by eapply elem_of_submseteq.
  - intros y Hy Hm. apply Hstop; [by rewrite Hl|done].
Qed.

Lemma resolve_constant_ok c s :
  p = Constant c → Inv s →
  runs (r ← lift (resolveOne_const all c); mret (false, match r with Some res => [] ++ [res] | None => [] end)) s
    (λ '(incomplete, rl) s', Inv s' ∧ resolved incomplete rl).
Proof.
  intros Heq Hs. destruct Hp as (_ & [ρ Hρ] & Hwf & _). cbn in Hwf. rewrite Heq in Hwf, Hpw. cbn in Hpw.
  apply runs_bind, runs_lift. eapply yields_mono; [apply resolveOne_const_ok; [done|lia]|].
  assert (∀ x, may_point x ↔ contains x (cvalue c) = true) as Hiff.
  { intros x. unfold may_point. rewrite Heq. cbn. naive_solver. }
  intros [x|] Hr; apply runs_ret; (split; [done|]); split_and!;
    try (cbn; lia); try apply submseteq_nil_l; try done.
  - apply singleton_submseteq_l, Hr.
  - apply Forall_singleton, Hiff, Hr.
  - intros y Hy Hm%Hiff. apply list_elem_of_singleton. destruct Hr.
    by apply (contains_unique all y x (cvalue c)).
  - intros y Hy Hm%Hiff. by rewrite Hr in Hm.
Qed.

Context (Hlen : Z.of_nat (length all) < 2 ^ 32).

Lemma resolve_ok s :
  Inv s → runs (resolve impl cs p timed_out maxResolutions all []) s (λ '(incomplete, rl) s',
    Inv s' ∧ resolved incomplete rl).
Proof.
  intros Hs. unfold resolve. pose proof resolve_constant_ok as Hconst. pose proof (ts_getValue_ok cs p Hp) as Hval.
  assert (∀ cex s, cwidth cex = getWidth p ∧ may_be (mkQuery cs p) (cvalue cex) → Inv s →
    runs (example ← lift (getZExtValue cex 64);
      '(stop, rl) ← resolve_backwards impl cs p timed_out maxResolutions (reverse (list_upto (hack example) all)) [];
      match stop with
      | Some b => mret (b, rl)
      | None => resolve_forwards impl cs p timed_out maxResolutions (list_after (hack example) all) rl
      end) s (λ '(incomplete, rl) s', Inv s' ∧ resolved incomplete rl)) as Hsym.
  { clear s Hs. intros cex s [Hw Hmay] Hs. apply runs_bind, runs_lift.
    rewrite getZExtValue_spec by (destruct (example_ok cex Hw Hmay); tauto). apply yields_done.
    set (a := cvalue cex). destruct (upto_sorted a) as [Hu Hus], (after_sorted a) as [Ha Has].
    pose proof (upto_after_perm a all) as Hperm. pose proof (Permutation_length Hperm) as Hn. rewrite length_app in Hn.
    apply runs_bind. eapply runs_mono; [apply resolve_backwards_ok; [done..| |done]; split; cbn [length]; lia|].
    intros [[b|] rl] s1 [Hs1 Hb].
    - apply runs_ret. split; [done|]. eapply (searched_all _ (Some b)); [by apply searched_stop|done].
    - assert (room (list_after (hack a) all) rl).
      { destruct Hb as (new & -> & Hsub%submseteq_length & _ & _ & _ & ?). split; [cbn [app]; lia|done]. }
      eapply runs_mono; [by apply resolve_forwards_ok|]. intros [b rl'] s2 (Hs2 & stop & Hf & ->).
      split; [done|]. eapply searched_all; [by eapply searched_app|done]. }
  destruct p; [by apply Hconst|..]; apply runs_bind; (eapply runs_mono; [by apply Hval|]);
    intros [cex|] s1 [Hs1 Hc]; try (by apply Hsym); apply runs_ret; (split; [done|]);
    (split_and!; [apply submseteq_nil_l|done|cbn; lia|by left]).
Qed.
End resolution_proofs.

(** ** The limit of one object *)

Section limit.
Context `{APIntOps} `{ArrayStore} `{ObjectIdentity} `{Options} `{Context}.
Context {S : Type} (impl : SolverImpl S) (cs : list Expr) (p : Expr) (timed_out : M S bool).

Lemma bind_ext {A B} (m : M S A) (f g : A → M S B) s :
  (∀ a s', m s = Done (a, s') → f a s' = g a s') → (m ≫= f) s = (m ≫= g) s.
Proof. intros Hfg. unfold mbind, M_bind. destruct (m s) as [[a s']| |]; cbn; auto. Qed.

(** The list grows by at most the object. *)
Lemma resolve_object_length max oi rl s stop rl' s' :
  resolve_object impl cs p max oi rl s = Done (stop, rl', s') → (length rl' ≤ length rl + 1)%nat.
Proof.
  unfold resolve_object, mbind, M_bind, lift.
  destruct (getBoundsCheckPointer oi.1 p); cbn -[u32]; try done.
  destruct (ts_mayBeTrue impl cs _ s) as [[[[]|] s1]| |]; cbn -[u32]; try done; [|intros [= <- <- <-]; lia..].
  case_match; [|case_match; intros [= <- <- <-]; rewrite length_app; cbn; lia].
  destruct (ts_mustBeTrue impl cs _ s1) as [[? ?]| |]; cbn; try done. intros [= <- <- <-]. rewrite length_app. cbn. lia.
Qed.

Lemma resolve_object_limit oi rl s :
  Z.of_nat (length rl) + 1 < 2 ^ 32 →
  resolve_object impl cs p 1 oi rl s = resolve_object impl cs p 0 oi rl s.
Proof.
  intros Hlen. unfold resolve_object. apply bind_ext. intros x s1 _. apply bind_ext. intros [[]|] s2 _; try done.
  cbv zeta. rewrite length_app. cbn [length]. unfold u32. rewrite Z.mod_small by lia.
  case_match; [done|]. unbool. rewrite (proj2 (Z.eqb_neq _ 0)) by lia. done.
Qed.

Lemma bind_object_limit {A} oi rl (f g : option bool * list ObjectPair → M S A) s :
  Z.of_nat (length rl) + 1 < 2 ^ 32 →
  (∀ stop rl' s', (length rl' ≤ length rl + 1)%nat → f (stop, rl') s' = g (stop, rl') s') →
  (resolve_object impl cs p 1 oi rl ≫= f) s = (resolve_object impl cs p 0 oi rl ≫= g) s.
Proof.
  intros Hlen Hfg. transitivity ((resolve_object impl cs p 0 oi rl ≫= f) s).
  - unfold mbind, M_bind. by rewrite resolve_object_limit.
  - apply bind_ext. intros [stop rl'] s' E. eapply Hfg, resolve_object_length, E.
Qed.

Lemma resolve_forwards_limit l rl s :
  Z.of_nat (length rl + length l) < 2 ^ 32 →
  resolve_forwards impl cs p timed_out 1 l rl s = resolve_forwards impl cs p timed_out 0 l rl s.
Proof.
  revert rl s. induction l as [|oi l IH]; intros rl s Hlen; [done|]. cbn [resolve_forwards length] in *.
  apply bind_ext. intros [] s1 _; [done|]. do 3 (apply bind_ext; intros ? ? _). repeat case_match; try done.
  apply bind_object_limit; [lia|]. intros [?|] rl' ? Hl; [done|]. apply IH. lia.
Qed.

Lemma resolve_backwards_limit l rl s :
  Z.of_nat (length rl + length l) < 2 ^ 32 →
  resolve_backwards impl cs p timed_out 1 l rl s = resolve_backwards impl cs p timed_out 0 l rl s.
Proof.
  revert rl s. induction l as [|oi l IH]; intros rl s Hlen; [done|]. cbn [resolve_backwards length] in *.
  apply bind_ext. intros [] s1 _; [done|]. apply bind_object_limit; [lia|]. intros [?|] rl' ? Hl; [done|].
  do 3 (apply bind_ext; intros ? ? _). repeat case_match; try done. apply IH. lia.
Qed.

Lemma bind_returns {A B} (m : M S A) (f : A → M S B) s r :
  (m ≫= f) s = Done r → ∃ a s', m s = Done (a, s') ∧ f a s' = Done r.
Proof. unfold mbind, M_bind. destruct (m s) as [[a s']| |]; cbn; [eauto|done..]. Qed.

Lemma resolve_backwards_length max l rl s stop rl' s' :
  resolve_backwards impl cs p timed_out max l rl s = Done (stop, rl', s') →
  (length rl' ≤ length rl + length l)%nat.
Proof.
  revert rl s. induction l as [|oi l IH]; intros rl s; cbn [resolve_backwards length]; [intros [= <- <- <-]; lia|].
  intros ([] & s1 & _ & Hr)%bind_returns; [injection Hr as <- <- <-; lia|].
  apply bind_returns in Hr as ([[b|] rl1] & s2 & Hl%resolve_object_length & Hr); [injection Hr as <- <- <-; lia|].
  do 3 apply bind_returns in Hr as (? & ? & _ & Hr). repeat case_match; try (injection Hr as <- <- <-; lia).
  apply IH in Hr. lia.
Qed.

(** A limit of one object has no effect: whatever the solver answers, [resolve] with
    [maxResolutions = 1] does what it does without a limit, and can return any number of
    objects. *)
Theorem resolve_limit_one objects s :
  Z.of_nat (length objects) < 2 ^ 32 →
  resolve impl cs p timed_out 1 objects [] s = resolve impl cs p timed_out 0 objects [] s.
Proof.
  intros Hlen. assert (∀ cex s,
    (example ← lift (getZExtValue cex 64);
     '(stop, rl) ← resolve_backwards impl cs p timed_out 1 (reverse (list_upto (hack example) objects)) [];
     match stop with
     | Some b => mret (b, rl)
     | None => resolve_forwards impl cs p timed_out 1 (list_after (hack example) objects) rl
     end) s =
    (example ← lift (getZExtValue cex 64);
     '(stop, rl) ← resolve_backwards impl cs p timed_out 0 (reverse (list_upto (hack example) objects)) [];
     match stop with
     | Some b => mret (b, rl)
     | None => resolve_forwards impl cs p timed_out 0 (list_after (hack example) objects) rl
     end) s) as Hsearch.
  { intros cex s0. apply bind_ext. intros example s1 _.
    pose proof (Permutation_length (upto_after_perm example objects)) as Hn. rewrite length_app in Hn.
    set (l := reverse _) in *. unfold mbind, M_bind. rewrite resolve_backwards_limit by (cbn; lia).
    destruct (resolve_backwards _ _ _ _ 0 l [] s1) as [[[[b|] rl] s2]| |] eqn:E; cbn; [done| |done..].
    apply resolve_backwards_length in E. cbn in E. apply resolve_forwards_limit. lia. }
  unfold resolve. destruct p; [done|..]; (apply bind_ext; intros [cex|] s1 _; [apply Hsearch|done]).
Qed.
End limit.

(** ** Properties *)

Section properties.
Context `{APIntLaws} `{WfStore} `{ObjectIdentity} `{Options} `{QueryClass} `{Context}.

(** C18: resolution to one object.  For objects that do not overlap, pointers of 2 to 64
    bits and a satisfiable path condition, [resolveOne] terminates.  It returns [false]
    only if the solver failed, and then assigns nothing.  Otherwise it returns [true]:
    with [success] set and an object that the pointer can point into, or with [success]
    unset when no model of the constraints has the pointer in any object.  In the latter
    case the comment in [AddressSpace.h], by which it returns [true] iff an object was
    found, does not hold. *)
Theorem resolveOne_correct {S} fail (impl : SolverImpl S) Inv cs p objects s :
  sound fail impl Inv → (ConstArrayOpt = true → in_range_only = true) → 1 < getPointerWidth ≤ 64 →
  wf_value_query (mkQuery cs p) → getWidth p = getPointerWidth → objects_ok objects → Inv s →
  runs (resolveOne impl cs p objects) s (λ r s', Inv s' ∧
    match r with
    | mkOneResult false success result => fail ∧ success = None ∧ result = None
    | mkOneResult true success None => success = Some false ∧ ∀ x, x ∈ objects → ¬ may_point cs p x.1
    | mkOneResult true success (Some oi) => success = Some true ∧ oi ∈ objects ∧ may_point cs p oi.1
    end).
Proof. intros. by apply resolveOne_ok. Qed.

(** C17: resolution to all objects.  The objects that [resolve] lists can all be pointed
    into and are listed once, and there are at most [maxResolutions] of them if the
    limit is above one.  If it reports that the list is complete, then every object that
    the pointer can point into is in it; it reports the contrary only if the solver
    failed, the time was up, or the limit was reached. *)
Theorem resolve_correct {S} fail late (impl : SolverImpl S) Inv timed_out maxResolutions cs p objects s :
  sound fail impl Inv → (ConstArrayOpt = true → in_range_only = true) → 1 < getPointerWidth ≤ 64 →
  wf_value_query (mkQuery cs p) → getWidth p = getPointerWidth → objects_ok objects →
  (∀ s, Inv s → runs timed_out s (λ b s', Inv s' ∧ (b = true → late))) →
  0 ≤ maxResolutions < 2 ^ 32 → Z.of_nat (length objects) < 2 ^ 32 → Inv s →
  runs (resolve impl cs p timed_out maxResolutions objects []) s (λ '(incomplete, rl) s',
    Inv s' ∧ rl ⊆+ objects ∧ Forall (λ x, may_point cs p x.1) rl ∧
    (1 < maxResolutions → Z.of_nat (length rl) ≤ maxResolutions) ∧
    if (incomplete : bool)
    then fail ∨ late ∨ (1 < maxResolutions ∧ Z.of_nat (length rl) = maxResolutions)
    else ∀ x, x ∈ objects → may_point cs p x.1 → x ∈ rl).
Proof. intros. by apply (resolve_ok fail impl Inv) with (late := late). Qed.
End properties.

Section witnesses.
#[local] Existing Instance Sample.store.
#[local] Existing Instance Sample.store_wf.
#[local] Existing Instance identity.
#[local] Instance opt_on : Options := const_array_opt true.
#[local] Instance in_range : QueryClass := {| in_range_only := true; computable_only := false; buildable_only := false |}.
#[local] Instance target32 : Context := {| isLittleEndian := true; getPointerWidth := 32 |}.
Import Sample.

(** A pointer to one of 256 bytes, of which the first eight are two objects *)
Definition sample_pointer : Expr := Binary Add (const 0x1000 32) (ZExt (input 0) 32).
Definition sample_objects : list ObjectPair :=
  [(mkMemoryObject 0x1000 4 false false, 1%positive); (mkMemoryObject 0x1004 4 false false, 2%positive)].

Lemma sample_objects_ok : objects_ok sample_objects.
Proof.
  split; [|repeat constructor; done].
  intros x [->|[->|[]%elem_of_nil]%elem_of_cons]%elem_of_cons; done.
Qed.

Lemma sample_pointer_ok : wf_value_query (mkQuery [] sample_pointer).
Proof.
  split_and!; [by constructor|exists (λ _ _, 0); split; [done|by intros c ?%elem_of_nil]|repeat constructor; done|].
  repeat constructor; done.
Qed.

Lemma resolveOne_correct_witness :
  runs (resolveOne reference_solver [] sample_pointer sample_objects) tt (λ r s', True ∧
    match r with
    | mkOneResult false success result => False ∧ success = None ∧ result = None
    | mkOneResult true success None =>
        success = Some false ∧ ∀ x, x ∈ sample_objects → ¬ may_point [] sample_pointer x.1
    | mkOneResult true success (Some oi) =>
        success = Some true ∧ oi ∈ sample_objects ∧ may_point [] sample_pointer oi.1
    end).
Proof.
  exact (resolveOne_correct False reference_solver (λ _, True) [] sample_pointer sample_objects tt
    reference_solver_sound (λ _, eq_refl) ltac:(done) sample_pointer_ok eq_refl sample_objects_ok I).
Defined.

Lemma resolve_correct_witness :
  runs (resolve reference_solver [] sample_pointer (mret false) 0 sample_objects []) tt (λ '(incomplete, rl) s',
    True ∧ rl ⊆+ sample_objects ∧ Forall (λ x, may_point [] sample_pointer x.1) rl ∧
    (1 < 0 → Z.of_nat (length rl) ≤ 0) ∧
    if (incomplete : bool) then False ∨ False ∨ (1 < 0 ∧ Z.of_nat (length rl) = 0)
    else ∀ x, x ∈ sample_objects → may_point [] sample_pointer x.1 → x ∈ rl).
Proof.
  refine (resolve_correct False False reference_solver (λ _, True) (mret false) 0 [] sample_pointer sample_objects tt
    reference_solver_sound (λ _, eq_refl) _ sample_pointer_ok eq_refl sample_objects_ok _ _ _ I); try done.
Defined.

(** With a limit of one object, two are returned, for a solver that finds no query valid
    and gives pointers the value of the first address. *)
Definition doubtful_solver : SolverImpl unit := {|
  computeTruth _ := mret (Some false);
  computeValidity _ := mret (Some VUnknown);
  computeValue _ := mret (Some (const 0x1000 32));
  computeInitialValues _ _ := mret None;
|}.

Lemma resolve_limit_one_witness :
  resolve doubtful_solver [] sample_pointer (mret false) 0 sample_objects [] tt = Done (false, sample_objects, tt) ∧
  resolve doubtful_solver [] sample_pointer (mret false) 1 sample_objects [] tt = Done (false, sample_objects, tt).
Proof.
  assert (resolve doubtful_solver [] sample_pointer (mret false) 0 sample_objects [] tt =
    Done (false, sample_objects, tt)) as E by (vm_compute; reflexivity).
  split; [exact E|]. rewrite <- E.
  exact (resolve_limit_one doubtful_solver [] sample_pointer (mret false) sample_objects tt ltac:(done)).
Defined.

(** C37: the fast path takes an access for in bounds that is not.  The pointer is the
    base of an object of four bytes plus a byte of the input; [resolveOneFast] compares
    the size with the wrong end of the range of offsets and reports that the access is
    in bounds, and there is an input for which it is outside of the object. *)
Theorem resolveOneFast_out_of_bounds :
  (resolveOneFast 0 sample_objects sample_pointer 8 new_simplifier).1 =
    Done (Some ((mkMemoryObject 0x1000 4 false false, 1%positive), true)) ∧
  ∃ ρ, wf_assignment ρ ∧ contains (mkMemoryObject 0x1000 4 false false) (eval ρ sample_pointer) = false.
Proof. split; [vm_compute; reflexivity|]. exists (λ _ _, 200). by split; [|vm_compute]. Qed.
End witnesses.
