(* ===== verification/CopyOnWrite.v ===== *)
(** * Address spaces share their objects and stay apart

    Object states are shared by the address spaces of states that forked from each other,
    and are copied when one of them writes.  The theorem is that no state sees it: each
    address space is a list of objects with their bytes. *)

From stdpp Require Import prelude gmap strings sorting.
From S2P Require Import Prelude Bitvec Bits APInt ExprData ExprConstants ExprCasts ExprBinary.
From S2P Require Import ExprEval ExprBinaryProofs ExprSelectRead BitArray ObjectState ObjectStateProofs SearchTree AddressSpace.

(** ** Specification *)

(** An object of an address space: whether it is read-only, and its bytes *)
Abbreviation Object := (MemoryObject * (bool * list Z))%type.

#[export] Instance Object_key : KeyOfValue MemoryObject Object := {| key_of_value := fst |}.

Abbreviation AbstractSpaces := (gmap positive (list Object)).

Definition byte_at (bs : list Z) (i : nat) : Z := default 0 (bs !! i).

Section specification.
Context `{ArrayStore}.

(** The bytes of an object state under an assignment *)
Definition bytes_in (ρ : assignment) (os : ObjectState) : list Z :=
  content ρ (view_of os) <$> seq 0 (Z.to_nat (os_size os)).

Definition stored (ρ : assignment) (offset value : Expr) (bs : list Z) : list Z :=
  store_bytes (position ρ offset) (eval ρ value) (width_bytes (getWidth value)) (byte_at bs) <$> seq 0 (length bs).

Definition loaded_at (ρ : assignment) (offset : Expr) (width : Z) (bs : list Z) : option Z :=
  let k := width_bytes width in
  if position ρ offset + Z.of_nat k <=? Z.of_nat (length bs)
  then Some (loaded_value width (byte_at bs <$> seq (Z.to_nat (position ρ offset)) k)) else None.

(** The effect of an operation: each one changes one address space. *)
Definition spec_op (ρ : assignment) (op : SpaceOp) (A : AbstractSpaces) : AbstractSpaces :=
  match op with
  | SBind a os => alter (list_replace (object os, (readOnly os, bytes_in ρ os))) a A
  | SUnbind a mo => alter (list_remove mo) a A
  | SClone a b _ => match A !! b with Some l => <[a := l]> A | None => A end
  | SRead _ _ _ _ => A
  | SWrite a mo offset value =>
      alter (λ l, match list_find mo l with
        | Some (mo, (ro, bs)) => list_replace (mo, (ro, stored ρ offset value bs)) l
        | None => l
        end) a A
  end.

(** What it returns; a read that is out of bounds has no value. *)
Definition spec_values (ρ : assignment) (op : SpaceOp) (A : AbstractSpaces) : list (option Z) :=
  match op with
  | SRead a mo offset width =>
      [l ← A !! a; o ← list_find mo l; loaded_at ρ offset width (o.2).2]
  | _ => []
  end.

Fixpoint spec_run (ρ : assignment) (ops : list SpaceOp) (A : AbstractSpaces) :
    list (option Z) * AbstractSpaces :=
  match ops with
  | [] => ([], A)
  | op :: ops =>
      let '(vs, A') := spec_run ρ ops (spec_op ρ op A) in (spec_values ρ op A ++ vs, A')
  end.
End specification.

(** ** Lists of pairs, through a map that keeps the keys *)

#[export] Instance MemoryObjectLT_laws : KeyCompareLaws MemoryObject.
Proof.
  split; cbn.
  - intros a. apply Z.ltb_irrefl.
  - intros a b c ?%Z.ltb_lt ?%Z.ltb_lt. apply Z.ltb_lt. lia.
  - intros a b c ?%Z.ltb_lt. rewrite !Z.ltb_lt. lia.
Qed.

Section mapped.
Context (f : positive → bool * list Z).

#[local] Abbreviation g := (λ x : ObjectPair, (x.1, f x.2) : Object).

Lemma map_list_replace mo q l : g <$> list_replace (mo, q) l = list_replace (mo, f q) (g <$> l).
Proof. induction l as [|x l IH]; [done|]. cbn. unfold vlt. cbn. repeat case_match; cbn; by rewrite ?IH. Qed.

Lemma map_list_remove k l : g <$> list_remove k l = list_remove k (g <$> l).
Proof. induction l as [|x l IH]; [done|]. cbn. unfold above, below. cbn. repeat case_match; cbn; by rewrite ?IH. Qed.

Lemma map_list_find k l : list_find k (g <$> l) = g <$> list_find k l.
Proof. unfold list_find. induction l as [|x l IH]; [done|]. cbn. unfold same_key, above, below. cbn. by case_match. Qed.
End mapped.

#[local] Abbreviation in_order := (StronglySorted (λ x y : ObjectPair, vlt x y = true)).

(** The pair that is found, and what replacing it does *)
Lemma list_find_elem mo q (l : list ObjectPair) : list_find mo l = Some (mo, q) → (mo, q) ∈ l.
Proof. intros [Hin _]%List.find_some. by apply list_elem_of_In. Qed.

Lemma replace_found (f f' : positive → bool * list Z) mo q (l : list ObjectPair) :
  in_order l → (mo, q) ∈ l → (∀ x, x ∈ l → x ≠ (mo, q) → f' x.2 = f x.2) →
  (λ x, (x.1, f' x.2) : Object) <$> l = list_replace (mo, f' q) ((λ x, (x.1, f x.2) : Object) <$> l).
Proof.
  intros Hs Hin Hf. apply list_elem_of_split in Hin as (l1 & l2 & ->).
  apply sorted_middle in Hs as (_ & _ & H1 & H2). unfold vlt in *. cbn in *.
  assert (∀ x, x ∈ l1 ++ l2 → f' x.2 = f x.2) as Hf'.
  { intros x Hx. apply Hf; [set_solver|]. intros ->. apply elem_of_app in Hx as [Hx|Hx].
    - specialize (H1 _ Hx). by rewrite Z.ltb_irrefl in H1.
    - specialize (H2 _ Hx). by rewrite Z.ltb_irrefl in H2. }
  rewrite !fmap_app, !fmap_cons. rewrite list_replace_right.
  2:{ intros y (x & -> & Hx)%list_elem_of_fmap. unfold vlt. cbn. by apply H1. }
  cbn. unfold vlt. cbn. rewrite Z.ltb_irrefl.
  f_equal; [|f_equal]; apply list_fmap_ext; intros i x Hx%list_elem_of_lookup_2; rewrite Hf'; set_solver.
Qed.

(** ** The invariant *)

Section invariant.
Context `{ArrayStore}.

(** An object that satisfies the invariants of [ObjectState] and is not mapped to the
    memory of the host *)
Definition object_ok (os : ObjectState) : Prop :=
  let n := Z.to_nat (os_size os) in
  shows n os (view_of os) ∧ coherent n (view_of os) ∧ isSharedConcrete (object os) = false.

(** The object states that an address space refers to are no newer than it is. *)
Record space_ok (h : gmap positive ObjectState) (sp : AddressSpace) : Prop := {
  so_order : in_order (objects sp);
  so_state : is_Some (state sp);
  so_objects x : x ∈ objects sp →
    ∃ os, h !! x.2 = Some os ∧ object os = x.1 ∧ copyOnWriteOwner os ≤ cowKey sp ∧ object_ok os;
}.

(** An object state in two address spaces is older than both: neither of them owns it. *)
Record spaces_ok (h : gmap positive ObjectState) (m : gmap positive AddressSpace) : Prop := {
  ss_space a sp : m !! a = Some sp → space_ok h sp;
  ss_shared a b sp sp' mo mo' q os : a ≠ b → m !! a = Some sp → m !! b = Some sp' →
    (mo, q) ∈ objects sp → (mo', q) ∈ objects sp' → h !! q = Some os → copyOnWriteOwner os < cowKey sp;
}.

(** What the address spaces hold *)
Definition shown (ρ : assignment) (h : gmap positive ObjectState) (q : positive) : bool * list Z :=
  match h !! q with Some os => (readOnly os, bytes_in ρ os) | None => (false, []) end.
Definition held (ρ : assignment) (h : gmap positive ObjectState) (l : list ObjectPair) : list Object :=
  (λ x, (x.1, shown ρ h x.2)) <$> l.
Definition contents (ρ : assignment) (h : gmap positive ObjectState) (m : gmap positive AddressSpace) :
    AbstractSpaces := (λ sp, held ρ h (objects sp)) <$> m.

Lemma held_ext ρ h h' l : (∀ x, x ∈ l → shown ρ h' x.2 = shown ρ h x.2) → held ρ h' l = held ρ h l.
Proof. intros Hs. apply list_fmap_ext. intros i x Hx%list_elem_of_lookup_2. by rewrite Hs. Qed.

Lemma held_replace ρ h mo q l : held ρ h (list_replace (mo, q) l) = list_replace (mo, shown ρ h q) (held ρ h l).
Proof. apply map_list_replace. Qed.

Lemma held_remove ρ h mo l : held ρ h (list_remove mo l) = list_remove mo (held ρ h l).
Proof. apply map_list_remove. Qed.

Lemma held_find ρ h mo l : list_find mo (held ρ h l) = (λ x, (x.1, shown ρ h x.2)) <$> list_find mo l.
Proof. apply map_list_find. Qed.

(** The pair of an object state in an address space *)
Lemma pair_unique h sp mo mo' q : space_ok h sp → (mo, q) ∈ objects sp → (mo', q) ∈ objects sp → mo = mo'.
Proof. intros Hsp (? & ? & ? & _)%(so_objects _ _ Hsp) (? & ? & ? & _)%(so_objects _ _ Hsp). cbn in *. congruence. Qed.

(** *** A change of an object state in place *)

Lemma space_ok_touch h sp q os os' :
  h !! q = Some os → object os' = object os → copyOnWriteOwner os' = copyOnWriteOwner os → object_ok os' →
  space_ok h sp → space_ok (<[q := os']> h) sp.
Proof.
  intros Hq Hob How Hok [Hs Hst Hx]. split; [done..|]. intros x Hin. destruct (Hx x Hin) as (o & Ho & Hox & Hle & Hokx).
  destruct (decide (x.2 = q)) as [<-|Hne]; [|exists o; by rewrite lookup_insert_ne].
  exists os'. rewrite lookup_insert_eq. assert (o = os) as -> by congruence. by rewrite Hob, How.
Qed.

Lemma spaces_ok_touch h m q os os' :
  h !! q = Some os → object os' = object os → copyOnWriteOwner os' = copyOnWriteOwner os → object_ok os' →
  spaces_ok h m → spaces_ok (<[q := os']> h) m.
Proof.
  intros Hq Hob How Hok [Hsp Hsh]. split; [intros; eapply space_ok_touch; eauto|].
  intros a b sp sp' mo mo' q' o Hab Ha Hb Hx Hy Ho. destruct (decide (q' = q)) as [->|Hne].
  - rewrite lookup_insert_eq in Ho. injection Ho as <-. rewrite How. by eapply (Hsh a b).
  - rewrite lookup_insert_ne in Ho by done. by eapply (Hsh a b).
Qed.

(** A reader may touch any object state: the bytes stay. *)
Lemma contents_touch_same ρ h m q os os' :
  h !! q = Some os → readOnly os' = readOnly os → bytes_in ρ os' = bytes_in ρ os →
  contents ρ (<[q := os']> h) m = contents ρ h m.
Proof.
  intros Hq Hro Hby. apply map_fmap_ext. intros a sp _. apply held_ext. intros x _. unfold shown.
  destruct (decide (x.2 = q)) as [->|Hne]; [|by rewrite lookup_insert_ne].
  by rewrite lookup_insert_eq, Hq, Hro, Hby.
Qed.

(** A writer touches one that its address space owns: no other one refers to it. *)
Lemma contents_touch_owned ρ h m a sp mo q os os' :
  spaces_ok h m → m !! a = Some sp → (mo, q) ∈ objects sp → h !! q = Some os →
  copyOnWriteOwner os = cowKey sp →
  contents ρ (<[q := os']> h) m = alter (list_replace (mo, (readOnly os', bytes_in ρ os'))) a (contents ρ h m).
Proof.
  intros [Hok Hsh] Ha Hin Hq How. apply map_eq. intros b. unfold contents. rewrite lookup_fmap.
  assert (∀ q', q' ≠ q → shown ρ (<[q := os']> h) q' = shown ρ h q') as Hne
    by (intros; unfold shown; by rewrite lookup_insert_ne).
  destruct (decide (b = a)) as [->|Hba].
  - rewrite lookup_alter_eq, lookup_fmap, Ha. cbn. f_equal.
    replace (readOnly os', bytes_in ρ os') with (shown ρ (<[q := os']> h) q) by (unfold shown; by rewrite lookup_insert_eq).
    apply replace_found; [apply (Hok a), Ha|done|]. intros [mo' q'] Hx Hneq. cbn. apply Hne. intros ->.
    apply Hneq. f_equal. by eapply pair_unique; [apply (Hok a), Ha|..].
  - rewrite lookup_alter_ne, lookup_fmap by done. destruct (m !! b) as [sp'|] eqn:Hb; [|done]. cbn. f_equal.
    apply held_ext. intros [mo' q'] Hx. apply Hne. cbn. intros ->.
    pose proof (Hsh a b sp sp' mo mo' q os ltac:(done) Ha Hb Hin Hx Hq). lia.
Qed.

(** *** A new object state *)

Lemma space_ok_fresh h sp q os : h !! q = None → space_ok h sp → space_ok (<[q := os]> h) sp ∧ ∀ mo, (mo, q) ∉ objects sp.
Proof.
  intros Hq [Hs Hst Hx]. split.
  - split; [done..|]. intros x Hin. destruct (Hx x Hin) as (o & Ho & ?). exists o.
    rewrite lookup_insert_ne by congruence. done.
  - intros mo (o & Ho & _)%Hx. cbn in Ho. congruence.
Qed.

Definition with_object (sp : AddressSpace) (mo : MemoryObject) (q : positive) : AddressSpace :=
  mkSpace (cowKey sp) (list_replace (mo, q) (objects sp)) (state sp).

Lemma spaces_ok_add h m a sp q os :
  spaces_ok h m → m !! a = Some sp → h !! q = None → object_ok os → copyOnWriteOwner os = cowKey sp →
  spaces_ok (<[q := os]> h) (<[a := with_object sp (object os) q]> m).
Proof.
  intros [Hok Hsh] Ha Hq Hos How.
  assert (∀ b sp', m !! b = Some sp' → ∀ mo, (mo, q) ∉ objects sp') as Hnew
    by (intros b sp' Hb; eapply (space_ok_fresh h sp' q os), (Hok b); done).
  split.
  - intros b sp' [[<- <-]|[_ Hb]]%lookup_insert_Some; [|by apply space_ok_fresh; [|apply (Hok b)]].
    destruct (proj1 (space_ok_fresh h sp q os Hq (Hok a sp Ha))) as [Hs Hst Hx].
    split; [by apply sorted_list_replace|done|]. intros x [->|Hin]%elem_of_list_replace; [|auto].
    exists os. rewrite lookup_insert_eq. split_and!; [done..|cbn; lia|done].
  - intros b c sp1 sp2 mo mo' q' o Hbc Hb Hc Hx Hy Ho.
    assert (∀ b sp1 mo, <[a := with_object sp (object os) q]> m !! b = Some sp1 → (mo, q') ∈ objects sp1 →
      (q' = q ∧ b = a) ∨ (q' ≠ q ∧ ∃ sp0, m !! b = Some sp0 ∧ (mo, q') ∈ objects sp0 ∧ cowKey sp1 = cowKey sp0)) as Hold.
    { intros b' sp' mo1 [[<- <-]|[_ Hb']]%lookup_insert_Some Hin.
      - apply elem_of_list_replace in Hin as [[= -> ->]|Hin]; [by left|]. right.
        split; [intros ->; by eapply Hnew|]. by exists sp.
      - right. split; [intros ->; by eapply Hnew|]. by exists sp'. }
    destruct (Hold b sp1 mo Hb Hx) as [[-> ->]|(Hne & sp1' & Hb' & Hx' & ->)];
      destruct (Hold c sp2 mo' Hc Hy) as [[? ->]|(Hne' & sp2' & Hc' & Hy' & _)]; try done.
    rewrite lookup_insert_ne in Ho by done. by eapply (Hsh b c).
Qed.

Lemma contents_add ρ h m a sp q os :
  spaces_ok h m → m !! a = Some sp → h !! q = None →
  contents ρ (<[q := os]> h) (<[a := with_object sp (object os) q]> m) =
    alter (list_replace (object os, (readOnly os, bytes_in ρ os))) a (contents ρ h m).
Proof.
  intros [Hok _] Ha Hq.
  assert (∀ b sp', m !! b = Some sp' → held ρ (<[q := os]> h) (objects sp') = held ρ h (objects sp')) as Hheld.
  { intros b sp' Hb. apply held_ext. intros x (o & Ho & _)%(so_objects _ _ (Hok b sp' Hb)). unfold shown.
    by rewrite lookup_insert_ne by congruence. }
  apply map_eq. intros b. unfold contents. rewrite lookup_fmap. destruct (decide (b = a)) as [->|Hba].
  - rewrite lookup_insert_eq, lookup_alter_eq, lookup_fmap, Ha. cbn [fmap option_fmap option_map]. f_equal.
    unfold with_object. cbn [objects]. rewrite held_replace, (Hheld a) by done. unfold shown at 1. by rewrite lookup_insert_eq.
  - rewrite lookup_insert_ne, lookup_alter_ne, lookup_fmap by done. destruct (m !! b) eqn:Hb; [|done]. cbn. by rewrite (Hheld b).
Qed.

(** *** Removal of an object, and copies of address spaces *)

Lemma spaces_ok_remove h m a sp mo :
  spaces_ok h m → m !! a = Some sp →
  spaces_ok h (<[a := mkSpace (cowKey sp) (list_remove mo (objects sp)) (state sp)]> m).
Proof.
  intros [Hok Hsh] Ha. split.
  - intros b sp' [[<- <-]|[_ Hb]]%lookup_insert_Some; [|by apply (Hok b)]. destruct (Hok a sp Ha).
    split; [by apply sorted_list_remove|done|]. intros x Hx%elem_of_list_remove. auto.
  - assert (∀ b sp1, <[a := mkSpace (cowKey sp) (list_remove mo (objects sp)) (state sp)]> m !! b = Some sp1 →
      ∃ sp0, m !! b = Some sp0 ∧ objects sp1 ⊆ objects sp0 ∧ cowKey sp1 = cowKey sp0) as Hold.
    { intros b sp1 [[<- <-]|[_ Hb]]%lookup_insert_Some; [exists sp|by exists sp1]. split_and!; try done.
      intros x. apply elem_of_list_remove. }
    intros b c sp1 sp2 mo1 mo2 q o Hbc (? & ? & ? & ->)%Hold (? & ? & ? & _)%Hold Hx Hy Ho.
    eapply (Hsh b c); eauto.
Qed.

Lemma contents_remove ρ h m a sp mo :
  m !! a = Some sp →
  contents ρ h (<[a := mkSpace (cowKey sp) (list_remove mo (objects sp)) (state sp)]> m) =
    alter (list_remove mo) a (contents ρ h m).
Proof.
  intros Ha. apply map_eq. intros b. unfold contents. rewrite lookup_fmap. destruct (decide (b = a)) as [->|Hba].
  - rewrite lookup_insert_eq, lookup_alter_eq, lookup_fmap, Ha. cbn [fmap option_fmap option_map objects]. by rewrite held_remove.
  - by rewrite lookup_insert_ne, lookup_alter_ne, lookup_fmap by done.
Qed.

(** The address spaces after [clone_state] *)
Definition cloned (a b st : positive) (sp : AddressSpace) (m : gmap positive AddressSpace) :
    gmap positive AddressSpace :=
  <[a := mkSpace (cowKey sp + 1) (objects sp) (Some st)]>
    (<[b := mkSpace (cowKey sp + 1) (objects sp) (state sp)]> m).

Lemma spaces_ok_clone h m a b st sp :
  spaces_ok h m → m !! b = Some sp → m !! a = None → spaces_ok h (cloned a b st sp m).
Proof.
  intros [Hok Hsh] Hb Ha.
  assert (∀ c sp1, cloned a b st sp m !! c = Some sp1 → ∃ d sp0, m !! d = Some sp0 ∧ objects sp1 = objects sp0 ∧
    is_Some (state sp1) ∧ (c ≠ d → c = a ∧ d = b) ∧ cowKey sp1 = cowKey sp0 + if decide (d = b) then 1 else 0) as Hold.
  { unfold cloned. intros c sp1 [[<- <-]|[? [[<- <-]|[? Hc]]%lookup_insert_Some]]%lookup_insert_Some.
    - exists b, sp. rewrite decide_True by done. by split_and!.
    - exists b, sp. rewrite decide_True by done. split_and!; try done. apply (Hok b sp Hb).
    - exists c, sp1. rewrite decide_False by done. split_and!; try done; [apply (Hok c sp1 Hc)|lia]. }
  split.
  - intros c sp1 (d & sp0 & Hd & Heq & Hst & _ & Hk)%Hold. destruct (Hok d sp0 Hd) as [? _ Hx].
    split; [by rewrite Heq|done|]. rewrite Heq. intros x (o & ? & ? & ? & ?)%Hx. exists o.
    split_and!; try done. rewrite Hk. case_decide; lia.
  - intros c c' sp1 sp2 mo mo' q o Hcc (d & sp0 & Hd & Heq & _ & Hcd & Hk)%Hold (d' & sp0' & Hd' & Heq' & _ & Hcd' & _)%Hold Hx Hy Ho.
    rewrite Heq in Hx. rewrite Heq' in Hy. rewrite Hk. destruct (decide (d = d')) as [<-|Hne].
    + assert (d = b) as -> by (destruct (decide (c = d)), (decide (c' = d)); naive_solver).
      rewrite decide_True by done. destruct (so_objects _ _ (Hok b sp0 Hd) _ Hx) as (o' & Ho' & _ & Hle & _).
      cbn in Ho'. assert (o' = o) as -> by congruence. lia.
    + pose proof (Hsh d d' sp0 sp0' mo mo' q o Hne Hd Hd' Hx Hy Ho). case_decide; lia.
Qed.

Lemma contents_clone ρ h m a b st sp :
  m !! b = Some sp → contents ρ h (cloned a b st sp m) = <[a := held ρ h (objects sp)]> (contents ρ h m).
Proof.
  intros Hb. unfold contents, cloned. rewrite !fmap_insert. cbn [objects]. f_equal. apply insert_id.
  by rewrite lookup_fmap, Hb.
Qed.
End invariant.

(** ** The operations *)

(** A call that returns *)
Lemma runs_step {S A B} (m : M S A) (f : A → M S B) s a s' P :
  m s = Done (a, s') → runs (f a) s' P → runs (m ≫= f) s P.
Proof. intros Hm Hf. apply runs_bind. unfold runs. by rewrite Hm. Qed.

Section operations.
Context `{ArrayStore}.

(** The address spaces keep their invariant; [with_heap] is a state with those objects
    and address spaces. *)
Definition sys_ok (s : Spaces) : Prop := spaces_ok (states s) (spaces s).
Definition view_spaces (ρ : assignment) (s : Spaces) : AbstractSpaces := contents ρ (states s) (spaces s).
Definition is_heap (h : gmap positive ObjectState) (m : gmap positive AddressSpace) (s : Spaces) : Prop :=
  states s = h ∧ spaces s = m.

Lemma object_ok_owner os o : object_ok os → object_ok (set_copyOnWriteOwner o os).
Proof. intros (Hs & Hc & Hsh). split_and!; [destruct Hs|destruct Hc|done]; by split. Qed.

Lemma findObject_eq s a sp mo :
  spaces s !! a = Some sp → findObject a mo s = Done (snd <$> list_find mo (objects sp), s).
Proof. intros Ha. unfold findObject, get_space, mbind, M_bind. by rewrite Ha. Qed.

Lemma bindObject_ok s a sp mo q os :
  spaces s !! a = Some sp → is_Some (state sp) → states s !! q = Some os → copyOnWriteOwner os = 0 →
  runs (bindObject a mo q) s (λ _, is_heap (<[q := set_copyOnWriteOwner (cowKey sp) os]> (states s))
    (<[a := with_object sp mo q]> (spaces s))).
Proof.
  intros Ha [st Hst] Hq How. unfold bindObject.
  eapply runs_step; [unfold get_space; by rewrite Ha|]. eapply runs_step; [by apply findObject_eq|].
  rewrite Hst. destruct (snd <$> list_find mo (objects sp)); (eapply runs_step; [done|]);
    (eapply runs_step; [done|]); (eapply runs_step; [unfold get_state; cbn; by rewrite Hq|]);
    rewrite How; do 2 (eapply runs_step; [done|]); rewrite <- Hst; by split.
Qed.

Lemma unbindObject_ok s a sp mo :
  spaces s !! a = Some sp → is_Some (state sp) →
  runs (unbindObject a mo) s (λ _, is_heap (states s)
    (<[a := mkSpace (cowKey sp) (list_remove mo (objects sp)) (state sp)]> (spaces s))).
Proof.
  intros Ha [st Hst]. unfold unbindObject. eapply runs_step; [unfold get_space; by rewrite Ha|].
  rewrite Hst. eapply runs_step; [done|]. eapply runs_step; [by apply findObject_eq|].
  destruct (snd <$> list_find mo (objects sp)); by (eapply runs_step; [done|]).
Qed.

Lemma clone_state_ok s a b st sp :
  spaces s !! b = Some sp → 0 ≤ cowKey sp < 2 ^ 32 - 1 →
  runs (clone_state a b st) s (λ _, is_heap (states s) (cloned a b st sp (spaces s))).
Proof.
  intros Hb Hk. unfold clone_state, copy_AddressSpace. apply runs_bind.
  eapply runs_step; [unfold get_space; by rewrite Hb|]. rewrite u32_small by lia.
  eapply runs_step; [done|]. apply runs_ret.
  eapply runs_step; [unfold get_space; cbn; by rewrite lookup_insert_eq|]. apply runs_ret.
  split; [done|]. unfold cloned. cbn. by rewrite insert_insert_eq.
Qed.

(** [getWriteable] returns an object state with the same bytes that the address space
    owns. *)
Lemma getWriteable_ok s a sp mo q os :
  sys_ok s → spaces s !! a = Some sp → (mo, q) ∈ objects sp → states s !! q = Some os → readOnly os = false →
  runs (getWriteable a mo q) s (λ q' s', sys_ok s' ∧ sp_host s' = sp_host s ∧ sp_arrays s' = sp_arrays s ∧
    (∀ ρ, view_spaces ρ s' = view_spaces ρ s) ∧
    ∃ sp' os', spaces s' !! a = Some sp' ∧ spaces s' = <[a := sp']> (spaces s) ∧ cowKey sp' = cowKey sp ∧
      (mo, q') ∈ objects sp' ∧ states s' !! q' = Some os' ∧ os' = set_copyOnWriteOwner (cowKey sp) os).
Proof.
  intros Hok Ha Hin Hq Hro. unfold getWriteable.
  pose proof (ss_space _ _ Hok a sp Ha) as Hsp. destruct (so_state _ _ Hsp) as [st Hst].
  destruct (so_objects _ _ Hsp _ Hin) as (os' & Hq' & Hob & Hle & Hos). cbn in Hq', Hob.
  assert (os' = os) as -> by congruence.
  eapply runs_step; [unfold get_space; by rewrite Ha|]. eapply runs_step; [unfold get_state; by rewrite Hq|].
  eapply runs_step; [by rewrite Hro|]. destruct (Z.eqb_spec (cowKey sp) (copyOnWriteOwner os)) as [Heq|Hne].
  { apply runs_ret. split_and!; try done. exists sp, os. rewrite insert_id by done. split_and!; try done.
    rewrite Heq. by destruct os. }
  eapply runs_step; [unfold lift; rewrite (copy_ObjectState_ok _ os (proj1 Hos) Hro); done|].
  set (n := fresh (dom (states s))). set (os' := set_copyOnWriteOwner (cowKey sp) os).
  assert (states s !! n = None) as Hn by (apply not_elem_of_dom, is_fresh).
  eapply runs_step; [done|]. rewrite Hst. eapply runs_step; [done|]. eapply runs_step; [done|]. apply runs_ret.
  unfold sys_ok, view_spaces. cbn -[contents]. rewrite <- Hst, <- Hob.
  change (mkSpace _ _ _) with (with_object sp (object os') n).
  change (set_copyOnWriteOwner _ _) with os'. fold n.
  split_and!; [|done..| |].
  - by apply spaces_ok_add; [..|apply object_ok_owner|].
  - intros ρ. rewrite contents_add by done. apply alter_id. intros l. unfold contents.
    rewrite lookup_fmap, Ha. intros [= <-]. change (object os') with (object os).
    replace (readOnly os', bytes_in ρ os') with (shown ρ (states s) q) by (unfold shown; by rewrite Hq).
    symmetry. apply replace_found; [apply Hsp|by rewrite Hob|done].
  - exists (with_object sp (object os') n), os'. rewrite !lookup_insert_eq. split_and!; try done.
    apply list_replace_new.
Qed.
End operations.

Section accesses.
Context `{APIntLaws} `{WfStore} `{ObjectIdentity} `{Options} `{Context} `{MemoryOptions} `{ArrayAlloc} `{!ArrayAllocLaws}.
Context (Hopt : ConstArrayOpt = false) (Hle : isLittleEndian = true).

(** Accesses that an object of [n] bytes allows, whatever the object *)
Definition offset_allowed (n k : nat) (off : Expr) : Prop := ∀ m, shared m = false → offset_ok n m k off.
Definition value_allowed (k : nat) (value : Expr) : Prop := ∀ m, shared m = false → value_ok m k value.

(** The operations that a state may do, in terms of what its address space holds *)
Definition op_enabled (A : AbstractSpaces) (op : SpaceOp) : Prop :=
  match op with
  | SBind a os => is_Some (A !! a) ∧ copyOnWriteOwner os = 0 ∧ object_ok os
  | SUnbind a mo => is_Some (A !! a)
  | SClone a b _ => A !! a = None ∧ is_Some (A !! b)
  | SRead a mo offset width => ∃ l ro bs, A !! a = Some l ∧ list_find mo l = Some (mo, (ro, bs)) ∧
      bytes_of width (width_bytes width) ∧ offset_allowed (length bs) (width_bytes width) offset
  | SWrite a mo offset value => ∃ l bs, A !! a = Some l ∧ list_find mo l = Some (mo, (false, bs)) ∧
      offset_allowed (length bs) (width_bytes (getWidth value)) offset ∧
      value_allowed (width_bytes (getWidth value)) value
  end.

Lemma length_bytes_in ρ os : length (bytes_in ρ os) = Z.to_nat (os_size os).
Proof. unfold bytes_in. by rewrite length_fmap, length_seq. Qed.

Lemma byte_at_bytes_in ρ os i :
  (i < Z.to_nat (os_size os))%nat → byte_at (bytes_in ρ os) i = content ρ (view_of os) i.
Proof. intros Hi. unfold byte_at, bytes_in. rewrite list_lookup_fmap, lookup_seq_lt by done. done. Qed.

Lemma byte_at_seq bs : byte_at bs <$> seq 0 (length bs) = bs.
Proof.
  apply list_eq. intros i. rewrite list_lookup_fmap. destruct (bs !! i) as [x|] eqn:E.
  - rewrite lookup_seq_lt by (by eapply lookup_lt_Some). cbn. unfold byte_at. by rewrite E.
  - by rewrite lookup_seq_ge by (by apply lookup_ge_None).
Qed.

Lemma stored_seq ρ offset value bs :
  (λ i, byte_at (stored ρ offset value bs) i) <$> seq 0 (length bs) = stored ρ offset value bs.
Proof.
  etrans; [|apply byte_at_seq]. unfold stored at 3. by rewrite length_fmap, length_seq.
Qed.

(** The object state [os'] is [os] with the bytes [f]. *)
Definition rewritten (os : ObjectState) (f : assignment → nat → Z) (os' : ObjectState) : Prop :=
  object os' = object os ∧ copyOnWriteOwner os' = copyOnWriteOwner os ∧ readOnly os' = readOnly os ∧
  object_ok os' ∧ ∀ ρ, wf_assignment ρ → bytes_in ρ os' = f ρ <$> seq 0 (Z.to_nat (os_size os)).

Lemma at_state_ok {A} (m : M Memory A) s q os f (Q : A → Prop) :
  states s !! q = Some os → object_ok os →
  (∀ mem, this mem = os → memory_ok (Z.to_nat (os_size os)) mem → shared mem = false →
    runs m mem (λ r mem', becomes (Z.to_nat (os_size os)) mem f mem' ∧ Q r)) →
  runs (at_state q m) s (λ r s', Q r ∧ spaces s' = spaces s ∧
    ∃ os', states s' = <[q := os']> (states s) ∧ rewritten os f os').
Proof.
  intros Hq (Hs & Hc & Hsh) Hm. unfold at_state, runs. rewrite Hq.
  set (mem := mkMemory os (sp_host s) (sp_arrays s)).
  assert (memory_ok (Z.to_nat (os_size os)) mem) as Hmem by (by apply memory_of_object).
  destruct (runs_inv _ _ _ (Hm mem eq_refl Hmem Hsh)) as (r & mem' & -> & [Hok Hby Hob How Hro] & HQ). cbn in Hob, How, Hro.
  cbn. split_and!; [done..|]. exists (this mem'). split; [done|]. destruct Hok as [Hs' Hc' _].
  pose proof (sh_size _ _ _ Hs') as Hn. split_and!; try done.
  - unfold object_ok. rewrite Hn, Nat2Z.id, Hob. done.
  - intros ρ Hρ. unfold bytes_in. rewrite Hn, Nat2Z.id. apply list_fmap_ext.
    intros i x [-> Hi]%lookup_seq. cbn. rewrite <- (Hby ρ i) by (done || lia). unfold byte, shared. by rewrite Hob, Hsh.
Qed.

(** A read keeps the bytes of the object state and returns what is there. *)
Lemma at_read_ok s q os offset width :
  states s !! q = Some os → object_ok os → bytes_of width (width_bytes width) →
  offset_allowed (Z.to_nat (os_size os)) (width_bytes width) offset →
  runs (at_state q (read_at offset width)) s (λ e s',
    (∀ ρ x, wf_assignment ρ → loaded_at ρ offset width (bytes_in ρ os) = Some x → eval ρ e = x) ∧
    spaces s' = spaces s ∧ ∃ os', states s' = <[q := os']> (states s) ∧
      rewritten os (λ ρ, content ρ (view_of os)) os').
Proof.
  intros Hq Hos Hw Hoff. apply (at_state_ok _ _ _ os); [done..|].
  intros mem Hthis Hmem Hsh. assert (∀ ρ i, byte ρ mem i = content ρ (view_of os) i) as Hbyte
    by (intros; unfold byte; by rewrite Hsh, Hthis).
  eapply runs_mono; [apply (read_at_ok Hopt Hle (Z.to_nat (os_size os)) mem offset (width_bytes width)); [done|by apply Hoff|done]|].
  intros e mem' (Hb & _ & _ & Hev). split; [eapply becomes_ext; [exact Hb|]; intros; apply Hbyte|].
  intros ρ x Hρ. unfold loaded_at. rewrite length_bytes_in. case_step; [|done]. unbool. intros [= <-].
  rewrite Hev by (done || lia). f_equal. assert (0 ≤ position ρ offset) by (apply Z.mod_pos_bound; lia).
  apply list_fmap_ext. intros i j [-> Hj]%lookup_seq. rewrite byte_at_bytes_in by lia. done.
Qed.

Lemma at_write_ok s q os offset value :
  states s !! q = Some os → object_ok os →
  offset_allowed (Z.to_nat (os_size os)) (width_bytes (getWidth value)) offset →
  value_allowed (width_bytes (getWidth value)) value →
  runs (at_state q (write_at offset value)) s (λ _ s', spaces s' = spaces s ∧
    ∃ os', states s' = <[q := os']> (states s) ∧
      rewritten os (λ ρ i, byte_at (stored ρ offset value (bytes_in ρ os)) i) os').
Proof.
  intros Hq Hos Hoff Hval. eapply runs_mono; [apply (at_state_ok _ _ _ os
    (λ ρ i, byte_at (stored ρ offset value (bytes_in ρ os)) i) (λ _, True)); [done..|]|].
  2:{ intros e s' (_ & ? & ?). by split. }
  intros mem Hthis Hmem Hsh. assert (∀ ρ i, byte ρ mem i = content ρ (view_of os) i) as Hbyte
    by (intros; unfold byte; by rewrite Hsh, Hthis).
  eapply runs_mono; [apply (write_at_ok Hle (Z.to_nat (os_size os)) mem offset value (width_bytes (getWidth value))); [done|by apply Hoff|by apply Hval]|].
  intros [] mem' Hb. split; [|done]. eapply becomes_ext; [exact Hb|]. intros ρ i Hρ Hi. cbv beta.
  unfold stored, byte_at at 1. rewrite length_bytes_in, list_lookup_fmap, lookup_seq_lt by done. cbn.
  apply (store_bytes_ext (Z.to_nat (os_size os))); [|done]. intros j Hj. by rewrite Hbyte, byte_at_bytes_in.
Qed.

(** *** Every operation *)

(** The number of clones, which bounds how far the keys grow *)
Definition clones (op : SpaceOp) : Z := match op with SClone _ _ _ => 1 | _ => 0 end.

Definition keys_below (n : Z) (s : Spaces) : Prop :=
  ∀ a sp, spaces s !! a = Some sp → 0 ≤ cowKey sp < 2 ^ 32 - n.

(** [es] and [s'] are the result of an operation on [s]. *)
Definition op_done (op : SpaceOp) (s : Spaces) (es : list Expr) (s' : Spaces) : Prop :=
  sys_ok s' ∧ ∀ ρ, wf_assignment ρ →
    view_spaces ρ s' = spec_op ρ op (view_spaces ρ s) ∧
    Forall2 (λ e ov, ∀ x, ov = Some x → eval ρ e = x) es (spec_values ρ op (view_spaces ρ s)).

Lemma view_lookup ρ s a l :
  view_spaces ρ s !! a = Some l → ∃ sp, spaces s !! a = Some sp ∧ l = held ρ (states s) (objects sp).
Proof. unfold view_spaces, contents. rewrite lookup_fmap. destruct (spaces s !! a); intros [= <-]; eauto. Qed.

Lemma view_is_Some ρ s a : is_Some (view_spaces ρ s !! a) → ∃ sp, spaces s !! a = Some sp.
Proof. intros [l Hl]. apply view_lookup in Hl as (sp & ? & _). by exists sp. Qed.

Lemma keys_below_insert n s s' a sp sp' :
  keys_below n s → spaces s !! a = Some sp → spaces s' = <[a := sp']> (spaces s) → cowKey sp' = cowKey sp →
  keys_below n s'.
Proof.
  intros Hk Ha Hs Heq b sp1. rewrite Hs. intros [[<- <-]|[_ Hb]]%lookup_insert_Some; [rewrite Heq|]; by eapply Hk.
Qed.

Lemma bind_op_ok ρ0 n s a os :
  sys_ok s → op_enabled (view_spaces ρ0 s) (SBind a os) → keys_below n s →
  runs (run_space_op (SBind a os)) s (λ es s', op_done (SBind a os) s es s' ∧ keys_below n s').
Proof.
  intros Hok ([sp Ha]%view_is_Some & How & Hos) Hk. cbn [run_space_op]. set (q := fresh (dom (states s))).
  assert (states s !! q = None) as Hq by (apply not_elem_of_dom, is_fresh).
  eapply runs_step; [done|]. fold q. apply runs_bind. set (s1 := set_states (<[q := os]> (states s)) s).
  eapply runs_mono; [apply (bindObject_ok s1 a sp (object os) q os); [done| |cbn; by rewrite lookup_insert_eq|done]|].
  { by apply (so_state _ _ (ss_space _ _ Hok a sp Ha)). }
  intros [] s2 [Hh Hm]. cbn in Hh, Hm. rewrite insert_insert_eq in Hh. apply runs_ret.
  split; [|exact (keys_below_insert n s s2 a sp _ Hk Ha Hm eq_refl)].
  change (object os) with (object (set_copyOnWriteOwner (cowKey sp) os)) in Hm.
  split; [unfold sys_ok; rewrite Hh, Hm; by apply spaces_ok_add; [..|apply object_ok_owner|]|].
  intros ρ Hρ. split; [|constructor]. unfold view_spaces. rewrite Hh, Hm. by rewrite contents_add.
Qed.

Lemma unbind_op_ok ρ0 n s a mo :
  sys_ok s → op_enabled (view_spaces ρ0 s) (SUnbind a mo) → keys_below n s →
  runs (run_space_op (SUnbind a mo)) s (λ es s', op_done (SUnbind a mo) s es s' ∧ keys_below n s').
Proof.
  intros Hok [sp Ha]%view_is_Some Hk. cbn [run_space_op]. apply runs_bind.
  eapply runs_mono; [apply (unbindObject_ok s a sp mo Ha)|].
  { by apply (so_state _ _ (ss_space _ _ Hok a sp Ha)). }
  intros [] s' [Hh Hm]. apply runs_ret. split; [|exact (keys_below_insert n s s' a sp _ Hk Ha Hm eq_refl)].
  split; [unfold sys_ok; rewrite Hh, Hm; by apply spaces_ok_remove|].
  intros ρ Hρ. split; [|constructor]. unfold view_spaces. rewrite Hh, Hm. by apply contents_remove.
Qed.

Lemma clone_op_ok ρ0 n s a b st :
  0 ≤ n → sys_ok s → op_enabled (view_spaces ρ0 s) (SClone a b st) → keys_below (n + 1) s →
  runs (run_space_op (SClone a b st)) s (λ es s', op_done (SClone a b st) s es s' ∧ keys_below n s').
Proof.
  intros Hn Hok [Ha [sp Hb]%view_is_Some] Hk. cbn [run_space_op]. apply runs_bind. pose proof (Hk b sp Hb) as Hkey.
  assert (spaces s !! a = None) as Ha'.
  { unfold view_spaces, contents in Ha. rewrite lookup_fmap in Ha. by apply fmap_None in Ha. }
  eapply runs_mono; [apply (clone_state_ok s a b st sp Hb); lia|].
  intros [] s' [Hh Hm]. apply runs_ret. split.
  - split; [unfold sys_ok; rewrite Hh, Hm; by apply spaces_ok_clone|].
    intros ρ Hρ. split; [|constructor]. unfold view_spaces. rewrite Hh, Hm, contents_clone by done.
    cbn. unfold contents at 2. by rewrite lookup_fmap, Hb.
  - intros c sp'. rewrite Hm. unfold cloned.
    intros [[<- <-]|[_ [[<- <-]|[_ Hc]]%lookup_insert_Some]]%lookup_insert_Some; cbn; [lia..|].
    pose proof (Hk c sp' Hc). lia.
Qed.

(** The pair that an enabled access finds *)
Lemma access_found ρ s a mo l ro bs :
  sys_ok s → view_spaces ρ s !! a = Some l → list_find mo l = Some (mo, (ro, bs)) →
  ∃ sp q os, spaces s !! a = Some sp ∧ list_find mo (objects sp) = Some (mo, q) ∧ (mo, q) ∈ objects sp ∧
    states s !! q = Some os ∧ object os = mo ∧ object_ok os ∧ readOnly os = ro ∧ length bs = Z.to_nat (os_size os).
Proof.
  intros Hok (sp & Ha & ->)%view_lookup Hf. rewrite held_find in Hf.
  destruct (list_find mo (objects sp)) as [[mo' q]|] eqn:E; cbn in Hf; [|done]. injection Hf as -> Hsh.
  pose proof (list_find_elem _ _ _ E) as Hin.
  destruct (so_objects _ _ (ss_space _ _ Hok a sp Ha) _ Hin) as (os & Hq & Hob & _ & Hos). cbn in Hq, Hob.
  unfold shown in Hsh. rewrite Hq in Hsh. injection Hsh as <- <-.
  exists sp, q, os. rewrite length_bytes_in. done.
Qed.

Lemma view_find ρ s a sp mo q os :
  spaces s !! a = Some sp → list_find mo (objects sp) = Some (mo, q) → states s !! q = Some os →
  view_spaces ρ s !! a = Some (held ρ (states s) (objects sp)) ∧
  list_find mo (held ρ (states s) (objects sp)) = Some (mo, (readOnly os, bytes_in ρ os)).
Proof.
  intros Ha E Hq. split; [unfold view_spaces, contents; by rewrite lookup_fmap, Ha|].
  rewrite held_find, E. cbn. unfold shown. by rewrite Hq.
Qed.

Lemma read_op_ok ρ0 n s a mo offset width :
  sys_ok s → op_enabled (view_spaces ρ0 s) (SRead a mo offset width) → keys_below n s →
  runs (run_space_op (SRead a mo offset width)) s (λ es s',
    op_done (SRead a mo offset width) s es s' ∧ keys_below n s').
Proof.
  intros Hok (l & ro & bs & Hl & Hf & Hw & Hoff) Hk. cbn [run_space_op].
  destruct (access_found _ _ _ _ _ _ _ Hok Hl Hf) as (sp & q & os & Ha & E & Hin & Hq & _ & Hos & _ & Hlen).
  rewrite Hlen in Hoff. eapply runs_step; [by apply findObject_eq|]. rewrite E. cbn. apply runs_bind.
  eapply runs_mono; [by apply (at_read_ok s q os)|].
  intros e s' (Hev & Hm & os' & Hh & Hob & How & Hro & Hos' & Hby). apply runs_ret.
  split; [|intros b sp1; rewrite Hm; apply Hk]. split.
  - unfold sys_ok. rewrite Hh, Hm. by eapply spaces_ok_touch.
  - intros ρ Hρ. split.
    + unfold view_spaces. rewrite Hh, Hm. by apply (contents_touch_same ρ _ _ q os); [..|apply Hby].
    + destruct (view_find ρ s a sp mo q os Ha E Hq) as [Hv Hfind]. cbn [spec_values].
      constructor; [|constructor]. intros x. rewrite Hv. cbn [mbind option_bind]. rewrite Hfind. by apply Hev.
Qed.

Lemma write_op_ok ρ0 n s a mo offset value :
  sys_ok s → op_enabled (view_spaces ρ0 s) (SWrite a mo offset value) → keys_below n s →
  runs (run_space_op (SWrite a mo offset value)) s (λ es s',
    op_done (SWrite a mo offset value) s es s' ∧ keys_below n s').
Proof.
  intros Hok (l & bs & Hl & Hf & Hoff & Hval) Hk. cbn [run_space_op].
  destruct (access_found _ _ _ _ _ _ _ Hok Hl Hf) as (sp & q & os & Ha & E & Hin & Hq & Hob & Hos & Hro & Hlen).
  rewrite Hlen in Hoff. eapply runs_step; [by apply findObject_eq|]. rewrite E. cbn. apply runs_bind.
  eapply runs_mono; [by apply (getWriteable_ok s a sp mo q os)|].
  intros q' s1 (Hok1 & _ & _ & Hv1 & sp' & os' & Ha1 & Hm1 & Hkey & Hin1 & Hq1 & ->). apply runs_bind.
  eapply runs_mono; [apply (at_write_ok s1 q' _ offset value Hq1); [by apply object_ok_owner|done..]|].
  intros [] s2 (Hm2 & os2 & Hh2 & Hob2 & How2 & Hro2 & Hos2 & Hby). apply runs_ret. split; [split|].
  - unfold sys_ok. rewrite Hh2, Hm2. by eapply spaces_ok_touch.
  - intros ρ Hρ. split; [|constructor]. unfold view_spaces at 1. rewrite Hh2, Hm2.
    rewrite (contents_touch_owned ρ _ _ a sp' mo q' _ os2 Hok1 Ha1 Hin1 Hq1) by done.
    fold (view_spaces ρ s1). rewrite Hv1. cbn [spec_op]. rewrite Hby, Hro2 by done.
    destruct (view_find ρ s a sp mo q os Ha E Hq) as [Hv Hfind]. apply alter_ext. intros l' Hl'.
    rewrite Hv in Hl'. injection Hl' as <-. rewrite Hfind.
    change (bytes_in ρ (set_copyOnWriteOwner (cowKey sp) os)) with (bytes_in ρ os).
    change (os_size (set_copyOnWriteOwner (cowKey sp) os)) with (os_size os).
    by rewrite <- (length_bytes_in ρ os), stored_seq.
  - eapply (keys_below_insert n s s2 a sp); [done..|by rewrite Hm2|done].
Qed.

Lemma space_op_ok ρ0 n s op :
  0 ≤ n → sys_ok s → op_enabled (view_spaces ρ0 s) op → keys_below (n + clones op) s →
  runs (run_space_op op) s (λ es s', op_done op s es s' ∧ keys_below n s').
Proof.
  intros Hn Hok Hen Hk. destruct op; cbn [clones] in Hk; rewrite ?Z.add_0_r in Hk.
  - by apply (bind_op_ok ρ0).
  - by apply (unbind_op_ok ρ0).
  - by apply (clone_op_ok ρ0).
  - by apply (read_op_ok ρ0).
  - by apply (write_op_ok ρ0).
Qed.

(** Each operation is enabled where it is done. *)
Fixpoint ops_enabled (ρ : assignment) (A : AbstractSpaces) (ops : list SpaceOp) : Prop :=
  match ops with
  | [] => True
  | op :: ops => op_enabled A op ∧ ops_enabled ρ (spec_op ρ op A) ops
  end.

Fixpoint count_clones (ops : list SpaceOp) : Z :=
  match ops with [] => 0 | op :: ops => count_clones ops + clones op end.

Lemma count_clones_nonneg ops : 0 ≤ count_clones ops.
Proof. induction ops as [|op ops IH]; [done|]. cbn. destruct op; cbn; lia. Qed.

(** ** Properties *)

Lemma run_space_ops_ok ops s ρ0 :
  sys_ok s → wf_assignment ρ0 → ops_enabled ρ0 (view_spaces ρ0 s) ops → keys_below (count_clones ops) s →
  runs (run_space_ops ops) s (λ es s', sys_ok s' ∧ ∀ ρ, wf_assignment ρ →
    view_spaces ρ s' = (spec_run ρ ops (view_spaces ρ s)).2 ∧
    Forall2 (λ e ov, ∀ x, ov = Some x → eval ρ e = x) es (spec_run ρ ops (view_spaces ρ s)).1).
Proof.
  intros Hok Hρ0. revert s Hok. induction ops as [|op ops IH]; intros s Hok Hen Hk; cbn [run_space_ops].
  { apply runs_ret. split; [done|]. intros ρ _. split; [done|constructor]. }
  destruct Hen as [Hop Hops]. apply runs_bind.
  eapply runs_mono; [apply (space_op_ok ρ0 (count_clones ops)); [apply count_clones_nonneg|done..]|].
  intros es s1 [[Hok1 Hdone] Hk1]. apply runs_bind. eapply runs_mono; [apply IH; [done| |done]|].
  { by rewrite (proj1 (Hdone ρ0 Hρ0)). }
  intros es' s2 [Hok2 Hrest]. apply runs_ret. split; [done|]. intros ρ Hρ. cbn [spec_run].
  destruct (Hdone ρ Hρ) as [Hv Hes]. destruct (Hrest ρ Hρ) as [Hv' Hes']. rewrite Hv in Hv', Hes'.
  destruct (spec_run ρ ops _) as [vs A']. split; [done|]. by apply Forall2_app.
Qed.
End accesses.

(** C16: the address spaces of forked states are isolated, on a little-endian target,
    with the constant-array optimisation off, for objects that are not shared with the
    memory of the host ([isSharedConcrete]) and as long as the copy-on-write keys do not
    wrap around ([keys_below]).  For any sequence of binds, unbinds, clones, reads and
    writes by any of the states, in any order, each allowed at its turn ([ops_enabled]),
    the calls return and no assertion fails; under every assignment, each address space
    then holds the objects and bytes that it would hold if clones copied all of memory, and
    each read in bounds has returned the bytes of its own address space. *)
Theorem spaces_isolated `{APIntLaws} `{WfStore} `{ObjectIdentity} `{Options} `{Context} `{MemoryOptions} `{ArrayAlloc} `{!ArrayAllocLaws}
    ops s ρ0 :
  ConstArrayOpt = false → isLittleEndian = true →
  sys_ok s → wf_assignment ρ0 → ops_enabled ρ0 (view_spaces ρ0 s) ops → keys_below (count_clones ops) s →
  runs (run_space_ops ops) s (λ es s', sys_ok s' ∧ ∀ ρ, wf_assignment ρ →
    view_spaces ρ s' = (spec_run ρ ops (view_spaces ρ s)).2 ∧
    Forall2 (λ e ov, ∀ x, ov = Some x → eval ρ e = x) es (spec_run ρ ops (view_spaces ρ s)).1).
Proof. intros Hopt Hle. by apply run_space_ops_ok. Qed.

Section witnesses.
#[local] Existing Instance code_store.
#[local] Existing Instance code_alloc.
#[local] Existing Instance code_store_wf.
#[local] Existing Instance code_alloc_laws.
#[local] Existing Instance identity.
#[local] Existing Instance ObjectStateProofs.opt_off.
#[local] Existing Instance little.
#[local] Existing Instance use_constant_arrays.

(** One state binds an object and is cloned; the clone writes, then both read. *)
Definition sample_spaces : Spaces := mkSpaces ∅ {[1%positive := mkSpace 1 [] (Some 1%positive)]} ∅ 0 [].
Definition sample_object : ObjectState := this sample_memory.
Definition sample_space_ops : list SpaceOp :=
  [SBind 1 sample_object; SClone 2 1 2; SWrite 2 sample_mo (const 1 32) (const 0x1234 16);
   SRead 1 sample_mo (const 1 32) 16; SRead 2 sample_mo (const 1 32) 16].

Lemma sample_object_ok : object_ok sample_object.
Proof. destruct sample_memory_ok as [Hs Hc _]. split_and!; [exact Hs|exact Hc|done]. Qed.

Lemma sample_space_ops_enabled ρ : ops_enabled ρ (view_spaces ρ sample_spaces) sample_space_ops.
Proof.
  assert (offset_allowed 4 2 (const 1 32)) as Hoff by (intros m Hm; split; [done|]; vm_compute; lia).
  assert (bytes_of 16 2) as Hb by (right; split; [done|lia]).
  cbn [ops_enabled sample_space_ops]. split_and!; try done.
  - split_and!; [by eexists|done|apply sample_object_ok].
  - do 2 eexists. split_and!; [vm_compute; reflexivity..|exact Hoff|].
    intros m Hm. split_and!; [done|exact Hb|]. by repeat constructor.
  - do 3 eexists. split_and!; [vm_compute; reflexivity..|exact Hb|exact Hoff].
  - do 3 eexists. split_and!; [vm_compute; reflexivity..|exact Hb|exact Hoff].
Qed.

Lemma sample_spaces_lookup a sp :
  spaces sample_spaces !! a = Some sp → 1%positive = a ∧ mkSpace 1 [] (Some 1%positive) = sp.
Proof. apply lookup_singleton_Some. Qed.

Lemma sample_spaces_ok : sys_ok sample_spaces.
Proof.
  split.
  - intros a sp [<- <-]%sample_spaces_lookup. split; [constructor|by eexists|by intros ? ?%elem_of_nil].
  - intros a b sp sp' mo mo' q os Hab [<- <-]%sample_spaces_lookup [<- _]%sample_spaces_lookup. done.
Qed.

Lemma spaces_isolated_witness :
  runs (run_space_ops sample_space_ops) sample_spaces (λ es s', sys_ok s' ∧ ∀ ρ, wf_assignment ρ →
    view_spaces ρ s' = (spec_run ρ sample_space_ops (view_spaces ρ sample_spaces)).2 ∧
    Forall2 (λ e ov, ∀ x, ov = Some x → eval ρ e = x) es [Some 0; Some 0x1234]).
Proof.
  refine (spaces_isolated sample_space_ops sample_spaces (λ _ _, 0) eq_refl eq_refl _ _ _ _); [|done|apply sample_space_ops_enabled|].
  - apply sample_spaces_ok.
  - by intros a sp [<- <-]%sample_spaces_lookup.
Defined.
End witnesses.
