(* ===== verification/STPExpr.v ===== *)
(** * Terms of STP: [stp/src/AST/ASTmisc.cpp] and [stp/src/c_interface/c_interface.cpp]

    The terms that the translation of queries builds through the C interface of STP, the
    local type check that the interface asserts, and the functions of the interface.  A
    call of [FatalError] is an outcome [AssertFailed].

    STP creates nodes through a factory that shares and simplifies them.  The factory is
    a parameter, [CreateNode], of which [NodeFactoryLaws] requires that a well-sorted
    node keeps its type and, where it is defined, its value; the hashing factory, which
    does not simplify, is an instance.  The value of a division by zero is not defined,
    as in STP. *)

From stdpp Require Import prelude.
From S2P Require Import Prelude Bitvec Bits APInt ExprData.

(** ** Data *)

(** The kinds of binary terms and formulas that the translation uses *)
Inductive TermKind : Set := BVPLUS | BVSUB | BVMULT | BVDIV | BVMOD | SBVDIV | SBVREM | BVAND | BVOR | BVXOR.
Inductive FormKind : Set := EQ | BVLT | BVLE | BVSLT | BVSLE | AND | OR | IFF.

(** A node.  [SYMBOL] is the array variable of an array of the program, whose name
    contains the address of the array; [TERM] and [BVSX] store their width. *)
Inductive VCExpr : Set :=
| TRUE | FALSE
| BVCONST (width value : Z)
| SYMBOL (root : Array)
| READ (array index : VCExpr)
| WRITE (array index value : VCExpr)
| ITE (cond thenpart elsepart : VCExpr)
| BVCONCAT (left right : VCExpr)
| BVEXTRACT (expr : VCExpr) (hi low : Z)
| BVSX (expr : VCExpr) (width : Z)
| BVUMINUS (expr : VCExpr)
| BVNEG (expr : VCExpr)
| TERM (k : TermKind) (width : Z) (left right : VCExpr)
| NOT (expr : VCExpr)
| FORM (k : FormKind) (left right : VCExpr).

(** [GetIndexWidth] and [GetValueWidth] *)
Fixpoint GetIndexWidth (n : VCExpr) : Z :=
  match n with
  | SYMBOL _ => 32
  | WRITE a _ _ => GetIndexWidth a
  | ITE _ t _ => GetIndexWidth t
  | _ => 0
  end.

Fixpoint GetValueWidth (n : VCExpr) : Z :=
  match n with
  | TRUE | FALSE | NOT _ | FORM _ _ _ => 0
  | BVCONST w _ => w
  | SYMBOL _ => 8
  | READ a _ | WRITE a _ _ => GetValueWidth a
  | ITE _ t _ => GetValueWidth t
  | BVCONCAT l r => u32 (GetValueWidth l + GetValueWidth r)
  | BVEXTRACT _ hi low => u32 (hi - low + 1)
  | BVSX _ w | TERM _ w _ _ => w
  | BVUMINUS a | BVNEG a => GetValueWidth a
  end.

(** [GetType] *)
Inductive NodeType : Set := BOOLEAN_TYPE | BITVECTOR_TYPE | ARRAY_TYPE | UNKNOWN_TYPE.

#[export] Instance NodeType_eq_dec : EqDecision NodeType.
Proof. solve_decision. Defined.

Definition GetType (n : VCExpr) : NodeType :=
  if (GetIndexWidth n =? 0) && (GetValueWidth n =? 0) then BOOLEAN_TYPE
  else if (GetIndexWidth n =? 0) && (0 <? GetValueWidth n) then BITVECTOR_TYPE
  else if (0 <? GetIndexWidth n) && (0 <? GetValueWidth n) then ARRAY_TYPE
  else UNKNOWN_TYPE.

Definition has_type (t : NodeType) (n : VCExpr) : bool := bool_decide (GetType n = t).

(** ** The type check *)

(** [BVTypeCheck]: the check of one node, given that its children have been checked.
    The numbers of children are right by construction. *)
Definition BVTypeCheck (n : VCExpr) : bool :=
  match n with
  | TRUE | FALSE | SYMBOL _ => true
  | BVCONST _ _ => has_type BITVECTOR_TYPE n
  | ITE c t e =>
      has_type BOOLEAN_TYPE c && bool_decide (GetType t = GetType e) &&
      (GetValueWidth t =? GetValueWidth e) && (GetIndexWidth t =? GetIndexWidth e)
  | READ a i =>
      (GetIndexWidth a =? GetValueWidth i) && has_type ARRAY_TYPE a && has_type BITVECTOR_TYPE i
  | WRITE a i v =>
      (GetIndexWidth a =? GetValueWidth i) && (GetValueWidth a =? GetValueWidth v) &&
      has_type ARRAY_TYPE a && has_type BITVECTOR_TYPE i && has_type BITVECTOR_TYPE v
  | TERM _ w l r =>
      (w =? GetValueWidth l) && has_type BITVECTOR_TYPE l &&
      (w =? GetValueWidth r) && has_type BITVECTOR_TYPE r
  | BVSX a w => GetValueWidth a <=? w
  | BVCONCAT l r => has_type BITVECTOR_TYPE l && has_type BITVECTOR_TYPE r
  | BVUMINUS a | BVNEG a => has_type BITVECTOR_TYPE a
  | BVEXTRACT a hi low => has_type BITVECTOR_TYPE a && (u32 hi <? GetValueWidth a)
  | FORM EQ l r => (GetValueWidth l =? GetValueWidth r) && (GetIndexWidth l =? GetIndexWidth r)
  | FORM (BVLT | BVLE | BVSLT | BVSLE) l r =>
      (has_type BITVECTOR_TYPE l || has_type BITVECTOR_TYPE r) &&
      (GetValueWidth l =? GetValueWidth r) && (GetIndexWidth l =? GetIndexWidth r)
  | FORM (AND | OR | IFF) _ _ | NOT _ => true
  end.

(** ** The factory

    A factory of STP may simplify, sort operands and share equal nodes.  The translation
    relies only on the laws of [NodeFactoryLaws] below. *)

Class NodeFactory : Set := CreateNode : VCExpr → VCExpr.

(** A factory that builds every node as it is asked for *)
Definition plain_factory : NodeFactory := λ n, n.

(** ** The C interface *)

Section interface.
Context `{NodeFactory}.

(** [assert(BVTypeCheck(o))] on a created node *)
Definition checked (n : VCExpr) : outcome VCExpr :=
  let o := CreateNode n in _ ← cassert (BVTypeCheck o); Done o.

(** [STPMgr::CreateBVConst] of a 64-bit value *)
Definition CreateBVConst (width bvconst : Z) : outcome VCExpr :=
  _ ← cassert ((0 <? width) && (width <=? 64));
  Done (BVCONST width (bvconst mod 2 ^ width)).

Definition vc_trueExpr : VCExpr := CreateNode TRUE.
Definition vc_falseExpr : VCExpr := CreateNode FALSE.

(** [vc_bvConstExprFromInt] refuses a value that does not fit. *)
Definition vc_bvConstExprFromInt (n_bits value : Z) : outcome VCExpr :=
  _ ← cassert (value <=? Z.shiftr (u64 (-1)) (64 - n_bits));
  n ← CreateBVConst n_bits value;
  _ ← cassert (BVTypeCheck n);
  Done n.

Definition vc_bvConstExprFromLL (n_bits value : Z) : outcome VCExpr :=
  n ← CreateBVConst n_bits value;
  _ ← cassert (BVTypeCheck n);
  Done n.

(** [vc_varExpr] of an array type with 32-bit indices and bytes *)
Definition vc_arrayVar (root : Array) : outcome VCExpr :=
  _ ← cassert (BVTypeCheck (SYMBOL root)); Done (SYMBOL root).

Definition vc_getBVLength (e : VCExpr) : outcome Z :=
  _ ← cassert (has_type BITVECTOR_TYPE e); Done (GetValueWidth e).

Definition vc_readExpr (a i : VCExpr) : outcome VCExpr :=
  _ ← cassert (BVTypeCheck a); _ ← cassert (BVTypeCheck i); checked (READ a i).

Definition vc_writeExpr (a i n : VCExpr) : outcome VCExpr :=
  _ ← cassert (BVTypeCheck a); _ ← cassert (BVTypeCheck i); _ ← cassert (BVTypeCheck n);
  checked (WRITE a i n).

(** The result of [vc_eqExpr] is not checked. *)
Definition vc_eqExpr (l r : VCExpr) : outcome VCExpr :=
  _ ← cassert (BVTypeCheck l); _ ← cassert (BVTypeCheck r); Done (CreateNode (FORM EQ l r)).

Definition vc_notExpr (a : VCExpr) : outcome VCExpr := checked (NOT a).
Definition vc_andExpr (l r : VCExpr) : outcome VCExpr := checked (FORM AND l r).
Definition vc_orExpr (l r : VCExpr) : outcome VCExpr := checked (FORM OR l r).

Definition vc_iteExpr (c t e : VCExpr) : outcome VCExpr :=
  _ ← cassert (BVTypeCheck c); _ ← cassert (BVTypeCheck t); _ ← cassert (BVTypeCheck e);
  checked (ITE c t e).

Definition createBinaryNode (k : FormKind) (l r : VCExpr) : outcome VCExpr :=
  _ ← cassert (BVTypeCheck l); _ ← cassert (BVTypeCheck r); checked (FORM k l r).

(** [vc_iffExpr] has the body of [createBinaryNode]. *)
Definition vc_iffExpr : VCExpr → VCExpr → outcome VCExpr := createBinaryNode IFF.
Definition vc_bvLtExpr : VCExpr → VCExpr → outcome VCExpr := createBinaryNode BVLT.
Definition vc_bvLeExpr : VCExpr → VCExpr → outcome VCExpr := createBinaryNode BVLE.
Definition vc_sbvLtExpr : VCExpr → VCExpr → outcome VCExpr := createBinaryNode BVSLT.
Definition vc_sbvLeExpr : VCExpr → VCExpr → outcome VCExpr := createBinaryNode BVSLE.

Definition createBinaryTerm (n_bits : Z) (k : TermKind) (l r : VCExpr) : outcome VCExpr :=
  _ ← cassert (BVTypeCheck l); _ ← cassert (BVTypeCheck r); checked (TERM k n_bits l r).

Definition vc_bvPlusExpr (n : Z) : VCExpr → VCExpr → outcome VCExpr := createBinaryTerm n BVPLUS.
Definition vc_bvMinusExpr (n : Z) : VCExpr → VCExpr → outcome VCExpr := createBinaryTerm n BVSUB.
Definition vc_bvMultExpr (n : Z) : VCExpr → VCExpr → outcome VCExpr := createBinaryTerm n BVMULT.
Definition vc_bvDivExpr (n : Z) : VCExpr → VCExpr → outcome VCExpr := createBinaryTerm n BVDIV.
Definition vc_bvModExpr (n : Z) : VCExpr → VCExpr → outcome VCExpr := createBinaryTerm n BVMOD.
Definition vc_sbvDivExpr (n : Z) : VCExpr → VCExpr → outcome VCExpr := createBinaryTerm n SBVDIV.
Definition vc_sbvModExpr (n : Z) : VCExpr → VCExpr → outcome VCExpr := createBinaryTerm n SBVREM.
Definition vc_bvAndExpr (l r : VCExpr) : outcome VCExpr := createBinaryTerm (GetValueWidth l) BVAND l r.
Definition vc_bvOrExpr (l r : VCExpr) : outcome VCExpr := createBinaryTerm (GetValueWidth l) BVOR l r.
Definition vc_bvXorExpr (l r : VCExpr) : outcome VCExpr := createBinaryTerm (GetValueWidth l) BVXOR l r.

Definition vc_bvConcatExpr (l r : VCExpr) : outcome VCExpr :=
  _ ← cassert (BVTypeCheck l); _ ← cassert (BVTypeCheck r); checked (BVCONCAT l r).

Definition vc_bvUMinusExpr (a : VCExpr) : outcome VCExpr :=
  _ ← cassert (BVTypeCheck a); checked (BVUMINUS a).

Definition vc_bvNotExpr (a : VCExpr) : outcome VCExpr :=
  _ ← cassert (BVTypeCheck a); checked (BVNEG a).

Definition vc_bvExtract (a : VCExpr) (hi_num low_num : Z) : outcome VCExpr :=
  _ ← cassert (BVTypeCheck a); checked (BVEXTRACT a hi_num low_num).

Definition vc_bvSignExtend (a : VCExpr) (nbits : Z) : outcome VCExpr :=
  _ ← cassert (BVTypeCheck a);
  if nbits <=? GetValueWidth a then checked (BVEXTRACT a (nbits - 1) 0) else checked (BVSX a nbits).

End interface.

(** ** Well-sorted nodes and their values *)

(** The type of a node: [(0, 0)] for formulas, [(0, w)] for bit vectors of [w] bits *)
Definition node_type (n : VCExpr) : Z * Z := (GetIndexWidth n, GetValueWidth n).

Definition is_bits (n : VCExpr) (w : Z) : Prop := node_type n = (0, w) ∧ 0 < w < 2 ^ 32.
Definition is_formula (n : VCExpr) : Prop := node_type n = (0, 0).
Definition is_array (n : VCExpr) : Prop := node_type n = (32, 8).

(** Every node has operands of the right types; this is stronger than that every node
    passes [BVTypeCheck], which does not look at the operands of connectives. *)
Fixpoint well_sorted (n : VCExpr) : Prop :=
  match n with
  | TRUE | FALSE | SYMBOL _ => True
  | BVCONST w v => 0 < w < 2 ^ 32 ∧ v `bits` w
  | READ a i => well_sorted a ∧ well_sorted i ∧ is_array a ∧ is_bits i 32
  | WRITE a i v => well_sorted a ∧ well_sorted i ∧ well_sorted v ∧ is_array a ∧ is_bits i 32 ∧ is_bits v 8
  | ITE c t e =>
      well_sorted c ∧ well_sorted t ∧ well_sorted e ∧ is_formula c ∧ node_type t = node_type e ∧
      (is_formula t ∨ ∃ w, is_bits t w)
  | BVCONCAT l r =>
      well_sorted l ∧ well_sorted r ∧
      ∃ wl wr, is_bits l wl ∧ is_bits r wr ∧ wl + wr < 2 ^ 32
  | BVEXTRACT a hi low => well_sorted a ∧ 0 ≤ low ≤ hi ∧ ∃ w, is_bits a w ∧ hi < w
  | BVSX a w => well_sorted a ∧ w < 2 ^ 32 ∧ ∃ wa, is_bits a wa ∧ wa ≤ w
  | BVUMINUS a | BVNEG a => well_sorted a ∧ ∃ w, is_bits a w
  | TERM _ w l r => well_sorted l ∧ well_sorted r ∧ is_bits l w ∧ is_bits r w
  | NOT a => well_sorted a ∧ is_formula a
  | FORM (AND | OR | IFF) l r => well_sorted l ∧ well_sorted r ∧ is_formula l ∧ is_formula r
  | FORM _ l r => well_sorted l ∧ well_sorted r ∧ ∃ w, is_bits l w ∧ is_bits r w
  end.

(** The operator that each kind denotes *)
Definition term_op (k : TermKind) : BinaryKind :=
  match k with
  | BVPLUS => Add | BVSUB => Sub | BVMULT => Mul | BVDIV => UDiv | BVMOD => URem
  | SBVDIV => SDiv | SBVREM => SRem | BVAND => And | BVOR => Or | BVXOR => Xor
  end.

Definition form_op (k : FormKind) : BinaryKind :=
  match k with
  | EQ | IFF => Eq | BVLT => Ult | BVLE => Ule | BVSLT => Slt | BVSLE => Sle
  | AND => And | OR => Or
  end.

(** The value of a node, an array at the index [j]; [None] if a division by zero is
    evaluated.  Of the writes to an array only those down to the index count. *)
Fixpoint denote (ρ : assignment) (n : VCExpr) (j : Z) : option Z :=
  match n with
  | TRUE => Some 1
  | FALSE => Some 0
  | BVCONST _ v => Some v
  | SYMBOL root => Some (ρ root j)
  | READ a i => x ← denote ρ i 0; denote ρ a x
  | WRITE a i v => x ← denote ρ i 0; if x =? j then denote ρ v 0 else denote ρ a j
  | ITE c t e => b ← denote ρ c 0; x ← denote ρ t j; y ← denote ρ e j; Some (if b =? 1 then x else y)
  | BVCONCAT l r => x ← denote ρ l 0; y ← denote ρ r 0; Some (bv_concat (GetValueWidth r) x y)
  | BVEXTRACT a hi low => x ← denote ρ a 0; Some (bv_extract x low (hi - low + 1))
  | BVSX a w => x ← denote ρ a 0; Some (bv_sext (GetValueWidth a) x w)
  | BVUMINUS a => x ← denote ρ a 0; Some ((- x) mod 2 ^ GetValueWidth a)
  | BVNEG a => x ← denote ρ a 0; Some (bv_not (GetValueWidth a) x)
  | TERM k w l r =>
      x ← denote ρ l 0; y ← denote ρ r 0;
      if is_div (term_op k) && (y =? 0) then None else Some (bv_eval (term_op k) w x y)
  | NOT a => x ← denote ρ a 0; Some (1 - x)
  | FORM k l r => x ← denote ρ l 0; y ← denote ρ r 0; Some (bv_eval (form_op k) (GetValueWidth l) x y)
  end.

(** What the translation relies on *)
Class NodeFactoryLaws `{NodeFactory} : Prop := {
  create_sorted n : well_sorted n → well_sorted (CreateNode n);
  create_type n : well_sorted n → node_type (CreateNode n) = node_type n;
  create_value n ρ j v :
    well_sorted n → wf_assignment ρ → denote ρ n j = Some v → denote ρ (CreateNode n) j = Some v;
}.

#[export] Instance plain_laws : @NodeFactoryLaws plain_factory.
Proof. by split. Qed.

(** ** The type check accepts well-sorted nodes *)

Lemma type_of_bits n w : is_bits n w → GetType n = BITVECTOR_TYPE.
Proof.
  intros [[= Hi Hv] Hw]. unfold GetType. rewrite Hi, Hv, (proj2 (Z.eqb_neq w 0)), (proj2 (Z.ltb_lt 0 w)) by lia. done.
Qed.

Lemma type_of_formula n : is_formula n → GetType n = BOOLEAN_TYPE.
Proof. intros [= Hi Hv]. unfold GetType. by rewrite Hi, Hv. Qed.

Lemma type_of_array n : is_array n → GetType n = ARRAY_TYPE.
Proof. intros [= Hi Hv]. unfold GetType. by rewrite Hi, Hv. Qed.

Lemma is_bits_width n w : is_bits n w → GetValueWidth n = w.
Proof. by intros [[= _ Hv] _]. Qed.

Lemma same_bits n m w : is_bits n w → GetIndexWidth m = 0 → GetValueWidth m = GetValueWidth n → is_bits m w.
Proof. intros [[= _ Hv] Hw] Hi Hm. split; [|done]. unfold node_type. by rewrite Hi, Hm, Hv. Qed.

Lemma same_type l r : node_type l = node_type r → GetType l = GetType r.
Proof. intros [= Hi Hv]. unfold GetType. by rewrite Hi, Hv. Qed.

Ltac sorts :=
  repeat match goal with
  | H : _ ∧ _ |- _ => destruct H
  | H : ∃ _, _ |- _ => destruct H
  end.

Lemma well_sorted_check n : well_sorted n → BVTypeCheck n = true.
Proof.
  intros Hn. assert (∀ a w, is_bits a w → has_type BITVECTOR_TYPE a = true ∧ GetValueWidth a = w ∧ GetIndexWidth a = 0) as Hbits.
  { intros a w Ha. unfold has_type. rewrite (type_of_bits a w Ha). by destruct Ha as [[= -> ->] _]. }
  assert (∀ a, is_array a → has_type ARRAY_TYPE a = true ∧ GetValueWidth a = 8 ∧ GetIndexWidth a = 32) as Harr.
  { intros a Ha. unfold has_type. rewrite (type_of_array a Ha). by injection Ha as -> ->. }
  assert (∀ a, is_formula a → has_type BOOLEAN_TYPE a = true) as Hform.
  { intros a Ha. unfold has_type. by rewrite (type_of_formula a Ha). }
  destruct n; cbn [well_sorted] in Hn; cbn [BVTypeCheck]; try done.
  - apply (Hbits (BVCONST width value) width). split; [done|lia].
  - sorts. destruct (Harr n1 ltac:(done)) as (-> & _ & ->), (Hbits n2 32 ltac:(done)) as (-> & -> & _); done.
  - sorts. destruct (Harr n1 ltac:(done)) as (-> & -> & ->), (Hbits n2 32 ltac:(done)) as (-> & -> & _), (Hbits n3 8 ltac:(done)) as (-> & -> & _); done.
  - destruct Hn as (_ & _ & _ & Hc & Ht & _). rewrite Hform by done. rewrite (same_type _ _ Ht). injection Ht as -> ->.
    by rewrite !Z.eqb_refl, bool_decide_true.
  - sorts. destruct (Hbits n1 x ltac:(done)) as (-> & _), (Hbits n2 x0 ltac:(done)) as (-> & _); done.
  - sorts. destruct (Hbits n x ltac:(done)) as (-> & -> & _). assert (0 < x < 2 ^ 32) by (by match goal with H : is_bits _ _ |- _ => apply H end).
    rewrite u32_small by lia. by apply Z.ltb_lt.
  - sorts. destruct (Hbits n x ltac:(done)) as (_ & -> & _). by apply Z.leb_le.
  - sorts. by apply (Hbits n x).
  - sorts. by apply (Hbits n x).
  - sorts. destruct (Hbits n1 width ltac:(done)) as (-> & -> & _), (Hbits n2 width ltac:(done)) as (-> & -> & _); try done. by rewrite Z.eqb_refl.
  - destruct k; try done; sorts; destruct (Hbits n1 x ltac:(done)) as (E1 & -> & ->), (Hbits n2 x ltac:(done)) as (_ & -> & ->);
      rewrite ?E1, Z.eqb_refl; done.
Qed.

(** ** What a node stands for

    The predicates say that a node is well sorted and has the value [V] under every
    assignment in the domain [D]. *)

Definition bits_ok (D : assignment → Prop) (w : Z) (V : assignment → Z) (n : VCExpr) : Prop :=
  well_sorted n ∧ is_bits n w ∧
  ∀ ρ, wf_assignment ρ → D ρ → denote ρ n 0 = Some (V ρ) ∧ V ρ `bits` w.

Definition formula_ok (D : assignment → Prop) (V : assignment → Z) (n : VCExpr) : Prop :=
  well_sorted n ∧ is_formula n ∧
  ∀ ρ, wf_assignment ρ → D ρ → denote ρ n 0 = Some (V ρ) ∧ V ρ `bits` 1.

Definition array_ok (D : assignment → Z → Prop) (V : assignment → Z → Z) (n : VCExpr) : Prop :=
  well_sorted n ∧ is_array n ∧
  ∀ ρ j, wf_assignment ρ → D ρ j → denote ρ n j = Some (V ρ j) ∧ V ρ j `bits` 8.

Lemma bits_ok_mono D D' w V V' n :
  bits_ok D w V n → (∀ ρ, wf_assignment ρ → D' ρ → D ρ ∧ (V ρ `bits` w → V ρ = V' ρ)) → bits_ok D' w V' n.
Proof.
  intros (Hs & Ht & Hv) HD. split_and!; [done..|]. intros ρ Hρ Hd. destruct (HD ρ Hρ Hd) as [Hd' E].
  destruct (Hv ρ Hρ Hd') as [-> Hb]. rewrite <- E by done. done.
Qed.

Lemma formula_ok_mono D D' V V' n :
  formula_ok D V n → (∀ ρ, wf_assignment ρ → D' ρ → D ρ ∧ (V ρ `bits` 1 → V ρ = V' ρ)) → formula_ok D' V' n.
Proof.
  intros (Hs & Ht & Hv) HD. split_and!; [done..|]. intros ρ Hρ Hd. destruct (HD ρ Hρ Hd) as [Hd' E].
  destruct (Hv ρ Hρ Hd') as [-> Hb]. rewrite <- E by done. done.
Qed.

Lemma bits_width D w V n : bits_ok D w V n → 0 < w < 2 ^ 32.
Proof. intros (_ & [_ Hw] & _). done. Qed.

Section terms.
Context `{NodeFactoryLaws}.
Implicit Types D : assignment → Prop.

Lemma create_bits D w V n :
  well_sorted n → is_bits n w →
  (∀ ρ, wf_assignment ρ → D ρ → denote ρ n 0 = Some (V ρ) ∧ V ρ `bits` w) → bits_ok D w V (CreateNode n).
Proof.
  intros Hn [Ht Hw] Hv. split_and!; [by apply create_sorted|split; [by rewrite create_type|done]|].
  intros ρ Hρ Hd. destruct (Hv ρ Hρ Hd) as [E Hb]. split; [|done]. by apply create_value.
Qed.

Lemma create_formula D V n :
  well_sorted n → is_formula n →
  (∀ ρ, wf_assignment ρ → D ρ → denote ρ n 0 = Some (V ρ) ∧ V ρ `bits` 1) → formula_ok D V (CreateNode n).
Proof.
  intros Hn Ht Hv. split_and!; [by apply create_sorted|unfold is_formula; by rewrite create_type|].
  intros ρ Hρ Hd. destruct (Hv ρ Hρ Hd) as [E Hb]. split; [|done]. by apply create_value.
Qed.

Lemma create_array (D : assignment → Z → Prop) V n :
  well_sorted n → is_array n →
  (∀ ρ j, wf_assignment ρ → D ρ j → denote ρ n j = Some (V ρ j) ∧ V ρ j `bits` 8) → array_ok D V (CreateNode n).
Proof.
  intros Hn Ht Hv. split_and!; [by apply create_sorted|unfold is_array; by rewrite create_type|].
  intros ρ j Hρ Hd. destruct (Hv ρ j Hρ Hd) as [E Hb]. split; [|done]. by apply create_value.
Qed.

Lemma checked_ok (P : VCExpr → Prop) n : (∀ o, P o → well_sorted o) → P (CreateNode n) → checked n ⇓ P.
Proof. intros HP Hn. unfold checked. ystep; [by apply well_sorted_check, HP|]. by apply yields_done. Qed.

(** The assertions on the operands, and the creation of the node *)
Ltac interface :=
  repeat (ystep; [by apply well_sorted_check|]);
  try match goal with
  | |- checked _ ⇓ bits_ok _ _ _ => apply checked_ok; [by intros ? []|apply create_bits]
  | |- checked _ ⇓ formula_ok _ _ => apply checked_ok; [by intros ? []|apply create_formula]
  | |- checked _ ⇓ array_ok _ _ => apply checked_ok; [by intros ? []|apply create_array]
  end.

(** The values of the operands at an assignment of the domain *)
Ltac operands :=
  repeat match goal with
  | Hv : ∀ ρ, wf_assignment ρ → ?D ρ → denote ρ _ 0 = Some _ ∧ _, Hρ : wf_assignment ?ρ, Hd : ?D ?ρ |- _ =>
      let E := fresh "E" in let Hb := fresh "Hb" in destruct (Hv ρ Hρ Hd) as [E Hb]; clear Hv
  end; cbn [denote]; repeat match goal with E : denote _ _ 0 = Some _ |- _ => rewrite E; clear E end;
  cbn [mbind option_bind].

Lemma const_LL_ok D w v : 0 < w ≤ 64 → vc_bvConstExprFromLL w v ⇓ bits_ok D w (λ _, v mod 2 ^ w).
Proof.
  intros Hw. unfold vc_bvConstExprFromLL, CreateBVConst. rewrite (proj2 (Z.ltb_lt 0 w)), (proj2 (Z.leb_le w 64)) by lia.
  assert (v mod 2 ^ w `bits` w) by (auto with klee lia). assert (well_sorted (BVCONST w (v mod 2 ^ w))) by (cbn; split; [lia|done]).
  cbn [andb]. ystep. ystep; [done|]. ystep. ystep; [by apply well_sorted_check|]. ystep. split_and!; [done|split; [done|lia]|done].
Qed.

Lemma const_Int_ok D w v : 0 < w ≤ 64 → v `bits` w → vc_bvConstExprFromInt w v ⇓ bits_ok D w (λ _, v).
Proof.
  intros Hw Hv. unfold vc_bvConstExprFromInt. ystep.
  - change (u64 (-1)) with (Z.ones 64). rewrite <- (Z.add_0_l (64 - w)). replace (0 + (64 - w)) with (64 - w) by lia.
    rewrite all_ones_shiftr, Z.ones_equiv by lia. apply Z.leb_le. unfold bounded in Hv. lia.
  - change (vc_bvConstExprFromLL w v ⇓ bits_ok D w (λ _, v)). eapply yields_mono; [by apply (const_LL_ok D)|].
    intros n Hn. eapply bits_ok_mono; [done|]. intros ρ _ Hd. split; [done|]. intros _. by apply bounded_small.
Qed.

Lemma bv_length D w V n : bits_ok D w V n → vc_getBVLength n = Done w.
Proof.
  intros (_ & Ht & _). unfold vc_getBVLength, has_type. rewrite (type_of_bits n w Ht), (is_bits_width n w Ht). done.
Qed.

Lemma term_ok D k w L R l r :
  bits_ok D w L l → bits_ok D w R r → (is_div (term_op k) = true → ∀ ρ, wf_assignment ρ → D ρ → R ρ ≠ 0) →
  createBinaryTerm w k l r ⇓ bits_ok D w (λ ρ, bv_eval (term_op k) w (L ρ) (R ρ)).
Proof.
  intros (Hl & Tl & Vl) (Hr & Tr & Vr) Hdiv. destruct (proj2 Tl). unfold createBinaryTerm. interface; [done|by split|].
  intros ρ Hρ Hd. operands.
  assert (is_div (term_op k) && (R ρ =? 0) = false) as ->.
  { destruct (is_div _) eqn:E; [|done]. cbn [andb]. apply Z.eqb_neq. by apply Hdiv. }
  split; [done|]. replace w with (bv_width (term_op k) w) at 1 by (by destruct k). apply bv_eval_bounded; done || lia.
Qed.

Lemma compare_ok D k w L R l r :
  bits_ok D w L l → bits_ok D w R r → k ≠ AND → k ≠ OR → k ≠ IFF →
  formula_ok D (λ ρ, bv_eval (form_op k) w (L ρ) (R ρ)) (CreateNode (FORM k l r)).
Proof.
  intros (Hl & Tl & Vl) (Hr & Tr & Vr) ???. destruct (proj2 Tl). apply create_formula; [|done|].
  - destruct k; try done; cbn; eauto.
  - intros ρ Hρ Hd. operands. rewrite (is_bits_width l w Tl). split; [done|].
    replace 1 with (bv_width (form_op k) w) by (by destruct k). apply bv_eval_bounded; done || lia.
Qed.

Lemma eq_ok D w L R l r :
  bits_ok D w L l → bits_ok D w R r → vc_eqExpr l r ⇓ formula_ok D (λ ρ, Z.b2z (L ρ =? R ρ)).
Proof. intros Hl Hr. destruct (Hl), (Hr). unfold vc_eqExpr. interface. ystep. by apply (compare_ok D EQ w L R). Qed.

Lemma compare_node_ok D k w L R l r :
  bits_ok D w L l → bits_ok D w R r → k ≠ AND → k ≠ OR → k ≠ IFF →
  createBinaryNode k l r ⇓ formula_ok D (λ ρ, bv_eval (form_op k) w (L ρ) (R ρ)).
Proof.
  intros Hl Hr ???. destruct (Hl), (Hr). unfold createBinaryNode. do 2 (ystep; [by apply well_sorted_check|]).
  apply checked_ok; [by intros ? []|]. by apply (compare_ok D k w).
Qed.

Lemma connective_ok D k L R l r :
  formula_ok D L l → formula_ok D R r → k = AND ∨ k = OR ∨ k = IFF →
  checked (FORM k l r) ⇓ formula_ok D (λ ρ, bv_eval (form_op k) 1 (L ρ) (R ρ)).
Proof.
  intros (Hl & Tl & Vl) (Hr & Tr & Vr) Hk. interface; [destruct Hk as [->|[->| ->]]; done|done|].
  intros ρ Hρ Hd. operands. split; [by destruct Hk as [->|[->| ->]]|].
  replace 1 with (bv_width (form_op k) 1) at 1 by (by destruct Hk as [->|[->| ->]]). apply bv_eval_bounded; done || lia.
Qed.

Lemma not_ok D V n : formula_ok D V n → vc_notExpr n ⇓ formula_ok D (λ ρ, 1 - V ρ).
Proof.
  intros (Hn & Tn & Vn). unfold vc_notExpr. interface; [done..|]. intros ρ Hρ Hd. operands. split; [done|].
  unfold bounded in *. change (2 ^ 1) with 2 in *. lia.
Qed.

Lemma true_ok D : formula_ok D (λ _, 1) vc_trueExpr.
Proof. by apply create_formula. Qed.

Lemma false_ok D : formula_ok D (λ _, 0) vc_falseExpr.
Proof. by apply create_formula. Qed.

Lemma ite_bits_ok D w C T E c t e :
  formula_ok D C c → bits_ok D w T t → bits_ok D w E e →
  vc_iteExpr c t e ⇓ bits_ok D w (λ ρ, if C ρ =? 1 then T ρ else E ρ).
Proof.
  intros (Hc & Tc & Vc) (Ht & Tt & Vt) (He & Te & Ve). unfold vc_iteExpr. interface.
  - split_and!; try done; [destruct Tt, Te; congruence|eauto].
  - done.
  - intros ρ Hρ Hd. operands. split; [done|]. by case_step.
Qed.

Lemma ite_formula_ok D C T E c t e :
  formula_ok D C c → formula_ok D T t → formula_ok D E e →
  vc_iteExpr c t e ⇓ formula_ok D (λ ρ, if C ρ =? 1 then T ρ else E ρ).
Proof.
  intros (Hc & Tc & Vc) (Ht & Tt & Vt) (He & Te & Ve). unfold vc_iteExpr. interface.
  - split_and!; try done; [unfold is_formula in *; congruence|by left].
  - done.
  - intros ρ Hρ Hd. operands. split; [done|]. by case_step.
Qed.

Lemma concat_ok D wl wr L R l r :
  bits_ok D wl L l → bits_ok D wr R r → wl + wr < 2 ^ 32 →
  vc_bvConcatExpr l r ⇓ bits_ok D (wl + wr) (λ ρ, bv_concat wr (L ρ) (R ρ)).
Proof.
  intros (Hl & Tl & Vl) (Hr & Tr & Vr) Hw. destruct (proj2 Tl), (proj2 Tr). unfold vc_bvConcatExpr. interface.
  - split_and!; eauto.
  - split; [|lia]. unfold node_type. cbn. rewrite (is_bits_width l wl Tl), (is_bits_width r wr Tr), u32_small by lia. done.
  - intros ρ Hρ Hd. operands. rewrite (is_bits_width r wr Tr). split; [done|]. apply bv_concat_bounded; done || lia.
Qed.

Lemma uminus_ok D w V n : bits_ok D w V n → vc_bvUMinusExpr n ⇓ bits_ok D w (λ ρ, (- V ρ) mod 2 ^ w).
Proof.
  intros (Hn & Tn & Vn). destruct (proj2 Tn). unfold vc_bvUMinusExpr. interface; [cbn; eauto|by apply (same_bits n)|].
  intros ρ Hρ Hd. operands. rewrite (is_bits_width n w Tn). auto with klee lia.
Qed.

Lemma neg_ok D w V n : bits_ok D w V n → vc_bvNotExpr n ⇓ bits_ok D w (λ ρ, bv_not w (V ρ)).
Proof.
  intros (Hn & Tn & Vn). destruct (proj2 Tn). unfold vc_bvNotExpr. interface; [cbn; eauto|by apply (same_bits n)|].
  intros ρ Hρ Hd. operands. rewrite (is_bits_width n w Tn). split; [done|]. apply bv_not_bounded. lia.
Qed.

Lemma extract_ok D w V n hi low :
  bits_ok D w V n → 0 ≤ low ≤ hi → hi < w →
  vc_bvExtract n hi low ⇓ bits_ok D (hi - low + 1) (λ ρ, bv_extract (V ρ) low (hi - low + 1)).
Proof.
  intros (Hn & Tn & Vn) Hlow Hhi. destruct (proj2 Tn). unfold vc_bvExtract. interface.
  - cbn. eauto.
  - split; [|lia]. unfold node_type. cbn. rewrite u32_small by lia. done.
  - intros ρ Hρ Hd. operands. split; [done|]. apply bv_extract_bounded. lia.
Qed.

Lemma sign_extend_ok D w V n wo :
  bits_ok D w V n → w < wo < 2 ^ 32 → vc_bvSignExtend n wo ⇓ bits_ok D wo (λ ρ, bv_sext w (V ρ) wo).
Proof.
  intros (Hn & Tn & Vn) Hw. destruct (proj2 Tn). unfold vc_bvSignExtend. ystep; [by apply well_sorted_check|].
  rewrite (is_bits_width n w Tn), (proj2 (Z.leb_gt wo w)) by lia. interface.
  - cbn. split_and!; [done|lia|]. exists w. split; [done|lia].
  - split; [done|lia].
  - intros ρ Hρ Hd. operands. rewrite (is_bits_width n w Tn). split; [done|]. apply bv_sext_bounded. lia.
Qed.

Lemma array_read_ok D (DA : assignment → Z → Prop) A V a n :
  array_ok DA A a → bits_ok D 32 V n → (∀ ρ, wf_assignment ρ → D ρ → DA ρ (V ρ)) →
  vc_readExpr a n ⇓ bits_ok D 8 (λ ρ, A ρ (V ρ)).
Proof.
  intros (Ha & Ta & Va) (Hn & Tn & Vn) HD. unfold vc_readExpr. interface; [done| |].
  - split; [|lia]. unfold node_type. cbn. by injection Ta as _ ->.
  - intros ρ Hρ Hd. operands. auto.
Qed.

Lemma array_write_ok (DI DV : assignment → Prop) (DA : assignment → Z → Prop) A I V a i v :
  array_ok DA A a → bits_ok DI 32 I i → bits_ok DV 8 V v →
  vc_writeExpr a i v ⇓ array_ok (λ ρ j, DI ρ ∧ if I ρ =? j then DV ρ else DA ρ j)
    (λ ρ j, if I ρ =? j then V ρ else A ρ j).
Proof.
  intros (Ha & Ta & Va) (Hi & Ti & Vi) (Hv & Tv & Vv). unfold vc_writeExpr. interface; [done..|].
  intros ρ j Hρ [Hdi Hd]. operands. destruct (_ =? j); auto.
Qed.

Lemma array_var_ok root : vc_arrayVar root ⇓ array_ok (λ _ _, True) (λ ρ j, ρ root j).
Proof. unfold vc_arrayVar. ystep; [done|]. ystep. split_and!; [done..|]. intros ρ j Hρ _. split; [done|apply Hρ]. Qed.
End terms.
