(* ===== verification/STPBuilder.v ===== *)
(** * Translation of expressions to STP: [lib/Solver/STPBuilder.h] and
      [lib/Solver/STPBuilder.cpp]

    [construct] translates an expression to a node of STP: an expression of width 1 to a
    formula, any other to a bit vector.  Shifts by variable amounts become chains of
    conditionals, multiplications by constants become sums of shifts, and 32-bit
    divisions by constants become multiplications.  Translated expressions are kept in
    a table during one query.  The nodes of arrays and of update nodes are kept beyond, in
    the objects themselves ([stpInitialArray], [stpArray]): each of them is tagged with the
    validity checker that it belongs to, and using one of a checker that was destroyed is a
    failure.

    The reference counts of handles and the temporary variables, which no code uses, are
    left out. *)

From stdpp Require Import prelude gmap.
From S2P Require Import Prelude Bitvec Bits ConstantDivision APInt ExprData ExprConstants ExprUtil STPExpr.

(** [APInt::getLimitedValue()] *)
Class APIntLimit : Set := ap_getLimitedValue : Z → Z → Z.

Class APIntLimitLaws `{APIntLimit} : Prop :=
  ap_getLimitedValue_spec w v : 0 < w ≤ 64 → v `bits` w → ap_getLimitedValue w v = v.

(** The options of the translation *)
Class BuilderOptions : Set := { UseConstructHash : bool; optimizeDivides : bool }.

Section builder.
Context `{NodeFactory}.

(** ** Constants *)

Definition getTrue : VCExpr := vc_trueExpr.
Definition getFalse : VCExpr := vc_falseExpr.
Definition bvConst32 (width value : Z) : outcome VCExpr := vc_bvConstExprFromInt width value.
Definition bvConst64 (width value : Z) : outcome VCExpr := vc_bvConstExprFromLL width value.

(** The loop and the last line of [bvZExtConst] *)
Fixpoint bvZExtConst_loop (fuel : nat) (width : Z) (zero expr : VCExpr) : outcome VCExpr :=
  if 64 <? width then
    match fuel with
    | O => OutOfFuel
    | S fuel => expr ← vc_bvConcatExpr zero expr; bvZExtConst_loop fuel (width - 64) zero expr
    end
  else top ← bvConst64 width 0; vc_bvConcatExpr top expr.

Definition bvZExtConst (width value : Z) : outcome VCExpr :=
  if width <=? 64 then bvConst64 width value
  else
    expr ← bvConst64 64 value;
    zero ← bvConst64 64 0;
    bvZExtConst_loop (Z.to_nat width) (width - 64) zero expr.

Definition bvSExtConst (width value : Z) : outcome VCExpr :=
  if width <=? 64 then bvConst64 width value
  else expr ← bvConst64 64 value; vc_bvSignExtend expr width.

Definition bvOne (width : Z) : outcome VCExpr := bvZExtConst width 1.
Definition bvZero (width : Z) : outcome VCExpr := bvZExtConst width 0.
Definition bvMinusOne (width : Z) : outcome VCExpr := bvSExtConst width (u64 (-1)).

Definition bvExtract (expr : VCExpr) (top bottom : Z) : outcome VCExpr := vc_bvExtract expr top bottom.

Definition bvBoolExtract (expr : VCExpr) (bit : Z) : outcome VCExpr :=
  x ← bvExtract expr bit bit; one ← bvOne 1; vc_eqExpr x one.

Definition eqExpr (a b : VCExpr) : outcome VCExpr := vc_eqExpr a b.

(** ** Shifts *)

(** [while (amount >>= 1) bits++;] *)
Fixpoint getShiftBits_loop (fuel : nat) (amount bits : Z) : outcome Z :=
  let amount := Z.shiftr amount 1 in
  if amount =? 0 then Done bits
  else match fuel with O => OutOfFuel | S fuel => getShiftBits_loop fuel amount (bits + 1) end.

(** [amount] has 32 bits. *)
Definition getShiftBits (amount : Z) : outcome Z := getShiftBits_loop 32 (u32 (amount - 1)) 1.

Definition bvRightShift (expr : VCExpr) (amount shiftBits : Z) : outcome VCExpr :=
  width ← vc_getBVLength expr;
  let shift := Z.land amount (Z.shiftl 1 shiftBits - 1) in
  if shift =? 0 then Done expr
  else if width <=? shift then bvZero width
  else
    zero ← bvZero shift;
    x ← bvExtract expr (width - 1) shift;
    vc_bvConcatExpr zero x.

Definition bvLeftShift (expr : VCExpr) (amount shiftBits : Z) : outcome VCExpr :=
  width ← vc_getBVLength expr;
  let shift := Z.land amount (Z.shiftl 1 shiftBits - 1) in
  if shift =? 0 then Done expr
  else if width <=? shift then bvZero width
  else
    x ← bvExtract expr (width - shift - 1) 0;
    zero ← bvZero shift;
    vc_bvConcatExpr x zero.

Definition constructAShrByConstant (expr : VCExpr) (amount : Z) (isSigned : VCExpr) (shiftBits : Z) :
    outcome VCExpr :=
  width ← vc_getBVLength expr;
  let shift := Z.land amount (Z.shiftl 1 shiftBits - 1) in
  if shift =? 0 then Done expr
  else if width - 1 <=? shift then
    ones ← bvMinusOne width; zero ← bvZero width; vc_iteExpr isSigned ones zero
  else
    ones ← bvMinusOne shift;
    x ← bvExtract expr (width - 1) shift;
    filled ← vc_bvConcatExpr ones x;
    shifted ← bvRightShift expr shift shiftBits;
    vc_iteExpr isSigned filled shifted.

(** The loops that build one case per shift amount, from [n - 1] down to 0; [by_constant]
    is the shift by a constant. *)
Fixpoint var_shift_loop (by_constant : Z → outcome VCExpr) (shift : VCExpr) (shiftBits : Z) (n : nat)
    (res : VCExpr) : outcome VCExpr :=
  match n with
  | O => Done res
  | S i =>
      c ← bvConst32 shiftBits (Z.of_nat i);
      eq ← eqExpr shift c;
      shifted ← by_constant (Z.of_nat i);
      res ← vc_iteExpr eq shifted res;
      var_shift_loop by_constant shift shiftBits i res
  end.

Definition bvVarLeftShift (expr amount : VCExpr) (width : Z) : outcome VCExpr :=
  res ← bvZero width;
  shiftBits ← getShiftBits width;
  shift ← vc_bvExtract amount (shiftBits - 1) 0;
  var_shift_loop (λ i, bvLeftShift expr i shiftBits) shift shiftBits (Z.to_nat width) res.

Definition bvVarRightShift (expr amount : VCExpr) (width : Z) : outcome VCExpr :=
  res ← bvZero width;
  shiftBits ← getShiftBits width;
  shift ← vc_bvExtract amount (shiftBits - 1) 0;
  var_shift_loop (λ i, bvRightShift expr i shiftBits) shift shiftBits (Z.to_nat width) res.

Definition bvVarArithRightShift (expr amount : VCExpr) (width : Z) : outcome VCExpr :=
  shiftBits ← getShiftBits width;
  shift ← vc_bvExtract amount (shiftBits - 1) 0;
  signedBool ← bvBoolExtract expr (width - 1);
  res ← constructAShrByConstant expr (width - 1) signedBool shiftBits;
  var_shift_loop (λ i, constructAShrByConstant expr i signedBool shiftBits) shift shiftBits
    (Z.to_nat (width - 1)) res.

(** ** Multiplication and division by constants *)

(** The loop over the bits [j] of the constants, from [n - 1] down to 0; the result is
    null ([None]) as long as no bit is set. *)
Fixpoint mul_bits_loop (expr : VCExpr) (width shiftBits add sub : Z) (n : nat) (res : option VCExpr) :
    outcome (option VCExpr) :=
  match n with
  | O => Done res
  | S j =>
      let bit := u64 (Z.shiftl 1 (Z.of_nat j)) in
      let in_add := negb (Z.land add bit =? 0) in
      let in_sub := negb (Z.land sub bit =? 0) in
      if in_add || in_sub then
        _ ← cassert (negb (in_add && in_sub));
        op ← bvLeftShift expr (Z.of_nat j) shiftBits;
        res ← (if in_add then
                 match res with Some r => vc_bvPlusExpr width r op | None => Done op end
               else
                 match res with Some r => vc_bvMinusExpr width r op | None => vc_bvUMinusExpr op end);
        mul_bits_loop expr width shiftBits add sub j (Some res)
      else mul_bits_loop expr width shiftBits add sub j res
  end.

Definition constructMulByConstant (expr : VCExpr) (width x : Z) : outcome VCExpr :=
  shiftBits ← getShiftBits width;
  '(add, sub) ← ComputeMultConstants64 x;
  res ← mul_bits_loop expr width shiftBits (bits64.truncateToNBits add width) (bits64.truncateToNBits sub width) 64 None;
  match res with Some res => Done res | None => bvZero width end.

Definition constructUDivByConstant (expr_n : VCExpr) (width d : Z) : outcome VCExpr :=
  _ ← cassert (width =? 32);
  '(mprime, sh1, sh2) ← ComputeUDivConstants32 (u32 d);
  expr_sh1 ← bvConst32 32 sh1;
  expr_sh2 ← bvConst32 32 sh2;
  zero ← bvZero 32;
  expr_n_64 ← vc_bvConcatExpr zero expr_n;
  t1_64bits ← constructMulByConstant expr_n_64 64 mprime;
  t1 ← vc_bvExtract t1_64bits 63 32;
  n_minus_t1 ← vc_bvMinusExpr width expr_n t1;
  shift_sh1 ← bvVarRightShift n_minus_t1 expr_sh1 32;
  plus_t1 ← vc_bvPlusExpr width shift_sh1 t1;
  bvVarRightShift plus_t1 expr_sh2 32.

Definition constructSDivByConstant (expr_n : VCExpr) (width d : Z) : outcome VCExpr :=
  _ ← cassert (width =? 32);
  '(mprime, dsign, shpost) ← ComputeSDivConstants32 (s32 d);
  expr_dsign ← bvConst32 32 (u32 dsign);
  expr_shpost ← bvConst32 32 (u32 shpost);
  expr_n_64 ← vc_bvSignExtend expr_n 64;
  mult_64 ← constructMulByConstant expr_n_64 64 (u64 mprime);
  mulsh ← vc_bvExtract mult_64 63 32;
  n_plus_mulsh ← vc_bvPlusExpr width expr_n mulsh;
  extend_npm ← vc_bvSignExtend n_plus_mulsh 64;
  shift_npm ← bvVarRightShift extend_npm expr_shpost 64;
  shift_shpost ← vc_bvExtract shift_npm 31 0;
  is_signed ← bvBoolExtract expr_n 31;
  neg_one ← bvMinusOne 32;
  zero ← bvZero 32;
  xsign_of_n ← vc_iteExpr is_signed neg_one zero;
  q0 ← vc_bvMinusExpr width shift_shpost xsign_of_n;
  q0_xor_dsign ← vc_bvXorExpr q0 expr_dsign;
  vc_bvMinusExpr width q0_xor_dsign expr_dsign.

(** ** Expressions *)

Context `{APIntOps} `{APIntLimit} `{ArrayStore} `{BuilderOptions} `{NodeIdentity}.

(** The loop of the case [Constant] over the words of a wide constant *)
Fixpoint const_words_loop (fuel : nat) (Tmp : ConstantExpr) (Res : VCExpr) : outcome VCExpr :=
  if 64 <? cwidth Tmp then
    match fuel with
    | O => OutOfFuel
    | S fuel =>
        let Tmp := CE_Extract Tmp 64 (cwidth Tmp - 64) in
        let Width := Z.min 64 (cwidth Tmp) in
        v ← getZExtValue (CE_Extract Tmp 0 Width) 64;
        word ← bvConst64 Width v;
        Res ← vc_bvConcatExpr word Res;
        const_words_loop fuel Tmp Res
    end
  else Done Res.

(** The case [Constant] of [constructActual] *)
Definition constructConstant (CE : ConstantExpr) : outcome (VCExpr * Z) :=
  let width := cwidth CE in
  r ← (if width =? 1 then t ← CE_isTrue CE; Done (if (t : bool) then getTrue else getFalse)
       else if width <=? 32 then v ← getZExtValue CE 32; bvConst32 width v
       else if width <=? 64 then v ← getZExtValue CE 64; bvConst64 width v
       else
         v ← getZExtValue (CE_Extract CE 0 64) 64;
         Res ← bvConst64 64 v;
         const_words_loop (Z.to_nat width) CE Res);
  Done (r, width).

(** The loop of [getInitialArray] over the constants of the array *)
Fixpoint initial_writes (i : Z) (values : list ConstantExpr) (prev : VCExpr) : outcome VCExpr :=
  match values with
  | [] => Done prev
  | c :: values =>
      '(index, _) ← constructConstant (alloc i Int32);
      '(value, _) ← constructConstant c;
      next ← vc_writeExpr prev index value;
      initial_writes (i + 1) values next
  end.

(** The name of the variable of an array is that of the array followed by [_] and its
    address, in a buffer of 256 bytes.  The address takes at most 18 characters and makes
    the name unique.  A name that does not fit would be cut, and STP would take two
    variables of the same name for one: this counts as a failure. *)
Definition name_fits (root : Array) : bool := (String.length (array_name (deref root)) <=? 236)%nat.

(** The second branch of [getInitialArray] *)
Definition initial_array (root : Array) : outcome VCExpr :=
  _ ← cassert (name_fits root);
  arr ← vc_arrayVar root;
  if isSymbolicArray root then Done arr
  else initial_writes 0 (constantValues (deref root)) arr.

(** [constructed], the table of translated expressions with their widths *)
Definition Constructed : Set := list (Expr * (VCExpr * Z)).

(** A node that is kept beyond a query, with the number of the validity checker that it
    belongs to *)
Definition Handle : Set := nat * VCExpr.

(** [class STPBuilder] with the number of its validity checker, and the nodes that are
    kept in the arrays and in the update nodes of the program.  An update node belongs to
    the updates of one array. *)
Record Builder : Set := mkBuilder {
  checker : nat;
  constructed : Constructed;
  stpInitialArray : gmap Array Handle;
  stpArray : list (Array * UpdateNode * Handle);
}.

Definition set_constructed (c : Constructed) (b : Builder) : Builder :=
  mkBuilder (checker b) c (stpInitialArray b) (stpArray b).

(** A node that was kept is used again. *)
Definition use_handle (h : Handle) : M Builder VCExpr := λ b,
  _ ← cassert (h.1 =? checker b)%nat; Done (h.2, b).

Definition keep_initial (root : Array) (n : VCExpr) : M Builder VCExpr := λ b,
  Done (n, mkBuilder (checker b) (constructed b) (<[root := (checker b, n)]> (stpInitialArray b)) (stpArray b)).

Definition keep_update (root : Array) (un : UpdateNode) (n : VCExpr) : M Builder VCExpr := λ b,
  Done (n, mkBuilder (checker b) (constructed b) (stpInitialArray b) ((root, un, (checker b, n)) :: stpArray b)).

Fixpoint find_update (root : Array) (un : UpdateNode) (l : list (Array * UpdateNode * Handle)) : option Handle :=
  match l with
  | [] => None
  | (root', un', h) :: l => if bool_decide (root' = root) && same_node un' un then Some h else find_update root un l
  end.

Definition getInitialArray (root : Array) : M Builder VCExpr := λ b,
  match stpInitialArray b !! root with
  | Some h => use_handle h b
  | None => (n ← lift (initial_array root); keep_initial root n) b
  end.

Definition getInitialRead (root : Array) (index : Z) : M Builder VCExpr :=
  arr ← getInitialArray root; lift (i ← bvConst32 32 index; vc_readExpr arr i).

Fixpoint constructed_find (e : Expr) (table : Constructed) : option (VCExpr * Z) :=
  match table with
  | [] => None
  | (e', r) :: table => if eqE e' e then Some r else constructed_find e table
  end.

Definition constructed_insert (e : Expr) (r : VCExpr * Z) : M Builder unit := λ b,
  Done (tt, match constructed_find e (constructed b) with
            | Some _ => b
            | None => set_constructed ((e, r) :: constructed b) b
            end).

(** [constructActual], with the functions that it calls recursively.  A result carries
    the width that the source stores in [*width_out]. *)
Section actual.
Context (construct : Expr → M Builder (VCExpr * Z)) (getArrayForUpdate : Array → UpdateNode → M Builder VCExpr).

(** The assertion that the operands are not formulas *)
Definition not_bool (width : Z) : M Builder unit := lift (cassert (negb (width =? 1))).

(** Both operands, and the width of the second one *)
Definition construct_both (l r : Expr) : M Builder (VCExpr * VCExpr * Z) :=
  '(left', _) ← construct l; '(right', width) ← construct r; mret (left', right', width).

(** An operator without special cases *)
Definition construct_term (op : Z → VCExpr → VCExpr → outcome VCExpr) (l r : Expr) : M Builder (VCExpr * Z) :=
  '(left', right', width) ← construct_both l r;
  _ ← not_bool width;
  res ← lift (op width left' right');
  mret (res, width).

Definition construct_compare (op : VCExpr → VCExpr → outcome VCExpr) (l r : Expr) : M Builder (VCExpr * Z) :=
  '(left', right', width) ← construct_both l r;
  _ ← not_bool width;
  res ← lift (op left' right');
  mret (res, 1).

(** A bitwise operator, on formulas or on bit vectors *)
Definition construct_bitwise (form bits : VCExpr → VCExpr → outcome VCExpr) (l r : Expr) : M Builder (VCExpr * Z) :=
  '(left', right', width) ← construct_both l r;
  res ← lift (if width =? 1 then form left' right' else bits left' right');
  mret (res, width).

(** [vc_iteExpr(left, !right, right)] *)
Definition xor_formulas (left' right' : VCExpr) : outcome VCExpr :=
  n ← vc_notExpr right'; vc_iteExpr left' n right'.

Definition construct_mul (l r : Expr) : M Builder (VCExpr * Z) :=
  '(right', width) ← construct r;
  _ ← not_bool width;
  let general := '(left', width) ← construct l; res ← lift (vc_bvMultExpr width left' right'); mret (res, width) in
  match l with
  | Constant CE =>
      if cwidth CE <=? 64 then
        x ← lift (getZExtValue CE 64);
        res ← lift (constructMulByConstant right' width x);
        mret (res, width)
      else general
  | _ => general
  end.

Definition construct_udiv (l r : Expr) : M Builder (VCExpr * Z) :=
  '(left', width) ← construct l;
  _ ← not_bool width;
  let general := '(right', width) ← construct r; res ← lift (vc_bvDivExpr width left' right'); mret (res, width) in
  match r with
  | Constant CE =>
      if cwidth CE <=? 64 then
        divisor ← lift (getZExtValue CE 64);
        if negb (bits64.isPowerOfTwo divisor =? 0) then
          shiftBits ← lift (getShiftBits width);
          res ← lift (bvRightShift left' (bits64.indexOfSingleBit divisor) shiftBits);
          mret (res, width)
        else if optimizeDivides && (width =? 32) then
          res ← lift (constructUDivByConstant left' width (u32 divisor));
          mret (res, width)
        else general
      else general
  | _ => general
  end.

Definition construct_sdiv (l r : Expr) : M Builder (VCExpr * Z) :=
  '(left', width) ← construct l;
  _ ← not_bool width;
  let general := '(right', width) ← construct r; res ← lift (vc_sbvDivExpr width left' right'); mret (res, width) in
  match r with
  | Constant CE =>
      if optimizeDivides && (width =? 32) then
        d ← lift (getZExtValue CE 32);
        res ← lift (constructSDivByConstant left' width d);
        mret (res, width)
      else general
  | _ => general
  end.

Definition construct_urem (l r : Expr) : M Builder (VCExpr * Z) :=
  '(left', width) ← construct l;
  _ ← not_bool width;
  let general := '(right', width) ← construct r; res ← lift (vc_bvModExpr width left' right'); mret (res, width) in
  match r with
  | Constant CE =>
      if cwidth CE <=? 64 then
        divisor ← lift (getZExtValue CE 64);
        if negb (bits64.isPowerOfTwo divisor =? 0) then
          let bits := bits64.indexOfSingleBit divisor in
          res ← lift (if bits =? 0 then bvZero width
                      else zero ← bvZero (width - bits); x ← bvExtract left' (bits - 1) 0; vc_bvConcatExpr zero x);
          mret (res, width)
        else if optimizeDivides && (width =? 32) then
          rem ← lift (quotient ← constructUDivByConstant left' width (u32 divisor);
                      quot_times_divisor ← constructMulByConstant quotient width divisor;
                      vc_bvMinusExpr width left' quot_times_divisor);
          mret (rem, width)
        else general
      else general
  | _ => general
  end.

(** [(unsigned) CE->getLimitedValue()] *)
Definition limited_value (CE : ConstantExpr) : Z := u32 (ap_getLimitedValue (cwidth CE) (cvalue CE)).

(** The three shifts; [by_constant] takes the shift amount and the number of bits of
    amounts, [by_variable] the translated amount and the width. *)
Definition construct_shift (by_constant : VCExpr → Z → Z → Z → outcome VCExpr)
    (by_variable : VCExpr → VCExpr → Z → outcome VCExpr) (l r : Expr) : M Builder (VCExpr * Z) :=
  '(left', width) ← construct l;
  _ ← not_bool width;
  match r with
  | Constant CE =>
      shiftBits ← lift (getShiftBits width);
      res ← lift (by_constant left' (limited_value CE) shiftBits width);
      mret (res, width)
  | _ =>
      '(amount, _) ← construct r;
      res ← lift (by_variable left' amount width);
      mret (res, width)
  end.

(** The arithmetic shift by a constant takes the sign bit first. *)
Definition ashr_by_constant (left' : VCExpr) (shift shiftBits width : Z) : outcome VCExpr :=
  signedBool ← bvBoolExtract left' (width - 1);
  constructAShrByConstant left' shift signedBool shiftBits.

Definition construct_eq (l r : Expr) : M Builder (VCExpr * Z) :=
  '(left', right', width) ← construct_both l r;
  if width =? 1 then
    res ← lift (match l with
      | Constant CE => t ← CE_isTrue CE; if (t : bool) then Done right' else vc_notExpr right'
      | _ => vc_iffExpr left' right'
      end);
    mret (res, width)
  else res ← lift (vc_eqExpr left' right'); mret (res, 1).

Definition construct_binary (k : BinaryKind) (l r : Expr) : M Builder (VCExpr * Z) :=
  match k with
  | Add => construct_term vc_bvPlusExpr l r
  | Sub => construct_term vc_bvMinusExpr l r
  | Mul => construct_mul l r
  | UDiv => construct_udiv l r
  | SDiv => construct_sdiv l r
  | URem => construct_urem l r
  | SRem => construct_term vc_sbvModExpr l r
  | And => construct_bitwise vc_andExpr vc_bvAndExpr l r
  | Or => construct_bitwise vc_orExpr vc_bvOrExpr l r
  | Xor => construct_bitwise xor_formulas vc_bvXorExpr l r
  | Shl => construct_shift (λ x amount shiftBits _, bvLeftShift x amount shiftBits) bvVarLeftShift l r
  | LShr => construct_shift (λ x amount shiftBits _, bvRightShift x amount shiftBits) bvVarRightShift l r
  | AShr => construct_shift ashr_by_constant bvVarArithRightShift l r
  | Eq => construct_eq l r
  | Ult => construct_compare vc_bvLtExpr l r
  | Ule => construct_compare vc_bvLeExpr l r
  | Slt => construct_compare vc_sbvLtExpr l r
  | Sle => construct_compare vc_sbvLeExpr l r
  | Ne | Ugt | Uge | Sgt | Sge => lift AssertFailed
  end.

Definition constructActual (e : Expr) : M Builder (VCExpr * Z) :=
  match e with
  | Constant CE => lift (constructConstant CE)
  | NotOptimized src => construct src
  | Read root head index =>
      a ← getArrayForUpdate root head;
      '(i, _) ← construct index;
      res ← lift (vc_readExpr a i);
      mret (res, 8)
  | Select c t f =>
      '(cond, _) ← construct c;
      '(tExpr, _) ← construct t;
      '(fExpr, width) ← construct f;
      res ← lift (vc_iteExpr cond tExpr fExpr);
      mret (res, width)
  | Concat l r =>
      '(res, _) ← construct r;
      '(x, _) ← construct l;
      res ← lift (vc_bvConcatExpr x res);
      mret (res, getWidth e)
  | Extract e' off w =>
      '(src, _) ← construct e';
      res ← lift (if w =? 1 then bvBoolExtract src off else vc_bvExtract src (off + w - 1) off);
      mret (res, w)
  | ZExt e' w =>
      '(src, srcWidth) ← construct e';
      res ← lift (if srcWidth =? 1 then one ← bvOne w; zero ← bvZero w; vc_iteExpr src one zero
                  else zero ← bvZero (w - srcWidth); vc_bvConcatExpr zero src);
      mret (res, w)
  | SExt e' w =>
      '(src, srcWidth) ← construct e';
      res ← lift (if srcWidth =? 1 then ones ← bvMinusOne w; zero ← bvZero w; vc_iteExpr src ones zero
                  else vc_bvSignExtend src w);
      mret (res, w)
  | Not e' =>
      '(x, width) ← construct e';
      res ← lift (if width =? 1 then vc_notExpr x else vc_bvNotExpr x);
      mret (res, width)
  | Binary k l r => construct_binary k l r
  end.

End actual.

Fixpoint construct (e : Expr) : M Builder (VCExpr * Z) :=
  if negb UseConstructHash || isConstant e then constructActual construct getArrayForUpdate e
  else λ b,
    match constructed_find e (constructed b) with
    | Some r => Done (r, b)
    | None =>
        (r ← constructActual construct getArrayForUpdate e;
         _ ← constructed_insert e r;
         mret r) b
    end
with getArrayForUpdate (root : Array) (un : UpdateNode) : M Builder VCExpr :=
  match un with
  | NullNode => getInitialArray root
  | Node next index value => λ b,
      match find_update root un (stpArray b) with
      | Some h => use_handle h b
      | None =>
          (a ← getArrayForUpdate root next;
           '(i, _) ← construct index;
           '(v, _) ← construct value;
           n ← lift (vc_writeExpr a i v);
           keep_update root un n) b
      end
  end.

Definition constructed_clear : M Builder unit := λ b, Done (tt, set_constructed [] b).

(** [construct(e)] for the users of the builder, which clears the table *)
Definition construct_query (e : Expr) : M Builder VCExpr :=
  '(res, _) ← construct e; _ ← constructed_clear; mret res.

End builder.
