(* ===== verification/STPArithmetic.v ===== *)
(** * The arithmetic of the translation to STP

    What the functions of [STPBuilder] for constants, shifts, and multiplications and
    divisions by constants return: well-sorted bit vectors whose values are those of the
    operations.  The domain [D] of the predicates is the set of assignments under which
    the operands are defined. *)

From stdpp Require Import prelude.
From S2P Require Import Prelude Bitvec Bits ConstantDivision APInt ExprData STPExpr STPBuilder.

(** A call whose result satisfies what the lemma [L] says *)
Ltac call L := apply yields_bind; eapply yields_mono; [eapply L|].

Lemma mask_amount a b : 0 ≤ b → a `bits` b → Z.land a (Z.shiftl 1 b - 1) = a.
Proof.
  intros Hb Ha. rewrite Z.shiftl_1_l, Z.sub_1_r, <- Z.ones_equiv, Z.land_ones by done. by apply bounded_small.
Qed.

(** The number of bits of a shift amount *)
Definition shift_bits_ok (w : Z) : bool :=
  match getShiftBits w with
  | Done b => (1 <=? b) && (b <=? 6) && (b <=? w) && (w <=? 2 ^ b)
  | _ => false
  end.

Lemma getShiftBits_ok w : 0 < w ≤ 64 → ∃ b, getShiftBits w = Done b ∧ 1 ≤ b ≤ 6 ∧ b ≤ w ∧ w ≤ 2 ^ b.
Proof.
  intros Hw. pose proof (forallb_range (λ w, shift_bits_ok (w + 1)) 64 eq_refl (w - 1) ltac:(lia)) as Hb. cbn beta in Hb.
  replace (w - 1 + 1) with w in Hb by lia. unfold shift_bits_ok in Hb. destruct (getShiftBits w) as [b| |]; try done.
  exists b. unbool. split; [done|]. lia.
Qed.

(** ** Values of the shifted and filled words *)

Lemma right_shift_value w v s : 0 < s < w → v `bits` w → bv_concat (w - 1 - s + 1) 0 (bv_extract v s (w - 1 - s + 1)) = Z.shiftr v s.
Proof.
  intros Hs Hv. unfold bv_concat. rewrite Z.shiftl_0_l, Z.lor_0_l. unfold bv_extract. apply bounded_small.
  rewrite Z.shiftr_div_pow2 by lia. destruct Hv. pose proof (pow2_pos s ltac:(lia)). split; [by apply Z.div_pos|].
  apply Z.div_lt_upper_bound; [done|]. rewrite <- Z.pow_add_r by lia. by replace (s + (w - 1 - s + 1)) with w by lia.
Qed.

Lemma shiftr_high w v s : w ≤ s → 0 ≤ w → v `bits` w → Z.shiftr v s = 0.
Proof.
  intros Hs Hw [Hv0 Hv]. rewrite Z.shiftr_div_pow2 by lia. apply Z.div_small. pose proof (pow2_le w s). lia.
Qed.

Lemma left_shift_value w v s : 0 < s < w → bv_concat s (bv_extract v 0 (w - s - 1 - 0 + 1)) 0 = Z.shiftl v s mod 2 ^ w.
Proof.
  intros Hs. apply Z.bits_inj'. intros i Hi. rewrite testbit_concat by (lia || apply bounded_0; lia).
  rewrite testbit_mod by lia. case_bool_decide.
  - rewrite Z.bits_0, Z.shiftl_spec_low by lia. by rewrite andb_false_r.
  - rewrite testbit_extract, Z.shiftl_spec by lia. replace (i - s + 0) with (i - s) by lia.
    f_equal. apply bool_decide_ext. lia.
Qed.

Lemma shiftl_high w v s : 0 ≤ w ≤ s → Z.shiftl v s mod 2 ^ w = 0.
Proof.
  intros Hs. rewrite Z.shiftl_mul_pow2 by lia. replace s with (s - w + w) by lia.
  rewrite Z.pow_add_r, Z.mul_assoc by lia. apply Z.mod_mul. pose proof (pow2_pos w). lia.
Qed.

(** The arithmetic shift, by the sign of the value *)
Lemma testbit_ashr w v s i :
  0 < w → 0 ≤ s → 0 ≤ i → v `bits` w →
  Z.testbit (Z.shiftr (sgn w v) s mod 2 ^ w) i = bool_decide (i < w) && Z.testbit v (if i + s <? w then i + s else w - 1).
Proof. intros. by rewrite testbit_mod, Z.shiftr_spec, testbit_sgn by (done || lia). Qed.

Lemma testbit_all_ones w i : 0 ≤ w → 0 ≤ i → Z.testbit (2 ^ w - 1) i = bool_decide (i < w).
Proof. intros. rewrite Z.sub_1_r, <- Z.ones_equiv. by apply testbit_ones. Qed.

Lemma all_ones_bounded w : 0 ≤ w → 2 ^ w - 1 `bits` w.
Proof. intros Hw. pose proof (pow2_pos w Hw). split; lia. Qed.

Lemma ashr_far w v s :
  0 < w → w - 1 ≤ s → v `bits` w →
  Z.shiftr (sgn w v) s mod 2 ^ w = if Z.testbit v (w - 1) then 2 ^ w - 1 else 0.
Proof.
  intros Hw Hs Hv. apply Z.bits_inj'. intros i Hi. rewrite testbit_ashr by (done || lia).
  replace (if i + s <? w then i + s else w - 1) with (w - 1) by (case_step; unbool; lia).
  destruct (Z.testbit v (w - 1)); [by rewrite andb_true_r, testbit_all_ones by lia|by rewrite andb_false_r, Z.bits_0].
Qed.

Lemma ashr_near w v s :
  0 < s < w - 1 → v `bits` w →
  Z.shiftr (sgn w v) s mod 2 ^ w =
  if Z.testbit v (w - 1) then bv_concat (w - 1 - s + 1) (2 ^ s - 1) (bv_extract v s (w - 1 - s + 1)) else Z.shiftr v s.
Proof.
  intros Hs Hv. apply Z.bits_inj'. intros i Hi. rewrite testbit_ashr by (done || lia). destruct (Z.testbit v (w - 1)) eqn:E.
  - rewrite testbit_concat by (lia || apply bv_extract_bounded; lia). destruct (decide (i < w - 1 - s + 1)).
    + rewrite (bool_decide_true (i < w - 1 - s + 1)), testbit_extract, !bool_decide_true, (proj2 (Z.ltb_lt _ _)) by lia. done.
    + rewrite (bool_decide_false (i < w - 1 - s + 1)), testbit_all_ones by lia.
      rewrite (proj2 (Z.ltb_ge _ _)), E, andb_true_r by lia. apply bool_decide_ext. lia.
  - rewrite Z.shiftr_spec by lia. destruct (i + s <? w) eqn:E1; unbool.
    + by rewrite bool_decide_true by lia.
    + rewrite E, andb_false_r. symmetry. by apply (testbit_high w).
Qed.

(** ** Constants and bits *)

Section arithmetic.
Context `{NodeFactoryLaws}.
Implicit Types D : assignment → Prop.

Lemma const64_ok D w v v' : 0 < w ≤ 64 → v mod 2 ^ w = v' → bvConst64 w v ⇓ bits_ok D w (λ _, v').
Proof.
  intros Hw <-. by apply const_LL_ok.
Qed.

Lemma bvZero_ok D w : 0 < w ≤ 64 → bvZero w ⇓ bits_ok D w (λ _, 0).
Proof.
  intros Hw. unfold bvZero, bvZExtConst. rewrite (proj2 (Z.leb_le w 64)) by lia. apply const64_ok; [done|]. apply Z.mod_0_l.
  pose proof (pow2_pos w). lia.
Qed.

Lemma bvOne_ok D w : 0 < w ≤ 64 → bvOne w ⇓ bits_ok D w (λ _, 1).
Proof.
  intros Hw. unfold bvOne, bvZExtConst. rewrite (proj2 (Z.leb_le w 64)) by lia. apply const64_ok; [done|].
  apply bounded_small. apply bounded_1. lia.
Qed.

Lemma bvMinusOne_ok D w : 0 < w ≤ 64 → bvMinusOne w ⇓ bits_ok D w (λ _, 2 ^ w - 1).
Proof.
  intros Hw. unfold bvMinusOne, bvSExtConst. rewrite (proj2 (Z.leb_le w 64)) by lia. apply const64_ok; [done|].
  unfold u64. rewrite mod_mod_pow2 by lia. pose proof (pow2_pos w ltac:(lia)). symmetry. apply (Z.mod_unique_pos _ _ (-1)); lia.
Qed.

Lemma bool_extract_ok D w V n bit :
  bits_ok D w V n → 0 ≤ bit < w → bvBoolExtract n bit ⇓ formula_ok D (λ ρ, Z.b2z (Z.testbit (V ρ) bit)).
Proof.
  intros Hn Hbit. unfold bvBoolExtract. call extract_ok; [done|lia..|]. intros x Hx. call bvOne_ok; [lia|]. intros one Hone.
  replace (bit - bit + 1) with 1 in Hx by lia. eapply yields_mono; [by apply (eq_ok D 1)|]. intros r Hr.
  eapply formula_ok_mono; [exact Hr|]. intros ρ _ Hd. split; [done|]. intros _. f_equal.
  unfold bv_extract. change (2 ^ 1) with 2. rewrite <- Z.bit0_mod, Z.shiftr_spec, Z.add_0_l by lia. by destruct (Z.testbit _ _).
Qed.

(** ** Shifts by constants *)

Lemma right_shift_ok D w V n a b :
  bits_ok D w V n → w ≤ 64 → 0 ≤ b → a `bits` b → bvRightShift n a b ⇓ bits_ok D w (λ ρ, Z.shiftr (V ρ) a).
Proof.
  intros Hn Hw Hb Ha. pose proof (bits_width _ _ _ _ Hn). unfold bvRightShift. rewrite (bv_length D w V n Hn). ystep. cbv zeta.
  rewrite mask_amount by done. destruct Ha as [Ha _]. destruct (a =? 0) eqn:E0; unbool; [|destruct (w <=? a) eqn:E1; unbool].
  - subst. apply yields_done. eapply bits_ok_mono; [exact Hn|]. intros ρ _ Hd. by rewrite Z.shiftr_0_r.
  - eapply yields_mono; [apply (bvZero_ok D); lia|]. intros z Hz. eapply bits_ok_mono; [exact Hz|]. intros ρ Hρ Hd.
    destruct Hn as (_ & _ & Hv). destruct (Hv ρ Hρ Hd) as [_ Hb']. split; [done|]. intros _. symmetry. by apply (shiftr_high w); [|lia|].
  - call (bvZero_ok D); [lia|]. intros z Hz. call extract_ok; [exact Hn|lia..|]. intros x Hx.
    eapply yields_mono; [eapply (concat_ok D); [exact Hz|exact Hx|lia]|]. replace (a + (w - 1 - a + 1)) with w by lia. intros r Hr.
    eapply bits_ok_mono; [exact Hr|]. intros ρ Hρ Hd. split; [done|]. intros _. destruct Hn as (_ & _ & Hv). apply right_shift_value; [lia|].
    by apply Hv.
Qed.

Lemma left_shift_ok D w V n a b :
  bits_ok D w V n → w ≤ 64 → 0 ≤ b → a `bits` b → bvLeftShift n a b ⇓ bits_ok D w (λ ρ, Z.shiftl (V ρ) a mod 2 ^ w).
Proof.
  intros Hn Hw Hb Ha. pose proof (bits_width _ _ _ _ Hn). unfold bvLeftShift. rewrite (bv_length D w V n Hn). ystep. cbv zeta.
  rewrite mask_amount by done. destruct Ha as [Ha _]. destruct (a =? 0) eqn:E0; unbool; [|destruct (w <=? a) eqn:E1; unbool].
  - subst. apply yields_done. eapply bits_ok_mono; [exact Hn|]. intros ρ _ Hd. split; [done|]. intros Hv.
    by rewrite Z.shiftl_0_r, bounded_small.
  - eapply yields_mono; [apply (bvZero_ok D); lia|]. intros z Hz. eapply bits_ok_mono; [exact Hz|]. intros ρ Hρ Hd.
    split; [done|]. intros _. by rewrite shiftl_high by lia.
  - call extract_ok; [exact Hn|lia..|]. intros x Hx. call (bvZero_ok D); [lia|]. intros z Hz.
    eapply yields_mono; [eapply (concat_ok D); [exact Hx|exact Hz|lia]|]. replace (w - a - 1 - 0 + 1 + a) with w by lia. intros r Hr.
    eapply bits_ok_mono; [exact Hr|]. intros ρ Hρ Hd. split; [done|]. intros _. apply left_shift_value. lia.
Qed.

Lemma ashr_ok D w V n sg a b :
  bits_ok D w V n → formula_ok D (λ ρ, Z.b2z (Z.testbit (V ρ) (w - 1))) sg → 1 < w ≤ 64 → 0 ≤ b → a `bits` b →
  constructAShrByConstant n a sg b ⇓ bits_ok D w (λ ρ, Z.shiftr (sgn w (V ρ)) a mod 2 ^ w).
Proof.
  intros Hn Hsg Hw Hb Ha. unfold constructAShrByConstant. rewrite (bv_length D w V n Hn). ystep. cbv zeta.
  rewrite mask_amount by done. pose proof Hn as (_ & _ & Hv). pose proof Ha as [Ha0 _].
  destruct (a =? 0) eqn:E0; unbool; [|destruct (w - 1 <=? a) eqn:E1; unbool].
  - subst. apply yields_done. eapply bits_ok_mono; [exact Hn|]. intros ρ _ Hd. split; [done|]. intros Hb'.
    by rewrite Z.shiftr_0_r, sgn_mod by (done || lia).
  - call (bvMinusOne_ok D); [lia|]. intros o Ho. call (bvZero_ok D); [lia|]. intros z Hz.
    eapply yields_mono; [by apply (ite_bits_ok D w)|]. intros r Hr. eapply bits_ok_mono; [exact Hr|]. intros ρ Hρ Hd. split; [done|].
    intros _. rewrite ashr_far by (lia || by apply Hv). by destruct (Z.testbit _ _).
  - call (bvMinusOne_ok D); [lia|]. intros o Ho. call extract_ok; [exact Hn|lia..|]. intros x Hx.
    call (concat_ok D); [exact Ho|exact Hx|lia|]. replace (a + (w - 1 - a + 1)) with w by lia. intros f Hf.
    call right_shift_ok; [exact Hn|lia|exact Hb|done|]. intros g Hg. eapply yields_mono; [by apply (ite_bits_ok D w)|]. intros r Hr.
    eapply bits_ok_mono; [exact Hr|]. intros ρ Hρ Hd. split; [done|]. intros _.
    rewrite ashr_near by (lia || by apply Hv). by destruct (Z.testbit _ _).
Qed.

(** Any other amount is first reduced to the bits of an amount. *)
Lemma mask_idempotent a b : 0 ≤ b → Z.land (a mod 2 ^ b) (Z.shiftl 1 b - 1) = Z.land a (Z.shiftl 1 b - 1).
Proof.
  intros Hb. rewrite Z.shiftl_1_l, Z.sub_1_r, <- Z.ones_equiv, !Z.land_ones by done. apply Z.mod_mod. pose proof (pow2_pos b). lia.
Qed.

Lemma right_shift_any_ok D w V n a b :
  bits_ok D w V n → w ≤ 64 → 0 ≤ b → bvRightShift n a b ⇓ bits_ok D w (λ ρ, Z.shiftr (V ρ) (a mod 2 ^ b)).
Proof.
  intros Hn Hw Hb. assert (bvRightShift n a b = bvRightShift n (a mod 2 ^ b) b) as -> by (unfold bvRightShift; by rewrite mask_idempotent).
  apply right_shift_ok; [done..|]. by apply bounded_mod.
Qed.

Lemma left_shift_any_ok D w V n a b :
  bits_ok D w V n → w ≤ 64 → 0 ≤ b → bvLeftShift n a b ⇓ bits_ok D w (λ ρ, Z.shiftl (V ρ) (a mod 2 ^ b) mod 2 ^ w).
Proof.
  intros Hn Hw Hb. assert (bvLeftShift n a b = bvLeftShift n (a mod 2 ^ b) b) as -> by (unfold bvLeftShift; by rewrite mask_idempotent).
  apply left_shift_ok; [done..|]. by apply bounded_mod.
Qed.

Lemma ashr_any_ok D w V n sg a b :
  bits_ok D w V n → formula_ok D (λ ρ, Z.b2z (Z.testbit (V ρ) (w - 1))) sg → 1 < w ≤ 64 → 0 ≤ b →
  constructAShrByConstant n a sg b ⇓ bits_ok D w (λ ρ, Z.shiftr (sgn w (V ρ)) (a mod 2 ^ b) mod 2 ^ w).
Proof.
  intros Hn Hsg Hw Hb. assert (constructAShrByConstant n a sg b = constructAShrByConstant n (a mod 2 ^ b) sg b) as ->.
  { unfold constructAShrByConstant. by rewrite mask_idempotent. }
  apply ashr_ok; [done..|]. by apply bounded_mod.
Qed.

(** ** Shifts by variable amounts *)

(** The chain of conditionals selects the shift by the value [S] of the amount. *)
Lemma var_shift_loop_ok D w b by_constant S shift (F : assignment → Z → Z) n : ∀ R res,
  bits_ok D b S shift → 0 < b ≤ 6 → Z.of_nat n ≤ 2 ^ b →
  (∀ i, 0 ≤ i < Z.of_nat n → by_constant i ⇓ bits_ok D w (λ ρ, F ρ i)) →
  bits_ok D w R res →
  var_shift_loop by_constant shift b n res ⇓ bits_ok D w (λ ρ, if S ρ <? Z.of_nat n then F ρ (S ρ) else R ρ).
Proof.
  induction n as [|n IH]; intros R res HS Hb Hn HF HR; cbn [var_shift_loop].
  { apply yields_done. eapply bits_ok_mono; [exact HR|]. intros ρ Hρ Hd. split; [done|]. intros _.
    destruct HS as (_ & _ & HS). destruct (HS ρ Hρ Hd) as [_ [Hb0 _]]. by rewrite (proj2 (Z.ltb_ge _ _)) by lia. }
  call (const_Int_ok D); [lia|split; lia|]. intros c Hc. call (eq_ok D); [exact HS|exact Hc|]. intros eq Heq.
  call (HF (Z.of_nat n)); [lia|]. intros s Hs. call (ite_bits_ok D w); [exact Heq|exact Hs|exact HR|]. intros r Hr.
  eapply yields_mono; [eapply IH; [exact HS|exact Hb|lia| |exact Hr]|].
  { intros i Hi. apply HF. lia. }
  intros r' Hr'. eapply bits_ok_mono; [exact Hr'|]. intros ρ Hρ Hd. split; [done|]. intros _.
  destruct (S ρ =? Z.of_nat n) eqn:E; unbool; cbn [Z.b2z Z.eqb].
  - rewrite E, Z.ltb_irrefl, (proj2 (Z.ltb_lt _ _)) by lia. done.
  - change (0 =? 1) with false. destruct (S ρ <? Z.of_nat n) eqn:E1, (S ρ <? Z.of_nat (Datatypes.S n)) eqn:E2; unbool; done || lia.
Qed.

Lemma amount_ok D w wa A amount b :
  bits_ok D wa A amount → 0 < b ≤ wa → w ≤ 2 ^ b → (∀ ρ, wf_assignment ρ → D ρ → A ρ < w) →
  vc_bvExtract amount (b - 1) 0 ⇓ bits_ok D b A.
Proof.
  intros HA Hb Hw Hlt. eapply yields_mono; [eapply extract_ok; [exact HA|lia..]|]. replace (b - 1 - 0 + 1) with b by lia.
  intros x Hx. eapply bits_ok_mono; [exact Hx|]. intros ρ Hρ Hd. split; [done|]. intros _. unfold bv_extract. rewrite Z.shiftr_0_r.
  specialize (Hlt ρ Hρ Hd). apply bounded_small. destruct HA as (_ & _ & HA). destruct (HA ρ Hρ Hd) as [_ [? _]]. split; lia.
Qed.

Section variable_shifts.
Context (D : assignment → Prop) (w wa : Z) (V A : assignment → Z) (n amount : VCExpr).
Hypotheses (Hn : bits_ok D w V n) (HA : bits_ok D wa A amount) (Hw : 1 < w ≤ 64) (Hwa : w ≤ wa ∨ 6 ≤ wa).
Hypothesis Hlt : ∀ ρ, wf_assignment ρ → D ρ → A ρ < w.

(** The amount is in range, so that one of the cases of the chain applies. *)
Lemma in_chain (F : assignment → Z → Z) R k r :
  Z.of_nat k = w → bits_ok D w (λ ρ, if A ρ <? Z.of_nat k then F ρ (A ρ) else R ρ) r → bits_ok D w (λ ρ, F ρ (A ρ)) r.
Proof.
  intros Hk Hr. eapply bits_ok_mono; [exact Hr|]. intros ρ Hρ Hd. specialize (Hlt ρ Hρ Hd). split; [done|]. intros _.
  by rewrite (proj2 (Z.ltb_lt _ _)) by lia.
Qed.

Lemma var_left_shift_ok : bvVarLeftShift n amount w ⇓ bits_ok D w (λ ρ, Z.shiftl (V ρ) (A ρ) mod 2 ^ w).
Proof.
  unfold bvVarLeftShift. call (bvZero_ok D); [lia|]. intros z Hz. destruct (getShiftBits_ok w) as (b & -> & Hb & Hbw & Hwb); [lia|]. ystep.
  call (amount_ok D w); [exact HA|lia|done|exact Hlt|]. intros s Hs. eapply yields_mono.
  - apply (var_shift_loop_ok D w b _ A s (λ ρ i, Z.shiftl (V ρ) i mod 2 ^ w) _ (λ _, 0)); [done|lia|lia| |done].
    intros i Hi. apply left_shift_ok; [done|lia|lia|split; lia].
  - intros r. apply (in_chain (λ ρ i, Z.shiftl (V ρ) i mod 2 ^ w)). lia.
Qed.

Lemma var_right_shift_ok : bvVarRightShift n amount w ⇓ bits_ok D w (λ ρ, Z.shiftr (V ρ) (A ρ)).
Proof.
  unfold bvVarRightShift. call (bvZero_ok D); [lia|]. intros z Hz. destruct (getShiftBits_ok w) as (b & -> & Hb & Hbw & Hwb); [lia|]. ystep.
  call (amount_ok D w); [exact HA|lia|done|exact Hlt|]. intros s Hs. eapply yields_mono.
  - apply (var_shift_loop_ok D w b _ A s (λ ρ i, Z.shiftr (V ρ) i) _ (λ _, 0)); [done|lia|lia| |done].
    intros i Hi. apply right_shift_ok; [done|lia|lia|split; lia].
  - intros r. apply (in_chain (λ ρ i, Z.shiftr (V ρ) i)). lia.
Qed.

(** The chain starts with the shift by [w - 1]. *)
Lemma var_ashr_ok : bvVarArithRightShift n amount w ⇓ bits_ok D w (λ ρ, Z.shiftr (sgn w (V ρ)) (A ρ) mod 2 ^ w).
Proof.
  unfold bvVarArithRightShift. destruct (getShiftBits_ok w) as (b & -> & Hb & Hbw & Hwb); [lia|]. ystep.
  call (amount_ok D w); [exact HA|lia|done|exact Hlt|]. intros s Hs.
  call (bool_extract_ok D w V n (w - 1)); [done|lia|]. intros sg Hsg.
  call (ashr_ok D w V n sg (w - 1) b); [done|done|lia|lia|split; lia|]. intros z Hz. eapply yields_mono.
  - apply (var_shift_loop_ok D w b _ A s (λ ρ i, Z.shiftr (sgn w (V ρ)) i mod 2 ^ w) _
      (λ ρ, Z.shiftr (sgn w (V ρ)) (w - 1) mod 2 ^ w)); [done|lia|lia| |done].
    intros i Hi. apply ashr_ok; [done|done|lia|lia|split; lia].
  - intros r Hr. eapply bits_ok_mono; [exact Hr|]. intros ρ Hρ Hd. specialize (Hlt ρ Hρ Hd). split; [done|]. intros _.
    destruct (A ρ <? _) eqn:E; unbool; [done|]. by replace (A ρ) with (w - 1) by lia.
Qed.
End variable_shifts.

(** ** Multiplication by constants *)

Section multiplication.
Context (D : assignment → Prop) (w add sub b : Z) (V : assignment → Z) (n : VCExpr).
Hypotheses (Hn : bits_ok D w V n) (Hw : w ≤ 64) (Hb : 0 ≤ b) (Hwb : w ≤ 2 ^ b) (Hadd : add `bits` w) (Hsub : sub `bits` w).
Hypothesis Hdisjoint : ∀ j, 0 ≤ j → Z.testbit add j = true → Z.testbit sub j = false.

(** The factor given by the bits from [j] on, and what the partial result is *)
Definition factor (j : Z) : Z := 2 ^ j * (add / 2 ^ j) - 2 ^ j * (sub / 2 ^ j).

Definition product_ok (j : Z) (res : option VCExpr) : Prop :=
  match res with
  | Some r => bits_ok D w (λ ρ, (V ρ * factor j) mod 2 ^ w) r
  | None => factor j = 0
  end.

Lemma factor_step j : 0 ≤ j → factor j = factor (j + 1) + 2 ^ j * (Z.b2z (Z.testbit add j) - Z.b2z (Z.testbit sub j)).
Proof.
  intros Hj. assert (∀ x, x / 2 ^ j = 2 * (x / 2 ^ (j + 1)) + Z.b2z (Z.testbit x j)) as Hx.
  { intros x. rewrite Z.pow_add_r, <- Z.div_div by lia. change (2 ^ 1) with 2. rewrite Z.testbit_odd, Z.shiftr_div_pow2 by done.
    rewrite <- Z.bit0_odd, Z.bit0_mod. apply Z.div_mod. lia. }
  unfold factor. rewrite (Hx add), (Hx sub), Z.pow_add_r by lia. ring.
Qed.

Lemma factor_high : factor w = 0.
Proof. unfold factor. destruct Hadd, Hsub. by rewrite !Z.div_small, Z.mul_0_r. Qed.

Lemma bit_test x j : 0 ≤ j < 64 → negb (Z.land x (u64 (Z.shiftl 1 j)) =? 0) = Z.testbit x j.
Proof.
  intros Hj. rewrite Z.shiftl_1_l, u64_small by (split; [lia|apply Z.pow_lt_mono_r; lia]).
  destruct (Z.testbit x j) eqn:E; [|by rewrite land_pow2 by (done || lia)].
  destruct (_ =? 0) eqn:E0; unbool; [|done]. apply (f_equal (λ z, Z.testbit z j)) in E0.
  rewrite Z.land_spec, E, Z.pow2_bits_true, Z.bits_0 in E0 by lia. done.
Qed.

(** Adding or subtracting the shifted word *)
Lemma add_shifted_ok j res op :
  0 ≤ j → product_ok (j + 1) res → bits_ok D w (λ ρ, Z.shiftl (V ρ) j mod 2 ^ w) op → Z.testbit add j || Z.testbit sub j = true →
  (if Z.testbit add j then match res with Some r => vc_bvPlusExpr w r op | None => Done op end
   else match res with Some r => vc_bvMinusExpr w r op | None => vc_bvUMinusExpr op end) ⇓ λ r, product_ok j (Some r).
Proof.
  intros Hj Hres Hop Hbit. cbn [product_ok]. rewrite (factor_step j Hj). destruct (Z.testbit add j) eqn:Ea.
  - rewrite (Hdisjoint j Hj Ea). cbn [Z.b2z]. replace (2 ^ j * (1 - 0)) with (2 ^ j) by ring. destruct res as [r|]; cbn [product_ok] in Hres.
    + eapply yields_mono; [by apply (term_ok D BVPLUS w _ _ r op Hres Hop)|]. intros x Hx. eapply bits_ok_mono; [exact Hx|].
      intros ρ _ Hd. split; [done|]. intros _. cbn [term_op bv_eval]. rewrite <- Zplus_mod, Z.shiftl_mul_pow2 by done. f_equal. ring.
    + apply yields_done. eapply bits_ok_mono; [exact Hop|]. intros ρ _ Hd. split; [done|]. intros _.
      rewrite Hres, Z.shiftl_mul_pow2 by done. done.
  - cbn [orb] in Hbit. rewrite Hbit. cbn [Z.b2z]. replace (2 ^ j * (0 - 1)) with (- 2 ^ j) by ring. destruct res as [r|]; cbn [product_ok] in Hres.
    + eapply yields_mono; [by apply (term_ok D BVSUB w _ _ r op Hres Hop)|]. intros x Hx. eapply bits_ok_mono; [exact Hx|].
      intros ρ _ Hd. split; [done|]. intros _. cbn [term_op bv_eval]. rewrite <- Zminus_mod, Z.shiftl_mul_pow2 by done. f_equal. ring.
    + eapply yields_mono; [by apply (uminus_ok D w _ op Hop)|]. intros x Hx. eapply bits_ok_mono; [exact Hx|].
      intros ρ _ Hd. split; [done|]. intros _. rewrite Hres, Z.shiftl_mul_pow2 by done. rewrite <- (Z.sub_0_l (_ mod _)), Zminus_mod_idemp_r.
      f_equal. ring.
Qed.

Lemma mul_bits_loop_ok k : ∀ res,
  (k ≤ 64)%nat → product_ok (Z.of_nat k) res → mul_bits_loop n w b add sub k res ⇓ product_ok 0.
Proof.
  induction k as [|k IH]; intros res Hk Hres; cbn [mul_bits_loop]; [by apply yields_done|]. cbv zeta.
  rewrite !bit_test by lia. replace (Z.of_nat (S k)) with (Z.of_nat k + 1) in Hres by lia.
  destruct (Z.testbit add (Z.of_nat k) || Z.testbit sub (Z.of_nat k)) eqn:E.
  - ystep.
    { destruct (Z.testbit add (Z.of_nat k)) eqn:Ea; [|done]. by rewrite (Hdisjoint (Z.of_nat k)) by (done || lia). }
    assert (Z.of_nat k < w).
    { apply Z.nle_gt. intros Hle. rewrite !(testbit_high w) in E by done. done. }
    call left_shift_ok; [exact Hn|done|exact Hb|split; lia|]. intros op Hop. call (add_shifted_ok (Z.of_nat k) res op); [lia|done..|].
    intros r Hr. apply IH; [lia|done].
  - apply IH; [lia|]. apply orb_false_iff in E as [Ea Es].
    assert (factor (Z.of_nat k) = factor (Z.of_nat k + 1)) as Ef by (rewrite factor_step, Ea, Es by lia; cbn [Z.b2z]; ring).
    destruct res; cbn [product_ok] in *; by rewrite Ef.
Qed.
End multiplication.

Lemma bits_ok_eq D w V V' n :
  bits_ok D w V n → (∀ ρ, wf_assignment ρ → D ρ → V ρ `bits` w → V ρ = V' ρ) → bits_ok D w V' n.
Proof. intros Hn HV. eapply bits_ok_mono; [exact Hn|]. auto. Qed.

(** The truncated constants have the same difference modulo [2^w]. *)
Lemma truncated_product v w add sub x :
  0 ≤ w ≤ 64 → x = u64 (add - sub) → (v * factor (add mod 2 ^ w) (sub mod 2 ^ w) 0) mod 2 ^ w = (v * x) mod 2 ^ w.
Proof.
  intros Hw ->. unfold factor. change (2 ^ 0) with 1. rewrite !Z.div_1_r, !Z.mul_1_l.
  rewrite <- Zmult_mod_idemp_r, <- Zminus_mod, Zmult_mod_idemp_r. symmetry. unfold u64.
  rewrite <- Zmult_mod_idemp_r, mod_mod_pow2, Zmult_mod_idemp_r by lia. done.
Qed.

Lemma product_start D w V add sub k : 0 ≤ w ≤ k → add `bits` w → sub `bits` w → product_ok D w add sub V k None.
Proof.
  intros Hk Ha Hs. cbn [product_ok]. unfold factor. rewrite !Z.div_small by (eapply (bounded_mono w); [lia|done]). by rewrite Z.mul_0_r.
Qed.

Lemma mul_bits_ok D w V n b add sub add' sub' x :
  bits_ok D w V n → 0 < w ≤ 64 → 0 ≤ b → w ≤ 2 ^ b → x = u64 (add - sub) →
  (∀ j, 0 ≤ j → Z.testbit add j = true → Z.testbit sub j = false) → add' = add mod 2 ^ w → sub' = sub mod 2 ^ w →
  (res ← mul_bits_loop n w b add' sub' 64 None;
   match res with Some res => Done res | None => bvZero w end) ⇓ bits_ok D w (λ ρ, (V ρ * x) mod 2 ^ w).
Proof.
  intros Hn Hw Hb Hwb Ex Hdis -> ->.
  assert (add mod 2 ^ w `bits` w ∧ sub mod 2 ^ w `bits` w) as [Ha Hs] by (split; auto with klee lia).
  call (mul_bits_loop_ok D w (add mod 2 ^ w) (sub mod 2 ^ w) b V n Hn (proj2 Hw) Hb Hwb Ha Hs); [|lia|apply product_start; [lia|done..]|].
  - intros j Hj. rewrite !testbit_mod by lia. case_bool_decide; [cbn [andb]; auto|done].
  - intros [r|] Hr; cbn [product_ok] in Hr.
    + apply yields_done. eapply bits_ok_eq; [exact Hr|]. intros ρ _ _ _. apply truncated_product; [lia|done].
    + eapply yields_mono; [apply (bvZero_ok D); lia|]. intros z Hz. eapply bits_ok_eq; [exact Hz|]. intros ρ _ _ _.
      rewrite <- (truncated_product _ w add sub x), Hr, Z.mul_0_r by (done || lia). by rewrite Z.mod_0_l by (pose proof (pow2_pos w); lia).
Qed.

Lemma mul_by_constant_ok D w V n x :
  bits_ok D w V n → w ≤ 64 → x `bits` 64 → constructMulByConstant n w x ⇓ bits_ok D w (λ ρ, (V ρ * x) mod 2 ^ w).
Proof.
  intros Hn Hw Hx. pose proof (bits_width _ _ _ _ Hn). unfold constructMulByConstant.
  destruct (getShiftBits_ok w) as (b & -> & Hb & _ & Hwb); [lia|]. apply yields_bind, yields_done.
  call mult_constants; [done|]. intros [add sub] (_ & _ & Hdis & Ex).
  apply (mul_bits_ok D w V n b add sub); first [done|lia|apply truncateToNBits_64; lia].
Qed.

(** ** Division by constants *)

Lemma extract_high x : bv_extract (x mod 2 ^ 64) 32 32 = (x / 2 ^ 32) mod 2 ^ 32.
Proof.
  unfold bv_extract. rewrite <- (Z.shiftr_div_pow2 x) by lia. apply Z.bits_inj'. intros i Hi. rewrite !testbit_mod, !Z.shiftr_spec by lia.
  case_bool_decide; [|done]. rewrite testbit_mod, bool_decide_true by lia. done.
Qed.

Lemma extract_shifted x s : 0 ≤ s ≤ 32 → bv_extract (Z.shiftr (x mod 2 ^ 64) s) 0 32 = (x / 2 ^ s) mod 2 ^ 32.
Proof.
  intros Hs. unfold bv_extract. rewrite Z.shiftr_0_r, <- (Z.shiftr_div_pow2 x) by lia. apply Z.bits_inj'. intros i Hi.
  rewrite !testbit_mod, !Z.shiftr_spec by lia. case_bool_decide; [|done]. rewrite testbit_mod, bool_decide_true by lia. done.
Qed.

Lemma udiv_by_constant_ok D V n d :
  bits_ok D 32 V n → 0 < d < 2 ^ 32 → constructUDivByConstant n 32 d ⇓ bits_ok D 32 (λ ρ, V ρ / d).
Proof.
  intros Hn Hd. pose proof Hn as (_ & _ & Hv). unfold constructUDivByConstant. ystep; [done|]. rewrite u32_small by lia.
  call udiv_constants; [done|]. intros [[m sh1] sh2] (Hm & Hsh1 & Hsh2 & Hq).
  call (const_Int_ok D 32 sh1); [lia|split; lia|]. intros e1 He1. call (const_Int_ok D 32 sh2); [lia|split; lia|]. intros e2 He2.
  call (bvZero_ok D 32); [lia|]. intros z Hz. call (concat_ok D 32 32); [exact Hz|exact Hn|lia|]. change (32 + 32) with 64. intros n64 Hn64.
  call (mul_by_constant_ok D 64); [exact Hn64|lia|eapply (bounded_mono 32); [lia|done]|]. intros t64 Ht64.
  call (extract_ok D 64); [exact Ht64|lia..|]. change (63 - 32 + 1) with 32. intros t1 Ht1.
  set (T := λ ρ, (m * V ρ) / 2 ^ 32). apply (bits_ok_eq D 32 _ T) in Ht1.
  2: { intros ρ Hρ Hd' _. destruct (Hv ρ Hρ Hd') as [_ Hb]. rewrite extract_high. unfold bv_concat, T. rewrite Z.shiftl_0_l, Z.lor_0_l, Z.mul_comm.
    apply Z.mod_small. destruct (Hq _ Hb) as [Ht _]. unfold bounded in Hb. lia. }
  call (term_ok D BVSUB 32); [exact Hn|exact Ht1|done|]. intros nt Hnt. apply (bits_ok_eq D 32 _ (λ ρ, V ρ - T ρ)) in Hnt.
  2: { intros ρ Hρ Hd' _. destruct (Hv ρ Hρ Hd') as [_ Hb]. destruct (Hq _ Hb) as [Ht _]. apply Z.mod_small. fold (T ρ) in Ht. unfold bounded in Hb. lia. }
  call (var_right_shift_ok D 32 32 (λ ρ, V ρ - T ρ) (λ _, sh1)); [done|done|lia|lia|intros; lia|]. intros s1 Hs1.
  call (term_ok D BVPLUS 32); [exact Hs1|exact Ht1|done|]. intros p Hp.
  apply (bits_ok_eq D 32 _ (λ ρ, (V ρ - T ρ) / 2 ^ sh1 + T ρ)) in Hp.
  2: { intros ρ Hρ Hd' _. destruct (Hv ρ Hρ Hd') as [_ Hb]. destruct (Hq _ Hb) as [Ht _]. fold (T ρ) in Ht. cbn [term_op bv_eval].
    rewrite Z.shiftr_div_pow2 by lia. pose proof (pow2_pos sh1 ltac:(lia)). apply Z.mod_small. unfold bounded in Hb.
    assert (0 ≤ (V ρ - T ρ) / 2 ^ sh1 ≤ V ρ - T ρ); [|lia]. split; [apply Z.div_pos; lia|]. apply Z.div_le_upper_bound; [lia|]. nia. }
  eapply yields_mono; [apply (var_right_shift_ok D 32 32 (λ ρ, (V ρ - T ρ) / 2 ^ sh1 + T ρ) (λ _, sh2)); [done|done|lia|lia|intros; lia]|].
  intros r Hr. eapply bits_ok_eq; [exact Hr|]. intros ρ Hρ Hd' _. destruct (Hv ρ Hρ Hd') as [_ Hb]. destruct (Hq _ Hb) as [_ Eq].
  rewrite Z.shiftr_div_pow2 by lia. exact Eq.
Qed.

Lemma sign_bit w v : 0 < w → v `bits` w → Z.testbit v (w - 1) = (sgn w v <? 0).
Proof.
  intros Hw Hv. unfold sgn. destruct Hv as [Hv0 Hv]. pose proof (pow2_split w Hw). destruct (v <? 2 ^ (w - 1)) eqn:E; unbool.
  - rewrite (proj2 (Z.ltb_ge v 0)) by lia. apply (testbit_high (w - 1)); [by split|lia].
  - rewrite (proj2 (Z.ltb_lt (v - 2 ^ w) 0)) by lia. apply Z.testbit_true; [lia|].
    replace (v / 2 ^ (w - 1)) with 1; [done|]. apply (Z.div_unique_pos _ _ _ (v - 2 ^ (w - 1))); lia.
Qed.

Lemma u32_sgn v : v `bits` 32 → u32 (sgn 32 v) = v.
Proof. intros. by apply (sgn_mod 32). Qed.

(** The high word of the product, added to the numerator *)
Lemma sdiv_high v m :
  v `bits` 32 →
  (v + bv_extract ((bv_sext 32 v 64 * u64 m) mod 2 ^ 64) 32 32) mod 2 ^ 32 = u32 (sgn 32 v + (m * sgn 32 v) / 2 ^ 32).
Proof.
  intros Hv. unfold bv_sext, u64. rewrite <- Zmult_mod, extract_high. rewrite Zplus_mod_idemp_r. unfold u32.
  rewrite <- (u32_sgn v Hv) at 1. unfold u32. rewrite Zplus_mod_idemp_l. do 2 f_equal. by rewrite Z.mul_comm.
Qed.

(** The correction by the sign of the numerator *)
Lemma sdiv_correction x neg : (x mod 2 ^ 32 - (if neg : bool then 2 ^ 32 - 1 else 0)) mod 2 ^ 32 = u32 (x + (if neg then 1 else 0)).
Proof.
  unfold u32. rewrite Zminus_mod_idemp_l. destruct neg.
  - replace (x - (2 ^ 32 - 1)) with (x + 1 + (-1) * 2 ^ 32) by lia. by rewrite Z.mod_add by lia.
  - by rewrite Z.sub_0_r, Z.add_0_r.
Qed.

Lemma complement w q : 0 ≤ w → q `bits` w → Z.lxor q (Z.ones w) = Z.ones w - q.
Proof.
  intros Hw Hq. assert (Z.land q (Z.lxor q (Z.ones w)) = 0) as Hc.
  { apply Z.bits_inj'. intros i Hi. rewrite Z.land_spec, Z.lxor_spec, testbit_ones, Z.bits_0 by done. case_bool_decide.
    - by destruct (Z.testbit q i).
    - by rewrite (testbit_high w) by (done || lia). }
  pose proof (Z.add_nocarry_lxor _ _ Hc) as E. rewrite <- Z.lxor_assoc, Z.lxor_nilpotent, Z.lxor_0_l in E. lia.
Qed.

(** The correction by the sign of the divisor *)
Lemma sdiv_negation q neg :
  q `bits` 32 →
  (Z.lxor q (u32 (if neg : bool then -1 else 0)) - u32 (if neg then -1 else 0)) mod 2 ^ 32 = u32 (if neg then - q else q).
Proof.
  intros Hq. destruct neg.
  - change (u32 (-1)) with (Z.ones 32). rewrite complement by (done || lia). unfold u32. f_equal. lia.
  - change (u32 0) with 0. by rewrite Z.lxor_0_r, Z.sub_0_r.
Qed.

Lemma quot_sign n d : d ≠ 0 → Z.quot n d = if d <? 0 then - Z.quot n (Z.abs d) else Z.quot n (Z.abs d).
Proof.
  intros Hd. destruct (d <? 0) eqn:E; unbool; [|by rewrite Z.abs_eq by lia].
  rewrite Z.abs_neq by lia. rewrite Z.quot_opp_r by lia. lia.
Qed.

(** The value of a signed quotient, from the constants *)
Lemma sdiv_value v d mprime shpost :
  v `bits` 32 → d ≠ 0 → 0 ≤ shpost ≤ 30 →
  u32 (sgn 32 (u32 (sgn 32 v + (mprime * sgn 32 v) / 2 ^ 32)) / 2 ^ shpost + (if sgn 32 v <? 0 then 1 else 0)) =
    u32 (Z.quot (sgn 32 v) (Z.abs d)) →
  let hi := (v + bv_extract ((bv_sext 32 v 64 * u64 mprime) mod 2 ^ 64) 32 32) mod 2 ^ 32 in
  let q0 := (bv_extract (Z.shiftr (bv_sext 32 hi 64) shpost) 0 32 - (if Z.testbit v 31 then 2 ^ 32 - 1 else 0)) mod 2 ^ 32 in
  (Z.lxor q0 (u32 (if d <? 0 then -1 else 0)) - u32 (if d <? 0 then -1 else 0)) mod 2 ^ 32 = Z.quot (sgn 32 v) d mod 2 ^ 32.
Proof.
  intros Hv Hd Hs Eq hi q0. assert (q0 = u32 (Z.quot (sgn 32 v) (Z.abs d))) as ->.
  { unfold q0, hi. rewrite sdiv_high by done. unfold bv_sext at 1. rewrite extract_shifted by lia.
    change 31 with (32 - 1). rewrite (sign_bit 32 v) by (done || lia). rewrite sdiv_correction. exact Eq. }
  rewrite sdiv_negation by (apply bounded_mod; lia). rewrite (quot_sign _ d Hd). unfold u32. destruct (d <? 0); [|by rewrite Z.mod_mod by lia].
  rewrite <- (Z.sub_0_l (_ mod _)), Zminus_mod_idemp_r. f_equal. 
Qed.

Lemma sdiv_by_constant_ok D V n d :
  bits_ok D 32 V n → d `bits` 32 → d ≠ 0 →
  constructSDivByConstant n 32 d ⇓ bits_ok D 32 (λ ρ, Z.quot (sgn 32 (V ρ)) (sgn 32 d) mod 2 ^ 32).
Proof.
  intros Hn Hd Hd0. pose proof Hn as (_ & _ & Hv). unfold constructSDivByConstant. ystep; [done|].
  assert (s32 d = sgn 32 d) as -> by (unfold s32; by rewrite u32_small).
  pose proof (sgn_nonzero 32 d ltac:(lia) Hd Hd0) as Hs0. pose proof (sgn_range 32 d ltac:(lia) Hd) as Hsr.
  call sdiv_constants; [exact Hsr|done|]. intros [[m dsign] shpost] (Hm & Hsh & -> & Hq).
  call (const_Int_ok D 32); [lia|apply bounded_mod; lia|]. intros es Hes.
  rewrite (u32_small shpost) by lia. call (const_Int_ok D 32 shpost); [lia|split; lia|]. intros ep Hep.
  call (sign_extend_ok D 32); [exact Hn|lia|]. intros n64 Hn64.
  call (mul_by_constant_ok D 64); [exact Hn64|lia|apply bounded_mod; lia|]. intros m64 Hm64.
  call (extract_ok D 64); [exact Hm64|lia..|]. change (63 - 32 + 1) with 32. intros mulsh Hmulsh.
  call (term_ok D BVPLUS 32); [exact Hn|exact Hmulsh|done|]. intros npm Hnpm.
  call (sign_extend_ok D 32); [exact Hnpm|lia|]. intros ext Hext.
  call (var_right_shift_ok D 64 32); [exact Hext|exact Hep|lia|lia|intros; lia|]. intros shifted Hshifted.
  call (extract_ok D 64); [exact Hshifted|lia..|]. change (31 - 0 + 1) with 32. intros low Hlow.
  call (bool_extract_ok D 32); [exact Hn|lia|]. intros sg Hsg. call (bvMinusOne_ok D 32); [lia|]. intros ones Hones.
  call (bvZero_ok D 32); [lia|]. intros z Hz. call (ite_bits_ok D 32); [exact Hsg|exact Hones|exact Hz|]. intros xs Hxs.
  call (term_ok D BVSUB 32); [exact Hlow|exact Hxs|done|]. intros q0 Hq0.
  unfold vc_bvXorExpr. rewrite (is_bits_width q0 32 (proj1 (proj2 Hq0))). call (term_ok D BVXOR 32); [exact Hq0|exact Hes|done|]. intros qx Hqx.
  eapply yields_mono; [eapply (term_ok D BVSUB 32); [exact Hqx|exact Hes|done]|]. intros r Hr.
  eapply bits_ok_eq; [exact Hr|]. intros ρ Hρ HD _. destruct (Hv ρ Hρ HD) as [_ Hb]. cbn [term_op bv_eval].
  rewrite <- (sdiv_value (V ρ) (sgn 32 d) m shpost); [|done..|exact (Hq _ (sgn_range 32 (V ρ) ltac:(lia) Hb))].
  cbv zeta. by destruct (Z.testbit (V ρ) 31).
Qed.
End arithmetic.
