(* ===== verification/STPBuilderProofs.v ===== *)
(** * The translation to STP is correct

    The translation accepts the expressions that the creation functions leave
    ([buildable]): no comparison kinds that they normalise away, no arithmetic on
    booleans, no extension to the same width.  The translation of a buildable expression
    is a well-sorted node with the value of the expression under every assignment under
    which it is defined ([total_at]), as long as no node of a destroyed validity checker
    is kept ([builder_ok]) and the names of arrays fit the buffer ([ShortNames]). *)

From stdpp Require Import prelude gmap.
From S2P Require Import Prelude Bitvec Bits ConstantDivision APInt ExprData ExprConstants ExprBinaryProofs ExprUtil STPExpr STPBuilder STPArithmetic.

(** ** Where expressions are defined *)

(** Divisions are by non-zero values and shifts by less than the width. *)
Fixpoint total_at `{ArrayStore} (ρ : assignment) (e : Expr) : Prop :=
  match e with
  | Constant _ => True
  | NotOptimized e | Extract e _ _ | ZExt e _ | SExt e _ | Not e => total_at ρ e
  | Read root head index => total_at ρ index ∧ total_read ρ head (eval ρ index)
  | Select c t f => total_at ρ c ∧ total_at ρ t ∧ total_at ρ f
  | Concat l r => total_at ρ l ∧ total_at ρ r
  | Binary k l r => total_at ρ l ∧ total_at ρ r ∧ ap_defined k (getWidth l) (eval ρ r)
  end
with total_read `{ArrayStore} (ρ : assignment) (un : UpdateNode) (i : Z) : Prop :=
  match un with
  | NullNode => True
  | Node next index value =>
      total_at ρ index ∧ if eval ρ index =? i then total_at ρ value else total_read ρ next i
  end.

(** The names of the variables of arrays are not cut. *)
Class ShortNames `{ArrayStore} : Prop := names_fit : ∀ root, name_fits root = true.

Section correctness.
Context `{NodeFactoryLaws} `{APIntLaws} `{APIntLimitLaws} `{WfStore} `{BuilderOptions} `{NodeIdentity} `{!ShortNames}.

Definition translated (e : Expr) (n : VCExpr) : Prop :=
  if getWidth e =? 1 then formula_ok (λ ρ, total_at ρ e) (λ ρ, eval ρ e) n
  else bits_ok (λ ρ, total_at ρ e) (getWidth e) (λ ρ, eval ρ e) n.

Definition result_ok (e : Expr) (r : VCExpr * Z) : Prop := r.2 = getWidth e ∧ translated e r.1.

(** Every entry of the table is a translation of its expression. *)
Definition table_ok (s : Constructed) : Prop := Forall (λ p, result_ok p.1 p.2) s.

(** [n] is a translation of the array [root] after the updates [un]. *)
Definition updated_array (root : Array) (un : UpdateNode) (n : VCExpr) : Prop :=
  array_ok (λ ρ j, 0 ≤ j ∧ total_read ρ un j) (λ ρ j, eval_read ρ root un j) n.

(** The nodes that are kept belong to the validity checker and are translations. *)
Record builder_ok (b : Builder) : Prop := {
  builder_table : table_ok (constructed b);
  builder_initial root h : stpInitialArray b !! root = Some h → h.1 = checker b ∧ initial_array root = Done h.2;
  builder_updates : Forall (λ '(root, un, h), h.1 = checker b ∧ updated_array root un h.2) (stpArray b);
}.

Definition translates (m : M Builder (VCExpr * Z)) (e : Expr) : Prop :=
  ∀ s, builder_ok s → runs m s (λ r s', builder_ok s' ∧ result_ok e r).

Lemma translated_bits e n : getWidth e ≠ 1 → translated e n = bits_ok (λ ρ, total_at ρ e) (getWidth e) (λ ρ, eval ρ e) n.
Proof. intros Hw. unfold translated. by rewrite (proj2 (Z.eqb_neq _ _) Hw). Qed.

Lemma translated_formula e n : getWidth e = 1 → translated e n = formula_ok (λ ρ, total_at ρ e) (λ ρ, eval ρ e) n.
Proof. intros Hw. unfold translated. by rewrite Hw. Qed.

Lemma find_ok e s r : table_ok s → constructed_find e s = Some r → result_ok e r.
Proof.
  intros Hs. induction Hs as [|[e' r'] s Hr Hs IH]; [done|]. cbn [constructed_find]. destruct (eqE e' e) eqn:E; [|done].
  apply eqE_eq in E as ->. by intros [= <-].
Qed.

Lemma insert_ok e r s : builder_ok s → result_ok e r → runs (constructed_insert e r) s (λ _ s', builder_ok s').
Proof.
  intros [Ht Hi Hu] Hr. unfold constructed_insert. apply yields_done.
  destruct (constructed_find e (constructed s)); split; try done. by constructor.
Qed.

(** ** Constants and arrays *)

Lemma constant_ok c : wf_constant c → constructConstant c ⇓ result_ok (Constant c).
Proof.
  intros [Hw Hc]. unfold constructConstant. apply yields_bind.
  apply yields_mono with (P := translated (Constant c)); [|intros n Hn; apply yields_done; by split].
  unfold translated. cbn [getWidth eval]. destruct (cwidth c =? 1) eqn:E1; unbool.
  - rewrite CE_isTrue_spec by done. rewrite E1 in Hc. unfold bounded in Hc. change (2 ^ 1) with 2 in Hc. ystep. apply yields_done.
    destruct (cvalue c =? 1) eqn:Ev; unbool; [rewrite Ev; apply true_ok|]. replace (cvalue c) with 0 by lia. apply false_ok.
  - destruct (cwidth c <=? 32) eqn:E2; unbool.
    + rewrite getZExtValue_spec by lia. ystep. apply const_Int_ok; [lia|done].
    + rewrite (proj2 (Z.leb_le (cwidth c) 64)), getZExtValue_spec by lia. ystep. apply const64_ok; [lia|]. by apply bounded_small.
Qed.

Lemma array_ok_mono (D D' : assignment → Z → Prop) V V' n :
  array_ok D V n → (∀ ρ j, wf_assignment ρ → D' ρ j → D ρ j ∧ V ρ j = V' ρ j) → array_ok D' V' n.
Proof.
  intros (Hs & Ht & Hv) HD. split_and!; [done..|]. intros ρ j Hρ Hd. destruct (HD ρ j Hρ Hd) as [Hd' E].
  rewrite <- E. by apply Hv.
Qed.

(** A byte constant as a term *)
Lemma byte_ok D c : wf_constant c → cwidth c ≠ 1 → constructConstant c ⇓ λ r, bits_ok D (cwidth c) (λ _, cvalue c) r.1.
Proof.
  intros Hc Hw. eapply yields_mono; [by apply constant_ok|]. intros r [_ Hr]. rewrite translated_bits in Hr by done.
  eapply bits_ok_mono; [exact Hr|]. done.
Qed.

Lemma initial_writes_ok root vs : ∀ dn prev,
  Z.of_nat (length (dn ++ vs)) < 2 ^ 32 → Forall (λ c, wf_constant c ∧ cwidth c = Int8) vs →
  array_ok (λ _ j, 0 ≤ j) (λ ρ j, match dn !! Z.to_nat j with Some c => cvalue c | None => ρ root j end) prev →
  initial_writes (Z.of_nat (length dn)) vs prev ⇓
    array_ok (λ _ j, 0 ≤ j) (λ ρ j, match (dn ++ vs) !! Z.to_nat j with Some c => cvalue c | None => ρ root j end).
Proof.
  induction vs as [|c vs IH]; intros dn prev Hlen Hvs Hprev; cbn [initial_writes].
  { apply yields_done. by rewrite app_nil_r. }
  inversion_clear Hvs as [|? ? [Hc Hw] Hvs']. rewrite length_app in Hlen. cbn [length] in Hlen.
  assert (alloc (Z.of_nat (length dn)) Int32 = mkConstant 32 (Z.of_nat (length dn))) as ->.
  { unfold alloc, Int32. f_equal. apply Z.mod_small. lia. }
  call (byte_ok (λ _, True) (mkConstant 32 (Z.of_nat (length dn)))); [split; [cbn; lia|split; cbn; lia]|done|]. intros [i wi] Hi.
  call (byte_ok (λ _, True) c); [done|by rewrite Hw|]. intros [v wv] Hv. rewrite Hw in Hv.
  call (array_write_ok (λ _, True) (λ _, True)); [exact Hprev|exact Hi|exact Hv|]. intros next Hnext.
  replace (Z.of_nat (length dn) + 1) with (Z.of_nat (length (dn ++ [c]))) by (rewrite length_app; cbn; lia).
  replace (dn ++ c :: vs) with ((dn ++ [c]) ++ vs) by (by rewrite <- app_assoc).
  apply IH; [rewrite !length_app; cbn; lia|done|]. eapply array_ok_mono; [exact Hnext|]. intros ρ j Hρ Hj. cbn [cvalue].
  destruct (_ =? j) eqn:E; unbool; (split; [done|]).
  - rewrite lookup_app_r by lia. by replace (Z.to_nat j - length dn)%nat with 0%nat by lia.
  - destruct (decide (j < Z.of_nat (length dn))); [by rewrite lookup_app_l by lia|].
    rewrite (lookup_ge_None_2 dn), lookup_app_r by lia. by destruct (Z.to_nat j - length dn)%nat eqn:Ej; [lia|].
Qed.

Lemma initial_array_ok root : initial_array root ⇓ array_ok (λ _ j, 0 ≤ j) (λ ρ j, initial_byte ρ root j).
Proof.
  unfold initial_array. rewrite names_fit. ystep; [done|]. call array_var_ok. intros arr Harr. destruct (wf_store root) as (Hsize & Hlen & Hvs).
  unfold isSymbolicArray. destruct (bool_decide _) eqn:E.
  - apply bool_decide_eq_true in E. apply yields_done. eapply array_ok_mono; [exact Harr|]. intros ρ j _ _. split; [done|].
    unfold initial_byte. by rewrite E.
  - apply (initial_writes_ok root (constantValues (deref root)) [] arr); [|done|eapply array_ok_mono; [exact Harr|done]].
    cbn. destruct Hlen as [->| ->]; [done|lia].
Qed.

(** The node of an array is the same whether it was kept or not. *)
Lemma getInitialArray_ok root s :
  builder_ok s → runs (getInitialArray root) s (λ n s', (builder_ok s' ∧ constructed s' = constructed s) ∧ initial_array root = Done n).
Proof.
  intros Hs. pose proof Hs as [Ht Hi Hu]. unfold runs, getInitialArray. destruct (stpInitialArray s !! root) as [h|] eqn:E.
  - destruct (Hi root h E) as [Hc Hn]. unfold use_handle. by rewrite (proj2 (Nat.eqb_eq _ _) Hc).
  - destruct (yields_inv _ _ (initial_array_ok root)) as (n & En & _). unfold mbind, M_bind, lift. rewrite En.
    apply yields_done. split; [|done]. split; [|done]. split; cbn; [done| |done].
    intros root' h [[<- <-]|[_ Hh]]%lookup_insert_Some; [done|by apply Hi].
Qed.

Lemma find_update_ok root un h s :
  builder_ok s → find_update root un (stpArray s) = Some h → h.1 = checker s ∧ updated_array root un h.2.
Proof.
  intros [_ _ Hu]. induction Hu as [|[[root' un'] h'] l Hh _ IH]; cbn [find_update]; [done|].
  case_bool_decide as Hr; cbn [andb]; [|done]. destruct (same_node un' un) eqn:Hn; [|done].
  apply same_node_eq in Hn. intros [= <-]. by subst.
Qed.

Lemma keep_update_ok root un n s :
  builder_ok s → updated_array root un n → runs (keep_update root un n) s (λ n' s', builder_ok s' ∧ updated_array root un n').
Proof. intros [Ht Hi Hu] Hn. apply yields_done. split; [|done]. split; cbn; [done..|]. by constructor. Qed.

(** ** The cases of the translation *)

Lemma lifted {A B} (o : outcome A) (f : A → M Builder B) s Q P :
  o ⇓ Q → (∀ a, Q a → runs (f a) s P) → runs (lift o ≫= f) s P.
Proof. intros Ho Hf. apply runs_bind, runs_lift. eapply yields_mono; [exact Ho|exact Hf]. Qed.

Lemma passes_not_bool {B} w (f : unit → M Builder B) s P : w ≠ 1 → runs (f tt) s P → runs (not_bool w ≫= f) s P.
Proof. intros Hw Hf. apply runs_bind, runs_lift. by rewrite (proj2 (Z.eqb_neq w 1) Hw). Qed.

(** A translated operand, in the domain of the whole expression *)
Lemma bits_operand e l n :
  translated l n → getWidth l ≠ 1 → (∀ ρ, total_at ρ e → total_at ρ l) →
  bits_ok (λ ρ, total_at ρ e) (getWidth l) (λ ρ, eval ρ l) n.
Proof. intros Hn Hw He. rewrite translated_bits in Hn by done. eapply bits_ok_mono; [exact Hn|]. auto. Qed.

Lemma formula_operand e l n :
  translated l n → getWidth l = 1 → (∀ ρ, total_at ρ e → total_at ρ l) →
  formula_ok (λ ρ, total_at ρ e) (λ ρ, eval ρ l) n.
Proof. intros Hn Hw He. rewrite translated_formula in Hn by done. eapply formula_ok_mono; [exact Hn|]. auto. Qed.

(** The result of a case *)
Lemma bits_result e w V n s :
  builder_ok s → bits_ok (λ ρ, total_at ρ e) w V n → w = getWidth e → w ≠ 1 →
  (∀ ρ, wf_assignment ρ → total_at ρ e → V ρ `bits` w → V ρ = eval ρ e) →
  runs (mret (n, w)) s (λ r s', builder_ok s' ∧ result_ok e r).
Proof.
  intros Hs Hn -> Hw HV. apply runs_ret. split; [done|]. split; [done|]. rewrite translated_bits by done.
  eapply bits_ok_eq; [exact Hn|]. exact HV.
Qed.

Lemma formula_result e V n s :
  builder_ok s → formula_ok (λ ρ, total_at ρ e) V n → getWidth e = 1 →
  (∀ ρ, wf_assignment ρ → total_at ρ e → V ρ `bits` 1 → V ρ = eval ρ e) →
  runs (mret (n, 1)) s (λ r s', builder_ok s' ∧ result_ok e r).
Proof.
  intros Hs Hn Hw HV. apply runs_ret. split; [done|]. split; [done|]. rewrite translated_formula by done.
  eapply formula_ok_mono; [exact Hn|]. auto.
Qed.

Section cases.
Context (construct : Expr → M Builder (VCExpr * Z)) (arrays : Array → UpdateNode → M Builder VCExpr).

(** The translation of an operand *)
Ltac operand H x Hx :=
  apply runs_bind; eapply runs_mono; [apply H; assumption|];
  let w := fresh "w" in let E := fresh "E" in let s1 := fresh "s'" in intros [x w] s1 [? [E Hx]]; cbn [fst snd] in E, Hx; subst w.

Ltac in_domain := let ρ := fresh "ρ" in let Ht := fresh in intros ρ Ht; repeat match goal with e := _ : Expr |- _ => progress unfold e in Ht end; cbn [total_at] in Ht; tauto.

Lemma both_ok l r s (P : VCExpr * VCExpr * Z → Builder → Prop) :
  translates (construct l) l → translates (construct r) r → builder_ok s →
  (∀ x y s', builder_ok s' → translated l x → translated r y → P (x, y, getWidth r) s') →
  runs (construct_both construct l r) s P.
Proof.
  intros Hl Hr Hs HP. unfold construct_both. operand Hl x Hx. operand Hr y Hy. apply runs_ret. by apply HP.
Qed.

Lemma term_case k l r :
  wf (Binary (term_op k) l r) → getWidth l ≠ 1 → translates (construct l) l → translates (construct r) r →
  translates (construct_term construct (λ w, createBinaryTerm w k) l r) (Binary (term_op k) l r).
Proof.
  intros (Hl & Hr & Hw) Hw1 Tl Tr s Hs. unfold construct_term. apply runs_bind. apply both_ok; [done..|]. intros x y s' Hs' Hx Hy.
  set (e := Binary (term_op k) l r). assert (getWidth e = getWidth l) as He by (by destruct k).
  rewrite <- Hw. apply passes_not_bool; [done|].
  apply (bits_operand e) in Hx; [|done|in_domain]. apply (bits_operand e) in Hy; [|congruence|in_domain]. rewrite <- Hw in Hy.
  eapply lifted; [eapply (term_ok _ k); [exact Hx|exact Hy|]|].
  - intros Hdiv ρ _ (_ & _ & Hdef). destruct k; try done; exact Hdef.
  - intros n Hn. eapply bits_result; [done|exact Hn|done|done|]. done.
Qed.

Lemma compare_case k l r :
  wf (Binary (form_op k) l r) → getWidth l ≠ 1 → k ≠ AND → k ≠ OR → k ≠ IFF →
  translates (construct l) l → translates (construct r) r →
  translates (construct_compare construct (createBinaryNode k) l r) (Binary (form_op k) l r).
Proof.
  intros (Hl & Hr & Hw) Hw1 ??? Tl Tr s Hs. unfold construct_compare. apply runs_bind. apply both_ok; [done..|]. intros x y s' Hs' Hx Hy.
  rewrite <- Hw. apply passes_not_bool; [done|].
  apply (bits_operand (Binary (form_op k) l r)) in Hx; [|done|in_domain].
  apply (bits_operand (Binary (form_op k) l r)) in Hy; [|congruence|in_domain]. rewrite <- Hw in Hy.
  eapply lifted; [eapply (compare_node_ok _ k); [exact Hx|exact Hy|done..]|]. intros n Hn.
  eapply formula_result; [done|exact Hn|by destruct k|done].
Qed.

(** Bitwise operators, given what the two functions of the interface do *)
Lemma bitwise_case k form bits l r :
  is_cmp k = false →
  (∀ D L R a b, formula_ok D L a → formula_ok D R b → form a b ⇓ formula_ok D (λ ρ, bv_eval k 1 (L ρ) (R ρ))) →
  (∀ D w L R a b, bits_ok D w L a → bits_ok D w R b → bits a b ⇓ bits_ok D w (λ ρ, bv_eval k w (L ρ) (R ρ))) →
  wf (Binary k l r) → translates (construct l) l → translates (construct r) r →
  translates (construct_bitwise construct form bits l r) (Binary k l r).
Proof.
  intros Hk Hform Hbits (Hl & Hr & Hw) Tl Tr s Hs. unfold construct_bitwise. apply runs_bind. apply both_ok; [done..|]. intros x y s' Hs' Hx Hy.
  rewrite <- Hw. destruct (getWidth l =? 1) eqn:E; unbool.
  - apply (formula_operand (Binary k l r)) in Hx; [|done|in_domain]. apply (formula_operand (Binary k l r)) in Hy; [|congruence|in_domain].
    eapply lifted; [by apply Hform|]. intros n Hn. rewrite E. eapply formula_result; [done|exact Hn| |].
    + cbn. by rewrite Hk.
    + intros ρ _ _ _. cbn. by rewrite E.
  - apply (bits_operand (Binary k l r)) in Hx; [|done|in_domain]. apply (bits_operand (Binary k l r)) in Hy; [|congruence|in_domain].
    rewrite <- Hw in Hy. eapply lifted; [by apply Hbits|]. intros n Hn. eapply bits_result; [done|exact Hn| |done|done]. cbn. by rewrite Hk.
Qed.

Lemma and_form_ok D L R a b : formula_ok D L a → formula_ok D R b → vc_andExpr a b ⇓ formula_ok D (λ ρ, bv_eval And 1 (L ρ) (R ρ)).
Proof. intros Ha Hb. apply (connective_ok D AND); auto. Qed.

Lemma or_form_ok D L R a b : formula_ok D L a → formula_ok D R b → vc_orExpr a b ⇓ formula_ok D (λ ρ, bv_eval Or 1 (L ρ) (R ρ)).
Proof. intros Ha Hb. apply (connective_ok D OR); auto. Qed.

Lemma xor_form_ok D L R a b : formula_ok D L a → formula_ok D R b → xor_formulas a b ⇓ formula_ok D (λ ρ, bv_eval Xor 1 (L ρ) (R ρ)).
Proof.
  intros Ha Hb. unfold xor_formulas. call not_ok; [exact Hb|]. intros n Hn. eapply yields_mono; [by apply (ite_formula_ok D)|].
  intros r Hr. destruct Ha as (_ & _ & Va), Hb as (_ & _ & Vb). eapply formula_ok_mono; [exact Hr|]. intros ρ Hρ Hd. split; [done|]. intros _.
  destruct (Va ρ Hρ Hd) as [_ Hx], (Vb ρ Hρ Hd) as [_ Hy]. unfold bounded in *. change (2 ^ 1) with 2 in *. cbn [bv_eval].
  assert (L ρ = 0 ∨ L ρ = 1) as [->| ->] by lia; assert (R ρ = 0 ∨ R ρ = 1) as [->| ->] by lia; done.
Qed.

Lemma bitwise_bits_ok k D w L R a b :
  is_div (term_op k) = false → bits_ok D w L a → bits_ok D w R b →
  createBinaryTerm (GetValueWidth a) k a b ⇓ bits_ok D w (λ ρ, bv_eval (term_op k) w (L ρ) (R ρ)).
Proof. intros Hk Ha Hb. rewrite (is_bits_width a w) by apply Ha. apply term_ok; [done..|]. by rewrite Hk. Qed.

(** *** Multiplication, division and remainder *)

(** The operator applied to two translated operands *)
Lemma general_case k l r x s :
  wf (Binary (term_op k) l r) → getWidth l ≠ 1 → builder_ok s →
  bits_ok (λ ρ, total_at ρ (Binary (term_op k) l r)) (getWidth l) (λ ρ, eval ρ l) x → translates (construct r) r →
  runs ('(right', width) ← construct r; res ← lift (createBinaryTerm width k x right'); mret (res, width)) s
    (λ v s', builder_ok s' ∧ result_ok (Binary (term_op k) l r) v).
Proof.
  intros (Hl & Hr & Hw) Hw1 Hs Hx Tr. operand Tr y Hy. apply (bits_operand (Binary (term_op k) l r)) in Hy; [|congruence|in_domain].
  rewrite <- Hw in *. eapply lifted; [eapply (term_ok _ k); [exact Hx|exact Hy|]|].
  - intros Hdiv ρ _ (_ & _ & Hdef). destruct k; try done; exact Hdef.
  - intros n Hn. eapply bits_result; [done|exact Hn|by destruct k|done|done].
Qed.

(** A case that computes the value from a constant operand *)
Lemma constant_case k l r V s (o : outcome VCExpr) :
  getWidth l ≠ 1 → is_cmp k = false → builder_ok s → o ⇓ bits_ok (λ ρ, total_at ρ (Binary k l r)) (getWidth l) V →
  (∀ ρ, wf_assignment ρ → total_at ρ (Binary k l r) → V ρ `bits` getWidth l → V ρ = eval ρ (Binary k l r)) →
  runs (res ← lift o; mret (res, getWidth l)) s (λ v s', builder_ok s' ∧ result_ok (Binary k l r) v).
Proof.
  intros Hw1 Hk Hs Ho HV. eapply lifted; [exact Ho|]. intros n Hn. eapply bits_result; [done|exact Hn| |done|exact HV]. cbn. by rewrite Hk.
Qed.

Lemma mul_case l r :
  wf (Binary Mul l r) → getWidth l ≠ 1 → translates (construct l) l → translates (construct r) r →
  translates (construct_mul construct l r) (Binary Mul l r).
Proof.
  intros Hwf Hw1 Tl Tr s Hs. pose proof Hwf as (Hl & Hr & Hw). pose proof (wf_width l Hl). unfold construct_mul. operand Tr y Hy.
  rewrite <- Hw. apply passes_not_bool; [done|]. apply (bits_operand (Binary Mul l r)) in Hy; [|congruence|in_domain]. rewrite <- Hw in Hy.
  assert (runs ('(left', width) ← construct l; res ← lift (vc_bvMultExpr width left' y); mret (res, width)) s'
    (λ v s', builder_ok s' ∧ result_ok (Binary Mul l r) v)) as Hgeneral.
  { operand Tl x Hx. apply (bits_operand (Binary Mul l r)) in Hx; [|done|in_domain].
    eapply (constant_case Mul l r _ _ (createBinaryTerm _ BVMULT _ _)); [done..|by eapply (term_ok _ BVMULT)|done]. }
  destruct l; try exact Hgeneral. destruct Hl as [Hcw Hcv]. rewrite (proj2 (Z.leb_le (cwidth c) 64)) by lia.
  eapply lifted; [rewrite getZExtValue_spec by lia; by apply (yields_done _ (λ v, v = cvalue c))|]. intros v ->.
  eapply (constant_case Mul (Constant c) r); [done..|eapply mul_by_constant_ok; [exact Hy|lia|eapply bounded_mono, Hcv; lia]|].
  intros ρ _ _ _. cbn. by rewrite Z.mul_comm.
Qed.

(** What the constant divisor of a division is *)
Lemma divisor_ok (c : ConstantExpr) {B} (f : Z → M Builder B) bits s P :
  wf_constant c → cwidth c ≤ bits → runs (f (cvalue c)) s P → runs (v ← lift (getZExtValue c bits); f v) s P.
Proof. intros Hc Hw Hf. apply runs_bind, runs_lift. rewrite getZExtValue_spec by done. exact Hf. Qed.

Lemma power_of_two_cases d w :
  d `bits` w → d ≠ 0 → w ≤ 64 → negb (bits64.isPowerOfTwo d =? 0) = true →
  d = 2 ^ bits64.indexOfSingleBit d ∧ 0 ≤ bits64.indexOfSingleBit d < w.
Proof.
  intros Hd Hd0 Hw Hp. unfold bits64.isPowerOfTwo in Hp. rewrite (proj2 (Z.eqb_neq d 0) Hd0) in Hp.
  destruct (Z.land d (u64 (d - 1)) =? 0) eqn:E; [|done]. unbool. destruct Hd as [Hd1 Hd2].
  assert (0 ≤ w) by (apply Z.nlt_ge; intros ?; rewrite Z.pow_neg_r in Hd2 by done; lia). pose proof (pow2_le w 64 ltac:(lia)).
  apply (power_of_two_iff 64) in E as (i & Hi & ->); [|lia]. assert (i < w) by (apply (Z.pow_lt_mono_r_iff 2); lia).
  rewrite indexOfSingleBit_64 by lia. done.
Qed.

(** The shift by the logarithm of the divisor, in the number of bits of an amount *)
Lemma divide_by_shift D w V n d :
  bits_ok D w V n → w ≤ 64 → d = 2 ^ bits64.indexOfSingleBit d → 0 ≤ bits64.indexOfSingleBit d < w →
  (b ← getShiftBits w; bvRightShift n (bits64.indexOfSingleBit d) b) ⇓ bits_ok D w (λ ρ, V ρ / d).
Proof.
  intros Hn Hw Ed Hi. destruct (getShiftBits_ok w) as (b & -> & Hb & _ & Hwb); [lia|]. ystep.
  eapply yields_mono; [apply right_shift_ok; [exact Hn|lia|lia|split; lia]|]. intros r Hr. eapply bits_ok_eq; [exact Hr|].
  intros ρ _ _ _. cbn beta. rewrite Z.shiftr_div_pow2 by lia. by rewrite <- Ed.
Qed.

Lemma udiv_case l r :
  wf (Binary UDiv l r) → buildable_op UDiv (getWidth l) r → translates (construct l) l → translates (construct r) r →
  translates (construct_udiv construct l r) (Binary UDiv l r).
Proof.
  intros Hwf [Hw1 Hb] Tl Tr s Hs. pose proof Hwf as (Hl & Hr & Hw). pose proof (wf_width l Hl). unfold construct_udiv. operand Tl x Hx.
  apply passes_not_bool; [done|]. apply (bits_operand (Binary UDiv l r)) in Hx; [|done|in_domain].
  pose proof (general_case BVDIV l r x s' Hwf Hw1 ltac:(done) Hx Tr) as Hgeneral. destruct r; try exact Hgeneral. cbn [getWidth] in Hw.
  destruct Hr as [Hcw Hcv]. rewrite (proj2 (Z.leb_le (cwidth c) 64)) by lia. apply divisor_ok; [done|lia|].
  destruct (negb _) eqn:Ep.
  - destruct (power_of_two_cases (cvalue c) (cwidth c)) as [Ed Hi]; [done|done|lia|done|]. rewrite <- Hw in Hi.
    pose proof (divide_by_shift _ _ _ _ _ Hx ltac:(lia) Ed Hi) as Hq. destruct (getShiftBits_ok (getWidth l)) as (b & E & _); [lia|].
    rewrite E in Hq |- *. apply (constant_case UDiv l (Constant c) _ _ _ Hw1 eq_refl ltac:(done) Hq). done.
  - destruct (optimizeDivides && (getWidth l =? 32)) eqn:Eo; [|exact Hgeneral]. apply andb_true_iff in Eo as [_ E32]. unbool.
    rewrite E32 in Hw. rewrite <- Hw in Hcv. pose proof Hx as Hx'. rewrite E32 in Hx'. rewrite (u32_small (cvalue c)) by done.
    apply (constant_case UDiv l (Constant c) (λ ρ, eval ρ l / cvalue c) _ _ Hw1 eq_refl ltac:(done)); [|done].
    rewrite E32. apply udiv_by_constant_ok; [exact Hx'|]. destruct Hcv. lia.
Qed.

Lemma sdiv_case l r :
  wf (Binary SDiv l r) → buildable_op SDiv (getWidth l) r → translates (construct l) l → translates (construct r) r →
  translates (construct_sdiv construct l r) (Binary SDiv l r).
Proof.
  intros Hwf [Hw1 Hb] Tl Tr s Hs. pose proof Hwf as (Hl & Hr & Hw). unfold construct_sdiv. operand Tl x Hx.
  apply passes_not_bool; [done|]. apply (bits_operand (Binary SDiv l r)) in Hx; [|done|in_domain].
  pose proof (general_case SBVDIV l r x s' Hwf Hw1 ltac:(done) Hx Tr) as Hgeneral. destruct r; try exact Hgeneral. cbn [getWidth] in Hw.
  destruct (optimizeDivides && (getWidth l =? 32)) eqn:Eo; [|exact Hgeneral]. apply andb_true_iff in Eo as [_ E32]. unbool.
  pose proof Hr as [_ Hcv]. rewrite <- Hw, E32 in Hcv. apply divisor_ok; [done|lia|]. pose proof Hx as Hx'. rewrite E32 in Hx'.
  apply (constant_case SDiv l (Constant c) (λ ρ, Z.quot (sgn 32 (eval ρ l)) (sgn 32 (cvalue c)) mod 2 ^ 32) _ _ Hw1 eq_refl ltac:(done)).
  - rewrite E32. by apply sdiv_by_constant_ok.
  - intros ρ _ _ _. cbn. by rewrite E32.
Qed.

(** The remainder by a power of two keeps the low bits. *)
Lemma low_bits_ok D w V n i :
  bits_ok D w V n → w ≤ 64 → 0 ≤ i < w →
  (if i =? 0 then bvZero w else zero ← bvZero (w - i); x ← bvExtract n (i - 1) 0; vc_bvConcatExpr zero x) ⇓
    bits_ok D w (λ ρ, V ρ mod 2 ^ i).
Proof.
  intros Hn Hw Hi. destruct (i =? 0) eqn:E; unbool.
  - subst. eapply yields_mono; [apply (bvZero_ok D); lia|]. intros z Hz. eapply bits_ok_eq; [exact Hz|]. intros ρ _ _ _.
    change (2 ^ 0) with 1. by rewrite Z.mod_1_r.
  - call (bvZero_ok D); [lia|]. intros z Hz. call extract_ok; [exact Hn|lia..|]. replace (i - 1 - 0 + 1) with i by lia. intros x Hx.
    eapply yields_mono; [eapply concat_ok; [exact Hz|exact Hx|lia]|]. replace (w - i + i) with w by lia. intros r Hr.
    eapply bits_ok_eq; [exact Hr|]. intros ρ _ _ _. cbn beta. unfold bv_concat, bv_extract. by rewrite Z.shiftl_0_l, Z.lor_0_l, Z.shiftr_0_r.
Qed.

(** The remainder from the quotient *)
Lemma remainder_ok D V n d :
  bits_ok D 32 V n → 0 < d < 2 ^ 32 →
  (q ← constructUDivByConstant n 32 d; p ← constructMulByConstant q 32 d; vc_bvMinusExpr 32 n p) ⇓ bits_ok D 32 (λ ρ, V ρ mod d).
Proof.
  intros Hn Hd. call udiv_by_constant_ok; [exact Hn|done|]. intros q Hq. call mul_by_constant_ok; [exact Hq|lia|split; lia|]. intros p Hp.
  eapply yields_mono; [eapply (term_ok D BVSUB 32); [exact Hn|exact Hp|done]|]. intros r Hr. eapply bits_ok_eq; [exact Hr|].
  intros ρ Hρ HD _. destruct Hn as (_ & _ & Hv). destruct (Hv ρ Hρ HD) as [_ [Hb0 Hb]]. cbn [term_op bv_eval].
  rewrite Zminus_mod_idemp_r. pose proof (Z.mod_pos_bound (V ρ) d ltac:(lia)). pose proof (Z.div_mod (V ρ) d ltac:(lia)).
  replace (V ρ - V ρ / d * d) with (V ρ mod d) by lia. apply Z.mod_small. lia.
Qed.

Lemma urem_case l r :
  wf (Binary URem l r) → buildable_op URem (getWidth l) r → translates (construct l) l → translates (construct r) r →
  translates (construct_urem construct l r) (Binary URem l r).
Proof.
  intros Hwf [Hw1 Hb] Tl Tr s Hs. pose proof Hwf as (Hl & Hr & Hw). pose proof (wf_width l Hl). unfold construct_urem. operand Tl x Hx.
  apply passes_not_bool; [done|]. apply (bits_operand (Binary URem l r)) in Hx; [|done|in_domain].
  pose proof (general_case BVMOD l r x s' Hwf Hw1 ltac:(done) Hx Tr) as Hgeneral. destruct r; try exact Hgeneral. cbn [getWidth] in Hw.
  destruct Hr as [Hcw Hcv]. rewrite (proj2 (Z.leb_le (cwidth c) 64)) by lia. apply divisor_ok; [done|lia|].
  destruct (negb _) eqn:Ep.
  - destruct (power_of_two_cases (cvalue c) (cwidth c)) as [Ed Hi]; [done|done|lia|done|]. rewrite <- Hw in Hi. cbv zeta.
    apply (constant_case URem l (Constant c) _ _ _ Hw1 eq_refl ltac:(done) (low_bits_ok _ _ _ _ _ Hx ltac:(lia) Hi)).
    intros ρ _ _ _. cbn. by rewrite <- Ed.
  - destruct (optimizeDivides && (getWidth l =? 32)) eqn:Eo; [|exact Hgeneral]. apply andb_true_iff in Eo as [_ E32]. unbool.
    rewrite E32 in Hw. rewrite <- Hw in Hcv. pose proof Hx as Hx'. rewrite E32 in Hx'. rewrite (u32_small (cvalue c)) by done.
    apply (constant_case URem l (Constant c) (λ ρ, eval ρ l mod cvalue c) _ _ Hw1 eq_refl ltac:(done)); [|done].
    rewrite E32. apply remainder_ok; [exact Hx'|]. destruct Hcv. lia.
Qed.

(** *** Shifts *)

Lemma shift_case k by_constant by_variable l r :
  is_cmp k = false → wf (Binary k l r) → getWidth l ≠ 1 → translates (construct l) l → translates (construct r) r →
  (∀ ρ, total_at ρ (Binary k l r) → eval ρ r < getWidth l) →
  (∀ D V n a b, bits_ok D (getWidth l) V n → 0 ≤ b →
    by_constant n a b (getWidth l) ⇓ bits_ok D (getWidth l) (λ ρ, bv_eval k (getWidth l) (V ρ) (a mod 2 ^ b))) →
  (∀ D V A n a, bits_ok D (getWidth l) V n → bits_ok D (getWidth l) A a → (∀ ρ, wf_assignment ρ → D ρ → A ρ < getWidth l) →
    by_variable n a (getWidth l) ⇓ bits_ok D (getWidth l) (λ ρ, bv_eval k (getWidth l) (V ρ) (A ρ))) →
  translates (construct_shift construct by_constant by_variable l r) (Binary k l r).
Proof.
  intros Hk Hwf Hw1 Tl Tr Hlt Hc Hv s Hs. pose proof Hwf as (Hl & Hr & Hw). pose proof (wf_width l Hl). unfold construct_shift. operand Tl x Hx.
  apply passes_not_bool; [done|]. apply (bits_operand (Binary k l r)) in Hx; [|done|in_domain].
  assert (runs ('(amount, _) ← construct r; res ← lift (by_variable x amount (getWidth l)); mret (res, getWidth l)) s'
    (λ v s', builder_ok s' ∧ result_ok (Binary k l r) v)) as Hgeneral.
  { operand Tr y Hy. apply (bits_operand (Binary k l r)) in Hy; [|congruence|in_domain]. rewrite <- Hw in Hy.
    apply (constant_case k l r _ _ _ Hw1 Hk ltac:(done) (Hv _ _ _ _ _ Hx Hy (λ ρ _, Hlt ρ))). done. }
  destruct r; try exact Hgeneral. cbn [getWidth] in Hw. destruct Hr as [Hcw Hcv].
  destruct (getShiftBits_ok (getWidth l)) as (b & -> & Hb & _ & Hwb); [lia|]. apply runs_bind, runs_lift, yields_done.
  apply (constant_case k l (Constant c) _ _ _ Hw1 Hk ltac:(done) (Hc _ _ _ (limited_value c) b Hx ltac:(lia))).
  intros ρ _ Ht _. specialize (Hlt ρ Ht). cbn in Hlt |- *. unfold limited_value. rewrite ap_getLimitedValue_spec by done.
  destruct Hcv. rewrite u32_small by lia. by rewrite (Z.mod_small (cvalue c)) by lia.
Qed.

Lemma shl_case l r :
  wf (Binary Shl l r) → getWidth l ≠ 1 → translates (construct l) l → translates (construct r) r →
  translates (construct_binary construct Shl l r) (Binary Shl l r).
Proof.
  intros Hwf Hw1 Tl Tr. pose proof (wf_width l (proj1 Hwf)).
  assert (∀ D V F n, bits_ok D (getWidth l) (λ ρ, Z.shiftl (V ρ) (F ρ) mod 2 ^ getWidth l) n →
    bits_ok D (getWidth l) (λ ρ, bv_eval Shl (getWidth l) (V ρ) (F ρ)) n) as Heq.
  { intros D V F n Hn. eapply bits_ok_eq; [exact Hn|]. intros ρ _ _ _. cbn. case_step; unbool; [done|]. apply shiftl_high. lia. }
  apply shift_case; [done..|intros ρ (_ & _ & ?); done| |].
  - intros D V n a b Hn Hb. eapply yields_mono; [apply left_shift_any_ok; [exact Hn|lia|done]|]. intros m. apply (Heq D V (λ _, a mod 2 ^ b)).
  - intros D V A n a Hn Ha Hlt. eapply yields_mono; [eapply (var_left_shift_ok D _ (getWidth l)); [exact Hn|exact Ha|lia|lia|done]|].
    intros m. apply Heq.
Qed.

Lemma lshr_case l r :
  wf (Binary LShr l r) → getWidth l ≠ 1 → translates (construct l) l → translates (construct r) r →
  translates (construct_binary construct LShr l r) (Binary LShr l r).
Proof.
  intros Hwf Hw1 Tl Tr. pose proof (wf_width l (proj1 Hwf)). apply shift_case; [done..|intros ρ (_ & _ & ?); done| |].
  - intros D V n a b Hn Hb. apply right_shift_any_ok; [done|lia|done].
  - intros D V A n a Hn Ha Hlt. apply (var_right_shift_ok D _ (getWidth l)); [done|done|lia|lia|done].
Qed.

Lemma ashr_case l r :
  wf (Binary AShr l r) → getWidth l ≠ 1 → translates (construct l) l → translates (construct r) r →
  translates (construct_binary construct AShr l r) (Binary AShr l r).
Proof.
  intros Hwf Hw1 Tl Tr. pose proof (wf_width l (proj1 Hwf)). apply shift_case; [done..|intros ρ (_ & _ & ?); done| |].
  - intros D V n a b Hn Hb. unfold ashr_by_constant. call bool_extract_ok; [exact Hn|lia|]. intros sg Hsg.
    apply ashr_any_ok; [done|done|lia|done].
  - intros D V A n a Hn Ha Hlt. apply (var_ashr_ok D _ (getWidth l)); [done|done|lia|lia|done].
Qed.

(** *** Equality *)

Lemma eq_case l r :
  wf (Binary Eq l r) → translates (construct l) l → translates (construct r) r →
  translates (construct_eq construct l r) (Binary Eq l r).
Proof.
  intros (Hl & Hr & Hw) Tl Tr s Hs. unfold construct_eq. apply runs_bind. apply both_ok; [done..|]. intros x y s' Hs' Hx Hy.
  rewrite <- Hw. destruct (getWidth l =? 1) eqn:E; unbool.
  - apply (formula_operand (Binary Eq l r)) in Hx; [|done|in_domain]. apply (formula_operand (Binary Eq l r)) in Hy; [|congruence|in_domain].
    rewrite E. eapply lifted; [|intros n Hn; eapply (formula_result (Binary Eq l r)); [done|exact Hn|done|reflexivity]].
    assert (vc_iffExpr x y ⇓ formula_ok (λ ρ, total_at ρ (Binary Eq l r)) (λ ρ, eval ρ (Binary Eq l r))) as Hiff.
    { unfold vc_iffExpr, createBinaryNode. do 2 (ystep; [by apply well_sorted_check; destruct Hx, Hy|]).
      eapply yields_mono; [eapply (connective_ok _ IFF); eauto|]. intros n Hn. eapply formula_ok_mono; [exact Hn|]. done. }
    destruct l; try exact Hiff. cbn [getWidth] in E. rewrite CE_isTrue_spec by done. ystep.
    destruct Hl as [_ Hc]. rewrite E in Hc. unfold bounded in Hc. change (2 ^ 1) with 2 in Hc. pose proof Hy as (_ & _ & Vy).
    destruct (cvalue c =? 1) eqn:Ec; unbool.
    + apply yields_done. eapply formula_ok_mono; [exact Hy|]. intros ρ Hρ Ht. split; [done|]. intros Hb. cbn. rewrite Ec.
      unfold bounded in Hb. change (2 ^ 1) with 2 in Hb. assert (eval ρ r = 0 ∨ eval ρ r = 1) as [->| ->] by lia; done.
    + eapply yields_mono; [apply not_ok; exact Hy|]. intros n Hn. eapply formula_ok_mono; [exact Hn|]. intros ρ Hρ Ht. split; [done|].
      intros _. destruct (Vy ρ Hρ Ht) as [_ Hb]. cbn. replace (cvalue c) with 0 by lia. unfold bounded in Hb. change (2 ^ 1) with 2 in Hb.
      assert (eval ρ r = 0 ∨ eval ρ r = 1) as [->| ->] by lia; done.
  - apply (bits_operand (Binary Eq l r)) in Hx; [|done|in_domain]. apply (bits_operand (Binary Eq l r)) in Hy; [|congruence|in_domain].
    rewrite <- Hw in Hy. eapply lifted; [eapply eq_ok; [exact Hx|exact Hy]|]. intros n Hn.
    eapply formula_result; [done|exact Hn|done|done].
Qed.

(** *** The other kinds *)

Lemma select_case c t f :
  wf (Select c t f) → translates (construct c) c → translates (construct t) t → translates (construct f) f →
  translates (constructActual construct arrays (Select c t f)) (Select c t f).
Proof.
  intros (Hc & Ht & Hf & Hcw & Hw) Tc Tt Tf s Hs. cbn [constructActual]. operand Tc x Hx. operand Tt y Hy. operand Tf z Hz.
  apply (formula_operand (Select c t f)) in Hx; [|done|in_domain]. rewrite <- Hw. destruct (decide (getWidth t = 1)) as [E|E].
  - apply (formula_operand (Select c t f)) in Hy; [|done|in_domain]. apply (formula_operand (Select c t f)) in Hz; [|congruence|in_domain].
    eapply lifted; [eapply ite_formula_ok; [exact Hx|exact Hy|exact Hz]|]. intros n Hn. rewrite E.
    eapply formula_result; [done|exact Hn|done|done].
  - apply (bits_operand (Select c t f)) in Hy; [|done|in_domain]. apply (bits_operand (Select c t f)) in Hz; [|congruence|in_domain].
    rewrite <- Hw in Hz. eapply lifted; [eapply ite_bits_ok; [exact Hx|exact Hy|exact Hz]|]. intros n Hn.
    eapply bits_result; [done|exact Hn|done|done|done].
Qed.

Lemma concat_case l r :
  wf (Concat l r) → getWidth l ≠ 1 → getWidth r ≠ 1 → translates (construct l) l → translates (construct r) r →
  translates (constructActual construct arrays (Concat l r)) (Concat l r).
Proof.
  intros (Hl & Hr & Hw) Hl1 Hr1 Tl Tr s Hs. pose proof (wf_width l Hl). pose proof (wf_width r Hr). cbn [constructActual].
  operand Tr y Hy. operand Tl x Hx. apply (bits_operand (Concat l r)) in Hx; [|done|in_domain].
  apply (bits_operand (Concat l r)) in Hy; [|done|in_domain]. eapply lifted; [eapply concat_ok; [exact Hx|exact Hy|lia]|]. intros n Hn.
  eapply bits_result; [done|exact Hn|done|cbn [getWidth]; lia|done].
Qed.

Lemma extract_case e off w :
  wf (Extract e off w) → getWidth e ≠ 1 → translates (construct e) e →
  translates (constructActual construct arrays (Extract e off w)) (Extract e off w).
Proof.
  intros (He & Hoff & Hw0 & Hw) He1 Te s Hs. cbn [constructActual]. operand Te x Hx. apply (bits_operand (Extract e off w)) in Hx; [|done|in_domain].
  destruct (w =? 1) eqn:E; unbool.
  - subst w. eapply lifted; [eapply bool_extract_ok; [exact Hx|lia]|]. intros n Hn. eapply formula_result; [done|exact Hn|done|].
    intros ρ _ _ _. cbn. unfold bv_extract. change (2 ^ 1) with 2. rewrite <- Z.bit0_mod, Z.shiftr_spec, Z.add_0_l by lia. done.
  - eapply lifted; [eapply extract_ok; [exact Hx|lia..]|]. replace (off + w - 1 - off + 1) with w by lia. intros n Hn.
    eapply bits_result; [done|exact Hn|done|done|done].
Qed.

Lemma zext_case e w :
  wf (ZExt e w) → getWidth e < w → translates (construct e) e → translates (constructActual construct arrays (ZExt e w)) (ZExt e w).
Proof.
  intros (He & Hw) Hlt Te s Hs. pose proof (wf_width e He). cbn [constructActual]. operand Te x Hx. destruct (getWidth e =? 1) eqn:E; unbool.
  - apply (formula_operand (ZExt e w)) in Hx; [|done|in_domain]. eapply lifted.
    { call (bvOne_ok (λ ρ, total_at ρ (ZExt e w)) w); [lia|]. intros o Ho. call (bvZero_ok (λ ρ, total_at ρ (ZExt e w)) w); [lia|]. intros z Hz.
      apply (ite_bits_ok _ _ _ _ _ _ _ _ Hx Ho Hz). }
    intros n Hn. eapply bits_result; [done|exact Hn|done|lia|]. intros ρ Hρ Ht _. cbn. destruct (eval_bool ρ e Hρ He E) as [->| ->]; done.
  - apply (bits_operand (ZExt e w)) in Hx; [|done|in_domain]. eapply lifted.
    { call (bvZero_ok (λ ρ, total_at ρ (ZExt e w)) (w - getWidth e)); [lia|]. intros z Hz. eapply concat_ok; [exact Hz|exact Hx|lia]. }
    replace (w - getWidth e + getWidth e) with w by lia. intros n Hn. eapply bits_result; [done|exact Hn|done|lia|]. intros ρ _ _ _. cbn.
    unfold bv_concat. by rewrite Z.shiftl_0_l, Z.lor_0_l.
Qed.

Lemma sext_case e w :
  wf (SExt e w) → getWidth e < w → translates (construct e) e → translates (constructActual construct arrays (SExt e w)) (SExt e w).
Proof.
  intros (He & Hw) Hlt Te s Hs. pose proof (wf_width e He). cbn [constructActual]. operand Te x Hx. destruct (getWidth e =? 1) eqn:E; unbool.
  - apply (formula_operand (SExt e w)) in Hx; [|done|in_domain]. eapply lifted.
    { call (bvMinusOne_ok (λ ρ, total_at ρ (SExt e w)) w); [lia|]. intros o Ho. call (bvZero_ok (λ ρ, total_at ρ (SExt e w)) w); [lia|]. intros z Hz.
      apply (ite_bits_ok _ _ _ _ _ _ _ _ Hx Ho Hz). }
    intros n Hn. eapply bits_result; [done|exact Hn|done|lia|]. intros ρ Hρ Ht _. cbn. rewrite E. pose proof (pow2_pos w ltac:(lia)).
    destruct (eval_bool ρ e Hρ He E) as [->| ->]; unfold bv_sext, sgn; cbn; [by rewrite Z.mod_0_l by lia|].
    change (if 1 <? 2 ^ (1 - 1) then 1 else 1 - 2 ^ 1) with (-1). apply (Z.mod_unique_pos _ _ (-1)); lia.
  - apply (bits_operand (SExt e w)) in Hx; [|done|in_domain]. eapply lifted; [eapply sign_extend_ok; [exact Hx|lia]|]. intros n Hn.
    eapply bits_result; [done|exact Hn|done|lia|done].
Qed.

Lemma not_case e :
  wf e → translates (construct e) e → translates (constructActual construct arrays (Not e)) (Not e).
Proof.
  intros He Te s Hs. cbn [constructActual]. operand Te x Hx. destruct (getWidth e =? 1) eqn:E; unbool.
  - apply (formula_operand (Not e)) in Hx; [|done|in_domain]. eapply lifted; [eapply not_ok; exact Hx|]. intros n Hn. rewrite E.
    eapply formula_result; [done|exact Hn|done|]. intros ρ Hρ Ht _. cbn. rewrite E. destruct (eval_bool ρ e Hρ He E) as [->| ->]; done.
  - apply (bits_operand (Not e)) in Hx; [|done|in_domain]. eapply lifted; [eapply neg_ok; exact Hx|]. intros n Hn.
    eapply bits_result; [done|exact Hn|done|done|done].
Qed.

Definition array_translates (m : M Builder VCExpr) (root : Array) (un : UpdateNode) : Prop :=
  ∀ s, builder_ok s → runs m s (λ a s', builder_ok s' ∧ updated_array root un a).

Lemma read_case root head index :
  wf (Read root head index) → array_translates (arrays root head) root head → translates (construct index) index →
  translates (constructActual construct arrays (Read root head index)) (Read root head index).
Proof.
  intros (Hn & Hi & Hw) Ta Ti s Hs. cbn [constructActual]. apply runs_bind. eapply runs_mono; [by apply Ta|]. intros a s1 [Hs1 Ha].
  operand Ti x Hx. apply (bits_operand (Read root head index)) in Hx; [|by rewrite Hw|in_domain]. rewrite Hw in Hx.
  eapply lifted; [eapply array_read_ok; [exact Ha|exact Hx|]|].
  - intros ρ Hρ [_ Ht]. split; [|done]. by apply eval_bounded.
  - intros n Hn'. eapply bits_result; [done|exact Hn'|done|done|done].
Qed.

Lemma binary_case k l r :
  wf (Binary k l r) → buildable_op k (getWidth l) r → translates (construct l) l → translates (construct r) r →
  translates (construct_binary construct k l r) (Binary k l r).
Proof.
  intros Hwf Hb Tl Tr. destruct k; try (destruct Hb; fail); cbn [construct_binary].
  - by apply (term_case BVPLUS).
  - by apply (term_case BVSUB).
  - by apply mul_case.
  - by apply udiv_case.
  - by apply sdiv_case.
  - by apply urem_case.
  - by apply (term_case SBVREM).
  - apply bitwise_case; try done; [apply and_form_ok|]. intros. by apply (bitwise_bits_ok BVAND).
  - apply bitwise_case; try done; [apply or_form_ok|]. intros. by apply (bitwise_bits_ok BVOR).
  - apply bitwise_case; try done; [apply xor_form_ok|]. intros. by apply (bitwise_bits_ok BVXOR).
  - by apply shl_case.
  - by apply lshr_case.
  - by apply ashr_case.
  - by apply eq_case.
  - by apply (compare_case BVLT).
  - by apply (compare_case BVLE).
  - by apply (compare_case BVSLT).
  - by apply (compare_case BVSLE).
Qed.
(** *** Shifts by too much *)

Lemma getShiftBits_power i : 1 ≤ i ≤ 6 → getShiftBits (2 ^ i) = Done i.
Proof. intros Hi. assert (i = 1 ∨ i = 2 ∨ i = 3 ∨ i = 4 ∨ i = 5 ∨ i = 6) as [->|[->|[->|[->|[->| ->]]]]] by lia; reflexivity. Qed.

(** A shift by a constant takes the amount modulo the width. *)
Lemma constant_shift_reduced i k l c :
  1 ≤ i ≤ 6 → k = Shl ∨ k = LShr → wf l → getWidth l = 2 ^ i → cwidth c = 2 ^ i → wf_constant c → translates (construct l) l →
  ∀ s, builder_ok s → runs (construct_binary construct k l (Constant c)) s (λ r s',
    bits_ok (λ ρ, total_at ρ l) (2 ^ i) (λ ρ, bv_eval k (2 ^ i) (eval ρ l) (cvalue c mod 2 ^ i)) r.1).
Proof.
  intros Hi Hk Hwf Hw Hcw [Hc64 Hcv] Tl s Hs. assert (2 ^ 1 ≤ 2 ^ i ≤ 2 ^ 6) as Hp by (split; apply Z.pow_le_mono_r; lia).
  assert (limited_value c mod 2 ^ i = cvalue c mod 2 ^ i) as Hv.
  { unfold limited_value. rewrite ap_getLimitedValue_spec by done. unfold u32.
    replace (2 ^ 32) with (2 ^ (32 - i) * 2 ^ i) by (rewrite <- Z.pow_add_r by lia; f_equal; lia).
    rewrite <- (Znumtheory.Zmod_div_mod (2 ^ i)); [done|lia|lia|]. by exists (2 ^ (32 - i)). }
  destruct Hk as [-> | ->]; cbn [construct_binary]; unfold construct_shift; operand Tl x Hx;
    (apply passes_not_bool; [lia|]); rewrite translated_bits, Hw in Hx by lia; rewrite Hw, getShiftBits_power by done;
    apply runs_bind, runs_lift, yields_done, runs_bind, runs_lift.
  - eapply yields_mono; [apply left_shift_any_ok; [exact Hx|lia|lia]|]. intros r Hr. apply runs_ret. cbn. rewrite <- Hv.
    eapply bits_ok_eq; [exact Hr|]. intros ρ _ _ _. cbn. case_step; unbool; [done|]. apply shiftl_high. lia.
  - eapply yields_mono; [apply right_shift_any_ok; [exact Hx|lia|lia]|]. intros r Hr. apply runs_ret. cbn. by rewrite <- Hv.
Qed.

End cases.

(** ** The whole translation *)

Lemma cached_ok e : translates (constructActual construct getArrayForUpdate e) e → translates (construct e) e.
Proof.
  intros Te. assert (construct e = if negb UseConstructHash || isConstant e then constructActual construct getArrayForUpdate e
    else λ s, match constructed_find e (constructed s) with
      | Some r => Done (r, s)
      | None => (r ← constructActual construct getArrayForUpdate e; _ ← constructed_insert e r; mret r) s
      end) as -> by (by destruct e).
  destruct (negb UseConstructHash || isConstant e); [done|]. intros s Hs. unfold runs. destruct (constructed_find e (constructed s)) as [r|] eqn:E.
  - apply yields_done. split; [done|]. by eapply find_ok; [apply Hs|].
  - change (runs (r ← constructActual construct getArrayForUpdate e; _ ← constructed_insert e r; mret r) s
      (λ r s', builder_ok s' ∧ result_ok e r)).
    apply runs_bind. eapply runs_mono; [by apply Te|]. intros r s1 [Hs1 Hr]. apply runs_bind. eapply runs_mono; [by apply insert_ok|].
    intros [] s2 Hs2. by apply runs_ret.
Qed.

Lemma updates_ok next index value root :
  wf index → getWidth index = Int32 → getWidth value = Int8 →
  array_translates (getArrayForUpdate root next) root next → translates (construct index) index → translates (construct value) value →
  array_translates (getArrayForUpdate root (Node next index value)) root (Node next index value).
Proof.
  intros Hi Hwi Hwv Ta Ti Tv s Hs. unfold runs. cbn [getArrayForUpdate].
  destruct (find_update root (Node next index value) (stpArray s)) as [h|] eqn:E.
  { destruct (find_update_ok _ _ _ _ Hs E) as [Hc Hn]. unfold use_handle. by rewrite (proj2 (Nat.eqb_eq _ _) Hc). }
  apply runs_bind. eapply runs_mono; [by apply Ta|]. intros a s1 [Hs1 Ha].
  apply runs_bind. eapply runs_mono; [by apply Ti|]. intros [i w1] s2 [Hs2 [_ Hx]]. rewrite translated_bits, Hwi in Hx by (by rewrite Hwi).
  apply runs_bind. eapply runs_mono; [by apply Tv|]. intros [v w2] s3 [Hs3 [_ Hy]]. rewrite translated_bits, Hwv in Hy by (by rewrite Hwv).
  eapply lifted; [eapply array_write_ok; [exact Ha|exact Hx|exact Hy]|]. intros n Hn. apply keep_update_ok; [done|].
  eapply array_ok_mono; [exact Hn|]. intros ρ j Hρ [Hj [Hti Ht]]. split; [|done]. split; [done|]. cbn beta. by destruct (eval ρ index =? j).
Qed.

Lemma construct_ok_mut :
  (∀ e, wf e → buildable e → translates (construct e) e) ∧
  (∀ un, wf_nodes un → buildable_nodes un → ∀ root, array_translates (getArrayForUpdate root un) root un).
Proof.
  apply Expr_UpdateNode_ind; cbn [wf wf_nodes buildable buildable_nodes]; intros; destruct_and?; try apply cached_ok.
  - intros s Hs. apply runs_lift. eapply yields_mono; [by apply constant_ok|]. done.
  - intros s Hs. cbn [constructActual]. match goal with IH : wf _ → _ → translates _ _ |- _ => exact (IH ltac:(done) ltac:(done) s Hs) end.
  - apply read_case; [done|auto..].
  - apply select_case; [done|auto..].
  - apply concat_case; [done|auto..].
  - apply extract_case; [done|auto..].
  - apply zext_case; [done|auto..].
  - apply sext_case; [done|auto..].
  - apply not_case; auto.
  - apply binary_case; [done|auto..].
  - intros s Hs. eapply runs_mono; [by apply getInitialArray_ok|]. intros a s' [[Hs' _] Ea]. split; [done|].
    pose proof (initial_array_ok root) as Ha. rewrite Ea in Ha. eapply array_ok_mono; [exact Ha|]. intros ρ j _ [Hj _]. done.
  - apply updates_ok; auto.
Qed.

Lemma construct_ok e : wf e → buildable e → translates (construct e) e.
Proof. apply construct_ok_mut. Qed.

Lemma construct_query_ok e s :
  wf e → buildable e → builder_ok s →
  runs (construct_query e) s (λ n s', (builder_ok s' ∧ constructed s' = []) ∧ translated e n).
Proof.
  intros Hwf Hb Hs. unfold construct_query. apply runs_bind. eapply runs_mono; [by apply construct_ok|].
  intros [n w] s1 [[Ht Hi Hu] [_ Hn]]. apply runs_bind. apply yields_done, runs_ret. split; [|done]. split; [|done]. split; cbn; [constructor|done..].
Qed.

(** The first expression of a query is not in the table. *)
Lemma construct_query_binary k l r s (P : VCExpr → Prop) :
  constructed s = [] → runs (construct_binary construct k l r) s (λ v _, P v.1) →
  runs (construct_query (Binary k l r)) s (λ n _, P n).
Proof.
  intros Hs Hr. unfold construct_query. apply runs_bind. unfold runs. cbn [construct]. destruct (negb UseConstructHash || isConstant (Binary k l r)).
  - eapply runs_mono; [exact Hr|]. intros [n w] s1 Hn. done.
  - rewrite Hs. cbn [constructed_find]. apply runs_bind. eapply runs_mono; [exact Hr|]. intros [n w] s1 Hn. done.
Qed.

(** ** Properties *)

(** C10: the translation is well typed.  For every expression that the creation functions
    leave ([buildable]), with arrays whose names fit the buffer and a builder that keeps
    no node of a destroyed validity checker, it returns without a failed assertion of the
    builder or of the interface of STP, with an empty table and such a builder; the node is
    well sorted, a formula for a boolean expression and a bit vector of the width of the
    expression for any other. *)
Theorem translation_well_sorted e s :
  wf e → buildable e → builder_ok s →
  runs (construct_query e) s (λ n s', (builder_ok s' ∧ constructed s' = []) ∧ well_sorted n ∧
    node_type n = (0, if getWidth e =? 1 then 0 else getWidth e)).
Proof.
  intros Hwf Hb Hs. eapply runs_mono; [by apply construct_query_ok|]. intros n s' [Hs' Hn]. split; [done|]. unfold translated in Hn.
  destruct (getWidth e =? 1); [by destruct Hn as (Hn & Ht & _)|]. by destruct Hn as (Hn & [Ht _] & _).
Qed.

(** C9: the translation is faithful.  Under every assignment of bytes to the arrays
    under which the expression divides by no zero and shifts by less than the width,
    the node that it returns has the value of the expression: shifts by chains of
    conditionals, multiplications by sums of shifts and divisions by multiplications
    included, with the table of translated expressions on or off, and with nodes of arrays
    and updates kept from earlier queries.  The expression must be one that creation leaves
    ([buildable]), the names of arrays must fit the buffer, and no node may be kept of a
    destroyed validity checker ([builder_ok]). *)
Theorem translation_correct e s :
  wf e → buildable e → builder_ok s →
  runs (construct_query e) s (λ n s', ∀ ρ, wf_assignment ρ → total_at ρ e → denote ρ n 0 = Some (eval ρ e)).
Proof.
  intros Hwf Hb Hs. eapply runs_mono; [by apply construct_query_ok|]. intros n s' [_ Hn] ρ Hρ Ht. unfold translated in Hn.
  destruct (getWidth e =? 1); destruct Hn as (_ & _ & Hv); by apply Hv.
Qed.

(** C38: shifts by too much are mistranslated.  At a width that is a power of two, from 2
    to 64 bits, the translation of a left or logical right shift by a constant reduces the
    amount modulo the width, because it looks only at as many bits of the amount as amounts
    below the width need.  The value of the expression is 0 for every amount from the width
    on; the node has the value of a shift by the remainder, and by the width itself of no
    shift. *)
Theorem overshift_mistranslated i k e c s :
  1 ≤ i ≤ 6 → k = Shl ∨ k = LShr → wf e → buildable e → getWidth e = 2 ^ i → cwidth c = 2 ^ i → wf_constant c →
  builder_ok s → constructed s = [] →
  runs (construct_query (Binary k e (Constant c))) s (λ n s', ∀ ρ, wf_assignment ρ → total_at ρ e →
    denote ρ n 0 = Some (bv_eval k (2 ^ i) (eval ρ e) (cvalue c mod 2 ^ i))) ∧
  (2 ^ i ≤ cvalue c → ∀ ρ, wf_assignment ρ → eval ρ (Binary k e (Constant c)) = 0).
Proof.
  intros Hi Hk Hwf Hb Hw Hcw Hc Hs Hempty. split.
  - apply construct_query_binary; [done|]. eapply runs_mono; [by apply constant_shift_reduced; [..|apply construct_ok|]|].
    intros [n w] s' (_ & _ & Hv) ρ Hρ Ht. by apply Hv.
  - intros Hle ρ Hρ. pose proof (eval_bounded ρ e Hρ Hwf) as Hv. destruct Hk as [-> | ->]; cbn.
    + case_step; unbool; [lia|done].
    + apply (shiftr_high (getWidth e)); [lia|lia|done].
Qed.
End correctness.

Section witnesses.
#[local] Existing Instance Sample.store.
#[local] Existing Instance Sample.store_wf.
#[local] Existing Instance plain_factory.
#[local] Existing Instance unshared_nodes.
#[local] Instance limited : APIntLimit := λ _ v, v.
#[local] Instance limited_laws : APIntLimitLaws.
Proof. done. Qed.
#[local] Instance builder_options : BuilderOptions := {| UseConstructHash := true; optimizeDivides := true |}.
#[local] Instance short_names : ShortNames.
Proof. intros root. unfold name_fits, deref, Sample.store. by case_bool_decide. Qed.
Import Sample.

(** [(input[0] - table[input[1]]) / -7 < input[0] << (input[1] % 4)], at 32 bits *)
Definition sample_query : Expr :=
  let x := SExt (input 0) 32 in
  let y := SExt (Read 1%positive NullNode (ZExt (input 1) 32)) 32 in
  Binary Slt (Binary SDiv (Binary Sub x y) (const 0xFFFFFFF9 32))
    (Binary Shl x (ZExt (Binary URem (input 1) (const 4 8)) 32)).

Lemma sample_query_wf : wf sample_query.
Proof. repeat split; done. Qed.

Lemma sample_query_buildable : buildable sample_query.
Proof. repeat split; done. Qed.

Definition sample_bytes : assignment := λ _ i, if i =? 0 then 200 else 2.

Lemma sample_bytes_wf : wf_assignment sample_bytes.
Proof. intros a i. unfold sample_bytes. by destruct (i =? 0). Qed.

Definition new_builder : Builder := mkBuilder 0 [] ∅ [].

Lemma new_builder_ok : builder_ok new_builder.
Proof. split; [constructor|done|constructor]. Qed.

Lemma translation_well_sorted_witness :
  runs (construct_query sample_query) new_builder
    (λ n s', (builder_ok s' ∧ constructed s' = []) ∧ well_sorted n ∧ node_type n = (0, 0)).
Proof. exact (translation_well_sorted sample_query new_builder sample_query_wf sample_query_buildable new_builder_ok). Defined.

Lemma translation_correct_witness :
  runs (construct_query sample_query) new_builder (λ n s', denote sample_bytes n 0 = Some (eval sample_bytes sample_query)) ∧
  eval sample_bytes sample_query = 0.
Proof.
  split; [|vm_compute; reflexivity].
  eapply runs_mono; [exact (translation_correct sample_query new_builder sample_query_wf sample_query_buildable new_builder_ok)|].
  intros n s' Hn. apply Hn; [exact sample_bytes_wf|]. vm_compute. repeat split; congruence.
Defined.

(** [input[0] << 8] at 8 bits *)
Lemma overshift_mistranslated_witness :
  runs (construct_query (Binary Shl (input 0) (const 8 8))) new_builder (λ n s', denote sample_bytes n 0 = Some 200) ∧
  eval sample_bytes (Binary Shl (input 0) (const 8 8)) = 0.
Proof.
  destruct (overshift_mistranslated 3 Shl (input 0) (mkConstant 8 8) new_builder) as [Hn Hv];
    [lia|by left|repeat split; done|repeat split; done|done|done|done|exact new_builder_ok|done|].
  split; [|by apply Hv; [|exact sample_bytes_wf]]. eapply runs_mono; [exact Hn|]. intros n s' H'. apply H'; [exact sample_bytes_wf|]. vm_compute. repeat split; congruence.
Defined.
End witnesses.
