(* ===== verification/STPProcedure.v ===== *)
(** * The decision procedure of STP as an interface

    What [STPSolver] relies on of [STP::TopLevelSTP] and of the counterexamples, as the
    comments of [c_interface.h] promise it, and a procedure that keeps the promise: a
    formula depends on the bytes of finitely many arrays, and trying all of them decides
    it.  [STP::TopLevelSTP] itself, which simplifies the formula and calls a SAT solver,
    is not modelled. *)

From stdpp Require Import prelude.
From S2P Require Import Prelude Bitvec Bits ExprData ReferenceSolver STPExpr.

(** ** The interface *)

Inductive SOLVER_RETURN_TYPE : Set := SOLVER_INVALID | SOLVER_VALID | SOLVER_UNDECIDED | SOLVER_ERROR.

Definition return_code (r : SOLVER_RETURN_TYPE) : Z :=
  match r with SOLVER_INVALID => 0 | SOLVER_VALID => 1 | SOLVER_UNDECIDED => 2 | SOLVER_ERROR => -100 end.

(** [TopLevelSTP] on the assertions, as the list that [vc_query] joins to one node, and
    the query; and [GetCounterExample] of the counterexample that it then holds. *)
Class DecisionProcedure : Set := {
  TopLevelSTP : list VCExpr → VCExpr → SOLVER_RETURN_TYPE;
  GetCounterExample : list VCExpr → VCExpr → VCExpr → VCExpr;
}.

(** A well-sorted formula with a value under every assignment *)
Definition formula (n : VCExpr) : Prop :=
  well_sorted n ∧ is_formula n ∧ ∀ ρ, wf_assignment ρ → ∃ v, denote ρ n 0 = Some v.

(** All of [asserts] are true under [ρ]. *)
Definition satisfied (ρ : assignment) (asserts : list VCExpr) : Prop :=
  wf_assignment ρ ∧ Forall (λ a, denote ρ a 0 = Some 1) asserts.

Class DecisionProcedureLaws `{NodeFactory, DecisionProcedure} : Prop := {
  query_valid asserts q :
    Forall formula asserts → formula q → TopLevelSTP asserts q = SOLVER_VALID →
    ∀ ρ, satisfied ρ asserts → denote ρ q 0 = Some 1;
  query_invalid asserts q :
    Forall formula asserts → formula q → TopLevelSTP asserts q = SOLVER_INVALID →
    ∃ ρ, satisfied ρ asserts ∧ denote ρ q 0 = Some 0 ∧
      ∀ root i, i `bits` 32 →
        GetCounterExample asserts q (CreateNode (READ (SYMBOL root) (BVCONST 32 i))) = BVCONST 8 (ρ root i);
  query_constant asserts q n :
    TopLevelSTP asserts q = SOLVER_INVALID → well_sorted n → is_bits n 8 →
    ∃ v, v `bits` 8 ∧ GetCounterExample asserts q n = BVCONST 8 v;
}.

(** ** A reference procedure *)

(** The arrays that a node mentions *)
Fixpoint symbols (n : VCExpr) : list Array :=
  match n with
  | TRUE | FALSE | BVCONST _ _ => []
  | SYMBOL root => [root]
  | READ a b | BVCONCAT a b | TERM _ _ a b | FORM _ a b => symbols a ++ symbols b
  | WRITE a b c | ITE a b c => symbols a ++ symbols b ++ symbols c
  | BVEXTRACT a _ _ | BVSX a _ | BVUMINUS a | BVNEG a | NOT a => symbols a
  end.

Definition node_cells (ns : list VCExpr) : list (Array * Z) :=
  root ← ns ≫= symbols; (λ i, (root, i)) <$> seqZ 0 (2 ^ 32).

Definition refutes (asserts : list VCExpr) (q : VCExpr) (ρ : assignment) : bool :=
  forallb (λ a, bool_decide (denote ρ a 0 = Some 1)) asserts && bool_decide (denote ρ q 0 = Some 0).

Definition find_cex (asserts : list VCExpr) (q : VCExpr) : option assignment :=
  List.find (refutes asserts q) (assignments (node_cells (q :: asserts))).

Definition reference_procedure : DecisionProcedure := {|
  TopLevelSTP asserts q := if find_cex asserts q is Some _ then SOLVER_INVALID else SOLVER_VALID;
  GetCounterExample asserts q n :=
    match find_cex asserts q with Some ρ => BVCONST 8 (default 0 (denote ρ n 0)) | None => n end;
|}.

(** ** It keeps the promise *)

(** The number of bits of the values of a node *)
Definition value_bits (n : VCExpr) : Z := if GetValueWidth n =? 0 then 1 else GetValueWidth n.

Lemma value_bits_bits n w : is_bits n w → value_bits n = w ∧ 0 < w.
Proof. intros [[= _ Hv] Hw]. unfold value_bits. rewrite Hv, (proj2 (Z.eqb_neq w 0)) by lia. lia. Qed.

Lemma value_bits_formula n : is_formula n → value_bits n = 1.
Proof. intros [= _ Hv]. unfold value_bits. by rewrite Hv. Qed.

Lemma value_bits_array n : is_array n → value_bits n = 8.
Proof. intros [= _ Hv]. unfold value_bits. by rewrite Hv. Qed.

(** The bounds of the values of the operands, from the hypotheses of the induction *)
Ltac operand_bounds :=
  repeat match goal with
  | IH : ∀ j v, wf_assignment ?ρ → well_sorted ?n → denote ?ρ ?n j = Some v → _, Hd : denote ?ρ ?n ?j = Some ?v |- _ =>
      pose proof (IH j v ltac:(done) ltac:(done) Hd); clear Hd
  end;
  repeat match goal with
  | Hn : is_bits ?n ?w, Hb : bounded (value_bits ?n) _ |- _ => rewrite (proj1 (value_bits_bits n w Hn)) in Hb
  | Hn : is_formula ?n, Hb : bounded (value_bits ?n) _ |- _ => rewrite (value_bits_formula n Hn) in Hb
  | Hn : is_array ?n, Hb : bounded (value_bits ?n) _ |- _ => rewrite (value_bits_array n Hn) in Hb
  end.

(** The width of the values of the node of the goal *)
Ltac node_width w :=
  unfold value_bits; cbn [GetValueWidth]; unfold u32;
  repeat match goal with
  | Hn : is_bits _ _ |- _ => destruct Hn as [[= _ Hn] ?]
  | Hn : is_formula _ |- _ => injection Hn as _ Hn
  | Hn : is_array _ |- _ => injection Hn as _ Hn
  end;
  rewrite ?(Z.mod_small w (2 ^ 32)) by lia;
  repeat match goal with Hv : GetValueWidth _ = _ |- _ => rewrite Hv; clear Hv end;
  rewrite ?(Z.mod_small w (2 ^ 32)), ?(proj2 (Z.eqb_neq w 0)) by lia.

(** The values of a well-sorted node fit its type. *)
Lemma denote_bounded ρ n : ∀ j v,
  wf_assignment ρ → well_sorted n → denote ρ n j = Some v → v `bits` value_bits n.
Proof.
  induction n; intros j v Hρ Hn Hv; cbn [well_sorted denote] in *; simplify_option_eq;
    try case_match; sorts; simplify_eq; operand_bounds; try done.
  - node_width width. done.
  - node_width 8. done.
  - node_width 8. done.
  - node_width 8. done.
  - unfold value_bits in *. cbn [GetValueWidth]. by match goal with E : GetValueWidth _ = GetValueWidth _ |- _ => rewrite E end.
  - match goal with _ : is_bits n1 ?w, _ : is_bits n2 ?w' |- _ => node_width (w + w') end. apply bv_concat_bounded; done || lia.
  - node_width (hi - low + 1). apply bv_extract_bounded. lia.
  - node_width width. apply bv_sext_bounded. lia.
  - match goal with _ : is_bits n ?w |- _ => node_width w end. apply bounded_mod. lia.
  - match goal with _ : is_bits n ?w |- _ => node_width w end. apply bv_not_bounded. lia.
  - node_width width. replace width with (bv_width (term_op k) width) at 1 by (by destruct k). apply bv_eval_bounded; done || lia.
  - unfold value_bits, bounded in *. cbn. lia.
  - by apply bounded_b2z.
  - by apply bounded_b2z.
  - by apply bounded_b2z.
  - by apply bounded_b2z.
  - by apply bounded_b2z.
  - change (value_bits _) with 1. apply bounded_land; [done..|]. match goal with Hb : bounded 1 ?y |- 0 ≤ ?y => apply Hb end.
  - change (value_bits _) with 1. by apply bounded_lor.
  - by apply bounded_b2z.
Qed.

Section agree.
Context (ρ ρ' : assignment) (Hρ : wf_assignment ρ).

Definition agree_on (roots : list Array) : Prop := ∀ a i, a ∈ roots → i `bits` 32 → ρ a i = ρ' a i.

Definition agrees (n : VCExpr) : Prop := ∀ j, (is_array n → j `bits` 32) → denote ρ n j = denote ρ' n j.

Lemma agree_on_app l r : agree_on (l ++ r) → agree_on l ∧ agree_on r.
Proof. intros Hag. split; intros a i Ha; apply Hag, elem_of_app; auto. Qed.

Lemma agrees_value n j : agrees n → is_formula n ∨ (∃ w, is_bits n w) → denote ρ n j = denote ρ' n j.
Proof. intros Hn Hk. apply Hn. intros [= Hi _]. destruct Hk as [[= Hf _]|(w & [= Hb _] & _)]; congruence. Qed.

Lemma agrees_index n x : well_sorted n → is_bits n 32 → denote ρ n 0 = Some x → x `bits` 32.
Proof. intros Hn Hb Hx. rewrite <- (proj1 (value_bits_bits n 32 Hb)). by eapply denote_bounded. Qed.

(** The value of a node depends on the bytes of the arrays that it mentions. *)
Lemma denote_agree n : well_sorted n → agree_on (symbols n) → agrees n.
Proof.
  induction n; intros Hn Hag j Hj; cbn [well_sorted denote symbols] in *; try done.
  all: repeat match goal with Ha : agree_on (_ ++ _) |- _ => apply agree_on_app in Ha as [] end.
  all: try match goal with k : FormKind |- _ => destruct k end; sorts.
  all: repeat match goal with IH : well_sorted ?m → agree_on _ → agrees _ |- _ => specialize (IH ltac:(done) ltac:(done)) end.
  all: repeat match goal with IH : agrees ?m |- _ => rewrite (agrees_value m _ IH) by eauto end; try done.
  - f_equal. apply Hag; [by left|]. by apply Hj.
  - destruct (denote ρ' n2 0) as [x|] eqn:E; [|done]. apply IHn1. intros _. apply (agrees_index n2); [done..|].
    rewrite <- E. by apply agrees_value; eauto.
  - destruct (denote ρ' n2 0) as [x|]; [|done]. cbn. case_match; [done|]. apply IHn1. auto.
  - rewrite (agrees_value n3); [done..|]. unfold is_formula, is_bits in *. by match goal with E : node_type n2 = node_type n3 |- _ => rewrite <- E end.
Qed.
End agree.

Section reference.
#[local] Existing Instance reference_procedure.

Lemma find_cex_Some asserts q ρ :
  find_cex asserts q = Some ρ → satisfied ρ asserts ∧ denote ρ q 0 = Some 0.
Proof.
  intros [Hin Hr]%find_some. apply list_elem_of_In in Hin. unfold refutes in Hr. unbool. split; [|done].
  split; [by eapply assignments_wf|]. apply Forall_forall. intros a Ha%list_elem_of_In.
  eapply bool_decide_eq_true_1. revert a Ha. by apply forallb_forall.
Qed.

Lemma find_cex_None asserts q ρ :
  Forall formula asserts → formula q → find_cex asserts q = None → satisfied ρ asserts → denote ρ q 0 ≠ Some 0.
Proof.
  intros Ha Hq Hn [Hρ Hs] H0'. destruct (assignments_complete (node_cells (q :: asserts)) ρ Hρ) as (ρ' & Hin & Hag).
  assert (∀ n, n ∈ q :: asserts → formula n → denote ρ n 0 = denote ρ' n 0) as Heq.
  { intros n Hin' (Hw & Hf & _). eapply agrees_value; [|by left]. apply denote_agree; [done..|]. intros a i Hsym Hi.
    apply Hag, list_elem_of_bind. exists a. split; [|apply list_elem_of_bind; by exists n].
    apply list_elem_of_fmap. exists i. split; [done|]. apply elem_of_seqZ. unfold bounded in Hi. lia. }
  apply list_elem_of_In in Hin. pose proof (find_none _ _ Hn ρ' Hin) as Hr. apply not_true_iff_false in Hr. apply Hr.
  unfold refutes. apply andb_true_iff. split.
  - apply forallb_forall. intros a Ha'%list_elem_of_In. apply bool_decide_eq_true_2. rewrite Forall_forall in Ha, Hs.
    rewrite <- Heq; [by apply Hs|by right|by apply Ha].
  - apply bool_decide_eq_true_2. rewrite <- Heq; [done|by left|done].
Qed.

#[export] Instance reference_laws `{NodeFactoryLaws} : DecisionProcedureLaws.
Proof.
  split; cbn [TopLevelSTP GetCounterExample reference_procedure];
    [intros asserts q Ha Hq..|intros asserts q n]; destruct (find_cex asserts q) as [ρ|] eqn:E; intros Ht; try done.
  - intros ρ Hs. destruct Hq as (Hw & Hf & Hd). destruct (Hd ρ (proj1 Hs)) as [v Hv]. rewrite Hv.
    pose proof (find_cex_None asserts q ρ Ha (conj Hw (conj Hf Hd)) E Hs) as Hne. rewrite Hv in Hne.
    pose proof (denote_bounded ρ q 0 v (proj1 Hs) Hw Hv) as Hb. rewrite (value_bits_formula q Hf) in Hb. unfold bounded in Hb.
    f_equal. assert (v ≠ 0) by congruence. lia.
  - destruct (find_cex_Some asserts q ρ E) as [Hs H0']. exists ρ. split_and!; [done..|]. intros root i Hi.
    rewrite (create_value _ ρ 0 (ρ root i)); [done| |apply Hs|done]. by split_and!.
  - intros Hn Hb. exists (default 0 (denote ρ n 0)). split; [|done]. apply find_cex_Some in E as [[Hρ _] _].
    destruct (denote ρ n 0) as [v|] eqn:Ev; [|done]. rewrite <- (proj1 (value_bits_bits n 8 Hb)). by eapply denote_bounded.
Qed.

Lemma reference_decides asserts q : TopLevelSTP asserts q = SOLVER_VALID ∨ TopLevelSTP asserts q = SOLVER_INVALID.
Proof. cbn [TopLevelSTP reference_procedure]. destruct (find_cex asserts q); [by right|by left]. Qed.
End reference.
