(* ===== verification/STPSolver.v ===== *)
(** * The STP solver: [lib/Solver/STPSolver.cpp]

    The solver that the chains end in: it asserts the translations of the constraints,
    asks STP about the translation of the expression, in the same process or in a child,
    and reads the bytes of a counterexample back, in the second case through shared
    memory.

    The decision procedure of STP is the interface of STPProcedure.  What becomes of each
    child process is a parameter too.  Statistics, clocks and messages are left out. *)

From stdpp Require Import prelude gmap.
From S2P Require Import Prelude Bitvec Bits APInt ExprData ExprConstants ExprBinary ExprBinaryProofs ExprVisitor ExprEval ExprUtil Solver Footprint ReferenceSolver.
From S2P Require Import SolverProofs CexCachingSolver STPExpr STPBuilder STPArithmetic STPBuilderProofs STPProcedure.

(** ** STP *)

(** The validity checker: its stack of assertions, with the innermost level first and
    each level in the order of the calls, and its current query *)
Record VC : Set := mkVC { asserts : list (list VCExpr); current_query : VCExpr }.

Definition vc_createValidityChecker : VC := mkVC [] TRUE.

Definition vc_push (vc : VC) : VC := mkVC ([] :: asserts vc) (current_query vc).
Definition vc_pop (vc : VC) : VC := mkVC (tail (asserts vc)) (current_query vc).

Definition is_Form_kind (n : VCExpr) : bool :=
  match n with TRUE | FALSE | NOT _ | FORM _ _ _ | ITE _ _ _ => true | _ => false end.

(** [STPMgr::AddAssert] *)
Definition AddAssert (a : VCExpr) (vc : VC) : outcome VC :=
  _ ← cassert (is_Form_kind a && has_type BOOLEAN_TYPE a);
  Done (match asserts vc with
        | [] => mkVC [[a]] (current_query vc)
        | level :: levels => mkVC ((level ++ [a]) :: levels) (current_query vc)
        end).

Definition vc_assertFormula (a : VCExpr) (vc : VC) : outcome VC :=
  _ ← cassert (is_Form_kind a); _ ← cassert (BVTypeCheck a); AddAssert a vc.

(** [STPMgr::GetAsserts] *)
Definition GetAsserts (vc : VC) : list VCExpr := concat (reverse (asserts vc)).

Section stp.
Context `{DecisionProcedure}.

Definition vc_query (q : VCExpr) (vc : VC) : outcome (SOLVER_RETURN_TYPE * VC) :=
  _ ← cassert (is_Form_kind q); _ ← cassert (BVTypeCheck q);
  Done (TopLevelSTP (GetAsserts vc) q, mkVC (asserts vc) q).

Definition vc_getCounterExample (vc : VC) (e : VCExpr) : VCExpr :=
  GetCounterExample (GetAsserts vc) (current_query vc) e.

(** [getBVUnsigned], which refuses what does not fit 32 bits *)
Definition getBVUnsigned (e : VCExpr) : outcome Z :=
  match e with
  | BVCONST w v => _ ← cassert ((w <=? 32) || (v <? 2 ^ 32)); Done (u32 v)
  | _ => AssertFailed
  end.
End stp.

(** ** The solver *)

(** The command-line option, and the arguments of the constructor and [setTimeout] *)
Class STPOptions : Set := { ReinstantiateSolver : bool; useForkedSTP : bool; timeout : Z }.

(** What becomes of a child process: [fork] or [waitpid] fails, a signal ends it, or it
    exits, by itself or, if the alarm is set and goes off first, in its handler. *)
Inductive Fate : Set := ForkFails | WaitFails | Signalled | Exits (alarm_first : bool).

Class Processes : Set := fate : nat → Fate.

Definition shared_memory_size : Z := 2 ^ 20.

(** [STPSolverImpl], with the shared memory and the number of children so far *)
Record STPState : Set := mkSTP {
  vc : VC;
  builder : Builder;
  shared_memory : list Z;
  forks : nat;
}.

Definition set_vc (v : VC) (s : STPState) : STPState := mkSTP v (builder s) (shared_memory s) (forks s).
Definition set_builder (b : Builder) (s : STPState) : STPState := mkSTP (vc s) b (shared_memory s) (forks s).

(** A builder for the next validity checker.  The nodes that arrays and update nodes keep
    are those of the checkers before. *)
Definition next_builder (b : Builder) : Builder := mkBuilder (S (checker b)) [] (stpInitialArray b) (stpArray b).

Section solver.
Context `{NodeFactory} `{APIntOps} `{APIntLimit} `{ArrayStore} `{BuilderOptions} `{NodeIdentity} `{ObjectIdentity} `{Options} `{VisitorOptions}.
Context `{DecisionProcedure} `{STPOptions} `{Processes}.

(** The constructor *)
Definition new_STPSolverImpl : STPState :=
  mkSTP vc_createValidityChecker (mkBuilder 0 [] ∅ []) (if useForkedSTP then replicate (Z.to_nat shared_memory_size) 0 else []) 0.

Definition on_vc (f : VC → outcome VC) : M STPState unit := λ s,
  v ← f (vc s); Done (tt, set_vc v s).

Definition reinstantiate : M STPState unit := λ s,
  Done (tt, if ReinstantiateSolver then set_builder (next_builder (builder s)) (set_vc vc_createValidityChecker s) else s).

(** [builder->construct] *)
Definition builder_construct (e : Expr) : M STPState VCExpr := λ s,
  '(n, b) ← construct_query e (builder s); Done (n, set_builder b s).

(** The loop that asserts the constraints *)
Fixpoint assert_constraints (cs : list Expr) : M STPState unit :=
  match cs with
  | [] => mret tt
  | c :: cs => n ← builder_construct c; _ ← on_vc (vc_assertFormula n); assert_constraints cs
  end.

(** The loops that read the bytes of one object and of all objects *)
Fixpoint cex_bytes (v : VC) (array : Array) (offset : Z) (n : nat) : M Builder bytes :=
  match n with
  | O => mret []
  | S n =>
      r ← getInitialRead array offset;
      val ← lift (getBVUnsigned (vc_getCounterExample v r));
      data ← cex_bytes v array (offset + 1) n;
      mret (val mod 2 ^ 8 :: data)
  end.

Fixpoint cex_values (v : VC) (objects : list Array) : M Builder (list bytes) :=
  match objects with
  | [] => mret []
  | array :: objects =>
      data ← cex_bytes v array 0 (Z.to_nat (array_size (deref array)));
      values ← cex_values v objects;
      mret (data :: values)
  end.

(** A negative result throws an exception, on which the caller exits. *)
Definition runAndGetCex (q : VCExpr) (objects : list Array) : M STPState (option (list bytes)) := λ s,
  '(result, v) ← vc_query q (vc s);
  let s := set_vc v s in
  if return_code result <? 0 then AssertFailed
  else if return_code result =? 0 then '(values, b) ← cex_values v objects (builder s); Done (Some values, set_builder b s)
  else Done (None, s).

(** The child: its exit code and what it writes to the shared memory.  The nodes that it
    keeps are lost with it. *)
Definition stp_child (q : VCExpr) (objects : list Array) (v : VC) (b : Builder) : outcome (Z * bytes) :=
  '(res, v) ← vc_query q v;
  data ← (if return_code res =? 0 then '(values, _) ← cex_values v objects b; Done (concat values) else Done []);
  Done (return_code res mod 2 ^ 8, data).

(** The parent copies the bytes of each object out of the shared memory. *)
Fixpoint split_values (memory : bytes) (objects : list Array) : list bytes :=
  match objects with
  | [] => []
  | array :: objects =>
      let size := Z.to_nat (array_size (deref array)) in
      take size memory :: split_values (drop size memory) objects
  end.

(** The parent after the child exited *)
Definition exited (exitcode : Z) (objects : list Array) (s : STPState) : option (option (list bytes)) :=
  if exitcode =? 0 then Some (Some (split_values (shared_memory s) objects))
  else if exitcode =? 1 then Some None
  else None.

(** From [fork] on.  A child that fails an assertion is ended by a signal, one that
    reports an error of STP exits with the code 255: the result is the same. *)
Definition fork_child (q : VCExpr) (objects : list Array) : M STPState (option (option (list bytes))) := λ s,
  let f := fate (forks s) in
  let s := mkSTP (vc s) (builder s) (shared_memory s) (S (forks s)) in
  match f with
  | ForkFails | WaitFails | Signalled => Done (None, s)
  | Exits alarm_first =>
      if alarm_first && negb (timeout =? 0) then Done (exited 52 objects s, s)
      else match stp_child q objects (vc s) (builder s) with
           | Done (exitcode, data) =>
               let s := mkSTP (vc s) (builder s) (data ++ drop (length data) (shared_memory s)) (forks s) in
               Done (exited exitcode objects s, s)
           | AssertFailed => Done (None, s)
           | OutOfFuel => OutOfFuel
           end
  end.

(** The sum of the sizes wraps around. *)
Definition total_size (objects : list Array) : Z :=
  foldl (λ sum o, u32 (sum + array_size (deref o))) 0 objects.

Definition runAndGetCexForked (q : VCExpr) (objects : list Array) : M STPState (option (option (list bytes))) :=
  _ ← lift (cassert (total_size objects <? shared_memory_size));
  fork_child q objects.

Definition stp_computeInitialValues (query : Query) (objects : list Array) : M STPState (option (option (list bytes))) :=
  _ ← reinstantiate;
  _ ← on_vc (λ v, Done (vc_push v));
  _ ← assert_constraints (constraints query);
  stp_e ← builder_construct (query_expr query);
  success ← (if useForkedSTP then runAndGetCexForked stp_e objects
             else hasSolution ← runAndGetCex stp_e objects; mret (Some hasSolution));
  _ ← on_vc (λ v, Done (vc_pop v));
  mret success.

Definition stp_computeTruth (query : Query) : M STPState (option bool) :=
  on_success (stp_computeInitialValues query []) (λ hasSolution,
    mret (Some (if hasSolution is Some _ then false else true))).

Definition stp_computeValue (query : Query) : M STPState (option Expr) :=
  objects ← lift (findSymbolicObjects [query_expr query]);
  on_success (stp_computeInitialValues (withFalse query) objects) (λ hasSolution,
    match hasSolution with
    | None => lift AssertFailed
    | Some values =>
        result ← lift (Assignment_evaluate (Assignment_of objects values false) (query_expr query));
        mret (Some result)
    end).

(** [computeValidity] is inherited. *)
Definition STPSolver : SolverImpl STPState :=
  mkImpl stp_computeTruth (default_computeValidity stp_computeTruth) stp_computeValue stp_computeInitialValues.

(** [getConstraintLog]; the printer of STP is a parameter. *)
Definition vc_printQueryStateToBuffer {A} (printQueryState : list VCExpr → VCExpr → A) (q : VCExpr) : M STPState A := λ s,
  Done (printQueryState (GetAsserts (vc s)) q, s).

Definition getConstraintLog {A} (printQueryState : list VCExpr → VCExpr → A) (query : Query) : M STPState A :=
  _ ← on_vc (λ v, Done (vc_push v));
  _ ← assert_constraints (constraints query);
  _ ← lift (cassert (eqE (query_expr query) (Constant (alloc 0 Bool))));
  buffer ← vc_printQueryStateToBuffer printQueryState getFalse;
  _ ← on_vc (λ v, Done (vc_pop v));
  mret buffer.

End solver.

(** ** The bytes of a counterexample *)

Section counterexamples.
Context `{NodeFactoryLaws} `{APIntLaws} `{WfStore} `{NodeIdentity} `{!ShortNames} `{DecisionProcedure}.

(** The node of a byte, without the nodes that are kept *)
Definition initial_read (root : Array) (index : Z) : outcome VCExpr :=
  arr ← initial_array root; i ← bvConst32 32 index; vc_readExpr arr i.

Lemma initial_read_symbolic root i :
  isSymbolicArray root = true → i `bits` 32 →
  initial_read root i = Done (CreateNode (READ (SYMBOL root) (BVCONST 32 i))).
Proof.
  intros Hs Hi. unfold initial_read, initial_array, bvConst32. rewrite Hs, names_fit.
  assert (vc_bvConstExprFromInt 32 i = Done (BVCONST 32 i)) as ->.
  { unfold vc_bvConstExprFromInt, CreateBVConst. change (Z.shiftr (u64 (-1)) (64 - 32)) with (2 ^ 32 - 1).
    by rewrite (proj2 (Z.leb_le i (2 ^ 32 - 1))), Z.mod_small by (unfold bounded in Hi; lia). }
  unfold vc_readExpr, checked. change (BVTypeCheck (BVCONST 32 i)) with true. cbn [vc_arrayVar BVTypeCheck mbind outcome_bind cassert].
  rewrite (well_sorted_check (CreateNode _)); [done|]. apply create_sorted. cbn. by split_and!.
Qed.

Lemma initial_read_sorted root i :
  i `bits` 32 → initial_read root i ⇓ λ n, well_sorted n ∧ is_bits n 8.
Proof.
  intros Hi. unfold initial_read, bvConst32. call initial_array_ok. intros arr Harr.
  call (const_Int_ok (λ _, True) 32 i); [done..|]. intros n Hn.
  eapply yields_mono; [eapply array_read_ok; [exact Harr|exact Hn|]|].
  - intros ρ _ _. apply Hi.
  - intros r (? & ? & _). done.
Qed.

(** Between queries the table is empty, and the nodes that are kept are good. *)
Definition builder_clean (b : Builder) : Prop := constructed b = [] ∧ builder_ok b.

Lemma getInitialRead_ok root i b :
  builder_clean b → i `bits` 32 →
  runs (getInitialRead root i) b (λ n b', builder_clean b' ∧ initial_read root i = Done n).
Proof.
  intros [Hc Hb] Hi. unfold getInitialRead. apply runs_bind. eapply runs_mono; [by apply getInitialArray_ok|].
  intros arr b' [[Hb' Hc'] Ea]. destruct (yields_inv _ _ (initial_read_sorted root i Hi)) as (n & En & _).
  unfold initial_read in *. rewrite Ea in *. cbn [mbind outcome_bind] in En. apply runs_lift.
  rewrite En. apply yields_done. split; [split; [congruence|done]|done].
Qed.

(** [v] has a counterexample with the bytes of [ρ] in symbolic arrays. *)
Definition cex_of (ρ : assignment) (v : VC) : Prop :=
  wf_assignment ρ ∧
  (∀ root i, i `bits` 32 →
    vc_getCounterExample v (CreateNode (READ (SYMBOL root) (BVCONST 32 i))) = BVCONST 8 (ρ root i)) ∧
  (∀ n, well_sorted n → is_bits n 8 → ∃ x, x `bits` 8 ∧ vc_getCounterExample v n = BVCONST 8 x).

(** The bytes of the counterexample, of constant arrays too *)
Definition cex_assignment (v : VC) : assignment := λ root i,
  match initial_read root i with
  | Done n => match vc_getCounterExample v n with BVCONST _ x => if bool_decide (i `bits` 32) then x else 0 | _ => 0 end
  | _ => 0
  end.

Lemma cex_assignment_ok ρ v root i :
  cex_of ρ v → i `bits` 32 →
  ∃ n, initial_read root i = Done n ∧ vc_getCounterExample v n = BVCONST 8 (cex_assignment v root i) ∧
    cex_assignment v root i `bits` 8 ∧ (isSymbolicArray root = true → cex_assignment v root i = ρ root i).
Proof.
  intros (Hρ & Hsym & Hconst) Hi. unfold cex_assignment.
  destruct (yields_inv _ _ (initial_read_sorted root i Hi)) as (n & En & Hn & Hb). rewrite En, (bool_decide_true _ Hi).
  destruct (Hconst n Hn Hb) as (x & Hx & Ex). exists n. rewrite Ex. split_and!; [done..|]. intros Hs.
  rewrite initial_read_symbolic in En by done. injection En as <-. rewrite Hsym in Ex by done. by injection Ex.
Qed.

Lemma cex_assignment_wf ρ v : cex_of ρ v → wf_assignment (cex_assignment v).
Proof.
  intros Hv root i. destruct (decide (i `bits` 32)) as [Hi|Hi].
  - by destruct (cex_assignment_ok ρ v root i Hv Hi) as (n & _ & _ & Hb & _).
  - unfold cex_assignment. rewrite bool_decide_false by done. by repeat case_match.
Qed.

Lemma cex_bytes_ok ρ v root n : ∀ k b,
  cex_of ρ v → builder_clean b → Z.of_nat (k + n) ≤ array_size (deref root) →
  runs (cex_bytes v root (Z.of_nat k) n) b (λ data b',
    builder_clean b' ∧ data = (λ i, cex_assignment v root (Z.of_nat i)) <$> seq k n).
Proof.
  induction n as [|n IH]; intros k b Hv Hb Hk; [by apply runs_ret|]. cbn [cex_bytes seq].
  pose proof (proj1 (wf_store root)) as Hsize. assert (Z.of_nat k `bits` 32) as Hk32 by (unfold bounded; lia).
  destruct (cex_assignment_ok ρ v root _ Hv Hk32) as (r & Er & Ec & Hx & _).
  apply runs_bind. eapply runs_mono; [by apply getInitialRead_ok|]. intros r' b1 [Hb1 Er']. rewrite Er in Er'. injection Er' as <-.
  rewrite Ec. apply runs_bind, runs_lift, yields_done. replace (Z.of_nat k + 1) with (Z.of_nat (S k)) by lia.
  apply runs_bind. eapply runs_mono; [apply IH; done || lia|]. intros data b2 [Hb2 ->]. apply runs_ret. split; [done|].
  cbn [fmap list_fmap]. f_equal. unfold bounded in Hx. unfold u32.
  rewrite (Z.mod_small _ (2 ^ 32)) by (split; [lia|]; etrans; [apply Hx|done]). by rewrite Z.mod_small.
Qed.

Lemma cex_values_ok ρ v objects : ∀ b,
  cex_of ρ v → builder_clean b →
  runs (cex_values v objects) b (λ values b', builder_clean b' ∧ values = object_bytes (cex_assignment v) <$> objects).
Proof.
  induction objects as [|o objects IH]; intros b Hv Hb; [by apply runs_ret|]. cbn [cex_values].
  apply runs_bind. eapply runs_mono; [apply (cex_bytes_ok ρ v o _ 0); [done..|pose proof (proj1 (wf_store o)); lia]|].
  intros data b1 [Hb1 ->]. apply runs_bind. eapply runs_mono; [by apply IH|]. intros values b2 [Hb2 ->]. by apply runs_ret.
Qed.

(** What the child writes the parent reads. *)
Lemma split_values_ok ρ objects rest :
  split_values (concat (object_bytes ρ <$> objects) ++ rest) objects = object_bytes ρ <$> objects.
Proof.
  revert rest. induction objects as [|o objects IH]; intros rest; [done|]. cbn [split_values fmap list_fmap concat].
  rewrite <- app_assoc. assert (Z.to_nat (array_size (deref o)) = length (object_bytes ρ o)) as ->
    by (unfold object_bytes; by rewrite length_fmap, length_seq).
  rewrite take_app_length, drop_app_length. by rewrite IH.
Qed.
End counterexamples.

(** ** The queries to STP *)

Lemma evaluable_total `{ArrayStore} ρ :
  (∀ e, evaluable ρ e → total_at ρ e) ∧ (∀ un i, evaluable_read ρ un i → total_read ρ un i).
Proof.
  apply Expr_UpdateNode_ind; cbn [evaluable evaluable_read total_at total_read]; intros; destruct_and?; split_and?; auto; [done|].
  by case_match; auto.
Qed.

Lemma formula_kind n : well_sorted n → is_formula n → is_Form_kind n = true.
Proof.
  intros Hn [= Hi Hv]. destruct n; cbn in *; try done; exfalso; sorts.
  all: unfold is_bits, is_array, is_formula, node_type in *; cbn in *; sorts; simplify_eq; unfold u32 in *; try lia.
  all: rewrite Z.mod_small in Hv by lia; lia.
Qed.

Section queries.
Context `{NodeFactoryLaws} `{APIntLaws} `{WfStore} `{DecisionProcedure} `{!DecisionProcedureLaws}.

(** [n] is a formula with the value of [e]. *)
Definition represents (e : Expr) (n : VCExpr) : Prop :=
  formula n ∧ ∀ ρ, wf_assignment ρ → denote ρ n 0 = Some (eval ρ e).

Lemma represents_formulas cs ns : Forall2 represents cs ns → Forall formula ns.
Proof. induction 1 as [|c n cs ns Hn]; constructor; [apply Hn|done]. Qed.

Lemma represents_models cs ns ρ : Forall2 represents cs ns → satisfied ρ ns ↔ models cs ρ.
Proof.
  intros Hns. unfold satisfied, models. split; intros [Hρ Hall]; split; try done.
  - intros c (k & Hc)%list_elem_of_lookup. destruct (Forall2_lookup_l _ _ _ _ _ Hns Hc) as (n & Hn & _ & Hv).
    pose proof (Forall_lookup_1 _ _ _ _ Hall Hn) as Hone. cbn in Hone. rewrite Hv in Hone by done. by injection Hone.
  - induction Hns as [|c n cs ns [_ Hv] _ IH]; constructor; [|apply IH; intros; apply Hall; by right].
    rewrite Hv by done. f_equal. apply Hall. by left.
Qed.

Lemma verdict_valid q ns n :
  Forall2 represents (constraints q) ns → represents (query_expr q) n →
  TopLevelSTP ns n = SOLVER_VALID → valid q.
Proof.
  intros Hns [Hn Hv] Ht ρ Hρ. pose proof (query_valid ns n (represents_formulas _ _ Hns) Hn Ht ρ) as Hone.
  rewrite (represents_models _ _ _ Hns), Hv in Hone by apply Hρ. by specialize (Hone Hρ) as [= ->].
Qed.

Lemma verdict_invalid q ns n v :
  Forall2 represents (constraints q) ns → represents (query_expr q) n → GetAsserts v = ns → current_query v = n →
  TopLevelSTP ns n = SOLVER_INVALID → ∃ ρ, models (constraints q) ρ ∧ eval ρ (query_expr q) = 0 ∧ cex_of ρ v.
Proof.
  intros Hns [Hn Hv] Ev Eq Ht. destruct (query_invalid ns n (represents_formulas _ _ Hns) Hn Ht) as (ρ & Hs & Hzero & Hc).
  exists ρ. pose proof (proj1 Hs) as Hρ. rewrite (represents_models _ _ _ Hns) in Hs. rewrite Hv in Hzero by done. injection Hzero as E0.
  split_and!; [done..|]. unfold cex_of, vc_getCounterExample. rewrite Ev, Eq. split_and!; [done..|]. intros m. by apply query_constant.
Qed.

Lemma query_call e n v :
  represents e n → vc_query n v = Done (TopLevelSTP (GetAsserts v) n, mkVC (asserts v) n).
Proof.
  intros [(Hs & Hf & _) _]. unfold vc_query. rewrite formula_kind by done. cbn [mbind outcome_bind cassert].
  by rewrite well_sorted_check.
Qed.
End queries.

(** ** The methods *)

Section correct.
Context `{NodeFactoryLaws} `{APIntLaws} `{APIntLimitLaws} `{WfStore} `{BuilderOptions} `{NodeIdentity} `{!ShortNames} `{ObjectIdentity} `{Options} `{VisitorOptions}.
Context `{DecisionProcedure} `{!DecisionProcedureLaws} `{STPOptions} `{Processes}.
Context `{QueryClass} (Hcomp : computable_only = true) (Hbuild : buildable_only = true).

(** The validity checker is the one that the constructor made. *)
Context (Honce : ReinstantiateSolver = false).

(** In the same process STP must decide the queries; a child may fail. *)
Context (Hdecides : useForkedSTP = false → ∀ asserts q, Forall formula asserts → formula q →
  TopLevelSTP asserts q = SOLVER_VALID ∨ TopLevelSTP asserts q = SOLVER_INVALID).

(** A step that leaves the assertions [l] and an empty table *)
Definition keeps_asserts (l : list (list VCExpr)) (s : STPState) : Prop := asserts (vc s) = l ∧ builder_clean (builder s).

(** Between two queries nothing is asserted, the table of the builder is empty, and the
    nodes that arrays and updates keep are translations of the validity checker. *)
Definition stp_inv : STPState → Prop := keeps_asserts [].

(** The bytes of the objects fit the shared memory, if there is one. *)
Definition readable (objects : list Array) : Prop := useForkedSTP = true → total_size objects < shared_memory_size.

Definition solution_ok (q : Query) (objects : list Array) (res : option (list bytes)) : Prop :=
  match res with None => valid q | Some values => counterexample q objects values end.

Lemma new_stp_inv : stp_inv new_STPSolverImpl.
Proof. do 2 (split; [done|]). split; [constructor|done|constructor]. Qed.

Lemma regular_buildable e : regular e → buildable e.
Proof. intros He. by apply (He (λ _ _, 0)). Qed.

Lemma builder_construct_ok e l s :
  wf e → getWidth e = Bool → regular e → keeps_asserts l s →
  runs (builder_construct e) s (λ n s', keeps_asserts l s' ∧ represents e n).
Proof.
  intros Hwf Hw Hreg [Hl [Hc Hb]]. unfold runs, builder_construct.
  pose proof (construct_query_ok e _ Hwf (regular_buildable e Hreg) Hb) as Hrun. unfold runs in Hrun.
  destruct (construct_query e (builder s)) as [[n c]| |]; try done. destruct Hrun as [[Hb' Hc'] Hn]. split; [done|].
  rewrite translated_formula in Hn by done. destruct Hn as (Hs & Hf & Hv).
  assert (∀ ρ, wf_assignment ρ → denote ρ n 0 = Some (eval ρ e)) as Hval.
  { intros ρ Hρ. apply Hv; [done|]. apply evaluable_total. by apply (Hreg ρ Hρ). }
  split; [|done]. split_and!; [done..|]. intros ρ Hρ. eexists. by apply Hval.
Qed.

Lemma assert_ok e n level levels s :
  represents e n → keeps_asserts (level :: levels) s →
  runs (on_vc (vc_assertFormula n)) s (λ _ s', keeps_asserts ((level ++ [n]) :: levels) s').
Proof.
  intros [(Hs & Hf & _) _] [Hl Hc]. unfold runs, on_vc, vc_assertFormula, AddAssert. rewrite formula_kind, well_sorted_check by done.
  unfold has_type. by rewrite type_of_formula, Hl by done.
Qed.

Lemma assert_constraints_ok cs : ∀ level levels s,
  wf_constraints cs → keeps_asserts (level :: levels) s →
  runs (assert_constraints cs) s (λ _ s', ∃ ns,
    keeps_asserts ((level ++ ns) :: levels) s' ∧ Forall2 represents cs ns).
Proof.
  induction cs as [|c cs IH]; intros level levels s Hcs Hs; cbn [assert_constraints].
  { apply runs_ret. exists []. by rewrite app_nil_r. }
  inversion Hcs as [|? ? (Hwf & Hw & Hreg) Hcs']. subst.
  apply runs_bind. eapply runs_mono; [by eapply builder_construct_ok|]. intros n s1 [Hs1 Hn].
  apply runs_bind. eapply runs_mono; [by eapply assert_ok|]. intros [] s2 Hs2.
  eapply runs_mono; [by apply IH|]. intros [] s3 (ns & Hs3 & Hns). exists (n :: ns). split; [|by constructor].
  by rewrite <- app_assoc in Hs3.
Qed.

(** The bytes of constant arrays do not matter. *)
Lemma cex_counterexample q objects ρ v :
  wf_query q → models (constraints q) ρ → eval ρ (query_expr q) = 0 → cex_of ρ v →
  counterexample q objects (object_bytes (cex_assignment v) <$> objects).
Proof.
  intros [(Hcs & _ & He & Hreg) _] [Hρ Hm] H0' Hv. exists (cex_assignment v).
  assert (∀ e, wf e → regular e → eval ρ e = eval (cex_assignment v) e) as Heq.
  { intros e Hwf Hre. apply eval_inside; [done..|by apply (Hre ρ Hρ)|]. intros o i _ Hs Hi.
    pose proof (proj1 (wf_store o)). destruct (cex_assignment_ok ρ v o i Hv) as (n & _ & _ & _ & E); [unfold bounded; lia|].
    symmetry. by apply E. }
  split_and!; [split; [by eapply cex_assignment_wf|]|by rewrite <- Heq|done].
  intros c Hc. pose proof (proj1 (Forall_forall _ _) Hcs c Hc) as (? & _ & ?). rewrite <- Heq by done. auto.
Qed.

Lemma runAndGetCex_ok q objects ns n s :
  useForkedSTP = false → wf_query q →
  Forall2 represents (constraints q) ns → represents (query_expr q) n → keeps_asserts [ns] s →
  runs (runAndGetCex n objects) s (λ r s', keeps_asserts [ns] s' ∧ solution_ok q objects r).
Proof.
  intros Hfork Hq Hns Hn [Hl Hc]. unfold runs, runAndGetCex. rewrite (query_call _ _ _ Hn). cbn [mbind outcome_bind].
  assert (GetAsserts (vc s) = ns) as Ea by (unfold GetAsserts; rewrite Hl; apply app_nil_r). rewrite Ea.
  destruct (Hdecides Hfork ns n (represents_formulas _ _ Hns) (proj1 Hn)) as [Ht|Ht]; rewrite Ht; cbn [return_code Z.ltb Z.eqb Z.compare].
  - apply yields_done. split; [done|]. by eapply verdict_valid.
  - destruct (verdict_invalid q ns n (mkVC (asserts (vc s)) n) Hns Hn Ea eq_refl Ht) as (ρ & Hρ & He & Hcex).
    eapply yields_bind, yields_mono; [by apply (cex_values_ok ρ)|]. intros [values b] [Hb ->]. apply yields_done.
    split; [done|]. by eapply cex_counterexample.
Qed.

Lemma fork_child_ok q objects ns n s :
  wf_query q →
  Forall2 represents (constraints q) ns → represents (query_expr q) n → keeps_asserts [ns] s →
  runs (fork_child n objects) s (λ r s', keeps_asserts [ns] s' ∧ ∀ res, r = Some res → solution_ok q objects res).
Proof.
  intros Hq Hns Hn [Hl Hc]. unfold runs, fork_child. destruct (fate (forks s)) as [| | |late]; try done.
  destruct (late && negb (timeout =? 0)); [done|]. cbn [vc]. unfold stp_child. rewrite (query_call _ _ _ Hn). cbn [mbind outcome_bind].
  assert (GetAsserts (vc s) = ns) as Ea by (unfold GetAsserts; rewrite Hl; apply app_nil_r). rewrite Ea.
  destruct (TopLevelSTP ns n) eqn:Ht; try done.
  - destruct (verdict_invalid q ns n (mkVC (asserts (vc s)) n) Hns Hn Ea eq_refl Ht) as (ρ & Hρ & He & Hcex).
    cbn [return_code Z.eqb builder]. pose proof (cex_values_ok ρ _ objects _ Hcex Hc) as Hvalues. unfold runs in Hvalues.
    destruct (cex_values _ objects (builder s)) as [[values b]| |]; try done. destruct Hvalues as [_ ->]. cbn [mbind outcome_bind].
    apply yields_done. split; [done|]. intros res [= <-].
    cbn [solution_ok shared_memory]. rewrite split_values_ok. by eapply cex_counterexample.
  - apply yields_done. split; [done|]. intros res [= <-]. by eapply verdict_valid.
Qed.

Lemma run_ok q objects ns n s :
  wf_query q → readable objects →
  Forall2 represents (constraints q) ns → represents (query_expr q) n → keeps_asserts [ns] s →
  runs (if useForkedSTP then runAndGetCexForked n objects
        else hasSolution ← runAndGetCex n objects; mret (Some hasSolution)) s
    (λ r s', keeps_asserts [ns] s' ∧
      match r with Some res => solution_ok q objects res | None => useForkedSTP = true end).
Proof.
  intros Hq Hobj Hns Hn Hs. destruct (decide (useForkedSTP = true)) as [Hfork|Hfork%not_true_is_false]; rewrite Hfork.
  - unfold runAndGetCexForked. rewrite (proj2 (Z.ltb_lt _ _) (Hobj Hfork)). apply runs_bind, runs_lift, yields_done.
    eapply runs_mono; [by apply fork_child_ok|]. intros [res|] s' [Hs' Hr]; split; auto.
  - apply runs_bind. eapply runs_mono; [by apply runAndGetCex_ok|]. intros res s' [Hs' Hr]. by apply runs_ret.
Qed.

Lemma stp_initial_ok q objects :
  wf_query q → readable objects →
  answers (useForkedSTP = true) (stp_computeInitialValues q objects) stp_inv (solution_ok q objects).
Proof.
  intros Hq Hobj s [Hl Hc]. pose proof Hq as [(Hcs & _ & He & Hreg) Hw]. unfold stp_computeInitialValues.
  apply runs_bind. unfold reinstantiate. rewrite Honce. apply yields_done.
  apply runs_bind, yields_done. set (s1 := set_vc (vc_push (vc s)) s).
  assert (keeps_asserts [[]] s1) as Hs1 by (split; [cbn; by rewrite Hl|done]).
  apply runs_bind. eapply runs_mono; [by eapply assert_constraints_ok|]. intros [] s2 (ns & Hs2 & Hns).
  apply runs_bind. eapply runs_mono; [by eapply builder_construct_ok|]. intros n s3 [Hs3 Hn].
  apply runs_bind. eapply runs_mono; [by eapply run_ok|]. intros r s4 [[Hl4 Hc4] Hr].
  apply runs_bind, yields_done, runs_ret. split; [|by destruct r]. split; [|done]. cbn. by rewrite Hl4.
Qed.

Lemma stp_truth_ok q :
  wf_query q → answers (useForkedSTP = true) (stp_computeTruth q) stp_inv (truth_ok q).
Proof.
  intros Hq. eapply on_success_ok; [by apply stp_initial_ok|]. intros [values|] Hr; apply answers_ret; [|done].
  destruct Hr as (ρ & Hρ & He & _). by exists ρ.
Qed.

(** Evaluation under the bytes of the objects of the expression *)
Lemma evaluate_bytes e objects ρ :
  wf e → regular e → wf_assignment ρ → (∀ a, a ∈ objects ↔ isSymbolicArray a = true ∧ a ∈ arrays e) →
  Assignment_evaluate (bytes_of ρ objects) e = Done (const (eval ρ e) (getWidth e)).
Proof.
  intros Hwf Hreg Hρ Hobj. pose proof (bytes_of_good ρ objects Hρ) as Hgood. pose proof (good_wf _ Hgood) as Hρ'.
  destruct Hgood as (Hb & Hf & _). rewrite Assignment_evaluate_ok by (done || by apply (Hreg _ Hρ')). unfold value_of.
  do 3 f_equal. symmetry. apply eval_inside; [done..|by apply (Hreg ρ Hρ)|]. intros o i Ho Hsym Hi.
  unfold assignment_of. rewrite bytes_of_lookup, bool_decide_true by (by apply Hobj). cbn. by rewrite object_bytes_lookup.
Qed.

Lemma stp_value_ok q :
  wf_value_query q → (∀ objects, findSymbolicObjects [query_expr q] = Done objects → readable objects) →
  answers (useForkedSTP = true) (stp_computeValue q) stp_inv (λ e,
    ∃ ρ, models (constraints q) ρ ∧ e = const (eval ρ (query_expr q)) (getWidth (query_expr q))).
Proof.
  intros Hq Hsize. unfold stp_computeValue.
  destruct (yields_inv _ _ (findSymbolicObjects_ok [query_expr q])) as (objects & Eo & _ & Hobj). rewrite Eo.
  assert (∀ a, a ∈ objects ↔ isSymbolicArray a = true ∧ a ∈ arrays (query_expr q)) as Hin.
  { intros a. rewrite Hobj. setoid_rewrite list_elem_of_singleton. naive_solver. }
  apply answers_lift, yields_done. eapply on_success_ok; [apply stp_initial_ok; [by apply withFalse_wf|auto]|].
  intros [values|] Hr; cbn in Hr.
  - destruct Hr as (ρ & Hρ & _ & ->). change (Assignment_of _ _ _) with (bytes_of ρ objects).
    destruct Hq as (_ & _ & He & Hreg). rewrite evaluate_bytes by (done || apply Hρ). apply answers_lift, yields_done, answers_ret. by exists ρ.
  - destruct Hq as (_ & (ρ & Hρ) & _). by specialize (Hr ρ Hρ).
Qed.

Lemma stp_sound : useForkedSTP = false → sound False STPSolver stp_inv.
Proof.
  intros Hfork. assert (∀ objects, readable objects) as Hobj by (intros objects; unfold readable; congruence).
  assert (useForkedSTP = true → False) as Hno by congruence.
  split; intros q *.
  - intros Hq. eapply answers_mono; [by apply stp_truth_ok|done..].
  - intros Hq. eapply answers_mono; [|done..]. apply default_validity_ok; [|done]. intros q'. apply stp_truth_ok.
  - intros Hq. eapply answers_mono; [by apply stp_value_ok|done..].
  - intros Hq. eapply answers_mono; [by apply stp_initial_ok|done..].
Qed.

End correct.


Section witnesses.
#[local] Existing Instance Sample.store.
#[local] Existing Instance Sample.store_wf.
#[local] Existing Instance identity.
#[local] Existing Instance plain_factory.
#[local] Existing Instance unshared_nodes.
#[local] Existing Instance short_names.
#[local] Existing Instance limited.
#[local] Existing Instance limited_laws.
#[local] Existing Instance builder_options.
#[local] Instance opt_on : Options := const_array_opt true.
#[local] Instance hash_on : VisitorOptions := {| UseVisitorHash := true |}.
#[local] Instance computable : QueryClass := {| in_range_only := true; computable_only := true; buildable_only := true |}.
#[local] Instance in_process : STPOptions := {| ReinstantiateSolver := false; useForkedSTP := false; timeout := 0 |}.
#[local] Instance no_children : Processes := λ _, ForkFails.
#[local] Existing Instance reference_procedure.
Import Sample.

(** [input[0] < 2] implies [input[0] != 5]. *)
Definition small_input : Query :=
  mkQuery [Binary Ult (input 0) (const 2 8)] (Binary Eq (Constant (alloc 0 Bool)) (Binary Eq (const 5 8) (input 0))).

Lemma small_input_wf : wf_query small_input.
Proof.
  split; [|done]. split_and!.
  - apply Forall_singleton. by split_and!; [repeat split..|].
  - exists (λ _ _, 0). split; [done|]. by intros c ->%list_elem_of_singleton.
  - repeat split; done.
  - by intros ρ Hρ.
Qed.


End witnesses.
