(* ===== verification/STPReinstantiation.v ===== *)
(** * Re-instantiation of the STP solver: [STPSolverImpl::reinstantiate]

    With [-reinstantiate-solver] every query starts with a new validity checker, and the
    one before is destroyed with all of its nodes.  Arrays and update nodes keep their
    nodes across queries.  Partial correctness of the translation shows what follows: a
    translation that returns has used a node of the current checker for each array of the
    expression. *)

From stdpp Require Import prelude gmap.
From S2P Require Import Prelude Bitvec Bits APInt ExprData ExprConstants ExprBinary ExprBinaryProofs ExprVisitor ExprEval ExprUtil Solver ReferenceSolver.
From S2P Require Import STPExpr STPBuilder STPArithmetic STPBuilderProofs STPProcedure STPSolver.

(** ** The nodes that are kept *)

(** The node that the array [a] keeps is one of the current validity checker. *)
Definition current (b : Builder) (a : Array) : Prop := ∃ n, stpInitialArray b !! a = Some (checker b, n).

Definition all_current (b : Builder) (X : gset Array) : Prop := ∀ a, a ∈ X → current b a.

(** No node belongs to a checker yet to come, and what was translated for the current
    one has all its arrays translated for it. *)
Record kept (b : Builder) : Prop := {
  kept_table : Forall (λ p, all_current b (arrays p.1)) (constructed b);
  kept_updates : Forall (λ '(root, un, h), h.1 = checker b → all_current b ({[root]} ∪ node_arrays un)) (stpArray b);
  kept_initial_owner a h : stpInitialArray b !! a = Some h → (h.1 ≤ checker b)%nat;
  kept_update_owner : Forall (λ '(_, _, h), (h.1 ≤ checker b)%nat) (stpArray b);
}.

(** An array that keeps a node keeps it. *)
Record later (b b' : Builder) : Prop := {
  later_checker : checker b' = checker b;
  later_initial : stpInitialArray b ⊆ stpInitialArray b';
}.

#[export] Instance later_preorder : PreOrder later.
Proof.
  split; [by split|]. intros b1 b2 b3 [Hc1 Hi1] [Hc2 Hi2]. split; [congruence|by etrans].
Qed.

Lemma all_current_later b b' X : later b b' → all_current b X → all_current b' X.
Proof. intros [Hc Hi] HX a Ha. destruct (HX a Ha) as (n & Hn). exists n. rewrite Hc. by eapply lookup_weaken. Qed.

(** ** Partial correctness

    If [m] returns, the nodes of the arrays [X] are those of the current checker. *)
Section touches.
Context {S : Type} (view : S → Builder).

Definition touches_in {A} (X : gset Array) (m : M S A) : Prop :=
  ∀ s r s', kept (view s) → m s = Done (r, s') → kept (view s') ∧ later (view s) (view s') ∧ all_current (view s') X.

Lemma touches_ret {A} X (x : A) : X ⊆ ∅ → touches_in X (mret x).
Proof. intros HX s r s' Hs [= <- <-]. split_and!; [done|done|]. intros a Ha. set_solver. Qed.

Lemma touches_lift {A} X (m : outcome A) : X ⊆ ∅ → touches_in X (lift m).
Proof. intros HX s r s' Hs Hm. unfold lift in Hm. destruct m as [x| |]; [|done..]. exact (touches_ret X x HX s r s' Hs Hm). Qed.

Lemma touches_mono {A} X Y (m : M S A) : touches_in X m → Y ⊆ X → touches_in Y m.
Proof. intros Hm HY s r s' Hs Hr. destruct (Hm s r s' Hs Hr) as (Hs' & Hl & HX). split_and!; [done|done|]. intros a Ha. apply HX. set_solver. Qed.

Lemma bind_Done {A B} (m : M S A) (f : A → M S B) s r s' :
  (m ≫= f) s = Done (r, s') → ∃ x s1, m s = Done (x, s1) ∧ f x s1 = Done (r, s').
Proof. unfold mbind, M_bind. destruct (m s) as [[x s1]| |]; [|done..]. by exists x, s1. Qed.

Lemma touches_bind {A B} X Y (m : M S A) (f : A → M S B) :
  touches_in Y m → (∀ x, touches_in (X ∖ Y) (f x)) → touches_in X (m ≫= f).
Proof.
  intros Hm Hf s r s' Hs (x & s1 & E & Hr)%bind_Done.
  destruct (Hm s x s1 Hs E) as (Hs1 & Hl1 & HY). destruct (Hf x s1 r s' Hs1 Hr) as (Hs' & Hl' & HX).
  split_and!; [done|by etrans|]. intros a Ha. destruct (decide (a ∈ Y)); [by apply (all_current_later (view s1) (view s') Y)|]. apply HX. set_solver.
Qed.

Lemma touches_lift_bind {A B} X (m : outcome A) (f : A → M S B) : (∀ x, touches_in X (f x)) → touches_in X (lift m ≫= f).
Proof.
  intros Hf. apply (touches_bind X ∅); [by apply touches_lift|]. intros x. by rewrite difference_empty_L.
Qed.
End touches.

Abbreviation touches := (touches_in (λ b : Builder, b)).

(** ** The translation *)

Section translation.
Context `{NodeFactory} `{APIntOps} `{APIntLimit} `{ArrayStore} `{BuilderOptions} `{NodeIdentity}.

Lemma use_handle_current h b r b' : use_handle h b = Done (r, b') → b' = b ∧ h.1 = checker b.
Proof. unfold use_handle. destruct (h.1 =? checker b)%nat eqn:E; [|done]. intros [= _ <-]. split; [done|]. by apply Nat.eqb_eq. Qed.

Lemma keep_initial_kept root n b r b' :
  stpInitialArray b !! root = None → kept b → keep_initial root n b = Done (r, b') →
  kept b' ∧ later b b' ∧ all_current b' {[root]}.
Proof.
  intros Hnone [Ht Hu Hi Ho] [= <- <-]. set (b' := mkBuilder _ _ _ _).
  assert (later b b') as Hl by (split; [done|by apply insert_subseteq]).
  split_and!; [split|done|].
  - eapply Forall_impl; [exact Ht|]. intros p. by apply all_current_later.
  - eapply Forall_impl; [exact Hu|]. intros [[root' un] h] HX Hh. by apply (all_current_later b), HX.
  - cbn. intros a h [[<- <-]|[_ Hh]]%lookup_insert_Some; [done|by apply (Hi a)].
  - done.
  - intros a ->%elem_of_singleton. exists n. cbn. by rewrite lookup_insert_eq.
Qed.

Lemma getInitialArray_touches root : touches {[root]} (getInitialArray root).
Proof.
  intros b r b' Hb Hr. unfold getInitialArray in Hr. destruct (stpInitialArray b !! root) as [[c n]|] eqn:E.
  - apply use_handle_current in Hr as [-> Hc]. cbn in Hc. subst c. split_and!; [done|done|]. intros a ->%elem_of_singleton. by exists n.
  - unfold mbind, M_bind, lift in Hr. destruct (initial_array root) as [n| |]; [|done..]. exact (keep_initial_kept root n b r b' E Hb Hr).
Qed.

Lemma keep_update_kept root un n b r b' :
  kept b → all_current b ({[root]} ∪ node_arrays un) → keep_update root un n b = Done (r, b') → kept b' ∧ later b b'.
Proof.
  intros [Ht Hu Hi Ho] HX [= <- <-]. split; [|done]. split; cbn.
  - done.
  - constructor; [done|]. eapply Forall_impl; [exact Hu|]. by intros [[root' un'] h].
  - done.
  - constructor; [done|]. eapply Forall_impl; [exact Ho|]. by intros [[root' un'] h].
Qed.

Lemma constructed_insert_kept e v b r b' :
  kept b → all_current b (arrays e) → constructed_insert e v b = Done (r, b') → kept b' ∧ later b b'.
Proof.
  intros Hb HX. unfold constructed_insert. destruct (constructed_find e (constructed b)); intros [= <- <-]; [done|].
  destruct Hb as [Ht Hu Hi Ho]. split; [|done]. split; cbn; [by constructor|done..].
Qed.

Lemma constructed_find_current e b v : kept b → constructed_find e (constructed b) = Some v → all_current b (arrays e).
Proof.
  intros [Ht _ _ _]. induction Ht as [|[e' r'] s Hr Ht IH]; [done|]. cbn [constructed_find]. destruct (eqE e' e) eqn:E; [|done].
  apply eqE_eq in E as ->. done.
Qed.

Lemma find_update_current root un h b :
  kept b → find_update root un (stpArray b) = Some h → h.1 = checker b → all_current b ({[root]} ∪ node_arrays un).
Proof.
  intros [_ Hu _ _]. induction Hu as [|[[root' un'] h'] l Hh _ IH]; cbn [find_update]; [done|].
  case_bool_decide as Hr; cbn [andb]; [|done]. destruct (same_node un' un) eqn:Hn; [|done].
  apply same_node_eq in Hn. intros [= <-]. by subst.
Qed.

(** The calls of a case in turn *)
Ltac touch :=
  repeat first
    [ match goal with
      | |- ∀ _, _ => intros
      | |- touches _ (mret _) => apply touches_ret; set_solver
      | |- touches _ (lift _ ≫= _) => apply touches_lift_bind
      | |- touches _ (not_bool _ ≫= _) => apply touches_lift_bind
      | |- touches _ (lift AssertFailed) => by intros ? ? ? ?
      | |- touches _ (lift _) => apply touches_lift; set_solver
      | IH : touches _ ?m |- touches _ (?m ≫= _) => eapply touches_bind; [exact IH|]
      end
    | case_match; simplify_eq ].

Section cases.
Context (construct : Expr → M Builder (VCExpr * Z)).

Lemma binary_touches k l r :
  touches (arrays l) (construct l) → touches (arrays r) (construct r) →
  touches (arrays l ∪ arrays r) (construct_binary construct k l r).
Proof.
  intros Hl Hr. assert (touches (arrays l ∪ arrays r) (construct_both construct l r)) as Hboth by (unfold construct_both; touch).
  destruct k; cbn [construct_binary].
  all: unfold construct_term, construct_mul, construct_udiv, construct_sdiv, construct_urem, construct_bitwise, construct_shift, construct_eq, construct_compare.
  all: touch.
Qed.
End cases.

Lemma cached_touches e : touches (arrays e) (constructActual construct getArrayForUpdate e) → touches (arrays e) (construct e).
Proof.
  intros Te. assert (construct e = if negb UseConstructHash || isConstant e then constructActual construct getArrayForUpdate e
    else λ s, match constructed_find e (constructed s) with
      | Some r => Done (r, s)
      | None => (r ← constructActual construct getArrayForUpdate e; _ ← constructed_insert e r; mret r) s
      end) as -> by (by destruct e).
  destruct (negb UseConstructHash || isConstant e); [done|]. intros b r b' Hb. destruct (constructed_find e (constructed b)) as [v|] eqn:E.
  { intros [= <- <-]. split_and!; [done|done|]. by eapply constructed_find_current. }
  intros (v & b1 & E1 & [= <- <-])%bind_Done. destruct (Te b v b1 Hb E1) as (Hb1 & Hl1 & HX).
  destruct (constructed_insert_kept e v b1 _ _ Hb1 HX eq_refl) as [Hb2 Hl2]. split_and!; [done|by etrans|]. by apply (all_current_later b1).
Qed.

Lemma update_touches root next index value :
  touches ({[root]} ∪ node_arrays next) (getArrayForUpdate root next) →
  touches (arrays index) (construct index) → touches (arrays value) (construct value) →
  touches ({[root]} ∪ node_arrays (Node next index value)) (getArrayForUpdate root (Node next index value)).
Proof.
  intros Hn Hi Hv b r b' Hb. cbn [getArrayForUpdate]. destruct (find_update root (Node next index value) (stpArray b)) as [h|] eqn:E.
  { intros [-> Hc]%use_handle_current. split_and!; [done|done|]. by eapply find_update_current. }
  intros (a & b1 & E1 & ([i wi] & b2 & E2 & ([v wv] & b3 & E3 & Hw)%bind_Done)%bind_Done)%bind_Done.
  destruct (Hn b _ b1 Hb E1) as (Hb1 & Hl1 & HX1). destruct (Hi b1 _ b2 Hb1 E2) as (Hb2 & Hl2 & HX2).
  destruct (Hv b2 _ b3 Hb2 E3) as (Hb3 & Hl3 & HX3). apply bind_Done in Hw as (n & b4 & E4 & Hw).
  unfold lift in E4. destruct (vc_writeExpr a i v) as [n'| |]; [|done..]. injection E4 as <- <-.
  assert (all_current b3 ({[root]} ∪ node_arrays (Node next index value))) as HX.
  { intros x Hx. cbn in Hx. assert (x ∈ {[root]} ∪ node_arrays next ∨ x ∈ arrays index ∨ x ∈ arrays value) as [Hx'|[Hx'|Hx']] by set_solver.
    - apply (all_current_later b1 b3 _ ltac:(by etrans) HX1 x Hx').
    - apply (all_current_later b2 b3 _ Hl3 HX2 x Hx').
    - by apply HX3. }
  destruct (keep_update_kept _ _ _ _ _ _ Hb3 HX Hw) as [Hb' Hl']. split_and!; [done|by do 3 (etrans; [eassumption|])|]. by apply (all_current_later b3).
Qed.

Lemma construct_touches_mut :
  (∀ e, touches (arrays e) (construct e)) ∧
  (∀ un root, touches ({[root]} ∪ node_arrays un) (getArrayForUpdate root un)).
Proof.
  apply Expr_UpdateNode_ind; intros; try apply cached_touches; cbn [constructActual arrays].
  - by apply touches_lift.
  - done.
  - eapply touches_bind; [done|]. touch.
  - touch.
  - touch.
  - touch.
  - touch.
  - touch.
  - touch.
  - by apply binary_touches.
  - cbn. rewrite union_empty_r_L. apply getInitialArray_touches.
  - by apply update_touches.
Qed.
End translation.

(** ** The solver *)

(** The arrays of a query *)
Definition mentioned (q : Query) : gset Array := ⋃ (arrays <$> constraints q) ∪ arrays (query_expr q).

Section solver.
Context `{NodeFactory} `{APIntOps} `{APIntLimit} `{ArrayStore} `{BuilderOptions} `{NodeIdentity}.
Context `{DecisionProcedure} `{STPOptions} `{Processes}.

Abbreviation stp_touches := (touches_in builder).

Lemma construct_query_touches e : touches (arrays e) (construct_query e).
Proof.
  intros b r b' Hb. unfold construct_query. intros ([n w] & b1 & E1 & [= <- <-])%bind_Done.
  destruct (proj1 construct_touches_mut e b _ b1 Hb E1) as ([_ Hu Hi Ho] & [Hc Hl] & HX). split_and!; [|done|done].
  split; [constructor|done..].
Qed.

Lemma builder_construct_touches e : stp_touches (arrays e) (builder_construct e).
Proof.
  intros s n s' Hs. unfold builder_construct. destruct (construct_query e (builder s)) as [[n' b]| |] eqn:E; [|done..].
  intros [= <- <-]. by eapply construct_query_touches.
Qed.

Lemma on_vc_touches f : stp_touches ∅ (on_vc f).
Proof. intros s [] s' Hs. unfold on_vc. destruct (f (vc s)) as [v| |]; [|done..]. intros [= <-]. split_and!; [done|done|]. by intros a ?%elem_of_empty. Qed.

Lemma assert_constraints_touches cs : stp_touches (⋃ (arrays <$> cs)) (assert_constraints cs).
Proof.
  induction cs as [|c cs IH]; cbn [assert_constraints fmap list_fmap union_list]; [by apply touches_ret|].
  eapply touches_bind; [apply builder_construct_touches|]. intros n. eapply touches_bind; [apply on_vc_touches|]. intros [].
  eapply touches_mono; [exact IH|]. set_solver.
Qed.

Lemma getInitialRead_touches root i : touches {[root]} (getInitialRead root i).
Proof. eapply touches_bind; [apply getInitialArray_touches|]. intros arr. apply touches_lift. set_solver. Qed.

Lemma cex_bytes_touches v root n : ∀ offset, touches ∅ (cex_bytes v root offset n).
Proof.
  induction n as [|n IH]; intros offset; cbn [cex_bytes]; [by apply touches_ret|].
  eapply touches_bind; [apply getInitialRead_touches|].
  intros r. apply touches_lift_bind. intros val. eapply touches_bind; [apply IH|]. intros data. apply touches_ret. set_solver.
Qed.

Lemma cex_values_touches v objects : touches ∅ (cex_values v objects).
Proof.
  induction objects as [|o objects IH]; cbn [cex_values]; [by apply touches_ret|].
  eapply touches_bind; [apply cex_bytes_touches|]. intros data. eapply touches_bind; [eapply touches_mono; [exact IH|done]|].
  intros values. apply touches_ret. set_solver.
Qed.

Lemma runAndGetCex_touches q objects : stp_touches ∅ (runAndGetCex q objects).
Proof.
  intros s r s' Hs. unfold runAndGetCex. destruct (vc_query q (vc s)) as [[res v]| |]; [|done..]. cbn [mbind outcome_bind builder set_vc].
  assert (all_current (builder s) ∅) as Hnone by (by intros a ?%elem_of_empty).
  destruct (return_code res <? 0); [done|]. destruct (return_code res =? 0); [|by intros [= <- <-]].
  destruct (cex_values v objects (builder s)) as [[values b]| |] eqn:E; [|done..]. intros [= <- <-]. by eapply cex_values_touches.
Qed.

Lemma runAndGetCexForked_touches q objects : stp_touches ∅ (runAndGetCexForked q objects).
Proof.
  apply touches_lift_bind. intros [] s r s' Hs. unfold fork_child.
  assert (all_current (builder s) ∅) as Hnone by (by intros a ?%elem_of_empty).
  destruct (fate (forks s)) as [| | |late]; [by intros [= <- <-]..|]. destruct (late && negb (timeout =? 0)); [by intros [= <- <-]|].
  cbn [vc builder]. destruct (stp_child q objects (vc s) (builder s)) as [[code data]| |]; by intros [= <- <-].
Qed.

(** The query after [reinstantiate] *)
Lemma query_touches q objects :
  stp_touches (mentioned q) (
    _ ← on_vc (λ v, Done (vc_push v));
    _ ← assert_constraints (constraints q);
    stp_e ← builder_construct (query_expr q);
    success ← (if useForkedSTP then runAndGetCexForked stp_e objects
               else hasSolution ← runAndGetCex stp_e objects; mret (Some hasSolution));
    _ ← on_vc (λ v, Done (vc_pop v));
    mret success).
Proof.
  eapply touches_bind; [apply on_vc_touches|]. intros []. eapply touches_bind; [apply assert_constraints_touches|]. intros [].
  eapply touches_bind; [apply builder_construct_touches|]. intros n. apply (touches_bind _ _ ∅).
  { destruct useForkedSTP; [apply runAndGetCexForked_touches|]. eapply touches_bind; [apply runAndGetCex_touches|].
    intros res. by apply touches_ret. }
  intros success. eapply touches_bind; [apply on_vc_touches|]. intros []. apply touches_ret. unfold mentioned. set_solver.
Qed.

Lemma next_builder_kept b : kept b → kept (next_builder b).
Proof.
  intros [_ _ Hi Ho]. split; cbn; [constructor| | |].
  - eapply Forall_impl; [exact Ho|]. intros [[root un] h] Hh Hc. lia.
  - intros a h Hh. specialize (Hi a h Hh). lia.
  - eapply Forall_impl; [exact Ho|]. intros [[root un] h] Hh. lia.
Qed.

(** A query that returns mentions only arrays that were not translated before. *)
Lemma reinstantiated_query q objects s r s' :
  ReinstantiateSolver = true → kept (builder s) → stp_computeInitialValues q objects s = Done (r, s') →
  kept (builder s') ∧ stpInitialArray (builder s) ⊆ stpInitialArray (builder s') ∧
  ∀ a, a ∈ mentioned q → stpInitialArray (builder s) !! a = None ∧ is_Some (stpInitialArray (builder s') !! a).
Proof.
  intros Hre Hs ([] & s0 & E0 & Hr)%bind_Done. unfold reinstantiate in E0. rewrite Hre in E0. injection E0 as <-.
  apply query_touches in Hr as (Hs' & [Hc Hl] & HX); [|by apply next_builder_kept]. cbn in Hc, Hl. split_and!; [done|done|].
  intros a (n & Hn)%HX. split; [|done]. apply eq_None_not_Some. intros (h & Hh).
  pose proof (eq_trans (eq_sym (lookup_weaken _ _ _ _ Hh Hl)) Hn) as [= ->]. apply (kept_initial_owner _ Hs) in Hh. cbn in Hh. lia.
Qed.

(** A sequence of queries *)
Fixpoint asked (qs : list (Query * list Array)) : M STPState unit :=
  match qs with
  | [] => mret tt
  | (q, objects) :: qs => _ ← stp_computeInitialValues q objects; asked qs
  end.

Lemma asked_app qs1 qs2 s r s' :
  asked (qs1 ++ qs2) s = Done (r, s') → ∃ s1, asked qs1 s = Done (tt, s1) ∧ asked qs2 s1 = Done (r, s').
Proof.
  revert s. induction qs1 as [|[q o] qs1 IH]; intros s; cbn [app asked]; [by exists s|].
  intros (x & s1 & E & (s2 & E1 & E2)%IH)%bind_Done. exists s2. split; [|done]. unfold mbind, M_bind. by rewrite E.
Qed.

Lemma asked_kept qs s r s' :
  ReinstantiateSolver = true → kept (builder s) → asked qs s = Done (r, s') →
  kept (builder s') ∧ stpInitialArray (builder s) ⊆ stpInitialArray (builder s').
Proof.
  intros Hre. revert s. induction qs as [|[q o] qs IH]; intros s Hs; cbn [asked]; [by intros [= _ <-]|].
  intros (x & s1 & E & Hr)%bind_Done. destruct (reinstantiated_query q o s x s1 Hre Hs E) as (Hs1 & Hl1 & _).
  destruct (IH s1 Hs1 Hr) as [Hs' Hl']. split; [done|by etrans].
Qed.

(** C39: re-instantiation uses freed nodes.  With [-reinstantiate-solver], no sequence of
    queries to a new solver in which two mention the same array, in a constraint or in the
    expression, gets to its end, whatever the decision procedure answers: the second of the
    two reads the node that the array keeps, which belongs to a validity checker that has
    been destroyed.  The source remarks that the option seems to cause crashes. *)
Theorem reinstantiation_uses_freed_nodes before q1 objects1 between q2 objects2 a r :
  ReinstantiateSolver = true → a ∈ mentioned q1 → a ∈ mentioned q2 →
  asked (before ++ (q1, objects1) :: between ++ [(q2, objects2)]) new_STPSolverImpl ≠ Done r.
Proof.
  intros Hre Ha1 Ha2. destruct r as [[] s']. intros (s1 & E1 & (x & s2 & E2 & (s3 & E3 & (y & s4 & E4 & _)%bind_Done)%asked_app)%bind_Done)%asked_app.
  assert (kept (builder new_STPSolverImpl)) as H0' by (split; [constructor..|done|constructor]).
  destruct (asked_kept _ _ _ _ Hre H0' E1) as [Hs1 _]. destruct (reinstantiated_query _ _ _ _ _ Hre Hs1 E2) as (Hs2 & _ & Hq1).
  destruct (asked_kept _ _ _ _ Hre Hs2 E3) as [Hs3 Hl3]. destruct (reinstantiated_query _ _ _ _ _ Hre Hs3 E4) as (_ & _ & Hq2).
  destruct (Hq1 a Ha1) as [_ [h Hh]]. destruct (Hq2 a Ha2) as [Hnone _]. pose proof (lookup_weaken _ _ _ _ Hh Hl3). congruence.
Qed.
End solver.

Section witnesses.
#[local] Existing Instance Sample.store.
#[local] Existing Instance plain_factory.
#[local] Existing Instance unshared_nodes.
#[local] Existing Instance limited.
#[local] Existing Instance builder_options.
#[local] Existing Instance no_children.
#[local] Existing Instance reference_procedure.
#[local] Instance reinstantiating : STPOptions := {| ReinstantiateSolver := true; useForkedSTP := true; timeout := 0 |}.

(** The same query twice; the first time it returns. *)
Lemma reinstantiation_uses_freed_nodes_witness :
  (∃ s, asked [(small_input, [])] new_STPSolverImpl = Done (tt, s)) ∧
  ∀ r, asked [(small_input, []); (small_input, [])] new_STPSolverImpl ≠ Done r.
Proof.
  split.
  { unfold new_STPSolverImpl. generalize (replicate (Z.to_nat shared_memory_size) 0). intros memory. eexists. vm_compute. reflexivity. }
  intros r. apply (reinstantiation_uses_freed_nodes [] small_input [] [] small_input [] 2%positive r); vm_compute; reflexivity.
Defined.
End witnesses.
