(* ===== verification/SolverChain.v ===== *)
(** * The chain of solvers: [lib/Core/SolverFactory.cpp], [lib/Solver/PCLoggingSolver.cpp]
      and the solvers of S2E in [S2ESolverFactory.cpp] and [DataCollectorSolver.cpp]

    The factories put the solvers in front of each other as the options say.  Each
    solver keeps its own state; the validating solver also asks the end solver of the
    chain, which it shares with the solvers in between.  Hence a chain knows how to run
    the end solver on its state.

    The log of queries has one entry for each call, as data; the text is left out.  The
    database of the data collector and the interval-based solver are parameters. *)

From stdpp Require Import prelude gmap.
From S2P Require Import Prelude Bitvec APInt ExprData ExprConstants ExprBinary ExprBinaryProofs ExprVisitor ExprEval ExprUtil Constraints Solver.
From S2P Require Import ReferenceSolver SolverProofs StagedSolver ValidatingSolver CachingSolver IndependentSolver MapOfSets CexCachingSolver.
From S2P Require Import STPExpr STPBuilder STPBuilderProofs STPProcedure STPSolver.

(** ** The logging solver *)

Inductive QueryType : Set := TRUTH | VALIDITY | VALUE | INITIAL_VALUES.

(** What is printed after a call *)
Inductive Logged : Set :=
| Failed
| IsValid (isValid : bool)
| ValidityIs (result : Validity)
| ResultIs (result : Expr)
| Solvable (values : option (list (Array * bytes))).

Record LogEntry : Set := mkLog {
  log_type : QueryType;
  log_query : Query;
  log_exprs : list Expr;
  log_arrays : list Array;
  log_result : Logged;
}.

Section logging.
Context `{ArrayStore} {S : Type} (solver : SolverImpl S).

(** [startQuery], the call, [finishQuery] and what follows *)
Definition logged {A} (type : QueryType) (query : Query) (exprs : list Expr) (arrays : list Array)
    (m : M S (option A)) (print : A → outcome Logged) : M (list LogEntry * S) (option A) := λ '(os, s),
  '(r, s) ← m s;
  line ← (match r with Some a => print a | None => Done Failed end);
  Done (r, (os ++ [mkLog type query exprs arrays line], s)).

(** The loop that prints the bytes of the objects *)
Fixpoint print_values (objects : list Array) (values : list bytes) : outcome (list (Array * bytes)) :=
  match objects, values with
  | [], _ => Done []
  | _ :: _, [] => AssertFailed
  | array :: objects, data :: values =>
      let size := Z.to_nat (array_size (deref array)) in
      _ ← cassert (size <=? length data)%nat;
      rest ← print_values objects values;
      Done ((array, take size data) :: rest)
  end.

Definition print_solution (objects : list Array) (res : option (list bytes)) : outcome Logged :=
  match res with
  | None => Done (Solvable None)
  | Some values => lines ← print_values objects values; Done (Solvable (Some lines))
  end.

Definition PCLoggingSolver : SolverImpl (list LogEntry * S) :=
  mkImpl
    (λ query, logged TRUTH query [] [] (computeTruth solver query) (λ b, Done (IsValid b)))
    (λ query, logged VALIDITY query [] [] (computeValidity solver query) (λ v, Done (ValidityIs v)))
    (λ query, logged VALUE (withFalse query) [query_expr query] [] (computeValue solver query) (λ e, Done (ResultIs e)))
    (λ query objects, logged INITIAL_VALUES query [] objects (computeInitialValues solver query objects) (print_solution objects)).
End logging.

(** ** The solvers of S2E *)

Section s2e_solvers.
Context {S : Type} (solver : SolverImpl S).

(** The listeners of [onSolverQuery] get every query after it was answered. *)
Definition notify {A} (query : Query) (m : M S (option A)) : M (list Query * S) (option A) := λ '(signals, s),
  '(r, s) ← m s; Done (r, (signals ++ [query], s)).

Definition S2ENotificationSolver : SolverImpl (list Query * S) :=
  mkImpl (λ query, notify query (computeTruth solver query))
    (λ query, notify query (computeValidity solver query))
    (λ query, notify query (computeValue solver query))
    (λ query objects, notify query (computeInitialValues solver query objects)).

(** [logQueryStats] of the data collector.  The validity of a failed query is whatever
    the variable holds, which [None] stands for. *)
Context {D : Type} (logQueryStats : Query → QueryType → option Validity → M D unit).

Definition collect {A} (type : QueryType) (query : Query) (validity : A → Validity) (m : M S (option A)) :
    M (D * S) (option A) := λ '(d, s),
  '(r, s) ← m s; '(_, d) ← logQueryStats query type (validity <$> r) d; Done (r, (d, s)).

Definition DataCollectorSolver : SolverImpl (D * S) :=
  mkImpl (λ query, collect TRUTH query (λ b : bool, if b then VTrue else VFalse) (computeTruth solver query))
    (λ query, collect VALIDITY query id (computeValidity solver query))
    (λ query, collect VALUE query (λ _, VUnknown) (computeValue solver query))
    (λ query objects, collect INITIAL_VALUES query (λ _, VUnknown) (computeInitialValues solver query objects)).
End s2e_solvers.

(** ** Chains *)

(** A chain in front of a solver with the state [E]: its solver, its state when that of
    the end solver is given, and how to call the end solver *)
Record Chain (E : Type) : Type := mkChain {
  chain_state : Type;
  chain_solver : SolverImpl chain_state;
  chain_start : E → chain_state;
  chain_end : ∀ A, M E A → M chain_state A;
}.
Arguments mkChain {E}.
Arguments chain_state {E}.
Arguments chain_solver {E}.
Arguments chain_start {E}.
Arguments chain_end {E} c {A}.

(** A solver with the state [C] of its own *)
Definition wrap {E C} (wrapper : ∀ S, SolverImpl S → SolverImpl (C * S)) (start : C) (c : Chain E) : Chain E :=
  mkChain (C * chain_state c) (wrapper _ (chain_solver c)) (λ e, (start, chain_start c e))
    (λ A m, inner (chain_end c m)).

(** The methods of a solver on a larger state *)
Definition on_state {S S'} (f : ∀ A, M S A → M S' A) (solver : SolverImpl S) : SolverImpl S' :=
  mkImpl (λ q, f _ (computeTruth solver q)) (λ q, f _ (computeValidity solver q))
    (λ q, f _ (computeValue solver q)) (λ q objects, f _ (computeInitialValues solver q objects)).

Inductive EndSolverType : Set := SOLVER_STP | SOLVER_Z3.

Class FactoryOptions : Set := {
  EndSolver : EndSolverType;
  UseCexCache : bool;
  UseQueryPCLog : bool;
  UseEndQueryPCLog : bool;
  UseFastCexSolver : bool;
  UseCache : bool;
  UseIndependentSolver : bool;
  DebugValidateSolver : bool;
}.

Section factory.
Context `{APIntOps} `{ArrayStore} `{ObjectIdentity} `{Options} `{VisitorOptions} `{CexOptions} `{ManagerIdentity} `{NodeIdentity}.
Context `{FactoryOptions}.
Context (FastCexSolver : ∀ S, IncompleteSolver S).
Context {R : Type} (seed : R) (rand : M R Z).

Definition rand_of {S} : M (R * S) Z := λ '(g, s), '(z, g) ← rand g; Done (z, (g, s)).

(** [createValidatingSolver(solver, end_solver)] *)
Definition validated {E} (end_solver : SolverImpl E) (c : Chain E) : Chain E :=
  mkChain (R * chain_state c)
    (ValidatingSolver (on_state (λ A, inner) (chain_solver c))
      (on_state (λ A m, inner (chain_end c m)) end_solver) rand_of)
    (λ e, (seed, chain_start c e)) (λ A m, inner (chain_end c m)).

Definition end_chain {E} (end_solver : SolverImpl E) : Chain E := mkChain E end_solver id (λ A m, m).

(** A solver without a state *)
Definition in_front {E} (wrapper : ∀ S, SolverImpl S → SolverImpl S) (c : Chain E) : Chain E :=
  mkChain (chain_state c) (wrapper _ (chain_solver c)) (chain_start c) (λ A, chain_end c).

(** [DefaultSolverFactory::decorateSolver] *)
Definition default_decorateSolver {E} (end_solver : SolverImpl E) : Chain E :=
  let solver := end_chain end_solver in
  let solver := if UseEndQueryPCLog then wrap (@PCLoggingSolver _) [] solver else solver in
  let solver := if UseFastCexSolver then in_front (λ S, StagedSolver (FastCexSolver S)) solver else solver in
  let solver := if UseCexCache then wrap (λ S, CexCachingSolver) (mkCex empty_node []) solver else solver in
  let solver := if UseCache then wrap (λ S, CachingSolver) [] solver else solver in
  let solver := match UseIndependentSolver, EndSolver with
                | true, SOLVER_STP => in_front (λ S, IndependentSolver) solver
                | _, _ => solver
                end in
  let solver := if DebugValidateSolver then validated end_solver solver else solver in
  if UseQueryPCLog then wrap (@PCLoggingSolver _) [] solver else solver.

(** [S2ESolverFactory::decorateSolver] *)
Definition s2e_decorateSolver {E D} (logQueryStats : Query → QueryType → option Validity → M D unit) (database : D)
    (end_solver : SolverImpl E) : Chain E :=
  let solver := default_decorateSolver end_solver in
  let solver := wrap (λ S solver, DataCollectorSolver solver logQueryStats) database solver in
  wrap (λ S, S2ENotificationSolver) [] solver.
End factory.

(** ** Correctness *)

Section chain_correct.
Context `{APIntLaws} `{WfStore} `{ObjectIdentity} `{Options} `{VisitorOptions} `{CexOptions} `{ManagerIdentity} `{NodeIdentity}.
Context `{QueryClass}.

(** The contract of a solver, where that of [computeInitialValues] is subject to [init] *)
Record sound_if {S} (init : Prop) (fail : Prop) (impl : SolverImpl S) (Inv : S → Prop) : Prop := {
  sound_if_truth q : wf_query q → answers fail (computeTruth impl q) Inv (truth_ok q);
  sound_if_validity q : wf_query q → answers fail (computeValidity impl q) Inv (validity_ok q);
  sound_if_value q :
    wf_value_query q →
    answers fail (computeValue impl q) Inv (λ e,
      ∃ ρ, models (constraints q) ρ ∧ e = const (eval ρ (query_expr q)) (getWidth (query_expr q)));
  sound_if_initial q objects :
    init → wf_query q → answers fail (computeInitialValues impl q objects) Inv (solution_ok q objects);
}.

Lemma sound_sound_if {S} (init fail : Prop) (impl : SolverImpl S) Inv :
  sound fail impl Inv → sound_if init fail impl Inv.
Proof. intros [????]. split; auto. Qed.

Lemma sound_if_sound {S} (init fail : Prop) (impl : SolverImpl S) Inv :
  init → sound_if init fail impl Inv → sound fail impl Inv.
Proof. intros ? [????]. split; auto. Qed.

Lemma sound_mono {S} (fail fail' : Prop) (impl : SolverImpl S) Inv :
  (fail → fail') → sound fail impl Inv → sound fail' impl Inv.
Proof. intros Hf [????]. split; intros; (eapply answers_mono; [eauto|done..]). Qed.

Section solvers.
Context {S : Type} (solver : SolverImpl S) (init fail : Prop) (Inv : S → Prop).
Context (Hsolver : sound_if init fail solver Inv).

Abbreviation beside := (with_inner Inv (λ _, True)).

Lemma logged_ok {A} type q exprs arrays (m : M S (option A)) print P :
  answers fail m Inv P → (∀ a, P a → print a ⇓ (λ _, True)) →
  answers fail (logged type q exprs arrays m print) beside P.
Proof.
  intros Hm Hp [os s] [_ Hs]. specialize (Hm s Hs). unfold runs, logged in *. cbn.
  apply yields_bind. eapply yields_mono; [exact Hm|]. intros [r s'] [Hs' Hr].
  apply yields_bind. eapply (yields_mono _ (λ _, True)); [destruct r; [by apply Hp|done]|]. by intros line _.
Qed.

(** The bytes of a counterexample can be printed. *)
Lemma print_values_ok ρ objects : print_values objects (object_bytes ρ <$> objects) ⇓ (λ _, True).
Proof.
  induction objects as [|a objects IH]; [done|]. cbn [print_values fmap list_fmap].
  rewrite (proj2 (Nat.leb_le _ _)) by (unfold object_bytes; by rewrite length_fmap, length_seq).
  apply yields_bind, yields_done, yields_bind. by eapply yields_mono; [exact IH|].
Qed.

Lemma PCLoggingSolver_ok : sound_if init fail (PCLoggingSolver solver) beside.
Proof.
  split; intros; apply logged_ok; try done; try by apply Hsolver.
  intros [values|] Hv; [|done]. destruct Hv as (ρ & _ & _ & ->). apply yields_bind. by eapply yields_mono; [apply print_values_ok|].
Qed.

Lemma notify_ok {A} q (m : M S (option A)) P :
  answers fail m Inv P → answers fail (notify q m) beside P.
Proof.
  intros Hm [l s] [_ Hs]. specialize (Hm s Hs). unfold runs, notify in *. cbn.
  apply yields_bind. eapply yields_mono; [exact Hm|]. by intros [r s'] [Hs' Hr].
Qed.

Lemma S2ENotificationSolver_ok : sound_if init fail (S2ENotificationSolver solver) beside.
Proof. split; intros; by apply notify_ok, Hsolver. Qed.

Context {D : Type} (logQueryStats : Query → QueryType → option Validity → M D unit).
Context (Hstats : ∀ q type v d, logQueryStats q type v d ⇓ (λ _, True)).

Lemma collect_ok {A} type q validity (m : M S (option A)) P :
  answers fail m Inv P → answers fail (collect logQueryStats type q validity m) beside P.
Proof.
  intros Hm [d s] [_ Hs]. specialize (Hm s Hs). unfold runs, collect in *. cbn.
  apply yields_bind. eapply yields_mono; [exact Hm|]. intros [r s'] [Hs' Hr].
  apply yields_bind. eapply yields_mono; [apply Hstats|]. by intros [[] d'] _.
Qed.

Lemma DataCollectorSolver_ok : sound_if init fail (DataCollectorSolver solver logQueryStats) beside.
Proof. split; intros; by apply collect_ok, Hsolver. Qed.
End solvers.

Section chains.
Context {E : Type} (end_solver : SolverImpl E) (fail : Prop) (InvE : E → Prop).
Context (Hend : sound fail end_solver InvE).

(** [Inv] holds when the chain starts, and the chain answers correctly as long as it
    holds; the end solver can be asked in between. *)
Record chain_ok (init : Prop) (c : Chain E) (Inv : chain_state c → Prop) : Prop := {
  chain_sound : sound_if init fail (chain_solver c) Inv;
  chain_asks A (m : M E (option A)) P : answers fail m InvE P → answers fail (chain_end c m) Inv P;
  chain_begins e : InvE e → Inv (chain_start c e);
}.

Definition correct (init : Prop) (c : Chain E) : Prop := ∃ Inv, chain_ok init c Inv.

Lemma correct_weaken init c : correct True c → correct init c.
Proof. intros (Inv & [Hs ??]). exists Inv. split; [|done..]. by apply sound_sound_if, (sound_if_sound True). Qed.

Lemma end_chain_ok : correct True (end_chain end_solver).
Proof. exists InvE. split; [by apply sound_sound_if|done..]. Qed.

Lemma wrap_ok {C} init wrapper (start : C) c :
  (∀ S (solver : SolverImpl S) Inv, sound_if init fail solver Inv →
    ∃ J, sound_if init fail (wrapper S solver) (with_inner Inv J) ∧ J start) →
  correct init c → correct init (wrap wrapper start c).
Proof.
  intros Hw (Inv & [Hs Ha Hb]). destruct (Hw _ _ _ Hs) as (J & HJ & Hstart).
  exists (with_inner Inv J). split; [done|intros; by apply inner_ok, Ha|]. intros e He. split; [done|by apply Hb].
Qed.

Lemma in_front_ok wrapper c :
  (∀ S (solver : SolverImpl S) Inv, sound fail solver Inv → sound fail (wrapper S solver) Inv) →
  correct True c → correct True (in_front wrapper c).
Proof.
  intros Hw (Inv & [Hs Ha Hb]). exists Inv. split; [|done..]. by apply sound_sound_if, Hw, (sound_if_sound True).
Qed.

Lemma on_state_sound {S S'} (f : ∀ A, M S A → M S' A) (solver : SolverImpl S) Inv Inv' :
  (∀ A (m : M S (option A)) P, answers fail m Inv P → answers fail (f _ m) Inv' P) →
  sound fail solver Inv → sound fail (on_state f solver) Inv'.
Proof. intros Hf Hs. split; intros; by apply Hf, Hs. Qed.

Lemma validated_ok {R} (seed : R) rand c :
  (ConstArrayOpt = true → in_range_only = true) →
  correct True c → correct False (validated seed rand end_solver c).
Proof.
  intros Hrange (Inv & [Hs%(sound_if_sound True) Ha Hb]); [|done]. set (Inv' := with_inner Inv (λ _ : R, True)).
  assert (sound fail (on_state (λ A, inner) (chain_solver c)) Inv') as Hsolver.
  { eapply on_state_sound; [|exact Hs]. intros. by apply inner_ok. }
  assert (sound fail (on_state (λ A m, inner (chain_end c m)) end_solver) Inv') as Horacle.
  { eapply on_state_sound; [|exact Hend]. intros. by apply inner_ok, Ha. }
  exists Inv'. split; [split| |].
  - intros q. by apply validating_truth_ok.
  - intros q. by apply validating_validity_ok.
  - intros q. by apply validating_value_ok.
  - done.
  - intros. by apply inner_ok, Ha.
  - intros e He. split; [done|by apply Hb].
Qed.
End chains.

Section factories.
Context `{FactoryOptions} (FastCexSolver : ∀ S, IncompleteSolver S) {R : Type} (seed : R) (rand : M R Z).
Context {D : Type} (logQueryStats : Query → QueryType → option Validity → M D unit) (database : D).
Context {E : Type} (end_solver : SolverImpl E) (fail : Prop) (InvE : E → Prop).
Context (Hend : sound fail end_solver InvE).
Context (Hfast : UseFastCexSolver = true → ∀ S (Inv : S → Prop), incomplete_sound (FastCexSolver S) Inv).
Context (Hcomp : UseCexCache = true → computable_only = true).
Context (Hrange : UseIndependentSolver = true ∨ ConstArrayOpt = true → in_range_only = true).
Context (Hstats : ∀ q type v d, logQueryStats q type v d ⇓ (λ _, True)).

Definition chain_fails : Prop := fail ∨ UseCexCache = true ∧ CexCacheExperimental = true.

Abbreviation correct_if := (correct chain_fails InvE).

Lemma wrap_log_ok init c : correct_if init c → correct_if init (wrap (@PCLoggingSolver _) [] c).
Proof. apply wrap_ok. intros S solver Inv Hs. exists (λ _, True). split; [by apply PCLoggingSolver_ok|done]. Qed.

Lemma wrap_cex_ok c :
  UseCexCache = true → correct_if True c → correct_if True (wrap (λ S, CexCachingSolver) (mkCex empty_node []) c).
Proof.
  intros Hu. apply wrap_ok. intros S solver Inv Hs%(sound_if_sound True); [|done].
  destruct (CexCachingSolver_sound (Hcomp Hu) solver chain_fails Inv Hs) as [Hc Hstart].
  exists cex_ok. split; [|by split_and!; [apply tree_ok_empty|intros [|? ?]|constructor]].
  apply sound_sound_if. eapply sound_mono; [|exact Hc]. intros [?|?]; [done|]. by right.
Qed.

Lemma wrap_cache_ok c : correct_if True c → correct_if True (wrap (λ S, CachingSolver) [] c).
Proof.
  apply wrap_ok. intros S solver Inv Hs%(sound_if_sound True); [|done].
  exists cache_ok. split; [|constructor]. by apply sound_sound_if, CachingSolver_sound.
Qed.

Lemma optional_ok init (decorate : Chain E → Chain E) (b : bool) c :
  (b = true → correct_if init c → correct_if init (decorate c)) →
  correct_if init c → correct_if init (if b then decorate c else c).
Proof. destruct b; auto. Qed.

Lemma validate_ok c :
  correct_if True c →
  correct_if (DebugValidateSolver = false) (if DebugValidateSolver then validated seed rand end_solver c else c).
Proof.
  intros Hc. destruct DebugValidateSolver; [|by apply correct_weaken].
  assert (sound chain_fails end_solver InvE) as Hend' by (eapply sound_mono; [|exact Hend]; by left).
  destruct (validated_ok end_solver chain_fails InvE Hend' seed rand c ltac:(auto) Hc) as (Inv & [[] ??]).
  exists Inv. split; [|done..]. by split.
Qed.

Lemma default_decorateSolver_ok :
  correct_if (DebugValidateSolver = false) (default_decorateSolver FastCexSolver seed rand end_solver).
Proof.
  apply (optional_ok _ (wrap _ _)); [intros _; apply wrap_log_ok|]. apply validate_ok.
  assert (∀ c, correct_if True c → correct_if True
    (match UseIndependentSolver, EndSolver with true, SOLVER_STP => in_front (λ S, IndependentSolver) c | _, _ => c end)) as Hind.
  { intros c Hc. destruct UseIndependentSolver; [|done]. destruct EndSolver; [|done]. apply in_front_ok; [|done].
    intros. apply IndependentSolver_sound; auto. }
  apply Hind, (optional_ok _ (wrap _ _)); [intros _; apply wrap_cache_ok|].
  apply (optional_ok _ (wrap _ _)); [apply wrap_cex_ok|].
  apply (optional_ok _ (in_front _)).
  { intros Hu. apply in_front_ok. intros. apply StagedSolver_sound; auto. }
  apply (optional_ok _ (wrap _ _)); [intros _; apply wrap_log_ok|].
  apply end_chain_ok. eapply sound_mono; [|exact Hend]. by left.
Qed.

Lemma s2e_decorateSolver_ok :
  correct_if (DebugValidateSolver = false)
    (s2e_decorateSolver FastCexSolver seed rand logQueryStats database end_solver).
Proof.
  apply wrap_ok.
  { intros S solver Inv Hs. exists (λ _, True). split; [by apply S2ENotificationSolver_ok|done]. }
  apply wrap_ok, default_decorateSolver_ok.
  intros S solver Inv Hs. exists (λ _, True). split; [by apply DataCollectorSolver_ok|done].
Qed.

End factories.

End chain_correct.

Section witnesses.
#[local] Existing Instance Sample.store.
#[local] Existing Instance Sample.store_wf.
#[local] Existing Instance identity.
#[local] Existing Instance plain_factory.
#[local] Existing Instance short_names.
#[local] Existing Instance limited.
#[local] Existing Instance limited_laws.
#[local] Existing Instance builder_options.
#[local] Existing Instance reference_procedure.
#[local] Existing Instance structural_managers.
#[local] Existing Instance unshared_nodes.
#[local] Instance opt_on : Options := const_array_opt true.
#[local] Instance hash_on : VisitorOptions := {| UseVisitorHash := true |}.
#[local] Instance computable : QueryClass := {| in_range_only := true; computable_only := true; buildable_only := true |}.
#[local] Instance in_process : STPOptions := {| ReinstantiateSolver := false; useForkedSTP := false; timeout := 0 |}.
#[local] Instance no_children : Processes := λ _, ForkFails.
#[local] Instance plain_cex : CexOptions :=
  {| CexCacheTryAll := false; CexCacheExperimental := false; DebugCexCacheCheckBinding := true |}.
#[local] Instance all_solvers : FactoryOptions := {|
  EndSolver := SOLVER_STP; UseCexCache := true; UseQueryPCLog := true; UseEndQueryPCLog := true;
  UseFastCexSolver := false; UseCache := true; UseIndependentSolver := true; DebugValidateSolver := false |}.

(** A database that counts the queries *)
Definition count_queries (q : Query) (type : QueryType) (v : option Validity) : M nat unit := λ n, Done (tt, 1 + n)%nat.

End witnesses.
